(* ===== verification/_CoqProject ===== *)
-Q . S2P
Prelude.v
GoStrings.v
GoNum.v
Json.v
Apisix.v
Compare.v
StringSet.v
Manifest.v
Storage.v
Agent.v
Xds.v
Endpoint.v
JsonParse.v
AmeshPlugins.v
RouteTranslator.v
RouteSpec.v
Finite.v
JsonRoundtrip.v
UpstreamJson.v
UpstreamRoundtrip.v
FloatText.v
Provisioner.v
Translate.v
Sync.v
Delivery.v
UpstreamSync.v
Typing.v
StoreContent.v
Responses.v
Concurrency.v
ControllerTypes.v
ControllerUtils.v
SelectorCache.v
Lister.v
Reconciler.v
Interleaving.v
Steady.v
DeepCopy.v
GrpcServer.v
Server.v
OneStream.v
Notification.v
Convergence.v
Aim.v
Deletion.v
WorkQueue.v
Arrival.v
Stranded.v
ServerRefines.v
Resend.v
Propagation.v
Metrics.v
Validate.v
ValidateSpec.v
ControllerAgent.v
Client.v
FakeClient.v
Registration.v
StatusLoop.v
Informers.v
Startup.v
Iptables.v
HttpHandlers.v
Shutdown.v
Commands.v
CommandLine.v
