(* ===== verification/Prelude.v ===== *)
(** * Amesh: a verification development

    Amesh is a service mesh data plane for Apache APISIX.  An agent, loaded
    into APISIX as a shared library, receives the mesh configuration of a
    control plane (Istio) over xDS, translates it into APISIX routes and
    upstreams, and writes their JSON documents into nginx shared dictionaries
    that APISIX reads.  A controller watches AmeshPluginConfig resources in
    Kubernetes and streams the plugins of each pod to its agent, which patches
    them into the routes.  A third command installs the iptables rules that
    send the traffic of a pod through APISIX.

    ** How the parts interact and where they are modelled

    <<
      control plane --responses--> xdsProvisioner --events--> Agent --> Storage
                                     ^      |
                        plugins, ping|      | requests, acknowledgements
                          ameshProvisioner  v
                                     ^     control plane
                                     | PluginsResponse
      API server --> Reconciler --> GRPCController
    >>

    Foundations (no counterpart in src/, only Go's language and library):
    - Prelude: Go outcomes (a call returns or panics), errors, the order in
      which Go visits a map (the scheduler [GoRange], over which theorems
      quantify), last-writer-wins maps, list lemmas and automation.
    - GoStrings, GoNum: package strings and strconv, conversions between
      machine integers, float64 arithmetic on Stdlib's [spec_float], the number
      formats of encoding/json.
    - Json, JsonParse, JsonRoundtrip: encoding/json: documents, printing with
      its escapes and key order, parsing with its depth limit, and the proof
      that parsing inverts printing.
    - Xds: the protobuf messages of envoy that the code reads, with their
      getters, and [XdsLib], the parameter for what is not in src/ (id hashing,
      unmarshalling of Any).
    - ControllerTypes: the Kubernetes data of the controller, with [K8sLib] for
      apimachinery's functions and [K8sLaws] for their documentation.

    The agent:
    - Apisix (pkg/apisix/{base,plugins,route,upstream}.go): data and its JSON;
      UpstreamJson and UpstreamRoundtrip: decoding, and the round trip; FloatText:
      that the JSON text of a whole number below 2^53 is read back.
    - StringSet, Manifest (pkg/amesh/util), Compare (pkg/apisix/utils): the
      comparison of two generations of resources and the events for it.
    - Storage (pkg/apisix/storage): class [Storage] with laws [StorageLaws];
      the shared dictionary and a plain map are its instances.
    - Agent (pkg/amesh/agent.go): storing events, the event loop, the handlers.
    - Endpoint ({cluster,endpoint}_translator.go), RouteTranslator and RouteSpec
      (route_translator.go): the translation and its specification.
    - AmeshPlugins (amesh.go): the plugins of the pod and the connection.
    - Provisioner, Translate (xds.go, translator.go): the state of the xDS
      provisioner, its loops, and [translate] for the five resource types.
    - HttpHandlers (agent.go): routing, the status page and the metrics proxy.
    - Shutdown (agent.go): the life of the process, its servers and its stop.
    - Commands (cmd/dynamic, cmd/standalone): how agents are started;
      CommandLine: flags, signals and the version.

    The controller (src/controller):
    - ControllerUtils (utils/compare.go, status.go), SelectorCache, Reconciler
      (the reconcile loop), with critical sections as atomic steps; Interleaving
      has the same code as programs of single accesses to the shared memory.
    - DeepCopy (zz_generated.deepcopy.go): copies over an explicit heap, and
      [recordStatus] on memory.
    - Client, Lister, Informers (apis/client): the typed client as requests, the
      listers over an indexer, the informer factory as a state machine.
    - StatusLoop: the reconciler and the API server that its status writes wake.
    - Startup (main.go): the calls of the start-up, in order, and its failures.
    - GrpcServer (pkg/grpc_server.go, instance_manager.go): streams, blocked
      senders, the instance manager; Metrics (pkg/metrics): the exported gauge.
    - Server: the goroutines of Interleaving and the streams of GrpcServer as one
      system; Steady: what the goroutines do while the cluster answers, one
      program logic over their accesses; Notification: liveness of that system
      against an interface, whose laws Convergence (updates) and Deletion
      discharge; Aim: what the worker of a configuration brings about, against
      another; WorkQueue: the same system with the worker fed by a work queue,
      given by its operations and their promises; Arrival: both aims put into
      it, from the request to the pods; ServerRefines: the system implements the
      atomic plugin server; OneStream: runs with one stream and one worker, of
      which Resend has one whose messages leave an agent without plugins and
      Stranded two that leave a pod without them.
    - FakeClient (clientset/versioned/fake): the test double of the typed client;
      Registration (zz_generated.register.go, scheme/register.go): the schemes.
    - ControllerAgent, Propagation: controller and agent together.

    The protocol between the two (api/go/proto/v1): Validate has the generated
    validators, ValidateSpec the rules of the .proto files and what is proved of
    them.  Iptables: cmd/iptables (its flags and main are in CommandLine).

    State is passed explicitly: an operation takes the old state and returns
    the new one with its effects in order (requests, batches of events,
    notifications).  A panic is the value [Panic].  Goroutines are interleaved
    steps of inductive relations: [Sync.sys_step] (provisioner and store),
    [Delivery.delivery_step] (the same with batches of events in flight),
    [StoreContent.mesh_step] (the same system, with what its whole store is
    due), [Concurrency.plugin_step] (the lock and channel of the plugin updates and the
    loop that patches the routes),
    [Interleaving.controller_run] (workers, queries and pod handlers of the
    controller, one access at a time), [GrpcServer.grpc_step] (streams and
    blocked senders), [Server.served_step] (both together),
    [WorkQueue.controller_step] (with the work queue), [Shutdown.life_step] (the
    agent's servers, its event loop and the exit of the process).

    ** What the theorems show

    - The store follows the provisioner: Sync and Delivery (routes, for every
      sequence of responses, plugin messages and refreshes, the batches of
      events arriving at any later time but in order, by a simulation of the
      asynchronous system in the synchronous one), UpstreamSync (upstreams), over
      Finite (every stored value has a JSON document), Agent.storeEvents_sync
      (the events of two manifests turn the content of one into the other's).
      StoreContent puts routes and upstreams together: every key of the store
      and its document.  Typing: the shape of every route, upstream and plugin in
      every reachable state.
    - Functional specifications of the translations (RouteSpec, Endpoint,
      UpstreamSync, Responses), on every branch, errors included; independence
      of the map iteration order; bounds of ports, weights and percentages.
    - Totality: which messages cannot crash the agent (Responses), that the
      controller never panics (Reconciler).
    - Round trips: JSON (JsonRoundtrip), upstreams (UpstreamSync).
    - The controller: what a pod is served and who is notified (Reconciler),
      delivery of notifications (GrpcServer), the whole way from the custom
      resources to the agent's plugins, at the start (ControllerAgent) and for
      an update (Propagation); safety under every interleaving, and that a
      program run alone is the atomic operation (Interleaving).  For one
      configuration among arbitrary others, for a pod that stays with its
      labels, and under the condition that every version selects the pod with
      the same selector and lists no plugin twice: no update is lost and the
      goroutines come to rest with the registered stream of the pod up to date,
      under any scheduling (Convergence), a deletion takes the configuration out
      of that stream (Deletion), and what the cluster holds when a request is
      due arrives there (Arrival).  The registered stream is the only one of the
      pod as long as none of its streams opens before the last one has ended;
      the code does not check that, and the end of an older stream takes the
      registration of a newer one away ([GrpcServer.reconnect_unregisters]).
      The interleaved server implements the atomic one, with any number of
      streams for a pod (ServerRefines); termination of
      the loop of status writes (StatusLoop); that a recorded status shares no
      memory with the caches (DeepCopy); the start-up (Startup).
    - The protocol: the validators accept exactly what the rules allow and
      report the first or all of the violations; what the controller sends
      passes them (ValidateSpec).
    - The agent's HTTP side: what a scrape of the metrics returns (HttpHandlers).
    - Interception: which packets the iptables rules redirect (Iptables).
    - Defects, each stated as a theorem about the code as it is: batches that
      overtake each other (Delivery), plugins lost on a reconnection or an
      update (AmeshPlugins) and at the first installation (Resend), pods that
      are never told of a configuration, because the queries' index lags behind
      the reconciler's or because the resource is created again (Stranded), a
      deadlock and a leak of goroutines (Concurrency),
      a leaked upstream, panics and dropped plugins (Responses), selector
      changes and failed listings that notify nobody (Reconciler), a stale
      selector that a query writes over a newer one (Interleaving), a stream cut
      off by a reconnection (GrpcServer), a nil client after a failed start
      (Startup), a stop that races with a fatal error or ends in a send on a
      closed channel (Shutdown), requests and messages that break the protocol's own rules
      (ValidateSpec).

    ** Bounds and fuel

    - [JsonParse.parse_value] takes fuel: [parse_json] gives it twice the length
      of the text and one more, and [JsonRoundtrip.parse_print] shows that this
      is enough for every printed document of depth at most [max_depth], the
      limit of encoding/json.
    - The number formats search at most 17 digits, which determine a float64
      (9 determine a float32); digit counts take as fuel the binary logarithm.
    - [Iptables.run_chain] takes the depth of chains: three levels suffice for
      every configuration ([Iptables.interception_spec]).
    Everything else is structural recursion.  Where a system runs on, the
    theorem says that it comes to rest, by a well-founded order on its states
    and a step for every state that is not at rest ([Notification.eventually]).

    ** What is not modelled, and why

    Sockets, gRPC and HTTP servers, timers and sleeps, logging and colours (I/O
    without influence on the state); controller-runtime, client-go, apimachinery,
    cobra and the Prometheus client, which are parameters with their documented
    behaviour; the protobuf encoding and the gRPC stubs (generated code over a
    runtime library); the memory of the shared dictionary in C; the text of
    errors that only gets printed, where it comes from a library; the end-to-end
    tests (src/e2e).  Shutdown assumes that http.Server.Shutdown returns.
    DeepCopy treats a LabelSelector, which apimachinery copies, as one cell.
    WorkQueue takes the queue and the single worker of controller-runtime as its
    documentation describes them: a retry is a request that comes back at any
    later time, without its delay.

    Of the files modelled, what no definition covers are imports, comments,
    interface declarations whose methods are definitions of their own, variables
    that keep imports in use, and the repeated accessors of the validators'
    error types, which Validate defines once. *)

From stdpp Require Export base decidable list strings gmap fin_maps sorting pretty.
From Stdlib Require Export Ascii ZArith Lia.

(** ** Go outcomes

    A Go call either returns or panics (nil dereference, index out of range,
    write to a nil map).  The [error] results of Go functions are ordinary
    values and are returned inside [Ret]. *)

Inductive outcome (A : Type) : Type :=
| Ret (a : A)
| Panic (why : string).

Arguments Ret {A} a.
Arguments Panic {A} why.

#[export] Instance outcome_ret : MRet outcome := λ A a, Ret a.
#[export] Instance outcome_bind : MBind outcome := λ A B f m,
  match m with Ret a => f a | Panic w => Panic w end.
#[export] Instance outcome_fmap : FMap outcome := λ A B f m,
  match m with Ret a => Ret (f a) | Panic w => Panic w end.

(** A Go loop whose body may panic. *)
Fixpoint go_foldl {A B} (f : B → A → outcome B) (acc : B) (l : list A) : outcome B :=
  match l with
  | [] => Ret acc
  | x :: l' => acc' ← f acc x; go_foldl f acc' l'
  end.

(** Dereference of a pointer field. *)
Definition deref {A} (why : string) (o : option A) : outcome A :=
  match o with Some a => Ret a | None => Panic why end.

Definition is_ret {A} (m : outcome A) : bool :=
  match m with Ret _ => true | Panic _ => false end.

(** ** Go error values

    [ErrorRequireFurtherEDS] is the sentinel that the code compares by
    identity; every other error is only ever printed. *)

Inductive error : Type :=
| ErrorRequireFurtherEDS
| Errorf (msg : string).

#[export] Instance error_eq_dec : EqDecision error.
Proof. solve_decision. Defined.

(** [err.Error()] *)
Definition error_text (e : error) : string :=
  match e with
  | ErrorRequireFurtherEDS => "require further eds"
  | Errorf msg => msg
  end.

(** ** Iteration order of Go maps

    [range] over a Go map visits the entries in an unspecified order.  A
    [GoRange] is a scheduler that fixes the order of every executed loop: the
    first argument names the loop execution.  Theorems quantify over it. *)

Class GoRange := {
  range : ∀ {A}, string → gmap string A → list (string * A);
  range_perm : ∀ A seed (m : gmap string A), range seed m ≡ₚ map_to_list m
}.

Definition range_keys `{GoRange} (seed : string) (s : gset string) : list string :=
  (range seed (gset_to_gmap () s)).*1.

(** The scheduler that uses the order of the map's representation. *)
Definition map_order : GoRange := {|
  range := λ A _ m, map_to_list m;
  range_perm := λ A _ m, Permutation_refl _
|}.

(** ** Last-writer-wins maps built by Go loops of the form
    [for _, r := range l { m[key(r)] = r }] *)

Definition last_by {A} (key : A → string) (l : list A) : gmap string A :=
  foldl (λ m r, <[key r := r]> m) ∅ l.

(** The last element of a list that satisfies a predicate. *)
Definition last_such {A} (P : A → Prop) (l : list A) (x : A) : Prop :=
  ∃ l1 l2, l = l1 ++ x :: l2 ∧ P x ∧ ∀ y, y ∈ l2 → ¬ P y.

(** ** Automation *)

#[export] Set Warnings "-clear-no-such-hyp".

Create HintDb amesh.

Ltac destruct_outcome H :=
  match type of H with
  | mbind _ ?m = Ret _ => let E := fresh "E" in destruct m eqn:E; [simpl in H|discriminate H]
  end.

Ltac outcome_inv := repeat match goal with
  | H : mbind _ ?m = Ret _ |- _ => let E := fresh "E" in destruct m eqn:E; simpl in H; [|discriminate H]
  | H : Ret _ = Ret _ |- _ => injection H as H
  | H : Panic _ = Ret _ |- _ => discriminate H
  | H : Ret _ = Panic _ |- _ => discriminate H
  end.

Ltac case_eq_match :=
  match goal with
  | |- context [match ?x with _ => _ end] => destruct x eqn:?
  end.

(** ** Lemmas on outcomes *)

Lemma bind_ret {A B} (m : outcome A) (f : A → outcome B) b :
  (m ≫= f) = Ret b ↔ ∃ a, m = Ret a ∧ f a = Ret b.
Proof. destruct m; simpl; naive_solver. Qed.

Lemma outcome_bind_assoc {A B C} (m : outcome A) (f : A → outcome B) (g : B → outcome C) :
  ((m ≫= f) ≫= g) = (m ≫= λ a, f a ≫= g).
Proof. by destruct m. Qed.

Lemma go_foldl_cons {A B} (f : B → A → outcome B) acc x l :
  go_foldl f acc (x :: l) = (f acc x ≫= λ acc', go_foldl f acc' l).
Proof. done. Qed.

Lemma go_foldl_app {A B} (f : B → A → outcome B) acc l1 l2 :
  go_foldl f acc (l1 ++ l2) = (go_foldl f acc l1 ≫= λ acc', go_foldl f acc' l2).
Proof.
  revert acc; induction l1 as [|x l1 IH]; intros acc; simpl; [done|].
  destruct (f acc x); simpl; auto.
Qed.

Lemma go_foldl_ret {A B} (f : B → A → B) acc l :
  go_foldl (λ b a, Ret (f b a)) acc l = Ret (foldl f acc l).
Proof. revert acc; induction l as [|x l IH]; intros acc; simpl; auto. Qed.

(** A loop invariant: what each iteration preserves holds at the end. *)
Lemma go_foldl_inv {A B} (P : B → Prop) (f : B → A → outcome B) l acc acc' :
  P acc →
  (∀ b a b', a ∈ l → P b → f b a = Ret b' → P b') →
  go_foldl f acc l = Ret acc' → P acc'.
Proof.
  revert acc; induction l as [|x l IH]; intros acc HP Hstep Hrun; simpl in Hrun.
  - by injection Hrun as <-.
  - apply bind_ret in Hrun as (b & Hb & Hrun).
    apply (IH b); [|intros; eapply Hstep; [by right|eauto..]|done].
    eapply Hstep; [by left|eauto..].
Qed.

(** A loop whose body never panics on the elements of the list returns. *)
Lemma go_foldl_total {A B} (f : B → A → outcome B) l acc :
  (∀ b a, a ∈ l → ∃ b', f b a = Ret b') → ∃ acc', go_foldl f acc l = Ret acc'.
Proof.
  revert acc; induction l as [|x l IH]; intros acc Hf; simpl; [eauto|].
  destruct (Hf acc x) as [b' ->]; [by left|]. simpl.
  apply IH. intros b a Ha. apply Hf. by right.
Qed.

Lemma list_filter_all {A} (P : A → Prop) `{∀ x, Decision (P x)} (l : list A) :
  (∀ x, x ∈ l → P x) → filter P l = l.
Proof.
  induction l as [|x l IH]; intros Hall; [done|]. rewrite filter_cons_True by (apply Hall; by left).
  f_equal. apply IH. intros y Hy. apply Hall. by right.
Qed.

(** ** Lemmas on map iteration *)

Lemma elem_of_range `{GoRange} {A} seed (m : gmap string A) k x :
  (k, x) ∈ range seed m ↔ m !! k = Some x.
Proof. rewrite range_perm. apply elem_of_map_to_list. Qed.

Lemma NoDup_fst_range `{GoRange} {A} seed (m : gmap string A) : NoDup (range seed m).*1.
Proof. rewrite range_perm. apply NoDup_fst_map_to_list. Qed.

Lemma length_range `{GoRange} {A} seed (m : gmap string A) : length (range seed m) = size m.
Proof. rewrite range_perm. apply length_map_to_list. Qed.

Lemma range_empty `{GoRange} {A} seed : range seed (∅ : gmap string A) = [].
Proof. apply Permutation_nil. by rewrite range_perm, map_to_list_empty. Qed.

Lemma range_singleton `{GoRange} {A} seed k (x : A) : range seed {[k := x]} = [(k, x)].
Proof. apply Permutation_singleton_r. by rewrite range_perm, map_to_list_singleton. Qed.

Lemma elem_of_range_keys `{GoRange} seed s k : k ∈ range_keys seed s ↔ k ∈ s.
Proof.
  unfold range_keys. rewrite list_elem_of_fmap. split.
  - intros ([k' []] & -> & Hk). rewrite elem_of_range in Hk.
    by apply lookup_gset_to_gmap_Some in Hk as [? _].
  - intros Hk. exists (k, ()). split; [done|]. apply elem_of_range.
    by apply lookup_gset_to_gmap_Some.
Qed.

Lemma NoDup_range_keys `{GoRange} seed s : NoDup (range_keys seed s).
Proof. apply NoDup_fst_range. Qed.

Lemma range_keys_perm `{GoRange} seed s : range_keys seed s ≡ₚ elements s.
Proof.
  apply NoDup_Permutation; [apply NoDup_range_keys|apply NoDup_elements|].
  intros k. by rewrite elem_of_range_keys, elem_of_elements.
Qed.

#[export] Hint Resolve NoDup_fst_range NoDup_range_keys : amesh.

(** ** Lemmas on last-writer-wins maps *)

Lemma last_by_nil {A} (key : A → string) : last_by key [] = ∅.
Proof. done. Qed.

Lemma last_by_app {A} (key : A → string) l1 l2 :
  last_by key (l1 ++ l2) = foldl (λ m r, <[key r := r]> m) (last_by key l1) l2.
Proof. apply foldl_app. Qed.

Lemma last_by_snoc {A} (key : A → string) l r :
  last_by key (l ++ [r]) = <[key r := r]> (last_by key l).
Proof. unfold last_by. by rewrite foldl_app. Qed.

Lemma last_by_Some {A} (key : A → string) l k r :
  last_by key l !! k = Some r → r ∈ l ∧ key r = k.
Proof.
  induction l as [|r' l IH] using rev_ind; [by rewrite last_by_nil, lookup_empty|].
  rewrite last_by_snoc, lookup_insert. case_decide as Hk.
  - intros [= ->]. split; [|done]. apply elem_of_app. right. by left.
  - intros [? ?]%IH. split; [|done]. apply elem_of_app. by left.
Qed.

Lemma last_by_None {A} (key : A → string) l k :
  last_by key l !! k = None ↔ ∀ r, r ∈ l → key r ≠ k.
Proof.
  induction l as [|r' l IH] using rev_ind.
  - rewrite last_by_nil, lookup_empty. split; [|done]. intros _ r Hr. by apply elem_of_nil in Hr.
  - rewrite last_by_snoc, lookup_insert. case_decide as Hk.
    + split; [done|]. intros H. destruct (H r'); [|done].
      apply elem_of_app. right. by left.
    + rewrite IH. split.
      * intros H r [Hr| ->%list_elem_of_singleton]%elem_of_app; [by apply H|done].
      * intros H r Hr. apply H. apply elem_of_app. by left.
Qed.

Lemma last_by_is_Some {A} (key : A → string) l r :
  r ∈ l → is_Some (last_by key l !! key r).
Proof.
  intros Hr. apply not_eq_None_Some. rewrite last_by_None. intros H. by apply (H r).
Qed.

(** With unique keys the map holds every element. *)
Lemma last_by_NoDup {A} (key : A → string) l r :
  NoDup (key <$> l) → r ∈ l → last_by key l !! key r = Some r.
Proof.
  induction l as [|r' l IH] using rev_ind; [by intros _ ?%elem_of_nil|].
  rewrite fmap_app, NoDup_app, last_by_snoc, lookup_insert. intros (Hnd & Hdisj & _) Hr.
  apply elem_of_app in Hr as [Hr| ->%list_elem_of_singleton]; [|by rewrite decide_True].
  rewrite decide_False; [by apply IH|]. intros Heq.
  apply (Hdisj (key r)); [by apply list_elem_of_fmap_2|]. rewrite <- Heq. by left.
Qed.

#[export] Hint Resolve last_by_is_Some : amesh.

(** ** Lemmas on the last element that satisfies a predicate *)

Section LastSuch.
Context {A : Type} (P : A → Prop).

Lemma last_such_nil x : ¬ last_such P [] x.
Proof. by intros ([] & l2 & [=] & _). Qed.

Lemma last_such_elem l x : last_such P l x → x ∈ l ∧ P x.
Proof. intros (l1 & l2 & -> & HP & _). split; [apply elem_of_app; right; by left|done]. Qed.

Lemma last_such_snoc l y x :
  last_such P (l ++ [y]) x ↔ (P y ∧ x = y) ∨ (¬ P y ∧ last_such P l x).
Proof.
  split.
  - intros (l1 & l2 & Heq & HP & Hno). destruct l2 as [|z l2 _] using rev_ind.
    + apply app_inj_2 in Heq as [-> [= ->]]; [by left|done].
    + rewrite app_comm_cons, app_assoc in Heq. apply app_inj_2 in Heq as [-> [= ->]]; [|done]. right. split.
      * apply Hno, elem_of_app. right. by left.
      * exists l1, l2. split_and!; [done..|]. intros z' Hz. apply Hno, elem_of_app. by left.
  - intros [[HP ->]|(Hy & l1 & l2 & -> & HP & Hno)].
    + exists l, []. split_and!; [done..|]. by intros z ?%elem_of_nil.
    + exists l1, (l2 ++ [y]). split_and!; [by rewrite <- app_assoc|done|].
      intros z [Hz| ->%list_elem_of_singleton]%elem_of_app; [by apply Hno|done].
Qed.
End LastSuch.

Lemma last_such_fmap {A B} (f : A → B) (P : B → Prop) l y :
  last_such P (f <$> l) y ↔ ∃ x, y = f x ∧ last_such (λ x, P (f x)) l x.
Proof.
  revert y. induction l as [|z l IH] using rev_ind; intros y.
  - split; [by intros ?%last_such_nil|]. by intros (x & _ & ?%last_such_nil).
  - rewrite fmap_app. cbn. rewrite last_such_snoc, IH. setoid_rewrite last_such_snoc. naive_solver.
Qed.
