(* ===== verification/GoStrings.v ===== *)
(** * The parts of Go's [strings], [sort] and [strconv] packages the program uses

    Go strings are byte strings ([string] of Stdlib, one [ascii] per byte).
    The functions below follow the packages' documentation for the arguments
    the source passes: separators of one byte for [Split], [ToLower] and
    [TrimSpace] on ASCII text (header names and header values). *)

From S2P Require Import Prelude.

(** [strings.HasPrefix(s, prefix)] *)
Fixpoint HasPrefix (s prefix : string) : bool :=
  match prefix, s with
  | "", _ => true
  | String c p, String d s' => if Ascii.eqb c d then HasPrefix s' p else false
  | String _ _, "" => false
  end.

Fixpoint drop_bytes (n : nat) (s : string) : string :=
  match n, s with
  | S n', String _ s' => drop_bytes n' s'
  | _, _ => s
  end.

(** [strings.TrimPrefix(s, prefix)] *)
Definition TrimPrefix (s prefix : string) : string :=
  if HasPrefix s prefix then drop_bytes (String.length prefix) s else s.

(** [strings.Contains(s, substr)] *)
Fixpoint Contains (s sub : string) : bool :=
  HasPrefix s sub ||
  match s with "" => false | String _ s' => Contains s' sub end.

(** [strings.Split(s, sep)] for a separator of one byte. *)
Fixpoint Split (s : string) (sep : ascii) : list string :=
  match s with
  | "" => [""]
  | String c s' =>
      if Ascii.eqb c sep then "" :: Split s' sep
      else match Split s' sep with
           | [] => [String c ""]
           | w :: ws => String c w :: ws
           end
  end.

(** [strings.Join(elems, sep)] *)
Fixpoint Join (l : list string) (sep : string) : string :=
  match l with
  | [] => ""
  | [w] => w
  | w :: l' => w +:+ sep +:+ Join l' sep
  end.

(** [s[:pos]] for the position [pos = strings.Index(s, sep)] of a byte, and [s]
    when the byte does not occur. *)
Fixpoint before_byte (s : string) (sep : ascii) : string :=
  match s with
  | "" => ""
  | String c s' => if Ascii.eqb c sep then "" else String c (before_byte s' sep)
  end.

(** [strings.Replace(s, old, new, -1)] and [strings.ReplaceAll(s, old, new)] for
    a non-empty [old]: the occurrences are found from left to right and do not
    overlap; [skip] counts the bytes of the last occurrence still to be dropped. *)
Fixpoint replace_from (skip : nat) (old new s : string) : string :=
  match s with
  | "" => ""
  | String c s' =>
      match skip with
      | S k => replace_from k old new s'
      | O =>
          if HasPrefix s old
          then new +:+ replace_from (Nat.pred (String.length old)) old new s'
          else String c (replace_from 0 old new s')
      end
  end.

Definition ReplaceAll (s old new : string) : string := replace_from 0 old new s.

Definition lower_byte (c : ascii) : ascii :=
  let n := N_of_ascii c in
  if ((65 <=? n) && (n <=? 90))%N then ascii_of_N (n + 32) else c.

(** [strings.ToLower] on ASCII text. *)
Fixpoint ToLower (s : string) : string :=
  match s with "" => "" | String c s' => String (lower_byte c) (ToLower s') end.

Definition is_space_byte (c : ascii) : bool :=
  let n := N_of_ascii c in ((n =? 32) || ((9 <=? n) && (n <=? 13)))%N.

Fixpoint trim_left (s : string) : string :=
  match s with
  | "" => ""
  | String c s' => if is_space_byte c then trim_left s' else s
  end.

(** [strings.TrimSpace] on ASCII text. *)
Definition TrimSpace (s : string) : string :=
  String.rev (trim_left (String.rev (trim_left s))).

(** [sort.Strings]: the byte-wise lexicographic order. *)
Definition SortStrings (l : list string) : list string := merge_sort String.le l.

(** [strconv.FormatInt(z, 10)] and the [%d] verb. *)
Definition itoa (z : Z) : string := pretty z.

(** ** Lemmas *)

Lemma append_empty_r s : s +:+ "" = s.
Proof. induction s as [|c s IH]; [done|]. change (String c (s +:+ "") = String c s). by rewrite IH. Qed.

Lemma append_cons c s t : String c s +:+ t = String c (s +:+ t).
Proof. done. Qed.

Lemma append_assoc s t u : s +:+ (t +:+ u) = (s +:+ t) +:+ u.
Proof. induction s as [|c s IH]; [done|]. rewrite !append_cons. by rewrite IH. Qed.

Lemma length_append s t : String.length (s +:+ t) = String.length s + String.length t.
Proof. induction s as [|c s IH]; [done|]. rewrite append_cons. simpl. by rewrite IH. Qed.

Lemma drop_bytes_app s t : drop_bytes (String.length s) (s +:+ t) = t.
Proof. by induction s. Qed.

Lemma HasPrefix_spec s p : HasPrefix s p = true ↔ ∃ t, s = p +:+ t.
Proof.
  revert s; induction p as [|c p IH]; intros s; simpl; [by destruct s; naive_solver|].
  destruct s as [|d s]; simpl; [split; [done|by intros [? ?]]|].
  destruct (Ascii.eqb_spec c d) as [->|Hne].
  - rewrite IH. split; intros [t Ht]; exists t; rewrite append_cons in *; congruence.
  - split; [done|]. intros [t Ht]. rewrite append_cons in Ht. congruence.
Qed.

Lemma HasPrefix_app p t : HasPrefix (p +:+ t) p = true.
Proof. apply HasPrefix_spec. eauto. Qed.

Lemma TrimPrefix_app p t : TrimPrefix (p +:+ t) p = t.
Proof. unfold TrimPrefix. by rewrite HasPrefix_app, drop_bytes_app. Qed.

Lemma Contains_spec s sub : Contains s sub = true ↔ ∃ a b, s = a +:+ sub +:+ b.
Proof.
  induction s as [|c s IH]; cbn [Contains].
  - rewrite orb_false_r, HasPrefix_spec. split; [intros [t Ht]; by exists "", t|].
    intros (a & b & H). destruct a; [by exists b|]. by rewrite append_cons in H.
  - rewrite orb_true_iff, HasPrefix_spec, IH. split.
    + intros [[t Ht]|(a & b & ->)]; [by exists "", t|]. exists (String c a), b. by rewrite append_cons.
    + intros (a & b & H). destruct a as [|d a]; [left; by exists b|].
      rewrite append_cons in H. injection H as -> ->. right. eauto.
Qed.

Lemma Split_not_nil s sep : Split s sep ≠ [].
Proof. destruct s as [|c s]; simpl; [done|]. repeat case_match; done. Qed.

(** [Split] and [Join] are inverse for a separator of one byte. *)
Lemma Join_Split s sep : Join (Split s sep) (String sep "") = s.
Proof.
  induction s as [|c s IH]; [done|]. simpl.
  pose proof (Split_not_nil s sep) as Hne.
  destruct (Ascii.eqb_spec c sep) as [->|Hc].
  - destruct (Split s sep) as [|w ws]; [done|].
    change ("" +:+ String sep "" +:+ Join (w :: ws) (String sep "") = String sep s).
    rewrite IH. done.
  - destruct (Split s sep) as [|w [|w' ws]]; [done| |].
    + simpl in *. by rewrite IH.
    + change (String c (w +:+ String sep "" +:+ Join (w' :: ws) (String sep "")) = String c s).
      f_equal. exact IH.
Qed.

(** The pieces of [Split] do not contain the separator. *)
Lemma Split_no_sep s sep w : w ∈ Split s sep → before_byte w sep = w.
Proof.
  revert w; induction s as [|c s IH]; intros w; simpl.
  - by intros ->%list_elem_of_singleton.
  - pose proof (Split_not_nil s sep) as Hne.
    destruct (Ascii.eqb_spec c sep) as [->|Hc].
    + intros [->|Hw]%elem_of_cons; [done|auto].
    + destruct (Split s sep) as [|w' ws]; [done|].
      intros [->|Hw]%elem_of_cons; simpl.
      * destruct (Ascii.eqb_spec c sep); [done|]. f_equal. apply IH. by left.
      * apply IH. by right.
Qed.

Lemma Split_hd s sep : hd_error (Split s sep) = Some (before_byte s sep).
Proof.
  induction s as [|c s IH]; simpl; [done|].
  destruct (Ascii.eqb_spec c sep) as [->|Hc]; [done|].
  destruct (Split s sep); simpl in *; congruence.
Qed.

(** [sort.Strings] returns the sorted permutation, whatever order it is given. *)
Lemma SortStrings_perm l : SortStrings l ≡ₚ l.
Proof. apply merge_sort_Permutation. Qed.

Lemma SortStrings_sorted l : Sorted String.le (SortStrings l).
Proof. apply Sorted_merge_sort, _. Qed.

Lemma SortStrings_unique l1 l2 : l1 ≡ₚ l2 → SortStrings l1 = SortStrings l2.
Proof.
  intros Hp. apply (Sorted_unique String.le); [apply SortStrings_sorted..|].
  by rewrite !SortStrings_perm.
Qed.

#[export] Instance SortStrings_proper : Proper (Permutation ==> (=)) SortStrings.
Proof. intros l1 l2. apply SortStrings_unique. Qed.

Lemma pretty_N_go_not_empty x s : s ≠ "" → pretty_N_go x s ≠ "".
Proof.
  revert s; induction (N.lt_wf_0 x) as [x _ IH]; intros s Hs.
  assert (x = 0 ∨ 0 < x)%N as [->|Hx] by lia; [by rewrite pretty_N_go_0|].
  rewrite pretty_N_go_step by done. apply IH; [apply N.div_lt; lia|done].
Qed.

Lemma itoa_not_empty z : itoa z ≠ "".
Proof.
  unfold itoa, pretty, pretty_Z. destruct z as [|p|p]; [done| |done].
  change (pretty_N (N.pos p) ≠ ""). unfold pretty_N. case_decide; [done|].
  rewrite pretty_N_go_step by done. by apply pretty_N_go_not_empty.
Qed.

#[export] Instance itoa_inj : Inj (=) (=) itoa.
Proof. unfold itoa. apply _. Qed.

#[export] Hint Resolve itoa_not_empty : amesh.
#[export] Hint Resolve HasPrefix_app SortStrings_sorted : amesh.
