(* ===== verification/GoNum.v ===== *)
(** * Go's machine integers and floats

    Fixed-width conversions as Go performs them, float64 and float32 as the
    Standard Library's [spec_float], and the decimal text that [encoding/json]
    writes for them ([strconv.AppendFloat] with the shortest precision). *)

From S2P Require Import Prelude GoStrings.
From Stdlib Require Import SpecFloat.

Local Open Scope Z_scope.

(** ** Integers *)

(** [int32(x)] of a wider or unsigned integer: the low 32 bits, signed. *)
Definition int32_of (z : Z) : Z :=
  let u := z mod 2 ^ 32 in if u <? 2 ^ 31 then u else u - 2 ^ 32.

(** Conversion to int64, and its wrap-around. *)
Definition int64_of (z : Z) : Z :=
  let m := z mod 2 ^ 64 in if m <? 2 ^ 63 then m else m - 2 ^ 64.

Definition is_uint32 (z : Z) : Prop := 0 ≤ z < 2 ^ 32.
Definition is_int32 (z : Z) : Prop := - 2 ^ 31 ≤ z < 2 ^ 31.
Definition is_int64 (z : Z) : Prop := - 2 ^ 63 ≤ z < 2 ^ 63.

(** ** Floats *)

(** [float64(z)] and [float32(z)] of an integer: round to nearest even. *)
Definition float64_of_Z (z : Z) : spec_float := binary_normalize 53 1024 z 0 false.
Definition float32_of_Z (z : Z) : spec_float := binary_normalize 24 128 z 0 false.
Definition float32_div (x y : spec_float) : spec_float := SFdiv 24 128 x y.

(** The value of the decimal [d * 10 ^ x], rounded to the nearest even. *)
Definition float_of_decimal (prec emax : Z) (neg : bool) (d : Z) (x : Z) : spec_float :=
  match d with
  | Z0 => S754_zero neg
  | _ =>
      let d := Z.abs d in
      if 0 <=? x then binary_normalize prec emax ((if neg then Z.opp else id) (d * 10 ^ x)) 0 neg
      else let '(q, e', l) := SFdiv_core_binary prec emax d 0 (10 ^ (- x)) 0 in
           binary_round_aux prec emax neg q e' l
  end.

(** A positive rational [n / d] rounded to the nearest integer, ties to even. *)
Definition round_half_even (n d : Z) : Z :=
  let q := n / d in
  let r := n mod d in
  match Z.compare (2 * r) d with
  | Lt => q
  | Gt => q + 1
  | Eq => if Z.even q then q else q + 1
  end.

(** [m * 2 ^ e] scaled by [10 ^ - x], as a rational. *)
Definition scaled (m e x : Z) : Z * Z :=
  let n := m * 2 ^ Z.max e 0 * 10 ^ Z.max (- x) 0 in
  let d := 2 ^ Z.max (- e) 0 * 10 ^ Z.max x 0 in
  (n, d).

(** Number of decimal digits of a positive integer, and the decimal point:
    the least [k] with [m * 2 ^ e < 10 ^ k]. *)
Fixpoint digits_from (fuel : nat) (n : Z) (acc : Z) : Z :=
  match fuel with
  | O => acc
  | S f => if n <? 10 then acc + 1 else digits_from f (n / 10) (acc + 1)
  end.
Definition num_digits (n : Z) : Z := digits_from (S (Z.to_nat (Z.log2 n))) n 0.

Definition decimal_point (m e : Z) : Z :=
  let '(n, d) := scaled m e 0 in
  if d <=? n then num_digits (n / d)
  else 1 - num_digits (d / n) + (if (d mod n =? 0) && (10 ^ (num_digits (d / n) - 1) =? d / n) then 1 else 0).

Definition SF_eqb (x y : spec_float) : bool :=
  match x, y with
  | S754_zero s, S754_zero s' => Bool.eqb s s'
  | S754_finite s m e, S754_finite s' m' e' => Bool.eqb s s' && (m =? m')%positive && (e =? e')
  | S754_infinity s, S754_infinity s' => Bool.eqb s s'
  | S754_nan, S754_nan => true
  | _, _ => false
  end.

(** The shortest decimal that reads back as the float: for each number of
    digits the nearest decimal, then its neighbours.  17 digits are enough for
    a float64 (9 for a float32). *)
Fixpoint shortest_from (fuel : nat) (prec emax : Z) (s : bool) (m : positive) (e : Z)
    (k ndig : Z) : Z * Z :=
  let x := k - ndig in
  let '(n, d) := scaled (Zpos m) e x in
  let c := round_half_even n d in
  let ok c := SF_eqb (float_of_decimal prec emax s c x) (S754_finite s m e) in
  match fuel with
  | O => (c, x)
  | S f =>
      if ok c then (c, x) else if ok (c + 1) then (c + 1, x) else
      if ok (c - 1) then (c - 1, x) else shortest_from f prec emax s m e k (ndig + 1)
  end.

Fixpoint strip_zeros (fuel : nat) (c x : Z) : Z * Z :=
  match fuel with
  | O => (c, x)
  | S f => if (c mod 10 =? 0) && negb (c =? 0) then strip_zeros f (c / 10) (x + 1) else (c, x)
  end.

Fixpoint zeros (n : nat) : string := match n with O => "" | S n' => String "0" (zeros n') end.

(** [%f] layout of the decimal [c * 10 ^ x]. *)
Definition layout_f (c x : Z) : string :=
  let ds := pretty c in
  let len := Z.of_nat (String.length ds) in
  if 0 <=? x then ds +:+ zeros (Z.to_nat x)
  else if 0 <? len + x then
    String.substring 0 (Z.to_nat (len + x)) ds +:+ "." +:+ drop_bytes (Z.to_nat (len + x)) ds
  else "0." +:+ zeros (Z.to_nat (- (len + x))) +:+ ds.

(** [%e] layout, the exponent with at least two digits when positive and with
    the leading zero removed when negative (as [encoding/json] cleans it). *)
Definition layout_e (c x : Z) : string :=
  let ds := pretty c in
  let len := Z.of_nat (String.length ds) in
  let ex := x + len - 1 in
  let mant := String.substring 0 1 ds +:+
    (if len =? 1 then "" else "." +:+ drop_bytes 1 ds) in
  let two n := if n <? 10 then "0" +:+ pretty n else pretty n in
  mant +:+ (if ex <? 0 then "e-" +:+ pretty (- ex) else "e+" +:+ two ex).

(** [|f| < 1e-6] or [|f| >= 1e21], the range printed with an exponent. *)
Definition uses_exponent (m : positive) (e : Z) : bool :=
  let '(n, d) := scaled (Zpos m) e 0 in
  (n * 10 ^ 6 <? d) || (d * 10 ^ 21 <=? n).

(** The JSON text of a float; [None] for NaN and the infinities, on which
    [json.Marshal] fails. *)
Definition format_float (prec emax : Z) (f : spec_float) : option string :=
  match f with
  | S754_zero s => Some (if s then "-0" else "0")
  | S754_finite s m e =>
      let k := decimal_point (Zpos m) e in
      let '(c, x) := shortest_from 16 prec emax s m e k 1 in
      let '(c, x) := strip_zeros 20 c x in
      Some ((if s then "-" else "") +:+
            (if uses_exponent m e then layout_e c x else layout_f c x))
  | _ => None
  end.

Definition format_float64 : spec_float → option string := format_float 53 1024.
Definition format_float32 : spec_float → option string := format_float 24 128.

Definition is_finite_float (f : spec_float) : bool :=
  match f with S754_zero _ | S754_finite _ _ _ => true | _ => false end.

(** ** Reading integers *)

Definition digit_value (c : ascii) : option Z :=
  let n := Z.of_N (N_of_ascii c) in
  if (48 <=? n) && (n <=? 57) then Some (n - 48) else None.

Fixpoint parse_digits (acc : Z) (s : string) : option Z :=
  match s with
  | "" => Some acc
  | String c s' => match digit_value c with Some d => parse_digits (acc * 10 + d) s' | None => None end
  end.

(** [strconv.ParseInt(s, 10, bits)]: an optional sign and at least one digit,
    within the range of the width; [None] is an error. *)
Definition ParseInt (bits : Z) (s : string) : option Z :=
  let '(neg, ds) := match s with
    | String "-" r => (true, r)
    | String "+" r => (false, r)
    | _ => (false, s)
    end in
  match ds with
  | "" => None
  | _ => match parse_digits 0 ds with
         | None => None
         | Some n =>
             let z := if neg then - n else n in
             if (- 2 ^ (bits - 1) <=? z) && (z <? 2 ^ (bits - 1)) then Some z else None
         end
  end.

(** ** Examples *)

Example parse_port : ParseInt 32 "15090" = Some 15090.
Proof. vm_compute. reflexivity. Qed.
Example parse_bad : ParseInt 32 "99999999999" = None ∧ ParseInt 32 "9x" = None ∧ ParseInt 32 "" = None.
Proof. vm_compute. done. Qed.

Example format_60 : format_float64 (float64_of_Z 60) = Some "60".
Proof. vm_compute. reflexivity. Qed.
Example format_tenth : format_float64 (float_of_decimal 53 1024 false 1 (-1)) = Some "0.1".
Proof. vm_compute. reflexivity. Qed.
Example format_1e21 : format_float64 (float_of_decimal 53 1024 false 1 21) = Some "1e+21".
Proof. vm_compute. reflexivity. Qed.
Example format_small : format_float64 (float_of_decimal 53 1024 true 25 (-8)) = Some "-2.5e-7".
Proof. vm_compute. reflexivity. Qed.
Example format_big : format_float64 (float64_of_Z (2 ^ 63 - 1)) = Some "9223372036854776000".
Proof. vm_compute. reflexivity. Qed.
Example format_pi : format_float64 (float_of_decimal 53 1024 false 3141592653589793 (-15)) = Some "3.141592653589793".
Proof. vm_compute. reflexivity. Qed.
Example format_f32 : format_float32 (float32_div (float32_of_Z 33) (float32_of_Z 100)) = Some "0.33".
Proof. vm_compute. reflexivity. Qed.

(** ** Lemmas *)

Lemma int32_of_range z : is_int32 (int32_of z).
Proof.
  unfold int32_of, is_int32. pose proof (Z.mod_pos_bound z (2 ^ 32)).
  case_match eqn:E; [apply Z.ltb_lt in E|apply Z.ltb_ge in E]; lia.
Qed.

Lemma int32_of_small z : 0 ≤ z < 2 ^ 31 → int32_of z = z.
Proof.
  intros Hz. unfold int32_of. rewrite Z.mod_small by lia.
  destruct (Z.ltb_spec z (2 ^ 31)); lia.
Qed.

(** An unsigned value of at least 2^31 turns negative. *)
Lemma int32_of_uint32_neg z : is_uint32 z → (int32_of z < 0 ↔ 2 ^ 31 ≤ z).
Proof.
  intros Hz. unfold int32_of, is_uint32 in *. rewrite Z.mod_small by lia.
  destruct (Z.ltb_spec z (2 ^ 31)); lia.
Qed.

Lemma format_float_finite prec emax f :
  is_Some (format_float prec emax f) ↔ is_finite_float f = true.
Proof.
  destruct f as [s|s| |s m e]; cbv [format_float is_finite_float].
  - split; [done|by eexists].
  - split; [by intros []|done].
  - split; [by intros []|done].
  - split; [done|]. intros _. destruct (shortest_from _ _ _ _ _ _ _ _) as [c x].
    destruct (strip_zeros _ c x). by eexists.
Qed.

Lemma ParseInt_range bits s z :
  ParseInt bits s = Some z → - 2 ^ (bits - 1) ≤ z < 2 ^ (bits - 1).
Proof.
  unfold ParseInt. destruct (match s with String _ _ => _ | _ => _ end) as [neg ds].
  destruct ds; [done|]. destruct (parse_digits _ _) as [n|]; [|done].
  destruct (Z.leb_spec (- 2 ^ (bits - 1)) (if neg then - n else n)); [|done].
  destruct (Z.ltb_spec (if neg then - n else n) (2 ^ (bits - 1))); [|done].
  intros [= <-]. done.
Qed.

(** ** The float64 of a 64-bit integer is finite *)

Lemma digits2_pos_bound p k : 0 ≤ k → Zpos p < 2 ^ k → Zpos (digits2_pos p) ≤ k.
Proof.
  revert k; induction p as [p IH|p IH|]; intros k Hk Hp; cbn [digits2_pos].
  - destruct (decide (k = 0)) as [->|]; [lia|]. replace k with (Z.succ (k - 1)) in Hp |- * by lia.
    rewrite Z.pow_succ_r in Hp by lia. specialize (IH (k - 1)). lia.
  - destruct (decide (k = 0)) as [->|]; [lia|]. replace k with (Z.succ (k - 1)) in Hp |- * by lia.
    rewrite Z.pow_succ_r in Hp by lia. specialize (IH (k - 1)). lia.
  - destruct (decide (k = 0)) as [->|]; [cbn in Hp|]; lia.
Qed.

Lemma Pos_lt_digits2 p : Zpos p < 2 ^ Zpos (digits2_pos p).
Proof.
  induction p as [p IH|p IH|]; cbn [digits2_pos]; [..|done];
    rewrite Pos2Z.inj_succ, Z.pow_succ_r; lia.
Qed.

(** The mantissas met while shifting stay within a bound. *)
Definition shr_within (b : Z) (r : shr_record) : Prop := 0 ≤ shr_m r ≤ b.

Lemma shr_1_within b r : shr_within b r → shr_within b (shr_1 r).
Proof.
  unfold shr_within. destruct r as [m rr s]. cbn [shr_m]. intros Hm.
  destruct m as [|[p|p|]|p]; cbn [shr_1 shr_m]; lia.
Qed.

Lemma iter_pos_within b n r : shr_within b r → shr_within b (iter_pos shr_1 n r).
Proof.
  revert r; induction n as [n IH|n IH|]; intros r Hr; cbn [iter_pos]; auto using shr_1_within.
Qed.

Lemma shr_fexp_within prec emax m e l k :
  0 ≤ k → 0 < prec → 0 ≤ m < 2 ^ k → emin prec emax ≤ e →
  let '(r, e') := shr_fexp prec emax m e l in
  shr_within m r ∧ emin prec emax ≤ e' ≤ e + k.
Proof.
  intros Hk Hprec Hm He. unfold shr_fexp.
  assert (shr_within m (shr_record_of_loc m l)) as Hr by (unfold shr_within; destruct l as [|[]]; cbn [shr_record_of_loc shr_m]; lia).
  assert (Zdigits2 m ≤ k) as Hd.
  { destruct m as [|p|p]; cbn [Zdigits2]; [lia|apply digits2_pos_bound; lia|lia]. }
  unfold shr. destruct (fexp prec emax (Zdigits2 m + e) - e) as [|p|p] eqn:Hp; [split; [done|lia]| |split; [done|lia]].
  split; [by apply iter_pos_within|]. rewrite <- Hp. unfold fexp in *. lia.
Qed.

Lemma round_nearest_even_bound m l b : 0 ≤ m ≤ b → 0 ≤ round_nearest_even m l ≤ b + 1.
Proof. intros Hm. destruct l as [|[]]; cbn [round_nearest_even]; try lia. case_match; lia. Qed.

Lemma binary_round_aux_finite prec emax sx m e l k :
  0 ≤ k → 0 < prec → 0 ≤ m < 2 ^ k → emin prec emax ≤ e → e + k + (k + 1) ≤ emax - prec →
  is_finite_float (binary_round_aux prec emax sx m e l) = true.
Proof.
  intros Hk Hprec Hm He Hbig. unfold binary_round_aux.
  pose proof (shr_fexp_within prec emax m e l k Hk Hprec Hm He) as H1.
  destruct (shr_fexp prec emax m e l) as [r1 e1]. destruct H1 as [Hr1 He1]. unfold shr_within in Hr1.
  pose proof (round_nearest_even_bound (shr_m r1) (loc_of_shr_record r1) m Hr1) as Hround.
  set (m2 := round_nearest_even (shr_m r1) (loc_of_shr_record r1)) in *.
  assert (2 ^ (k + 1) = 2 * 2 ^ k) as Hpow by (rewrite Z.pow_add_r by lia; lia).
  pose proof (shr_fexp_within prec emax m2 e1 loc_Exact (k + 1)) as H2.
  destruct (shr_fexp prec emax m2 e1 loc_Exact) as [r2 e2].
  destruct H2 as [Hr2 He2]; [lia..|]. unfold shr_within in Hr2.
  destruct (shr_m r2); [done| |lia]. destruct (Z.leb_spec e2 (emax - prec)); [done|lia].
Qed.

Lemma Pos_iter_xO m d : Zpos (Pos.iter xO m d) = Zpos m * 2 ^ Zpos d.
Proof.
  induction d as [|d IH] using Pos.peano_ind; [cbn; lia|].
  rewrite Pos.iter_succ, Pos2Z.inj_succ, Z.pow_succ_r, Pos2Z.inj_xO, IH by lia. lia.
Qed.

Lemma float64_of_Z_finite z : is_int64 z → is_finite_float (float64_of_Z z) = true.
Proof.
  intros Hz. unfold is_int64 in Hz.
  assert (∀ sx p, Zpos p < 2 ^ 64 → is_finite_float (binary_round 53 1024 sx p 0) = true) as Hround.
  { intros sx p Hp. unfold binary_round.
    pose proof (Pos_lt_digits2 p) as Hd. set (d := Zpos (digits2_pos p)) in *.
    assert (d ≤ 64) by (by apply digits2_pos_bound).
    assert (fexp 53 1024 (d + 0) = d - 53) as -> by (unfold fexp, emin; lia).
    unfold shl_align. destruct (d - 53 - 0) as [|q|q] eqn:Hq.
    - apply (binary_round_aux_finite _ _ _ _ _ _ 64); unfold emin; lia.
    - apply (binary_round_aux_finite _ _ _ _ _ _ 64); unfold emin; lia.
    - apply (binary_round_aux_finite _ _ _ _ _ _ 64); try (unfold emin; lia).
      rewrite Pos_iter_xO. split; [lia|].
      assert (Zpos p * 2 ^ Zpos q < 2 ^ d * 2 ^ Zpos q) by (apply Z.mul_lt_mono_pos_r; lia).
      rewrite <- Z.pow_add_r in H0 by lia. replace (d + Zpos q) with 53 in H0 by lia. lia. }
  unfold float64_of_Z, binary_normalize. destruct z as [|p|p]; [done| |]; apply Hround; lia.
Qed.

#[export] Hint Resolve int32_of_range float64_of_Z_finite : amesh.
