(* ===== verification/Json.v ===== *)
(** * [encoding/json]: values, text, and the encoding classes

    [json] is the tree that [json.Marshal] writes out; [print_json] is its
    compact text with Go's escaping (HTML characters, U+2028 and U+2029, and
    the replacement of invalid UTF-8).  [ToJson] is the class of the types that
    the program marshals: [None] is a marshalling error. *)

From S2P Require Import Prelude GoStrings GoNum.
From Stdlib Require Import SpecFloat.

Local Open Scope Z_scope.

Set Warnings "-register-all".

Inductive json : Type :=
| JNull
| JBool (b : bool)
| JNum (lit : string)
| JStr (s : string)
| JArr (l : list json)
| JObj (l : list (string * json)).

(** Structural induction that reaches the elements of arrays and objects. *)
Definition json_nested_ind (P : json → Prop)
    (Hnull : P JNull) (Hbool : ∀ b, P (JBool b)) (Hnum : ∀ s, P (JNum s))
    (Hstr : ∀ s, P (JStr s))
    (Harr : ∀ l, Forall P l → P (JArr l))
    (Hobj : ∀ l, Forall (λ kv, P kv.2) l → P (JObj l)) : ∀ j, P j :=
  fix go (j : json) : P j :=
    match j with
    | JNull => Hnull
    | JBool b => Hbool b
    | JNum s => Hnum s
    | JStr s => Hstr s
    | JArr l => Harr l ((fix goA l : Forall P l := match l with
        | [] => Forall_nil_2 P
        | j :: l => Forall_cons_2 P j l (go j) (goA l) end) l)
    | JObj l => Hobj l ((fix goO l : Forall (λ kv, P kv.2) l := match l with
        | [] => Forall_nil_2 _
        | kv :: l => Forall_cons_2 (λ kv, P kv.2) kv l (go kv.2) (goO l) end) l)
    end.

(** ** Strings *)

Definition byte (c : ascii) : Z := Z.of_N (N_of_ascii c).
Definition chr (z : Z) : ascii := ascii_of_N (Z.to_N z).
Definition in_range (lo hi z : Z) : bool := (lo <=? z) && (z <=? hi).
Definition cont (z : Z) : bool := in_range 128 191 z.

(** Well-formed UTF-8 sequences of two, three and four bytes. *)
Definition valid2 (a b : Z) : bool := in_range 194 223 a && cont b.
Definition valid3 (a b c : Z) : bool :=
  in_range 224 239 a && cont c &&
  in_range (if a =? 224 then 160 else 128) (if a =? 237 then 159 else 191) b.
Definition valid4 (a b c d : Z) : bool :=
  in_range 240 244 a && cont c && cont d &&
  in_range (if a =? 240 then 144 else 128) (if a =? 244 then 143 else 191) b.

Definition hex_digit (n : Z) : ascii := chr (if n <? 10 then 48 + n else 87 + n).
Definition backslash : ascii := "\"%char.
Definition quote : ascii := chr 34.

(** The escape of an ASCII byte inside a JSON string. *)
Definition escape_ascii (c : ascii) : string :=
  let b := byte c in
  if (b =? 34) || (b =? 92) then String backslash (String c "")
  else if b =? 10 then String backslash "n"
  else if b =? 13 then String backslash "r"
  else if b =? 9 then String backslash "t"
  else if (b <? 32) || (b =? 60) || (b =? 62) || (b =? 38)
  then String backslash (String "u" (String "0" (String "0" (String (hex_digit (b / 16)) (String (hex_digit (b mod 16)) "")))))
  else String c "".

Definition escape_fffd : string := String backslash "ufffd".

(** [encodeState.string] with HTML escaping, without the surrounding quotes. *)
Fixpoint escape_string (s : string) : string :=
  match s with
  | "" => ""
  | String c1 s1 =>
      if byte c1 <? 128 then escape_ascii c1 +:+ escape_string s1 else
      match s1 with
      | "" => escape_fffd
      | String c2 s2 =>
          if valid2 (byte c1) (byte c2) then String c1 (String c2 (escape_string s2)) else
          match s2 with
          | "" => escape_fffd +:+ escape_string s1
          | String c3 s3 =>
              if valid3 (byte c1) (byte c2) (byte c3) then
                (if (byte c1 =? 226) && (byte c2 =? 128) && in_range 168 169 (byte c3)
                 then String backslash ("u202" +:+ String (hex_digit (byte c3 - 160)) (escape_string s3))
                 else String c1 (String c2 (String c3 (escape_string s3))))
              else
              match s3 with
              | "" => escape_fffd +:+ escape_string s1
              | String c4 s4 =>
                  if valid4 (byte c1) (byte c2) (byte c3) (byte c4)
                  then String c1 (String c2 (String c3 (String c4 (escape_string s4))))
                  else escape_fffd +:+ escape_string s1
              end
          end
      end
  end.

Definition quote_string (s : string) : string := String quote (escape_string s +:+ String quote "").

(** ** The text of a value *)

Definition comma (l : list string) : string := Join l ",".

Fixpoint print_json (j : json) : string :=
  match j with
  | JNull => "null"
  | JBool true => "true"
  | JBool false => "false"
  | JNum lit => lit
  | JStr s => quote_string s
  | JArr l => "[" +:+ comma (print_json <$> l) +:+ "]"
  | JObj l => "{" +:+ comma ((λ kv, quote_string kv.1 +:+ ":" +:+ print_json kv.2) <$> l) +:+ "}"
  end.

(** [json.MarshalIndent(v, "", "  ")]: a line per element, two spaces a level. *)
Fixpoint spaces (n : nat) : string := match n with O => "" | S n' => String " " (spaces n') end.
Definition new_line (depth : nat) : string := String (chr 10) (spaces (2 * depth)).

Fixpoint print_indent (depth : nat) (j : json) : string :=
  match j with
  | JArr (_ :: _ as l) =>
      "[" +:+ new_line (S depth) +:+
      Join (print_indent (S depth) <$> l) ("," +:+ new_line (S depth)) +:+ new_line depth +:+ "]"
  | JObj (_ :: _ as l) =>
      "{" +:+ new_line (S depth) +:+
      Join ((λ kv, quote_string kv.1 +:+ ": " +:+ print_indent (S depth) kv.2) <$> l)
        ("," +:+ new_line (S depth)) +:+ new_line depth +:+ "}"
  | _ => print_json j
  end.

(** ** Types that marshal *)

Class ToJson (A : Type) := to_json : A → option json.

(** [json.Marshal(v)] *)
Definition Marshal {A} `{ToJson A} (a : A) : option string := print_json <$> to_json a.
Definition MarshalIndent {A} `{ToJson A} (a : A) : option string := print_indent 0 <$> to_json a.

#[export] Instance to_json_string : ToJson string := λ s, Some (JStr s).
#[export] Instance to_json_bool : ToJson bool := λ b, Some (JBool b).
#[export] Instance to_json_Z : ToJson Z := λ z, Some (JNum (pretty z)).
#[export] Instance to_json_float : ToJson spec_float := λ f, JNum <$> format_float64 f.
#[export] Instance to_json_list {A} `{ToJson A} : ToJson (list A) := λ l, JArr <$> mapM to_json l.

(** A nil pointer marshals to [null]. *)
#[export] Instance to_json_option {A} `{ToJson A} : ToJson (option A) := λ o,
  match o with None => Some JNull | Some a => to_json a end.

(** A Go map marshals with its keys sorted. *)
Definition key_le {A} (x y : string * A) : Prop := String.le x.1 y.1.
#[export] Instance key_le_dec {A} : RelDecision (@key_le A) := λ x y, String.le_dec x.1 y.1.
Definition sort_keys {A} (l : list (string * A)) : list (string * A) := merge_sort key_le l.

#[export] Instance to_json_map {A} `{ToJson A} : ToJson (gmap string A) := λ m,
  JObj <$> mapM (λ kv, pair kv.1 <$> to_json kv.2) (sort_keys (map_to_list m)).

(** ** Structs: a list of fields, [omitempty] leaving the empty ones out *)

Definition field := option (list (string * json)).

Definition omitempty {A} `{ToJson A} (name : string) (is_empty : A → bool) (a : A) : field :=
  if is_empty a then Some [] else (λ j, [(name, j)]) <$> to_json a.

Definition json_struct (fs : list field) : option json := JObj ∘ mjoin <$> mapM id fs.

(** Go's empty values. *)
Definition empty_string (s : string) : bool := bool_decide (s = "").
Definition empty_int (z : Z) : bool := z =? 0.
Definition empty_bool (b : bool) : bool := negb b.
Definition empty_list {A} (l : list A) : bool := match l with [] => true | _ => false end.
Definition empty_ptr {A} (o : option A) : bool := match o with None => true | _ => false end.
Definition empty_map {A} (m : gmap string A) : bool := bool_decide (m = ∅).
Definition empty_float (f : spec_float) : bool := match f with S754_zero _ => true | _ => false end.

(** ** Examples *)

Example quote_html : quote_string "a<b>&" = String quote "a\u003cb\u003e\u0026" +:+ String quote "".
Proof. vm_compute. reflexivity. Qed.
Example quote_nl : escape_string (String (chr 10) (String (chr 255) "x")) = "\n\ufffdx".
Proof. vm_compute. reflexivity. Qed.
Example print_small : print_json (JObj [("a", JArr [JNum "1"; JNull]); ("b", JBool true)])
  = "{" +:+ quote_string "a" +:+ ":[1,null]," +:+ quote_string "b" +:+ ":true}".
Proof. vm_compute. reflexivity. Qed.

(** ** Lemmas *)

Lemma mapM_is_Some {A B} (f : A → option B) l :
  Forall (λ a, is_Some (f a)) l → is_Some (mapM f l).
Proof. intros H. by apply mapM_is_Some_2. Qed.

(** The encoding of a struct fails exactly when the encoding of a field does. *)
Lemma json_struct_is_Some fs : is_Some (json_struct fs) ↔ Forall is_Some fs.
Proof.
  unfold json_struct. rewrite fmap_is_Some. split.
  - intros H. by apply mapM_is_Some_1 in H.
  - intros H. by apply mapM_is_Some_2.
Qed.

Lemma omitempty_is_Some {A} `{ToJson A} name emp (a : A) :
  is_Some (to_json a) → is_Some (omitempty name emp a).
Proof. intros [j Hj]. unfold omitempty. case_match; [by eexists|]. rewrite Hj. by eexists. Qed.

Lemma to_json_list_is_Some {A} `{ToJson A} (l : list A) :
  Forall (λ a, is_Some (to_json a)) l → is_Some (to_json l).
Proof. intros Hl. unfold to_json, to_json_list. apply fmap_is_Some. by apply mapM_is_Some_2. Qed.

Lemma to_json_option_is_Some {A} `{ToJson A} (o : option A) :
  (∀ a, o = Some a → is_Some (to_json a)) → is_Some (to_json o).
Proof. intros Ho. destruct o as [a|]; simpl; [by apply Ho|by eexists]. Qed.

Lemma sort_keys_perm {A} (l : list (string * A)) : sort_keys l ≡ₚ l.
Proof. apply merge_sort_Permutation. Qed.

Lemma to_json_map_is_Some {A} `{ToJson A} (m : gmap string A) :
  (∀ k a, m !! k = Some a → is_Some (to_json a)) → is_Some (to_json m).
Proof.
  intros Hm. unfold to_json, to_json_map. apply fmap_is_Some, mapM_is_Some_2.
  apply Forall_forall. intros [k a] Hka. rewrite sort_keys_perm in Hka.
  apply elem_of_map_to_list in Hka. apply fmap_is_Some. exact (Hm k a Hka).
Qed.

Lemma to_json_float_is_Some (f : spec_float) :
  is_finite_float f = true → is_Some (to_json f).
Proof. intros Hf. unfold to_json, to_json_float. apply fmap_is_Some. by apply format_float_finite. Qed.

Lemma Marshal_is_Some {A} `{ToJson A} (a : A) : is_Some (Marshal a) ↔ is_Some (to_json a).
Proof. unfold Marshal. apply fmap_is_Some. Qed.

Lemma quote_string_not_empty s : quote_string s ≠ "".
Proof. done. Qed.

#[export] Hint Resolve omitempty_is_Some to_json_list_is_Some to_json_float_is_Some
  to_json_option_is_Some : amesh.
