(* ===== verification/Apisix.v ===== *)
(** * The APISIX resources (src/pkg/apisix)

    The records that the provisioner produces and the agent stores, with the
    JSON encoding that their struct tags define ([omitempty] on every field,
    fields in declaration order).  A Go slice is a [list] (a nil and an empty
    slice have the same encoding and the same loops), a nil pointer is [None]. *)

From S2P Require Import Prelude GoStrings GoNum Json.
From Stdlib Require Import SpecFloat.

Local Open Scope Z_scope.
Set Warnings "-register-all".

(** ** base.go *)

(** The elements of a [Var]: strings or nested [*Var] values. *)
Inductive VarElem : Type :=
| VarStr (s : string)
| VarSub (v : list VarElem).

Definition Var : Type := list VarElem.

(** The method [ToComparableString] of [*Var]. *)
Fixpoint elem_comparable (e : VarElem) : string :=
  match e with
  | VarStr value => ReplaceAll value "." ".." +:+ "."
  | VarSub v => foldr (λ e acc, elem_comparable e +:+ acc) "" v +:+ "."
  end.

Definition ToComparableString (v : Var) : string :=
  foldr (λ e acc, elem_comparable e +:+ acc) "" v.

Record Timeout := mkTimeout {
  Timeout_Connect : spec_float;
  Timeout_Send : spec_float;
  Timeout_Read : spec_float
}.

(** ** upstream.go *)

Definition LoadBalanceType := string.
Definition LoadBalanceTypeChash : LoadBalanceType := "chash".
Definition LoadBalanceTypeRoundrobin : LoadBalanceType := "roundrobin".
Definition LoadBalanceTypeEwma : LoadBalanceType := "ewma".
Definition LoadBalanceTypeLeaseConn : LoadBalanceType := "lease_conn".

Definition HashOn := string.
Definition HashOnVars : HashOn := "vars".
Definition HashOnHeader : HashOn := "header".
Definition HashOnCookie : HashOn := "cookie".
Definition HashOnConsumer : HashOn := "consumer".
Definition HashOnVarsCombination : HashOn := "vars_combination".

Definition ProtocolScheme := string.
Definition ProtocolSchemeGrpc : ProtocolScheme := "grpc".
Definition ProtocolSchemeGrpcs : ProtocolScheme := "grpcs".
Definition ProtocolSchemeHttp : ProtocolScheme := "http".
Definition ProtocolSchemeHttps : ProtocolScheme := "https".
Definition ProtocolSchemeTcp : ProtocolScheme := "tcp".
Definition ProtocolSchemeTls : ProtocolScheme := "tls".
Definition ProtocolSchemeUdp : ProtocolScheme := "udp".

Definition HostPassingStrategy := string.
Definition HostPassingStrategyPass : HostPassingStrategy := "pass".
Definition HostPassingStrategyNode : HostPassingStrategy := "node".
Definition HostPassingStrategyRewrite : HostPassingStrategy := "rewrite".

(** Decoded JSON values of Go type [interface{}] ([json.Unmarshal] into an
    empty interface), objects with their keys in the order Go prints them. *)
Inductive any : Type :=
| AnyNull
| AnyBool (b : bool)
| AnyFloat (f : spec_float)
| AnyStr (s : string)
| AnyList (l : list any)
| AnyObj (m : list (string * any)).

(** [map[string]interface{}]; [None] is the nil map. *)
Definition any_map := option (list (string * any)).

Record Node := mkNode {
  Node_Host : string;
  Node_Port : Z;
  Node_Weight : Z;
  Node_Metadata : any_map
}.

Record ActiveHealthCheckHealthy := mkActiveHealthCheckHealthy {
  AHH_Interval : Z;
  AHH_HttpStatuses : list Z;
  AHH_Successes : Z
}.

Record ActiveHealthCheckUnhealthy := mkActiveHealthCheckUnhealthy {
  AHU_Interval : Z;
  AHU_HttpStatuses : list Z;
  AHU_HttpFailures : Z;
  AHU_TcpFailures : Z;
  AHU_Timeouts : Z
}.

Definition HealthCheckType := string.
Definition HealthCheckTypeHttp : HealthCheckType := "http".
Definition HealthCheckTypeHttps : HealthCheckType := "https".
Definition HealthCheckTypeTcp : HealthCheckType := "tcp".

Record ActiveHealthCheck := mkActiveHealthCheck {
  AHC_Type : string;
  AHC_Timeout : spec_float;
  AHC_Concurrency : Z;
  AHC_Host : string;
  AHC_Port : Z;
  AHC_HttpPath : string;
  AHC_HttpsVerifyCertificate : bool;
  AHC_Healthy : option ActiveHealthCheckHealthy;
  AHC_Unhealthy : option ActiveHealthCheckUnhealthy;
  AHC_ReqHeaders : list string
}.

Record PassiveHealthCheckHealthy := mkPassiveHealthCheckHealthy {
  PHH_HttpStatuses : list Z;
  PHH_Successes : Z
}.

Record PassiveHealthCheckUnhealthy := mkPassiveHealthCheckUnhealthy {
  PHU_HttpStatuses : list Z;
  PHU_HttpFailures : Z;
  PHU_TcpFailures : Z;
  PHU_Timeouts : Z
}.

Record PassiveHealthCheck := mkPassiveHealthCheck {
  PHC_Type : string;
  PHC_Healthy : option PassiveHealthCheckHealthy;
  PHC_Unhealthy : option PassiveHealthCheckUnhealthy
}.

Record HealthCheck := mkHealthCheck {
  HC_Active : option ActiveHealthCheck;
  HC_Passive : option PassiveHealthCheck
}.

Record UpstreamTLSConfig := mkUpstreamTLSConfig {
  TLS_ClientCert : string;
  TLS_ClientKey : string
}.

Record KeepalivePool := mkKeepalivePool {
  KP_Size : Z;
  KP_Requests : Z;
  KP_IdleTimeout : spec_float
}.

Record Upstream := mkUpstream {
  Upstream_CreateTime : Z;
  Upstream_UpdateTime : Z;
  Upstream_Nodes : list Node;
  Upstream_Retries : Z;
  Upstream_Timeout : option Timeout;
  Upstream_Tls : option UpstreamTLSConfig;
  Upstream_KeepalivePool : option KeepalivePool;
  Upstream_Type : LoadBalanceType;
  Upstream_Check : option HealthCheck;
  Upstream_HashOn : HashOn;
  Upstream_Key : string;
  Upstream_Scheme : ProtocolScheme;
  Upstream_Labels : gmap string string;
  Upstream_PassHost : HostPassingStrategy;
  Upstream_UpstreamHost : string;
  Upstream_Name : string;
  Upstream_Desc : string;
  Upstream_Id : string
}.

(** [&apisix.Upstream{}] and the assignments to its fields. *)
Definition new_Upstream : Upstream :=
  mkUpstream 0 0 [] 0 None None None "" None "" "" "" ∅ "" "" "" "" "".

Definition set_Upstream_Nodes (n : list Node) (u : Upstream) : Upstream :=
  let 'mkUpstream ct ut _ re to tl kp ty ch ho ke sc la ph uh na de i := u in
  mkUpstream ct ut n re to tl kp ty ch ho ke sc la ph uh na de i.
Definition set_Upstream_Timeout (t : option Timeout) (u : Upstream) : Upstream :=
  let 'mkUpstream ct ut n re _ tl kp ty ch ho ke sc la ph uh na de i := u in
  mkUpstream ct ut n re t tl kp ty ch ho ke sc la ph uh na de i.
Definition set_Upstream_Type (t : LoadBalanceType) (u : Upstream) : Upstream :=
  let 'mkUpstream ct ut n re to tl kp _ ch ho ke sc la ph uh na de i := u in
  mkUpstream ct ut n re to tl kp t ch ho ke sc la ph uh na de i.

(** ** plugins.go *)

Definition PluginFaultInjection : string := "fault-injection".
Definition PluginProxyMirror : string := "proxy-mirror".
Definition PluginTrafficSplit : string := "traffic-split".
Definition PluginPrometheus : string := "prometheus".

Record FaultInjectionAbort := mkFaultInjectionAbort {
  FIA_HttpStatus : Z;
  FIA_Body : string;
  FIA_Percentage : Z;
  FIA_Vars : list Var
}.

Record FaultInjectionDelay := mkFaultInjectionDelay {
  FID_Duration : Z;
  FID_Percentage : Z;
  FID_Vars : list Var
}.

Record FaultInjection := mkFaultInjection {
  FI_Abort : option FaultInjectionAbort;
  FI_Delay : option FaultInjectionDelay
}.

Record TrafficSplitWeightedUpstreams := mkTrafficSplitWeightedUpstreams {
  TSW_UpstreamId : string;
  TSW_Weight : Z
}.

Record TrafficSplitRule := mkTrafficSplitRule {
  TSR_Match : list Var;
  TSR_WeightedUpstreams : list TrafficSplitWeightedUpstreams
}.

Record TrafficSplit := mkTrafficSplit { TS_Rules : list TrafficSplitRule }.

Record ProxyMirror := mkProxyMirror {
  PM_Host : string;
  PM_Path : string;
  PM_SampleRatio : spec_float
}.

Record Prometheus := mkPrometheus { Prometheus_PreferName : bool }.

(** amesh/types.ApisixExtPlugin and ApisixExtPluginConfig *)
Record ApisixExtPlugin := mkApisixExtPlugin {
  AEP_Name : string;
  AEP_Value : any_map
}.

Record ApisixExtPluginConfig := mkApisixExtPluginConfig { AEPC_Conf : list ApisixExtPlugin }.

(** The dynamic types that the program stores in a route's [Plugins] map. *)
Inductive plugin : Type :=
| PlFaultInjection (p : FaultInjection)
| PlTrafficSplit (p : TrafficSplit)
| PlProxyMirror (p : ProxyMirror)
| PlPrometheus (p : Prometheus)
| PlExtPlugin (p : ApisixExtPluginConfig)
| PlConfig (p : any_map).

(** ** route.go *)

Definition RouteStatus := Z.
Definition RouteDisable : RouteStatus := 0.
Definition RouteEnable : RouteStatus := 1.

Record Route := mkRoute {
  Route_Uris : list string;
  Route_Name : string;
  Route_Id : string;
  Route_Desc : string;
  Route_Priority : Z;
  Route_Methods : list string;
  Route_Hosts : list string;
  Route_RemoteAddrs : list string;
  Route_Vars : list Var;
  Route_Plugins : gmap string plugin;
  Route_ServiceId : string;
  Route_UpstreamId : string;
  Route_Status : RouteStatus;
  Route_Timeout : option Timeout;
  Route_EnableWebsocket : bool;
  Route_Labels : gmap string string;
  Route_CreateTime : Z;
  Route_UpdateTime : Z
}.

Definition set_Route_Plugins (p : gmap string plugin) (r : Route) : Route :=
  let 'mkRoute ur na i de pr me ho ra va _ si ui st to ew la ct ut := r in
  mkRoute ur na i de pr me ho ra va p si ui st to ew la ct ut.
Definition set_Route_Timeout (t : option Timeout) (r : Route) : Route :=
  let 'mkRoute ur na i de pr me ho ra va p si ui st _ ew la ct ut := r in
  mkRoute ur na i de pr me ho ra va p si ui st t ew la ct ut.

(** The method [Copy] of [*Route]: fresh slices and maps filled element by element. *)
Definition copy_slice {A} (l : list A) : list A := foldl (λ acc val, acc ++ [val]) [] l.

Definition copy_map {A} `{GoRange} (seed : string) (m : gmap string A) : gmap string A :=
  foldl (λ acc kv, <[kv.1 := kv.2]> acc) ∅ (range seed m).

Definition Copy `{GoRange} (route : Route) : Route := {|
  Route_Uris := copy_slice (Route_Uris route);
  Route_Name := Route_Name route;
  Route_Id := Route_Id route;
  Route_Desc := Route_Desc route;
  Route_Priority := Route_Priority route;
  Route_Methods := copy_slice (Route_Methods route);
  Route_Hosts := copy_slice (Route_Hosts route);
  Route_RemoteAddrs := Route_RemoteAddrs route;
  Route_Vars := Route_Vars route;
  Route_Plugins := copy_map ("copy plugins " +:+ Route_Id route) (Route_Plugins route);
  Route_ServiceId := Route_ServiceId route;
  Route_UpstreamId := Route_UpstreamId route;
  Route_Status := Route_Status route;
  Route_Timeout := Route_Timeout route;
  Route_EnableWebsocket := Route_EnableWebsocket route;
  Route_Labels := copy_map ("copy labels " +:+ Route_Id route) (Route_Labels route);
  Route_CreateTime := Route_CreateTime route;
  Route_UpdateTime := Route_UpdateTime route
|}.

(** ** JSON encodings

    One instance per struct, a field per tag. *)

Fixpoint elem_to_json (e : VarElem) : json :=
  match e with
  | VarStr s => JStr s
  | VarSub v => match v with [] => JNull | _ => JArr (elem_to_json <$> v) end
  end.

(** The only empty [Var] the program builds is the nil one ([var expr Var]),
    which encodes as [null]. *)
#[export] Instance to_json_Var : ToJson Var := λ v, Some (elem_to_json (VarSub v)).

Fixpoint any_to_json (a : any) : option json :=
  match a with
  | AnyNull => Some JNull
  | AnyBool b => Some (JBool b)
  | AnyFloat f => JNum <$> format_float64 f
  | AnyStr s => Some (JStr s)
  | AnyList l => JArr <$> mapM any_to_json l
  | AnyObj m => JObj <$> mapM (λ kv, match kv with (k, v) => pair k <$> any_to_json v end) m
  end.
#[export] Instance to_json_any : ToJson any := any_to_json.

#[export] Instance to_json_any_map : ToJson any_map := λ m,
  match m with None => Some JNull | Some m => any_to_json (AnyObj m) end.
Definition empty_any_map (m : any_map) : bool :=
  match m with None | Some [] => true | _ => false end.

#[export] Instance to_json_Timeout : ToJson Timeout := λ t, json_struct [
  omitempty "connect" empty_float (Timeout_Connect t);
  omitempty "send" empty_float (Timeout_Send t);
  omitempty "read" empty_float (Timeout_Read t)].

#[export] Instance to_json_Node : ToJson Node := λ n, json_struct [
  omitempty "host" empty_string (Node_Host n);
  omitempty "port" empty_int (Node_Port n);
  omitempty "weight" empty_int (Node_Weight n);
  omitempty "metadata" empty_any_map (Node_Metadata n)].

#[export] Instance to_json_AHH : ToJson ActiveHealthCheckHealthy := λ h, json_struct [
  omitempty "interval" empty_int (AHH_Interval h);
  omitempty "http_statuses" empty_list (AHH_HttpStatuses h);
  omitempty "successes" empty_int (AHH_Successes h)].

#[export] Instance to_json_AHU : ToJson ActiveHealthCheckUnhealthy := λ h, json_struct [
  omitempty "interval" empty_int (AHU_Interval h);
  omitempty "http_statuses" empty_list (AHU_HttpStatuses h);
  omitempty "http_failures" empty_int (AHU_HttpFailures h);
  omitempty "tcp_failures" empty_int (AHU_TcpFailures h);
  omitempty "timeouts" empty_int (AHU_Timeouts h)].

#[export] Instance to_json_AHC : ToJson ActiveHealthCheck := λ h, json_struct [
  omitempty "type" empty_string (AHC_Type h);
  omitempty "timeout" empty_float (AHC_Timeout h);
  omitempty "concurrency" empty_int (AHC_Concurrency h);
  omitempty "host" empty_string (AHC_Host h);
  omitempty "port" empty_int (AHC_Port h);
  omitempty "http_path" empty_string (AHC_HttpPath h);
  omitempty "https_verify_certificate" empty_bool (AHC_HttpsVerifyCertificate h);
  omitempty "healthy" empty_ptr (AHC_Healthy h);
  omitempty "unhealthy" empty_ptr (AHC_Unhealthy h);
  omitempty "req_headers" empty_list (AHC_ReqHeaders h)].

#[export] Instance to_json_PHH : ToJson PassiveHealthCheckHealthy := λ h, json_struct [
  omitempty "http_statuses" empty_list (PHH_HttpStatuses h);
  omitempty "successes" empty_int (PHH_Successes h)].

#[export] Instance to_json_PHU : ToJson PassiveHealthCheckUnhealthy := λ h, json_struct [
  omitempty "http_statuses" empty_list (PHU_HttpStatuses h);
  omitempty "http_failures" empty_int (PHU_HttpFailures h);
  omitempty "tcp_failures" empty_int (PHU_TcpFailures h);
  omitempty "timeouts" empty_int (PHU_Timeouts h)].

#[export] Instance to_json_PHC : ToJson PassiveHealthCheck := λ h, json_struct [
  omitempty "type" empty_string (PHC_Type h);
  omitempty "healthy" empty_ptr (PHC_Healthy h);
  omitempty "unhealthy" empty_ptr (PHC_Unhealthy h)].

#[export] Instance to_json_HealthCheck : ToJson HealthCheck := λ h, json_struct [
  omitempty "active" empty_ptr (HC_Active h);
  omitempty "passive" empty_ptr (HC_Passive h)].

#[export] Instance to_json_TLS : ToJson UpstreamTLSConfig := λ t, json_struct [
  omitempty "client_cert" empty_string (TLS_ClientCert t);
  omitempty "client_key" empty_string (TLS_ClientKey t)].

#[export] Instance to_json_KeepalivePool : ToJson KeepalivePool := λ k, json_struct [
  omitempty "size" empty_int (KP_Size k);
  omitempty "requests" empty_int (KP_Requests k);
  omitempty "idle_timeout" empty_float (KP_IdleTimeout k)].

#[export] Instance to_json_Upstream : ToJson Upstream := λ u, json_struct [
  omitempty "create_time" empty_int (Upstream_CreateTime u);
  omitempty "update_time" empty_int (Upstream_UpdateTime u);
  omitempty "nodes" empty_list (Upstream_Nodes u);
  omitempty "retries" empty_int (Upstream_Retries u);
  omitempty "timeout" empty_ptr (Upstream_Timeout u);
  omitempty "tls" empty_ptr (Upstream_Tls u);
  omitempty "keepalive_pool" empty_ptr (Upstream_KeepalivePool u);
  omitempty "type" empty_string (Upstream_Type u);
  omitempty "check" empty_ptr (Upstream_Check u);
  omitempty "hash_on" empty_string (Upstream_HashOn u);
  omitempty "key" empty_string (Upstream_Key u);
  omitempty "scheme" empty_string (Upstream_Scheme u);
  omitempty "labels" empty_map (Upstream_Labels u);
  omitempty "pass_host" empty_string (Upstream_PassHost u);
  omitempty "upstream_host" empty_string (Upstream_UpstreamHost u);
  omitempty "name" empty_string (Upstream_Name u);
  omitempty "desc" empty_string (Upstream_Desc u);
  omitempty "id" empty_string (Upstream_Id u)].

#[export] Instance to_json_FIA : ToJson FaultInjectionAbort := λ a, json_struct [
  omitempty "http_status" empty_int (FIA_HttpStatus a);
  omitempty "body" empty_string (FIA_Body a);
  omitempty "percentage" empty_int (FIA_Percentage a);
  omitempty "vars" empty_list (FIA_Vars a)].

#[export] Instance to_json_FID : ToJson FaultInjectionDelay := λ d, json_struct [
  omitempty "duration" empty_int (FID_Duration d);
  omitempty "percentage" empty_int (FID_Percentage d);
  omitempty "vars" empty_list (FID_Vars d)].

#[export] Instance to_json_FaultInjection : ToJson FaultInjection := λ f, json_struct [
  omitempty "abort" empty_ptr (FI_Abort f);
  omitempty "delay" empty_ptr (FI_Delay f)].

#[export] Instance to_json_TSW : ToJson TrafficSplitWeightedUpstreams := λ t, json_struct [
  omitempty "upstream_id" empty_string (TSW_UpstreamId t);
  omitempty "weight" empty_int (TSW_Weight t)].

#[export] Instance to_json_TSR : ToJson TrafficSplitRule := λ t, json_struct [
  omitempty "match" empty_list (TSR_Match t);
  omitempty "weighted_upstreams" empty_list (TSR_WeightedUpstreams t)].

#[export] Instance to_json_TrafficSplit : ToJson TrafficSplit := λ t, json_struct [
  omitempty "rules" empty_list (TS_Rules t)].

(** [SampleRatio] is a float32. *)
#[export] Instance to_json_ProxyMirror : ToJson ProxyMirror := λ p, json_struct [
  omitempty "host" empty_string (PM_Host p);
  omitempty "path" empty_string (PM_Path p);
  (if empty_float (PM_SampleRatio p) then Some []
   else (λ t, [("sample_ratio", JNum t)]) <$> format_float32 (PM_SampleRatio p))].

#[export] Instance to_json_Prometheus : ToJson Prometheus := λ p, json_struct [
  omitempty "prefer_name" empty_bool (Prometheus_PreferName p)].

#[export] Instance to_json_ApisixExtPlugin : ToJson ApisixExtPlugin := λ p, json_struct [
  omitempty "name" empty_string (AEP_Name p);
  omitempty "value" empty_any_map (AEP_Value p)].

#[export] Instance to_json_ApisixExtPluginConfig : ToJson ApisixExtPluginConfig := λ p, json_struct [
  omitempty "conf" empty_list (AEPC_Conf p)].

#[export] Instance to_json_plugin : ToJson plugin := λ p,
  match p with
  | PlFaultInjection p => to_json p
  | PlTrafficSplit p => to_json p
  | PlProxyMirror p => to_json p
  | PlPrometheus p => to_json p
  | PlExtPlugin p => to_json p
  | PlConfig p => to_json p
  end.

#[export] Instance to_json_Route : ToJson Route := λ r, json_struct [
  omitempty "uris" empty_list (Route_Uris r);
  omitempty "name" empty_string (Route_Name r);
  omitempty "id" empty_string (Route_Id r);
  omitempty "desc" empty_string (Route_Desc r);
  omitempty "priority" empty_int (Route_Priority r);
  omitempty "methods" empty_list (Route_Methods r);
  omitempty "hosts" empty_list (Route_Hosts r);
  omitempty "remote_addrs" empty_list (Route_RemoteAddrs r);
  omitempty "vars" empty_list (Route_Vars r);
  omitempty "plugins" empty_map (Route_Plugins r);
  omitempty "service_id" empty_string (Route_ServiceId r);
  omitempty "upstream_id" empty_string (Route_UpstreamId r);
  omitempty "status" empty_int (Route_Status r);
  omitempty "timeout" empty_ptr (Route_Timeout r);
  omitempty "enable_websocket" empty_bool (Route_EnableWebsocket r);
  omitempty "labels" empty_map (Route_Labels r);
  omitempty "create_time" empty_int (Route_CreateTime r);
  omitempty "update_time" empty_int (Route_UpdateTime r)].

(** ** Values that marshal: every float in them is finite *)

Fixpoint any_finite (a : any) : bool :=
  match a with
  | AnyFloat f => is_finite_float f
  | AnyList l => forallb any_finite l
  | AnyObj m => forallb (λ kv, match kv with (_, v) => any_finite v end) m
  | _ => true
  end.
Definition any_map_finite (m : any_map) : bool :=
  match m with None => true | Some m => any_finite (AnyObj m) end.

Definition timeout_finite (t : Timeout) : bool :=
  is_finite_float (Timeout_Connect t) && is_finite_float (Timeout_Send t) &&
  is_finite_float (Timeout_Read t).

Definition opt_finite {A} (P : A → bool) (o : option A) : bool :=
  match o with None => true | Some a => P a end.

Definition plugin_finite (p : plugin) : bool :=
  match p with
  | PlProxyMirror p => is_finite_float (PM_SampleRatio p)
  | PlExtPlugin p => forallb (λ e, any_map_finite (AEP_Value e)) (AEPC_Conf p)
  | PlConfig p => any_map_finite p
  | _ => true
  end.

Definition route_finite (r : Route) : Prop :=
  opt_finite timeout_finite (Route_Timeout r) = true ∧
  map_Forall (λ _ p, plugin_finite p = true) (Route_Plugins r).

Definition upstream_finite (u : Upstream) : Prop :=
  opt_finite timeout_finite (Upstream_Timeout u) = true ∧
  opt_finite (λ k, is_finite_float (KP_IdleTimeout k)) (Upstream_KeepalivePool u) = true ∧
  opt_finite (λ h, opt_finite (λ a, is_finite_float (AHC_Timeout a)) (HC_Active h)) (Upstream_Check u) = true ∧
  Forall (λ n, any_map_finite (Node_Metadata n) = true) (Upstream_Nodes u).

Definition any_nested_ind (P : any → Prop)
    (Hnull : P AnyNull) (Hbool : ∀ b, P (AnyBool b)) (Hfloat : ∀ f, P (AnyFloat f))
    (Hstr : ∀ s, P (AnyStr s))
    (Hlist : ∀ l, Forall P l → P (AnyList l))
    (Hobj : ∀ m, Forall (λ kv, P kv.2) m → P (AnyObj m)) : ∀ a, P a :=
  fix go (a : any) : P a :=
    match a with
    | AnyNull => Hnull
    | AnyBool b => Hbool b
    | AnyFloat f => Hfloat f
    | AnyStr s => Hstr s
    | AnyList l => Hlist l ((fix goL l : Forall P l := match l with
        | [] => Forall_nil_2 P
        | a :: l => Forall_cons_2 P a l (go a) (goL l) end) l)
    | AnyObj m => Hobj m ((fix goM m : Forall (λ kv, P kv.2) m := match m with
        | [] => Forall_nil_2 _
        | kv :: m => Forall_cons_2 (λ kv, P kv.2) kv m (go kv.2) (goM m) end) m)
    end.

(** ** Lemmas *)

Example comparable_conflict :
  ToComparableString [VarStr "a"; VarStr ".b"] = ToComparableString [VarStr "a."; VarStr "b"].
Proof. reflexivity. Qed.

(** The test table of base_test.go. *)
Example comparable_nested :
  bool_decide (ToComparableString [VarStr "A"; VarStr "in"; VarSub [VarStr "B"; VarStr "C"]]
    = ToComparableString [VarStr "A"; VarStr "in"; VarSub [VarStr "B.C"]]) = false.
Proof. vm_compute. reflexivity. Qed.

Lemma copy_slice_eq {A} (l : list A) : copy_slice l = l.
Proof.
  cut (∀ acc, foldl (λ acc val, acc ++ [val]) acc l = acc ++ l); [intros H; apply H|].
  induction l as [|x l IH]; intros acc; simpl; [by rewrite app_nil_r|].
  by rewrite IH, <- app_assoc.
Qed.

Lemma foldl_insert_notin {A} (l : list (string * A)) (acc : gmap string A) k :
  k ∉ l.*1 → foldl (λ acc kv, <[kv.1 := kv.2]> acc) acc l !! k = acc !! k.
Proof.
  revert acc; induction l as [|[k' x] l IH]; intros acc Hk; simpl in *; [done|].
  apply not_elem_of_cons in Hk as [Hne Hk]. rewrite IH by done. by rewrite lookup_insert_ne.
Qed.

Lemma foldl_insert_in {A} (l : list (string * A)) (acc : gmap string A) k x :
  NoDup l.*1 → (k, x) ∈ l → foldl (λ acc kv, <[kv.1 := kv.2]> acc) acc l !! k = Some x.
Proof.
  revert acc; induction l as [|[k' x'] l IH]; intros acc Hnd Hin; [by apply elem_of_nil in Hin|].
  simpl in *. apply NoDup_cons in Hnd as [Hk' Hnd].
  apply elem_of_cons in Hin as [[= -> ->]|Hin]; [|by apply IH].
  rewrite foldl_insert_notin by done. apply lookup_insert_eq.
Qed.

(** Copying a map entry by entry rebuilds it, in whatever order it is visited. *)
Lemma copy_map_eq `{GoRange} {A} seed (m : gmap string A) : copy_map seed m = m.
Proof.
  apply map_eq; intros k. unfold copy_map. destruct (m !! k) as [x|] eqn:Hk.
  - apply foldl_insert_in; [apply NoDup_fst_range|by apply elem_of_range].
  - rewrite foldl_insert_notin; [done|]. intros Hin.
    apply list_elem_of_fmap in Hin as ([k' x] & -> & Hin). apply elem_of_range in Hin. simpl in Hk. congruence.
Qed.

Lemma Copy_eq `{GoRange} r : Copy r = r.
Proof. destruct r. unfold Copy; simpl. by rewrite !copy_slice_eq, !copy_map_eq. Qed.

Lemma any_to_json_is_Some a : any_finite a = true → is_Some (any_to_json a).
Proof.
  induction a as [| | f | |l IH|m IH] using any_nested_ind; simpl; intros Hf; try (by eexists).
  - apply fmap_is_Some. by apply format_float_finite.
  - apply fmap_is_Some, mapM_is_Some_2. rewrite forallb_forall in Hf.
    apply Forall_forall. intros a Ha. rewrite Forall_forall in IH.
    apply IH; [done|]. apply Hf. by apply list_elem_of_In.
  - apply fmap_is_Some, mapM_is_Some_2. rewrite forallb_forall in Hf.
    apply Forall_forall. intros [k a] Ha. rewrite Forall_forall in IH. apply fmap_is_Some.
    apply (IH (k, a) Ha). apply (Hf (k, a)). by apply list_elem_of_In.
Qed.

Lemma any_map_is_Some (m : any_map) : any_map_finite m = true → is_Some (to_json m).
Proof. destruct m as [m|]; [apply any_to_json_is_Some|by eexists]. Qed.

(** Struct encodings, field by field. *)
Lemma Forall_singleton_2 {A} (P : A → Prop) x : P x → Forall P [x].
Proof. auto. Qed.

Ltac marshal_struct :=
  apply json_struct_is_Some; repeat (apply Forall_cons; split);
  try apply Forall_nil; try done; try (apply omitempty_is_Some; try (by eexists)).

Lemma to_json_Timeout_is_Some t : timeout_finite t = true → is_Some (to_json t).
Proof.
  unfold timeout_finite. rewrite !andb_true_iff. intros [[? ?] ?].
  marshal_struct; by apply to_json_float_is_Some.
Qed.

Lemma to_json_strings_is_Some (l : list string) : is_Some (to_json l).
Proof. apply to_json_list_is_Some, Forall_true. by eexists. Qed.
Lemma to_json_ints_is_Some (l : list Z) : is_Some (to_json l).
Proof. apply to_json_list_is_Some, Forall_true. by eexists. Qed.
Lemma to_json_vars_is_Some (l : list Var) : is_Some (to_json l).
Proof. apply to_json_list_is_Some, Forall_true. by eexists. Qed.
Lemma to_json_labels_is_Some (m : gmap string string) : is_Some (to_json m).
Proof. apply to_json_map_is_Some. by eexists. Qed.
#[export] Hint Resolve to_json_strings_is_Some to_json_ints_is_Some to_json_vars_is_Some
  to_json_labels_is_Some any_map_is_Some to_json_Timeout_is_Some : amesh.

Lemma to_json_FaultInjection_is_Some (f : FaultInjection) : is_Some (to_json f).
Proof.
  marshal_struct; apply to_json_option_is_Some; intros a _; marshal_struct; auto with amesh.
Qed.

Lemma to_json_TrafficSplit_is_Some (t : TrafficSplit) : is_Some (to_json t).
Proof.
  marshal_struct. apply to_json_list_is_Some, Forall_true; intros r. marshal_struct; auto with amesh.
  apply to_json_list_is_Some, Forall_true; intros w. marshal_struct.
Qed.

Lemma to_json_plugin_is_Some p : plugin_finite p = true → is_Some (to_json p).
Proof.
  destruct p as [f|t|m|q|e|c]; cbn [plugin_finite]; intros Hf.
  - apply to_json_FaultInjection_is_Some.
  - apply to_json_TrafficSplit_is_Some.
  - marshal_struct. case_match; [by eexists|]. apply fmap_is_Some. by apply format_float_finite.
  - marshal_struct.
  - marshal_struct. apply to_json_list_is_Some, Forall_forall. intros x Hx.
    rewrite forallb_forall in Hf. marshal_struct. apply any_map_is_Some, Hf. by apply list_elem_of_In.
  - by apply any_map_is_Some.
Qed.

(** A route whose floats are finite marshals. *)
Lemma Marshal_Route_is_Some r : route_finite r → is_Some (Marshal r).
Proof.
  intros [Ht Hp]. apply Marshal_is_Some. marshal_struct; auto with amesh.
  - apply to_json_map_is_Some. intros k p Hk. by apply to_json_plugin_is_Some, (Hp k p).
  - apply to_json_option_is_Some. intros t Hr. rewrite Hr in Ht. auto with amesh.
Qed.

Lemma to_json_HealthCheck_is_Some (h : HealthCheck) :
  opt_finite (λ a, is_finite_float (AHC_Timeout a)) (HC_Active h) = true → is_Some (to_json h).
Proof.
  intros Hf. marshal_struct; apply to_json_option_is_Some; intros a Ha.
  - rewrite Ha in Hf. marshal_struct; auto with amesh.
    + apply to_json_option_is_Some; intros x _. marshal_struct; auto with amesh.
    + apply to_json_option_is_Some; intros x _. marshal_struct; auto with amesh.
  - marshal_struct; apply to_json_option_is_Some; intros x _; marshal_struct; auto with amesh.
Qed.

(** An upstream whose floats are finite marshals. *)
Lemma Marshal_Upstream_is_Some u : upstream_finite u → is_Some (Marshal u).
Proof.
  intros (Ht & Hk & Hc & Hn). apply Marshal_is_Some. marshal_struct; auto with amesh.
  - apply to_json_list_is_Some. eapply Forall_impl; [exact Hn|]. intros n Hm.
    marshal_struct; auto with amesh.
  - apply to_json_option_is_Some. intros t Hr. rewrite Hr in Ht. auto with amesh.
  - apply to_json_option_is_Some. intros t _. marshal_struct.
  - apply to_json_option_is_Some. intros k Hr. rewrite Hr in Hk. marshal_struct.
    by apply to_json_float_is_Some.
  - apply to_json_option_is_Some. intros h Hr. rewrite Hr in Hc. by apply to_json_HealthCheck_is_Some.
Qed.
