(* ===== verification/Compare.v ===== *)
(** * Diffing two resource lists (src/pkg/apisix/utils/utils.go)

    [CompareRoutes] and [CompareUpstreams] are the same function on two types;
    they are the instances of [compare].  The specification is in terms of the
    map that a list denotes ([last_by]: the last resource of an id wins): the
    three result lists, applied in any store that holds the old list, produce
    the new one.  [IsSameNodes] compares node lists. *)

From S2P Require Import Prelude GoStrings GoNum Json Apisix.

Section Compare.
Context {A : Type} (Id : A → string) (MarshalA : A → option string).

(** [errO != nil || errN != nil], or the two encodings differ. *)
Definition changed (ro rn : A) : bool :=
  match MarshalA ro, MarshalA rn with
  | Some roJson, Some rnJson => negb (bool_decide (roJson = rnJson))
  | _, _ => true
  end.

(** One iteration of the loop over [r2]. *)
Definition compare_new (r1Map : gmap string A) (added : list A) (r : A) : list A :=
  match r1Map !! Id r with
  | Some _ => added
  | None => added ++ [r]
  end.

(** One iteration of the loop over [r1]. *)
Definition compare_old (r2Map : gmap string A) (acc : list A * list A) (ro : A) : list A * list A :=
  let '(deleted, updated) := acc in
  match r2Map !! Id ro with
  | None => (deleted ++ [ro], updated)
  | Some rn => if changed ro rn then (deleted, updated ++ [rn]) else (deleted, updated)
  end.

Definition compare (r1 r2 : list A) : list A * list A * list A :=
  if empty_list r1 then (r2, [], []) else
  if empty_list r2 then ([], r1, []) else
  let r1Map := last_by Id r1 in
  let r2Map := last_by Id r2 in
  let added := foldl (compare_new r1Map) [] r2 in
  let '(deleted, updated) := foldl (compare_old r2Map) ([], []) r1 in
  (added, deleted, updated).

(** The map of encodings that a list denotes. *)
Definition encoded (l : list A) (i : string) : option string := last_by Id l !! i ≫= MarshalA.

(** What a store should hold under an id once the old list [r1] has been
    replaced by [r2], [before] being what it held. *)
Definition synced (r1 r2 : list A) (i : string) (before : option string) : option string :=
  match last_by Id r2 !! i with
  | Some rn => MarshalA rn
  | None => match last_by Id r1 !! i with Some _ => None | None => before end
  end.
End Compare.

Definition CompareRoutes : list Route → list Route → list Route * list Route * list Route :=
  compare Route_Id Marshal.
Definition CompareUpstreams : list Upstream → list Upstream → list Upstream * list Upstream * list Upstream :=
  compare Upstream_Id Marshal.

(** [IsSameNodes]: [None] is the nil slice. *)
Definition same_node (n1Map : gmap string Node) (n2 : Node) : bool :=
  match n1Map !! Node_Host n2 with
  | None => false
  | Some n1 => (Node_Port n1 =? Node_Port n2)%Z && (Node_Weight n1 =? Node_Weight n2)%Z
  end.

Definition IsSameNodes (nodes1 nodes2 : option (list Node)) : bool :=
  match nodes1, nodes2 with
  | None, None => true
  | None, Some _ | Some _, None => false
  | Some nodes1, Some nodes2 =>
      if negb (bool_decide (length nodes1 = length nodes2)) then false
      else forallb (same_node (last_by Node_Host nodes1)) nodes2
  end.

(** ** The result lists as filters *)

Section Spec.
Context {A : Type} (Id : A → string) (MarshalA : A → option string).

Lemma compare_new_filter r1Map acc r2 :
  foldl (compare_new Id r1Map) acc r2 = acc ++ filter (λ r, r1Map !! Id r = None) r2.
Proof.
  revert acc; induction r2 as [|r r2 IH]; intros acc; simpl; [by rewrite app_nil_r|].
  rewrite IH. unfold compare_new. rewrite filter_cons.
  destruct (r1Map !! Id r); case_decide; try done. by rewrite <- app_assoc.
Qed.

Definition updates (r2Map : gmap string A) (ro : A) : option A :=
  r2Map !! Id ro ≫= λ rn, if changed MarshalA ro rn then Some rn else None.

Lemma compare_old_filter r2Map d u r1 :
  foldl (compare_old Id MarshalA r2Map) (d, u) r1 =
    (d ++ filter (λ r, r2Map !! Id r = None) r1, u ++ omap (updates r2Map) r1).
Proof.
  revert d u; induction r1 as [|r r1 IH]; intros d u; simpl; [by rewrite !app_nil_r|].
  rewrite filter_cons. unfold updates at 1.
  destruct (r2Map !! Id r) as [rn|]; simpl.
  - destruct (changed _ _ _); rewrite IH; [by rewrite <- app_assoc|done].
  - rewrite IH. by rewrite <- app_assoc.
Qed.

Lemma last_by_nil_lookup (l : list A) i : empty_list l = true → last_by Id l !! i = None.
Proof. by destruct l. Qed.

(** The early returns on nil lists agree with the general case. *)
Lemma compare_eq r1 r2 :
  compare Id MarshalA r1 r2 =
    (filter (λ r, last_by Id r1 !! Id r = None) r2,
     filter (λ r, last_by Id r2 !! Id r = None) r1,
     omap (updates (last_by Id r2)) r1).
Proof.
  unfold compare. destruct r1 as [|x r1]; cbn [empty_list].
  { rewrite list_filter_all; [done|]. intros. by rewrite last_by_nil, lookup_empty. }
  destruct r2 as [|y r2]; cbn [empty_list].
  - rewrite (list_filter_all _ (x :: r1)) by (intros; by rewrite last_by_nil, lookup_empty).
    f_equal. induction (x :: r1) as [|z l IH]; [done|]. simpl. unfold updates at 1.
    by rewrite last_by_nil, lookup_empty.
  - rewrite compare_new_filter, compare_old_filter. done.
Qed.

(** Filtering by a property of the id filters the denoted map. *)
Lemma last_by_filter (P : string → Prop) `{∀ i, Decision (P i)} (l : list A) i :
  last_by Id (filter (λ r, P (Id r)) l) !! i = if decide (P i) then last_by Id l !! i else None.
Proof.
  induction l as [|r l IH] using rev_ind; [by rewrite last_by_nil, lookup_empty; case_decide|].
  rewrite filter_app, filter_cons, filter_nil. destruct (decide (P (Id r))) as [HP|HP].
  - rewrite !last_by_snoc, !lookup_insert, IH. repeat case_decide; simplify_eq/=; done.
  - rewrite app_nil_r, last_by_snoc, lookup_insert, IH. repeat case_decide; simplify_eq/=; done.
Qed.

Lemma updates_lookup r1 r2 i x :
  last_by Id (omap (updates (last_by Id r2)) r1) !! i = Some x → last_by Id r2 !! i = Some x.
Proof.
  intros [Hin <-]%last_by_Some. apply list_elem_of_omap in Hin as (ro & _ & Hro).
  unfold updates in Hro. destruct (last_by Id r2 !! Id ro) as [rn|] eqn:Hrn; [|done].
  simpl in Hro. destruct (changed _ _ _); [|done]. injection Hro as ->.
  by pose proof (last_by_Some _ _ _ _ Hrn) as [_ ->].
Qed.

Lemma updates_None r1 r2 i ro rn :
  last_by Id (omap (updates (last_by Id r2)) r1) !! i = None →
  ro ∈ r1 → Id ro = i → last_by Id r2 !! i = Some rn → changed MarshalA ro rn = false.
Proof.
  intros Hnone Hin <- Hrn. destruct (changed MarshalA ro rn) eqn:Hc; [|done].
  destruct (proj1 (last_by_None _ _ _) Hnone rn); [|by apply last_by_Some in Hrn as [_ ?]].
  apply list_elem_of_omap. exists ro. split; [done|]. unfold updates. rewrite Hrn. simpl.
  by rewrite Hc.
Qed.

Lemma updates_only_old r1 r2 i :
  last_by Id r1 !! i = None → last_by Id (omap (updates (last_by Id r2)) r1) !! i = None.
Proof.
  intros Hnone. apply last_by_None. intros x Hx <-.
  apply list_elem_of_omap in Hx as (ro & Hro & Hu). unfold updates in Hu.
  destruct (last_by Id r2 !! Id ro) as [rn|] eqn:Hrn; [|done]. simpl in Hu.
  destruct (changed _ _ _); [|done]. injection Hu as ->.
  apply last_by_Some in Hrn as [_ Heq]. by apply (proj1 (last_by_None _ _ _) Hnone ro).
Qed.

Lemma changed_false ro rn : changed MarshalA ro rn = false → MarshalA ro = MarshalA rn.
Proof.
  unfold changed. destruct (MarshalA ro), (MarshalA rn); try done.
  intros Hb. apply negb_false_iff, bool_decide_eq_true in Hb. by subst.
Qed.

(** ** The result lists carry an old store to the new one

    [put] and [remove] are what a reader of the lists does with them: store
    the encoding of an added or updated resource, delete a deleted one. *)

Definition put (key : string → string) (l : list A) (c : gmap string string) : gmap string string :=
  foldl (λ c r, match MarshalA r with Some s => <[key (Id r) := s]> c | None => c end) c l.

Definition remove (key : string → string) (l : list A) (c : gmap string string) : gmap string string :=
  foldl (λ c r, delete (key (Id r)) c) c l.

Context (key : string → string) `{Hinj : !Inj (=) (=) key}.

Lemma put_lookup l c i :
  (∀ r, r ∈ l → is_Some (MarshalA r)) →
  put key l c !! key i = match last_by Id l !! i with Some r => MarshalA r | None => c !! key i end.
Proof using Hinj.
  induction l as [|r l IH] using rev_ind; intros Hm; [done|].
  unfold put. rewrite foldl_app. cbn [foldl]. fold (put key l c).
  destruct (Hm r) as [s Hs]; [apply elem_of_app; right; by left|]. rewrite Hs.
  rewrite last_by_snoc, !lookup_insert. case_decide as Hk.
  - apply Hinj in Hk. by rewrite decide_True.
  - rewrite decide_False by congruence. apply IH. intros r' Hr'. apply Hm, elem_of_app. by left.
Qed.

Lemma put_other l c k : (∀ i, k ≠ key i) → put key l c !! k = c !! k.
Proof.
  intros Hk. unfold put. revert c; induction l as [|r l IH]; intros c; [done|].
  cbn [foldl]. rewrite IH. case_match; [|done]. by rewrite lookup_insert_ne.
Qed.

Lemma remove_lookup l c i :
  remove key l c !! key i = match last_by Id l !! i with Some _ => None | None => c !! key i end.
Proof using Hinj.
  induction l as [|r l IH] using rev_ind; [done|].
  unfold remove. rewrite foldl_app. cbn [foldl]. fold (remove key l c).
  rewrite last_by_snoc, lookup_insert, lookup_delete. case_decide as Hk.
  - apply Hinj in Hk. by rewrite decide_True.
  - rewrite decide_False by congruence. apply IH.
Qed.

Lemma remove_other l c k : (∀ i, k ≠ key i) → remove key l c !! k = c !! k.
Proof.
  intros Hk. unfold remove. revert c; induction l as [|r l IH]; intros c; [done|].
  cbn [foldl]. rewrite IH. by rewrite lookup_delete_ne.
Qed.

(** Both operations act on each key independently. *)
Lemma put_agree l c c' k : c !! k = c' !! k → put key l c !! k = put key l c' !! k.
Proof.
  unfold put. revert c c'; induction l as [|r l IH]; intros c c' Hc; [done|]. cbn [foldl].
  apply IH. case_match; [|done]. rewrite !lookup_insert. by case_decide.
Qed.

Lemma remove_agree l c c' k : c !! k = c' !! k → remove key l c !! k = remove key l c' !! k.
Proof.
  unfold remove. revert c c'; induction l as [|r l IH]; intros c c' Hc; [done|]. cbn [foldl].
  apply IH. rewrite !lookup_delete. by case_decide.
Qed.

(** The three lists, read in the order added, deleted, updated. *)
Lemma compare_lookup r1 r2 c i :
  (∀ r, r ∈ r2 → is_Some (MarshalA r)) →
  (∀ ro, last_by Id r1 !! i = Some ro → c !! key i = MarshalA ro) →
  let '(a, d, u) := compare Id MarshalA r1 r2 in
  put key u (remove key d (put key a c)) !! key i = synced Id MarshalA r1 r2 i (c !! key i).
Proof using Hinj.
  intros Hm Hc. rewrite compare_eq. unfold synced.
  rewrite put_lookup.
  2: { intros r Hr. apply Hm. apply list_elem_of_omap in Hr as (ro & _ & Hro). unfold updates in Hro.
       destruct (last_by Id r2 !! Id ro) as [rn|] eqn:Hrn; [|done]. simpl in Hro.
       destruct (changed _ _ _); [|done]. injection Hro as ->. by apply last_by_Some in Hrn as [? _]. }
  rewrite remove_lookup, put_lookup.
  2: { intros r Hr. apply Hm. by apply list_elem_of_filter in Hr as [_ ?]. }
  pose proof (last_by_filter (λ i, last_by Id r1 !! i = None) r2 i) as F1.
  pose proof (last_by_filter (λ i, last_by Id r2 !! i = None) r1 i) as F2.
  cbv beta in F1, F2. rewrite F1, F2. clear F1 F2.
  destruct (last_by Id (omap _ r1) !! i) as [x|] eqn:Hu.
  { apply updates_lookup in Hu. by rewrite Hu. }
  destruct (last_by Id r2 !! i) as [rn|] eqn:H2; destruct (last_by Id r1 !! i) as [ro|] eqn:H1;
    repeat case_decide; try done.
  rewrite (Hc ro) by done. pose proof H1 as [Hin Hid]%last_by_Some.
  apply changed_false. by eapply updates_None.
Qed.
End Spec.

(** ** IsSameNodes

    A true answer means equal ports and weights for every host of the second
    list; the converse needs distinct hosts. *)

Lemma IsSameNodes_sound n1 n2 :
  IsSameNodes (Some n1) (Some n2) = true →
  length n1 = length n2 ∧
  ∀ n, n ∈ n2 → ∃ n', n' ∈ n1 ∧ Node_Host n' = Node_Host n ∧
    Node_Port n' = Node_Port n ∧ Node_Weight n' = Node_Weight n.
Proof.
  simpl. case_bool_decide as Hlen; [|done]. simpl. rewrite forallb_forall. intros Hall.
  split; [done|]. intros n Hn%list_elem_of_In. specialize (Hall n Hn). unfold same_node in Hall.
  destruct (last_by Node_Host n1 !! Node_Host n) as [n'|] eqn:Hl; [|done].
  apply last_by_Some in Hl as [? ?]. apply andb_true_iff in Hall as [?%Z.eqb_eq ?%Z.eqb_eq].
  eauto.
Qed.

Lemma IsSameNodes_refl n : NoDup (Node_Host <$> n) → IsSameNodes (Some n) (Some n) = true.
Proof.
  intros Hnd. simpl. rewrite bool_decide_true by done. simpl. apply forallb_forall.
  intros x Hx%list_elem_of_In. unfold same_node.
  rewrite (last_by_NoDup _ _ _ Hnd Hx). by rewrite !Z.eqb_refl.
Qed.
