(* ===== verification/StringSet.v ===== *)
(** * String sets (src/pkg/amesh/util/string_set.go)

    A [map[string]struct{}] is a [gset string].  Iterating it goes through the
    scheduler of [Prelude.GoRange]; [OrderedStrings] removes that dependence. *)

From S2P Require Import Prelude GoStrings.

Abbreviation StringSet := (gset string).

Definition Add (set : StringSet) (e : string) : StringSet := {[e]} ∪ set.

(** [Equals]: sizes, then both inclusions, element by element. *)
Definition Equals `{GoRange} (set set2 : StringSet) : bool :=
  if negb (bool_decide (size set = size set2)) then false
  else forallb (λ e, bool_decide (e ∈ set)) (range_keys "equals 2" set2) &&
       forallb (λ e, bool_decide (e ∈ set2)) (range_keys "equals 1" set).

(** [Strings]: the elements in the order the map is visited. *)
Definition Strings `{GoRange} (seed : string) (set : StringSet) : list string :=
  foldl (λ s e, s ++ [e]) [] (range_keys seed set).

Definition OrderedStrings `{GoRange} (seed : string) (set : StringSet) : list string :=
  SortStrings (Strings seed set).

(** ** Lemmas *)

Lemma snoc_fold_eq {A} (l acc : list A) : foldl (λ s e, s ++ [e]) acc l = acc ++ l.
Proof.
  revert acc; induction l as [|x l IH]; intros acc; simpl; [by rewrite app_nil_r|].
  by rewrite IH, <- app_assoc.
Qed.

Lemma Strings_range `{GoRange} seed set : Strings seed set = range_keys seed set.
Proof. apply snoc_fold_eq. Qed.

Lemma Strings_perm `{GoRange} seed set : Strings seed set ≡ₚ elements set.
Proof. rewrite Strings_range. apply range_keys_perm. Qed.

Lemma elem_of_Strings `{GoRange} seed set e : e ∈ Strings seed set ↔ e ∈ set.
Proof. rewrite Strings_range. apply elem_of_range_keys. Qed.

Lemma elem_of_Add set e x : x ∈ Add set e ↔ x = e ∨ x ∈ set.
Proof. unfold Add. set_solver. Qed.

Lemma Equals_spec `{GoRange} set set2 : Equals set set2 = true ↔ set = set2.
Proof.
  unfold Equals. split.
  - case_bool_decide; simpl; [|done]. rewrite andb_true_iff, !forallb_forall. intros [H2 H1].
    apply set_eq; intros x. split; intros Hx.
    + specialize (H1 x). rewrite bool_decide_eq_true in H1.
      apply H1, list_elem_of_In, elem_of_range_keys, Hx.
    + specialize (H2 x). rewrite bool_decide_eq_true in H2.
      apply H2, list_elem_of_In, elem_of_range_keys, Hx.
  - intros ->. rewrite bool_decide_true by done. simpl. rewrite andb_true_iff, !forallb_forall.
    split; intros x Hx; apply bool_decide_eq_true;
      by apply list_elem_of_In, elem_of_range_keys in Hx.
Qed.

(** The result does not depend on the order in which the maps are visited. *)
Lemma OrderedStrings_eq `{GoRange} seed set :
  OrderedStrings seed set = SortStrings (elements set).
Proof. unfold OrderedStrings. by rewrite Strings_perm. Qed.

Lemma OrderedStrings_sorted `{GoRange} seed set : Sorted String.le (OrderedStrings seed set).
Proof. apply SortStrings_sorted. Qed.

Lemma elem_of_OrderedStrings `{GoRange} seed set e : e ∈ OrderedStrings seed set ↔ e ∈ set.
Proof. unfold OrderedStrings. rewrite SortStrings_perm. apply elem_of_Strings. Qed.

Lemma NoDup_OrderedStrings `{GoRange} seed set : NoDup (OrderedStrings seed set).
Proof. rewrite OrderedStrings_eq, SortStrings_perm. apply NoDup_elements. Qed.

#[export] Hint Resolve OrderedStrings_sorted NoDup_OrderedStrings : amesh.
