(* ===== verification/Manifest.v ===== *)
(** * Manifests, their difference and the events they generate
    (src/pkg/amesh/util/manifest.go, src/pkg/amesh/types/types.go and the
    provisioner's [generateIncrementalEvents])

    A manifest collects routes and upstreams.  [view] is its abstract
    specification: the key-value content that a store should hold for it.  The
    main lemma of the file, [apply_diff_lookup], says that the events generated from
    two manifests turn the view of the old one into the view of the new one. *)

From S2P Require Import Prelude GoStrings GoNum Json Apisix Compare.

Record Manifest := mkManifest {
  Manifest_Routes : list Route;
  Manifest_Upstreams : list Upstream
}.

Definition empty_manifest : Manifest := mkManifest [] [].

(** [DiffFrom]: (added, deleted, updated). *)
Definition DiffFrom (m m2 : Manifest) : Manifest * Manifest * Manifest :=
  let '(a, d, u) := CompareRoutes (Manifest_Routes m) (Manifest_Routes m2) in
  let '(au, du, uu) := CompareUpstreams (Manifest_Upstreams m) (Manifest_Upstreams m2) in
  (mkManifest ([] ++ a) ([] ++ au), mkManifest ([] ++ d) ([] ++ du), mkManifest ([] ++ u) ([] ++ uu)).

Definition Size (m : Manifest) : nat := length (Manifest_Upstreams m) + length (Manifest_Routes m).

(** ** Events (types.go) *)

Inductive EventType : Type := EventAdd | EventUpdate | EventDelete.
#[export] Instance EventType_eq_dec : EqDecision EventType.
Proof. solve_decision. Defined.

Definition EventType_string (t : EventType) : string :=
  match t with EventAdd => "add" | EventUpdate => "update" | EventDelete => "delete" end.

(** The dynamic types of [Event.Object] and [Event.Tombstone]. *)
Inductive resource : Type :=
| ResRoute (r : Route)
| ResUpstream (u : Upstream).

Record Event := mkEvent {
  Event_Type : EventType;
  Event_Key : string;
  Event_Object : option resource;
  Event_Tombstone : option resource;
  Event_Revision : Z
}.

Definition route_key (id : string) : string := "/routes/" +:+ id.
Definition upstream_key (id : string) : string := "/upstreams/" +:+ id.

Definition route_event (evType : EventType) (r : Route) : Event :=
  if decide (evType = EventDelete)
  then mkEvent EventDelete (route_key (Route_Id r)) None (Some (ResRoute r)) 0
  else mkEvent evType (route_key (Route_Id r)) (Some (ResRoute r)) None 0.

(** An upstream without nodes produces no add or update event. *)
Definition upstream_event (evType : EventType) (u : Upstream) : list Event :=
  if decide (evType = EventDelete)
  then [mkEvent EventDelete (upstream_key (Upstream_Id u)) None (Some (ResUpstream u)) 0]
  else if empty_list (Upstream_Nodes u) then []
  else [mkEvent evType (upstream_key (Upstream_Id u)) (Some (ResUpstream u)) None 0].

Definition Events (m : Manifest) (evType : EventType) : list Event :=
  let events := foldl (λ events r, events ++ [route_event evType r]) [] (Manifest_Routes m) in
  foldl (λ events u, events ++ upstream_event evType u) events (Manifest_Upstreams m).

(** ** generateIncrementalEvents (provisioner/xds.go); [None] is a nil manifest. *)

Definition size_opt (m : option Manifest) : nat := match m with None => 0 | Some m => Size m end.
Definition events_opt (m : option Manifest) (t : EventType) : list Event :=
  match m with None => [] | Some m => Events m t end.

(** A nil [newManifest] with a nil [oldManifest] leaves [added] nil. *)
Definition generateIncrementalEvents (newManifest oldManifest : option Manifest) : list Event :=
  let '(added, deleted, updated) :=
    match oldManifest, newManifest with
    | None, _ => (newManifest, None, None)
    | Some _, None => (None, oldManifest, None)
    | Some o, Some n => let '(a, d, u) := DiffFrom o n in (Some a, Some d, Some u)
    end in
  let count := size_opt added + size_opt deleted + size_opt updated in
  if Nat.eqb count 0 then []
  else events_opt added EventAdd ++ events_opt deleted EventDelete ++ events_opt updated EventUpdate.

(** ** Abstract specification: what a store holds after an event, and for a manifest *)

Definition marshal_resource (o : option resource) : option string :=
  match o with
  | None => Some "null"
  | Some (ResRoute r) => Marshal r
  | Some (ResUpstream u) => Marshal u
  end.

Definition apply_event (c : gmap string string) (ev : Event) : gmap string string :=
  if decide (Event_Type ev = EventDelete) then delete (Event_Key ev) c
  else match marshal_resource (Event_Object ev) with
       | Some s => <[Event_Key ev := s]> c
       | None => c
       end.

Definition apply_events (c : gmap string string) (evs : list Event) : gmap string string :=
  foldl apply_event c evs.

(** The content that a manifest stands for. *)
Definition view (m : Manifest) : gmap string string :=
  put Upstream_Id Marshal upstream_key (Manifest_Upstreams m)
    (put Route_Id Marshal route_key (Manifest_Routes m) ∅).

(** Everything marshals, and every upstream has a node. *)
Definition marshals (m : Manifest) : Prop :=
  (∀ r, r ∈ Manifest_Routes m → is_Some (Marshal r)) ∧
  (∀ u, u ∈ Manifest_Upstreams m → is_Some (Marshal u)).
Definition has_nodes (u : Upstream) : bool := negb (empty_list (Upstream_Nodes u)).
Definition all_nodes (m : Manifest) : Prop :=
  ∀ u, u ∈ Manifest_Upstreams m → has_nodes u = true.

(** ** Lemmas on keys *)

#[export] Instance route_key_inj : Inj (=) (=) route_key.
Proof. intros i j. unfold route_key. apply String.app_inj. Qed.
#[export] Instance upstream_key_inj : Inj (=) (=) upstream_key.
Proof. intros i j. unfold upstream_key. apply String.app_inj. Qed.

Lemma route_upstream_key i j : route_key i ≠ upstream_key j.
Proof. by unfold route_key, upstream_key. Qed.
Lemma upstream_route_key i j : upstream_key i ≠ route_key j.
Proof. intros H. by apply (route_upstream_key j i). Qed.
#[export] Hint Resolve route_upstream_key upstream_route_key : amesh.

(** A key is a route key, an upstream key, or neither. *)
Lemma key_cases k :
  (∃ i, k = route_key i) ∨ (∃ i, k = upstream_key i) ∨
  ((∀ i, k ≠ route_key i) ∧ (∀ i, k ≠ upstream_key i)).
Proof.
  destruct (HasPrefix k "/routes/") eqn:Hr.
  { apply HasPrefix_spec in Hr as [t ->]. left. by exists t. }
  destruct (HasPrefix k "/upstreams/") eqn:Hu.
  { apply HasPrefix_spec in Hu as [t ->]. right; left. by exists t. }
  right; right. split; intros i ->.
  - unfold route_key in Hr. by rewrite HasPrefix_app in Hr.
  - unfold upstream_key in Hu. by rewrite HasPrefix_app in Hu.
Qed.

(** ** Lemmas on events *)

Lemma foldl_snoc_map {A B} (f : A → B) l acc :
  foldl (λ acc x, acc ++ [f x]) acc l = acc ++ (f <$> l).
Proof.
  revert acc; induction l as [|x l IH]; intros acc; simpl; [by rewrite app_nil_r|].
  by rewrite IH, <- app_assoc.
Qed.

Lemma foldl_app_bind {A B} (f : A → list B) l acc :
  foldl (λ acc x, acc ++ f x) acc l = acc ++ (l ≫= f).
Proof.
  revert acc; induction l as [|x l IH]; intros acc; simpl; [by rewrite app_nil_r|].
  by rewrite IH, <- app_assoc.
Qed.

Lemma Events_eq m t :
  Events m t = (route_event t <$> Manifest_Routes m) ++ (Manifest_Upstreams m ≫= upstream_event t).
Proof. unfold Events. by rewrite foldl_app_bind, foldl_snoc_map. Qed.

Lemma apply_events_app c e1 e2 : apply_events c (e1 ++ e2) = apply_events (apply_events c e1) e2.
Proof. apply foldl_app. Qed.

Lemma apply_route_events_put t l c :
  t ≠ EventDelete → apply_events c (route_event t <$> l) = put Route_Id Marshal route_key l c.
Proof.
  intros Ht. revert c; induction l as [|r l IH]; intros c; [done|].
  rewrite fmap_cons. cbn [apply_events foldl]. fold (apply_events (apply_event c (route_event t r)) (route_event t <$> l)).
  rewrite IH. unfold put at 2. cbn [foldl]. fold (put Route_Id Marshal route_key l).
  f_equal. by destruct t.
Qed.

Lemma apply_upstream_events_put t l c :
  t ≠ EventDelete → (∀ u, u ∈ l → has_nodes u = true) →
  apply_events c (l ≫= upstream_event t) = put Upstream_Id Marshal upstream_key l c.
Proof.
  intros Ht. revert c; induction l as [|u l IH]; intros c Hn; [done|].
  cbn [mbind list_bind]. rewrite apply_events_app, IH by (intros; apply Hn; by right).
  unfold put at 2. cbn [foldl]. fold (put Upstream_Id Marshal upstream_key l). f_equal.
  unfold upstream_event. rewrite decide_False by done.
  specialize (Hn u ltac:(by left)). unfold has_nodes in Hn. apply negb_true_iff in Hn. rewrite Hn.
  by destruct t.
Qed.

Lemma apply_route_events_remove l c :
  apply_events c (route_event EventDelete <$> l) = remove Route_Id route_key l c.
Proof.
  revert c; induction l as [|r l IH]; intros c; [done|].
  rewrite fmap_cons. cbn [apply_events foldl]. apply IH.
Qed.

Lemma apply_upstream_events_remove l c :
  apply_events c (l ≫= upstream_event EventDelete) = remove Upstream_Id upstream_key l c.
Proof.
  revert c; induction l as [|u l IH]; intros c; [done|].
  cbn [mbind list_bind]. rewrite apply_events_app, IH. done.
Qed.

Lemma Events_Size m t : t = EventDelete ∨ all_nodes m → length (Events m t) = Size m.
Proof.
  intros Ht. rewrite Events_eq, length_app, length_fmap. unfold Size. rewrite Nat.add_comm. f_equal.
  destruct m as [rs us]; cbn [Manifest_Upstreams]. unfold all_nodes in Ht; cbn [Manifest_Upstreams] in Ht.
  induction us as [|u us IH]; [done|]. cbn [mbind list_bind]. rewrite length_app, IH.
  2: { destruct Ht as [|Ht]; [by left|right]. intros u' Hu'. apply Ht. by right. }
  cbn [length]. change (S (length us)) with (1 + length us). f_equal. unfold upstream_event.
  case_decide as Hd; [done|]. destruct Ht as [|Ht]; [done|].
  specialize (Ht u ltac:(by left)). unfold has_nodes in Ht. apply negb_true_iff in Ht. by rewrite Ht.
Qed.

(** ** The incremental events are correct *)

(** With count = 0 the event lists are empty anyway. *)
Lemma Events_zero m t : Size m = 0 → Events m t = [].
Proof. destruct m as [[|??] [|??]]; by unfold Size. Qed.

Lemma generateIncrementalEvents_eq n o :
  generateIncrementalEvents (Some n) (Some o) =
    let '(a, d, u) := DiffFrom o n in
    Events a EventAdd ++ Events d EventDelete ++ Events u EventUpdate.
Proof.
  unfold generateIncrementalEvents. destruct (DiffFrom o n) as [[a d] u]. cbn [size_opt events_opt].
  destruct (Nat.eqb_spec (Size a + Size d + Size u) 0); [|done].
  by rewrite !Events_zero by lia.
Qed.

Lemma compare_added_in {A} Id M (r1 r2 : list A) a d u :
  compare Id M r1 r2 = (a, d, u) → (∀ x, x ∈ a → x ∈ r2) ∧ (∀ x, x ∈ u → x ∈ r2).
Proof.
  rewrite compare_eq. intros [= <- <- <-]. split; intros x Hx.
  - by apply list_elem_of_filter in Hx as [_ ?].
  - apply list_elem_of_omap in Hx as (ro & _ & Hu). unfold updates in Hu.
    destruct (last_by Id r2 !! Id ro) as [rn|] eqn:Hrn; [|done]. simpl in Hu.
    destruct (changed _ _ _); [|done]. injection Hu as ->. by apply last_by_Some in Hrn as [? _].
Qed.

(** The events as the composition of the six list operations. *)
Lemma apply_diff_eq c n o :
  all_nodes n →
  apply_events c (generateIncrementalEvents (Some n) (Some o)) =
    let '(a, d, u) := CompareRoutes (Manifest_Routes o) (Manifest_Routes n) in
    let '(au, du, uu) := CompareUpstreams (Manifest_Upstreams o) (Manifest_Upstreams n) in
    put Upstream_Id Marshal upstream_key uu (put Route_Id Marshal route_key u
      (remove Upstream_Id upstream_key du (remove Route_Id route_key d
        (put Upstream_Id Marshal upstream_key au (put Route_Id Marshal route_key a c))))).
Proof.
  intros Hn. rewrite generateIncrementalEvents_eq. unfold DiffFrom.
  destruct (CompareRoutes _ _) as [[a d] u]. destruct (CompareUpstreams _ _) as [[au du] uu] eqn:Hu.
  apply compare_added_in in Hu as [Hau Huu].
  rewrite !Events_eq, !apply_events_app; cbn [Manifest_Routes Manifest_Upstreams app].
  rewrite (apply_route_events_put EventAdd), (apply_route_events_put EventUpdate), apply_route_events_remove, apply_upstream_events_remove by done.
  rewrite (apply_upstream_events_put EventAdd) by (done || (intros x Hx; apply Hn; auto)).
  rewrite (apply_upstream_events_put EventUpdate) by (done || (intros x Hx; apply Hn; auto)).
  done.
Qed.

Lemma apply_diff_route c n o i :
  all_nodes n → (∀ r, r ∈ Manifest_Routes n → is_Some (Marshal r)) →
  (∀ x, last_by Route_Id (Manifest_Routes o) !! i = Some x → c !! route_key i = Marshal x) →
  apply_events c (generateIncrementalEvents (Some n) (Some o)) !! route_key i =
    synced Route_Id Marshal (Manifest_Routes o) (Manifest_Routes n) i (c !! route_key i).
Proof.
  intros Hn Hm Hc. rewrite apply_diff_eq by done.
  pose proof (compare_lookup Route_Id Marshal route_key _ _ _ _ Hm Hc) as Hr.
  unfold CompareRoutes. destruct (compare _ _ _ _) as [[a d] u].
  destruct (CompareUpstreams _ _) as [[au du] uu]. rewrite <- Hr.
  rewrite put_other by auto with amesh. apply put_agree.
  rewrite remove_other by auto with amesh. apply remove_agree.
  by rewrite put_other by auto with amesh.
Qed.

Lemma apply_diff_upstream c n o i :
  all_nodes n → (∀ u, u ∈ Manifest_Upstreams n → is_Some (Marshal u)) →
  (∀ x, last_by Upstream_Id (Manifest_Upstreams o) !! i = Some x → c !! upstream_key i = Marshal x) →
  apply_events c (generateIncrementalEvents (Some n) (Some o)) !! upstream_key i =
    synced Upstream_Id Marshal (Manifest_Upstreams o) (Manifest_Upstreams n) i (c !! upstream_key i).
Proof.
  intros Hn Hm Hc. rewrite apply_diff_eq by done.
  pose proof (compare_lookup Upstream_Id Marshal upstream_key _ _ _ _ Hm Hc) as Hr.
  unfold CompareUpstreams. destruct (CompareRoutes _ _) as [[a d] u].
  destruct (compare _ _ _ _) as [[au du] uu]. rewrite <- Hr. apply put_agree.
  rewrite put_other by auto with amesh. apply remove_agree.
  rewrite remove_other by auto with amesh. apply put_agree.
  by rewrite put_other by auto with amesh.
Qed.

Lemma apply_diff_other c n o k :
  all_nodes n → (∀ i, k ≠ route_key i) → (∀ i, k ≠ upstream_key i) →
  apply_events c (generateIncrementalEvents (Some n) (Some o)) !! k = c !! k.
Proof.
  intros Hn Hr Hu. rewrite apply_diff_eq by done.
  destruct (CompareRoutes _ _) as [[a d] u]. destruct (CompareUpstreams _ _) as [[au du] uu].
  by rewrite !put_other, !remove_other, !put_other.
Qed.

Lemma view_route m i :
  marshals m → view m !! route_key i = encoded Route_Id Marshal (Manifest_Routes m) i.
Proof.
  intros [Hm _]. unfold view. rewrite put_other by auto with amesh.
  rewrite put_lookup by (first [apply _|exact Hm]). unfold encoded. destruct (last_by _ _ !! i); [done|by rewrite lookup_empty].
Qed.

Lemma view_upstream m i :
  marshals m → view m !! upstream_key i = encoded Upstream_Id Marshal (Manifest_Upstreams m) i.
Proof.
  intros [_ Hm]. unfold view. rewrite put_lookup by (first [apply _|exact Hm]). unfold encoded.
  destruct (last_by _ _ !! i); [done|]. rewrite put_other by auto with amesh. by rewrite lookup_empty.
Qed.

Lemma view_other m k : (∀ i, k ≠ route_key i) → (∀ i, k ≠ upstream_key i) → view m !! k = None.
Proof. intros Hr Hu. unfold view. by rewrite !put_other, lookup_empty. Qed.

(** [synced] against a store made of the old view and a frame. *)
Lemma synced_frame {A} (Id : A → string) M (r1 r2 : list A) i (v1 v2 f : option string) :
  (∀ r, r ∈ r1 → is_Some (M r)) → (∀ r, r ∈ r2 → is_Some (M r)) →
  v1 = encoded Id M r1 i → v2 = encoded Id M r2 i →
  (is_Some f → v1 = None ∧ v2 = None) →
  synced Id M r1 r2 i (union_with (λ x _, Some x) v1 f) = union_with (λ x _, Some x) v2 f.
Proof.
  unfold encoded, synced. intros Hm1 Hm2 -> -> Hf.
  destruct (last_by Id r2 !! i) as [rn|] eqn:H2; destruct (last_by Id r1 !! i) as [ro|] eqn:H1;
    simpl in *.
  - destruct (Hm2 rn) as [s Hs]; [by apply last_by_Some in H2 as [? _]|]. rewrite Hs in *.
    destruct f as [y|]; [|done]. by destruct Hf as [_ ?]; [eexists|].
  - destruct (Hm2 rn) as [s Hs]; [by apply last_by_Some in H2 as [? _]|]. rewrite Hs in *.
    destruct f as [y|]; [|done]. by destruct Hf as [_ ?]; [eexists|].
  - destruct f as [y|]; [|done]. destruct (Hm1 ro) as [s Hs]; [by apply last_by_Some in H1 as [? _]|].
    rewrite Hs in Hf. by destruct Hf as [? _]; [eexists|].
  - by destruct f.
Qed.

(** The events of the difference, applied to a store that holds the old view
    and anything else, leave the new view and the rest untouched. *)
Lemma apply_diff_frame m1 m2 f :
  marshals m1 → marshals m2 → all_nodes m2 → f ##ₘ view m1 → f ##ₘ view m2 →
  apply_events (view m1 ∪ f) (generateIncrementalEvents (Some m2) (Some m1)) = view m2 ∪ f.
Proof.
  intros Hm1 Hm2 Hn Hd1 Hd2.
  assert (∀ k, is_Some (f !! k) → view m1 !! k = None ∧ view m2 !! k = None) as Hf.
  { intros k [x Hk]. split; [by eapply map_disjoint_Some_l in Hd1|by eapply map_disjoint_Some_l in Hd2]. }
  apply map_eq; intros k. destruct (key_cases k) as [[i ->]|[[i ->]|[Hr Hu]]].
  - rewrite apply_diff_route; [|done|apply Hm2|].
    + rewrite !lookup_union. apply synced_frame; auto using view_route; [apply Hm1|apply Hm2].
    + intros x Hx. rewrite lookup_union, view_route by done. unfold encoded. rewrite Hx; simpl.
      destruct (proj1 Hm1 x) as [s ->]; [by apply last_by_Some in Hx as [? _]|]. by destruct (f !! _).
  - rewrite apply_diff_upstream; [|done|apply Hm2|].
    + rewrite !lookup_union. apply synced_frame; auto using view_upstream; [apply Hm1|apply Hm2].
    + intros x Hx. rewrite lookup_union, view_upstream by done. unfold encoded. rewrite Hx; simpl.
      destruct (proj2 Hm1 x) as [s ->]; [by apply last_by_Some in Hx as [? _]|]. by destruct (f !! _).
  - rewrite apply_diff_other, !lookup_union, !view_other by done. done.
Qed.

(** Against a nil manifest everything is added, or everything deleted. *)
Lemma generateIncrementalEvents_nil n o :
  generateIncrementalEvents None None = [] ∧
  generateIncrementalEvents (Some n) None = Events n EventAdd ∧
  generateIncrementalEvents None (Some o) = Events o EventDelete.
Proof.
  unfold generateIncrementalEvents. cbn [size_opt events_opt]. rewrite !app_nil_r, !Nat.add_0_r, Nat.add_0_l.
  split_and!; [done| |].
  - destruct (Nat.eqb_spec (Size n) 0); [|done]. by rewrite Events_zero by lia.
  - destruct (Nat.eqb_spec (Size o) 0); [|done]. by rewrite Events_zero by lia.
Qed.
