(* ===== verification/Storage.v ===== *)
(** * Storage (src/pkg/apisix/storage.go, src/pkg/apisix/storage/shdict.go and noop.go)

    [Storage] is the interface the agent writes through; [StorageLaws] is what
    an implementation promises.  The shared-dictionary implementation goes
    through nginx's [ngx_lua_ffi_shdict_store], a C function that is not part
    of the repository and is therefore a parameter. *)

From S2P Require Import Prelude GoStrings.

(** The interface of storage.go. *)
Class Storage (S : Type) := {
  Store : S → string → string → S;
  Delete : S → string → S
}.

(** What the agent relies on.  A value is never the empty string: the shared
    dictionary represents a deleted key by an empty value. *)
Class StorageLaws (S : Type) `{Storage S} := {
  storage_ok : S → Prop;
  content : S → gmap string string;
  Store_ok : ∀ s k v, storage_ok s → storage_ok (Store s k v);
  Delete_ok : ∀ s k, storage_ok s → storage_ok (Delete s k);
  content_Store : ∀ s k v, storage_ok s → v ≠ "" → content (Store s k v) = <[k := v]> (content s);
  content_Delete : ∀ s k, storage_ok s → content (Delete s k) = delete k (content s)
}.

(** ** The shared dictionary (build tag [shared_lib]) *)

Definition SHDICT_SAFE_STORE : Z := 4.  (** the [op] 0x0004 of both calls *)
Definition LUA_TSTRING : Z := 4.        (** the [value_type] of both calls *)

Section Shdict.
Context {dict : Type}.

(** [ngx_lua_ffi_shdict_store zone op key value_type value]: [None] is the nil
    value pointer with length 0. *)
Variable shdict_store : dict → Z → string → Z → option string → dict.

(** The zone pointer of a [SharedDictStorage]; [None] is nil. *)
Record SharedDictStorage := mkSharedDictStorage { zone : option dict }.

Definition NewSharedDictStorage (zone : option dict) : SharedDictStorage := mkSharedDictStorage zone.

Definition shdict_Store (s : SharedDictStorage) (key value : string) : SharedDictStorage :=
  match zone s with
  | None => s
  | Some d => mkSharedDictStorage (Some (shdict_store d SHDICT_SAFE_STORE key LUA_TSTRING (Some value)))
  end.

Definition shdict_Delete (s : SharedDictStorage) (key : string) : SharedDictStorage :=
  match zone s with
  | None => s
  | Some d => mkSharedDictStorage (Some (shdict_store d SHDICT_SAFE_STORE key LUA_TSTRING None))
  end.

#[local] Instance shdict_storage : Storage SharedDictStorage := {|
  Store := shdict_Store;
  Delete := shdict_Delete
|}.

(** What is documented of the C function for this operation: a string value
    (nil with length 0 is the empty string) is stored under the key. *)
Context (entries : dict → gmap string string)
  (store_string : ∀ d key v,
     entries (shdict_store d SHDICT_SAFE_STORE key LUA_TSTRING v) = <[key := default "" v]> (entries d)).

(** The content a reader sees: the keys with a non-empty value. *)
Definition shdict_content (s : SharedDictStorage) : gmap string string :=
  match zone s with
  | None => ∅
  | Some d => filter (λ kv, kv.2 ≠ "") (entries d)
  end.

Lemma shdict_content_Store s key v :
  zone s ≠ None → v ≠ "" → shdict_content (shdict_Store s key v) = <[key := v]> (shdict_content s).
Proof using store_string.
  intros Hz Hv. unfold shdict_Store, shdict_content. destruct (zone s) as [d|] eqn:E; [|done].
  cbn [zone]. rewrite store_string. by rewrite map_filter_insert_True.
Qed.

Lemma shdict_content_Delete s key :
  zone s ≠ None → shdict_content (shdict_Delete s key) = delete key (shdict_content s).
Proof using store_string.
  intros Hz. unfold shdict_Delete, shdict_content. destruct (zone s) as [d|] eqn:E; [|done].
  cbn [zone]. rewrite store_string. rewrite map_filter_insert_False by (simpl; auto).
  by rewrite map_filter_delete.
Qed.

(** A dictionary with a zone implements the interface. *)
#[local] Instance shdict_laws : StorageLaws SharedDictStorage.
Proof using entries store_string.
  refine (Build_StorageLaws _ _ (λ s, zone s ≠ None) shdict_content _ _ _ _).
  - intros s k v Hs. cbn. unfold shdict_Store. by destruct (zone s).
  - intros s k Hs. cbn. unfold shdict_Delete. by destruct (zone s).
  - intros s k v Hs Hv. by apply shdict_content_Store.
  - intros s k Hs. by apply shdict_content_Delete.
Defined.

(** Without a zone both operations do nothing. *)
Lemma shdict_nil_zone s key v :
  zone s = None → shdict_Store s key v = s ∧ shdict_Delete s key = s.
Proof. intros Hz. unfold shdict_Store, shdict_Delete. by rewrite Hz. Qed.
End Shdict.

Arguments SharedDictStorage dict : clear implicits.

(** ** The sidecar build's storage (noop.go, build tag [sidecar]) *)

Definition noop_Store {zone} (s : SharedDictStorage zone) (key value : string) : SharedDictStorage zone := s.
Definition noop_Delete {zone} (s : SharedDictStorage zone) (key : string) : SharedDictStorage zone := s.

(** ** The specification's own implementation: a map *)

#[export] Instance map_storage : Storage (gmap string string) := {|
  Store := λ s k v, <[k := v]> s;
  Delete := λ s k, delete k s
|}.

#[export] Instance map_storage_laws : StorageLaws (gmap string string).
Proof. by refine (Build_StorageLaws _ _ (λ _, True) (λ s, s) _ _ _ _). Defined.

(** ** Properties *)

(** The shared dictionary implements the storage interface: given the
    documented behaviour of nginx's store function, on a dictionary with a zone
    storing a non-empty value sets the key, deleting makes the key absent (the
    empty string that is stored for it is not a value), and nothing else
    changes; without a zone, and in the sidecar build, nothing is stored. *)
Lemma shdict_spec {dict} (store : dict → Z → string → Z → option string → dict) (entries : dict → gmap string string)
    (store_string : ∀ d key v,
      entries (store d SHDICT_SAFE_STORE key LUA_TSTRING v) = <[key := default "" v]> (entries d))
    (s : SharedDictStorage dict) key value :
  (zone s ≠ None → value ≠ "" →
     shdict_content entries (shdict_Store store s key value) = <[key := value]> (shdict_content entries s) ∧
     shdict_content entries (shdict_Delete store s key) = delete key (shdict_content entries s)) ∧
  (zone s = None → shdict_Store store s key value = s ∧ shdict_Delete store s key = s) ∧
  noop_Store s key value = s ∧ noop_Delete s key = s.
Proof.
  split_and!; [|apply shdict_nil_zone|done|done]. intros Hz Hv. split.
  - by apply (shdict_content_Store store entries store_string).
  - by apply (shdict_content_Delete store entries store_string).
Qed.

(** A concrete dictionary. *)
Definition map_store (d : gmap string string) (op : Z) (key : string) (ty : Z) (v : option string) : gmap string string :=
  <[key := default "" v]> d.

Lemma shdict_spec_witness :
  shdict_content id (shdict_Delete map_store (mkSharedDictStorage (Some {["k" := "v"]})) "k") = ∅.
Proof.
  rewrite (proj2 (proj1 (shdict_spec map_store id (λ d key v, eq_refl)
    (mkSharedDictStorage (Some {["k" := "v"]})) "k" "v") ltac:(discriminate) ltac:(discriminate))).
  reflexivity.
Defined.
