(* ===== verification/Agent.v ===== *)
(** * The agent (src/pkg/amesh/agent.go and agent_demo.go)

    The agent owns two storages.  [storeEvents] writes a batch of events into
    the data storage and marks a new version; [event_loop] is the main loop of
    [Run]; the rest models the status and metrics servers' own logic
    (environment variables, ports, handlers, header forwarding).  Time, the
    environment, the network interfaces and the HTTP client are arguments. *)

From S2P Require Import Prelude GoStrings GoNum Json Apisix Compare Manifest Storage.
From Stdlib Require Import SpecFloat.

Section Agent.
Context {S : Type} `{Storage S}.

Record Agent := mkAgent {
  Agent_version : Z;
  Agent_xdsSource : string;
  DataStorage : S;
  VersionStorage : S
}.

Definition set_storages (g : Agent) (data version : S) : Agent :=
  mkAgent (Agent_version g) (Agent_xdsSource g) data version.

(** ** storeEvents *)

(** One iteration of the loop: an event that does not marshal is skipped. *)
Definition store_event (data : S) (event : Event) : S :=
  let key := Event_Key event in
  if decide (Event_Type event = EventDelete) then Delete data key
  else match marshal_resource (Event_Object event) with
       | None => data
       | Some dataStr => Store data key dataStr
       end.

Definition storeEvents (nowMillis : Z) (g : Agent) (events : list Event) : Agent :=
  if Nat.eqb (length events) 0 then g
  else
    let timestamp := itoa nowMillis in
    let data := foldl store_event (DataStorage g) events in
    set_storages g data (Store (VersionStorage g) "version" timestamp).

(** ** The loop of Run: stop signal, closed channel, or a batch of events *)

Inductive loop_input : Type :=
| StopSignal
| EventsClosed
| EventsReceived (nowMillis : Z) (events : list Event).

(** The state and whether the loop is still running. *)
Definition event_step (st : Agent * bool) (i : loop_input) : Agent * bool :=
  let '(g, running) := st in
  if negb running then (g, false)
  else match i with
       | StopSignal | EventsClosed => (g, false)
       | EventsReceived now events => (storeEvents now g events, true)
       end.

Definition event_loop (g : Agent) (inputs : list loop_input) : Agent * bool :=
  foldl event_step (g, true) inputs.

End Agent.

Arguments Agent S : clear implicits.

(** ** Environment *)

(** [os.Getenv]: the empty string when the variable is not set. *)
Definition environment := string → string.

Definition getNamespace (env : environment) : string :=
  let namespace := "default" in
  if negb (bool_decide (env "POD_NAMESPACE" = "")) then env "POD_NAMESPACE" else namespace.

(** A network interface: its name and the addresses [iface.Addrs()] returns. *)
Definition iface := (string * (list string + error))%type.

(** The loop of [getIpAddr]: the last interface other than "lo" that has an
    address wins; an error of [Addrs] is returned at once. *)
Fixpoint ip_of_ifaces (ipAddr : string) (ifaces : list iface) : string + error :=
  match ifaces with
  | [] => inl ipAddr
  | (name, addrs) :: rest =>
      if bool_decide (name = "lo") then ip_of_ifaces ipAddr rest
      else match addrs with
           | inr err => inr err
           | inl [] => ip_of_ifaces ipAddr rest
           | inl (addr :: _) => ip_of_ifaces (default "" (hd_error (Split addr "/"))) rest
           end
  end.

(** A failure of [net.Interfaces] panics. *)
Definition getIpAddr (interfaces : list iface + error) : outcome (string + error) :=
  match interfaces with
  | inr err => Panic (error_text err)
  | inl ifaces =>
      Ret (match ip_of_ifaces "" ifaces with
           | inr err => inr err
           | inl ipAddr => inl (if bool_decide (ipAddr = "") then "127.0.0.1" else ipAddr)
           end)
  end.

(** ** The status server *)

Definition StatusOK : Z := 200.
Definition StatusInternalServerError : Z := 500.

(** [internalDataHandler]: the status code and the body written for the
    provisioner's answer. *)
Definition internalDataHandler (GetData : string → string + error) (dataType : string) : Z * string :=
  match GetData dataType with
  | inr err => (StatusInternalServerError,
      "{" +:+ String quote ("error" +:+ String quote (": " +:+ String quote (error_text err +:+ String quote "}"))))
  | inl data => (StatusOK, data)
  end.

(** The port a server listens on.  On a port that does not parse the code calls
    [Fatalw] of the logging library and goes on with the default port:
    [fatal_exits] tells whether that call ends the process. *)
Inductive server_port : Type :=
| NotStarted
| FatalPort
| Listen (port : Z).

Definition parsed_port (fatal_exits : bool) (portStr : string) (default_port : Z) : server_port :=
  match ParseInt 32 portStr with
  | None => if fatal_exits then FatalPort else Listen default_port
  | Some port => Listen port
  end.

Definition status_server_port (fatal_exits : bool) (env : environment) : server_port :=
  let portStr := env "STATUS_SERVER_PORT" in
  if bool_decide (portStr = "") then NotStarted else parsed_port fatal_exits portStr 9999.

Definition metrics_server_port (fatal_exits : bool) (env : environment) : server_port :=
  let portStr := env "METRICS_SERVER_PORT" in
  if bool_decide (portStr = "NONE") then NotStarted
  else parsed_port fatal_exits (if bool_decide (portStr = "") then "15090" else portStr) 15090.

Definition metrics_path (env : environment) : string :=
  if bool_decide (env "METRICS_SERVER_PATH" = "") then "/stats/prometheus" else env "METRICS_SERVER_PATH".
Definition apisix_metrics_url (env : environment) : string :=
  if bool_decide (env "APISIX_METRICS_URL" = "") then "http://localhost:9091/stats/prometheus"
  else env "APISIX_METRICS_URL".

(** The "/sds/" handler: the secret to request, if any, and the body. *)
Definition sds_handler (path : string) : option string * string :=
  let name := TrimPrefix path "/sds/" in
  (if bool_decide (name = "") then None else Some name, "Sending SDS: " +:+ name).

(** ** The metrics server *)

(** An [http.Header] under its canonical keys. *)
Abbreviation header := (gmap string (list string)).
Definition header_Get (h : header) (key : string) : string :=
  match h !! key with Some (v :: _) => v | _ => "" end.
Definition header_Set (h : header) (key val : string) : header := <[key := [val]]> h.

Definition applyHeaders (dest src : header) (keys : list string) : header :=
  foldl (λ dest key,
    let val := header_Get src key in
    if negb (bool_decide (val = "")) then header_Set dest key val else dest) dest keys.

Definition forwarded_headers : list string :=
  ["Accept"; "Accept-Encoding"; "User-Agent"; "X-Prometheus-Scrape-Timeout-Seconds"].

(** [getMetrics]: [newRequest] and [do] are [http.NewRequestWithContext] and
    the client's [Do]; a response is a status code and a body or the error of
    reading it. *)
Definition getMetrics (newRequest : string → header + error)
    (do : string → header → (Z * (string + error)) + error)
    (url : string) (hdr : header) : string + error :=
  match newRequest url with
  | inr err => inr err
  | inl reqHeader =>
      match do url (applyHeaders reqHeader hdr forwarded_headers) with
      | inr err => inr (Errorf ("failed to get apisix metrics " +:+ url +:+ ": " +:+ error_text err))
      | inl (code, body) =>
          if negb (Z.eqb code StatusOK)
          then inr (Errorf ("failed to get apisix metrics " +:+ url +:+ ", status code: " +:+ itoa code))
          else match body with
               | inr err => inr (Errorf ("failed to read apisix metrics body " +:+ url +:+ ": " +:+ error_text err))
               | inl metrics => inl metrics
               end
      end
  end.

(** [isGzipEncoding] *)
Definition isGzipEncoding (hdr : header) : bool :=
  existsb (λ encoding, HasPrefix (TrimSpace encoding) "gzip")
    (Split (header_Get hdr "Accept-Encoding") ",").

(** ** The demo resources (agent_demo.go) *)

Definition generateRandomRoutes (version now : Z) : list Route := [
  {| Route_Uris := [];
     Route_Name := "route-" +:+ itoa version;
     Route_Id := "1";
     Route_Desc := "Route at " +:+ itoa version;
     Route_Priority := 0;
     Route_Methods := ["GET"; "POST"];
     Route_Hosts := ["example.com"];
     Route_RemoteAddrs := ["127.0.0.1"];
     Route_Vars := [];
     Route_Plugins := ∅;
     Route_ServiceId := "";
     Route_UpstreamId := "1";
     Route_Status := RouteEnable;
     Route_Timeout := None;
     Route_EnableWebsocket := false;
     Route_Labels := ∅;
     Route_CreateTime := now;
     Route_UpdateTime := now |}].

Definition generateRandomUpstreams (version now : Z) : list Upstream := [
  mkUpstream now now [mkNode "127.0.0.1" 1980 0 None] 0 None None None
    LoadBalanceTypeRoundrobin None "" "" "" ∅ "" "" ("upstream-" +:+ itoa version)
    ("Upstream at " +:+ itoa version) "1"].

(** One iteration of [RunDemo]: it stops on the first marshalling error. *)
Definition RunDemo_step {S} `{Storage S} (now : Z) (g : Agent S) : Agent S * option error :=
  let g := mkAgent now (Agent_xdsSource g) (DataStorage g) (VersionStorage g) in
  match Marshal (generateRandomRoutes (Agent_version g) now) with
  | None => (g, Some (Errorf "json: unsupported value"))
  | Some routesJson =>
      match Marshal (generateRandomUpstreams (Agent_version g) now) with
      | None => (g, Some (Errorf "json: unsupported value"))
      | Some upstreamsJson =>
          (set_storages g (Store (Store (DataStorage g) "routes" routesJson) "upstreams" upstreamsJson)
             (VersionStorage g), None)
      end
  end.

(** ** Lemmas *)

Lemma json_struct_print fs j : json_struct fs = Some j → print_json j ≠ "".
Proof. unfold json_struct. intros Hj. apply fmap_Some in Hj as (l & _ & ->). done. Qed.

Lemma marshal_resource_not_empty o s : marshal_resource o = Some s → s ≠ "".
Proof.
  destruct o as [[r|u]|]; simpl; [..|by intros [= <-]];
    intros Hs; apply fmap_Some in Hs as (j & Hj & ->); by eapply json_struct_print.
Qed.

Section Laws.
Context {S : Type} `{StorageLaws S}.

Lemma store_event_ok data ev : storage_ok data → storage_ok (store_event data ev).
Proof.
  intros Hok. unfold store_event. case_decide; [by apply Delete_ok|].
  destruct (marshal_resource _); [by apply Store_ok|done].
Qed.

Lemma store_event_content data ev :
  storage_ok data → content (store_event data ev) = apply_event (content data) ev.
Proof.
  intros Hok. unfold store_event, apply_event. case_decide; [by apply content_Delete|].
  destruct (marshal_resource (Event_Object ev)) as [s|] eqn:Hs; [|done].
  apply content_Store; [done|]. by eapply marshal_resource_not_empty.
Qed.

Lemma store_events_content data evs :
  storage_ok data →
  storage_ok (foldl store_event data evs) ∧
  content (foldl store_event data evs) = apply_events (content data) evs.
Proof.
  revert data; induction evs as [|ev evs IH]; intros data Hok; [done|]. cbn [foldl apply_events].
  destruct (IH _ (store_event_ok data ev Hok)) as [? ->]. split; [done|].
  unfold apply_events. cbn [foldl]. by rewrite store_event_content.
Qed.

(** Whatever the batch, the data storage holds the batch applied to it. *)
Lemma storeEvents_data now (g : Agent S) evs :
  storage_ok (DataStorage g) →
  storage_ok (DataStorage (storeEvents now g evs)) ∧
  content (DataStorage (storeEvents now g evs)) = apply_events (content (DataStorage g)) evs.
Proof.
  intros Hok. unfold storeEvents. destruct evs as [|ev evs]; [done|].
  cbn [length Nat.eqb]. by apply store_events_content.
Qed.

Lemma event_step_stopped (g : Agent S) i : event_step (g, false) i = (g, false).
Proof. done. Qed.

Lemma event_loop_stopped (g : Agent S) inputs : foldl event_step (g, false) inputs = (g, false).
Proof. by induction inputs. Qed.

(** The batches received before the loop ends. *)
Fixpoint received (inputs : list loop_input) : list Event :=
  match inputs with
  | EventsReceived _ evs :: rest => evs ++ received rest
  | _ => []
  end.

Lemma event_loop_content (g : Agent S) inputs :
  storage_ok (DataStorage g) →
  content (DataStorage (event_loop g inputs).1) = apply_events (content (DataStorage g)) (received inputs).
Proof.
  unfold event_loop. revert g; induction inputs as [|i inputs IH]; intros g Hok; [done|].
  cbn [foldl]. destruct i as [| |now evs]; cbn [event_step negb received];
    [by rewrite event_loop_stopped..|].
  destruct (storeEvents_data now g evs Hok) as [Hok' Hc].
  rewrite IH by done. by rewrite Hc, apply_events_app.
Qed.
End Laws.

(** ** Lemmas on headers *)

Lemma header_Get_Set h key val k :
  header_Get (header_Set h key val) k = if decide (key = k) then val else header_Get h k.
Proof. unfold header_Get, header_Set. rewrite lookup_insert. by case_decide. Qed.

Lemma applyHeaders_keys dest src keys key :
  header_Get (applyHeaders dest src keys) key =
    if decide (key ∈ keys ∧ header_Get src key ≠ "") then header_Get src key else header_Get dest key.
Proof.
  induction keys as [|k keys IH] using rev_ind.
  - rewrite decide_False; [done|]. by intros [?%elem_of_nil _].
  - unfold applyHeaders. rewrite foldl_app. cbn [foldl]. fold (applyHeaders dest src keys).
    case_bool_decide as Hv; cbn [negb].
    + rewrite IH. apply decide_ext. rewrite elem_of_app, list_elem_of_singleton. naive_solver.
    + rewrite header_Get_Set, IH. destruct (decide (k = key)) as [->|Hk].
      * rewrite decide_True; [done|]. split; [|done]. apply elem_of_app. right. by left.
      * apply decide_ext. rewrite elem_of_app, list_elem_of_singleton. naive_solver.
Qed.

(** ** Properties *)

(** C12. Refinement of the store: when the data storage holds the content of
    the old manifest (and anything else, [f], under other keys), storing the
    incremental events of the two manifests leaves exactly the content of the
    new manifest, the rest untouched: added resources appear, deleted ones
    disappear, changed ones are replaced, and unchanged ones stay.  The
    resources of both manifests have to marshal, and every upstream of the new
    manifest needs a node: the code makes no event of an upstream without
    nodes, so that such an upstream never reaches the store, and one that loses
    its nodes stays there as it was. *)
Theorem storeEvents_sync {S} `{StorageLaws S} now (g : Agent S) old new f :
  storage_ok (DataStorage g) → marshals old → marshals new → all_nodes new →
  f ##ₘ view old → f ##ₘ view new →
  content (DataStorage g) = view old ∪ f →
  content (DataStorage (storeEvents now g (generateIncrementalEvents (Some new) (Some old)))) = view new ∪ f.
Proof.
  intros Hok Ho Hn Hnodes Hd1 Hd2 Hc.
  destruct (storeEvents_data now g (generateIncrementalEvents (Some new) (Some old)) Hok) as [_ ->].
  rewrite Hc. by apply apply_diff_frame.
Qed.

(** A non-empty batch marks the version with the current time in
    milliseconds; an empty batch writes nothing at all. *)
Lemma storeEvents_version {S} `{StorageLaws S} now (g : Agent S) evs :
  storage_ok (VersionStorage g) →
  storeEvents now g [] = g ∧
  (evs ≠ [] → content (VersionStorage (storeEvents now g evs)) !! "version" = Some (itoa now)).
Proof.
  intros Hok. split; [done|]. intros Hne. destruct evs as [|ev evs]; [done|].
  unfold storeEvents. cbn [length Nat.eqb]. cbn.
  rewrite content_Store by auto with amesh. apply lookup_insert_eq.
Qed.

(** The main loop: whatever the interleaving of batches, the data storage
    holds the events received up to the stop signal or the closing of the
    channel, applied in order; what arrives later is not stored. *)
Lemma event_loop_applies {S} `{StorageLaws S} (g : Agent S) batches rest :
  storage_ok (DataStorage g) →
  content (DataStorage (event_loop g (map (λ b, EventsReceived b.1 b.2) batches ++ StopSignal :: rest)).1)
    = apply_events (content (DataStorage g)) (concat (map snd batches)).
Proof.
  intros Hok. rewrite event_loop_content by done. f_equal.
  induction batches as [|b bs IH]; simpl; [done|]. by rewrite IH.
Qed.

(** Exactly the four forwarded headers of the scrape request that have a
    value are set on the request to APISIX; every other header of it is kept. *)
Lemma applyHeaders_spec dest src key :
  header_Get (applyHeaders dest src forwarded_headers) key =
    if decide (key ∈ forwarded_headers ∧ header_Get src key ≠ "")
    then header_Get src key else header_Get dest key.
Proof. apply applyHeaders_keys. Qed.

(** ** Witnesses *)

Definition example_agent : Agent (gmap string string) := mkAgent 0 "grpc://istiod:15010" ∅ ∅.

Definition set_Route_Id (id : string) (r : Route) : Route :=
  mkRoute (Route_Uris r) (Route_Name r) id (Route_Desc r) (Route_Priority r) (Route_Methods r) (Route_Hosts r)
    (Route_RemoteAddrs r) (Route_Vars r) (Route_Plugins r) (Route_ServiceId r) (Route_UpstreamId r) (Route_Status r)
    (Route_Timeout r) (Route_EnableWebsocket r) (Route_Labels r) (Route_CreateTime r) (Route_UpdateTime r).

(** Route 1 changes, route 2 is deleted, route 3 is added, the upstream stays. *)
Definition old_manifest : Manifest :=
  mkManifest (generateRandomRoutes 1 1 ++ (set_Route_Id "2" <$> generateRandomRoutes 1 1)) (generateRandomUpstreams 1 1).
Definition new_manifest : Manifest :=
  mkManifest (generateRandomRoutes 2 2 ++ (set_Route_Id "3" <$> generateRandomRoutes 1 1)) (generateRandomUpstreams 1 1).

Definition foreign : gmap string string := {[ "/plugin_metadata/log" := "{}" ]}.

(** The agent that has stored the first manifest. *)
Definition example_stored : Agent (gmap string string) := mkAgent 0 "grpc://istiod:15010" (view old_manifest ∪ foreign) ∅.

Lemma old_marshals : marshals old_manifest.
Proof. split; apply Forall_forall, (bool_decide_unpack _); vm_compute; exact I. Qed.

Lemma new_marshals : marshals new_manifest.
Proof. split; apply Forall_forall, (bool_decide_unpack _); vm_compute; exact I. Qed.

Lemma new_nodes : all_nodes new_manifest.
Proof. intros u ->%list_elem_of_singleton. reflexivity. Qed.

Lemma foreign_disjoint m :
  view m !! "/plugin_metadata/log" = None → foreign ##ₘ view m.
Proof. intros Hm. by apply map_disjoint_singleton_l. Qed.

Lemma storeEvents_sync_witness :
  let stored := content (DataStorage (storeEvents 1700000000000 example_stored
    (generateIncrementalEvents (Some new_manifest) (Some old_manifest)))) in
  stored = view new_manifest ∪ foreign ∧
  content (DataStorage example_stored) !! "/routes/1" ≠ stored !! "/routes/1" ∧ is_Some (stored !! "/routes/1") ∧
  is_Some (content (DataStorage example_stored) !! "/routes/2") ∧ stored !! "/routes/2" = None ∧
  content (DataStorage example_stored) !! "/routes/3" = None ∧ is_Some (stored !! "/routes/3") ∧
  is_Some (stored !! "/upstreams/1") ∧ stored !! "/plugin_metadata/log" = Some "{}".
Proof.
  assert (content (DataStorage (storeEvents 1700000000000 example_stored
    (generateIncrementalEvents (Some new_manifest) (Some old_manifest)))) = view new_manifest ∪ foreign) as Hsync.
  { apply storeEvents_sync.
    - exact I.
    - apply old_marshals.
    - apply new_marshals.
    - apply new_nodes.
    - apply foreign_disjoint. vm_compute. reflexivity.
    - apply foreign_disjoint. vm_compute. reflexivity.
    - reflexivity. }
  intros stored. split; [exact Hsync|]. unfold stored. rewrite Hsync.
  split_and!; apply (bool_decide_unpack _); vm_compute; exact I.
Defined.

Definition example_event : Event := mkEvent EventUpdate "/routes/1" None None 0.

Lemma event_loop_applies_witness :
  content (DataStorage (event_loop example_agent
    [EventsReceived 1 [example_event]; StopSignal; EventsReceived 2 [example_event]]).1) = {[ "/routes/1" := "null" ]}.
Proof.
  etransitivity; [apply (event_loop_applies example_agent [(1%Z, [example_event])] [EventsReceived 2 [example_event]])|].
  - exact I.
  - vm_compute. reflexivity.
Defined.
