(* ===== verification/Xds.v ===== *)
(** * The xDS messages and the third-party functions

    The protobuf messages of go-control-plane with the fields that the source
    reads; a [oneof] is an inductive type under [option] (nil when unset), a
    pointer to a message is an [option].  The functions of third-party packages
    are the fields of the class [XdsLib]: the id hash, the text of a wrapped
    bool, [multierror.Append], [anypb.UnmarshalTo] per message type, and the
    constants of go-control-plane.  No property of them is assumed but that the
    five resource type URLs are distinct, as documented. *)

From S2P Require Import Prelude GoStrings GoNum.
Local Open Scope Z_scope.

(** ** google.protobuf *)

Record Any := mkAny { Any_TypeUrl : string; Any_Value : string }.
Record Duration := mkDuration { Duration_Seconds : Z; Duration_Nanos : Z }.

(** ** core.v3 *)

Inductive PortSpecifier : Type :=
| SocketAddress_PortValue (port : Z)
| SocketAddress_NamedPort (name : string).

Definition SocketAddress_TCP : Z := 0.
Definition SocketAddress_UDP : Z := 1.

Record SocketAddress := mkSocketAddress {
  SA_Protocol : Z;
  SA_Address : string;
  SA_PortSpecifier : option PortSpecifier
}.

Inductive AddressKind : Type :=
| Address_SocketAddress (a : SocketAddress)
| Address_Other (type_name : string).

Record Address := mkAddress { Address_Address : option AddressKind }.

(** [GetSocketAddress] and [GetPortValue] (nil-safe getters). *)
Definition GetSocketAddress (a : option Address) : option SocketAddress :=
  match a with
  | Some (mkAddress (Some (Address_SocketAddress sa))) => Some sa
  | _ => None
  end.
Definition GetPortValue (sa : SocketAddress) : Z :=
  match SA_PortSpecifier sa with Some (SocketAddress_PortValue p) => p | _ => 0 end.

(** ** endpoint.v3 *)

Record Endpoint := mkEndpoint { Endpoint_Address : option Address }.

Inductive HostIdentifier : Type :=
| LbEndpoint_Endpoint (e : Endpoint)
| LbEndpoint_Other (type_name : string).

Record LbEndpoint := mkLbEndpoint {
  LbEp_HostIdentifier : option HostIdentifier;
  LbEp_LoadBalancingWeight : option Z
}.

Record LocalityLbEndpoints := mkLocalityLbEndpoints {
  Locality_LbEndpoints : list LbEndpoint;
  Locality_LoadBalancingWeight : option Z
}.

Record ClusterLoadAssignment := mkClusterLoadAssignment {
  CLA_ClusterName : string;
  CLA_Endpoints : list LocalityLbEndpoints
}.

(** ** cluster.v3 *)

Definition Cluster_ROUND_ROBIN : Z := 0.
Definition Cluster_LEAST_REQUEST : Z := 1.
Definition Cluster_STATIC : Z := 0.
Definition Cluster_EDS : Z := 3.

Inductive ClusterDiscoveryType : Type :=
| Cluster_Type (t : Z)
| Cluster_ClusterType (name : string).

Record Cluster := mkCluster {
  Cluster_Name : string;
  Cluster_LbPolicy : Z;
  Cluster_ConnectTimeout : option Duration;
  Cluster_DiscoveryType : option ClusterDiscoveryType;
  Cluster_LoadAssignment : option ClusterLoadAssignment
}.

Definition Cluster_GetType (c : Cluster) : Z :=
  match Cluster_DiscoveryType c with Some (Cluster_Type t) => t | _ => Cluster_STATIC end.
Definition Cluster_GetClusterType (c : Cluster) : option string :=
  match Cluster_DiscoveryType c with Some (Cluster_ClusterType n) => Some n | _ => None end.

(** ** type.matcher.v3 and type.v3 *)

Inductive MatchPattern : Type :=
| StringMatcher_Exact (s : string)
| StringMatcher_Contains (s : string)
| StringMatcher_Prefix (s : string)
| StringMatcher_Suffix (s : string)
| StringMatcher_SafeRegex (regex : string).

Record StringMatcher := mkStringMatcher {
  SM_MatchPattern : option MatchPattern;
  SM_IgnoreCase : bool
}.

Definition FractionalPercent_HUNDRED : Z := 0.
Definition FractionalPercent_TEN_THOUSAND : Z := 1.
Definition FractionalPercent_MILLION : Z := 2.

Record FractionalPercent := mkFractionalPercent {
  FP_Numerator : Z;
  FP_Denominator : Z
}.

Record RuntimeFractionalPercent := mkRuntimeFractionalPercent {
  RFP_DefaultValue : option FractionalPercent
}.

(** ** route.v3 *)

Inductive QueryParameterMatchSpecifier : Type :=
| QueryParameterMatcher_PresentMatch (b : bool)
| QueryParameterMatcher_StringMatch (m : StringMatcher).

Record QueryParameterMatcher := mkQueryParameterMatcher {
  QPM_Name : string;
  QPM_Specifier : option QueryParameterMatchSpecifier
}.

Inductive HeaderMatchSpecifier : Type :=
| HeaderMatcher_StringMatch (m : StringMatcher)
| HeaderMatcher_ContainsMatch (s : string)
| HeaderMatcher_ExactMatch (s : string)
| HeaderMatcher_PrefixMatch (s : string)
| HeaderMatcher_PresentMatch (b : bool)
| HeaderMatcher_SafeRegexMatch (regex : string)
| HeaderMatcher_SuffixMatch (s : string)
| HeaderMatcher_Other (type_name : string).

Record HeaderMatcher := mkHeaderMatcher {
  HM_Name : string;
  HM_Specifier : option HeaderMatchSpecifier;
  HM_InvertMatch : bool
}.

Inductive PathSpecifier : Type :=
| RouteMatch_Path (s : string)
| RouteMatch_Prefix (s : string)
| RouteMatch_OtherPath (type_name : string).

Record RouteMatch := mkRouteMatch {
  RM_PathSpecifier : option PathSpecifier;
  RM_CaseSensitive : option bool;
  RM_Headers : list HeaderMatcher;
  RM_QueryParameters : list QueryParameterMatcher
}.

Record WeightedCluster := mkWeightedCluster {
  WC_Name : string;
  WC_Weight : option Z
}.

Inductive ClusterSpecifier : Type :=
| RouteAction_Cluster (name : string)
| RouteAction_WeightedClusters (clusters : list WeightedCluster)
| RouteAction_OtherCluster (type_name : string).

Record RequestMirrorPolicy := mkRequestMirrorPolicy {
  RMP_Cluster : string;
  RMP_RuntimeFraction : option RuntimeFractionalPercent
}.

Record RouteAction := mkRouteAction {
  RA_ClusterSpecifier : option ClusterSpecifier;
  RA_Timeout : option Duration;
  RA_RequestMirrorPolicies : list RequestMirrorPolicy
}.

Inductive XAction : Type :=
| Route_Route (a : RouteAction)
| Route_OtherAction (type_name : string).

Record XRoute := mkXRoute {
  XRoute_Name : string;
  XRoute_Match : option RouteMatch;
  XRoute_Action : option XAction;
  XRoute_TypedPerFilterConfig : gmap string Any
}.

Definition XRoute_GetRoute (r : XRoute) : option RouteAction :=
  match XRoute_Action r with Some (Route_Route a) => Some a | _ => None end.

Record VirtualHost := mkVirtualHost {
  VH_Name : string;
  VH_Domains : list string;
  VH_Routes : list XRoute
}.

Record RouteConfiguration := mkRouteConfiguration {
  RC_Name : string;
  RC_VirtualHosts : list VirtualHost
}.

(** ** filters.http.fault.v3 *)

Inductive FaultAbortErrorType : Type :=
| FaultAbort_HttpStatus (status : Z)
| FaultAbort_Other (type_name : string).

Record FaultAbort := mkFaultAbort {
  FA_ErrorType : option FaultAbortErrorType;
  FA_Percentage : option FractionalPercent
}.

Inductive FaultDelaySecifier : Type :=
| FaultDelay_FixedDelay (d : Duration)
| FaultDelay_Other (type_name : string).

Record FaultDelay := mkFaultDelay {
  FD_Secifier : option FaultDelaySecifier;
  FD_Percentage : option FractionalPercent
}.

Record HTTPFault := mkHTTPFault {
  HF_Abort : option FaultAbort;
  HF_Delay : option FaultDelay
}.

(** ** listener.v3, http_connection_manager.v3, tls.v3 *)

Inductive RouteSpecifier : Type :=
| HCM_Rds (route_config_name : string)
| HCM_RouteConfig (rc : RouteConfiguration)
| HCM_ScopedRoutes.

Record HttpConnectionManager := mkHcm { HCM_RouteSpecifier : option RouteSpecifier }.

Record NetFilter := mkNetFilter {
  NF_Name : string;
  NF_TypedConfig : option Any
}.

Record FilterChain := mkFilterChain { FC_Filters : list NetFilter }.

Record Listener := mkListener {
  Listener_Name : string;
  Listener_Address : option Address;
  Listener_FilterChains : list FilterChain
}.

Inductive SecretType : Type :=
| Secret_ValidationContext (trusted_ca : option string)
| Secret_TlsCertificate (certificate_chain private_key : option string)
| Secret_Other (type_name : string).

Record XSecret := mkXSecret {
  XSecret_Name : string;
  XSecret_Type : option SecretType
}.

(** ** discovery.v3 *)

Record DiscoveryResponse := mkDiscoveryResponse {
  Resp_VersionInfo : string;
  Resp_Resources : list Any;
  Resp_TypeUrl : string;
  Resp_Nonce : string
}.

Record Status := mkStatus { Status_Code : Z; Status_Message : string }.

(** [code.Code_INVALID_ARGUMENT] *)
Definition Code_INVALID_ARGUMENT : Z := 3.

Record XNode := mkXNode { XNode_Id : string; XNode_UserAgentName : string }.

Record DiscoveryRequest := mkDiscoveryRequest {
  Req_VersionInfo : string;
  Req_Node : XNode;
  Req_ResourceNames : list string;
  Req_TypeUrl : string;
  Req_ResponseNonce : string;
  Req_ErrorDetail : option Status
}.

(** ** Third-party functions and constants *)

Class XdsLib := {
  GenID : string → string;
  bool_value_text : option bool → string;
  multierror_Append : error → error;

  unmarshal_RouteConfiguration : Any → RouteConfiguration + error;
  unmarshal_Cluster : Any → Cluster + error;
  unmarshal_ClusterLoadAssignment : Any → ClusterLoadAssignment + error;
  unmarshal_Listener : Any → Listener + error;
  unmarshal_Secret : Any → XSecret + error;
  unmarshal_HTTPFault : Any → HTTPFault + error;
  unmarshal_HttpConnectionManager : Any → HttpConnectionManager + error;

  wellknown_Fault : string;
  wellknown_HTTPConnectionManager : string;

  RouteConfigurationUrl : string;
  ClusterUrl : string;
  ClusterLoadAssignmentUrl : string;
  ListenerUrl : string;
  SecretUrl : string;
  type_urls_distinct :
    NoDup [RouteConfigurationUrl; ClusterUrl; ClusterLoadAssignmentUrl; ListenerUrl; SecretUrl]
}.

(** A library for concrete runs: an [Any] names its message by its value. *)
Section TestLib.
Context (rcs : list RouteConfiguration) (cs : list Cluster) (clas : list ClusterLoadAssignment)
  (ls : list Listener) (ss : list XSecret) (faults : list (string * HTTPFault))
  (hcms : list (string * HttpConnectionManager)).

Definition find_named {A} (name : A → string) (l : list A) (a : Any) : A + error :=
  match List.find (λ x, bool_decide (name x = Any_Value a)) l with
  | Some x => inl x
  | None => inr (Errorf "proto: cannot parse invalid wire-format data")
  end.

Definition find_tagged {A} (l : list (string * A)) (a : Any) : A + error :=
  match List.find (λ x, bool_decide (x.1 = Any_Value a)) l with
  | Some x => inl x.2
  | None => inr (Errorf "proto: cannot parse invalid wire-format data")
  end.

Definition test_lib : XdsLib := {|
  GenID := λ s, "<" +:+ s +:+ ">";
  bool_value_text := λ o, match o with None => "<nil>" | Some b => if b then "value:true" else "" end;
  multierror_Append := λ e, Errorf ("1 error occurred: " +:+ error_text e);
  unmarshal_RouteConfiguration := find_named RC_Name rcs;
  unmarshal_Cluster := find_named Cluster_Name cs;
  unmarshal_ClusterLoadAssignment := find_named CLA_ClusterName clas;
  unmarshal_Listener := find_named Listener_Name ls;
  unmarshal_Secret := find_named XSecret_Name ss;
  unmarshal_HTTPFault := find_tagged faults;
  unmarshal_HttpConnectionManager := find_tagged hcms;
  wellknown_Fault := "envoy.filters.http.fault";
  wellknown_HTTPConnectionManager := "envoy.filters.network.http_connection_manager";
  RouteConfigurationUrl := "type.googleapis.com/envoy.config.route.v3.RouteConfiguration";
  ClusterUrl := "type.googleapis.com/envoy.config.cluster.v3.Cluster";
  ClusterLoadAssignmentUrl := "type.googleapis.com/envoy.config.endpoint.v3.ClusterLoadAssignment";
  ListenerUrl := "type.googleapis.com/envoy.config.listener.v3.Listener";
  SecretUrl := "type.googleapis.com/envoy.extensions.transport_sockets.tls.v3.Secret";
  type_urls_distinct := ltac:(apply (bool_decide_unpack _); vm_compute; exact I)
|}.
End TestLib.
