(* ===== verification/Endpoint.v ===== *)
(** * Endpoints and clusters (src/pkg/amesh/provisioner/endpoint_translator.go
    and cluster_translator.go)

    [TranslateClusterLoadAssignment] turns the endpoints of a load assignment
    into APISIX nodes; [TranslateCluster] turns a cluster into an upstream.
    [node_of] is the specification of a single endpoint. *)

From S2P Require Import Prelude GoStrings GoNum Json Apisix Xds.
From Stdlib Require Import SpecFloat.
Local Open Scope Z_scope.

(** ** Endpoints *)

Definition set_Node_Weight (n : Node) (w : Z) : Node :=
  mkNode (Node_Host n) (Node_Port n) w (Node_Metadata n).
Definition set_Node_Host (n : Node) (h : string) : Node :=
  mkNode h (Node_Port n) (Node_Weight n) (Node_Metadata n).
Definition set_Node_Port (n : Node) (p : Z) : Node :=
  mkNode (Node_Host n) p (Node_Weight n) (Node_Metadata n).

(** The weight of a locality: its load-balancing weight, else 100. *)
Definition locality_weight (eps : LocalityLbEndpoints) : Z :=
  match Locality_LoadBalancingWeight eps with
  | Some w => int32_of w
  | None => 100
  end.

(** The body of the loop over [eps.LbEndpoints]; the [continue] branches leave
    [nodes] as it is. *)
Definition translate_endpoint (weight : Z) (nodes : list Node) (ep : LbEndpoint) : outcome (list Node) :=
  let node := mkNode "" 0 weight None in
  let node := match LbEp_LoadBalancingWeight ep with
              | Some w => set_Node_Weight node (int32_of w)
              | None => node
              end in
  match LbEp_HostIdentifier ep with
  | Some (LbEndpoint_Endpoint e) =>
      addr ← deref "nil pointer dereference: Endpoint.Address" (Endpoint_Address e);
      match Address_Address addr with
      | Some (Address_SocketAddress sa) =>
          if negb (SA_Protocol sa =? SocketAddress_TCP) then Ret nodes
          else
            let node := set_Node_Host node (SA_Address sa) in
            match SA_PortSpecifier sa with
            | Some (SocketAddress_PortValue port) => Ret (nodes ++ [set_Node_Port node (int32_of port)])
            | Some (SocketAddress_NamedPort _) => Ret nodes
            | None => Ret (nodes ++ [node])
            end
      | _ => Ret nodes
      end
  | _ => Ret nodes
  end.

Definition translate_locality (nodes : list Node) (eps : LocalityLbEndpoints) : outcome (list Node) :=
  go_foldl (translate_endpoint (locality_weight eps)) nodes (Locality_LbEndpoints eps).

(** [la] may be nil. *)
Definition TranslateClusterLoadAssignment (la : option ClusterLoadAssignment) : outcome (list Node + error) :=
  let endpoints := match la with Some la => CLA_Endpoints la | None => [] end in
  if Nat.eqb (length endpoints) 0 then Ret (inr ErrorRequireFurtherEDS)
  else
    nodes ← go_foldl translate_locality [] endpoints;
    Ret (inl nodes).

(** ** Clusters *)

Section Cluster.
Context `{XdsLib}.

Definition translateClusterLbPolicy (c : Cluster) (ups : Upstream) : Upstream :=
  if Cluster_LbPolicy c =? Cluster_ROUND_ROBIN then set_Upstream_Type "roundrobin" ups
  else if Cluster_LbPolicy c =? Cluster_LEAST_REQUEST then set_Upstream_Type "least_conn" ups
  else ups.

Definition translateClusterTimeoutSettings (c : Cluster) (ups : Upstream) : Upstream :=
  match Cluster_ConnectTimeout c with
  | Some d => set_Upstream_Timeout
      (Some (mkTimeout (float64_of_Z (Duration_Seconds d)) (float64_of_Z 60) (float64_of_Z 60))) ups
  | None => ups
  end.

Definition translateClusterLoadAssignments (c : Cluster) (ups : Upstream) : outcome (Upstream + error) :=
  match Cluster_GetClusterType c with
  | Some _ => Ret (inl ups)
  | None =>
      if Cluster_GetType c =? Cluster_EDS then Ret (inl ups)
      else
        res ← TranslateClusterLoadAssignment (Cluster_LoadAssignment c);
        match res with
        | inr err => Ret (inr err)
        | inl nodes => Ret (inl (set_Upstream_Nodes nodes ups))
        end
  end.

Definition base_Upstream (name : string) : Upstream :=
  mkUpstream 0 0 [] 0 None None None "" None "" "" ProtocolSchemeHttp ∅ "" "" name "" (GenID name).

Definition TranslateCluster (c : Cluster) : outcome (Upstream + error) :=
  let ups := base_Upstream (Cluster_Name c) in
  let ups := translateClusterLbPolicy c ups in
  let ups := translateClusterTimeoutSettings c ups in
  translateClusterLoadAssignments c ups.
End Cluster.

(** ** Specification of one endpoint *)

(** The weight of an endpoint: its own, else that of its locality, else 100. *)
Definition weight_of (eps : LocalityLbEndpoints) (ep : LbEndpoint) : Z :=
  match LbEp_LoadBalancingWeight ep, Locality_LoadBalancingWeight eps with
  | Some w, _ => int32_of w
  | None, Some w => int32_of w
  | None, None => 100
  end.

(** The node that an endpoint of a locality denotes, if any: a TCP socket
    address whose port is a number (or absent). *)
Definition node_of (eps : LocalityLbEndpoints) (ep : LbEndpoint) : option Node :=
  match LbEp_HostIdentifier ep with
  | Some (LbEndpoint_Endpoint (mkEndpoint (Some (mkAddress (Some (Address_SocketAddress sa)))))) =>
      if SA_Protocol sa =? SocketAddress_TCP then
        match SA_PortSpecifier sa with
        | Some (SocketAddress_PortValue p) => Some (mkNode (SA_Address sa) (int32_of p) (weight_of eps ep) None)
        | Some (SocketAddress_NamedPort _) => None
        | None => Some (mkNode (SA_Address sa) 0 (weight_of eps ep) None)
        end
      else None
  | _ => None
  end.

(** The socket address of an endpoint that denotes a node. *)
Definition node_address (ep : LbEndpoint) : option SocketAddress :=
  match LbEp_HostIdentifier ep with
  | Some (LbEndpoint_Endpoint (mkEndpoint (Some (mkAddress (Some (Address_SocketAddress sa)))))) =>
      if SA_Protocol sa =? SocketAddress_TCP then
        match SA_PortSpecifier sa with Some (SocketAddress_NamedPort _) => None | _ => Some sa end
      else None
  | _ => None
  end.

(** The endpoints of a load assignment with their localities, in order, and
    those of them that denote a node. *)
Definition located (endpoints : list LocalityLbEndpoints) : list (LocalityLbEndpoints * LbEndpoint) :=
  endpoints ≫= λ eps, (eps,.) <$> Locality_LbEndpoints eps.
Definition used_endpoints (endpoints : list LocalityLbEndpoints) : list (LocalityLbEndpoints * LbEndpoint) :=
  filter (λ x, is_Some (node_address x.2)) (located endpoints).

(** A 32-bit field as it arrives in a signed one. *)
Definition arrives (field result : Z) : Prop :=
  is_uint32 field → (field < 2 ^ 31 → result = field) ∧ (2 ^ 31 ≤ field → result = field - 2 ^ 32 ∧ result < 0).

(** The node of an endpoint: its address, its port or 0 without one, and its
    weight, the locality's or 100. *)
Record within_bounds (x : LocalityLbEndpoints * LbEndpoint) (n : Node) : Prop := {
  WB_int32 : is_int32 (Node_Port n) ∧ is_int32 (Node_Weight n);
  WB_host : ∃ sa, node_address x.2 = Some sa ∧ Node_Host n = SA_Address sa ∧
    match SA_PortSpecifier sa with Some (SocketAddress_PortValue p) => arrives p (Node_Port n) | _ => Node_Port n = 0 end;
  WB_weight : match LbEp_LoadBalancingWeight x.2 with
    | Some w => arrives w (Node_Weight n)
    | None => match Locality_LoadBalancingWeight x.1 with
              | Some w => arrives w (Node_Weight n)
              | None => Node_Weight n = 100
              end
    end
}.

(** Every endpoint message carries its address. *)
Definition has_address (ep : LbEndpoint) : bool :=
  match LbEp_HostIdentifier ep with
  | Some (LbEndpoint_Endpoint (mkEndpoint None)) => false
  | _ => true
  end.
Definition addresses_ok (endpoints : list LocalityLbEndpoints) : Prop :=
  ∀ eps ep, eps ∈ endpoints → ep ∈ Locality_LbEndpoints eps → has_address ep = true.

(** All the nodes of a load assignment, in order. *)
Definition nodes_of (endpoints : list LocalityLbEndpoints) : list Node :=
  endpoints ≫= λ eps, omap (node_of eps) (Locality_LbEndpoints eps).

(** ** Lemmas *)

Lemma translate_endpoint_eq eps nodes ep :
  has_address ep = true →
  translate_endpoint (locality_weight eps) nodes ep =
    Ret (nodes ++ match node_of eps ep with Some n => [n] | None => [] end).
Proof.
  destruct ep as [hi w]. unfold has_address, translate_endpoint, node_of; cbn [LbEp_HostIdentifier LbEp_LoadBalancingWeight].
  destruct hi as [[[[[[[sa|t]|]]|]]|t]|]; cbn; try done; intros _; try by rewrite app_nil_r.
  destruct (SA_Protocol sa =? SocketAddress_TCP); cbn; [|by rewrite app_nil_r].
  unfold weight_of, locality_weight. cbn.
  destruct (SA_PortSpecifier sa) as [[p|n]|]; cbn; try (by rewrite app_nil_r); destruct w; cbn; try done; by destruct (Locality_LoadBalancingWeight eps).
Qed.

Lemma translate_locality_eq eps nodes :
  (∀ ep, ep ∈ Locality_LbEndpoints eps → has_address ep = true) →
  translate_locality nodes eps = Ret (nodes ++ omap (node_of eps) (Locality_LbEndpoints eps)).
Proof.
  unfold translate_locality. revert nodes.
  induction (Locality_LbEndpoints eps) as [|ep l IH]; intros nodes Ha; [by rewrite app_nil_r|].
  cbn [go_foldl]. rewrite translate_endpoint_eq by (apply Ha; by left). cbn [mbind outcome_bind].
  rewrite IH by (intros; apply Ha; by right). f_equal. rewrite <- app_assoc. f_equal.
  cbn [omap list_omap]. by destruct (node_of eps ep).
Qed.

Lemma translate_localities_eq endpoints nodes :
  addresses_ok endpoints → go_foldl translate_locality nodes endpoints = Ret (nodes ++ nodes_of endpoints).
Proof.
  revert nodes; induction endpoints as [|eps l IH]; intros nodes Ha; [by rewrite app_nil_r|].
  cbn [go_foldl]. rewrite translate_locality_eq by (intros; eapply Ha; [by left|done]).
  cbn [mbind outcome_bind]. rewrite IH; [by rewrite <- app_assoc|].
  intros e ep He. apply Ha. by right.
Qed.

(** Without the address hypothesis: whatever is returned is the specification. *)
Lemma translate_endpoint_ret eps nodes ep nodes' :
  translate_endpoint (locality_weight eps) nodes ep = Ret nodes' → has_address ep = true.
Proof.
  destruct ep as [hi w]. unfold has_address, translate_endpoint; cbn [LbEp_HostIdentifier].
  by destruct hi as [[[[?|]]|?]|].
Qed.

Lemma elem_of_nodes_of n endpoints :
  n ∈ nodes_of endpoints ↔ ∃ eps ep, eps ∈ endpoints ∧ ep ∈ Locality_LbEndpoints eps ∧ node_of eps ep = Some n.
Proof.
  unfold nodes_of. rewrite list_elem_of_bind. split.
  - intros (eps & Hn & He). apply list_elem_of_omap in Hn as (ep & ? & ?). eauto.
  - intros (eps & ep & ? & ? & ?). exists eps. split; [|done]. apply list_elem_of_omap. eauto.
Qed.

Lemma node_of_bounds eps ep n :
  node_of eps ep = Some n → is_int32 (Node_Port n) ∧ is_int32 (Node_Weight n) ∧ Node_Metadata n = None.
Proof.
  intros Hn. unfold node_of in Hn.
  assert (is_int32 (weight_of eps ep)) as Hw.
  { unfold weight_of. destruct (LbEp_LoadBalancingWeight ep); [apply int32_of_range|].
    destruct (Locality_LoadBalancingWeight eps); [apply int32_of_range|]. unfold is_int32; lia. }
  repeat case_match; simplify_eq/=; split_and!; try done; try apply int32_of_range; unfold is_int32; lia.
Qed.

Lemma int32_of_arrives w : arrives w (int32_of w).
Proof.
  intros Hw. unfold is_uint32 in Hw. split; [intros Hlt; apply int32_of_small; lia|]. intros Hge.
  unfold int32_of. rewrite Z.mod_small by lia. destruct (Z.ltb_spec w (2 ^ 31)); lia.
Qed.

Lemma node_of_within eps ep :
  match node_of eps ep with Some n => within_bounds (eps, ep) n | None => node_address ep = None end.
Proof.
  destruct (node_of eps ep) as [n|] eqn:Hn.
  - pose proof (node_of_bounds _ _ _ Hn) as (Hp & Hw & _). split; [done|..]; cbn [fst snd].
    + unfold node_of, node_address in *. destruct ep as [hi w]; cbn [LbEp_HostIdentifier] in *.
      destruct hi as [[[[[[[sa|t]|]]|]]|t]|]; try done. destruct (SA_Protocol sa =? SocketAddress_TCP); [|done]. exists sa.
      destruct (SA_PortSpecifier sa) as [[p|name]|]; [|done|]; injection Hn as <-; (split_and!; [done..|]); [apply int32_of_arrives|done].
    + assert (Node_Weight n = weight_of eps ep) as -> by (unfold node_of in Hn; repeat case_match; by simplify_eq/=).
      unfold weight_of. destruct (LbEp_LoadBalancingWeight ep); [apply int32_of_arrives|].
      destruct (Locality_LoadBalancingWeight eps); [apply int32_of_arrives|done].
  - revert Hn. unfold node_of, node_address. by repeat case_match.
Qed.

Lemma used_endpoints_nodes endpoints : Forall2 within_bounds (used_endpoints endpoints) (nodes_of endpoints).
Proof.
  unfold used_endpoints, located, nodes_of. induction endpoints as [|eps l IH]; [constructor|]. cbn [mbind list_bind].
  rewrite filter_app. apply Forall2_app; [|done]. clear IH. induction (Locality_LbEndpoints eps) as [|ep eps' IH]; [constructor|].
  rewrite fmap_cons. cbn [omap list_omap]. pose proof (node_of_within eps ep) as Hn. destruct (node_of eps ep) as [n|].
  - rewrite filter_cons_True by (destruct (WB_host _ _ Hn) as (sa & Hsa & _); by exists sa). by constructor.
  - rewrite filter_cons_False; [done|]. cbn. rewrite Hn. by intros [].
Qed.

(** ** Properties *)

(** C18. Translation of a load assignment: nil or without localities it asks for
    a further EDS request; otherwise, when every endpoint carries its address,
    it returns (does not panic) exactly the nodes of the TCP endpoints with a
    numeric or absent port, in order, each with its own weight, else the weight
    of its locality, else 100. *)
Theorem TranslateClusterLoadAssignment_spec la :
  addresses_ok (match la with Some la => CLA_Endpoints la | None => [] end) →
  TranslateClusterLoadAssignment la =
    Ret (match la with
         | Some (mkClusterLoadAssignment _ (eps :: l)) => inl (nodes_of (eps :: l))
         | _ => inr ErrorRequireFurtherEDS
         end).
Proof.
  intros Ha. destruct la as [[name [|eps l]]|]; [done| |done].
  unfold TranslateClusterLoadAssignment. cbn [CLA_Endpoints length Nat.eqb] in *.
  rewrite translate_localities_eq by done. done.
Qed.

(** C35. Bounds of the translated nodes.  The nodes are, in order, those of the
    endpoints with a TCP socket address whose port is a number or absent, each
    with the host of its endpoint.  Ports and weights are signed 32-bit
    integers: a port or a weight (the endpoint's, else its locality's) below
    2^31 is kept, one of at least 2^31, which the uint32 fields allow, turns
    negative by 2^32; without a port it is 0, without any weight 100. *)
Theorem TranslateClusterLoadAssignment_bounds la nodes :
  TranslateClusterLoadAssignment (Some la) = Ret (inl nodes) →
  addresses_ok (CLA_Endpoints la) →
  Forall2 within_bounds (used_endpoints (CLA_Endpoints la)) nodes.
Proof.
  intros Hr Ha. unfold TranslateClusterLoadAssignment in Hr. destruct (Nat.eqb _ 0); [done|].
  rewrite translate_localities_eq in Hr by done. cbn in Hr. injection Hr as <-. apply used_endpoints_nodes.
Qed.

(** C19. Translation of a cluster: the upstream keeps the cluster's name and its
    hashed id, has round-robin or least-connections balancing exactly for those
    two policies and no type for the others, the connect timeout in seconds
    with 60 seconds for reading and writing, and nodes only for a cluster that
    carries its own load assignment (neither EDS nor a custom cluster type). *)
Theorem TranslateCluster_spec `{XdsLib} c ups :
  TranslateCluster c = Ret (inl ups) →
  Upstream_Name ups = Cluster_Name c ∧ Upstream_Id ups = GenID (Cluster_Name c) ∧
  Upstream_Scheme ups = ProtocolSchemeHttp ∧
  Upstream_Type ups = (if Cluster_LbPolicy c =? Cluster_ROUND_ROBIN then "roundrobin"
     else if Cluster_LbPolicy c =? Cluster_LEAST_REQUEST then "least_conn" else "") ∧
  Upstream_Timeout ups = (d ← Cluster_ConnectTimeout c;
     Some (mkTimeout (float64_of_Z (Duration_Seconds d)) (float64_of_Z 60) (float64_of_Z 60))) ∧
  (Cluster_GetType c = Cluster_EDS ∨ is_Some (Cluster_GetClusterType c) → Upstream_Nodes ups = []) ∧
  (Cluster_GetType c ≠ Cluster_EDS → Cluster_GetClusterType c = None →
     TranslateClusterLoadAssignment (Cluster_LoadAssignment c) = Ret (inl (Upstream_Nodes ups))).
Proof.
  unfold TranslateCluster, translateClusterLoadAssignments, translateClusterTimeoutSettings, translateClusterLbPolicy.
  intros Hr. destruct (Cluster_GetClusterType c) as [n|] eqn:Hct.
  - injection Hr as <-. unfold base_Upstream.
    destruct (Cluster_LbPolicy c =? Cluster_ROUND_ROBIN), (Cluster_LbPolicy c =? Cluster_LEAST_REQUEST), (Cluster_ConnectTimeout c); cbn; split_and!; try done.
  - destruct (Z.eqb_spec (Cluster_GetType c) Cluster_EDS) as [He|He].
    + injection Hr as <-. unfold base_Upstream.
      destruct (Cluster_LbPolicy c =? Cluster_ROUND_ROBIN), (Cluster_LbPolicy c =? Cluster_LEAST_REQUEST), (Cluster_ConnectTimeout c); cbn; split_and!; try done.
    + destruct (TranslateClusterLoadAssignment _) as [[nodes|err]|]; [|done..]. cbn in Hr. injection Hr as <-.
      unfold base_Upstream.
      destruct (Cluster_LbPolicy c =? Cluster_ROUND_ROBIN), (Cluster_LbPolicy c =? Cluster_LEAST_REQUEST), (Cluster_ConnectTimeout c); cbn; split_and!; try done;
        intros [?|[? ?]]; done.
Qed.

(** ** Witnesses *)

Definition example_address (port : Z) : Address :=
  mkAddress (Some (Address_SocketAddress (mkSocketAddress SocketAddress_TCP "10.0.0.1" (Some (SocketAddress_PortValue port))))).
Definition example_assignment : ClusterLoadAssignment :=
  mkClusterLoadAssignment "c" [mkLocalityLbEndpoints
    [mkLbEndpoint (Some (LbEndpoint_Endpoint (mkEndpoint (Some (example_address 80))))) (Some (2 ^ 31))] (Some 7)].

Lemma example_addresses : addresses_ok (CLA_Endpoints example_assignment).
Proof.
  intros eps ep Heps Hep. apply list_elem_of_singleton in Heps as ->. apply list_elem_of_singleton in Hep as ->.
  reflexivity.
Qed.

Lemma TranslateClusterLoadAssignment_spec_witness :
  TranslateClusterLoadAssignment (Some example_assignment) = Ret (inl [mkNode "10.0.0.1" 80 (- 2 ^ 31) None]).
Proof. rewrite TranslateClusterLoadAssignment_spec; [reflexivity|apply example_addresses]. Defined.

Lemma TranslateClusterLoadAssignment_bounds_witness :
  Forall2 within_bounds (used_endpoints (CLA_Endpoints example_assignment)) [mkNode "10.0.0.1" 80 (- 2 ^ 31) None] ∧
  length (used_endpoints (CLA_Endpoints example_assignment)) = 1%nat.
Proof.
  split; [|vm_compute; reflexivity]. apply (TranslateClusterLoadAssignment_bounds example_assignment [mkNode "10.0.0.1" 80 (- 2 ^ 31) None]).
  - vm_compute. reflexivity.
  - apply example_addresses.
Defined.

Definition endpoint_lib : XdsLib := test_lib [] [] [] [] [] [] [].
Definition example_cluster : Cluster :=
  mkCluster "c" Cluster_LEAST_REQUEST (Some (mkDuration 5 0)) (Some (Cluster_Type Cluster_STATIC)) (Some example_assignment).
Definition example_cluster_upstream : Upstream :=
  match @TranslateCluster endpoint_lib example_cluster with
  | Ret (inl u) => u
  | _ => @base_Upstream endpoint_lib ""
  end.

Lemma TranslateCluster_spec_witness :
  Upstream_Type example_cluster_upstream = "least_conn" ∧ Upstream_Id example_cluster_upstream = "<c>".
Proof.
  destruct (@TranslateCluster_spec endpoint_lib example_cluster example_cluster_upstream) as (_ & Hid & _ & Hty & _).
  - vm_compute. reflexivity.
  - split; [exact Hty|exact Hid].
Defined.
