(* ===== verification/JsonParse.v ===== *)
(** * [encoding/json]: reading

    A parser for JSON text as [json.Unmarshal] accepts it (whitespace, number
    grammar, escapes with surrogate pairs, replacement of invalid UTF-8, nesting
    limit), and the decoding of an object into a [map[string]interface{}].  The
    parser runs on fuel: the length of the text is enough, since every nested
    call consumes a byte. *)

From S2P Require Import Prelude GoStrings GoNum Json Apisix.
From Stdlib Require Import SpecFloat.
Local Open Scope Z_scope.

(** ** Lexing *)

Definition is_ws (c : ascii) : bool :=
  let b := byte c in (b =? 32) || (b =? 9) || (b =? 10) || (b =? 13).

Fixpoint skip_ws (s : string) : string :=
  match s with
  | String c s' => if is_ws c then skip_ws s' else s
  | "" => ""
  end.

Definition is_digit (c : ascii) : bool := in_range 48 57 (byte c).

(** The longest prefix of digits, and the rest. *)
Fixpoint span_digits (s : string) : string * string :=
  match s with
  | String c s' => if is_digit c then let '(d, r) := span_digits s' in (String c d, r) else ("", s)
  | "" => ("", "")
  end.

(** The integer part: "0" or digits that do not start with "0". *)
Definition lex_int (s : string) : option (string * string) :=
  match s with
  | String c s' =>
      if byte c =? 48 then Some (String c "", s')
      else if is_digit c then let '(d, r) := span_digits s' in Some (String c d, r)
      else None
  | "" => None
  end.

Definition lex_frac (s : string) : option (string * string) :=
  match s with
  | String "." s' => let '(d, r) := span_digits s' in
      if bool_decide (d = "") then None else Some (String "." d, r)
  | _ => Some ("", s)
  end.

Definition lex_exp (s : string) : option (string * string) :=
  match s with
  | String c s' =>
      if (byte c =? 101) || (byte c =? 69) then
        let '(sign, s'') := match s' with
          | String "+" r => ("+", r) | String "-" r => ("-", r) | _ => ("", s') end in
        let '(d, r) := span_digits s'' in
        if bool_decide (d = "") then None else Some (String c (sign +:+ d), r)
      else Some ("", s)
  | "" => Some ("", "")
  end.

(** A number literal: sign, integer part, fraction and exponent. *)
Definition lex_number (s : string) : option (string * string) :=
  let '(sign, s) := match s with String "-" r => ("-", r) | _ => ("", s) end in
  '(i, s) ← lex_int s;
  '(f, s) ← lex_frac s;
  '(e, s) ← lex_exp s;
  Some (sign +:+ i +:+ f +:+ e, s).

(** ** Strings *)

Definition hex_value (c : ascii) : option Z :=
  let b := byte c in
  if in_range 48 57 b then Some (b - 48)
  else if in_range 97 102 b then Some (b - 87)
  else if in_range 65 70 b then Some (b - 55)
  else None.

Definition hex4 (a b c d : ascii) : option Z :=
  a ← hex_value a; b ← hex_value b; c ← hex_value c; d ← hex_value d;
  Some (((a * 16 + b) * 16 + c) * 16 + d).

(** [utf8.EncodeRune]; surrogates become U+FFFD. *)
Definition encode_rune (r : Z) : string :=
  let r := if in_range 55296 57343 r || (1114111 <? r) then 65533 else r in
  if r <? 128 then String (chr r) ""
  else if r <? 2048 then String (chr (192 + r / 64)) (String (chr (128 + r mod 64)) "")
  else if r <? 65536 then
    String (chr (224 + r / 4096)) (String (chr (128 + r / 64 mod 64)) (String (chr (128 + r mod 64)) ""))
  else String (chr (240 + r / 262144)) (String (chr (128 + r / 4096 mod 64))
        (String (chr (128 + r / 64 mod 64)) (String (chr (128 + r mod 64)) ""))).

Definition fffd : string := encode_rune 65533.

Definition simple_escape (c : ascii) : option ascii :=
  let b := byte c in
  if (b =? 34) || (b =? 92) || (b =? 47) then Some c
  else if b =? 98 then Some (chr 8)
  else if b =? 102 then Some (chr 12)
  else if b =? 110 then Some (chr 10)
  else if b =? 114 then Some (chr 13)
  else if b =? 116 then Some (chr 9)
  else None.

Definition prepend (p : string) (o : option (string * string)) : option (string * string) :=
  match o with Some (d, r) => Some (p +:+ d, r) | None => None end.

(** The body of a string literal after the opening quote: the decoded text and
    what follows the closing quote. *)
Fixpoint unquote (s : string) : option (string * string) :=
  match s with
  | "" => None
  | String c s1 =>
      if byte c =? 34 then Some ("", s1)
      else if byte c =? 92 then
        match s1 with
        | "" => None
        | String e s2 =>
            match simple_escape e with
            | Some d => prepend (String d "") (unquote s2)
            | None =>
                if byte e =? 117 then
                  match s2 with
                  | String h1 (String h2 (String h3 (String h4 s6))) =>
                      match hex4 h1 h2 h3 h4 with
                      | None => None
                      | Some r =>
                          if in_range 55296 56319 r then
                            match s6 with
                            | String b1 (String u1 (String k1 (String k2 (String k3 (String k4 s12))))) =>
                                if (byte b1 =? 92) && (byte u1 =? 117) then
                                  match hex4 k1 k2 k3 k4 with
                                  | None => None
                                  | Some r2 =>
                                      if in_range 56320 57343 r2
                                      then prepend (encode_rune ((r - 55296) * 1024 + (r2 - 56320) + 65536)) (unquote s12)
                                      else prepend fffd (unquote s6)
                                  end
                                else prepend fffd (unquote s6)
                            | _ => prepend fffd (unquote s6)
                            end
                          else prepend (encode_rune r) (unquote s6)
                      end
                  | _ => None
                  end
                else None
            end
        end
      else if byte c <? 32 then None
      else if byte c <? 128 then prepend (String c "") (unquote s1)
      else
        match s1 with
        | "" => None
        | String c2 s2 =>
            if valid2 (byte c) (byte c2) then prepend (String c (String c2 "")) (unquote s2) else
            match s2 with
            | "" => prepend fffd (unquote s1)
            | String c3 s3 =>
                if valid3 (byte c) (byte c2) (byte c3)
                then prepend (String c (String c2 (String c3 ""))) (unquote s3) else
                match s3 with
                | "" => prepend fffd (unquote s1)
                | String c4 s4 =>
                    if valid4 (byte c) (byte c2) (byte c3) (byte c4)
                    then prepend (String c (String c2 (String c3 (String c4 "")))) (unquote s4)
                    else prepend fffd (unquote s1)
                end
            end
        end
  end.

(** ** Values *)

Definition max_depth : Z := 10000.

Fixpoint parse_value (fuel : nat) (depth : Z) (s : string) {struct fuel} : option (json * string) :=
  match fuel with
  | O => None
  | S fuel =>
      match skip_ws s with
      | "" => None
      | String c s1 =>
          if byte c =? 34 then '(t, r) ← unquote s1; Some (JStr t, r)
          else if byte c =? 91 then
            if max_depth <? depth + 1 then None else
            match skip_ws s1 with
            | String c2 r => if byte c2 =? 93 then Some (JArr [], r)
                else '(l, r) ← parse_elements fuel (depth + 1) s1; Some (JArr l, r)
            | "" => None
            end
          else if byte c =? 123 then
            if max_depth <? depth + 1 then None else
            match skip_ws s1 with
            | String c2 r => if byte c2 =? 125 then Some (JObj [], r)
                else '(l, r) ← parse_members fuel (depth + 1) s1; Some (JObj l, r)
            | "" => None
            end
          else if HasPrefix (String c s1) "null" then Some (JNull, drop_bytes 4 (String c s1))
          else if HasPrefix (String c s1) "true" then Some (JBool true, drop_bytes 4 (String c s1))
          else if HasPrefix (String c s1) "false" then Some (JBool false, drop_bytes 5 (String c s1))
          else '(lit, r) ← lex_number (String c s1); Some (JNum lit, r)
      end
  end
with parse_elements (fuel : nat) (depth : Z) (s : string) {struct fuel} : option (list json * string) :=
  match fuel with
  | O => None
  | S fuel =>
      '(j, r) ← parse_value fuel depth s;
      match skip_ws r with
      | String c r =>
          if byte c =? 93 then Some ([j], r)
          else if byte c =? 44 then '(l, r) ← parse_elements fuel depth r; Some (j :: l, r)
          else None
      | "" => None
      end
  end
with parse_members (fuel : nat) (depth : Z) (s : string) {struct fuel} : option (list (string * json) * string) :=
  match fuel with
  | O => None
  | S fuel =>
      match skip_ws s with
      | String q s1 =>
          if negb (byte q =? 34) then None else
          '(k, r) ← unquote s1;
          match skip_ws r with
          | String c r =>
              if negb (byte c =? 58) then None else
              '(j, r) ← parse_value fuel depth r;
              match skip_ws r with
              | String c r =>
                  if byte c =? 125 then Some ([(k, j)], r)
                  else if byte c =? 44 then '(l, r) ← parse_members fuel depth r; Some ((k, j) :: l, r)
                  else None
              | "" => None
              end
          | "" => None
          end
      | "" => None
      end
  end.

(** The whole text is one value. *)
Definition parse_json (s : string) : option json :=
  '(j, r) ← parse_value (S (2 * String.length s)) 0 s;
  if bool_decide (skip_ws r = "") then Some j else None.

(** ** Decoding into [interface{}] *)

(** The decimal that a number literal denotes: sign, digits and exponent. *)
Definition decimal_of_literal (lit : string) : option (bool * Z * Z) :=
  let '(neg, s) := match lit with String "-" r => (true, r) | _ => (false, lit) end in
  let '(i, s) := span_digits s in
  let '(f, s) := match s with String "." r => span_digits r | _ => ("", s) end in
  d ← parse_digits 0 (i +:+ f);
  e ← match s with
      | String _ r =>
          match r with
          | String "-" r => Z.opp <$> parse_digits 0 r
          | String "+" r => parse_digits 0 r
          | _ => parse_digits 0 r
          end
      | "" => Some 0
      end;
  Some (neg, d, e - Z.of_nat (String.length f)).

(** [strconv.ParseFloat(lit, 64)]; out of range is an error. *)
Definition parse_float64 (lit : string) : option spec_float :=
  '(neg, d, x) ← decimal_of_literal lit;
  let f := float_of_decimal 53 1024 neg d x in
  if is_finite_float f then Some f else None.

(** A decoded object: the last of repeated keys wins; keys in sorted order. *)
Definition normal_object {A} (l : list (string * A)) : list (string * A) :=
  sort_keys (foldl (λ acc kv, filter (λ kv', kv'.1 ≠ kv.1) acc ++ [kv]) [] l).

Fixpoint decode_any (j : json) : option any :=
  match j with
  | JNull => Some AnyNull
  | JBool b => Some (AnyBool b)
  | JNum lit => AnyFloat <$> parse_float64 lit
  | JStr s => Some (AnyStr s)
  | JArr l => AnyList <$> mapM decode_any l
  | JObj l => (λ l, AnyObj (normal_object l)) <$>
      mapM (λ kv, match kv with (k, v) => pair k <$> decode_any v end) l
  end.

(** [json.Unmarshal(data, &m)] for [var m map[string]interface{}]: [None] is an
    error; [null] leaves the nil map. *)
Definition Unmarshal_map (data : string) : option any_map :=
  j ← parse_json data;
  match j with
  | JNull => Some None
  | JObj _ =>
      a ← decode_any j;
      match a with AnyObj m => Some (Some m) | _ => None end
  | _ => None
  end.

(** ** Examples *)

Definition json_text (s : string) : string := ReplaceAll s "'" (String quote "").

Example unmarshal_config :
  Unmarshal_map (json_text " {'b': [1, true, null, 'x\u0041'], 'a':{} } ") =
    Some (Some [("a", AnyObj []); ("b", AnyList [AnyFloat (float64_of_Z 1); AnyBool true; AnyNull; AnyStr "xA"])]).
Proof. vm_compute. reflexivity. Qed.
Example unmarshal_null : Unmarshal_map "null" = Some None.
Proof. vm_compute. reflexivity. Qed.
Example unmarshal_bad : Unmarshal_map "[1]" = None ∧ Unmarshal_map "{" = None ∧ Unmarshal_map "01" = None
  ∧ Unmarshal_map (json_text "{'a':1e400}") = None.
Proof. vm_compute. done. Qed.
