(* ===== verification/AmeshPlugins.v ===== *)
(** * The Amesh plugin provisioner (src/pkg/amesh/provisioner/amesh.go)

    It receives the plugin configurations of its pod from the controller and
    keeps the decoded plugins, which the xDS provisioner patches into the
    routes.  Revisions are compared as strings, as the code does. *)

From S2P Require Import Prelude GoStrings GoNum Json Apisix JsonParse Agent.
From Stdlib Require Import SpecFloat.

(** ** The messages of api/proto/v1 (types.proto and service.proto) *)

Record AmeshPlugin := mkAmeshPlugin {
  AmeshPlugin_Type : string;
  AmeshPlugin_Name : string;
  AmeshPlugin_Config : string
}.

Record AmeshPluginConfig := mkAmeshPluginConfig {
  APC_Name : string;
  APC_Plugins : list AmeshPlugin;
  APC_Version : string
}.

Record PluginsResponse := mkPluginsResponse {
  PR_ErrorMessage : option (Z * string);
  PR_Plugins : list AmeshPluginConfig
}.

(** ** amesh/types.ApisixPlugin *)

Record ApisixPlugin := mkApisixPlugin {
  AP_Type : string;
  AP_Name : string;
  AP_Config : any_map
}.

(** ** The provisioner's state *)

Record ameshProvisioner := mkAmeshProvisioner {
  AM_src : string;
  AM_namespace : string;
  AM_name : string;
  AM_config : gmap string ApisixPlugin;
  AM_configRevision : gmap string string;
  AM_connected : bool;
  AM_ready : bool
}.

(** [NewAmeshProvisioner]; the logger never fails here. *)
Definition NewAmeshProvisioner (env : environment) (src : string) : ameshProvisioner + error :=
  let namespace := env "POD_NAMESPACE" in
  if bool_decide (namespace = "") then inr (Errorf "env variable NAMESPACE not found")
  else
    let name := env "POD_NAME" in
    if bool_decide (name = "") then inr (Errorf "env variable POD_NAME not found")
    else inl (mkAmeshProvisioner src namespace name ∅ ∅ false false).

(** The key of the instance that [run] subscribes. *)
Definition instance_key (p : ameshProvisioner) : string := AM_namespace p +:+ "/" +:+ AM_name p.

Definition GetPlugins (p : ameshProvisioner) : gmap string ApisixPlugin := AM_config p.

(** [a <= b] on Go strings. *)
Definition string_le (a b : string) : bool := String.leb a b.

(** One plugin of a configuration: skipped when its JSON does not decode. *)
Definition update_plugin (plugins : gmap string ApisixPlugin) (plugin : AmeshPlugin) : gmap string ApisixPlugin :=
  match Unmarshal_map (AmeshPlugin_Config plugin) with
  | None => plugins
  | Some anyValue =>
      <[AmeshPlugin_Name plugin :=
          mkApisixPlugin (AmeshPlugin_Type plugin) (AmeshPlugin_Name plugin) anyValue]> plugins
  end.

(** One configuration: [acc] is the new revision map and the new plugins. *)
Definition update_config (revisionMap : gmap string string)
    (acc : gmap string string * gmap string ApisixPlugin) (pluginConfig : AmeshPluginConfig) :
    gmap string string * gmap string ApisixPlugin :=
  let '(configRevision, plugins) := acc in
  let accept :=
    (<[APC_Name pluginConfig := APC_Version pluginConfig]> configRevision,
     foldl update_plugin plugins (APC_Plugins pluginConfig)) in
  match revisionMap !! APC_Name pluginConfig with
  | Some revision => if string_le (APC_Version pluginConfig) revision then acc else accept
  | None => accept
  end.

(** [updatePlugins]: the new state and whether an update event is sent. *)
Definition updatePlugins (p : ameshProvisioner) (resp : PluginsResponse) : ameshProvisioner * bool :=
  match PR_ErrorMessage resp with
  | Some _ => (p, false)
  | None =>
      let '(configRevision, plugins) :=
        foldl (update_config (AM_configRevision p)) (∅, ∅) (PR_Plugins resp) in
      (mkAmeshProvisioner (AM_src p) (AM_namespace p) (AM_name p) plugins configRevision
         (AM_connected p) (AM_ready p), true)
  end.

(** ** The receive loop's error handling *)

(** The errors on which the gRPC client is reset. *)
Definition is_reset_error (errMsg : string) : bool :=
  Contains errMsg "transport is closing" || Contains errMsg "DeadlineExceeded" || Contains errMsg "EOF".

Inductive recv_action : Type :=
| RecvStop                 (** the loop returns, the stop channel being closed *)
| RecvReset (err : error)  (** the error is sent to [resetCh] and the loop returns *)
| RecvRetry                (** the loop calls [Recv] again *)
| RecvHandle.              (** a message is handed to a goroutine *)

(** One [Recv] of [ameshProvisioner.recvLoop]: the new [connected] flag and
    what the loop does. *)
Definition amesh_recv (stopped : bool) (p : ameshProvisioner) (res : PluginsResponse + error) :
    ameshProvisioner * recv_action :=
  match res with
  | inl _ => (p, RecvHandle)
  | inr err =>
      if stopped then (p, RecvStop)
      else
        let p := mkAmeshProvisioner (AM_src p) (AM_namespace p) (AM_name p) (AM_config p)
                   (AM_configRevision p) false (AM_ready p) in
        if is_reset_error (error_text err) then (p, RecvReset err) else (p, RecvRetry)
  end.

(** ** The connection to the controller *)

Definition set_connection (connected ready : bool) (p : ameshProvisioner) : ameshProvisioner :=
  mkAmeshProvisioner (AM_src p) (AM_namespace p) (AM_name p) (AM_config p) (AM_configRevision p) connected ready.

Inductive amesh_phase : Type :=
| AmeshConnecting                       (** dialing, or waiting to dial again *)
| AmeshServing                          (** in the select on the stop and reset channels *)
| AmeshExited (err : option error).     (** [Run] has returned *)

Inductive amesh_input : Type :=
| AmeshDial (dial stream : option error)   (** the errors of the dial and of the stream *)
| AmeshStop
| AmeshReset (err : error).

(** One step of [ameshProvisioner.Run] with [run]: a failed dial is retried, a
    failed stream ends it; the stop channel is only looked at while serving. *)
Definition amesh_Run_step (st : ameshProvisioner * amesh_phase) (i : amesh_input) : ameshProvisioner * amesh_phase :=
  let '(p, phase) := st in
  match phase, i with
  | AmeshConnecting, AmeshDial (Some _) _ => (p, AmeshConnecting)
  | AmeshConnecting, AmeshDial None (Some err) => (set_connection true false p, AmeshExited (Some err))
  | AmeshConnecting, AmeshDial None None => (set_connection true true p, AmeshServing)
  | AmeshServing, AmeshStop => (p, AmeshExited None)
  | AmeshServing, AmeshReset _ => (set_connection false (AM_ready p) p, AmeshConnecting)
  | _, _ => (p, phase)
  end.

(** ** Specification of an accepted configuration set *)

(** The plugins that a list of configurations carries, later ones overriding. *)
Definition plugins_of (configs : list AmeshPluginConfig) : gmap string ApisixPlugin :=
  foldl update_plugin ∅ (configs ≫= APC_Plugins).

(** A list of plugins installs [ap] under a name: its last plugin of that name
    whose configuration decodes has the type and the configuration of [ap]. *)
Definition installs (plugins : list AmeshPlugin) (name : string) (ap : ApisixPlugin) : Prop :=
  ∃ pl, last_such (λ pl, AmeshPlugin_Name pl = name ∧ is_Some (Unmarshal_map (AmeshPlugin_Config pl))) plugins pl ∧
    AP_Type ap = AmeshPlugin_Type pl ∧ AP_Name ap = name ∧ Unmarshal_map (AmeshPlugin_Config pl) = Some (AP_Config ap).

(** The configurations that are newer than the remembered revisions. *)
Definition newer (revisionMap : gmap string string) (c : AmeshPluginConfig) : bool :=
  match revisionMap !! APC_Name c with
  | Some revision => negb (string_le (APC_Version c) revision)
  | None => true
  end.

(** ** Lemmas *)

Lemma update_config_newer revisionMap rev plugins c :
  update_config revisionMap (rev, plugins) c =
    if newer revisionMap c
    then (<[APC_Name c := APC_Version c]> rev, foldl update_plugin plugins (APC_Plugins c))
    else (rev, plugins).
Proof. unfold update_config, newer. destruct (revisionMap !! _); [by destruct (string_le _ _)|done]. Qed.

Abbreviation accepted rm := (filter (λ c, newer rm c = true)).

Lemma update_configs_eq revisionMap configs rev plugins :
  foldl (update_config revisionMap) (rev, plugins) configs =
    (foldl (λ m c, <[APC_Name c := APC_Version c]> m) rev (accepted revisionMap configs),
     foldl update_plugin plugins (accepted revisionMap configs ≫= APC_Plugins)).
Proof.
  revert rev plugins; induction configs as [|c configs IH]; intros rev plugins; [done|].
  cbn [foldl]. rewrite filter_cons, update_config_newer.
  destruct (newer revisionMap c); rewrite IH; [|done]. f_equal.
  rewrite decide_True by done. cbn [mbind list_bind]. by rewrite foldl_app.
Qed.

Lemma updatePlugins_eq p configs :
  (updatePlugins p (mkPluginsResponse None configs)).1 =
    mkAmeshProvisioner (AM_src p) (AM_namespace p) (AM_name p)
      (plugins_of (accepted (AM_configRevision p) configs))
      (foldl (λ m c, <[APC_Name c := APC_Version c]> m) ∅
         (accepted (AM_configRevision p) configs))
      (AM_connected p) (AM_ready p).
Proof. unfold updatePlugins; cbn [PR_ErrorMessage PR_Plugins]. by rewrite update_configs_eq. Qed.

Lemma string_le_refl s : string_le s s = true.
Proof. unfold string_le. pose proof (reflexivity (R := String.le) s) as Hs. unfold String.le in Hs. by destruct (String.leb s s). Qed.

Lemma accepted_empty (configs : list AmeshPluginConfig) : accepted ∅ configs = configs.
Proof.
  induction configs as [|c l IH]; [done|]. rewrite filter_cons_True; [by f_equal|].
  unfold newer. by rewrite lookup_empty.
Qed.

Definition revisions (configs : list AmeshPluginConfig) : gmap string string :=
  foldl (λ m c, <[APC_Name c := APC_Version c]> m) ∅ configs.

Lemma revisions_lookup configs c :
  NoDup (APC_Name <$> configs) → c ∈ configs → revisions configs !! APC_Name c = Some (APC_Version c).
Proof.
  unfold revisions. induction configs as [|c' l IH] using rev_ind; [by intros _ ?%elem_of_nil|].
  rewrite fmap_app, NoDup_app, foldl_app. cbn [foldl]. intros (Hnd & Hdisj & _) Hc.
  rewrite lookup_insert. apply elem_of_app in Hc as [Hc| ->%list_elem_of_singleton]; [|by rewrite decide_True].
  rewrite decide_False; [by apply IH|]. intros Heq.
  apply (Hdisj (APC_Name c)); [by apply list_elem_of_fmap_2|]. rewrite <- Heq. by left.
Qed.

(** Nothing of a set is newer than the revisions it left behind. *)
Lemma accepted_part (configs l : list AmeshPluginConfig) :
  NoDup (APC_Name <$> configs) → (∀ c, c ∈ l → c ∈ configs) → accepted (revisions configs) l = [].
Proof.
  intros Hnd Hin. induction l as [|c l IH]; [done|]. rewrite filter_cons_False.
  - apply IH. intros. apply Hin. by right.
  - unfold newer. rewrite (revisions_lookup _ c Hnd) by (apply Hin; by left). by rewrite string_le_refl.
Qed.

(** A plugin is installed when some configuration carries one of that name
    whose JSON decodes; it is one of those. *)
Lemma update_plugins_lookup m l name :
  (∀ ap, foldl update_plugin m l !! name = Some ap →
     m !! name = Some ap ∨ ∃ pl v, pl ∈ l ∧ AmeshPlugin_Name pl = name ∧ Unmarshal_map (AmeshPlugin_Config pl) = Some v ∧
       ap = mkApisixPlugin (AmeshPlugin_Type pl) name v) ∧
  (is_Some (m !! name) ∨ (∃ pl, pl ∈ l ∧ AmeshPlugin_Name pl = name ∧ is_Some (Unmarshal_map (AmeshPlugin_Config pl))) →
     is_Some (foldl update_plugin m l !! name)).
Proof.
  induction l as [|pl l [IH1 IH2]] using rev_ind.
  - split; [by left|]. intros [?|(pl & ?%elem_of_nil & _)]; done.
  - rewrite foldl_app. cbn [foldl]. unfold update_plugin at 1 3.
    destruct (Unmarshal_map (AmeshPlugin_Config pl)) as [v|] eqn:Hv.
    + split.
      * intros ap [[<- <-]|[Hne Hap]]%lookup_insert_Some.
        -- right. exists pl, v. split_and!; [apply elem_of_app; right; by left|done..].
        -- destruct (IH1 ap Hap) as [?|(pl' & v' & Hin & Hr)]; [by left|]. right. exists pl', v'.
           split; [apply elem_of_app; by left|done].
      * intros Hor. destruct (decide (AmeshPlugin_Name pl = name)) as [<-|Hne]; [by rewrite lookup_insert_eq|].
        rewrite lookup_insert_ne by done. apply IH2.
        destruct Hor as [?|(pl' & [Hin| ->%list_elem_of_singleton]%elem_of_app & Hn & Hd)]; [by left| |done].
        right. by exists pl'.
    + split.
      * intros ap Hap. destruct (IH1 ap Hap) as [?|(pl' & v' & Hin & Hr)]; [by left|]. right. exists pl', v'.
        split; [apply elem_of_app; by left|done].
      * intros Hor. apply IH2.
        destruct Hor as [?|(pl' & [Hin| ->%list_elem_of_singleton]%elem_of_app & Hn & Hd)]; [by left| |].
        -- right. by exists pl'.
        -- rewrite Hv in Hd. by destruct Hd.
Qed.

Lemma plugins_of_lookup configs name ap :
  plugins_of configs !! name = Some ap →
  ∃ c pl v, c ∈ configs ∧ pl ∈ APC_Plugins c ∧ AmeshPlugin_Name pl = name ∧
    Unmarshal_map (AmeshPlugin_Config pl) = Some v ∧ ap = mkApisixPlugin (AmeshPlugin_Type pl) name v.
Proof.
  intros Hap. apply (update_plugins_lookup ∅) in Hap as [Hap|(pl & v & Hin & Hr)]; [by rewrite lookup_empty in Hap|].
  apply list_elem_of_bind in Hin as (c & Hpl & Hc). by exists c, pl, v.
Qed.

Lemma plugins_of_is_Some configs name c pl :
  c ∈ configs → pl ∈ APC_Plugins c → AmeshPlugin_Name pl = name → is_Some (Unmarshal_map (AmeshPlugin_Config pl)) →
  is_Some (plugins_of configs !! name).
Proof.
  intros Hc Hpl Hn Hd. apply (update_plugins_lookup ∅). right. exists pl. split; [|done].
  apply list_elem_of_bind. by exists c.
Qed.

(** The fold over the plugins keeps the last one of each name that decodes. *)
Lemma update_plugins_installs plugins name ap :
  foldl update_plugin ∅ plugins !! name = Some ap ↔ installs plugins name ap.
Proof.
  unfold installs. revert ap. induction plugins as [|pl plugins IH] using rev_ind; intros ap.
  - split; [cbn [foldl]; by rewrite lookup_empty|]. by intros (pl & ?%last_such_nil & _).
  - rewrite foldl_app. cbn [foldl]. unfold update_plugin at 1. setoid_rewrite last_such_snoc.
    destruct (Unmarshal_map (AmeshPlugin_Config pl)) as [v|] eqn:Hv.
    + rewrite lookup_insert. case_decide as Hname.
      * split.
        -- intros [= <-]. exists pl. split_and!; [by left|done..].
        -- intros (pl' & [[_ ->]|[[] _]] & Ht & Hn & Hc); [|done]. rewrite Hv in Hc. destruct ap. cbn in *. congruence.
      * rewrite IH. split; intros (pl' & Hl & Hr); exists pl'; (split; [|done]); [right; split; [|done]; by intros []|].
        by destruct Hl as [[[] _]|[_ Hl]].
    + rewrite IH. split; intros (pl' & Hl & Hr); exists pl'; (split; [|done]).
      * right. split; [|done]. by intros [_ []].
      * destruct Hl as [[[_ Hs] _]|[_ Hl]]; [by destruct Hs|done].
Qed.

Lemma plugins_of_installs configs name ap :
  plugins_of configs !! name = Some ap ↔ installs (configs ≫= APC_Plugins) name ap.
Proof. apply update_plugins_installs. Qed.

(** The revision of a name is the version of its last configuration. *)
Lemma revisions_last configs name v :
  foldl (λ m c, <[APC_Name c := APC_Version c]> m) (∅ : gmap string string) configs !! name = Some v ↔
  ∃ c, last_such (λ c, APC_Name c = name) configs c ∧ APC_Version c = v.
Proof.
  revert v. induction configs as [|c configs IH] using rev_ind; intros v.
  - split; [cbn [foldl]; by rewrite lookup_empty|]. by intros (c & ?%last_such_nil & _).
  - rewrite foldl_app. cbn [foldl]. setoid_rewrite last_such_snoc. rewrite lookup_insert. case_decide as Hn.
    + split; [intros [= <-]; exists c; split; [by left|done]|]. by intros (c' & [[_ ->]|[[] _]] & <-).
    + rewrite IH. naive_solver.
Qed.

(** The plugins map is keyed by the plugins' own names. *)
Definition keyed (m : gmap string ApisixPlugin) : Prop := map_Forall (λ k p, AP_Name p = k) m.

Lemma update_plugin_keyed m pl : keyed m → keyed (update_plugin m pl).
Proof.
  intros Hm. unfold update_plugin. destruct (Unmarshal_map _); [|done].
  by apply map_Forall_insert_2.
Qed.

Lemma foldl_update_plugin_keyed m l : keyed m → keyed (foldl update_plugin m l).
Proof. revert m; induction l as [|pl l IH]; intros m Hm; [done|]. apply IH. by apply update_plugin_keyed. Qed.

Lemma plugins_of_keyed configs : keyed (plugins_of configs).
Proof. apply foldl_update_plugin_keyed, map_Forall_empty. Qed.

Lemma updatePlugins_keyed p resp : keyed (AM_config p) → keyed (AM_config (updatePlugins p resp).1).
Proof.
  intros Hk. destruct resp as [[e|] configs]; [done|]. rewrite updatePlugins_eq. apply plugins_of_keyed.
Qed.

(** ** Properties *)

(** C23. A response installs a plugin of a name exactly when a configuration of
    the response that is newer than its remembered revision, or has none,
    carries one whose JSON decodes; the last of these plugins, in the order of
    the response, gives the type and the configuration.  Everything installed
    before is dropped, and so are the plugins of configurations that are not
    newer.  The remembered revisions become the versions of the newer
    configurations, those of all others are forgotten; nothing else changes and
    an update event is sent.  A response with an error message changes nothing
    and sends no event. *)
Theorem updatePlugins_spec p configs e :
  let newer_configs := filter (λ c, newer (AM_configRevision p) c = true) configs in
  let p' := (updatePlugins p (mkPluginsResponse None configs)).1 in
  (∀ name ap, GetPlugins p' !! name = Some ap ↔ installs (newer_configs ≫= APC_Plugins) name ap) ∧
  (∀ name v, AM_configRevision p' !! name = Some v ↔
     ∃ c, last_such (λ c, APC_Name c = name) newer_configs c ∧ APC_Version c = v) ∧
  (AM_src p', AM_namespace p', AM_name p', AM_connected p', AM_ready p') =
    (AM_src p, AM_namespace p, AM_name p, AM_connected p, AM_ready p) ∧
  (updatePlugins p (mkPluginsResponse None configs)).2 = true ∧
  updatePlugins p (mkPluginsResponse (Some e) configs) = (p, false).
Proof.
  intros newer_configs p'. subst newer_configs p'. rewrite updatePlugins_eq. split_and!; [|apply revisions_last|done| |done].
  - intros name ap. apply plugins_of_installs.
  - unfold updatePlugins; cbn [PR_ErrorMessage PR_Plugins]. by rewrite update_configs_eq.
Qed.

(** Re-sending a configuration set unchanged removes every plugin: the
    versions are not newer, and neither the plugins nor the revisions of such
    configurations are carried over. *)
Lemma updatePlugins_resend p configs :
  AM_configRevision p = ∅ → NoDup (APC_Name <$> configs) →
  let p1 := (updatePlugins p (mkPluginsResponse None configs)).1 in
  let p2 := (updatePlugins p1 (mkPluginsResponse None configs)).1 in
  GetPlugins p1 = plugins_of configs ∧ GetPlugins p2 = ∅ ∧ AM_configRevision p2 = ∅.
Proof.
  intros Hempty Hnd p1 p2. subst p1 p2. rewrite !updatePlugins_eq. cbn [AM_configRevision AM_config GetPlugins].
  rewrite Hempty, accepted_empty.
  change (foldl _ ∅ configs) with (revisions configs). by rewrite accepted_part.
Qed.

(** A reconnection loses the plugins: when the controller's stream is
    reset and the agent connects again, however many dials that takes, the
    controller sends the unchanged configurations anew and the agent, which
    kept their revisions, installs none of them; it reports to be connected
    and ready. *)
Lemma reconnect_drops_plugins p configs err dials :
  AM_configRevision p = ∅ → NoDup (APC_Name <$> configs) →
  let p1 := (updatePlugins p (mkPluginsResponse None configs)).1 in
  let '(p2, phase) := foldl amesh_Run_step (p1, AmeshServing)
    (AmeshReset err :: map (λ e, AmeshDial (Some e) None) dials ++ [AmeshDial None None]) in
  let p3 := (updatePlugins p2 (mkPluginsResponse None configs)).1 in
  GetPlugins p1 = plugins_of configs ∧ phase = AmeshServing ∧
  GetPlugins p3 = ∅ ∧ AM_connected p3 = true ∧ AM_ready p3 = true.
Proof.
  intros Hempty Hnd p1. cbn [foldl amesh_Run_step]. rewrite foldl_app.
  assert (∀ q, foldl amesh_Run_step (q, AmeshConnecting) (map (λ e, AmeshDial (Some e) None) dials) = (q, AmeshConnecting)) as ->.
  { induction dials as [|e dials IH]; [done|]. apply IH. }
  cbn [foldl amesh_Run_step]. destruct (updatePlugins_resend p configs Hempty Hnd) as (H1 & H2 & _).
  fold p1 in H1, H2. rewrite updatePlugins_eq in H2 |- *. by split_and!.
Qed.

(** Versions are compared as strings: after revision "9", the configuration
    with version "10" is taken for an older one and its plugins disappear. *)
Lemma updatePlugins_version_order p c :
  AM_configRevision p !! APC_Name c = Some "9" → APC_Version c = "10" →
  GetPlugins (updatePlugins p (mkPluginsResponse None [c])).1 = ∅.
Proof.
  intros Hrev Hver. rewrite updatePlugins_eq. unfold GetPlugins; cbn [AM_config].
  rewrite filter_cons_False; [done|].
  unfold newer. by rewrite Hrev, Hver.
Qed.

(** An update of one configuration costs all the others: when one
    configuration of a set is sent again with a newer version (as strings) and
    the others unchanged, as the controller does, only the plugins of the
    updated one remain. *)
Lemma update_drops_other_configs p l1 l2 c c' :
  AM_configRevision p = ∅ → NoDup (APC_Name <$> l1 ++ c :: l2) →
  APC_Name c' = APC_Name c → string_le (APC_Version c') (APC_Version c) = false →
  let p1 := (updatePlugins p (mkPluginsResponse None (l1 ++ c :: l2))).1 in
  let p2 := (updatePlugins p1 (mkPluginsResponse None (l1 ++ c' :: l2))).1 in
  GetPlugins p1 = plugins_of (l1 ++ c :: l2) ∧ GetPlugins p2 = plugins_of [c'] ∧
  AM_configRevision p2 = {[APC_Name c' := APC_Version c']}.
Proof.
  intros Hempty Hnd Hname Hver p1 p2. subst p1 p2. rewrite !updatePlugins_eq. cbn [AM_configRevision AM_config GetPlugins].
  rewrite Hempty, accepted_empty.
  change (foldl _ ∅ (l1 ++ c :: l2)) with (revisions (l1 ++ c :: l2)).
  assert (accepted (revisions (l1 ++ c :: l2)) (l1 ++ c' :: l2) = [c']) as ->; [|done].
  rewrite filter_app, accepted_part by (done || intros; apply elem_of_app; by left). cbn [app].
  rewrite filter_cons_True.
  - rewrite accepted_part; [done|done|]. intros d Hd. apply elem_of_app. right. by right.
  - unfold newer. rewrite Hname, (revisions_lookup _ c) by (done || apply elem_of_app; right; by left).
    by rewrite Hver.
Qed.

(** ** Witnesses *)

Definition example_config : AmeshPluginConfig :=
  mkAmeshPluginConfig "ns/conf" [mkAmeshPlugin "" "limit" (json_text "{'n':1}")] "10".
Definition example_provisioner (rev : gmap string string) : ameshProvisioner :=
  mkAmeshProvisioner "controller:15810" "ns" "pod" ∅ rev true true.

(** A second configuration, and its next version. *)
Definition other_config (version : string) : AmeshPluginConfig :=
  mkAmeshPluginConfig "ns/other" [mkAmeshPlugin "" "key-auth" "{}"] version.

Lemma update_drops_other_configs_witness :
  let p1 := (updatePlugins (example_provisioner ∅) (mkPluginsResponse None [example_config; other_config "11"])).1 in
  let p2 := (updatePlugins p1 (mkPluginsResponse None [example_config; other_config "12"])).1 in
  is_Some (GetPlugins p1 !! "limit") ∧
  GetPlugins p2 = plugins_of [other_config "12"] ∧ GetPlugins p2 !! "limit" = None.
Proof.
  destruct (update_drops_other_configs (example_provisioner ∅) [example_config] [] (other_config "11") (other_config "12"))
    as (H1 & H2 & _); [reflexivity|apply (bool_decide_unpack _); vm_compute; exact I|reflexivity|reflexivity|].
  cbn [app] in H1, H2. intros p1 p2. subst p2 p1. rewrite H1, H2. split_and!.
  - apply (plugins_of_is_Some _ _ example_config (mkAmeshPlugin "" "limit" (json_text "{'n':1}"))); [by left|by left|done|].
    apply (bool_decide_unpack _). vm_compute. exact I.
  - reflexivity.
  - vm_compute. reflexivity.
Defined.

Lemma reconnect_drops_plugins_witness :
  let p1 := (updatePlugins (example_provisioner ∅) (mkPluginsResponse None [example_config])).1 in
  let p2 := (foldl amesh_Run_step (p1, AmeshServing)
    [AmeshReset (Errorf "EOF"); AmeshDial (Some (Errorf "refused")) None; AmeshDial None None]).1 in
  GetPlugins (updatePlugins p2 (mkPluginsResponse None [example_config])).1 = ∅.
Proof.
  exact (proj1 (proj2 (proj2 (reconnect_drops_plugins (example_provisioner ∅) [example_config] (Errorf "EOF")
    [Errorf "refused"] eq_refl (NoDup_singleton _))))).
Defined.
