(* ===== verification/RouteTranslator.v ===== *)
(** * Route translation (src/pkg/amesh/provisioner/route_translator.go)

    A route configuration becomes a list of APISIX routes.  The functions
    return [outcome]s: the nil dereferences and index errors that a malformed
    message causes are panics.  [amesh] is the provisioner's [p.amesh], [None]
    when no Amesh source is configured. *)

From S2P Require Import Prelude GoStrings GoNum Json Apisix Xds StringSet AmeshPlugins.
From Stdlib Require Import SpecFloat.

Definition httpConnectManagerV3 : string :=
  "type.googleapis.com/envoy.extensions.filters.network.http_connection_manager.v3.HttpConnectionManager".
Definition httpFaultV3 : string := "type.googleapis.com/envoy.extensions.filters.http.fault.v3.HTTPFault".
Definition defaultRoutePriority : Z := 999.

Definition AmeshPluginConfigTypePreRequest : string := "pre-req".
Definition AmeshPluginConfigTypePostRequest : string := "post-req".

(** ** Match conditions *)

Definition type_name {A} (name : A → string) (o : option A) : string :=
  match o with None => "<nil>" | Some a => name a end.

Definition getStringMatchValue (matcher : StringMatcher) : string + error :=
  match SM_MatchPattern matcher with
  | Some (StringMatcher_Exact s) => inl ("^" +:+ s +:+ "$")
  | Some (StringMatcher_Contains s) => inl s
  | Some (StringMatcher_Prefix s) => inl ("^" +:+ s)
  | Some (StringMatcher_Suffix s) => inl (s +:+ "$")
  | Some (StringMatcher_SafeRegex regex) => inl regex
  | None => inr (Errorf "unknown StringMatcher type <nil>")
  end.

Definition getClusterName (xdsRoute : XRoute) : outcome (string + error) :=
  match XRoute_GetRoute xdsRoute with
  | None =>
      Ret (inr (Errorf ("unsupported route action type " +:+
        type_name (λ a, match a with Route_Route _ => "*routev3.Route_Route" | Route_OtherAction t => t end)
          (XRoute_Action xdsRoute))))
  | Some route =>
      match RA_ClusterSpecifier route with
      | Some (RouteAction_Cluster name) => Ret (inl name)
      | Some (RouteAction_WeightedClusters clusters) =>
          (** [clusters[len(clusters)-1].Name] *)
          match last clusters with
          | None => Panic "index out of range [-1]"
          | Some c => Ret (inl (WC_Name c))
          end
      | Some (RouteAction_OtherCluster t) => Ret (inr (Errorf ("unsupported cluster specifier type " +:+ t)))
      | None => Ret (inr (Errorf "unsupported cluster specifier type <nil>"))
      end
  end.

Definition RM_GetPathSpecifier (m : option RouteMatch) : option PathSpecifier := m ≫= RM_PathSpecifier.

Definition getURL (route : XRoute) : string + error :=
  match RM_GetPathSpecifier (XRoute_Match route) with
  | Some (RouteMatch_Path path) => inl path
  | Some (RouteMatch_Prefix prefix) => inl (prefix +:+ "*")
  | Some (RouteMatch_OtherPath t) => inr (Errorf ("unsupported path specifier type " +:+ t))
  | None => inr (Errorf "unsupported path specifier type <nil>")
  end.

(** The variable of one query parameter; without a specifier it is the nil [Var]. *)
Definition parameter_var (param : QueryParameterMatcher) : Var + error :=
  let name := "arg_" +:+ QPM_Name param in
  match QPM_Specifier param with
  | Some (QueryParameterMatcher_PresentMatch _) => inl [VarStr name; VarStr "!"; VarStr "~~"; VarStr "^$"]
  | Some (QueryParameterMatcher_StringMatch m) =>
      match getStringMatchValue m with
      | inr err => inr err
      | inl value => inl [VarStr name; VarStr (if SM_IgnoreCase m then "~*" else "~~"); VarStr value]
      end
  | None => inl []
  end.

(** Loops that stop at the first error. *)
Fixpoint collect {A B} (f : A → B + error) (l : list A) : list B + error :=
  match l with
  | [] => inl []
  | x :: l => match f x with
              | inr err => inr err
              | inl y => match collect f l with inr err => inr err | inl ys => inl (y :: ys) end
              end
  end.

Definition RM_GetQueryParameters (m : option RouteMatch) : list QueryParameterMatcher :=
  match m with Some m => RM_QueryParameters m | None => [] end.
Definition RM_GetHeaders (m : option RouteMatch) : list HeaderMatcher :=
  match m with Some m => RM_Headers m | None => [] end.

Definition getParametersMatchVars (route : XRoute) : list Var + error :=
  collect parameter_var (RM_GetQueryParameters (XRoute_Match route)).

Definition header_name (name : string) : string :=
  if bool_decide (name = ":method") then "request_method"
  else if bool_decide (name = ":authority") then "http_host"
  else "http_" +:+ ReplaceAll (ToLower name) "-" "_".

Definition header_value (spec : option HeaderMatchSpecifier) : string + error :=
  match spec with
  | Some (HeaderMatcher_StringMatch m) => getStringMatchValue m
  | Some (HeaderMatcher_ContainsMatch s) => inl s
  | Some (HeaderMatcher_ExactMatch s) => inl ("^" +:+ s +:+ "$")
  | Some (HeaderMatcher_PrefixMatch s) => inl ("^" +:+ s)
  | Some (HeaderMatcher_PresentMatch _) => inl ""
  | Some (HeaderMatcher_SafeRegexMatch regex) => inl regex
  | Some (HeaderMatcher_SuffixMatch s) => inl (s +:+ "$")
  | Some (HeaderMatcher_Other t) => inr (Errorf ("unexpected header matcher type " +:+ t))
  | None => inr (Errorf "unexpected header matcher type <nil>")
  end.

Definition header_var (header : HeaderMatcher) : Var + error :=
  let name := header_name (HM_Name header) in
  match header_value (HM_Specifier header) with
  | inr err => inr err
  | inl value =>
      inl (if HM_InvertMatch header then [VarStr name; VarStr "!"; VarStr "~~"; VarStr value]
           else [VarStr name; VarStr "~~"; VarStr value])
  end.

Definition getHeadersMatchVars (route : XRoute) : list Var + error :=
  collect header_var (RM_GetHeaders (XRoute_Match route)).

(** ** Percentages (uint32) *)

Definition convertPercent (percent : option FractionalPercent) : Z :=
  match percent with
  | None => 0
  | Some p =>
      let percentage :=
        if Z.eqb (FP_Denominator p) FractionalPercent_MILLION then FP_Numerator p / 10000
        else if Z.eqb (FP_Denominator p) FractionalPercent_TEN_THOUSAND then FP_Numerator p / 100
        else if Z.eqb (FP_Denominator p) FractionalPercent_HUNDRED then FP_Numerator p
        else 0 in
      if (100 <? percentage)%Z then 100 else percentage
  end%Z.

Definition convertRuntimePercent (percent : option RuntimeFractionalPercent) : Z :=
  match percent with None => 0%Z | Some p => convertPercent (RFP_DefaultValue p) end.

(** ** Plugins *)

Section Translator.
Context `{GoRange} `{XdsLib}.

(** One plugin of the controller: [acc] is the route's plugins, the pre-request
    and the post-request external plugins. *)
Definition patch_plugin (acc : gmap string plugin * list ApisixExtPlugin * list ApisixExtPlugin)
    (kv : string * ApisixPlugin) : gmap string plugin * list ApisixExtPlugin * list ApisixExtPlugin :=
  let '(plugins, preReq, postReq) := acc in
  let p := kv.2 in
  if bool_decide (AP_Type p = "") then (<[AP_Name p := PlConfig (AP_Config p)]> plugins, preReq, postReq)
  else if bool_decide (AP_Type p = AmeshPluginConfigTypePreRequest) then
    (plugins, preReq ++ [mkApisixExtPlugin (AP_Name p) (AP_Config p)], postReq)
  else if bool_decide (AP_Type p = AmeshPluginConfigTypePostRequest) then
    (plugins, preReq, postReq ++ [mkApisixExtPlugin (AP_Name p) (AP_Config p)])
  else acc.

(** The first loop deletes the plugins the controller does not know. *)
Definition drop_unknown (seed : string) (ameshPlugins : gmap string ApisixPlugin)
    (plugins : gmap string plugin) : gmap string plugin :=
  foldl (λ plugins kv, match ameshPlugins !! kv.1 with
                       | Some _ => plugins
                       | None => delete kv.1 plugins
                       end) plugins (range seed plugins).

Definition patch_plugins (seed : string) (ameshPlugins : gmap string ApisixPlugin)
    (plugins : gmap string plugin) : gmap string plugin :=
  let plugins := drop_unknown ("patch delete " +:+ seed) ameshPlugins plugins in
  let '(plugins, preReq, postReq) :=
    foldl patch_plugin (plugins, [], []) (range ("patch add " +:+ seed) ameshPlugins) in
  let plugins := if empty_list preReq then plugins
    else <["ext-plugin-pre-req" := PlExtPlugin (mkApisixExtPluginConfig preReq)]> plugins in
  if empty_list postReq then plugins
  else <["ext-plugin-post-req" := PlExtPlugin (mkApisixExtPluginConfig postReq)]> plugins.

Definition patchAmeshPlugins (amesh : option ameshProvisioner) (route : Route) : outcome Route :=
  am ← deref "nil pointer dereference: p.amesh" amesh;
  Ret (set_Route_Plugins (patch_plugins (Route_Id route) (GetPlugins am) (Route_Plugins route)) route).

(** The fault-injection plugin of an HTTPFault; [None] on an unsupported abort
    or delay (the [continue]s). *)
Definition fault_abort (a : option FaultAbort) : option (option FaultInjectionAbort) :=
  match a with
  | None => Some None
  | Some a =>
      match FA_ErrorType a with
      | Some (FaultAbort_HttpStatus status) =>
          Some (Some (mkFaultInjectionAbort status "" (convertPercent (FA_Percentage a)) []))
      | _ => None
      end
  end.

Definition fault_delay (d : option FaultDelay) : option (option FaultInjectionDelay) :=
  match d with
  | None => Some None
  | Some d =>
      match FD_Secifier d with
      | Some (FaultDelay_FixedDelay dur) =>
          Some (Some (mkFaultInjectionDelay (Duration_Seconds dur) (convertPercent (FD_Percentage d)) []))
      | _ => None
      end
  end.

Definition fault_plugin (fault : HTTPFault) : option FaultInjection :=
  abort ← fault_abort (HF_Abort fault);
  delay ← fault_delay (HF_Delay fault);
  Some (mkFaultInjection abort delay).

(** One per-route filter configuration. *)
Definition translate_filter (plugins : gmap string plugin) (kv : string * Any) : gmap string plugin :=
  let '(filterName, data) := kv in
  if bool_decide (filterName = wellknown_Fault) then
    if bool_decide (Any_TypeUrl data = httpFaultV3) then
      match unmarshal_HTTPFault data with
      | inr _ => plugins
      | inl fault =>
          match fault_plugin fault with
          | None => plugins
          | Some p => <[PluginFaultInjection := PlFaultInjection p]> plugins
          end
      end
    else plugins
  else plugins.

Definition translateRouteFilters (xdsRoute : XRoute) (apisixRoute : Route) : Route :=
  set_Route_Plugins
    (foldl translate_filter (Route_Plugins apisixRoute)
       (range ("filters " +:+ Route_Id apisixRoute) (XRoute_TypedPerFilterConfig xdsRoute))) apisixRoute.

(** The weighted upstreams: the last cluster is the route's own upstream and
    carries no upstream id. *)
Fixpoint weighted_upstreams (clusters : list WeightedCluster) : outcome (list TrafficSplitWeightedUpstreams) :=
  match clusters with
  | [] => Ret []
  | c :: rest =>
      w ← deref "nil pointer dereference: WeightedCluster.Weight" (WC_Weight c);
      ws ← weighted_upstreams rest;
      Ret (mkTrafficSplitWeightedUpstreams (if empty_list rest then "" else GenID (WC_Name c)) w :: ws)
  end.

Definition translateRouteWeightedClusters (route : RouteAction) (apisixRoute : Route) : outcome Route :=
  match RA_ClusterSpecifier route with
  | Some (RouteAction_WeightedClusters clusters) =>
      weighted ← weighted_upstreams clusters;
      Ret (set_Route_Plugins
        (<[PluginTrafficSplit := PlTrafficSplit (mkTrafficSplit [mkTrafficSplitRule [] weighted])]>
           (Route_Plugins apisixRoute)) apisixRoute)
  | _ => Ret apisixRoute
  end.

Definition translateRoutePlugins (xdsRoute : XRoute) (apisixRoute : Route) : outcome Route :=
  match XRoute_GetRoute xdsRoute with
  | None => Ret apisixRoute
  | Some route => translateRouteWeightedClusters route apisixRoute
  end.

(** [translateRouteMirror] (its call is commented out in the source). *)
Definition translateRouteMirror (upstreams : gmap string Upstream) (route : RouteAction)
    (apisixRoute : Route) : Route :=
  match RA_RequestMirrorPolicies route with
  | [] => apisixRoute
  | mirror :: _ =>
      let cluster := RMP_Cluster mirror in
      let percent := convertRuntimePercent (RMP_RuntimeFraction mirror) in
      let percent := if (percent <=? 0)%Z then 100%Z else percent in
      let percentage := float32_div (float32_of_Z percent) (float32_of_Z 100) in
      let host := match upstreams !! cluster with
        | Some upstream =>
            match Upstream_Nodes upstream with
            | [] => GenID cluster
            | n :: _ => Upstream_Scheme upstream +:+ "://" +:+ Node_Host n
            end
        | None => GenID cluster
        end in
      set_Route_Plugins
        (<[PluginProxyMirror := PlProxyMirror (mkProxyMirror host "" percentage)]> (Route_Plugins apisixRoute))
        apisixRoute
  end.

(** ** Virtual hosts *)

(** The loop over the domains: "*" empties the set and stops. *)
Fixpoint host_set (domains : list string) (hostSet : StringSet) : StringSet :=
  match domains with
  | [] => hostSet
  | domain :: rest =>
      if bool_decide (domain = "*") then ∅
      else host_set rest (Add hostSet (before_byte domain ":"))
  end.

Definition vhost_hosts (vhost : VirtualHost) : list string :=
  OrderedStrings ("hosts " +:+ VH_Name vhost) (host_set (VH_Domains vhost) ∅).

Definition route_name (routeName vhostName name : string) : string :=
  ReplaceAll (name +:+ "#" +:+ vhostName +:+ "#" +:+ routeName) ".svc.cluster.local" "".

Definition route_priority (hosts : list string) (name : string) : Z :=
  let priority := defaultRoutePriority in
  let priority := if empty_list hosts then 0%Z else priority in
  if bool_decide (name = "allow_any") then 0%Z else priority.

(** The conditions that go into the route id. *)
Definition match_conditions (uri : string) (sensitive : option bool) (vars : list Var) : string :=
  let set := foldl (λ set v, Add set (ToComparableString v)) ∅ vars in
  let condStr := Join (OrderedStrings ("conditions " +:+ uri) set) "-" in
  uri +:+ "-" +:+ bool_value_text sensitive +:+ "-" +:+ condStr.

Definition route_timeout (xdsRoute : XRoute) : option Timeout :=
  route ← XRoute_GetRoute xdsRoute;
  d ← RA_Timeout route;
  if (0 <? Duration_Seconds d)%Z then
    let t := float64_of_Z (Duration_Seconds d) in Some (mkTimeout t t t)
  else None.

(** The route built before plugins are added. *)
Definition base_route (hosts : list string) (name uri cluster matchConditions desc : string)
    (priority : Z) (vars : list Var) (timeout : option Timeout) : Route := {|
  Route_Uris := [uri];
  Route_Name := name;
  Route_Id := GenID name +:+ "_" +:+ GenID matchConditions;
  Route_Desc := desc;
  Route_Priority := priority;
  Route_Methods := [];
  Route_Hosts := hosts;
  Route_RemoteAddrs := [];
  Route_Vars := vars;
  Route_Plugins := ∅;
  Route_ServiceId := "";
  Route_UpstreamId := GenID cluster;
  Route_Status := RouteEnable;
  Route_Timeout := timeout;
  Route_EnableWebsocket := false;
  Route_Labels := ∅;
  Route_CreateTime := 0;
  Route_UpdateTime := 0
|}.

(** What one iteration of the loop over the routes does: skip a
    case-insensitive route, record an error, or append a route. *)
Inductive route_result : Type :=
| RouteIgnored
| RouteError (err : error)
| RouteOk (r : Route).

Definition insensitive (m : RouteMatch) : bool :=
  match RM_CaseSensitive m with Some b => negb b | None => false end.

Definition translate_route (amesh : option ameshProvisioner) (hosts : list string)
    (routeName : string) (vhost : VirtualHost) (route : XRoute) : outcome route_result :=
  m ← deref "nil pointer dereference: Route.Match" (XRoute_Match route);
  if insensitive m then Ret RouteIgnored else
  cluster_res ← getClusterName route;
  match cluster_res with
  | inr err => Ret (RouteError (multierror_Append err))
  | inl cluster =>
  match getURL route with
  | inr err => Ret (RouteError (multierror_Append err))
  | inl uri =>
  let name := if bool_decide (XRoute_Name route = "") then "anon" else XRoute_Name route in
  let priority := route_priority hosts name in
  match getParametersMatchVars route with
  | inr err => Ret (RouteError (multierror_Append err))
  | inl queryVars =>
  match getHeadersMatchVars route with
  | inr err => Ret (RouteError (multierror_Append err))
  | inl headerVars =>
  let vars := headerVars ++ queryVars in
  let name := route_name routeName (VH_Name vhost) name in
  let desc := "GENERATED_BY_AMESH: VIRTUAL_HOST: " +:+ VH_Name vhost +:+ ", NAME: " +:+
    XRoute_Name route +:+ ", CLUSTER: " +:+ cluster in
  let r := base_route hosts name uri cluster
    (match_conditions uri (RM_CaseSensitive m) vars) desc priority vars (route_timeout route) in
  r ← patchAmeshPlugins amesh r;
  let r := translateRouteFilters route r in
  let r := set_Route_Plugins (<[PluginPrometheus := PlPrometheus (mkPrometheus true)]> (Route_Plugins r)) r in
  r ← translateRoutePlugins route r;
  Ret (RouteOk r)
  end end end end.

(** The loop: [errors] is overwritten by each error. *)
Definition vhost_step (amesh : option ameshProvisioner) (hosts : list string) (routeName : string)
    (vhost : VirtualHost) (acc : list Route * option error) (route : XRoute) :
    outcome (list Route * option error) :=
  let '(routes, errors) := acc in
  res ← translate_route amesh hosts routeName vhost route;
  Ret (match res with
       | RouteIgnored => (routes, errors)
       | RouteError err => (routes, Some err)
       | RouteOk r => (routes ++ [r], errors)
       end).

Definition translateVirtualHost (amesh : option ameshProvisioner) (routeName : string)
    (vhost : VirtualHost) : outcome (list Route * option error) :=
  let routeName := if bool_decide (routeName = "") then "anon" else routeName in
  go_foldl (vhost_step amesh (vhost_hosts vhost) routeName vhost) ([], None) (VH_Routes vhost).

(** ** Route configurations *)

(** [patchRoutesWithOriginalDestination]: its body is commented out. *)
Definition patchRoutesWithOriginalDestination (routes : list Route) (origDst : string) : list Route := routes.

(** The loop over the virtual hosts stops at the first error. *)
Fixpoint translate_vhosts (amesh : option ameshProvisioner) (name : string) (routes : list Route)
    (vhosts : list VirtualHost) : outcome (list Route + error) :=
  match vhosts with
  | [] => Ret (inl routes)
  | vhost :: rest =>
      '(partial, err) ← translateVirtualHost amesh name vhost;
      match err with
      | Some err => Ret (inr err)
      | None => translate_vhosts amesh name (routes ++ partial) rest
      end
  end.

(** [routeOriginalDest] may be nil. *)
Definition TranslateRouteConfiguration (amesh : option ameshProvisioner) (r : RouteConfiguration)
    (routeOriginalDest : option (gmap string string)) : outcome (list Route + error) :=
  res ← translate_vhosts amesh (RC_Name r) [] (RC_VirtualHosts r);
  match res with
  | inr err => Ret (inr err)
  | inl routes =>
      Ret (inl (match routeOriginalDest with
                | None => routes
                | Some m => match m !! RC_Name r with
                            | Some origDst => patchRoutesWithOriginalDestination routes origDst
                            | None => routes
                            end
                end))
  end.

(** ** Listeners *)

(** One network filter: the RDS names and static configurations so far. *)
Definition listener_filter (acc : list string * list RouteConfiguration) (f : NetFilter) :
    (list string * list RouteConfiguration) + error :=
  let '(rdsNames, staticConfigs) := acc in
  if bool_decide (NF_Name f = wellknown_HTTPConnectionManager) then
    match NF_TypedConfig f with
    | Some any =>
        if bool_decide (Any_TypeUrl any = httpConnectManagerV3) then
          match unmarshal_HttpConnectionManager any with
          | inr err => inr err
          | inl hcm =>
              match HCM_RouteSpecifier hcm with
              | Some (HCM_Rds name) => inl (rdsNames ++ [name], staticConfigs)
              | Some (HCM_RouteConfig rc) => inl (rdsNames, staticConfigs ++ [rc])
              | _ => inl acc
              end
          end
        else inl acc
    | None => inl acc
    end
  else inl acc.

Fixpoint listener_filters (acc : list string * list RouteConfiguration) (fs : list NetFilter) :
    (list string * list RouteConfiguration) + error :=
  match fs with
  | [] => inl acc
  | f :: fs => match listener_filter acc f with inr err => inr err | inl acc => listener_filters acc fs end
  end.

Definition GetRoutesFromListener (l : Listener) : (list string * list RouteConfiguration) + error :=
  listener_filters ([], []) (concat (map FC_Filters (Listener_FilterChains l))).

End Translator.
