(* ===== verification/RouteSpec.v ===== *)
(** * What the route translation does

    Lemmas and properties of RouteTranslator.v: the plugins that a route ends up
    with, the hosts and the identity of a route, the traffic split, the error
    handling of a route configuration, and the absence of panics. *)

From S2P Require Import Prelude GoStrings GoNum Json Apisix Xds StringSet AmeshPlugins RouteTranslator.
From Stdlib Require Import SpecFloat.

(** ** Plugins of the controller *)

Section Plugins.
Context `{GoRange} `{XdsLib}.

Lemma drop_unknown_lookup seed am plugins k :
  drop_unknown seed am plugins !! k = match am !! k with Some _ => plugins !! k | None => None end.
Proof.
  unfold drop_unknown.
  assert (∀ (l : list (string * plugin)) (m : gmap string plugin),
    foldl (λ (plugins : gmap string plugin) kv, match am !! kv.1 with Some _ => plugins | None => delete kv.1 plugins end) m l !! k
    = match am !! k with Some _ => m !! k | None => if decide (k ∈ l.*1) then None else m !! k end) as Hfold.
  { induction l as [|[k' x] l IH]; intros m; [by destruct (am !! k)|]. cbn [foldl fst].
    rewrite IH. destruct (am !! k) eqn:Hk.
    - destruct (am !! k') eqn:Hk'; [done|]. rewrite lookup_delete_ne; [done|congruence].
    - rewrite fmap_cons. cbn [fst]. destruct (decide (k = k')) as [<-|Hne].
      + rewrite Hk, lookup_delete_eq. rewrite (decide_True (P := k ∈ k :: _)) by (by left). by case_decide.
      + assert ((match am !! k' with Some _ => m | None => delete k' m end) !! k = m !! k) as ->.
        { destruct (am !! k'); [done|]. by rewrite lookup_delete_ne. }
        apply decide_ext. rewrite elem_of_cons. naive_solver. }
  rewrite Hfold. destruct (am !! k); [done|]. case_decide as Hin; [done|].
  apply eq_None_not_Some. intros [x Hx]. apply Hin.
  apply list_elem_of_fmap. exists (k, x). split; [done|]. by apply elem_of_range.
Qed.

Definition option_list {A} (o : option A) : list A := match o with Some a => [a] | None => [] end.

(** The external plugins of a type, in the order of the iteration. *)
Definition ext_of (type : string) (kv : string * ApisixPlugin) : option ApisixExtPlugin :=
  if bool_decide (AP_Type kv.2 = type) then Some (mkApisixExtPlugin (AP_Name kv.2) (AP_Config kv.2)) else None.

Definition plain_insert (plugins : gmap string plugin) (kv : string * ApisixPlugin) : gmap string plugin :=
  if bool_decide (AP_Type kv.2 = "") then <[AP_Name kv.2 := PlConfig (AP_Config kv.2)]> plugins else plugins.

Lemma patch_plugin_eq plugins pre post kv :
  patch_plugin (plugins, pre, post) kv =
    (plain_insert plugins kv, pre ++ option_list (ext_of AmeshPluginConfigTypePreRequest kv),
     post ++ option_list (ext_of AmeshPluginConfigTypePostRequest kv)).
Proof.
  unfold patch_plugin, plain_insert, ext_of.
  destruct (decide (AP_Type kv.2 = "")) as [->|Hty]; [by rewrite !app_nil_r|].
  rewrite (bool_decide_false (AP_Type kv.2 = "")) by done.
  destruct (decide (AP_Type kv.2 = AmeshPluginConfigTypePreRequest)) as [->|Hpre]; [by rewrite !app_nil_r|].
  rewrite (bool_decide_false (AP_Type kv.2 = AmeshPluginConfigTypePreRequest)) by done.
  case_bool_decide; by rewrite !app_nil_r.
Qed.

Lemma patch_plugin_fold l plugins pre post :
  foldl patch_plugin (plugins, pre, post) l =
    (foldl plain_insert plugins l, pre ++ omap (ext_of AmeshPluginConfigTypePreRequest) l,
     post ++ omap (ext_of AmeshPluginConfigTypePostRequest) l).
Proof.
  revert plugins pre post; induction l as [|kv l IH]; intros plugins pre post.
  { cbn. by rewrite !app_nil_r. }
  cbn [foldl]. rewrite patch_plugin_eq, IH, <- !app_assoc. f_equal; [f_equal|]; f_equal;
    cbn [omap list_omap]; by destruct (ext_of _ kv).
Qed.

(** A map keyed by the plugins' names, patched one plugin after the other. *)
Lemma plain_insert_lookup (am : gmap string ApisixPlugin) (l : list (string * ApisixPlugin)) plugins k :
  NoDup l.*1 → (∀ kv, kv ∈ l → AP_Name kv.2 = kv.1) →
  foldl plain_insert plugins l !! k =
    match list_to_map (M := gmap string ApisixPlugin) l !! k with
    | Some p => if bool_decide (AP_Type p = "") then Some (PlConfig (AP_Config p)) else plugins !! k
    | None => plugins !! k
    end.
Proof.
  revert plugins; induction l as [|[k' p] l IH]; intros plugins Hnd Hkey; [by rewrite list_to_map_nil, lookup_empty|].
  rewrite fmap_cons, NoDup_cons in Hnd. destruct Hnd as [Hnotin Hnd]. cbn [fst] in Hnotin.
  rewrite list_to_map_cons. cbn [foldl fst snd]. rewrite IH by (try done; intros; apply Hkey; by right).
  assert (AP_Name p = k') as Hname by (apply (Hkey (k', p)); by left).
  unfold plain_insert. cbn [snd]. rewrite Hname.
  destruct (decide (k = k')) as [->|Hne].
  - rewrite lookup_insert_eq, (not_elem_of_list_to_map_1 l k') by done.
    case_bool_decide; [by rewrite lookup_insert_eq|done].
  - rewrite lookup_insert_ne by done.
    assert ((if bool_decide (AP_Type p = "") then <[k' := PlConfig (AP_Config p)]> plugins else plugins) !! k
            = plugins !! k) as -> by (case_bool_decide; [by rewrite lookup_insert_ne|done]).
    done.
Qed.

Lemma list_to_map_range {A} seed (m : gmap string A) : list_to_map (range seed m) = m.
Proof.
  rewrite (list_to_map_proper (range seed m) (map_to_list m)); [apply list_to_map_to_list|auto with amesh|].
  apply range_perm.
Qed.

Definition ext_plugins (type seed : string) (am : gmap string ApisixPlugin) : list ApisixExtPlugin :=
  omap (ext_of type) (range ("patch add " +:+ seed) am).

Definition with_ext (name : string) (conf : list ApisixExtPlugin) (plugins : gmap string plugin) :=
  if empty_list conf then plugins else <[name := PlExtPlugin (mkApisixExtPluginConfig conf)]> plugins.

Lemma with_ext_lookup name conf plugins k :
  with_ext name conf plugins !! k =
    if decide (name = k ∧ conf ≠ []) then Some (PlExtPlugin (mkApisixExtPluginConfig conf)) else plugins !! k.
Proof.
  unfold with_ext. destruct conf as [|c conf]; cbn [empty_list].
  - rewrite decide_False; [done|]. by intros [_ ?].
  - rewrite lookup_insert. apply decide_ext. naive_solver.
Qed.

Lemma patch_plugins_lookup seed am plugins k :
  keyed am →
  patch_plugins seed am plugins !! k =
    let pre := ext_plugins AmeshPluginConfigTypePreRequest seed am in
    let post := ext_plugins AmeshPluginConfigTypePostRequest seed am in
    if decide ("ext-plugin-post-req" = k ∧ post ≠ []) then Some (PlExtPlugin (mkApisixExtPluginConfig post))
    else if decide ("ext-plugin-pre-req" = k ∧ pre ≠ []) then Some (PlExtPlugin (mkApisixExtPluginConfig pre))
    else match am !! k with
         | Some p => if bool_decide (AP_Type p = "") then Some (PlConfig (AP_Config p)) else plugins !! k
         | None => None
         end.
Proof.
  intros Hkey. unfold patch_plugins. rewrite patch_plugin_fold. cbv zeta. rewrite !app_nil_l.
  fold (ext_plugins AmeshPluginConfigTypePreRequest seed am).
  fold (ext_plugins AmeshPluginConfigTypePostRequest seed am).
  fold (with_ext "ext-plugin-pre-req" (ext_plugins AmeshPluginConfigTypePreRequest seed am)
         (foldl plain_insert (drop_unknown ("patch delete " +:+ seed) am plugins) (range ("patch add " +:+ seed) am))).
  match goal with |- context [if empty_list ?c then ?m else <[?n := _]> ?m] =>
    change (if empty_list c then m else <[n := PlExtPlugin (mkApisixExtPluginConfig c)]> m) with (with_ext n c m) end.
  rewrite !with_ext_lookup. destruct (decide (_ ∧ _)); [done|]. destruct (decide (_ ∧ _)); [done|].
  rewrite (plain_insert_lookup am); [|auto with amesh|].
  - rewrite list_to_map_range, drop_unknown_lookup. by destruct (am !! k).
  - intros [k' p] Hin. apply elem_of_range in Hin. by apply Hkey in Hin.
Qed.

Lemma elem_of_ext_plugins type seed am e :
  e ∈ ext_plugins type seed am ↔
    ∃ k p, am !! k = Some p ∧ AP_Type p = type ∧ e = mkApisixExtPlugin (AP_Name p) (AP_Config p).
Proof.
  unfold ext_plugins. rewrite list_elem_of_omap. split.
  - intros ([k p] & Hin & He). apply elem_of_range in Hin. unfold ext_of in He. cbn [snd] in He.
    case_bool_decide; [|done]. injection He as <-. eauto.
  - intros (k & p & Hk & Hty & ->). exists (k, p). rewrite elem_of_range. split; [done|].
    unfold ext_of. cbn [snd]. by rewrite bool_decide_true.
Qed.

(** Another scheduler only permutes the external plugins. *)
Lemma ext_plugins_perm type seed am :
  ext_plugins type seed am ≡ₚ omap (ext_of type) (map_to_list am).
Proof. unfold ext_plugins. by rewrite range_perm. Qed.

End Plugins.

Lemma Route_Plugins_set p r : Route_Plugins (set_Route_Plugins p r) = p.
Proof. by destruct r. Qed.
Lemma Route_Id_set p r : Route_Id (set_Route_Plugins p r) = Route_Id r.
Proof. by destruct r. Qed.

(** ** Hosts *)

Definition strip_port (domain : string) : string := before_byte domain ":".

Lemma host_set_star domains set : "*" ∈ domains → host_set domains set = ∅.
Proof.
  revert set; induction domains as [|d l IH]; intros set Hin; [by apply elem_of_nil in Hin|].
  cbn [host_set]. case_bool_decide as Hd; [done|]. apply IH. apply elem_of_cons in Hin as [?|?]; [congruence|done].
Qed.

Lemma elem_of_host_set domains set h :
  "*" ∉ domains → h ∈ host_set domains set ↔ h ∈ set ∨ ∃ d, d ∈ domains ∧ strip_port d = h.
Proof.
  revert set; induction domains as [|d l IH]; intros set Hin; cbn [host_set].
  - split; [by left|]. intros [?|(d & ?%elem_of_nil & _)]; done.
  - rewrite not_elem_of_cons in Hin. destruct Hin as [Hd Hin]. rewrite bool_decide_false by congruence.
    rewrite IH, elem_of_Add by done. unfold strip_port. setoid_rewrite elem_of_cons. naive_solver.
Qed.

Lemma vhost_hosts_star `{GoRange} vhost : "*" ∈ VH_Domains vhost → vhost_hosts vhost = [].
Proof.
  intros Hin. unfold vhost_hosts. rewrite host_set_star by done.
  rewrite OrderedStrings_eq, elements_empty. done.
Qed.

(** The hosts do not depend on the scheduler. *)
Lemma vhost_hosts_eq (R1 R2 : GoRange) vhost : @vhost_hosts R1 vhost = @vhost_hosts R2 vhost.
Proof. unfold vhost_hosts. by rewrite !OrderedStrings_eq. Qed.

(** ** The identity of a route *)

Definition comparable_set (vars : list Var) : StringSet :=
  foldl (λ set v, Add set (ToComparableString v)) ∅ vars.

Lemma elem_of_comparable_set vars s : s ∈ comparable_set vars ↔ ∃ v, v ∈ vars ∧ ToComparableString v = s.
Proof.
  unfold comparable_set. induction vars as [|v l IH] using rev_ind.
  - cbn. split; [by intros ?%elem_of_empty|by intros (v & ?%elem_of_nil & _)].
  - rewrite foldl_app. cbn [foldl]. rewrite elem_of_Add, IH. setoid_rewrite elem_of_app.
    setoid_rewrite list_elem_of_singleton. naive_solver.
Qed.

Lemma comparable_set_perm vars vars' : vars ≡ₚ vars' → comparable_set vars = comparable_set vars'.
Proof. intros Hp. apply set_eq. intros s. rewrite !elem_of_comparable_set. by setoid_rewrite Hp. Qed.

Lemma match_conditions_eq `{GoRange} `{XdsLib} uri cs vars :
  match_conditions uri cs vars =
    uri +:+ "-" +:+ bool_value_text cs +:+ "-" +:+ Join (SortStrings (elements (comparable_set vars))) "-".
Proof. unfold match_conditions. fold (comparable_set vars). by rewrite OrderedStrings_eq. Qed.

(** ** Percentages *)

(** What a fraction denotes in per cent, rounded down and capped. *)
Definition percent_of (p : FractionalPercent) : Z :=
  (Z.min 100 (if FP_Denominator p =? FractionalPercent_HUNDRED then FP_Numerator p
     else if FP_Denominator p =? FractionalPercent_TEN_THOUSAND then 100 * FP_Numerator p / 10000
     else if FP_Denominator p =? FractionalPercent_MILLION then 100 * FP_Numerator p / 1000000
     else 0))%Z.

Lemma convertPercent_eq p : convertPercent (Some p) = percent_of p.
Proof.
  unfold convertPercent, percent_of, FractionalPercent_MILLION,
    FractionalPercent_TEN_THOUSAND, FractionalPercent_HUNDRED. set (n := FP_Numerator p) in *.
  assert (100 * n / 1000000 = n / 10000)%Z as ->.
  { change 1000000%Z with (100 * 10000)%Z. by rewrite Z.div_mul_cancel_l by lia. }
  assert (100 * n / 10000 = n / 100)%Z as ->.
  { change 10000%Z with (100 * 100)%Z. by rewrite Z.div_mul_cancel_l by lia. }
  destruct (Z.eqb_spec (FP_Denominator p) 2), (Z.eqb_spec (FP_Denominator p) 1),
    (Z.eqb_spec (FP_Denominator p) 0); try lia;
  match goal with |- context [(100 <? ?x)%Z] => destruct (Z.ltb_spec 100 x) end; lia.
Qed.

(** ** Weighted clusters *)

Definition weight_known (c : WeightedCluster) : Prop := is_Some (WC_Weight c).

Lemma weighted_upstreams_total `{XdsLib} clusters :
  Forall weight_known clusters → ∃ ws, weighted_upstreams clusters = Ret ws.
Proof.
  induction 1 as [|c l [w Hw] _ [ws IH]]; [by eexists|]. cbn [weighted_upstreams]. rewrite Hw. cbn.
  rewrite IH. by eexists.
Qed.

Lemma weighted_upstreams_spec `{XdsLib} clusters ws :
  weighted_upstreams clusters = Ret ws →
  length ws = length clusters ∧
  ∀ i c, clusters !! i = Some c → ∃ w, WC_Weight c = Some w ∧
    ws !! i = Some (mkTrafficSplitWeightedUpstreams
      (if decide (S i = length clusters) then "" else GenID (WC_Name c)) w).
Proof.
  revert ws; induction clusters as [|c l IH]; intros ws Hws; cbn [weighted_upstreams] in Hws.
  { injection Hws as <-. split; [done|]. intros i c Hi. by rewrite lookup_nil in Hi. }
  destruct (WC_Weight c) as [w|] eqn:Hw; [|done]. cbn in Hws.
  destruct (weighted_upstreams l) as [ws'|] eqn:Hl; [|done]. cbn in Hws. injection Hws as <-.
  destruct (IH _ eq_refl) as [Hlen Hat]. split; [simpl; by rewrite Hlen|].
  intros [|i] c' Hc'; cbn in Hc'.
  - injection Hc' as <-. exists w. split; [done|]. cbn. destruct l; cbn; [done|]. by rewrite decide_False by lia.
  - destruct (Hat i c' Hc') as (w' & Hw' & Hi). exists w'. split; [done|].
    rewrite lookup_cons_ne_0 by done. cbn [pred length]. rewrite Hi. do 2 f_equal.
    destruct (decide (S i = length l)); [by rewrite decide_True by lia|by rewrite decide_False by lia].
Qed.

(** ** What the parts of a route denote *)

(** The pattern of a string matcher, as a regular expression. *)
Inductive pattern_of : option MatchPattern → string → Prop :=
| PatternExact s : pattern_of (Some (StringMatcher_Exact s)) ("^" +:+ s +:+ "$")
| PatternContains s : pattern_of (Some (StringMatcher_Contains s)) s
| PatternPrefix s : pattern_of (Some (StringMatcher_Prefix s)) ("^" +:+ s)
| PatternSuffix s : pattern_of (Some (StringMatcher_Suffix s)) (s +:+ "$")
| PatternRegex s : pattern_of (Some (StringMatcher_SafeRegex s)) s.

Inductive header_pattern : option HeaderMatchSpecifier → string → Prop :=
| HeaderString m s : pattern_of (SM_MatchPattern m) s → header_pattern (Some (HeaderMatcher_StringMatch m)) s
| HeaderContains s : header_pattern (Some (HeaderMatcher_ContainsMatch s)) s
| HeaderExact s : header_pattern (Some (HeaderMatcher_ExactMatch s)) ("^" +:+ s +:+ "$")
| HeaderPrefix s : header_pattern (Some (HeaderMatcher_PrefixMatch s)) ("^" +:+ s)
| HeaderPresent b : header_pattern (Some (HeaderMatcher_PresentMatch b)) ""
| HeaderRegex s : header_pattern (Some (HeaderMatcher_SafeRegexMatch s)) s
| HeaderSuffix s : header_pattern (Some (HeaderMatcher_SuffixMatch s)) (s +:+ "$").

(** The nginx variable of a header. *)
Inductive header_variable : string → string → Prop :=
| VariableMethod : header_variable ":method" "request_method"
| VariableAuthority : header_variable ":authority" "http_host"
| VariableHeader name : name ≠ ":method" → name ≠ ":authority" →
    header_variable name ("http_" +:+ ReplaceAll (ToLower name) "-" "_").

Inductive header_condition (h : HeaderMatcher) : Var → Prop :=
| HeaderMatches name value :
    HM_InvertMatch h = false → header_variable (HM_Name h) name → header_pattern (HM_Specifier h) value →
    header_condition h [VarStr name; VarStr "~~"; VarStr value]
| HeaderDiffers name value :
    HM_InvertMatch h = true → header_variable (HM_Name h) name → header_pattern (HM_Specifier h) value →
    header_condition h [VarStr name; VarStr "!"; VarStr "~~"; VarStr value].

(** A parameter without a specifier leaves the empty condition. *)
Inductive parameter_condition (q : QueryParameterMatcher) : Var → Prop :=
| ParameterPresent b :
    QPM_Specifier q = Some (QueryParameterMatcher_PresentMatch b) →
    parameter_condition q [VarStr ("arg_" +:+ QPM_Name q); VarStr "!"; VarStr "~~"; VarStr "^$"]
| ParameterMatches m value :
    QPM_Specifier q = Some (QueryParameterMatcher_StringMatch m) → SM_IgnoreCase m = false →
    pattern_of (SM_MatchPattern m) value →
    parameter_condition q [VarStr ("arg_" +:+ QPM_Name q); VarStr "~~"; VarStr value]
| ParameterIgnoresCase m value :
    QPM_Specifier q = Some (QueryParameterMatcher_StringMatch m) → SM_IgnoreCase m = true →
    pattern_of (SM_MatchPattern m) value →
    parameter_condition q [VarStr ("arg_" +:+ QPM_Name q); VarStr "~*"; VarStr value]
| ParameterEmpty : QPM_Specifier q = None → parameter_condition q [].

Inductive uri_of : option PathSpecifier → string → Prop :=
| UriPath path : uri_of (Some (RouteMatch_Path path)) path
| UriPrefix prefix : uri_of (Some (RouteMatch_Prefix prefix)) (prefix +:+ "*").

Inductive cluster_of : option ClusterSpecifier → string → Prop :=
| ClusterNamed name : cluster_of (Some (RouteAction_Cluster name)) name
| ClusterLast clusters c : cluster_of (Some (RouteAction_WeightedClusters (clusters ++ [c]))) (WC_Name c).

(** The action of a route is a weighted one. *)
Definition weighted (route : XRoute) (clusters : list WeightedCluster) : Prop :=
  ∃ action, XRoute_Action route = Some (Route_Route action) ∧
    RA_ClusterSpecifier action = Some (RouteAction_WeightedClusters clusters).

(** The split of a weighted action: one entry for each cluster, in order and with
    its weight; every entry names its upstream but the last one. *)
Definition split_of `{XdsLib} (clusters : list WeightedCluster) (ws : list TrafficSplitWeightedUpstreams) : Prop :=
  length ws = length clusters ∧
  ∀ i c, clusters !! i = Some c → ∃ w, WC_Weight c = Some w ∧
    ws !! i = Some (mkTrafficSplitWeightedUpstreams
      (if decide (S i = length clusters) then "" else GenID (WC_Name c)) w).

Definition percentage_of (p : option FractionalPercent) : Z :=
  match p with Some p => percent_of p | None => 0%Z end.

(** An abort with a status and a fixed delay, each with its percentage. *)
Inductive abort_of : option FaultAbort → option FaultInjectionAbort → Prop :=
| AbortNone : abort_of None None
| AbortStatus a status :
    FA_ErrorType a = Some (FaultAbort_HttpStatus status) →
    abort_of (Some a) (Some (mkFaultInjectionAbort status "" (percentage_of (FA_Percentage a)) [])).

Inductive delay_of : option FaultDelay → option FaultInjectionDelay → Prop :=
| DelayNone : delay_of None None
| DelayFixed d duration :
    FD_Secifier d = Some (FaultDelay_FixedDelay duration) →
    delay_of (Some d) (Some (mkFaultInjectionDelay (Duration_Seconds duration) (percentage_of (FD_Percentage d)) [])).

(** The fault that the fault filter's configuration of a route denotes. *)
Definition injects `{XdsLib} (route : XRoute) (fault : FaultInjection) : Prop :=
  ∃ data f, XRoute_TypedPerFilterConfig route !! wellknown_Fault = Some data ∧
    Any_TypeUrl data = "type.googleapis.com/envoy.extensions.filters.http.fault.v3.HTTPFault" ∧
    unmarshal_HTTPFault data = inl f ∧ abort_of (HF_Abort f) (FI_Abort fault) ∧ delay_of (HF_Delay f) (FI_Delay fault).

Lemma getStringMatchValue_of m value : getStringMatchValue m = inl value → pattern_of (SM_MatchPattern m) value.
Proof. unfold getStringMatchValue. destruct (SM_MatchPattern m) as [[]|]; intros [= <-]; constructor. Qed.

Lemma header_value_of spec value : header_value spec = inl value → header_pattern spec value.
Proof.
  destruct spec as [[m|s|s|s|b|s|s|t]|]; cbn; try (by intros [= <-]; constructor); [|done..].
  intros Hm%getStringMatchValue_of. by constructor.
Qed.

Lemma header_name_of name : header_variable name (header_name name).
Proof. unfold header_name. do 2 (case_bool_decide; [subst; constructor|]). by constructor. Qed.

Lemma header_var_of h v : header_var h = inl v → header_condition h v.
Proof.
  unfold header_var. destruct (header_value (HM_Specifier h)) as [value|] eqn:Hv; [|done]. apply header_value_of in Hv.
  pose proof (header_name_of (HM_Name h)). destruct (HM_InvertMatch h) eqn:Hi; intros [= <-]; by constructor.
Qed.

Lemma parameter_var_of q v : parameter_var q = inl v → parameter_condition q v.
Proof.
  unfold parameter_var. destruct (QPM_Specifier q) as [[b|m]|] eqn:Hq; cbv zeta.
  - intros [= <-]. by econstructor.
  - destruct (getStringMatchValue m) as [value|] eqn:Hv; [|done]. apply getStringMatchValue_of in Hv.
    destruct (SM_IgnoreCase m) eqn:Hi; intros [= <-]; [by eapply ParameterIgnoresCase|by eapply ParameterMatches].
  - intros [= <-]. by constructor.
Qed.

Lemma collect_Forall2 {A B} (f : A → B + error) (R : A → B → Prop) :
  (∀ x y, f x = inl y → R x y) → ∀ l ys, collect f l = inl ys → Forall2 R l ys.
Proof.
  intros Hf. induction l as [|x l IH]; intros ys; cbn; [intros [= <-]; constructor|].
  destruct (f x) as [y|] eqn:Hx; [|done]. destruct (collect f l) as [ys'|]; [|done]. intros [= <-].
  constructor; [by apply Hf|by apply IH].
Qed.

Lemma getURL_of route m uri : XRoute_Match route = Some m → getURL route = inl uri → uri_of (RM_PathSpecifier m) uri.
Proof.
  intros Hm. unfold getURL. rewrite Hm. cbn. destruct (RM_PathSpecifier m) as [[]|]; intros [= <-]; constructor.
Qed.

Lemma XRoute_GetRoute_Some route action :
  XRoute_GetRoute route = Some action ↔ XRoute_Action route = Some (Route_Route action).
Proof. unfold XRoute_GetRoute. destruct (XRoute_Action route) as [[]|]; naive_solver. Qed.

Lemma getClusterName_of route cluster :
  getClusterName route = Ret (inl cluster) →
  ∃ action, XRoute_Action route = Some (Route_Route action) ∧ cluster_of (RA_ClusterSpecifier action) cluster.
Proof.
  unfold getClusterName. destruct (XRoute_GetRoute route) as [action|] eqn:Ha; [|done].
  apply XRoute_GetRoute_Some in Ha. intros Hc. exists action. split; [done|].
  destruct (RA_ClusterSpecifier action) as [[name|cs|t]|]; [|destruct (last cs) as [c|] eqn:Hl|..]; try done; injection Hc as <-.
  - constructor.
  - apply last_Some in Hl as [cs' ->]. constructor.
Qed.

(** ** Fault injection *)

Section Routes.
Context `{GoRange} `{XdsLib}.

(** The fault-injection plugin that a filter configuration denotes, if any. *)
Definition fault_of (data : Any) : option FaultInjection :=
  if bool_decide (Any_TypeUrl data = httpFaultV3) then
    match unmarshal_HTTPFault data with inl fault => fault_plugin fault | inr _ => None end
  else None.

Lemma fault_abort_of a abort : fault_abort a = Some abort ↔ abort_of a abort.
Proof.
  unfold fault_abort. split.
  - destruct a as [a|]; [|intros [= <-]; constructor]. destruct (FA_ErrorType a) as [[status|t]|] eqn:He; [|done..].
    intros [= <-]. replace (convertPercent (FA_Percentage a)) with (percentage_of (FA_Percentage a)); [by constructor|].
    destruct (FA_Percentage a) as [p|]; [|done]. cbn [percentage_of]. by rewrite convertPercent_eq.
  - intros [|a' status He]; [done|]. rewrite He. do 3 f_equal. destruct (FA_Percentage a') as [p|]; [|done].
    by rewrite convertPercent_eq.
Qed.

Lemma fault_delay_of d delay : fault_delay d = Some delay ↔ delay_of d delay.
Proof.
  unfold fault_delay. split.
  - destruct d as [d|]; [|intros [= <-]; constructor]. destruct (FD_Secifier d) as [[dur|t]|] eqn:He; [|done..].
    intros [= <-]. replace (convertPercent (FD_Percentage d)) with (percentage_of (FD_Percentage d)); [by constructor|].
    destruct (FD_Percentage d) as [p|]; [|done]. cbn [percentage_of]. by rewrite convertPercent_eq.
  - intros [|d' dur He]; [done|]. rewrite He. do 3 f_equal. destruct (FD_Percentage d') as [p|]; [|done].
    by rewrite convertPercent_eq.
Qed.

Lemma fault_plugin_of f fault :
  fault_plugin f = Some fault ↔ abort_of (HF_Abort f) (FI_Abort fault) ∧ delay_of (HF_Delay f) (FI_Delay fault).
Proof.
  unfold fault_plugin. rewrite <- fault_abort_of, <- fault_delay_of. destruct fault as [abort delay]. cbn [FI_Abort FI_Delay].
  destruct (fault_abort _) as [a|]; [|by split; [|intros []]]. cbn. destruct (fault_delay _) as [d|]; [|by split; [|intros []]].
  cbn. naive_solver.
Qed.

Lemma fault_of_injects route fault :
  XRoute_TypedPerFilterConfig route !! wellknown_Fault ≫= fault_of = Some fault ↔ injects route fault.
Proof.
  unfold injects, fault_of. fold httpFaultV3.
  destruct (XRoute_TypedPerFilterConfig route !! wellknown_Fault) as [data|]; cbn; [|by split; [|intros (? & ? & ? & _)]].
  case_bool_decide as Hty; [|split; [done|by intros (? & ? & [= <-] & ? & _)]].
  destruct (unmarshal_HTTPFault data) as [f|] eqn:Hf; [|split; [done|]].
  - rewrite fault_plugin_of. split; [intros Hfault; by exists data, f|]. intros (? & ? & [= <-] & _ & Hf' & Hfault). congruence.
  - intros (? & ? & [= <-] & _ & Hf' & _). congruence.
Qed.

Definition with_fault (o : option Any) (plugins : gmap string plugin) : gmap string plugin :=
  match o ≫= fault_of with
  | Some p => <[PluginFaultInjection := PlFaultInjection p]> plugins
  | None => plugins
  end.

Lemma translate_filter_eq plugins name data :
  translate_filter plugins (name, data) =
    if bool_decide (name = wellknown_Fault) then with_fault (Some data) plugins else plugins.
Proof.
  unfold translate_filter, with_fault, fault_of. cbn [mbind option_bind].
  destruct (bool_decide (name = _)); [|done]. destruct (bool_decide (Any_TypeUrl data = _)); [|done].
  destruct (unmarshal_HTTPFault data) as [f|]; [|done]. by destruct (fault_plugin f).
Qed.

(** Only the fault filter's own entry matters, and there is at most one. *)
Lemma translate_filter_fold (l : list (string * Any)) plugins :
  NoDup l.*1 →
  foldl translate_filter plugins l = with_fault (list_to_map (M := gmap string Any) l !! wellknown_Fault) plugins.
Proof.
  revert plugins; induction l as [|[name data] l IH]; intros plugins Hnd.
  { by rewrite list_to_map_nil, lookup_empty. }
  rewrite fmap_cons, NoDup_cons in Hnd. destruct Hnd as [Hnotin Hnd]. cbn [fst] in Hnotin.
  rewrite list_to_map_cons. cbn [foldl fst snd]. rewrite translate_filter_eq, IH, lookup_insert by done.
  case_bool_decide as Hn.
  - rewrite decide_True by done. subst name. by rewrite (not_elem_of_list_to_map_1 l) by done.
  - by rewrite decide_False by done.
Qed.

Lemma translateRouteFilters_eq route r :
  translateRouteFilters route r =
    set_Route_Plugins (with_fault (XRoute_TypedPerFilterConfig route !! wellknown_Fault) (Route_Plugins r)) r.
Proof.
  unfold translateRouteFilters. by rewrite translate_filter_fold, list_to_map_range by auto with amesh.
Qed.

(** The weighted clusters of a route, if its action is a weighted one. *)
Definition weighted_clusters (route : XRoute) : option (list WeightedCluster) :=
  a ← XRoute_GetRoute route;
  match RA_ClusterSpecifier a with
  | Some (RouteAction_WeightedClusters cs) => Some cs
  | _ => None
  end.

Definition traffic_split (ws : list TrafficSplitWeightedUpstreams) : plugin :=
  PlTrafficSplit (mkTrafficSplit [mkTrafficSplitRule [] ws]).

Lemma translateRoutePlugins_eq route r :
  translateRoutePlugins route r =
    match weighted_clusters route with
    | None => Ret r
    | Some cs =>
        ws ← weighted_upstreams cs;
        Ret (set_Route_Plugins (<[PluginTrafficSplit := traffic_split ws]> (Route_Plugins r)) r)
    end.
Proof.
  unfold translateRoutePlugins, weighted_clusters, translateRouteWeightedClusters.
  destruct (XRoute_GetRoute route) as [a|]; [|done]. cbn [mbind option_bind].
  by destruct (RA_ClusterSpecifier a) as [[]|].
Qed.

(** ** One route *)

(** The vars of a route: its headers, then its query parameters. *)
Definition route_vars (route : XRoute) : list Var + error :=
  match getParametersMatchVars route with
  | inr err => inr err
  | inl q => match getHeadersMatchVars route with inr err => inr err | inl h => inl (h ++ q) end
  end.

Lemma route_vars_of route m vars :
  XRoute_Match route = Some m → route_vars route = inl vars →
  ∃ hs qs, Forall2 header_condition (RM_Headers m) hs ∧ Forall2 parameter_condition (RM_QueryParameters m) qs ∧ vars = hs ++ qs.
Proof.
  intros Hm. unfold route_vars, getParametersMatchVars, getHeadersMatchVars. rewrite Hm. cbn [RM_GetQueryParameters RM_GetHeaders].
  destruct (collect parameter_var _) as [qs|] eqn:Hq; [|done]. destruct (collect header_var _) as [hs|] eqn:Hh; [|done].
  intros [= <-]. exists hs, qs. split_and!; [|..|done].
  - exact (collect_Forall2 _ _ header_var_of _ _ Hh).
  - exact (collect_Forall2 _ _ parameter_var_of _ _ Hq).
Qed.

Lemma route_timeout_of route action :
  XRoute_Action route = Some (Route_Route action) →
  route_timeout route = match RA_Timeout action with
    | Some d => if decide (0 < Duration_Seconds d)%Z
                then Some (mkTimeout (float64_of_Z (Duration_Seconds d)) (float64_of_Z (Duration_Seconds d))
                             (float64_of_Z (Duration_Seconds d)))
                else None
    | None => None
    end.
Proof.
  intros Ha%XRoute_GetRoute_Some. unfold route_timeout. rewrite Ha. cbn. destruct (RA_Timeout action) as [d|]; [|done]. cbn.
  destruct (Z.ltb_spec 0 (Duration_Seconds d)); [by rewrite decide_True|by rewrite decide_False by lia].
Qed.

(** What a route needs to be translated. *)
Record route_parts := mkRouteParts {
  RP_match : RouteMatch;
  RP_cluster : string;
  RP_uri : string;
  RP_vars : list Var
}.

(** The parts of a route, or what the loop does with it otherwise. *)
Definition route_parts_of (route : XRoute) : outcome (route_parts + route_result) :=
  m ← deref "nil pointer dereference: Route.Match" (XRoute_Match route);
  if insensitive m then Ret (inr RouteIgnored) else
  c ← getClusterName route;
  Ret (match c with
       | inr err => inr (RouteError (multierror_Append err))
       | inl cluster =>
           match getURL route with
           | inr err => inr (RouteError (multierror_Append err))
           | inl uri =>
               match route_vars route with
               | inr err => inr (RouteError (multierror_Append err))
               | inl vars => inl (mkRouteParts m cluster uri vars)
               end
           end
       end).

Definition route_full_name (routeName : string) (vhost : VirtualHost) (route : XRoute) : string :=
  route_name routeName (VH_Name vhost)
    (if bool_decide (XRoute_Name route = "") then "anon" else XRoute_Name route).

Definition route_desc (vhost : VirtualHost) (route : XRoute) (cluster : string) : string :=
  "GENERATED_BY_AMESH: VIRTUAL_HOST: " +:+ VH_Name vhost +:+ ", NAME: " +:+ XRoute_Name route +:+
  ", CLUSTER: " +:+ cluster.

Definition parts_route (hosts : list string) (routeName : string) (vhost : VirtualHost)
    (route : XRoute) (parts : route_parts) : Route :=
  base_route hosts (route_full_name routeName vhost route) (RP_uri parts) (RP_cluster parts)
    (match_conditions (RP_uri parts) (RM_CaseSensitive (RP_match parts)) (RP_vars parts))
    (route_desc vhost route (RP_cluster parts))
    (route_priority hosts (if bool_decide (XRoute_Name route = "") then "anon" else XRoute_Name route))
    (RP_vars parts) (route_timeout route).

(** The plugins that the translation sets itself. *)
Definition own_plugins (route : XRoute) (patched : gmap string plugin) : gmap string plugin :=
  <[PluginPrometheus := PlPrometheus (mkPrometheus true)]>
    (with_fault (XRoute_TypedPerFilterConfig route !! wellknown_Fault) patched).

Lemma translate_route_eq amesh hosts routeName vhost route :
  translate_route amesh hosts routeName vhost route =
    (res ← route_parts_of route;
     match res with
     | inr r => Ret r
     | inl parts =>
         am ← deref "nil pointer dereference: p.amesh" amesh;
         let r := parts_route hosts routeName vhost route parts in
         let plugins := own_plugins route (patch_plugins (Route_Id r) (GetPlugins am) ∅) in
         match weighted_clusters route with
         | None => Ret (RouteOk (set_Route_Plugins plugins r))
         | Some cs =>
             ws ← weighted_upstreams cs;
             Ret (RouteOk (set_Route_Plugins (<[PluginTrafficSplit := traffic_split ws]> plugins) r))
         end
     end).
Proof.
  unfold translate_route, route_parts_of, route_vars.
  destruct (XRoute_Match route) as [m|]; [|done]. cbn [deref mbind outcome_bind].
  destruct (insensitive m); [done|].
  destruct (getClusterName route) as [[cluster|err]|w]; [|done..]. cbn [mbind outcome_bind].
  destruct (getURL route) as [uri|err]; [|done].
  destruct (getParametersMatchVars route) as [q|err]; [|done].
  destruct (getHeadersMatchVars route) as [h|err]; [|done].
  unfold patchAmeshPlugins. destruct amesh as [am|]; [|done]. cbn [deref mbind outcome_bind].
  rewrite translateRoutePlugins_eq. unfold parts_route. cbn [RP_uri RP_cluster RP_match RP_vars].
  destruct (weighted_clusters route) as [cs|].
  - destruct (weighted_upstreams cs) as [ws|]; [|done]. cbn [mbind outcome_bind].
    rewrite translateRouteFilters_eq. done.
  - cbn [mbind outcome_bind]. by rewrite translateRouteFilters_eq.
Qed.

Lemma route_parts_not_ok route r : route_parts_of route ≠ Ret (inr (RouteOk r)).
Proof.
  unfold route_parts_of. destruct (XRoute_Match route) as [m|]; [|done]. cbn [deref mbind outcome_bind].
  destruct (insensitive m); [done|]. destruct (getClusterName route) as [[cluster|]|]; [|done..].
  cbn [mbind outcome_bind]. destruct (getURL route); [|done]. by destruct (route_vars route).
Qed.

(** The messages on which a route does not panic. *)
Definition route_ok (route : XRoute) : Prop :=
  is_Some (XRoute_Match route) ∧
  ∀ cs, weighted_clusters route = Some cs → cs ≠ [] ∧ Forall weight_known cs.

Lemma getClusterName_total route : route_ok route → ∃ res, getClusterName route = Ret res.
Proof.
  intros [_ Hw]. unfold getClusterName, weighted_clusters in *.
  destruct (XRoute_GetRoute route) as [a|]; [|by eexists]. cbn [mbind option_bind] in Hw.
  destruct (RA_ClusterSpecifier a) as [[n|cs|t]|]; [by eexists| |by eexists..].
  destruct (Hw cs eq_refl) as [Hne _]. destruct (last cs) eqn:Hl; [by eexists|].
  by apply last_None in Hl.
Qed.

Lemma translate_route_total am hosts routeName vhost route :
  route_ok route → ∃ res, translate_route (Some am) hosts routeName vhost route = Ret res.
Proof.
  intros Hok. rewrite translate_route_eq. unfold route_parts_of.
  destruct Hok as [[m Hm] Hw]. rewrite Hm. cbn [deref mbind outcome_bind].
  destruct (insensitive m); [by eexists|].
  destruct (getClusterName_total route) as [c ->]; [done|]. cbn [mbind outcome_bind].
  destruct c as [cluster|]; [|by eexists]. destruct (getURL route); [|by eexists].
  destruct (route_vars route); [|by eexists]. cbn [mbind outcome_bind].
  destruct (weighted_clusters route) as [cs|]; [|by eexists].
  destruct (Hw cs eq_refl) as [_ Hk]. destruct (weighted_upstreams_total cs Hk) as [ws ->]. by eexists.
Qed.
End Routes.

(** ** Virtual hosts and route configurations *)

Section Configurations.
Context `{GoRange} `{XdsLib}.

Definition ok_of (r : route_result) : option Route := match r with RouteOk r => Some r | _ => None end.
Definition error_of (r : route_result) : option error := match r with RouteError e => Some e | _ => None end.

Definition anon (name : string) : string := if bool_decide (name = "") then "anon" else name.

(** The results of the routes of a virtual host. *)
Definition vhost_results (amesh : option ameshProvisioner) (name : string) (vhost : VirtualHost) :
    outcome (list route_result) :=
  mapM (translate_route amesh (vhost_hosts vhost) (anon name) vhost) (VH_Routes vhost).

Lemma vhost_step_fold amesh hosts name vhost l acc e rs :
  mapM (translate_route amesh hosts name vhost) l = Ret rs →
  go_foldl (vhost_step amesh hosts name vhost) (acc, e) l =
    Ret (acc ++ omap ok_of rs, match last (omap error_of rs) with Some e' => Some e' | None => e end).
Proof.
  revert acc e rs; induction l as [|route l IH]; intros acc e rs Hrs; cbn in Hrs.
  { injection Hrs as <-. cbn. by rewrite app_nil_r. }
  destruct (translate_route amesh hosts name vhost route) as [r|] eqn:Hr; [|done]. cbn in Hrs.
  destruct (mapM _ l) as [rs'|] eqn:Hl; [|done]. cbn in Hrs. injection Hrs as <-.
  cbn [go_foldl].
  assert (vhost_step amesh hosts name vhost (acc, e) route = Ret (match r with
            | RouteIgnored => (acc, e) | RouteError err => (acc, Some err) | RouteOk r => (acc ++ [r], e)
            end)) as -> by (unfold vhost_step; by rewrite Hr).
  cbn [mbind outcome_bind].
  destruct r as [|err|r]; cbn [omap list_omap ok_of error_of];
    rewrite (IH _ _ rs') by done; [done| |by rewrite <- app_assoc].
  rewrite last_cons. by destruct (last (omap error_of rs')).
Qed.

Lemma translateVirtualHost_eq amesh name vhost rs :
  vhost_results amesh name vhost = Ret rs →
  translateVirtualHost amesh name vhost = Ret (omap ok_of rs, last (omap error_of rs)).
Proof.
  intros Hrs. unfold translateVirtualHost, vhost_results, anon in *. rewrite (vhost_step_fold _ _ _ _ _ _ _ rs) by done.
  by destruct (last _).
Qed.

Lemma mapM_ret_total {A B} (f : A → outcome B) l :
  (∀ a, a ∈ l → ∃ b, f a = Ret b) → ∃ bs, mapM f l = Ret bs.
Proof.
  induction l as [|a l IH]; intros Hf; [by eexists|].
  destruct (Hf a) as [b Hb]; [by left|]. destruct IH as [bs Hbs]; [intros; apply Hf; by right|].
  exists (b :: bs). cbn. rewrite Hb. cbn. by rewrite Hbs.
Qed.

Lemma mapM_ret_elem {A B} (f : A → outcome B) l bs b :
  mapM f l = Ret bs → b ∈ bs ↔ ∃ a, a ∈ l ∧ f a = Ret b.
Proof.
  revert bs; induction l as [|a l IH]; intros bs Hbs; cbn in Hbs.
  { injection Hbs as <-. split; [by intros ?%elem_of_nil|by intros (a & ?%elem_of_nil & _)]. }
  destruct (f a) as [b'|] eqn:Ha; [|done]. cbn in Hbs.
  destruct (mapM f l) as [bs'|] eqn:Hl; [|done]. cbn in Hbs. injection Hbs as <-.
  rewrite elem_of_cons, (IH _ eq_refl). split.
  - intros [->|(a' & ? & ?)]; [exists a; split; [by left|done]|exists a'; split; [by right|done]].
  - intros (a' & [->|?]%elem_of_cons & Ha'); [left; congruence|right; eauto].
Qed.

Definition config_ok (rc : RouteConfiguration) : Prop :=
  ∀ vhost route, vhost ∈ RC_VirtualHosts rc → route ∈ VH_Routes vhost → route_ok route.

Lemma vhost_results_total am name vhost :
  (∀ route, route ∈ VH_Routes vhost → route_ok route) →
  ∃ rs, vhost_results (Some am) name vhost = Ret rs.
Proof. intros Hok. apply mapM_ret_total. intros route Hr. by apply translate_route_total, Hok. Qed.

(** A route of the configuration that is translated to the error [e]. *)
Definition route_errs (amesh : option ameshProvisioner) (name : string) (vhost : VirtualHost) (e : error) : Prop :=
  ∃ route, route ∈ VH_Routes vhost ∧
    translate_route amesh (vhost_hosts vhost) (anon name) vhost route = Ret (RouteError e).

Lemma vhost_error amesh name vhost rs :
  vhost_results amesh name vhost = Ret rs →
  (∀ e, last (omap error_of rs) = Some e → route_errs amesh name vhost e) ∧
  (last (omap error_of rs) = None → ∀ e, ¬ route_errs amesh name vhost e).
Proof.
  intros Hrs. split.
  - intros e He%last_Some_elem_of. apply list_elem_of_omap in He as (r & Hr & He).
    apply (mapM_ret_elem _ _ _ _ Hrs) in Hr as (route & Hin & Hroute).
    destruct r; try done. injection He as ->. by exists route.
  - intros Hnone%last_None e (route & Hin & Hroute).
    assert (RouteError e ∈ rs) as Hr by (apply (mapM_ret_elem _ _ _ _ Hrs); eauto).
    assert (e ∈ omap error_of rs) as He by (apply list_elem_of_omap; by exists (RouteError e)).
    rewrite Hnone in He. by apply elem_of_nil in He.
Qed.

(** The routes of the virtual hosts that translate without error. *)
Definition vhost_routes (amesh : option ameshProvisioner) (name : string) (vhost : VirtualHost) : list Route :=
  match vhost_results amesh name vhost with Ret rs => omap ok_of rs | Panic _ => [] end.

Lemma translate_vhosts_spec am name acc vhosts :
  (∀ vhost route, vhost ∈ vhosts → route ∈ VH_Routes vhost → route_ok route) →
  ∃ res, translate_vhosts (Some am) name acc vhosts = Ret res ∧
    match res with
    | inl routes => routes = acc ++ (vhosts ≫= vhost_routes (Some am) name) ∧
        ∀ vhost e, vhost ∈ vhosts → ¬ route_errs (Some am) name vhost e
    | inr e => ∃ vhost, vhost ∈ vhosts ∧ route_errs (Some am) name vhost e
    end.
Proof.
  revert acc; induction vhosts as [|vh l IH]; intros acc Hok.
  { exists (inl acc). split; [done|]. cbn. split; [by rewrite app_nil_r|]. by intros ? ? ?%elem_of_nil. }
  destruct (vhost_results_total am name vh) as [rs Hrs]; [intros; eapply Hok; [by left|done]|].
  pose proof (vhost_error _ _ _ _ Hrs) as [Herr Hno].
  cbn [translate_vhosts]. rewrite (translateVirtualHost_eq _ _ _ _ Hrs). cbn [mbind outcome_bind].
  destruct (last (omap error_of rs)) as [e|] eqn:He.
  { exists (inr e). split; [done|]. exists vh. split; [by left|]. by apply Herr. }
  destruct (IH (acc ++ omap ok_of rs)) as (res & -> & Hres); [intros; eapply Hok; [by right|done]|].
  exists res. split; [done|]. destruct res as [routes|e].
  - destruct Hres as [-> Hres]. split.
    + cbn. rewrite <- app_assoc. do 2 f_equal. unfold vhost_routes. by rewrite Hrs.
    + intros vh' e [->|Hin]%elem_of_cons; [by apply Hno|by apply Hres].
  - destruct Hres as (vh' & ? & ?). exists vh'. split; [by right|done].
Qed.

Lemma TranslateRouteConfiguration_eq am rc own :
  config_ok rc →
  ∃ res, TranslateRouteConfiguration (Some am) rc own = Ret res ∧
    match res with
    | inl routes => routes = RC_VirtualHosts rc ≫= vhost_routes (Some am) (RC_Name rc) ∧
        ∀ vhost e, vhost ∈ RC_VirtualHosts rc → ¬ route_errs (Some am) (RC_Name rc) vhost e
    | inr e => ∃ vhost, vhost ∈ RC_VirtualHosts rc ∧ route_errs (Some am) (RC_Name rc) vhost e
    end.
Proof.
  intros Hok. unfold TranslateRouteConfiguration.
  destruct (translate_vhosts_spec am (RC_Name rc) [] (RC_VirtualHosts rc) Hok) as (res & -> & Hres).
  cbn [mbind outcome_bind]. destruct res as [routes|e]; [|by exists (inr e)].
  exists (inl routes). split; [|done]. do 2 f_equal.
  destruct own as [m|]; [|done]. by destruct (m !! RC_Name rc).
Qed.

(** Without an Amesh source the first route that reaches the patching panics. *)
Lemma translate_route_no_amesh hosts name vhost route parts :
  route_parts_of route = Ret (inl parts) →
  translate_route None hosts name vhost route = Panic "nil pointer dereference: p.amesh".
Proof. intros Hp. by rewrite translate_route_eq, Hp. Qed.
End Configurations.

(** ** Independence of the scheduler *)

Definition no_ext_plugins (am : gmap string ApisixPlugin) : Prop :=
  map_Forall (λ _ p, AP_Type p ≠ AmeshPluginConfigTypePreRequest ∧ AP_Type p ≠ AmeshPluginConfigTypePostRequest) am.

Lemma ext_plugins_nil `{GoRange} type seed am :
  (∀ k p, am !! k = Some p → AP_Type p ≠ type) → ext_plugins type seed am = [].
Proof.
  intros Hno. destruct (ext_plugins type seed am) as [|e l] eqn:He; [done|].
  assert (e ∈ ext_plugins type seed am) as Hin by (rewrite He; by left).
  apply elem_of_ext_plugins in Hin as (k & p & Hk & Hty & _). by apply Hno in Hk.
Qed.

Lemma patch_plugins_scheduler (R1 R2 : GoRange) seed am plugins :
  keyed am → no_ext_plugins am → @patch_plugins R1 seed am plugins = @patch_plugins R2 seed am plugins.
Proof.
  intros Hkey Hno. apply map_eq. intros k. rewrite !patch_plugins_lookup by done. cbv zeta.
  rewrite !(ext_plugins_nil AmeshPluginConfigTypePreRequest) by (intros ? ? Hk; by apply Hno in Hk as [? _]).
  rewrite !(ext_plugins_nil AmeshPluginConfigTypePostRequest) by (intros ? ? Hk; by apply Hno in Hk as [_ ?]).
  rewrite !(decide_False (P := _ ∧ _)) by (by intros [_ ?]). done.
Qed.

Lemma translate_route_scheduler (R1 R2 : GoRange) `{XdsLib} am hosts name vhost route :
  keyed (GetPlugins am) → no_ext_plugins (GetPlugins am) →
  @translate_route R1 _ (Some am) hosts name vhost route = @translate_route R2 _ (Some am) hosts name vhost route.
Proof.
  intros Hkey Hno. rewrite !translate_route_eq.
  destruct (route_parts_of route) as [[parts|r]|w]; [|done..]. cbn [mbind outcome_bind deref].
  assert (@parts_route R1 _ hosts name vhost route parts = @parts_route R2 _ hosts name vhost route parts) as ->.
  { unfold parts_route. by rewrite !match_conditions_eq. }
  by rewrite (patch_plugins_scheduler R1 R2).
Qed.

Lemma go_foldl_ext {A B} (f g : B → A → outcome B) acc l :
  (∀ b a, f b a = g b a) → go_foldl f acc l = go_foldl g acc l.
Proof.
  intros Hfg. revert acc; induction l as [|a l IH]; intros acc; [done|]. cbn [go_foldl].
  rewrite Hfg. destruct (g acc a); [apply IH|done].
Qed.

Lemma translateVirtualHost_scheduler (R1 R2 : GoRange) `{XdsLib} am name vhost :
  keyed (GetPlugins am) → no_ext_plugins (GetPlugins am) →
  @translateVirtualHost R1 _ (Some am) name vhost = @translateVirtualHost R2 _ (Some am) name vhost.
Proof.
  intros Hkey Hno. unfold translateVirtualHost. rewrite (vhost_hosts_eq R1 R2).
  apply go_foldl_ext. intros [routes e] route. unfold vhost_step. by rewrite (translate_route_scheduler R1 R2).
Qed.

Lemma translate_vhosts_scheduler (R1 R2 : GoRange) `{XdsLib} am name acc vhosts :
  keyed (GetPlugins am) → no_ext_plugins (GetPlugins am) →
  @translate_vhosts R1 _ (Some am) name acc vhosts = @translate_vhosts R2 _ (Some am) name acc vhosts.
Proof.
  intros Hkey Hno. revert acc; induction vhosts as [|vh l IH]; intros acc; [done|]. cbn [translate_vhosts].
  rewrite (translateVirtualHost_scheduler R1 R2) by done.
  destruct (translateVirtualHost _ _ _) as [[partial [e|]]|]; [done|apply IH|done].
Qed.

(** ** Properties *)

(** C10. The identity and the match of a translated route: its action routes to
    a cluster and its match is not case-insensitive; its URI is the path, or the
    prefix with "*"; its variables are the conditions of the headers and then
    those of the query parameters, one for each in order; its upstream is the
    hash of the cluster (the last one of a weighted action); its timeouts are
    the action's seconds when these are positive, and none otherwise; its hosts
    and priority are the virtual host's, it is enabled, and its id hashes its
    name and the conditions, whose order does not matter. *)
Theorem translate_route_spec `{GoRange} `{XdsLib} amesh hosts routeName vhost route r :
  translate_route amesh hosts routeName vhost route = Ret (RouteOk r) →
  ∃ m action cluster uri hs qs,
    XRoute_Match route = Some m ∧ RM_CaseSensitive m ≠ Some false ∧ XRoute_Action route = Some (Route_Route action) ∧
    uri_of (RM_PathSpecifier m) uri ∧ Route_Uris r = [uri] ∧
    Forall2 header_condition (RM_Headers m) hs ∧ Forall2 parameter_condition (RM_QueryParameters m) qs ∧
    Route_Vars r = hs ++ qs ∧
    cluster_of (RA_ClusterSpecifier action) cluster ∧ Route_UpstreamId r = GenID cluster ∧
    Route_Timeout r = match RA_Timeout action with
      | Some d => if decide (0 < Duration_Seconds d)%Z
                  then Some (mkTimeout (float64_of_Z (Duration_Seconds d)) (float64_of_Z (Duration_Seconds d))
                               (float64_of_Z (Duration_Seconds d)))
                  else None
      | None => None
      end ∧
    Route_Hosts r = hosts ∧ Route_Status r = RouteEnable ∧
    Route_Priority r = (if decide (hosts = [] ∨ XRoute_Name route = "allow_any") then 0 else 999)%Z ∧
    Route_Name r = ReplaceAll ((if decide (XRoute_Name route = "") then "anon" else XRoute_Name route) +:+ "#" +:+
                               VH_Name vhost +:+ "#" +:+ routeName) ".svc.cluster.local" "" ∧
    Route_Id r = GenID (Route_Name r) +:+ "_" +:+
      GenID (uri +:+ "-" +:+ bool_value_text (RM_CaseSensitive m) +:+ "-" +:+
             Join (SortStrings (elements (comparable_set (hs ++ qs)))) "-").
Proof.
  rewrite translate_route_eq. unfold route_parts_of. intros Hr.
  destruct (XRoute_Match route) as [m|] eqn:Hmatch; [|done]. cbn [deref mbind outcome_bind] in Hr.
  destruct (insensitive m) eqn:Hm; [done|].
  destruct (getClusterName route) as [[cluster|]|] eqn:Hcluster; [|done..]. cbn [mbind outcome_bind] in Hr.
  destruct (getURL route) as [uri|] eqn:Huri; [|done]. destruct (route_vars route) as [vars|] eqn:Hvars; [|done].
  destruct amesh as [am|]; [|done]. cbn [deref mbind outcome_bind] in Hr.
  set (parts := mkRouteParts m cluster uri vars) in *.
  assert (∃ plugins, r = set_Route_Plugins plugins (parts_route hosts routeName vhost route parts)) as [plugins ->].
  { destruct (weighted_clusters route) as [cs|]; [|injection Hr as <-; by eexists].
    destruct (weighted_upstreams cs); [|done]. injection Hr as <-. by eexists. }
  destruct (getClusterName_of route cluster Hcluster) as (action & Haction & Hof).
  destruct (route_vars_of route m vars Hmatch Hvars) as (hs & qs & Hhs & Hqs & ->).
  exists m, action, cluster, uri, hs, qs. unfold parts_route. rewrite match_conditions_eq. subst parts.
  split_and!; try done; [intros Hs; unfold insensitive in Hm; by rewrite Hs in Hm|by eapply getURL_of| | |].
  - cbn. by apply route_timeout_of.
  - cbn. unfold route_priority, defaultRoutePriority.
    destruct hosts as [|h hosts]; cbn [empty_list].
    + rewrite decide_True by (by left). by case_bool_decide.
    + destruct (decide (XRoute_Name route = "allow_any")) as [Ha|Ha].
      * rewrite decide_True by (by right). by rewrite Ha.
      * rewrite decide_False by (by intros [?|?]). rewrite bool_decide_false; [done|]. by case_bool_decide.
  - cbn. unfold route_full_name, route_name. by rewrite <- decide_bool_decide.
Qed.

(** What the controller's plugins leave under a name: external plugins are grouped
    under one key for each phase, a plain plugin is there as it is. *)
Definition controller_plugin `{GoRange} (seed : string) (plugins : gmap string ApisixPlugin) (k : string) : option plugin :=
  let ext type := ext_plugins type seed plugins in
  if decide (k = "ext-plugin-post-req" ∧ ext "post-req" ≠ []) then Some (PlExtPlugin (mkApisixExtPluginConfig (ext "post-req")))
  else if decide (k = "ext-plugin-pre-req" ∧ ext "pre-req" ≠ []) then Some (PlExtPlugin (mkApisixExtPluginConfig (ext "pre-req")))
  else match plugins !! k with
       | Some p => if decide (AP_Type p = "") then Some (PlConfig (AP_Config p)) else None
       | None => None
       end.

(** The plugins by the parts that give them. *)
Lemma translate_route_plugins_eq `{GoRange} `{XdsLib} am hosts routeName vhost route r k :
  translate_route (Some am) hosts routeName vhost route = Ret (RouteOk r) → keyed (GetPlugins am) →
  Route_Plugins r !! k =
    if decide (k = PluginTrafficSplit ∧ is_Some (weighted_clusters route)) then
      match weighted_upstreams (default [] (weighted_clusters route)) with
      | Ret ws => Some (traffic_split ws)
      | Panic _ => None
      end
    else if decide (k = PluginPrometheus) then Some (PlPrometheus (mkPrometheus true))
    else match (if decide (k = PluginFaultInjection)
                then XRoute_TypedPerFilterConfig route !! wellknown_Fault ≫= fault_of else None) with
         | Some fault => Some (PlFaultInjection fault)
         | None =>
             let ext type := ext_plugins type (Route_Id r) (GetPlugins am) in
             if decide ("ext-plugin-post-req" = k ∧ ext AmeshPluginConfigTypePostRequest ≠ [])
             then Some (PlExtPlugin (mkApisixExtPluginConfig (ext AmeshPluginConfigTypePostRequest)))
             else if decide ("ext-plugin-pre-req" = k ∧ ext AmeshPluginConfigTypePreRequest ≠ [])
             then Some (PlExtPlugin (mkApisixExtPluginConfig (ext AmeshPluginConfigTypePreRequest)))
             else p ← GetPlugins am !! k; if bool_decide (AP_Type p = "") then Some (PlConfig (AP_Config p)) else None
         end.
Proof.
  rewrite translate_route_eq. intros Hr Hkey.
  destruct (route_parts_of route) as [[parts|res]|] eqn:Hp; [| |done].
  2: { cbn in Hr. injection Hr as ->. by apply route_parts_not_ok in Hp. }
  cbn [deref mbind outcome_bind] in Hr. set (r0 := parts_route hosts routeName vhost route parts) in *.
  clearbody r0.
  assert (own_plugins route (patch_plugins (Route_Id r0) (GetPlugins am) ∅) !! k =
    if decide (k = PluginPrometheus) then Some (PlPrometheus (mkPrometheus true))
    else match (if decide (k = PluginFaultInjection)
                then XRoute_TypedPerFilterConfig route !! wellknown_Fault ≫= fault_of else None) with
         | Some fault => Some (PlFaultInjection fault)
         | None => patch_plugins (Route_Id r0) (GetPlugins am) ∅ !! k
         end) as Hown.
  { unfold own_plugins, with_fault. rewrite lookup_insert. destruct (decide (k = PluginPrometheus)) as [->|Hk].
    - by rewrite decide_True.
    - rewrite decide_False by congruence. destruct (_ ≫= fault_of) as [fault|]; [|by case_decide].
      rewrite lookup_insert. repeat case_decide; congruence. }
  rewrite patch_plugins_lookup in Hown by done.
  assert (match GetPlugins am !! k with
          | Some p => if bool_decide (AP_Type p = "") then Some (PlConfig (AP_Config p)) else (∅ : gmap string plugin) !! k
          | None => None
          end = (p ← GetPlugins am !! k;
                 if bool_decide (AP_Type p = "") then Some (PlConfig (AP_Config p)) else None)) as Hlook.
  { by destruct (GetPlugins am !! k). }
  rewrite Hlook in Hown.
  destruct (weighted_clusters route) as [cs|].
  - destruct (weighted_upstreams cs) as [ws|] eqn:Hws; [|done]. injection Hr as <-.
    cbn [default option_map from_option id]. rewrite Hws. rewrite Route_Id_set, Route_Plugins_set. rewrite lookup_insert.
    destruct (decide (k = PluginTrafficSplit)) as [->|Hk].
    + rewrite decide_True by done. by rewrite decide_True by (split; [done|by eexists]).
    + rewrite decide_False by congruence. rewrite (decide_False (P := k = _ ∧ _)) by (by intros [? _]). done.
  - injection Hr as <-. rewrite Route_Id_set, Route_Plugins_set.
    rewrite (decide_False (P := k = PluginTrafficSplit ∧ _)) by (by intros [_ []]). done.
Qed.

Lemma weighted_clusters_Some route cs : weighted_clusters route = Some cs ↔ weighted route cs.
Proof.
  unfold weighted_clusters, weighted. setoid_rewrite <- XRoute_GetRoute_Some.
  destruct (XRoute_GetRoute route) as [a|]; cbn; [|by split; [|intros (? & ? & _)]].
  destruct (RA_ClusterSpecifier a) as [[]|] eqn:Ha; (split; [intros [= <-]; by exists a|intros (? & [= <-] & Heq); congruence]).
Qed.

(** A route that is translated carries the weights of its split. *)
Lemma translated_weights `{GoRange} `{XdsLib} am hosts routeName vhost route r cs :
  translate_route (Some am) hosts routeName vhost route = Ret (RouteOk r) → weighted_clusters route = Some cs →
  ∃ ws, weighted_upstreams cs = Ret ws.
Proof.
  rewrite translate_route_eq. intros Hr Hw. destruct (route_parts_of route) as [[parts|res]|] eqn:Hp; [| |done].
  2: { cbn in Hr. injection Hr as ->. by apply route_parts_not_ok in Hp. }
  cbn [deref mbind outcome_bind] in Hr. rewrite Hw in Hr. destruct (weighted_upstreams cs) as [ws|]; [by exists ws|done].
Qed.

(** C11. The plugins of a translated route: for a weighted action the traffic
    split, with one entry for each cluster, in order and with its weight, whose
    last entry stands for the route's own upstream; the Prometheus plugin; when
    the route's fault filter carries an HTTPFault that decodes, whose abort (if
    any) has a status and whose delay (if any) is fixed, the fault injection
    with this status, this delay and their percentages, rounded down and capped
    at 100; and otherwise exactly the plain plugins of the controller and, all
    of them, its external plugins, grouped under one key for each phase. *)
Theorem translate_route_plugins `{GoRange} `{XdsLib} am hosts routeName vhost route r :
  translate_route (Some am) hosts routeName vhost route = Ret (RouteOk r) → keyed (GetPlugins am) →
  (∀ cs, weighted route cs → ∃ ws, split_of cs ws ∧
     Route_Plugins r !! "traffic-split" = Some (PlTrafficSplit (mkTrafficSplit [mkTrafficSplitRule [] ws]))) ∧
  Route_Plugins r !! "prometheus" = Some (PlPrometheus (mkPrometheus true)) ∧
  (∀ fault, injects route fault → Route_Plugins r !! "fault-injection" = Some (PlFaultInjection fault)) ∧
  (∀ k, k ≠ "prometheus" → (k = "traffic-split" → ∀ cs, ¬ weighted route cs) →
     (k = "fault-injection" → ∀ fault, ¬ injects route fault) →
     Route_Plugins r !! k = controller_plugin (Route_Id r) (GetPlugins am) k).
Proof.
  intros Hr Hkey. pose proof (λ k, translate_route_plugins_eq am hosts routeName vhost route r k Hr Hkey) as Hk.
  setoid_rewrite <- weighted_clusters_Some. setoid_rewrite <- fault_of_injects. split_and!.
  - intros cs Hcs. destruct (translated_weights _ _ _ _ _ _ _ Hr Hcs) as [ws Hws]. exists ws.
    split; [by apply weighted_upstreams_spec|]. rewrite (Hk PluginTrafficSplit : Route_Plugins r !! "traffic-split" = _).
    rewrite decide_True by (split; [done|by eexists]). rewrite Hcs. cbn [default from_option id]. by rewrite Hws.
  - rewrite (Hk PluginPrometheus : Route_Plugins r !! "prometheus" = _). reflexivity.
  - intros fault Hf. rewrite (Hk PluginFaultInjection : Route_Plugins r !! "fault-injection" = _).
    cbn. by rewrite Hf.
  - intros k Hprom Hsplit Hfault. rewrite Hk. rewrite decide_False.
    2: { intros [-> [cs Hcs]]. by apply (Hsplit eq_refl cs). }
    rewrite decide_False by done.
    assert ((if decide (k = PluginFaultInjection) then XRoute_TypedPerFilterConfig route !! wellknown_Fault ≫= fault_of else None) = None) as ->.
    { case_decide as Heq; [|done]. apply eq_None_not_Some. intros [fault Hf]. by apply (Hfault Heq fault). }
    unfold controller_plugin, AmeshPluginConfigTypePostRequest, AmeshPluginConfigTypePreRequest. cbv zeta.
    rewrite (decide_ext ("ext-plugin-post-req" = k ∧ _) (k = "ext-plugin-post-req" ∧ ext_plugins "post-req" (Route_Id r) (GetPlugins am) ≠ [])) by naive_solver.
    rewrite (decide_ext ("ext-plugin-pre-req" = k ∧ _) (k = "ext-plugin-pre-req" ∧ ext_plugins "pre-req" (Route_Id r) (GetPlugins am) ≠ [])) by naive_solver.
    repeat case_decide; try done; destruct (GetPlugins am !! k) as [p|]; cbn; try done; case_bool_decide; by case_decide.
Qed.

(** The hosts of a virtual host: sorted, without repetition, the same for
    every iteration order; empty when a domain is "*", and otherwise exactly
    the domains without their ports. *)
Lemma vhost_hosts_spec `{GoRange} vhost :
  Sorted String.le (vhost_hosts vhost) ∧ NoDup (vhost_hosts vhost) ∧
  (∀ R' : GoRange, @vhost_hosts R' vhost = vhost_hosts vhost) ∧
  ("*" ∈ VH_Domains vhost → vhost_hosts vhost = []) ∧
  ("*" ∉ VH_Domains vhost → ∀ h, h ∈ vhost_hosts vhost ↔ ∃ d, d ∈ VH_Domains vhost ∧ before_byte d ":" = h).
Proof.
  split_and!.
  - apply OrderedStrings_sorted.
  - apply NoDup_OrderedStrings.
  - intros R'. apply (vhost_hosts_eq R').
  - apply vhost_hosts_star.
  - intros Hstar h. unfold vhost_hosts. rewrite elem_of_OrderedStrings, elem_of_host_set by done. set_solver.
Qed.

(** The split of a weighted action: the translated route carries one entry
    for each cluster, in order and with its weight; every entry names its
    upstream but the last one, which stands for the route's own upstream, the
    last cluster of the action. *)
Lemma traffic_split_spec `{GoRange} `{XdsLib} am hosts routeName vhost route r a cs :
  translate_route (Some am) hosts routeName vhost route = Ret (RouteOk r) →
  XRoute_GetRoute route = Some a → RA_ClusterSpecifier a = Some (RouteAction_WeightedClusters cs) →
  ∃ ws c, Route_Plugins r !! PluginTrafficSplit = Some (PlTrafficSplit (mkTrafficSplit [mkTrafficSplitRule [] ws])) ∧
    last cs = Some c ∧ Route_UpstreamId r = GenID (WC_Name c) ∧ length ws = length cs ∧
    ∀ i ci, cs !! i = Some ci → ∃ w, WC_Weight ci = Some w ∧
      ws !! i = Some (mkTrafficSplitWeightedUpstreams
        (if decide (S i = length cs) then "" else GenID (WC_Name ci)) w).
Proof.
  rewrite translate_route_eq. intros Hr Ha Hcs.
  assert (weighted_clusters route = Some cs) as Hw by (unfold weighted_clusters; rewrite Ha; cbn; by rewrite Hcs).
  destruct (route_parts_of route) as [[parts|res]|] eqn:Hp; [| |done].
  2: { cbn in Hr. injection Hr as ->. by apply route_parts_not_ok in Hp. }
  cbn [deref mbind outcome_bind] in Hr. rewrite Hw in Hr.
  destruct (weighted_upstreams cs) as [ws|] eqn:Hws; [|done]. injection Hr as <-.
  unfold route_parts_of in Hp. destruct (XRoute_Match route) as [m|]; [|done]. cbn [deref mbind outcome_bind] in Hp.
  destruct (insensitive m); [done|]. unfold getClusterName in Hp. rewrite Ha, Hcs in Hp.
  destruct (last cs) as [c|] eqn:Hlast; [|done]. cbn [mbind outcome_bind] in Hp.
  destruct (getURL route) as [uri|]; [|done]. destruct (route_vars route) as [vars|]; [|done]. injection Hp as <-.
  exists ws, c. destruct (weighted_upstreams_spec cs ws Hws) as [Hlen Hat].
  split_and!; [|done|done|done|exact Hat]. apply (lookup_insert_eq (M := gmap string)).
Qed.


(** C31. Without external plugins the translation of a route configuration does
    not depend on the iteration order of the Go maps it goes through (domains,
    conditions, controller plugins and filter configurations). *)
Theorem TranslateRouteConfiguration_deterministic (R1 R2 : GoRange) `{XdsLib} am rc own :
  keyed (GetPlugins am) → no_ext_plugins (GetPlugins am) →
  @TranslateRouteConfiguration R1 _ (Some am) rc own = @TranslateRouteConfiguration R2 _ (Some am) rc own.
Proof.
  intros Hkey Hno. unfold TranslateRouteConfiguration. by rewrite (translate_vhosts_scheduler R1 R2).
Qed.

(** Percentages: a fraction with a uint32 numerator becomes the percentage
    it denotes, rounded down and capped at 100; it lies between 0 and 100, and
    a missing fraction is 0. *)
Lemma convertPercent_spec percent :
  (∀ p, percent = Some p → is_uint32 (FP_Numerator p)) →
  (0 ≤ convertPercent percent ≤ 100)%Z ∧
  convertPercent percent = match percent with Some p => percent_of p | None => 0%Z end.
Proof.
  intros Hp. destruct percent as [p|]; [|by cbn; split].
  rewrite convertPercent_eq. split; [|done]. specialize (Hp p eq_refl). unfold is_uint32 in Hp.
  unfold percent_of. split; [|lia]. apply Z.min_glb; [lia|]. repeat case_match; try lia; apply Z.div_pos; lia.
Qed.

(** ** Witnesses *)

Definition example_fault : HTTPFault :=
  mkHTTPFault (Some (mkFaultAbort (Some (FaultAbort_HttpStatus 503)) (Some (mkFractionalPercent 50 0)))) None.
Definition example_lib : XdsLib := test_lib [] [] [] [] [] [("fault", example_fault)] [].
Definition example_filters : gmap string Any := {[ "envoy.filters.http.fault" := mkAny httpFaultV3 "fault" ]}.
Definition example_action : RouteAction :=
  mkRouteAction (Some (RouteAction_WeightedClusters [mkWeightedCluster "v1" (Some 90%Z); mkWeightedCluster "v2" (Some 10%Z)]))
    (Some (mkDuration 3 0)) [].
Definition example_match : RouteMatch :=
  mkRouteMatch (Some (RouteMatch_Prefix "/api")) None
    [mkHeaderMatcher ":method" (Some (HeaderMatcher_ExactMatch "GET")) false] [].
Definition example_route : XRoute := mkXRoute "r" (Some example_match) (Some (Route_Route example_action)) example_filters.
Definition example_vhost : VirtualHost := mkVirtualHost "vh" ["b.example:80"; "a.example"] [example_route].
Definition example_rc : RouteConfiguration := mkRouteConfiguration "80" [example_vhost].
Definition example_am : ameshProvisioner :=
  mkAmeshProvisioner "" "ns" "pod" {[ "limit" := mkApisixPlugin "" "limit" None ]} ∅ true true.

Definition ok_route (o : outcome route_result) : Route :=
  match o with
  | Ret (RouteOk r) => r
  | _ => @base_route example_lib [] "" "" "" "" "" 0 [] None
  end.
Definition example_result : Route :=
  ok_route (@translate_route map_order example_lib (Some example_am) ["a.example"] "80" example_vhost example_route).

Lemma example_keyed : keyed (GetPlugins example_am).
Proof. apply map_Forall_singleton. reflexivity. Qed.

Lemma translate_route_spec_witness :
  Route_Uris example_result = ["/api*"] ∧ Route_UpstreamId example_result = "<v2>" ∧
  Route_Vars example_result = [[VarStr "request_method"; VarStr "~~"; VarStr "^GET$"]].
Proof.
  destruct (@translate_route_spec map_order example_lib (Some example_am) ["a.example"] "80" example_vhost example_route
              example_result) as (m & a & c & uri & hs & qs & Hm & _ & Ha & Hu & Huris & Hhs & Hqs & Hvars & Hc & Hid & _).
  - vm_compute. reflexivity.
  - injection Hm as <-. injection Ha as <-. inversion Hu; subst. split; [exact Huris|]. split.
    + inversion Hc as [|clusters c' Heq]. subst. apply (app_inj_2 clusters [mkWeightedCluster "v1" (Some 90%Z)]) in Heq as [_ [= ->]]; [|reflexivity].
      exact Hid.
    + vm_compute. reflexivity.
Defined.

Lemma translate_route_plugins_witness :
  Route_Plugins example_result !! "fault-injection" =
    Some (PlFaultInjection (mkFaultInjection (Some (mkFaultInjectionAbort 503 "" 50 [])) None)) ∧
  Route_Plugins example_result !! "limit" = Some (PlConfig None).
Proof.
  destruct (@translate_route_plugins map_order example_lib example_am ["a.example"] "80" example_vhost example_route
              example_result) as (_ & _ & Hfault & Hother).
  - vm_compute. reflexivity.
  - apply example_keyed.
  - split.
    + apply Hfault. exists (mkAny httpFaultV3 "fault"), example_fault. split_and!; [reflexivity..| |].
      * apply (AbortStatus (mkFaultAbort (Some (FaultAbort_HttpStatus 503)) (Some (mkFractionalPercent 50 0)))). reflexivity.
      * apply DelayNone.
    + rewrite (Hother "limit"); [vm_compute; reflexivity|discriminate|intros Heq; discriminate Heq|intros Heq; discriminate Heq].
Defined.

Lemma traffic_split_spec_witness : ∃ ws c,
  Route_Plugins example_result !! PluginTrafficSplit = Some (PlTrafficSplit (mkTrafficSplit [mkTrafficSplitRule [] ws]))
  ∧ WC_Name c = "v2" ∧ length ws = 2.
Proof.
  destruct (@traffic_split_spec map_order example_lib example_am ["a.example"] "80" example_vhost example_route
              example_result example_action
              [mkWeightedCluster "v1" (Some 90%Z); mkWeightedCluster "v2" (Some 10%Z)])
    as (ws & c & Hp & Hl & _ & Hlen & _).
  - vm_compute. reflexivity.
  - reflexivity.
  - reflexivity.
  - injection Hl as <-. exists ws, (mkWeightedCluster "v2" (Some 10%Z)). split; [exact Hp|]. split; [reflexivity|exact Hlen].
Defined.


Definition reverse_order : GoRange := {|
  range := λ A _ m, reverse (map_to_list m);
  range_perm := λ A _ m, reverse_Permutation (map_to_list m)
|}.

Lemma TranslateRouteConfiguration_deterministic_witness :
  @TranslateRouteConfiguration map_order example_lib (Some example_am) example_rc None =
  @TranslateRouteConfiguration reverse_order example_lib (Some example_am) example_rc None.
Proof.
  apply TranslateRouteConfiguration_deterministic; [apply example_keyed|].
  apply map_Forall_singleton. split; discriminate.
Defined.

Lemma convertPercent_spec_witness : convertPercent (Some (mkFractionalPercent 4000000 2)) = 100%Z.
Proof.
  destruct (convertPercent_spec (Some (mkFractionalPercent 4000000 2))) as [_ H].
  - intros p Hp. injection Hp as <-. unfold is_uint32. cbn. lia.
  - exact H.
Defined.
