(* ===== verification/Finite.v ===== *)
(** * Everything the provisioner keeps can be marshalled

    [json.Marshal] fails on NaN and infinities only.  The floats of routes and
    upstreams come from durations (64-bit integers) and from decoded JSON, so
    they are finite: [route_finite] and [upstream_finite] hold of whatever the
    translation builds. *)

From S2P Require Import Prelude GoStrings GoNum Json Apisix Xds StringSet JsonParse.
From S2P Require Import AmeshPlugins RouteTranslator RouteSpec Endpoint.
From Stdlib Require Import SpecFloat.

(** ** Decoded JSON *)

Lemma parse_float64_finite lit f : parse_float64 lit = Some f → is_finite_float f = true.
Proof.
  unfold parse_float64. destruct (decimal_of_literal lit) as [[[neg d] x]|]; [|done]. cbn [mbind option_bind].
  destruct (is_finite_float (float_of_decimal 53 1024 neg d x)) eqn:Hf; [|done]. by intros [= <-].
Qed.

Lemma elem_of_normal_object {A} (l : list (string * A)) kv : kv ∈ normal_object l → kv ∈ l.
Proof.
  unfold normal_object. rewrite sort_keys_perm.
  assert (∀ acc, kv ∈ foldl (λ (acc : list (string * A)) kv, filter (λ kv', kv'.1 ≠ kv.1) acc ++ [kv]) acc l →
                 kv ∈ acc ∨ kv ∈ l) as Hfold; [|intros Hin%Hfold; by destruct Hin as [?%elem_of_nil|?]].
  induction l as [|kv0 l IH]; intros acc Hin; [by left|]. cbn [foldl] in Hin.
  apply IH in Hin as [Hin|Hin]; [|by right; right].
  apply elem_of_app in Hin as [[_ Hin]%list_elem_of_filter| ->%list_elem_of_singleton]; [by left|right; by left].
Qed.

Lemma mapM_option_elem {A B} (f : A → option B) l bs b :
  mapM f l = Some bs → b ∈ bs → ∃ a, a ∈ l ∧ f a = Some b.
Proof.
  intros Hl Hb. apply mapM_Some in Hl. apply list_elem_of_lookup in Hb as [i Hi].
  destruct (Forall2_lookup_r _ _ _ _ _ Hl Hi) as (a & Ha & Hf). exists a. split; [|done].
  by eapply list_elem_of_lookup_2.
Qed.

Lemma decode_any_finite j a : decode_any j = Some a → any_finite a = true.
Proof.
  revert a; induction j as [|b|lit|s|l IH|l IH] using json_nested_ind; intros a Ha; cbn [decode_any] in Ha.
  - by injection Ha as <-.
  - by injection Ha as <-.
  - destruct (parse_float64 lit) as [f|] eqn:Hf; [|done]. injection Ha as <-. by eapply parse_float64_finite.
  - by injection Ha as <-.
  - destruct (mapM decode_any l) as [as'|] eqn:Hl; [|done]. injection Ha as <-. cbn [any_finite].
    apply forallb_forall. intros x Hx%list_elem_of_In.
    destruct (mapM_option_elem _ _ _ _ Hl Hx) as (j & Hj & Hd). rewrite Forall_forall in IH. by eapply IH.
  - destruct (mapM _ l) as [kvs|] eqn:Hl; [|done]. injection Ha as <-. cbn [any_finite].
    apply forallb_forall. intros [k x] Hx%list_elem_of_In%elem_of_normal_object.
    destruct (mapM_option_elem _ _ _ _ Hl Hx) as ([k' j] & Hj & Hd).
    destruct (decode_any j) as [x'|] eqn:Hd'; [|done]. injection Hd as <- <-.
    rewrite Forall_forall in IH. by apply (IH (k', j) Hj).
Qed.

Lemma Unmarshal_map_finite s m : Unmarshal_map s = Some m → any_map_finite m = true.
Proof.
  unfold Unmarshal_map. destruct (parse_json s) as [[]|]; try done; cbn [mbind option_bind].
  - by intros [= <-].
  - destruct (decode_any _) as [[]|] eqn:Hd; try done. intros [= <-]. by apply decode_any_finite in Hd.
Qed.

(** ** The controller's plugins *)

Definition configs_finite (m : gmap string ApisixPlugin) : Prop :=
  map_Forall (λ _ p, any_map_finite (AP_Config p) = true) m.

Lemma update_plugin_finite m pl : configs_finite m → configs_finite (update_plugin m pl).
Proof.
  intros Hm. unfold update_plugin. destruct (Unmarshal_map _) as [c|] eqn:Hc; [|done].
  apply map_Forall_insert_2; [|done]. by eapply Unmarshal_map_finite.
Qed.

Lemma foldl_update_plugin_finite m l : configs_finite m → configs_finite (foldl update_plugin m l).
Proof. revert m; induction l as [|pl l IH]; intros m Hm; [done|]. apply IH. by apply update_plugin_finite. Qed.

Lemma updatePlugins_finite p resp :
  configs_finite (AM_config p) → configs_finite (AM_config (updatePlugins p resp).1).
Proof.
  intros Hp. destruct resp as [[e|] configs]; [done|]. rewrite updatePlugins_eq. cbn [AM_config].
  apply foldl_update_plugin_finite, map_Forall_empty.
Qed.

(** ** Routes *)

Definition plugins_finite (m : gmap string plugin) : Prop := map_Forall (λ _ p, plugin_finite p = true) m.

Lemma with_ext_finite name conf m :
  Forall (λ e, any_map_finite (AEP_Value e) = true) conf → plugins_finite m → plugins_finite (with_ext name conf m).
Proof.
  intros Hc Hm. unfold with_ext. destruct conf; [done|]. cbn [empty_list]. apply map_Forall_insert_2; [|done].
  cbn [plugin_finite AEPC_Conf]. apply forallb_forall. rewrite Forall_forall in Hc.
  intros x Hx%list_elem_of_In. by apply Hc.
Qed.

Lemma patch_plugins_finite `{GoRange} seed am plugins :
  keyed am → configs_finite am → plugins_finite plugins → plugins_finite (patch_plugins seed am plugins).
Proof.
  intros Hkey Ham Hpl k p Hk. rewrite patch_plugins_lookup in Hk by done. cbv zeta in Hk.
  assert (∀ type, forallb (λ e, any_map_finite (AEP_Value e)) (ext_plugins type seed am) = true) as Hext.
  { intros type. apply forallb_forall. intros e He%list_elem_of_In.
    apply elem_of_ext_plugins in He as (k' & p' & Hk' & _ & ->). by apply Ham in Hk'. }
  destruct (decide (_ ∧ _)) in Hk; [injection Hk as <-; apply Hext|].
  destruct (decide (_ ∧ _)) in Hk; [injection Hk as <-; apply Hext|].
  destruct (am !! k) as [p'|] eqn:Hp'; [|done]. case_bool_decide.
  - injection Hk as <-. by apply Ham in Hp'.
  - by apply Hpl in Hk.
Qed.

(** The durations of a message are 64-bit integers. *)
Definition route_durations (route : XRoute) : Prop :=
  ∀ a d, XRoute_GetRoute route = Some a → RA_Timeout a = Some d → is_int64 (Duration_Seconds d).

Lemma route_timeout_finite route :
  route_durations route → opt_finite timeout_finite (route_timeout route) = true.
Proof.
  intros Hd. unfold route_timeout. destruct (XRoute_GetRoute route) as [a|] eqn:Ha; [|done]. cbn [mbind option_bind].
  destruct (RA_Timeout a) as [d|] eqn:Ht; [|done]. cbn [mbind option_bind].
  destruct (0 <? _)%Z; [|done]. cbn [opt_finite]. unfold timeout_finite. cbn [Timeout_Connect Timeout_Send Timeout_Read].
  by rewrite float64_of_Z_finite by (by eapply Hd).
Qed.

Lemma own_plugins_finite `{XdsLib} route m : plugins_finite m → plugins_finite (own_plugins route m).
Proof.
  intros Hm. unfold own_plugins. apply map_Forall_insert_2; [done|]. unfold with_fault.
  destruct (_ ≫= _); [|done]. by apply map_Forall_insert_2.
Qed.

Lemma translate_route_finite `{GoRange} `{XdsLib} am hosts name vhost route r :
  translate_route (Some am) hosts name vhost route = Ret (RouteOk r) →
  keyed (GetPlugins am) → configs_finite (GetPlugins am) → route_durations route → route_finite r.
Proof.
  rewrite translate_route_eq. intros Hr Hkey Ham Hd.
  destruct (route_parts_of route) as [[parts|res]|] eqn:Hp; [| |done].
  2: { cbn in Hr. injection Hr as ->. by apply route_parts_not_ok in Hp. }
  cbn [deref mbind outcome_bind] in Hr.
  assert (plugins_finite (own_plugins route (patch_plugins (Route_Id (parts_route hosts name vhost route parts))
            (GetPlugins am) ∅))) as Hfin.
  { apply own_plugins_finite, patch_plugins_finite; [done..|apply map_Forall_empty]. }
  pose proof (route_timeout_finite route Hd) as Ht.
  destruct (weighted_clusters route) as [cs|].
  - destruct (weighted_upstreams cs); [|done]. injection Hr as <-. split; [done|]. by apply map_Forall_insert_2.
  - injection Hr as <-. done.
Qed.

Lemma patch_route_finite `{GoRange} seed am r :
  keyed am → configs_finite am → route_finite r →
  route_finite (set_Route_Plugins (patch_plugins seed am (Route_Plugins r)) r).
Proof. intros Hkey Ham [Ht Hp]. destruct r. split; [done|]. by apply patch_plugins_finite. Qed.

(** ** Route configurations *)

Definition config_durations (rc : RouteConfiguration) : Prop :=
  ∀ vhost route, vhost ∈ RC_VirtualHosts rc → route ∈ VH_Routes vhost → route_durations route.

(** What holds of every route that [translate_route] returns holds of the routes
    of a whole configuration. *)
Section Configurations.
Context `{GoRange} `{XdsLib} (amesh : option ameshProvisioner) (P : Route → Prop).

Lemma translateVirtualHost_forall name vhost routes e :
  translateVirtualHost amesh name vhost = Ret (routes, e) →
  (∀ hosts name route r, route ∈ VH_Routes vhost → translate_route amesh hosts name vhost route = Ret (RouteOk r) → P r) →
  Forall P routes.
Proof.
  intros Hv Hd. unfold translateVirtualHost in Hv.
  change (Forall P (routes, e).1). revert Hv.
  apply (go_foldl_inv (λ acc, Forall P acc.1)); [apply Forall_nil_2|]. intros [acc e0] route b' Hin Hacc Hstep. cbn [fst] in Hacc.
  unfold vhost_step in Hstep. apply bind_ret in Hstep as (res & Hres & Hstep). injection Hstep as <-.
  destruct res as [| |r]; [done|done|]. cbn [fst]. apply Forall_app_2; [done|]. apply Forall_singleton_2. eauto.
Qed.

Lemma translate_vhosts_forall name acc vhosts routes :
  translate_vhosts amesh name acc vhosts = Ret (inl routes) →
  (∀ hosts name vhost route r, vhost ∈ vhosts → route ∈ VH_Routes vhost →
     translate_route amesh hosts name vhost route = Ret (RouteOk r) → P r) →
  Forall P acc → Forall P routes.
Proof.
  revert acc; induction vhosts as [|vh l IH]; intros acc Hr Hd Hacc; cbn [translate_vhosts] in Hr.
  { by injection Hr as <-. }
  apply bind_ret in Hr as ([partial e] & Hv & Hr). destruct e; [done|].
  apply IH in Hr; [done| |].
  - intros ? ? ? ? ? ?. apply Hd. by right.
  - apply Forall_app_2; [done|]. eapply translateVirtualHost_forall; [done|]. intros ? ? ? ?. apply Hd. by left.
Qed.

Lemma TranslateRouteConfiguration_forall rc own routes :
  TranslateRouteConfiguration amesh rc own = Ret (inl routes) →
  (∀ hosts name vhost route r, vhost ∈ RC_VirtualHosts rc → route ∈ VH_Routes vhost →
     translate_route amesh hosts name vhost route = Ret (RouteOk r) → P r) →
  Forall P routes.
Proof.
  intros Hr Hd. unfold TranslateRouteConfiguration in Hr.
  apply bind_ret in Hr as (res & Hres & Hr). destruct res as [routes'|]; [|done]. injection Hr as <-.
  assert (Forall P routes') as Hfin by (eapply translate_vhosts_forall; eauto).
  destruct own as [m|]; [|done]. by destruct (m !! RC_Name rc).
Qed.
End Configurations.

Lemma TranslateRouteConfiguration_finite `{GoRange} `{XdsLib} am rc own routes :
  keyed (GetPlugins am) → configs_finite (GetPlugins am) →
  TranslateRouteConfiguration (Some am) rc own = Ret (inl routes) → config_durations rc →
  Forall route_finite routes.
Proof.
  intros Hkey Hconf Hr Hd. eapply TranslateRouteConfiguration_forall; [done|].
  intros hosts name vhost route r Hv Hroute Ht. eapply translate_route_finite; eauto.
Qed.
