(* ===== verification/JsonRoundtrip.v ===== *)
(** * Reading back what [encoding/json] writes

    [parse_json (print_json j) = Some j] for the values that the encoder builds:
    number literals in the grammar, strings of valid UTF-8 (on others the
    encoder substitutes U+FFFD) and nesting within the decoder's limit. *)

From S2P Require Import Prelude GoStrings GoNum Json Apisix JsonParse.
Local Open Scope Z_scope.

(** ** Strings *)

Lemma chr_byte c : chr (byte c) = c.
Proof. unfold chr, byte. rewrite N2Z.id. apply ascii_N_embedding. Qed.

Lemma byte_inj c z : byte c = z → c = chr z.
Proof. intros <-. by rewrite chr_byte. Qed.

(** Valid UTF-8, by the decoder's own table of sequences. *)
Fixpoint valid_utf8 (s : string) : bool :=
  match s with
  | "" => true
  | String c1 s1 =>
      if byte c1 <? 128 then valid_utf8 s1 else
      match s1 with
      | "" => false
      | String c2 s2 =>
          if valid2 (byte c1) (byte c2) then valid_utf8 s2 else
          match s2 with
          | "" => false
          | String c3 s3 =>
              if valid3 (byte c1) (byte c2) (byte c3) then valid_utf8 s3 else
              match s3 with
              | "" => false
              | String c4 s4 =>
                  if valid4 (byte c1) (byte c2) (byte c3) (byte c4) then valid_utf8 s4 else false
              end
          end
      end
  end.

Lemma unquote_ascii c t : (byte c <? 128) = true →
  unquote (escape_ascii c +:+ t) = prepend (String c "") (unquote t).
Proof.
  intros Hc. destruct c as [[] [] [] [] [] [] [] []]; try discriminate Hc; reflexivity.
Qed.

(** A byte above ASCII is none of the bytes that [unquote] singles out. *)
Lemma high_byte c : (byte c <? 128) = false →
  (byte c =? 34) = false ∧ (byte c =? 92) = false ∧ (byte c <? 32) = false.
Proof. rewrite Z.ltb_ge. intros Hc. split_and!; [apply Z.eqb_neq|apply Z.eqb_neq|apply Z.ltb_ge]; lia. Qed.

Lemma unquote_line_sep c3 t : in_range 168 169 (byte c3) = true →
  unquote (String backslash ("u202" +:+ String (hex_digit (byte c3 - 160)) t)) =
    prepend (String (chr 226) (String (chr 128) (String c3 ""))) (unquote t).
Proof.
  intros Hc. unfold in_range in Hc. apply andb_true_iff in Hc as [H1%Z.leb_le H2%Z.leb_le].
  assert (byte c3 = 168 ∨ byte c3 = 169) as [E|E] by lia; rewrite E;
    apply byte_inj in E as ->; reflexivity.
Qed.

Lemma prepend_some p d r : prepend p (Some (d, r)) = Some (p +:+ d, r).
Proof. done. Qed.

Lemma unquote_escape s r :
  valid_utf8 s = true → unquote (escape_string s +:+ String quote r) = Some (s, r).
Proof.
  remember (String.length s) as n eqn:Hn. assert (String.length s ≤ n)%nat as Hle by lia. clear Hn.
  revert s Hle; induction n as [|n IH]; intros s Hle Hv.
  { destruct s; [reflexivity|cbn in Hle; lia]. }
  destruct s as [|c1 s1]; [reflexivity|]. cbn [String.length] in Hle. cbn [valid_utf8 escape_string] in *.
  destruct (byte c1 <? 128) eqn:H1.
  { rewrite <- append_assoc, unquote_ascii, IH by (done || lia). done. }
  destruct (high_byte c1 H1) as (Hq & Hb & Hctl).
  destruct s1 as [|c2 s2]; [done|]. cbn [String.length] in Hle.
  destruct (valid2 (byte c1) (byte c2)) eqn:H2.
  { rewrite !append_cons. cbn [unquote]. rewrite Hq, Hb, Hctl, H1, H2, IH by (done || lia). done. }
  destruct s2 as [|c3 s3]; [done|]. cbn [String.length] in Hle.
  destruct (valid3 (byte c1) (byte c2) (byte c3)) eqn:H3.
  { destruct ((byte c1 =? 226) && (byte c2 =? 128) && in_range 168 169 (byte c3)) eqn:Hsep.
    - rewrite !andb_true_iff, !Z.eqb_eq in Hsep. destruct Hsep as [[E1 E2] E3].
      rewrite append_cons, <- append_assoc, (append_cons (hex_digit _)), unquote_line_sep, IH by (done || lia).
      apply byte_inj in E1 as ->. apply byte_inj in E2 as ->. done.
    - rewrite !append_cons. cbn [unquote]. rewrite Hq, Hb, Hctl, H1, H2, H3, IH by (done || lia). done. }
  destruct s3 as [|c4 s4]; [done|]. cbn [String.length] in Hle.
  destruct (valid4 (byte c1) (byte c2) (byte c3) (byte c4)) eqn:H4; [|done].
  rewrite !append_cons. cbn [unquote]. rewrite Hq, Hb, Hctl, H1, H2, H3, H4, IH by (done || lia). done.
Qed.

(** ** Numbers *)

(** What may follow a value in a document. *)
Definition terminated (r : string) : Prop :=
  match r with "" => True | String c _ => byte c = 44 ∨ byte c = 93 ∨ byte c = 125 end.

Definition literal_ok (lit : string) : Prop := lex_number lit = Some (lit, "").

Lemma span_digits_terminated r : terminated r → span_digits r = ("", r).
Proof.
  destruct r as [|c r]; [done|]. intros Hr. cbn [span_digits]. unfold is_digit, in_range.
  destruct (Z.leb_spec 48 (byte c)); [|done]. destruct (Z.leb_spec (byte c) 57); [|done].
  cbn in Hr. lia.
Qed.

Lemma span_digits_app s d s1 r :
  span_digits s = (d, s1) → terminated r → span_digits (s +:+ r) = (d, s1 +:+ r).
Proof.
  revert d s1; induction s as [|c s IH]; intros d s1 Hs Hr; cbn [span_digits] in Hs.
  - injection Hs as <- <-. by apply span_digits_terminated.
  - rewrite append_cons. cbn [span_digits]. destruct (is_digit c).
    + destruct (span_digits s) as [d' r'] eqn:Hd. injection Hs as <- <-. by rewrite (IH d' r').
    + by injection Hs as <- <-.
Qed.

Lemma lex_int_app s i s1 r : lex_int s = Some (i, s1) → terminated r → lex_int (s +:+ r) = Some (i, s1 +:+ r).
Proof.
  destruct s as [|c s]; [done|]. rewrite append_cons. cbn [lex_int]. intros Hs Hr.
  destruct (byte c =? 48); [by injection Hs as <- <-|]. destruct (is_digit c); [|done].
  destruct (span_digits s) as [d s'] eqn:Hd. injection Hs as <- <-. by rewrite (span_digits_app _ _ _ _ Hd).
Qed.

Lemma ascii_byte c z : c = chr z → 0 ≤ z < 256 → byte c = z.
Proof. intros -> Hz. unfold byte, chr. rewrite N_ascii_embedding; lia. Qed.

Lemma lex_frac_other c s : byte c ≠ 46 → lex_frac (String c s) = Some ("", String c s).
Proof.
  intros Hc. destruct c as [[] [] [] [] [] [] [] []]; try reflexivity. by destruct Hc.
Qed.

Lemma lex_frac_dot c s : byte c = 46 →
  lex_frac (String c s) =
    let '(d, r) := span_digits s in if bool_decide (d = "") then None else Some (String c d, r).
Proof. intros ->%byte_inj. done. Qed.

Lemma lex_frac_app s f s1 r : lex_frac s = Some (f, s1) → terminated r → lex_frac (s +:+ r) = Some (f, s1 +:+ r).
Proof.
  destruct s as [|c s]; intros Hs Hr.
  - injection Hs as <- <-. change ("" +:+ r) with r. destruct r as [|c r]; [done|].
    apply lex_frac_other. cbn in Hr. lia.
  - rewrite append_cons. destruct (decide (byte c = 46)) as [E|E].
    + rewrite lex_frac_dot in * by done. destruct (span_digits s) as [d s'] eqn:Hd.
      rewrite (span_digits_app _ _ _ _ Hd) by done. case_bool_decide; [done|]. by injection Hs as <- <-.
    + rewrite lex_frac_other in * by done. by injection Hs as <- <-.
Qed.

(** The sign of an exponent. *)
Definition exp_sign (s : string) : string * string :=
  match s with String "+" r => ("+", r) | String "-" r => ("-", r) | _ => ("", s) end.

Lemma exp_sign_app c s r : exp_sign (String c s +:+ r) = ((exp_sign (String c s)).1, (exp_sign (String c s)).2 +:+ r).
Proof. destruct c as [[] [] [] [] [] [] [] []]; reflexivity. Qed.

Lemma lex_exp_app s e s1 r : lex_exp s = Some (e, s1) → terminated r → lex_exp (s +:+ r) = Some (e, s1 +:+ r).
Proof.
  destruct s as [|c s]; intros Hs Hr.
  - injection Hs as <- <-. change ("" +:+ r) with r. destruct r as [|c r]; [done|]. cbn [lex_exp].
    cbn in Hr. destruct (Z.eqb_spec (byte c) 101); [lia|]. destruct (Z.eqb_spec (byte c) 69); [lia|]. done.
  - rewrite append_cons. cbn [lex_exp] in *.
    destruct ((byte c =? 101) || (byte c =? 69)); [|by injection Hs as <- <-].
    change (match s with String "+" r => ("+", r) | String "-" r => ("-", r) | _ => ("", s) end)
      with (exp_sign s) in Hs.
    change (match s +:+ r with String "+" r => ("+", r) | String "-" r => ("-", r) | _ => ("", s +:+ r) end)
      with (exp_sign (s +:+ r)).
    destruct s as [|c' s]; [done|]. rewrite exp_sign_app. destruct (exp_sign (String c' s)) as [sign s'].
    cbn [fst snd]. destruct (span_digits s') as [d s''] eqn:Hd. rewrite (span_digits_app _ _ _ _ Hd) by done.
    case_bool_decide; [done|]. by injection Hs as <- <-.
Qed.

Definition num_sign (s : string) : string * string :=
  match s with String "-" r => ("-", r) | _ => ("", s) end.

Lemma num_sign_app c s r : num_sign (String c s +:+ r) = ((num_sign (String c s)).1, (num_sign (String c s)).2 +:+ r).
Proof. destruct c as [[] [] [] [] [] [] [] []]; reflexivity. Qed.

Lemma lex_number_sign s : lex_number s =
  (let '(sign, s) := num_sign s in
   '(i, s) ← lex_int s; '(f, s) ← lex_frac s; '(e, s) ← lex_exp s; Some (sign +:+ i +:+ f +:+ e, s)).
Proof. done. Qed.

Lemma lex_number_app lit r : literal_ok lit → terminated r → lex_number (lit +:+ r) = Some (lit, r).
Proof.
  unfold literal_ok. rewrite !lex_number_sign. intros Hlit Hr.
  destruct lit as [|c s]; [done|]. rewrite num_sign_app. destruct (num_sign (String c s)) as [sign s0].
  cbn [fst snd].
  destruct (lex_int s0) as [[i s1]|] eqn:Hi; [|done]. cbn [mbind option_bind] in Hlit.
  destruct (lex_frac s1) as [[f s2]|] eqn:Hf; [|done]. cbn [mbind option_bind] in Hlit.
  destruct (lex_exp s2) as [[e s3]|] eqn:He; [|done]. cbn [mbind option_bind] in Hlit.
  injection Hlit as Hlit ->.
  rewrite (lex_int_app _ _ _ _ Hi) by done. cbn [mbind option_bind].
  rewrite (lex_frac_app _ _ _ _ Hf) by done. cbn [mbind option_bind].
  rewrite (lex_exp_app _ _ _ _ He) by done. cbn [mbind option_bind]. by rewrite Hlit.
Qed.

(** ** Values *)

(** What the decoder reads back: [depth] is the nesting so far. *)
Fixpoint json_ok (depth : Z) (j : json) : bool :=
  match j with
  | JNum lit => bool_decide (lex_number lit = Some (lit, ""))
  | JStr s => valid_utf8 s
  | JArr l => (depth + 1 <=? max_depth) && forallb (json_ok (depth + 1)) l
  | JObj l => (depth + 1 <=? max_depth) &&
      forallb (λ kv, match kv with (k, j) => valid_utf8 k && json_ok (depth + 1) j end) l
  | _ => true
  end.

(** The fuel that a value needs. *)
Fixpoint need (j : json) : nat :=
  match j with
  | JArr l => S (list_sum (map (λ j, S (need j)) l))
  | JObj l => S (list_sum (map (λ kv, match kv with (_, j) => S (need j) end) l))
  | _ => 1
  end.

(** The first byte of a value. *)
Definition value_head (c : ascii) : Prop := is_ws c = false ∧ byte c ≠ 93 ∧ byte c ≠ 125.

Lemma literal_head lit : literal_ok lit → ∃ c s, lit = String c s ∧ (byte c = 45 ∨ is_digit c = true).
Proof.
  unfold literal_ok. destruct lit as [|c s]; [done|]. intros Hlit. exists c, s. split; [done|].
  rewrite lex_number_sign in Hlit. destruct (decide (byte c = 45)) as [|Hc]; [by left|right].
  assert (num_sign (String c s) = ("", String c s)) as Hs.
  { destruct c as [[] [] [] [] [] [] [] []]; try reflexivity. by destruct Hc. }
  rewrite Hs in Hlit. cbn [lex_int] in Hlit. destruct (byte c =? 48) eqn:H0.
  - apply Z.eqb_eq in H0. unfold is_digit. by rewrite H0.
  - by destruct (is_digit c).
Qed.

Lemma digit_range c : byte c = 45 ∨ is_digit c = true → 45 ≤ byte c ≤ 57.
Proof.
  unfold is_digit, in_range. intros [->|Hc]; [lia|]. apply andb_true_iff in Hc as [?%Z.leb_le ?%Z.leb_le]. lia.
Qed.

Lemma value_head_range c : 45 ≤ byte c ≤ 57 → value_head c.
Proof.
  intros Hc. unfold value_head, is_ws. split_and!; [|lia..].
  destruct (Z.eqb_spec (byte c) 32), (Z.eqb_spec (byte c) 9), (Z.eqb_spec (byte c) 10), (Z.eqb_spec (byte c) 13); lia || done.
Qed.

Lemma print_head depth j : json_ok depth j = true → ∃ c s, print_json j = String c s ∧ value_head c.
Proof.
  destruct j as [|[]|lit|s|l|l]; cbn [print_json json_ok]; intros Hok;
    try (eexists _, _; split; [reflexivity|]; by split_and!).
  apply bool_decide_eq_true in Hok. destruct (literal_head lit Hok) as (c & s & -> & Hc).
  exists c, s. split; [done|]. by apply value_head_range, digit_range.
Qed.

Lemma skip_ws_print depth j r : json_ok depth j = true → skip_ws (print_json j +:+ r) = print_json j +:+ r.
Proof.
  intros Hok. destruct (print_head depth j Hok) as (c & s & -> & Hc & _). rewrite append_cons. cbn [skip_ws].
  by rewrite Hc.
Qed.

Lemma parse_literal fuel depth lit r :
  literal_ok lit → terminated r → parse_value (S fuel) depth (lit +:+ r) = Some (JNum lit, r).
Proof.
  intros Hlit Hr. pose proof (lex_number_app lit r Hlit Hr) as Hlex.
  destruct (literal_head lit Hlit) as (c & s & -> & Hc). apply digit_range in Hc.
  destruct (value_head_range c Hc) as [Hws _]. rewrite append_cons in *. cbn [parse_value skip_ws]. rewrite Hws.
  assert (∀ z, z < 45 ∨ 57 < z → (byte c =? z) = false) as Hne by (intros; apply Z.eqb_neq; lia).
  rewrite !Hne by lia.
  assert (∀ p, HasPrefix (String c (s +:+ r)) (String p "ull") = false ∨ byte c = byte p) as Hn.
  { intros p. cbn [HasPrefix]. destruct (Ascii.eqb_spec p c) as [->|]; [by right|by left]. }
  assert (∀ p w, byte p < 45 ∨ 57 < byte p → HasPrefix (String c (s +:+ r)) (String p w) = false) as Hpre.
  { intros p w Hp. cbn [HasPrefix]. destruct (Ascii.eqb_spec p c) as [->|]; [lia|done]. }
  rewrite !Hpre by (right; reflexivity). by rewrite Hlex.
Qed.

Lemma parse_null fuel depth r : parse_value (S fuel) depth ("null" +:+ r) = Some (JNull, r).
Proof.
  pose proof (HasPrefix_app "null" r) as Hp. cbn [parse_value].
  change (skip_ws ("null" +:+ r)) with (String "n" ("ull" +:+ r)). cbn iota.
  by change (String "n" ("ull" +:+ r)) with ("null" +:+ r); rewrite Hp.
Qed.

Lemma parse_true fuel depth r : parse_value (S fuel) depth ("true" +:+ r) = Some (JBool true, r).
Proof.
  pose proof (HasPrefix_app "true" r) as Hp. cbn [parse_value].
  change (skip_ws ("true" +:+ r)) with (String "t" ("rue" +:+ r)). cbn iota.
  by change (String "t" ("rue" +:+ r)) with ("true" +:+ r); rewrite Hp.
Qed.

Lemma parse_false fuel depth r : parse_value (S fuel) depth ("false" +:+ r) = Some (JBool false, r).
Proof.
  pose proof (HasPrefix_app "false" r) as Hp. cbn [parse_value].
  change (skip_ws ("false" +:+ r)) with (String "f" ("alse" +:+ r)). cbn iota.
  by change (String "f" ("alse" +:+ r)) with ("false" +:+ r); rewrite Hp.
Qed.

Definition roundtrips (j : json) : Prop := ∀ fuel depth r,
  json_ok depth j = true → (need j ≤ fuel)%nat → terminated r →
  parse_value fuel depth (print_json j +:+ r) = Some (j, r).

Lemma comma_cons s l : comma (s :: l) = s +:+ match l with [] => "" | _ => "," +:+ comma l end.
Proof. destruct l; [|done]. unfold comma. cbn. by rewrite append_empty_r. Qed.

Lemma parse_elements_print l fuel depth r :
  l ≠ [] → Forall roundtrips l → forallb (json_ok depth) l = true →
  (list_sum (map (λ j, S (need j)) l) ≤ fuel)%nat →
  parse_elements fuel depth (comma (print_json <$> l) +:+ "]" +:+ r) = Some (l, r).
Proof.
  revert fuel; induction l as [|j l IH]; intros fuel Hne Hl Hok Hfuel; [done|].
  apply Forall_cons in Hl as [Hj Hl]. cbn [forallb] in Hok. apply andb_true_iff in Hok as [Hokj Hokl].
  cbn [map list_sum foldr] in Hfuel. change (foldr Init.Nat.add 0%nat (map ?f l)) with (list_sum (map f l)) in Hfuel.
  destruct fuel as [|fuel]; [lia|]. rewrite fmap_cons, comma_cons, <- append_assoc. cbn [parse_elements].
  destruct l as [|j' l].
  - rewrite Hj; [|done|lia|by right; left]. done.
  - change (match print_json <$> j' :: l with [] => "" | _ => "," +:+ comma (print_json <$> j' :: l) end)
      with ("," +:+ comma (print_json <$> j' :: l)).
    rewrite <- (append_assoc "," _ _), Hj; [|done|lia|by left]. cbn [mbind option_bind].
    change (skip_ws ("," +:+ ?t)) with (String "," t). cbn iota.
    change (byte "," =? 93) with false. change (byte "," =? 44) with true. cbn iota.
    rewrite IH; [done|done|done|done|]. lia.
Qed.

Lemma forallb_pointwise {A} (f g : A → bool) l : (∀ x, f x = g x) → forallb f l = forallb g l.
Proof. intros Hfg. induction l as [|x l IH]; [done|]. cbn. by rewrite Hfg, IH. Qed.

Definition print_member (kv : string * json) : string := quote_string kv.1 +:+ ":" +:+ print_json kv.2.
Definition member_ok (depth : Z) (kv : string * json) : bool := valid_utf8 kv.1 && json_ok depth kv.2.

Lemma parse_key k r : valid_utf8 k = true →
  ∃ s1, quote_string k +:+ r = String quote s1 ∧ unquote s1 = Some (k, r).
Proof.
  intros Hk. exists (escape_string k +:+ String quote r). split; [|by apply unquote_escape].
  unfold quote_string. by rewrite append_cons, <- append_assoc.
Qed.

Lemma parse_members_print l fuel depth r :
  l ≠ [] → Forall (λ kv, roundtrips kv.2) l → forallb (member_ok depth) l = true →
  (list_sum (map (λ kv, S (need kv.2)) l) ≤ fuel)%nat →
  parse_members fuel depth (comma (print_member <$> l) +:+ "}" +:+ r) = Some (l, r).
Proof.
  revert fuel; induction l as [|[k j] l IH]; intros fuel Hne Hl Hok Hfuel; [done|].
  apply Forall_cons in Hl as [Hj Hl]. cbn [forallb] in Hok. apply andb_true_iff in Hok as [Hokj Hokl].
  unfold member_ok in Hokj. cbn [fst snd] in Hokj. apply andb_true_iff in Hokj as [Hk Hokj].
  cbn [map list_sum foldr fst snd] in Hfuel, Hj. change (foldr Init.Nat.add 0%nat (map ?f l)) with (list_sum (map f l)) in Hfuel.
  destruct fuel as [|fuel]; [lia|]. rewrite fmap_cons, comma_cons, <- append_assoc. unfold print_member at 1. cbn [fst snd].
  rewrite <- append_assoc.
  match goal with |- context [quote_string k +:+ ?t] => destruct (parse_key k t Hk) as (s1 & -> & Hu) end.
  cbn [parse_members]. change (skip_ws (String quote s1)) with (String quote s1). cbn iota.
  change (byte quote =? 34) with true. cbn [negb]. rewrite Hu. cbn [mbind option_bind].
  rewrite <- append_assoc. change (skip_ws (":" +:+ ?t)) with (String ":" t). cbn iota.
  change (byte ":" =? 58) with true. cbn [negb].
  destruct l as [|kv l].
  - rewrite Hj; [|done|lia|by right; right]. done.
  - change (match print_member <$> kv :: l with [] => "" | _ => "," +:+ comma (print_member <$> kv :: l) end)
      with ("," +:+ comma (print_member <$> kv :: l)).
    rewrite <- (append_assoc "," _ _), Hj; [|done|lia|by left]. cbn [mbind option_bind].
    change (skip_ws ("," +:+ ?t)) with (String "," t). cbn iota.
    change (byte "," =? 125) with false. change (byte "," =? 44) with true. cbn iota.
    rewrite IH; [done|done|done|done|]. lia.
Qed.

(** The first byte of a non-empty list of elements. *)
Lemma print_list_head depth j l r : json_ok depth j = true →
  ∃ c s, skip_ws (comma (print_json <$> (j :: l)) +:+ r) = String c s ∧ (byte c =? 93) = false.
Proof.
  intros Hok. rewrite fmap_cons, comma_cons, <- append_assoc, (skip_ws_print depth) by done.
  destruct (print_head depth j Hok) as (c & s & -> & _ & Hc & _). rewrite append_cons.
  eexists _, _. split; [done|]. by apply Z.eqb_neq.
Qed.

Lemma print_members_head kv l r :
  ∃ c s, skip_ws (comma (print_member <$> (kv :: l)) +:+ r) = String c s ∧ (byte c =? 125) = false.
Proof. rewrite fmap_cons, comma_cons, <- append_assoc. unfold print_member at 1. eexists _, _. split; reflexivity. Qed.

Lemma json_roundtrips j : roundtrips j.
Proof.
  induction j as [| |lit|s|l IH|l IH] using json_nested_ind; intros fuel depth r Hok Hfuel Hr;
    (destruct fuel as [|fuel]; [cbn [need] in Hfuel; lia|]); cbn [json_ok need print_json] in *.
  - apply parse_null.
  - destruct b; [apply parse_true|apply parse_false].
  - apply parse_literal; [by apply bool_decide_eq_true in Hok|done].
  - destruct (parse_key s r Hok) as (s1 & -> & Hu). cbn [parse_value].
    change (skip_ws (String quote s1)) with (String quote s1). cbn iota. change (byte quote =? 34) with true.
    cbn iota. by rewrite Hu.
  - apply andb_true_iff in Hok as [Hdepth%Z.leb_le Hok]. rewrite <- !append_assoc.
    cbn [parse_value]. change (skip_ws ("[" +:+ ?t)) with (String "[" t). cbn iota.
    change (byte "[" =? 34) with false. change (byte "[" =? 91) with true. cbn iota.
    destruct (Z.ltb_spec max_depth (depth + 1)); [lia|]. destruct l as [|j l]; [reflexivity|].
    pose proof Hok as Hokj. cbn [forallb] in Hokj. apply andb_true_iff in Hokj as [Hokj _].
    destruct (print_list_head _ _ l ("]" +:+ r) Hokj) as (c & s & Hskip & Hc). rewrite Hskip, Hc.
    rewrite parse_elements_print; [done|done|done|done|lia].
  - apply andb_true_iff in Hok as [Hdepth%Z.leb_le Hok]. rewrite <- !append_assoc.
    cbn [parse_value]. change (skip_ws ("{" +:+ ?t)) with (String "{" t). cbn iota.
    change (byte "{" =? 34) with false. change (byte "{" =? 91) with false. change (byte "{" =? 123) with true. cbn iota.
    destruct (Z.ltb_spec max_depth (depth + 1)); [lia|]. destruct l as [|kv l]; [reflexivity|].
    fold print_member.
    destruct (print_members_head kv l ("}" +:+ r)) as (c & s & Hskip & Hc). rewrite Hskip, Hc.
    rewrite parse_members_print; [done|done|done| |].
    + rewrite <- Hok. apply forallb_pointwise. by intros [].
    + assert (map (λ kv, S (need kv.2)) (kv :: l) = map (λ kv, match kv with (_, j) => S (need j) end) (kv :: l)) as ->.
      { by apply map_ext; intros []. }
      lia.
Qed.

(** ** The fuel of [parse_json] *)

Lemma list_sum_map_cons {A} (f : A → nat) x l : list_sum (map f (x :: l)) = (f x + list_sum (map f l))%nat.
Proof. done. Qed.

Lemma length_comma l :
  (String.length (comma l) + 1 ≥ list_sum (map (λ s, S (String.length s)) l))%nat.
Proof.
  induction l as [|s l IH]; [cbn; lia|]. rewrite comma_cons, length_append, list_sum_map_cons.
  destruct l as [|s' l]; [cbn; lia|]. rewrite length_append. cbn [String.length]. lia.
Qed.

Lemma list_sum_le {A} (f g : A → nat) l :
  Forall (λ x, (f x ≤ g x)%nat) l → (list_sum (map f l) ≤ list_sum (map g l))%nat.
Proof. induction 1 as [|x l Hx _ IH]; [done|]. rewrite !list_sum_map_cons. lia. Qed.

Lemma list_sum_scale {A} (f : A → nat) l : (list_sum (map (λ x, 2 * f x) l) = 2 * list_sum (map f l))%nat.
Proof. induction l as [|x l IH]; [done|]. rewrite !list_sum_map_cons. lia. Qed.

Lemma need_bound depth j : json_ok depth j = true → (need j ≤ 2 * String.length (print_json j))%nat.
Proof.
  revert depth; induction j as [| |lit|s|l IH|l IH] using json_nested_ind; intros depth Hok;
    cbn [json_ok need print_json] in *; try (cbn; lia).
  - destruct b; cbn; lia.
  - apply bool_decide_eq_true in Hok. destruct (literal_head lit Hok) as (c & s & -> & _). cbn [String.length]. lia.
  - apply andb_true_iff in Hok as [_ Hok]. rewrite forallb_forall in Hok.
    rewrite !length_append. cbn [String.length].
    pose proof (length_comma (print_json <$> l)) as Hlen.
    assert (list_sum (map (λ j, S (need j)) l) ≤ 2 * list_sum (map (λ s, S (String.length s)) (print_json <$> l)))%nat.
    { change (print_json <$> l) with (map print_json l). rewrite map_map, <- list_sum_scale.
      apply list_sum_le, Forall_forall. intros j Hj. rewrite Forall_forall in IH.
      specialize (IH j Hj (depth + 1) (Hok j (proj1 (list_elem_of_In _ _) Hj))). lia. }
    lia.
  - apply andb_true_iff in Hok as [_ Hok]. rewrite forallb_forall in Hok.
    rewrite !length_append. cbn [String.length]. fold print_member.
    pose proof (length_comma (print_member <$> l)) as Hlen.
    assert (list_sum (map (λ kv, match kv with (_, j) => S (need j) end) l)
            ≤ 2 * list_sum (map (λ s, S (String.length s)) (print_member <$> l)))%nat.
    { change (print_member <$> l) with (map print_member l). rewrite map_map, <- list_sum_scale.
      apply list_sum_le, Forall_forall. intros [k j] Hj. rewrite Forall_forall in IH.
      specialize (Hok (k, j) (proj1 (list_elem_of_In _ _) Hj)). cbn in Hok. apply andb_true_iff in Hok as [_ Hok].
      specialize (IH (k, j) Hj (depth + 1) Hok). unfold print_member. rewrite !length_append.
      cbn [fst snd] in *. lia. }
    lia.
Qed.

Lemma parse_print j : json_ok 0 j = true → parse_json (print_json j) = Some j.
Proof.
  intros Hok. unfold parse_json.
  assert (parse_value (S (2 * String.length (print_json j))) 0 (print_json j +:+ "") = Some (j, "")) as Hp.
  { apply json_roundtrips; [done| |done]. pose proof (need_bound 0 j Hok). lia. }
  rewrite append_empty_r in Hp. by rewrite Hp.
Qed.
