(* ===== verification/UpstreamJson.v ===== *)
(** * Decoding an upstream ([json.Unmarshal] into [apisix.Upstream])

    The decoder of the structs of src/pkg/apisix/upstream.go, used by the
    provisioner to copy an upstream through JSON.  It reads the documents that
    [json.Marshal] writes: keys with the exact names of the tags, none repeated;
    an absent or [null] member leaves the zero value. *)

From S2P Require Import Prelude GoStrings GoNum Json Apisix JsonParse.
From Stdlib Require Import SpecFloat.
Local Open Scope Z_scope.

(** A type that decodes from JSON: its zero value and its decoder. *)
Class FromJson (A : Type) := { zero : A; from_json : json → option A }.

Definition null_or {A} (z : A) (f : json → option A) (j : json) : option A :=
  match j with JNull => Some z | _ => f j end.

#[export] Instance from_json_string : FromJson string :=
  {| zero := ""; from_json := null_or "" (λ j, match j with JStr s => Some s | _ => None end) |}.
#[export] Instance from_json_bool : FromJson bool :=
  {| zero := false; from_json := null_or false (λ j, match j with JBool b => Some b | _ => None end) |}.
#[export] Instance from_json_float : FromJson spec_float :=
  {| zero := S754_zero false;
     from_json := null_or (S754_zero false) (λ j, match j with JNum lit => parse_float64 lit | _ => None end) |}.

(** Integers are decoded at their width. *)
Definition from_json_int (bits : Z) : FromJson Z :=
  {| zero := 0; from_json := null_or 0 (λ j, match j with JNum lit => ParseInt bits lit | _ => None end) |}.

(** A pointer, a slice and a string map; [null] is nil. *)
#[export] Instance from_json_option {A} `{FromJson A} : FromJson (option A) :=
  {| zero := None; from_json := null_or None (λ j, Some <$> from_json j) |}.
#[export] Instance from_json_list {A} `{FromJson A} : FromJson (list A) :=
  {| zero := []; from_json := null_or [] (λ j, match j with JArr l => mapM from_json l | _ => None end) |}.
#[export] Instance from_json_labels : FromJson (gmap string string) :=
  {| zero := ∅;
     from_json := null_or ∅ (λ j, match j with
       | JObj l => (λ kvs, foldl (λ m kv, <[kv.1 := kv.2]> m) ∅ kvs) <$>
                   mapM (λ kv, pair kv.1 <$> from_json kv.2) l
       | _ => None
       end) |}.
#[export] Instance from_json_any_map : FromJson any_map :=
  {| zero := None;
     from_json := null_or None (λ j, match j with
       | JObj _ => a ← decode_any j; match a with AnyObj m => Some (Some m) | _ => None end
       | _ => None
       end) |}.

(** ** Structs *)

Fixpoint assoc (name : string) (l : list (string * json)) : option json :=
  match l with
  | [] => None
  | (k, j) :: l => if bool_decide (k = name) then Some j else assoc name l
  end.

(** The member [name] of an object, the zero value when absent. *)
Definition member {A} `{FromJson A} (name : string) (l : list (string * json)) : option A :=
  match assoc name l with None => Some zero | Some j => from_json j end.
Definition member_int (bits : Z) (name : string) (l : list (string * json)) : option Z :=
  @member Z (from_json_int bits) name l.
Definition member_ints (name : string) (l : list (string * json)) : option (list Z) :=
  @member (list Z) (@from_json_list Z (from_json_int 32)) name l.

Definition struct {A} (z : A) (f : list (string * json) → option A) : FromJson A :=
  {| zero := z; from_json := null_or z (λ j, match j with JObj l => f l | _ => None end) |}.

#[export] Instance from_json_Timeout : FromJson Timeout :=
  struct (mkTimeout (S754_zero false) (S754_zero false) (S754_zero false)) (λ l,
    c ← member "connect" l; s ← member "send" l; r ← member "read" l; Some (mkTimeout c s r)).

#[export] Instance from_json_Node : FromJson Node :=
  struct (mkNode "" 0 0 None) (λ l,
    h ← member "host" l; p ← member_int 32 "port" l; w ← member_int 32 "weight" l;
    m ← member "metadata" l; Some (mkNode h p w m)).

#[export] Instance from_json_AHH : FromJson ActiveHealthCheckHealthy :=
  struct (mkActiveHealthCheckHealthy 0 [] 0) (λ l,
    i ← member_int 32 "interval" l; hs ← member_ints "http_statuses" l;
    s ← member_int 32 "successes" l; Some (mkActiveHealthCheckHealthy i hs s)).

#[export] Instance from_json_AHU : FromJson ActiveHealthCheckUnhealthy :=
  struct (mkActiveHealthCheckUnhealthy 0 [] 0 0 0) (λ l,
    i ← member_int 32 "interval" l; hs ← member_ints "http_statuses" l;
    hf ← member_int 32 "http_failures" l; tf ← member_int 32 "tcp_failures" l;
    t ← member_int 32 "timeouts" l; Some (mkActiveHealthCheckUnhealthy i hs hf tf t)).

#[export] Instance from_json_AHC : FromJson ActiveHealthCheck :=
  struct (mkActiveHealthCheck "" (S754_zero false) 0 "" 0 "" false None None []) (λ l,
    ty ← member "type" l; to ← member "timeout" l; co ← member_int 32 "concurrency" l;
    ho ← member "host" l; po ← member_int 32 "port" l; pa ← member "http_path" l;
    ve ← member "https_verify_certificate" l; he ← member "healthy" l; un ← member "unhealthy" l;
    rh ← member "req_headers" l; Some (mkActiveHealthCheck ty to co ho po pa ve he un rh)).

#[export] Instance from_json_PHH : FromJson PassiveHealthCheckHealthy :=
  struct (mkPassiveHealthCheckHealthy [] 0) (λ l,
    hs ← member_ints "http_statuses" l; s ← member_int 32 "successes" l;
    Some (mkPassiveHealthCheckHealthy hs s)).

#[export] Instance from_json_PHU : FromJson PassiveHealthCheckUnhealthy :=
  struct (mkPassiveHealthCheckUnhealthy [] 0 0 0) (λ l,
    hs ← member_ints "http_statuses" l; hf ← member_int 32 "http_failures" l;
    tf ← member_int 32 "tcp_failures" l; t ← member_int 32 "timeouts" l;
    Some (mkPassiveHealthCheckUnhealthy hs hf tf t)).

#[export] Instance from_json_PHC : FromJson PassiveHealthCheck :=
  struct (mkPassiveHealthCheck "" None None) (λ l,
    ty ← member "type" l; he ← member "healthy" l; un ← member "unhealthy" l;
    Some (mkPassiveHealthCheck ty he un)).

#[export] Instance from_json_HealthCheck : FromJson HealthCheck :=
  struct (mkHealthCheck None None) (λ l,
    a ← member "active" l; p ← member "passive" l; Some (mkHealthCheck a p)).

#[export] Instance from_json_TLS : FromJson UpstreamTLSConfig :=
  struct (mkUpstreamTLSConfig "" "") (λ l,
    c ← member "client_cert" l; k ← member "client_key" l; Some (mkUpstreamTLSConfig c k)).

#[export] Instance from_json_KeepalivePool : FromJson KeepalivePool :=
  struct (mkKeepalivePool 0 0 (S754_zero false)) (λ l,
    s ← member_int 32 "size" l; r ← member_int 32 "requests" l; i ← member "idle_timeout" l;
    Some (mkKeepalivePool s r i)).

#[export] Instance from_json_Upstream : FromJson Upstream :=
  struct new_Upstream (λ l,
    ct ← member_int 64 "create_time" l; ut ← member_int 64 "update_time" l;
    ns ← member "nodes" l; re ← member_int 32 "retries" l; to ← member "timeout" l;
    tl ← member "tls" l; kp ← member "keepalive_pool" l; ty ← member "type" l;
    ch ← member "check" l; ho ← member "hash_on" l; ke ← member "key" l;
    sc ← member "scheme" l; la ← member "labels" l; ph ← member "pass_host" l;
    uh ← member "upstream_host" l; na ← member "name" l; de ← member "desc" l; id ← member "id" l;
    Some (mkUpstream ct ut ns re to tl kp ty ch ho ke sc la ph uh na de id)).

(** [json.Unmarshal(data, &ups)] into a fresh upstream; [None] is an error. *)
Definition Unmarshal_Upstream (data : string) : option Upstream := parse_json data ≫= from_json.

(** ** Example *)

Definition example_timeout : Timeout := mkTimeout (float64_of_Z 10) (float64_of_Z 60) (float64_of_Z 60).
Definition example_upstream : Upstream :=
  set_Upstream_Timeout (Some example_timeout)
    (mkUpstream 1 2 [mkNode "10.0.0.1" 80 100 None] 0 None (Some (mkUpstreamTLSConfig "c" "k"))
       (Some (mkKeepalivePool 1 2 (S754_zero false))) "roundrobin"
       (Some (mkHealthCheck (Some (mkActiveHealthCheck "http" (S754_zero false) 0 "" 80 "/" true
          (Some (mkActiveHealthCheckHealthy 1 [200; 302] 2)) None ["a: b"])) None))
       "" "" "http" {["a" := "b"]} "" "" "cluster" "" "<cluster>").

Example upstream_copy : (Marshal example_upstream ≫= Unmarshal_Upstream) = Some example_upstream.
Proof. vm_compute. reflexivity. Qed.
