(* ===== verification/UpstreamRoundtrip.v ===== *)
(** * Copying an upstream through JSON

    The provisioner copies an upstream by [json.Marshal] and [json.Unmarshal].
    For the upstreams it builds the copy is exact: integers at their width,
    strings of valid UTF-8, and timeouts whose text reads back. *)

From S2P Require Import Prelude GoStrings GoNum Json Apisix JsonParse JsonRoundtrip UpstreamJson.
From Stdlib Require Import SpecFloat.
Local Open Scope Z_scope.

(** ** The text of an integer reads back *)

Definition all_digits (s : string) : Prop := span_digits s = (s, "").

Lemma digit_char d : (d < 10)%N →
  digit_value (pretty_N_char d) = Some (Z.of_N d) ∧ is_digit (pretty_N_char d) = true ∧
  (byte (pretty_N_char d) =? 48) = (d =? 0)%N.
Proof.
  intros Hd. assert (d = 0 ∨ d = 1 ∨ d = 2 ∨ d = 3 ∨ d = 4 ∨ d = 5 ∨ d = 6 ∨ d = 7 ∨ d = 8 ∨ d = 9)%N as Hcases by lia.
  destruct Hcases as [->|[->|[->|[->|[->|[->|[->|[->|[->| ->]]]]]]]]]; split_and!; reflexivity.
Qed.

Lemma all_digits_cons c s : is_digit c = true → all_digits s → all_digits (String c s).
Proof. unfold all_digits. intros Hc Hs. cbn [span_digits]. by rewrite Hc, Hs. Qed.

Lemma pretty_N_go_digits n s : all_digits s → all_digits (pretty_N_go n s).
Proof.
  revert s; induction (N.lt_wf_0 n) as [n _ IH]; intros s Hs.
  destruct (decide (n = 0)%N) as [->|Hn]; [by rewrite pretty_N_go_0|].
  rewrite pretty_N_go_step by lia. apply IH; [apply N.div_lt; lia|].
  apply all_digits_cons; [|done]. apply digit_char. by apply N.mod_lt.
Qed.

Lemma pretty_N_go_value n s : parse_digits 0 (pretty_N_go n s) = parse_digits (Z.of_N n) s.
Proof.
  revert s; induction (N.lt_wf_0 n) as [n _ IH]; intros s.
  destruct (decide (n = 0)%N) as [->|Hn]; [by rewrite pretty_N_go_0|].
  rewrite pretty_N_go_step, IH by (lia || (apply N.div_lt; lia)). cbn [parse_digits].
  destruct (digit_char (n mod 10)) as (-> & _); [by apply N.mod_lt|]. f_equal.
  pose proof (N.div_mod n 10 ltac:(done)). lia.
Qed.

Lemma pretty_N_go_head n s : (0 < n)%N →
  ∃ c t, pretty_N_go n s = String c t ∧ is_digit c = true ∧ (byte c =? 48) = false.
Proof.
  revert s; induction (N.lt_wf_0 n) as [n _ IH]; intros s Hn.
  rewrite pretty_N_go_step by done. destruct (decide (n / 10 = 0)%N) as [E|E].
  - rewrite E, pretty_N_go_0. eexists _, _. split; [done|].
    destruct (digit_char (n mod 10)) as (_ & Hd & H0); [by apply N.mod_lt|]. split; [done|].
    rewrite H0. apply N.eqb_neq. pose proof (N.div_mod n 10). lia.
  - apply IH; [by apply N.div_lt|by apply N.neq_0_lt_0].
Qed.

Lemma pretty_pos_literal p : ∃ c t, pretty (Zpos p) = String c t ∧ is_digit c = true ∧ (byte c =? 48) = false ∧
  all_digits t ∧ parse_digits 0 (String c t) = Some (Zpos p).
Proof.
  change (pretty (Zpos p)) with (pretty_N_go (Npos p) "").
  destruct (pretty_N_go_head (Npos p) "") as (c & t & Hs & Hd & H0); [done|].
  exists c, t. split_and!; try done.
  - pose proof (pretty_N_go_digits (Npos p) "" eq_refl) as Hall. rewrite Hs in Hall. unfold all_digits in *.
    cbn [span_digits] in Hall. rewrite Hd in Hall. destruct (span_digits t) as [d r]. by injection Hall as -> ->.
  - rewrite <- Hs. apply pretty_N_go_value.
Qed.

Lemma num_sign_digit c s : is_digit c = true → num_sign (String c s) = ("", String c s).
Proof. intros Hc. destruct c as [[] [] [] [] [] [] [] []]; try reflexivity; discriminate Hc. Qed.

Lemma lex_digits c t : is_digit c = true → (byte c =? 48) = false → all_digits t →
  lex_int (String c t) = Some (String c t, "").
Proof. intros Hd H0 Ht. cbn [lex_int]. by rewrite H0, Hd, Ht. Qed.

Lemma pretty_literal (z : Z) : literal_ok (pretty z).
Proof.
  unfold literal_ok. rewrite lex_number_sign. destruct z as [|p|p]; [done| |].
  - destruct (pretty_pos_literal p) as (c & t & -> & Hd & H0 & Ht & _).
    rewrite num_sign_digit by done. cbv beta iota. rewrite lex_digits by done. cbn. by rewrite append_empty_r.
  - change (pretty (Zneg p)) with ("-" +:+ pretty (Zpos p)).
    destruct (pretty_pos_literal p) as (c & t & -> & Hd & H0 & Ht & _).
    change (num_sign ("-" +:+ String c t)) with ("-", String c t). cbv beta iota.
    rewrite lex_digits by done. cbn.
    by rewrite append_empty_r.
Qed.

(** The sign that [ParseInt] strips. *)
Definition int_sign (s : string) : bool * string :=
  match s with String "-" r => (true, r) | String "+" r => (false, r) | _ => (false, s) end.

Lemma int_sign_digit c s : is_digit c = true → int_sign (String c s) = (false, String c s).
Proof. intros Hc. destruct c as [[] [] [] [] [] [] [] []]; try reflexivity; discriminate Hc. Qed.

Lemma ParseInt_sign bits s : ParseInt bits s =
  (let '(neg, ds) := int_sign s in
   match ds with
   | "" => None
   | _ => match parse_digits 0 ds with
          | None => None
          | Some n =>
              let z := if neg then - n else n in
              if (- 2 ^ (bits - 1) <=? z) && (z <? 2 ^ (bits - 1)) then Some z else None
          end
   end).
Proof. done. Qed.

Lemma ParseInt_pretty bits z : - 2 ^ (bits - 1) ≤ z < 2 ^ (bits - 1) → ParseInt bits (pretty z) = Some z.
Proof.
  intros Hz. rewrite ParseInt_sign.
  assert ((- 2 ^ (bits - 1) <=? z) && (z <? 2 ^ (bits - 1)) = true) as Hrange
    by (apply andb_true_iff; split; [apply Z.leb_le|apply Z.ltb_lt]; lia).
  destruct z as [|p|p].
  - change (int_sign (pretty 0)) with (false, "0"). cbn iota. change (parse_digits 0 "0") with (Some 0).
    cbv zeta iota. by rewrite Hrange.
  - destruct (pretty_pos_literal p) as (c & t & -> & Hd & _ & _ & Hv). rewrite int_sign_digit by done.
    cbv beta iota. rewrite Hv. cbv zeta iota. by rewrite Hrange.
  - change (pretty (Zneg p)) with ("-" +:+ pretty (Zpos p)).
    destruct (pretty_pos_literal p) as (c & t & -> & Hd & _ & _ & Hv).
    change (int_sign ("-" +:+ String c t)) with (true, String c t). cbv beta iota. rewrite Hv. cbv zeta iota.
    change (- Zpos p) with (Zneg p). by rewrite Hrange.
Qed.

(** ** Codecs: what is encoded is valid JSON and is decoded to itself *)

Definition codec {A} `{ToJson A} `{FromJson A} (h : Z) (ok : A → Prop) : Prop :=
  ∀ a j, ok a → to_json a = Some j →
    (∀ d, 0 ≤ d → d + h ≤ max_depth → json_ok d j = true) ∧ from_json j = Some a ∧ j ≠ JNull.

Lemma string_codec : codec 0 (λ s : string, valid_utf8 s = true).
Proof. intros s j Hs [= <-]. by split_and!. Qed.

Lemma int_codec bits :
  codec (H0 := from_json_int bits) 0 (λ z : Z, - 2 ^ (bits - 1) ≤ z < 2 ^ (bits - 1)).
Proof.
  intros z j Hz [= <-]. split_and!; [|by apply ParseInt_pretty|done].
  intros d _ _. apply bool_decide_eq_true. apply pretty_literal.
Qed.

(** A float whose text reads back. *)
Definition float_reads (f : spec_float) : Prop :=
  ∃ lit, format_float64 f = Some lit ∧ literal_ok lit ∧ parse_float64 lit = Some f.

Lemma float_codec : codec 0 float_reads.
Proof.
  intros f j (lit & Hf & Hlit & Hp) Hj. unfold to_json, to_json_float in Hj. rewrite Hf in Hj. injection Hj as <-.
  split_and!; [|done|done]. intros d _ _. by apply bool_decide_eq_true.
Qed.

(** A pointer that is not nil. *)
Lemma option_codec {A} `{ToJson A} `{FromJson A} h ok :
  codec (A := A) h ok → codec h (λ o : option A, ∃ a, o = Some a ∧ ok a).
Proof.
  intros Hc o j (a & -> & Ha) Hj. destruct (Hc a j Ha Hj) as (Hok & Hf & Hn). split_and!; [done| |done].
  cbn [from_json from_json_option]. unfold null_or. destruct j; by rewrite ?Hf.
Qed.

Lemma list_codec {A} `{ToJson A} `{FromJson A} h ok :
  0 ≤ h → codec (A := A) h ok → codec (1 + h) (Forall ok).
Proof.
  intros Hh Hc l j Hl Hj. unfold to_json, to_json_list in Hj.
  apply fmap_Some in Hj as (js & Hjs & ->). apply mapM_Some in Hjs. split_and!; [| |done].
  - intros d Hd Hmax. cbn [json_ok]. apply andb_true_iff. split; [apply Z.leb_le; lia|].
    apply forallb_forall. intros j Hj%list_elem_of_In. apply list_elem_of_lookup in Hj as [i Hi].
    destruct (Forall2_lookup_r _ _ _ _ _ Hjs Hi) as (a & Ha & Hj). rewrite Forall_lookup in Hl.
    apply (Hc a j (Hl i a Ha) Hj); lia.
  - cbn [from_json from_json_list null_or]. revert js Hjs. induction Hl as [|a l Ha Hl IH]; intros js Hjs.
    + by apply Forall2_nil_inv_l in Hjs as ->.
    + apply Forall2_cons_inv_l in Hjs as (j & js' & Hj & Hjs & ->). cbn.
      destruct (Hc a j Ha Hj) as (_ & -> & _). cbn. by rewrite (IH js' Hjs).
Qed.

(** ** Structs *)

(** The members of a struct: absent or present. *)
Definition opt_member (nv : string * option json) : list (string * json) :=
  match nv.2 with None => [] | Some j => [(nv.1, j)] end.
Definition members (fs : list (string * option json)) : list (string * json) := fs ≫= opt_member.

Lemma assoc_app n l1 l2 : assoc n (l1 ++ l2) = match assoc n l1 with Some j => Some j | None => assoc n l2 end.
Proof. induction l1 as [|[k j] l1 IH]; [done|]. cbn. by case_bool_decide. Qed.

Lemma assoc_members_notin n fs : n ∉ fs.*1 → assoc n (members fs) = None.
Proof.
  induction fs as [|[k o] fs IH]; [done|]. rewrite fmap_cons, not_elem_of_cons. intros [Hk Hfs].
  cbn [members mbind list_bind]. rewrite assoc_app. destruct o as [j|]; cbn; [|by apply IH].
  rewrite bool_decide_false by (cbn in Hk; congruence). by apply IH.
Qed.

Lemma assoc_members n o fs : NoDup fs.*1 → (n, o) ∈ fs → assoc n (members fs) = o.
Proof.
  induction fs as [|[k o'] fs IH]; [by intros _ ?%elem_of_nil|].
  rewrite fmap_cons, NoDup_cons. cbn [fst]. intros [Hk Hnd] Hin.
  cbn [members mbind list_bind]. rewrite assoc_app. apply elem_of_cons in Hin as [[= -> ->]|Hin].
  - destruct o' as [j|]; cbn; [by rewrite bool_decide_true|by apply assoc_members_notin].
  - assert (n ≠ k) as Hne by (intros ->; apply Hk, list_elem_of_fmap; by exists (k, o)).
    destruct o' as [j|]; cbn; [rewrite bool_decide_false by congruence|]; by apply IH.
Qed.

(** The encoding of one field with [omitempty]. *)
Definition enc {A} `{ToJson A} (emp : A → bool) (a : A) : option (option json) :=
  if emp a then Some None else Some <$> to_json a.

Lemma omitempty_enc {A} `{ToJson A} name emp (a : A) :
  omitempty name emp a = (λ o, opt_member (name, o)) <$> enc emp a.
Proof. unfold omitempty, enc. destruct (emp a); [done|]. by destruct (to_json a). Qed.

Lemma members_join fs : mjoin (opt_member <$> fs) = members fs.
Proof.
  induction fs as [|x fs IH]; [done|]. rewrite fmap_cons.
  change (opt_member x ++ mjoin (opt_member <$> fs) = opt_member x ++ members fs). by rewrite IH.
Qed.

Lemma json_struct_members (names : list string) (es : list (option (option json))) (os : list (option json)) :
  Forall2 (λ e o, e = Some o) es os → length names = length es →
  json_struct (zip_with (λ n e, (λ o, opt_member (n, o)) <$> e) names es) = Some (JObj (members (zip names os))).
Proof.
  intros Hes Hlen. unfold json_struct.
  assert (mapM id (zip_with (λ n e, (λ o, opt_member (n, o)) <$> e) names es) = Some (opt_member <$> zip names os)) as ->.
  { revert names Hlen. induction Hes as [|e o es os -> _ IH]; intros [|n names] Hlen; try done.
    cbn in *. by rewrite IH by lia. }
  cbn [fmap option_fmap option_map compose]. by rewrite <- members_join.
Qed.

(** The members of a struct are valid when each field is. *)
Lemma members_ok d fs :
  d + 1 ≤ max_depth → Forall (λ nv, valid_utf8 nv.1 = true ∧ ∀ j, nv.2 = Some j → json_ok (d + 1) j = true) fs →
  json_ok d (JObj (members fs)) = true.
Proof.
  intros Hd Hfs. cbn [json_ok]. apply andb_true_iff. split; [apply Z.leb_le; lia|].
  induction Hfs as [|[n o] fs [Hn Hj] _ IH]; [done|]. cbn [members mbind list_bind].
  rewrite forallb_app. apply andb_true_iff. split; [|done]. destruct o as [j|]; [|done]. cbn.
  rewrite andb_true_r, Hj by done. cbn in Hn. by rewrite Hn.
Qed.

(** One field, encoded and read back. *)
Lemma enc_member {A} `{ToJson A} `{FromJson A} h ok emp (a : A) o n l :
  codec h ok → enc emp a = Some o → (emp a = true → a = zero) → (emp a = false → ok a) →
  assoc n l = o →
  member n l = Some a ∧ ∀ d j, o = Some j → 0 ≤ d → d + h ≤ max_depth → json_ok d j = true.
Proof.
  intros Hc He Hz Hok Ha. unfold enc in He. unfold member. rewrite Ha. destruct (emp a).
  - injection He as <-. split; [by rewrite Hz|done].
  - apply fmap_Some in He as (j & Hj & ->). destruct (Hc a j (Hok eq_refl) Hj) as (Hjok & Hf & _).
    split; [done|]. intros d j' [= <-]. apply Hjok.
Qed.

Lemma struct_inv (names : list string) (es : list (option (option json))) j :
  length names = length es →
  json_struct (zip_with (λ n e, (λ o, opt_member (n, o)) <$> e) names es) = Some j →
  ∃ os, Forall2 (λ e o, e = Some o) es os ∧ j = JObj (members (zip names os)).
Proof.
  intros Hlen Hj.
  assert (∃ os, Forall2 (λ e o, e = Some o) es os) as [os Hos].
  { assert (is_Some (json_struct (zip_with (λ n e, (λ o, opt_member (n, o)) <$> e) names es))) as Hs by (by eexists).
    apply json_struct_is_Some in Hs. clear Hj. revert names Hlen Hs.
    induction es as [|e es IH]; intros [|n names] Hlen Hs; try done; [by exists []|].
    cbn in Hs. apply Forall_cons in Hs as [He Hs]. destruct (IH names) as [os Hos]; [by injection Hlen|done|].
    apply fmap_is_Some in He as [o ->]. exists (o :: os). by constructor. }
  exists os. split; [done|]. rewrite (json_struct_members _ _ os) in Hj by done. by injection Hj as <-.
Qed.

(** The encodings of the fields of a struct, one hypothesis each. *)
Ltac struct_fields Hj names es :=
  rewrite !omitempty_enc in Hj;
  match type of Hj with _ = ?r =>
    change (json_struct (zip_with (λ n e, (λ o, opt_member (n, o)) <$> e) names es) = r) in Hj end;
  apply struct_inv in Hj as (? & Hj & ->); [|reflexivity];
  repeat (let E := fresh "E" in apply Forall2_cons_inv_l in Hj as (? & ? & E & Hj & ->));
  apply Forall2_nil_inv_l in Hj as ->.

Lemma members_NoDup (names : list string) (os : list (option json)) :
  NoDup names → length names = length os → NoDup (zip names os).*1.
Proof. intros Hnd Hlen. rewrite fst_zip by lia. done. Qed.

(** An omitted field is the zero value; another one satisfies [ok]. *)
Definition field_ok {A} `{FromJson A} (emp : A → bool) (ok : A → Prop) (a : A) : Prop :=
  if emp a then a = zero else ok a.

Lemma field_member {A} `{ToJson A} `{FromJson A} h ok emp (a : A) o n fs :
  codec h ok → field_ok emp ok a → enc emp a = Some o → NoDup fs.*1 → (n, o) ∈ fs →
  member n (members fs) = Some a ∧ ∀ d j, o = Some j → 0 ≤ d → d + h ≤ max_depth → json_ok d j = true.
Proof.
  intros Hc Hok He Hnd Hin. apply (enc_member h ok emp a o); [done|done| | |by apply assoc_members].
  - intros E. unfold field_ok in Hok. by rewrite E in Hok.
  - intros E. unfold field_ok in Hok. by rewrite E in Hok.
Qed.

Definition string_ok : string → Prop := field_ok empty_string (λ s, valid_utf8 s = true).
Definition int_ok (bits : Z) : Z → Prop :=
  field_ok (H := from_json_int bits) empty_int (λ z, - 2 ^ (bits - 1) ≤ z < 2 ^ (bits - 1)).
Definition float_ok : spec_float → Prop := field_ok empty_float float_reads.

Lemma string_ok_valid s : valid_utf8 s = true → string_ok s.
Proof. intros Hs. unfold string_ok, field_ok. destruct (empty_string s) eqn:E; [|done]. by apply bool_decide_eq_true in E. Qed.
Lemma int_ok_range bits z : - 2 ^ (bits - 1) ≤ z < 2 ^ (bits - 1) → int_ok bits z.
Proof. intros Hz. unfold int_ok, field_ok. destruct (empty_int z) eqn:E; [|done]. by apply Z.eqb_eq in E. Qed.

Definition timeout_ok (t : Timeout) : Prop :=
  float_ok (Timeout_Connect t) ∧ float_ok (Timeout_Send t) ∧ float_ok (Timeout_Read t).

Definition timeout_names : list string := ["connect"; "send"; "read"].

Lemma timeout_codec : codec 1 timeout_ok.
Proof.
  intros t j (Hc & Hs & Hr) Hj. unfold to_json, to_json_Timeout in Hj.
  struct_fields Hj timeout_names [enc empty_float (Timeout_Connect t); enc empty_float (Timeout_Send t);
    enc empty_float (Timeout_Read t)].
  match goal with |- context [zip timeout_names ?os] => set (fs := zip timeout_names os) in * end.
  assert (NoDup fs.*1) as Hnd by (apply members_NoDup; [by apply (bool_decide_unpack _)|done]).
  destruct (field_member 0 float_reads empty_float _ _ "connect" fs float_codec Hc E Hnd) as [M1 O1]; [by left|].
  destruct (field_member 0 float_reads empty_float _ _ "send" fs float_codec Hs E0 Hnd) as [M2 O2]; [by right; left|].
  destruct (field_member 0 float_reads empty_float _ _ "read" fs float_codec Hr E1 Hnd) as [M3 O3]; [by right; right; left|].
  split_and!; [| |done].
  - intros d Hd Hmax. apply members_ok; [lia|]. repeat constructor; cbn [fst snd]; try done; intros j Hj;
      [apply O1|apply O2|apply O3]; (done || lia).
  - cbn [from_json from_json_Timeout struct null_or]. rewrite M1. cbn [mbind option_bind]. rewrite M2.
    cbn [mbind option_bind]. rewrite M3. by destruct t.
Qed.

Lemma no_codec {A} `{ToJson A} `{FromJson A} : codec (A := A) 0 (λ _, False).
Proof. by intros a j []. Qed.

(** The member [n] of the struct, from the encoding [E] of its field. *)
Ltac read_field c Hok E Hnd n fs M O :=
  destruct (field_member _ _ _ _ _ n fs c Hok E Hnd) as [M O];
  [subst fs; repeat (first [apply list_elem_of_here|apply list_elem_of_further])|].

Ltac bind_with M := rewrite M; cbn [mbind option_bind].

Ltac members_done := repeat constructor; cbn [fst snd]; try done.

Definition node_ok (n : Node) : Prop :=
  string_ok (Node_Host n) ∧ int_ok 32 (Node_Port n) ∧ int_ok 32 (Node_Weight n) ∧ Node_Metadata n = None.

Definition node_names : list string := ["host"; "port"; "weight"; "metadata"].

Lemma node_codec : codec 1 node_ok.
Proof.
  intros n j (Hh & Hp & Hw & Hm) Hj. unfold to_json, to_json_Node in Hj.
  struct_fields Hj node_names [enc empty_string (Node_Host n); enc empty_int (Node_Port n);
    enc empty_int (Node_Weight n); enc empty_any_map (Node_Metadata n)].
  match goal with |- context [zip node_names ?os] => set (fs := zip node_names os) in * end.
  assert (NoDup fs.*1) as Hnd by (apply members_NoDup; [by apply (bool_decide_unpack _)|done]).
  read_field string_codec Hh E Hnd "host" fs M1 O1.
  read_field (int_codec 32) Hp E0 Hnd "port" fs M2 O2.
  read_field (int_codec 32) Hw E1 Hnd "weight" fs M3 O3.
  assert (field_ok empty_any_map (λ _, False) (Node_Metadata n)) as Hm' by (unfold field_ok; by rewrite Hm).
  read_field (no_codec (A := any_map)) Hm' E2 Hnd "metadata" fs M4 O4.
  split_and!; [| |done].
  - intros d Hd Hmax. apply members_ok; [lia|]. members_done; intros j Hj;
      [eapply O1|eapply O2|eapply O3|eapply O4]; (done || lia).
  - cbn [from_json from_json_Node struct null_or]. unfold member_int. rewrite M1. cbn [mbind option_bind].
    rewrite M2. cbn [mbind option_bind]. rewrite M3. cbn [mbind option_bind]. rewrite M4. by destruct n.
Qed.

(** The upstreams that the provisioner builds. *)
Record upstream_ok (u : Upstream) : Prop := {
  UO_times : is_int64 (Upstream_CreateTime u) ∧ is_int64 (Upstream_UpdateTime u) ∧ is_int32 (Upstream_Retries u);
  UO_nodes : Forall node_ok (Upstream_Nodes u);
  UO_timeout : ∀ t, Upstream_Timeout u = Some t → timeout_ok t;
  UO_absent : Upstream_Tls u = None ∧ Upstream_KeepalivePool u = None ∧ Upstream_Check u = None ∧ Upstream_Labels u = ∅;
  UO_strings : Forall (λ s, valid_utf8 s = true)
    [Upstream_Type u; Upstream_HashOn u; Upstream_Key u; Upstream_Scheme u; Upstream_PassHost u;
     Upstream_UpstreamHost u; Upstream_Name u; Upstream_Desc u; Upstream_Id u]
}.

Definition upstream_names : list string :=
  ["create_time"; "update_time"; "nodes"; "retries"; "timeout"; "tls"; "keepalive_pool"; "type"; "check";
   "hash_on"; "key"; "scheme"; "labels"; "pass_host"; "upstream_host"; "name"; "desc"; "id"].

Definition upstream_encs (u : Upstream) : list (option (option json)) :=
  [enc empty_int (Upstream_CreateTime u); enc empty_int (Upstream_UpdateTime u);
   enc empty_list (Upstream_Nodes u); enc empty_int (Upstream_Retries u);
   enc empty_ptr (Upstream_Timeout u); enc empty_ptr (Upstream_Tls u); enc empty_ptr (Upstream_KeepalivePool u);
   enc empty_string (Upstream_Type u); enc empty_ptr (Upstream_Check u); enc empty_string (Upstream_HashOn u);
   enc empty_string (Upstream_Key u); enc empty_string (Upstream_Scheme u); enc empty_map (Upstream_Labels u);
   enc empty_string (Upstream_PassHost u); enc empty_string (Upstream_UpstreamHost u);
   enc empty_string (Upstream_Name u); enc empty_string (Upstream_Desc u); enc empty_string (Upstream_Id u)].

Lemma absent_ok {A} `{FromJson A} (o : option A) : o = None → field_ok empty_ptr (λ _, False) o.
Proof. by intros ->. Qed.

Lemma upstream_codec : codec 3 upstream_ok.
Proof.
  intros u j [(Hct & Hut & Hre) Hns Hto (Htls & Hkp & Hch & Hla) Hstr] Hj. unfold to_json, to_json_Upstream in Hj.
  rewrite !Forall_cons in Hstr. destruct Hstr as (Hs1 & Hs2 & Hs3 & Hs4 & Hs5 & Hs6 & Hs7 & Hs8 & Hs9 & _).
  apply string_ok_valid in Hs1, Hs2, Hs3, Hs4, Hs5, Hs6, Hs7, Hs8, Hs9.
  apply (int_ok_range 64) in Hct, Hut. apply (int_ok_range 32) in Hre.
  assert (field_ok empty_list (Forall node_ok) (Upstream_Nodes u)) as Hns' by (unfold field_ok; by destruct (Upstream_Nodes u)).
  assert (field_ok empty_ptr (λ o, ∃ t, o = Some t ∧ timeout_ok t) (Upstream_Timeout u)) as Hto'.
  { unfold field_ok. destruct (Upstream_Timeout u) as [t|]; [|done]. cbn. eauto. }
  apply (absent_ok (A := UpstreamTLSConfig)) in Htls. apply (absent_ok (A := KeepalivePool)) in Hkp.
  apply (absent_ok (A := HealthCheck)) in Hch.
  assert (field_ok empty_map (λ _, False) (Upstream_Labels u)) as Hla' by (unfold field_ok; by rewrite Hla).
  rewrite !omitempty_enc in Hj.
  change (json_struct (zip_with (λ n e, (λ o, opt_member (n, o)) <$> e) upstream_names (upstream_encs u)) = Some j) in Hj.
  apply struct_inv in Hj as (os & Hj & ->); [|done]. unfold upstream_encs in Hj.
  repeat (let E := fresh "E" in apply Forall2_cons_inv_l in Hj as (? & ? & E & Hj & ->)).
  apply Forall2_nil_inv_l in Hj as ->.
  match goal with |- context [zip upstream_names ?os] => set (fs := zip upstream_names os) in * end.
  assert (NoDup fs.*1) as Hnd by (apply members_NoDup; [by apply (bool_decide_unpack _); vm_compute|done]).
  read_field (int_codec 64) Hct E Hnd "create_time" fs M1 O1.
  read_field (int_codec 64) Hut E0 Hnd "update_time" fs M2 O2.
  read_field (list_codec 1 node_ok ltac:(lia) node_codec) Hns' E1 Hnd "nodes" fs M3 O3.
  read_field (int_codec 32) Hre E2 Hnd "retries" fs M4 O4.
  read_field (option_codec 1 timeout_ok timeout_codec) Hto' E3 Hnd "timeout" fs M5 O5.
  read_field (no_codec (A := option UpstreamTLSConfig)) Htls E4 Hnd "tls" fs M6 O6.
  read_field (no_codec (A := option KeepalivePool)) Hkp E5 Hnd "keepalive_pool" fs M7 O7.
  read_field string_codec Hs1 E6 Hnd "type" fs M8 O8.
  read_field (no_codec (A := option HealthCheck)) Hch E7 Hnd "check" fs M9 O9.
  read_field string_codec Hs2 E8 Hnd "hash_on" fs M10 O10.
  read_field string_codec Hs3 E9 Hnd "key" fs M11 O11.
  read_field string_codec Hs4 E10 Hnd "scheme" fs M12 O12.
  read_field (no_codec (A := gmap string string)) Hla' E11 Hnd "labels" fs M13 O13.
  read_field string_codec Hs5 E12 Hnd "pass_host" fs M14 O14.
  read_field string_codec Hs6 E13 Hnd "upstream_host" fs M15 O15.
  read_field string_codec Hs7 E14 Hnd "name" fs M16 O16.
  read_field string_codec Hs8 E15 Hnd "desc" fs M17 O17.
  read_field string_codec Hs9 E16 Hnd "id" fs M18 O18.
  split_and!; [| |done].
  - intros d Hd Hmax. apply members_ok; [lia|]. members_done; intros j Hj;
      [eapply O1|eapply O2|eapply O3|eapply O4|eapply O5|eapply O6|eapply O7|eapply O8|eapply O9|eapply O10
      |eapply O11|eapply O12|eapply O13|eapply O14|eapply O15|eapply O16|eapply O17|eapply O18]; (done || lia).
  - cbn [from_json from_json_Upstream struct null_or]. unfold member_int.
    unfold LoadBalanceType, HashOn, ProtocolScheme, HostPassingStrategy in *.
    bind_with M1. bind_with M2. bind_with M3. bind_with M4. bind_with M5. bind_with M6. bind_with M7.
    bind_with M8. bind_with M9. bind_with M10. bind_with M11. bind_with M12. bind_with M13. bind_with M14.
    bind_with M15. bind_with M16. bind_with M17. bind_with M18. by destruct u.
Qed.

(** ** The copy *)

Lemma float_ok_finite f : float_ok f → is_finite_float f = true.
Proof.
  unfold float_ok, field_ok. destruct (empty_float f) eqn:E; [by intros ->|].
  intros (lit & Hf & _). by apply (format_float_finite 53 1024 f); exists lit.
Qed.

Lemma upstream_ok_finite u : upstream_ok u → upstream_finite u.
Proof.
  intros [_ Hns Hto (_ & Hkp & Hch & _) _]. unfold upstream_finite. rewrite Hkp, Hch. split_and!; [|done..|].
  - destruct (Upstream_Timeout u) as [t|] eqn:Ht; [|done]. destruct (Hto t eq_refl) as (Hc & Hs & Hr).
    cbn [opt_finite]. unfold timeout_finite. by rewrite !float_ok_finite.
  - eapply Forall_impl; [exact Hns|]. intros n (_ & _ & _ & ->). done.
Qed.

Lemma upstream_roundtrip u : upstream_ok u →
  ∃ data, Marshal u = Some data ∧ Unmarshal_Upstream data = Some u.
Proof.
  intros Hu. destruct (Marshal_Upstream_is_Some u (upstream_ok_finite u Hu)) as [data Hdata].
  exists data. split; [done|]. unfold Marshal in Hdata. apply fmap_Some in Hdata as (j & Hj & ->).
  destruct (upstream_codec u j Hu Hj) as (Hok & Hfrom & _). unfold Unmarshal_Upstream.
  rewrite parse_print; [done|]. apply Hok; unfold max_depth; lia.
Qed.
