(* ===== verification/FloatText.v ===== *)
(** * The text of an integral float reads back

    The JSON text of the float64 of an integer below 2^53 denotes that float:
    the shortest decimal has no fraction, and padded with zeros it is the
    decimal of an integer.  The timeouts of translated upstreams are such
    floats. *)

From S2P Require Import Prelude GoStrings GoNum Json JsonParse JsonRoundtrip UpstreamRoundtrip.
From Stdlib Require Import SpecFloat.
Local Open Scope Z_scope.

(** ** The float is exact *)

Lemma digits2_iter p d : Zpos (digits2_pos (Pos.iter xO p d)) = Zpos (digits2_pos p) + Zpos d.
Proof.
  induction d as [|d IH] using Pos.peano_ind; [cbn; lia|].
  rewrite Pos.iter_succ. cbn [digits2_pos]. lia.
Qed.

(** A mantissa of 53 bits is not rounded. *)
Lemma binary_round_aux_exact s m e :
  Zpos (digits2_pos m) = 53 → -1074 ≤ e ≤ 0 → binary_round_aux 53 1024 s (Zpos m) e loc_Exact = S754_finite s m e.
Proof.
  intros Hm He. unfold binary_round_aux, shr_fexp. cbn [Zdigits2]. rewrite Hm.
  assert (fexp 53 1024 (53 + e) - e = 0) as -> by (unfold fexp, emin; lia). cbn. rewrite Hm.
  assert (fexp 53 1024 (53 + e) - e = 0) as -> by (unfold fexp, emin; lia). cbn.
  by rewrite (proj2 (Z.leb_le e (1024 - 53))) by lia.
Qed.

Lemma binary_round_exact p :
  Zpos p < 2 ^ 53 → ∃ m e, (∀ s, binary_round 53 1024 s p 0 = S754_finite s m e) ∧ e ≤ 0 ∧ Zpos m = Zpos p * 2 ^ (- e).
Proof.
  intros Hp. pose proof (digits2_pos_bound p 53 ltac:(lia) Hp) as Hd.
  unfold binary_round. set (D := Zpos (digits2_pos p)) in *.
  assert (fexp 53 1024 (D + 0) = D - 53) as -> by (unfold fexp, emin; lia). unfold shl_align.
  destruct (D - 53 - 0) as [|q|q] eqn:Hq; [| lia |].
  - exists p, 0. split_and!; [|lia|lia]. intros s. apply binary_round_aux_exact; lia.
  - exists (Pos.iter xO p q), (D - 53). split_and!; [|lia|].
    + intros s. apply binary_round_aux_exact; [rewrite digits2_iter; lia|lia].
    + rewrite Pos_iter_xO. do 2 f_equal. lia.
Qed.

(** ** The decimal point *)

Lemma digits_from_acc fuel n acc : digits_from fuel n acc = acc + digits_from fuel n 0.
Proof.
  revert n acc. induction fuel as [|fuel IH]; intros n acc; cbn [digits_from]; [lia|].
  destruct (n <? 10); [lia|]. rewrite (IH _ (acc + 1)), (IH _ (0 + 1)). lia.
Qed.

Lemma digits_from_low fuel n : 1 ≤ n → 10 ^ (digits_from fuel n 0 - 1) ≤ n.
Proof.
  revert n. induction fuel as [|fuel IH]; intros n Hn; cbn [digits_from]; [cbn; lia|].
  destruct (Z.ltb_spec n 10) as [Hlt|Hge]; [cbn; lia|]. rewrite digits_from_acc.
  assert (1 ≤ n / 10) as H1 by (apply Z.div_le_lower_bound; lia). specialize (IH (n / 10) H1).
  set (k := digits_from fuel (n / 10) 0) in *. pose proof (Z.mul_div_le n 10 ltac:(lia)) as Hle.
  destruct (decide (k ≤ 0)) as [Hk|Hk].
  - destruct (decide (k = 0)) as [->|Hk0]; [cbn; lia|]. rewrite Z.pow_neg_r by lia. lia.
  - replace (0 + 1 + k - 1) with (Z.succ (k - 1)) by lia. rewrite Z.pow_succ_r by lia. lia.
Qed.

Lemma digits_from_high fuel n k : 1 ≤ n → 0 ≤ k → n < 10 ^ k → digits_from fuel n 0 ≤ k.
Proof.
  revert n k. induction fuel as [|fuel IH]; intros n k Hn Hk Hlt; cbn [digits_from]; [lia|].
  assert (k ≠ 0) as Hk0 by (intros ->; cbn in Hlt; lia).
  destruct (Z.ltb_spec n 10) as [_|Hge]; [lia|]. rewrite digits_from_acc.
  assert (digits_from fuel (n / 10) 0 ≤ k - 1); [|lia]. apply IH; [apply Z.div_le_lower_bound; lia|lia|].
  apply Z.div_lt_upper_bound; [lia|]. replace k with (Z.succ (k - 1)) in Hlt by lia. by rewrite Z.pow_succ_r in Hlt by lia.
Qed.

Lemma num_digits_bounds n k : 1 ≤ n → 0 ≤ k → n < 10 ^ k → 1 ≤ num_digits n ≤ k ∧ 10 ^ (num_digits n - 1) ≤ n.
Proof.
  intros Hn Hk Hlt. unfold num_digits. split; [|by apply digits_from_low]. split; [|by apply digits_from_high].
  cbn [digits_from]. destruct (n <? 10); [lia|]. rewrite digits_from_acc.
  assert (∀ f x, 0 ≤ digits_from f x 0) as Hpos.
  { induction f as [|f IH]; intros x; cbn [digits_from]; [lia|]. destruct (x <? 10); [lia|]. rewrite digits_from_acc. specialize (IH (x / 10)). lia. }
  specialize (Hpos (Z.to_nat (Z.log2 n)) (n / 10)). lia.
Qed.

(** ** The shortest decimal *)

Lemma SF_eqb_eq x y : SF_eqb x y = true → x = y.
Proof.
  destruct x as [s|s| |s m e], y as [s'|s'| |s' m' e']; cbn; try done.
  - by intros ->%eqb_prop.
  - by intros ->%eqb_prop.
  - by intros [[->%eqb_prop ->%Pos.eqb_eq]%andb_prop ->%Z.eqb_eq]%andb_prop.
Qed.

Lemma SF_eqb_refl x : SF_eqb x x = true.
Proof. destruct x as [s|s| |s m e]; cbn; rewrite ?eqb_reflx, ?Pos.eqb_refl, ?Z.eqb_refl; done. Qed.

Section Integral.
Context (p m : positive) (e : Z) (s : bool).
Context (Hexact : ∀ s, binary_round 53 1024 s p 0 = S754_finite s m e) (He : e ≤ 0) (Hm : Zpos m = Zpos p * 2 ^ (- e)).
Context (Hp : Zpos p < 2 ^ 53).

Lemma scaled_integral x : 0 ≤ x → scaled (Zpos m) e x = (Zpos p * 2 ^ (- e), 2 ^ (- e) * 10 ^ x).
Proof using All.
  intros Hx. unfold scaled. rewrite !Z.max_r by lia. rewrite !Z.max_l by lia. rewrite Hm. f_equal. lia.
Qed.

Lemma decimal_point_integral : decimal_point (Zpos m) e = num_digits (Zpos p).
Proof using All.
  unfold decimal_point. rewrite scaled_integral by lia. rewrite Z.mul_1_r. pose proof (Z.pow_pos_nonneg 2 (- e) ltac:(lia) ltac:(lia)).
  rewrite (proj2 (Z.leb_le _ _)) by nia. by rewrite Z.div_mul by lia.
Qed.

(** The nearest decimal with [x] zeros is positive. *)
Lemma rounded_positive x : 0 ≤ x → 10 ^ x ≤ Zpos p →
  1 ≤ round_half_even (Zpos p * 2 ^ (- e)) (2 ^ (- e) * 10 ^ x).
Proof using All.
  intros Hx Hle. pose proof (Z.pow_pos_nonneg 2 (- e) ltac:(lia) ltac:(lia)). pose proof (Z.pow_pos_nonneg 10 x ltac:(lia) ltac:(lia)).
  unfold round_half_even. assert (1 ≤ Zpos p * 2 ^ (- e) / (2 ^ (- e) * 10 ^ x)) by (apply Z.div_le_lower_bound; nia).
  destruct (_ ?= _); [destruct (Z.even _)|..]; lia.
Qed.

Lemma rounded_whole : round_half_even (Zpos p * 2 ^ (- e)) (2 ^ (- e) * 10 ^ 0) = Zpos p.
Proof using All.
  pose proof (Z.pow_pos_nonneg 2 (- e) ltac:(lia) ltac:(lia)) as Hpos. rewrite Z.pow_0_r, Z.mul_1_r. unfold round_half_even.
  rewrite Z.mod_mul, Z.div_mul by lia. destruct (Z.compare_spec (2 * 0) (2 ^ (- e))); [lia|done|lia].
Qed.

Lemma whole_reads : float_of_decimal 53 1024 s (Zpos p) 0 = S754_finite s m e.
Proof using All.
  unfold float_of_decimal. cbn [Z.leb Z.compare]. change (10 ^ 0) with 1. rewrite Z.mul_1_r. cbn [Z.abs].
  unfold binary_normalize. destruct s; cbn; apply Hexact.
Qed.

(** The search stops with a decimal that reads back and has no fraction. *)
Lemma shortest_integral fuel k ndig :
  1 ≤ ndig ≤ k → 10 ^ (k - 1) ≤ Zpos p → k - ndig ≤ Z.of_nat fuel →
  let '(c, x) := shortest_from fuel 53 1024 s m e k ndig in
  0 < c ∧ 0 ≤ x ∧ float_of_decimal 53 1024 s c x = S754_finite s m e.
Proof using All.
  revert ndig. induction fuel as [|fuel IH]; intros ndig Hn Hk Hf; cbn [shortest_from]; cbv zeta;
    rewrite scaled_integral by lia.
  - assert (k - ndig = 0) as -> by lia. rewrite rounded_whole. split_and!; [lia|lia|apply whole_reads].
  - assert (10 ^ (k - ndig) ≤ Zpos p) as Hx by (etrans; [apply (Z.pow_le_mono_r 10 (k - ndig) (k - 1)); lia|done]).
    pose proof (rounded_positive (k - ndig) ltac:(lia) Hx) as Hc.
    set (c := round_half_even _ _) in *.
    destruct (SF_eqb (float_of_decimal 53 1024 s c (k - ndig)) _) eqn:H1; [apply SF_eqb_eq in H1; split_and!; [lia..|done]|].
    destruct (SF_eqb (float_of_decimal 53 1024 s (c + 1) (k - ndig)) _) eqn:H2; [apply SF_eqb_eq in H2; split_and!; [lia..|done]|].
    destruct (SF_eqb (float_of_decimal 53 1024 s (c - 1) (k - ndig)) _) eqn:H3.
    { apply SF_eqb_eq in H3. assert (c - 1 ≠ 0) as Hc0 by (intros E; rewrite E in H3; done). split_and!; [lia..|done]. }
    apply IH; [|done|lia]. assert (k - ndig ≠ 0); [|lia]. intros E.
    assert (c = Zpos p) as Hcp by (unfold c; rewrite E; apply rounded_whole).
    rewrite Hcp, E, whole_reads, SF_eqb_refl in H1. done.
Qed.
End Integral.

(** ** The layout *)

Lemma strip_zeros_value fuel c x : 0 < c → 0 ≤ x →
  let '(c', x') := strip_zeros fuel c x in 0 < c' ∧ 0 ≤ x' ∧ c' * 10 ^ x' = c * 10 ^ x.
Proof.
  revert c x. induction fuel as [|fuel IH]; intros c x Hc Hx; cbn [strip_zeros]; [done|].
  destruct ((c mod 10 =? 0) && negb (c =? 0)) eqn:E; [|done]. apply andb_prop in E as [E%Z.eqb_eq _].
  pose proof (Z.div_mod c 10 ltac:(lia)) as Hdiv. rewrite E, Z.add_0_r in Hdiv.
  specialize (IH (c / 10) (x + 1)). destruct (strip_zeros fuel (c / 10) (x + 1)) as [c' x'].
  destruct IH as (H1 & H2 & H3); [lia..|]. split_and!; [done..|]. rewrite H3, Z.pow_add_r by lia. lia.
Qed.

Lemma pretty_N_go_app n s t : pretty_N_go n (s +:+ t) = pretty_N_go n s +:+ t.
Proof.
  revert s. induction (N.lt_wf_0 n) as [n _ IH]; intros s.
  destruct (decide (n = 0)%N) as [->|Hn]; [by rewrite !pretty_N_go_0|].
  rewrite (pretty_N_go_step n s), (pretty_N_go_step n (s +:+ t)) by lia. exact (IH (n / 10)%N ltac:(apply N.div_lt; lia) (String _ s)).
Qed.

Lemma pretty_zero n s : (0 < n)%N → pretty_N_go (10 * n) s = pretty_N_go n (String "0" s).
Proof.
  intros Hn. rewrite pretty_N_go_step by lia. rewrite N.mul_comm, N.div_mul, N.Div0.mod_mul by done. done.
Qed.

Lemma pretty_zeros n k s : (0 < n)%N → pretty_N_go (n * 10 ^ N.of_nat k) s = pretty_N_go n (zeros k +:+ s).
Proof.
  intros Hn. revert s. induction k as [|k IH]; intros s; [cbn; by rewrite N.mul_1_r|].
  rewrite Nat2N.inj_succ, N.pow_succ_r by lia. replace (n * (10 * 10 ^ N.of_nat k))%N with (10 * (n * 10 ^ N.of_nat k))%N by lia.
  rewrite pretty_zero by (apply N.mul_pos_pos; [exact Hn|apply N.neq_0_lt_0, N.pow_nonzero; lia]).
  rewrite IH. f_equal. clear. induction k as [|k IH]; [done|].
  change (String "0" (zeros k +:+ String "0" s) = String "0" (zeros (S k) +:+ s)). by rewrite IH.
Qed.

(** Digits and zeros are the decimal of an integer. *)
Lemma layout_integral c x : 0 < c → 0 ≤ x → layout_f c x = pretty (c * 10 ^ x).
Proof.
  intros Hc Hx. unfold layout_f. rewrite (proj2 (Z.leb_le 0 x)) by done.
  destruct c as [|c|c]; [lia| |lia]. pose proof (Z.pow_pos_nonneg 10 x ltac:(lia) Hx) as Hpow.
  destruct (Zpos c * 10 ^ x) as [|q|q] eqn:Hq; [lia| |lia].
  change (pretty (Zpos c)) with (pretty_N_go (Npos c) ""). change (pretty (Zpos q)) with (pretty_N_go (Npos q) "").
  assert (Npos q = Npos c * 10 ^ N.of_nat (Z.to_nat x))%N as ->.
  { apply N2Z.inj. rewrite N2Z.inj_mul, N2Z.inj_pow, nat_N_Z, Z2Nat.id by done. cbn. by rewrite Hq. }
  rewrite pretty_zeros, append_empty_r by done. symmetry. exact (pretty_N_go_app (Npos c) "" (zeros (Z.to_nat x))).
Qed.

Lemma decimal_of_pretty q : decimal_of_literal (pretty (Zpos q)) = Some (false, Zpos q, 0) ∧
  decimal_of_literal ("-" +:+ pretty (Zpos q)) = Some (true, Zpos q, 0).
Proof.
  destruct (pretty_pos_literal q) as (c & t & -> & Hd & _ & Ht & Hv).
  assert (span_digits (String c t) = (String c t, "")) as Hspan by by apply all_digits_cons.
  split.
  - unfold decimal_of_literal. change (match String c t with String "-" r => (true, r) | _ => (false, String c t) end)
      with ((λ s, match s with String "-" r => (true, r) | _ => (false, s) end) (String c t)).
    assert ((λ s, match s with String "-" r => (true, r) | _ => (false, s) end) (String c t) = (false, String c t)) as ->.
    { destruct c as [[] [] [] [] [] [] [] []]; try reflexivity; discriminate Hd. }
    rewrite Hspan. cbv beta iota. rewrite append_empty_r, Hv. done.
  - unfold decimal_of_literal. change ("-" +:+ String c t) with (String "-" (String c t)). cbv beta iota.
    rewrite Hspan. cbv beta iota. rewrite append_empty_r, Hv. done.
Qed.

(** ** The text reads back *)

Lemma float_of_decimal_whole s c x : 0 < c → 0 ≤ x →
  float_of_decimal 53 1024 s (c * 10 ^ x) 0 = float_of_decimal 53 1024 s c x.
Proof.
  intros Hc Hx. pose proof (Z.pow_pos_nonneg 10 x ltac:(lia) Hx) as Hpow. unfold float_of_decimal.
  destruct (c * 10 ^ x) as [|q|q] eqn:Hq; [lia| |lia]. destruct c as [|c|c]; [lia| |lia].
  rewrite (proj2 (Z.leb_le 0 x)) by done. cbn [Z.leb Z.compare Z.abs]. change (10 ^ 0) with 1.
  change (Z.abs (Zpos c)) with (Zpos c). rewrite Hq, Z.mul_1_r. done.
Qed.

Lemma pos_reads s p m e :
  (∀ s, binary_round 53 1024 s p 0 = S754_finite s m e) → e ≤ 0 → Zpos m = Zpos p * 2 ^ (- e) → Zpos p < 2 ^ 53 →
  float_reads (S754_finite s m e).
Proof.
  intros Hexact He Hm Hp.
  destruct (num_digits_bounds (Zpos p) 16) as [Hk Hlow]; [lia|lia|etrans; [exact Hp|vm_compute; done]|].
  unfold float_reads, format_float64, format_float. rewrite (decimal_point_integral p m e s Hexact He Hm Hp).
  pose proof (shortest_integral p m e s Hexact He Hm Hp 16 (num_digits (Zpos p)) 1) as Hs.
  destruct (shortest_from 16 53 1024 s m e (num_digits (Zpos p)) 1) as [c x].
  destruct Hs as (Hc & Hx & Hread); [lia|done|lia|].
  pose proof (strip_zeros_value 20 c x Hc Hx) as Hstrip. destruct (strip_zeros 20 c x) as [c' x']. destruct Hstrip as (Hc' & Hx' & Hval).
  assert (uses_exponent m e = false) as ->.
  { unfold uses_exponent. rewrite (scaled_integral p m e s Hexact He Hm Hp) by lia. pose proof (Z.pow_pos_nonneg 2 (- e) ltac:(lia) ltac:(lia)) as Hpos.
    change (10 ^ 0) with 1. rewrite Z.mul_1_r. set (b := 2 ^ (- e)) in *.
    apply orb_false_intro; [apply Z.ltb_ge|apply Z.leb_gt]; [nia|]. assert (Zpos p < 10 ^ 21) by (etrans; [exact Hp|vm_compute; done]). nia. }
  rewrite layout_integral, Hval by done.
  assert (float_of_decimal 53 1024 s (c * 10 ^ x) 0 = S754_finite s m e) as Hwhole by (by rewrite float_of_decimal_whole).
  pose proof (Z.pow_pos_nonneg 10 x ltac:(lia) Hx) as Hpow. destruct (c * 10 ^ x) as [|q|q]; [lia| |lia].
  exists ((if s then "-" else "") +:+ pretty (Zpos q)). split_and!; [done|..].
  - destruct s; [exact (pretty_literal (Zneg q))|exact (pretty_literal (Zpos q))].
  - unfold parse_float64. destruct (decimal_of_pretty q) as [Hpos Hneg].
    assert (decimal_of_literal ((if s then "-" else "") +:+ pretty (Zpos q)) = Some (s, Zpos q, 0)) as ->
      by (destruct s; [exact Hneg|exact Hpos]).
    cbn [mbind option_bind]. by rewrite Hwhole.
Qed.

(** The float of an integer that a float64 holds exactly. *)
Lemma float64_of_Z_reads z : - 2 ^ 53 < z < 2 ^ 53 → float_ok (float64_of_Z z).
Proof.
  intros Hz. unfold float64_of_Z, binary_normalize. destruct z as [|p|p]; [done|..];
    (destruct (binary_round_exact p) as (m & e & Hexact & He & Hm); [lia|]); rewrite Hexact; unfold float_ok, field_ok; cbn [empty_float];
    apply (pos_reads _ p m e); (done || lia).
Qed.
