(* ===== verification/Provisioner.v ===== *)
(** * The xDS provisioner: state, configuration and handlers
    (src/pkg/amesh/provisioner/xds.go and translator.go, src/pkg/xds/utils.go,
    src/pkg/amesh/util/id.go)

    [xdsProvisioner] is the state that the goroutines share.  A goroutine that a
    handler spawns is returned as an [effect]: a request put on [sendCh] or a
    batch of events put on [evChan].  The nil [secrets] map is [None]. *)

From S2P Require Import Prelude GoStrings GoNum Json Apisix Xds StringSet Manifest.
From S2P Require Import JsonParse UpstreamJson Agent Endpoint AmeshPlugins RouteTranslator.
Local Open Scope Z_scope.

(** ** types.Secret *)

Record Secret := mkSecret {
  Secret_Name : string;
  Secret_Certificate : string;
  Secret_PrivateKey : string;
  Secret_TrustedCA : string
}.

(** ** The state *)

Record xdsProvisioner := mkXdsProvisioner {
  XP_src : string;
  XP_node : XNode;
  XP_amesh : option ameshProvisioner;
  XP_syncInterval : Z;
  XP_routeOwnership : option (gmap string string);
  XP_staticRouteConfigurations : list RouteConfiguration;
  XP_routes : list Route;
  XP_upstreams : gmap string Upstream;
  XP_secrets : option (gmap string Secret);
  XP_edsRequiredClusters : StringSet;
  XP_adsConnected : bool;
  XP_sdsConnected : bool;
  XP_ready : bool
}.

Definition set_routes (r : list Route) (p : xdsProvisioner) : xdsProvisioner :=
  let 'mkXdsProvisioner a b c d e f _ h i j k l m := p in mkXdsProvisioner a b c d e f r h i j k l m.
Definition set_upstreams (u : gmap string Upstream) (p : xdsProvisioner) : xdsProvisioner :=
  let 'mkXdsProvisioner a b c d e f g _ i j k l m := p in mkXdsProvisioner a b c d e f g u i j k l m.
Definition set_secrets (s : option (gmap string Secret)) (p : xdsProvisioner) : xdsProvisioner :=
  let 'mkXdsProvisioner a b c d e f g h _ j k l m := p in mkXdsProvisioner a b c d e f g h s j k l m.
Definition set_edsRequiredClusters (s : StringSet) (p : xdsProvisioner) : xdsProvisioner :=
  let 'mkXdsProvisioner a b c d e f g h i _ k l m := p in mkXdsProvisioner a b c d e f g h i s k l m.
Definition set_listeners (own : gmap string string) (static : list RouteConfiguration)
    (p : xdsProvisioner) : xdsProvisioner :=
  let 'mkXdsProvisioner a b c d _ _ g h i j k l m := p in mkXdsProvisioner a b c d (Some own) static g h i j k l m.
Definition set_adsConnected (v : bool) (p : xdsProvisioner) : xdsProvisioner :=
  let 'mkXdsProvisioner a b c d e f g h i j _ l m := p in mkXdsProvisioner a b c d e f g h i j v l m.
Definition set_sdsConnected (v : bool) (p : xdsProvisioner) : xdsProvisioner :=
  let 'mkXdsProvisioner a b c d e f g h i j k _ m := p in mkXdsProvisioner a b c d e f g h i j k v m.
Definition set_ready (v : bool) (p : xdsProvisioner) : xdsProvisioner :=
  let 'mkXdsProvisioner a b c d e f g h i j k l _ := p in mkXdsProvisioner a b c d e f g h i j k l v.
Definition set_amesh (am : option ameshProvisioner) (p : xdsProvisioner) : xdsProvisioner :=
  let 'mkXdsProvisioner a b _ d e f g h i j k l m := p in mkXdsProvisioner a b am d e f g h i j k l m.

(** ** Configuration *)

Record Config := mkConfig {
  Config_RunId : string;
  Config_LogLevel : string;
  Config_LogOutput : string;
  Config_XDSConfigSource : string;
  Config_AmeshConfigSource : string;
  Config_SyncInternal : Z;
  Config_Namespace : string;
  Config_IpAddress : string
}.

(** [xds.GenNodeId] and [util.GenNodeId] (the same code twice). *)
Definition GenNodeId (runId ipAddr dnsDomain : string) : string :=
  "sidecar~" +:+ ipAddr +:+ "~" +:+ runId +:+ "~" +:+ dnsDomain.

(** [version] is the version set at build time; [logger] is the error of
    creating the logger, if any. *)
Definition NewXDSProvisioner (env : environment) (version : string) (logger : option error)
    (cfg : Config) : xdsProvisioner + error :=
  match logger with
  | Some err => inr err
  | None =>
  if negb (HasPrefix (Config_XDSConfigSource cfg) "grpc://") then inr (Errorf "bad xds config source")
  else
    let src := TrimPrefix (Config_XDSConfigSource cfg) "grpc://" in
    let dnsDomain := Config_Namespace cfg +:+ ".svc.cluster.local" in
    let node := mkXNode (GenNodeId (Config_RunId cfg) (Config_IpAddress cfg) dnsDomain)
                        ("amesh/" +:+ version) in
    let p := mkXdsProvisioner src node None (Config_SyncInternal cfg) None [] [] ∅ None ∅
               false false false in
    if negb (bool_decide (Config_AmeshConfigSource cfg = "")) then
      if negb (HasPrefix (Config_XDSConfigSource cfg) "grpc://") then inr (Errorf "bad xds config source")
      else
        let ameshSrc := TrimPrefix (Config_AmeshConfigSource cfg) "grpc://" in
        match NewAmeshProvisioner env ameshSrc with
        | inr err => inr err
        | inl am => inl (set_amesh (Some am) p)
        end
    else inl p
  end.

(** [NewAgent] builds the provisioner's configuration. *)
Definition agent_config (env : environment) (uuid src ameshGrpc logLevel logOutput : string)
    (syncInterval : Z) (ipAddr : string) : Config :=
  mkConfig uuid logLevel logOutput src ameshGrpc syncInterval (getNamespace env) ipAddr.

Definition NewAgent {S} (env : environment) (interfaces : list iface + error) (version uuid : string)
    (logger : option error) (now : Z) (src ameshGrpc : string) (syncInterval : Z) (dataZone versionZone : S)
    (logLevel logOutput : string) : outcome ((Agent S * xdsProvisioner) + error) :=
  res ← getIpAddr interfaces;
  match res with
  | inr err => Ret (inr err)
  | inl ipAddr =>
      match NewXDSProvisioner env version logger
              (agent_config env uuid src ameshGrpc logLevel logOutput syncInterval ipAddr) with
      | inr err => Ret (inr err)
      | inl p => Ret (inl (mkAgent now src dataZone versionZone, p))
      end
  end.

(** ** GetData: the JSON documents of the status server *)

Record XdsProvisionerStatus := mkXdsProvisionerStatus {
  XdsConnected : bool;
  XdsProvisionerReady : bool;
  AmeshConnected : bool;
  AmeshProvisionerReady : bool;
  SdsConnected : bool
}.

Definition json_field {A} `{ToJson A} (name : string) (a : A) : field := (λ j, [(name, j)]) <$> to_json a.

#[export] Instance to_json_status : ToJson XdsProvisionerStatus := λ s, json_struct [
  json_field "xdsConnected" (XdsConnected s);
  json_field "xdsProvisionerReady" (XdsProvisionerReady s);
  json_field "ameshConnected" (AmeshConnected s);
  json_field "ameshProvisionerReady" (AmeshProvisionerReady s);
  json_field "sdsConnected" (SdsConnected s)].

#[export] Instance to_json_ApisixPlugin : ToJson ApisixPlugin := λ p, json_struct [
  omitempty "type" empty_string (AP_Type p);
  omitempty "name" empty_string (AP_Name p);
  omitempty "config" empty_any_map (AP_Config p)].

Definition json_error : error := Errorf "json: unsupported value".

Definition indented {A} `{ToJson A} (a : A) : string + error :=
  match MarshalIndent a with Some s => inl s | None => inr json_error end.

Section Provisioner.
Context `{GoRange} `{XdsLib}.

Definition GetData (p : xdsProvisioner) (dataType : string) : outcome (string + error) :=
  if bool_decide (dataType = "status") then
    am ← deref "nil pointer dereference: p.amesh" (XP_amesh p);
    Ret (indented (mkXdsProvisionerStatus (XP_adsConnected p) (XP_ready p)
                     (AM_connected am) (AM_ready am) (XP_sdsConnected p)))
  else if bool_decide (dataType = "routes") then
    Ret (indented (last_by Route_Id (XP_routes p)))
  else if bool_decide (dataType = "upstreams") then
    Ret (indented (last_by Upstream_Id (snd <$> range "GetData upstreams" (XP_upstreams p))))
  else if bool_decide (dataType = "plugins") then
    am ← deref "nil pointer dereference: p.amesh" (XP_amesh p);
    Ret (indented (GetPlugins am))
  else
    Ret (inl ("{" +:+ String quote "error" +:+ String quote ": " +:+ String quote "unknown data type " +:+
              dataType +:+ String quote "}")).

(** ** Requests *)

Inductive effect : Type :=
| SendRequest (dr : DiscoveryRequest)
| SendEvents (events : list Event).

Definition new_request (p : xdsProvisioner) (typeUrl : string) (names : list string) : DiscoveryRequest :=
  mkDiscoveryRequest "" (XP_node p) names typeUrl "" None.

Definition firstSend (p : xdsProvisioner) : list DiscoveryRequest :=
  [new_request p ListenerUrl []; new_request p ClusterUrl []].

(** The periodic request of [run]. *)
Definition sync_request (p : xdsProvisioner) : option DiscoveryRequest :=
  if 0 <? XP_syncInterval p then Some (new_request p ClusterUrl []) else None.

Definition sendEds (seed : string) (p : xdsProvisioner) (edsRequests : StringSet) : list effect :=
  [SendRequest (new_request p ClusterLoadAssignmentUrl (Strings seed edsRequests))].

Definition sendRds (p : xdsProvisioner) (rdsNames : list string) : list effect :=
  if Nat.eqb (length rdsNames) 0 then []
  else [SendRequest (new_request p RouteConfigurationUrl rdsNames)].

Definition SendSds (p : xdsProvisioner) (name : string) : DiscoveryRequest :=
  new_request p SecretUrl [name].

(** The stream on which [sendLoop] sends a request. *)
Inductive stream : Type := SDS | ADS.
Definition sendLoop_stream (dr : DiscoveryRequest) : stream :=
  if bool_decide (Req_TypeUrl dr = SecretUrl) then SDS else ADS.

(** One [Recv] of [recvLoop] and [sdsRecvLoop]: every error resets the client,
    whatever its text. *)
Definition recvLoop_step (stopped : bool) (p : xdsProvisioner) (res : DiscoveryResponse + error) :
    xdsProvisioner * recv_action :=
  match res with
  | inl _ => (p, RecvHandle)
  | inr err =>
      if stopped then (p, RecvStop)
      else
        let p := set_adsConnected false p in
        if is_reset_error (error_text err) then (p, RecvReset err) else (p, RecvReset err)
  end.

Definition sdsRecvLoop_step (stopped : bool) (p : xdsProvisioner) (res : DiscoveryResponse + error) :
    xdsProvisioner * recv_action :=
  match res with
  | inl _ => (p, RecvHandle)
  | inr err =>
      if stopped then (p, RecvStop)
      else
        let p := set_sdsConnected false p in
        if is_reset_error (error_text err) then (p, RecvReset err) else (p, RecvReset err)
  end.

(** ** The process functions of translator.go *)

Definition processRouteConfigurationV3 (p : xdsProvisioner) (route : RouteConfiguration) :
    outcome (list Route + error) :=
  TranslateRouteConfiguration (XP_amesh p) route (XP_routeOwnership p).

(** The translated routes are not appended to the result. *)
Fixpoint processStaticRouteConfigurations (p : xdsProvisioner) (rcs : list RouteConfiguration) :
    outcome (list Route + error) :=
  match rcs with
  | [] => Ret (inl [])
  | rc :: rcs =>
      res ← TranslateRouteConfiguration (XP_amesh p) rc (XP_routeOwnership p);
      match res with
      | inr err => Ret (inr err)
      | inl _ => processStaticRouteConfigurations p rcs
      end
  end.

(** [processClusterV3] (not called). *)
Definition processClusterV3 (res : Any) : outcome (Upstream + error) :=
  match unmarshal_Cluster res with
  | inr err => Ret (inr err)
  | inl cluster => TranslateCluster cluster
  end.

Definition processClusterLoadAssignmentV3 (p : xdsProvisioner) (cla : ClusterLoadAssignment) :
    outcome (Upstream + error) :=
  match XP_upstreams p !! CLA_ClusterName cla with
  | None => Ret (inr (Errorf "UnknownClusterName"))
  | Some ups =>
      res ← TranslateClusterLoadAssignment (Some cla);
      match res with
      | inr err => Ret (inr err)
      | inl nodes =>
          match Marshal ups with
          | None => Ret (inr json_error)
          | Some data =>
              match Unmarshal_Upstream data with
              | None => Ret (inr (Errorf "json: cannot unmarshal"))
              | Some newUps => Ret (inl (set_Upstream_Nodes nodes newUps))
              end
          end
      end
  end.

Definition ignoreEds (p : xdsProvisioner) (clusterName : string) : bool :=
  let xdsSrc := default "" (hd_error (Split (TrimPrefix (XP_src p) "grpc://") ":")) in
  existsb (Contains clusterName)
    ["BlackHoleCluster"; "PassthroughCluster"; "InboundPassthroughCluster";
     "kubernetes.default.svc.cluster.local"; "kube-system.svc.cluster.local";
     "istio-system.svc.cluster.local"; xdsSrc].

(** ** UpdateRoutesPlugin *)

Definition update_route_plugins (p : xdsProvisioner) (newRoutes : list Route) (oldRoute : Route) :
    outcome (list Route) :=
  route ← patchAmeshPlugins (XP_amesh p) (Copy oldRoute);
  Ret (newRoutes ++ [route]).

(** The state, the new manifest and the old one. *)
Definition updateRoutesPluginManifest (p : xdsProvisioner) :
    outcome (xdsProvisioner * (Manifest * Manifest)) :=
  newRoutes ← go_foldl (update_route_plugins p) [] (XP_routes p);
  Ret (set_routes newRoutes p, (mkManifest newRoutes [], mkManifest (XP_routes p) [])).

Definition UpdateRoutesPlugin (p : xdsProvisioner) : outcome (xdsProvisioner * list effect) :=
  '(p, (newManifest, oldManifest)) ← updateRoutesPluginManifest p;
  Ret (p, [SendEvents (generateIncrementalEvents (Some newManifest) (Some oldManifest))]).

(** ** Run: the connection loop *)

(** The results of one connection attempt: the four calls that can fail. *)
Record attempt := mkAttempt {
  dial_ads : bool;
  stream_ads : bool;
  dial_sds : bool;
  stream_sds : bool
}.

(** The flags set on the way; [true] when every call succeeds. *)
Definition connect (a : attempt) (p : xdsProvisioner) : xdsProvisioner * bool :=
  if negb (dial_ads a) then (p, false) else
  let p := set_adsConnected true p in
  if negb (stream_ads a) then (p, false) else
  if negb (dial_sds a) then (p, false) else
  let p := set_sdsConnected true p in
  if negb (stream_sds a) then (p, false) else (p, true).

(** The first step of the goroutine that waits for plugin updates: the call of
    [p.amesh.EventsChannel]. *)
Definition plugins_channel (p : xdsProvisioner) : outcome unit :=
  _ ← deref "nil pointer dereference: p.amesh" (XP_amesh p);
  Ret tt.

(** The goroutines that [run] starts; none of them ends when the client is
    reset, except the two receive loops. *)
Inductive goroutine : Type :=
| GoPlugins | GoSendLoop | GoRecvLoop | GoSdsRecvLoop | GoTranslateLoop | GoFirstSend | GoSyncLoop.
#[export] Instance goroutine_eq_dec : EqDecision goroutine.
Proof using Type. solve_decision. Defined.

Definition run (p : xdsProvisioner) : xdsProvisioner * list goroutine :=
  (set_ready true p,
   [GoPlugins; GoSendLoop; GoRecvLoop; GoSdsRecvLoop; GoTranslateLoop; GoFirstSend] ++
   (if 0 <? XP_syncInterval p then [GoSyncLoop] else [])).

Inductive run_phase : Type := Connecting | Serving | Exited.
#[export] Instance run_phase_eq_dec : EqDecision run_phase.
Proof using Type. solve_decision. Defined.

Inductive run_input : Type :=
| Attempted (a : attempt)
| RunReset (err : error)
| RunStopped.

(** The state of [Run]: the provisioner, the phase, and the goroutines started
    so far. *)
Definition Run_step (st : xdsProvisioner * run_phase * list goroutine) (i : run_input) :
    xdsProvisioner * run_phase * list goroutine :=
  let '(p, phase, gs) := st in
  match phase, i with
  | Connecting, Attempted a =>
      let '(p, ok) := connect a p in
      if ok then let '(p, started) := run p in (p, Serving, gs ++ started)
      else (p, Connecting, gs)
  | Serving, RunReset _ =>
      (set_sdsConnected false (set_adsConnected false p), Connecting, gs)
  | Serving, RunStopped => (p, Exited, gs)
  | _, _ => st
  end.

Definition Run (p : xdsProvisioner) (inputs : list run_input) : xdsProvisioner * run_phase * list goroutine :=
  foldl Run_step (p, Connecting, []) inputs.

End Provisioner.
