(* ===== verification/Translate.v ===== *)
(** * Translating discovery responses
    (src/pkg/amesh/provisioner/xds.go: translate and translateLoop)

    One definition per resource type, as the cases of the switch in
    [translate]; each returns the new state, the manifests or events and the
    effects of the goroutines it spawns.  [translateLoop_step] is one iteration
    of the loop that acknowledges responses. *)

From S2P Require Import Prelude GoStrings GoNum Json Apisix Compare Xds StringSet.
From S2P Require Import Manifest JsonParse UpstreamJson Agent Endpoint AmeshPlugins RouteTranslator Provisioner.
Local Open Scope Z_scope.

Section Translate.
Context `{GoRange} `{XdsLib}.

(** ** RDS *)

(** One resource: [acc] is the names and the routes so far; an invalid resource
    or a configuration that does not translate is skipped. *)
Definition rds_resource (p : xdsProvisioner) (acc : list string * list Route) (res : Any) :
    outcome (list string * list Route) :=
  match unmarshal_RouteConfiguration res with
  | inr _ => Ret acc
  | inl route =>
      r ← processRouteConfigurationV3 p route;
      match r with
      | inr _ => Ret acc
      | inl partial => Ret (acc.1 ++ [RC_Name route], acc.2 ++ partial)
      end
  end.

Definition static_routes (p : xdsProvisioner) : outcome (list Route) :=
  if empty_list (XP_staticRouteConfigurations p) then Ret []
  else
    r ← processStaticRouteConfigurations p (XP_staticRouteConfigurations p);
    match r with
    | inr _ => Ret []
    | inl partial => Ret partial
    end.

(** The state, the new and the old manifest, and the resource names. *)
Definition translateRDS (p : xdsProvisioner) (resp : DiscoveryResponse) :
    outcome (xdsProvisioner * (Manifest * Manifest) * list string) :=
  '(resourceNames, routes) ← go_foldl (rds_resource p) ([], []) (Resp_Resources resp);
  static ← static_routes p;
  let newRoutes := routes ++ static in
  Ret (set_routes newRoutes p, (mkManifest newRoutes [], mkManifest (XP_routes p) []), resourceNames).

(** ** CDS *)

(** The accumulator: the clusters that require EDS, the new manifest's upstreams
    and the new upstream map. *)
Definition cds_acc : Type := StringSet * list Upstream * gmap string Upstream.

Definition cds_resource (p : xdsProvisioner) (acc : cds_acc) (res : Any) : outcome cds_acc :=
  let '(eds, news, newUps) := acc in
  match unmarshal_Cluster res with
  | inr _ => Ret acc
  | inl cluster =>
      r ← TranslateCluster cluster;
      match r with
      | inr err =>
          if decide (err = ErrorRequireFurtherEDS) then
            let ignored := ignoreEds p (Cluster_Name cluster) in
            Ret (if negb ignored then Add eds (Cluster_Name cluster) else eds, news, newUps)
          else Ret acc
      | inl ups =>
          let '(eds, news) :=
            if Cluster_GetType cluster =? Cluster_EDS then
              (Add eds (Cluster_Name cluster),
               match XP_upstreams p !! Cluster_Name cluster with
               | Some oldUps => if negb (empty_list (Upstream_Nodes oldUps)) then news ++ [oldUps] else news
               | None => news
               end)
            else if negb (empty_list (Upstream_Nodes ups)) then (eds, news ++ [ups])
            else (eds, news) in
          Ret (eds, news, <[Upstream_Name ups := ups]> newUps)
      end
  end.

(** The upstreams with nodes, in the order of the map iteration. *)
Definition with_nodes (seed : string) (upstreams : gmap string Upstream) : list Upstream :=
  filter (λ ups, Upstream_Nodes ups ≠ []) (snd <$> range seed upstreams).

Definition translateCDS (p : xdsProvisioner) (resp : DiscoveryResponse) :
    outcome (xdsProvisioner * (Manifest * Manifest) * list effect) :=
  '(eds, news, newUps) ← go_foldl (cds_resource p) (∅, [], ∅) (Resp_Resources resp);
  let olds := with_nodes ("CDS old " +:+ Resp_Nonce resp) (XP_upstreams p) in
  let p := set_upstreams newUps (set_edsRequiredClusters eds p) in
  Ret (p, (mkManifest [] news, mkManifest [] olds), sendEds ("EDS " +:+ Resp_Nonce resp) p eds).

(** ** EDS *)

(** The accumulator: the provisioner with its upstream map, the names, the new
    upstreams and the clusters to request again. *)
Definition eds_acc : Type := xdsProvisioner * list string * list Upstream * StringSet.

Definition eds_resource (acc : eds_acc) (res : Any) : outcome eds_acc :=
  let '(p, names, news, further) := acc in
  match unmarshal_ClusterLoadAssignment res with
  | inr _ => Ret acc
  | inl cla =>
      r ← processClusterLoadAssignmentV3 p cla;
      match r with
      | inr err =>
          if decide (err = ErrorRequireFurtherEDS) then
            let ignored := ignoreEds p (CLA_ClusterName cla) in
            Ret (p, names, news, if negb ignored then Add further (CLA_ClusterName cla) else further)
          else Ret acc
      | inl ups =>
          Ret (set_upstreams (<[Upstream_Name ups := ups]> (XP_upstreams p)) p,
               names ++ [CLA_ClusterName cla], news ++ [ups], further)
      end
  end.

Definition translateEDS (p : xdsProvisioner) (resp : DiscoveryResponse) :
    outcome (xdsProvisioner * list Upstream * list string * list effect) :=
  '(p, names, news, further) ← go_foldl eds_resource (p, [], [], ∅) (Resp_Resources resp);
  let spawned := if bool_decide (further = ∅) then []
                 else sendEds ("EDS again " +:+ Resp_Nonce resp) p further in
  Ret (p, news, names, spawned).

(** "Always generate update event for EDS." *)
Definition eds_events (news : list Upstream) : list Event :=
  (λ ups, mkEvent EventUpdate (upstream_key (Upstream_Id ups)) (Some (ResUpstream ups)) None 0) <$> news.

(** ** LDS *)

Definition lds_acc : Type := list string * list RouteConfiguration * gmap string string.

Definition lds_resource (acc : lds_acc) (res : Any) : lds_acc :=
  let '(rdsNames, staticConfigs, routeOwnership) := acc in
  match unmarshal_Listener res with
  | inr _ => acc
  | inl listener =>
      match GetSocketAddress (Listener_Address listener) with
      | None => acc
      | Some sockAddr =>
          if GetPortValue sockAddr =? 0 then acc
          else
            let addr := SA_Address sockAddr +:+ ":" +:+ itoa (GetPortValue sockAddr) in
            match GetRoutesFromListener listener with
            | inr _ => acc
            | inl (names, cfgs) =>
                let own := foldl (λ own name, <[name := addr]> own) routeOwnership names in
                let own := foldl (λ own cfg, <[RC_Name cfg := addr]> own) own cfgs in
                (rdsNames ++ names, staticConfigs ++ cfgs, own)
            end
      end
  end.

Definition translateLDS (p : xdsProvisioner) (resp : DiscoveryResponse) : xdsProvisioner * list effect :=
  let '(rdsNames, staticConfigs, routeOwnership) :=
    foldl lds_resource ([], [], ∅) (Resp_Resources resp) in
  let p := set_listeners routeOwnership staticConfigs p in
  (p, sendRds p rdsNames).

(** ** SDS *)

Definition secret_of (secret : XSecret) : Secret :=
  match XSecret_Type secret with
  | Some (Secret_ValidationContext trustedCa) => mkSecret "" "" "" (default "" trustedCa)
  | Some (Secret_TlsCertificate chain key) => mkSecret "" (default "" chain) (default "" key) ""
  | _ => mkSecret "" "" "" ""
  end.

Definition sds_resource (acc : xdsProvisioner * list string) (res : Any) : outcome (xdsProvisioner * list string) :=
  let '(p, names) := acc in
  match unmarshal_Secret res with
  | inr _ => Ret acc
  | inl secret =>
      secrets ← deref "assignment to entry in nil map" (XP_secrets p);
      Ret (set_secrets (Some (<[XSecret_Name secret := secret_of secret]> secrets)) p,
           names ++ [XSecret_Name secret])
  end.

Definition translateSDS (p : xdsProvisioner) (resp : DiscoveryResponse) : outcome (xdsProvisioner * list string) :=
  go_foldl sds_resource (p, []) (Resp_Resources resp).

(** ** translate *)

Definition incremental (new old : Manifest) : effect :=
  SendEvents (generateIncrementalEvents (Some new) (Some old)).

(** The new state, the resource names or the error, and the spawned goroutines
    in the order in which they are started. *)
Definition translate (p : xdsProvisioner) (resp : DiscoveryResponse) :
    outcome (xdsProvisioner * (list string + error) * list effect) :=
  let url := Resp_TypeUrl resp in
  if bool_decide (url = RouteConfigurationUrl) then
    '(p, (new, old), names) ← translateRDS p resp;
    Ret (p, inl names, [incremental new old])
  else if bool_decide (url = ClusterUrl) then
    '(p, (new, old), spawned) ← translateCDS p resp;
    Ret (p, inl [], spawned ++ [incremental new old])
  else if bool_decide (url = ClusterLoadAssignmentUrl) then
    '(p, news, names, spawned) ← translateEDS p resp;
    Ret (p, inl names, spawned ++ [SendEvents (eds_events news)])
  else if bool_decide (url = ListenerUrl) then
    let '(p, spawned) := translateLDS p resp in
    Ret (p, inl [], spawned ++ [incremental empty_manifest empty_manifest])
  else if bool_decide (url = SecretUrl) then
    '(p, names) ← translateSDS p resp;
    Ret (p, inl names, [incremental empty_manifest empty_manifest])
  else Ret (p, inr (Errorf "UnknownResourceTypeUrl"), []).

(** ** translateLoop *)

(** One response: [verInfo] is the loop's variable; the acknowledgement follows
    the spawned goroutines. *)
Definition translateLoop_step (verInfo : string) (p : xdsProvisioner) (resp : DiscoveryResponse) :
    outcome (string * xdsProvisioner * DiscoveryRequest * list effect) :=
  '(p', result, spawned) ← translate p resp;
  let '(verInfo, names, detail) := match result with
    | inr err => (verInfo, [], Some (mkStatus Code_INVALID_ARGUMENT (error_text err)))
    | inl names => (Resp_VersionInfo resp, names, None)
    end in
  Ret (verInfo, p',
       mkDiscoveryRequest verInfo (XP_node p) names (Resp_TypeUrl resp) (Resp_Nonce resp) detail,
       spawned).

(** The loop over a sequence of responses: the state, the acknowledgements and
    the spawned goroutines. *)
Definition loop_state : Type := string * xdsProvisioner * list DiscoveryRequest * list effect.

Definition loop_step (st : loop_state) (resp : DiscoveryResponse) : outcome loop_state :=
  let '(verInfo, p, acks, effects) := st in
  '(verInfo, p, ack, spawned) ← translateLoop_step verInfo p resp;
  Ret (verInfo, p, acks ++ [ack], effects ++ spawned).

Definition translateLoop (p : xdsProvisioner) (resps : list DiscoveryResponse) : outcome loop_state :=
  go_foldl loop_step ("", p, [], []) resps.

End Translate.
