(* ===== verification/Sync.v ===== *)
(** * The provisioner and the store, as a transition system

    A state is the provisioner and the content of the store that the agent
    keeps; a step handles a discovery response, a message of the controller or
    a notification that plugins changed, and applies the emitted events in the
    order in which they are emitted.  The invariant [routes_in_sync] says that
    the store holds exactly the provisioner's routes. *)

From stdpp Require Import relations.
From S2P Require Import Prelude GoStrings GoNum Json Apisix Compare Xds StringSet.
From S2P Require Import Manifest JsonParse UpstreamJson Agent Endpoint AmeshPlugins RouteTranslator RouteSpec.
From S2P Require Import Finite Provisioner Translate.
Local Open Scope Z_scope.

Definition apply_effect `{GoRange} `{XdsLib} (c : gmap string string) (e : effect) : gmap string string :=
  match e with SendEvents evs => apply_events c evs | SendRequest _ => c end.
Definition apply_effects `{GoRange} `{XdsLib} (c : gmap string string) (es : list effect) : gmap string string :=
  foldl apply_effect c es.

Section Sync.
Context `{GoRange} `{XdsLib}.

(** ** The cases of translate *)

(** The type URLs are distinct. *)
Lemma urls_ne :
  RouteConfigurationUrl ≠ ClusterUrl ∧ RouteConfigurationUrl ≠ ClusterLoadAssignmentUrl ∧
  RouteConfigurationUrl ≠ ListenerUrl ∧ RouteConfigurationUrl ≠ SecretUrl ∧
  ClusterUrl ≠ ClusterLoadAssignmentUrl ∧ ClusterUrl ≠ ListenerUrl ∧ ClusterUrl ≠ SecretUrl ∧
  ClusterLoadAssignmentUrl ≠ ListenerUrl ∧ ClusterLoadAssignmentUrl ≠ SecretUrl ∧ ListenerUrl ≠ SecretUrl.
Proof.
  pose proof type_urls_distinct as Hnd. rewrite !NoDup_cons, !not_elem_of_cons in Hnd.
  destruct Hnd as ((?&?&?&?&_)&(?&?&?&_)&(?&?&_)&(?&_)&_). by split_and!.
Qed.

(** Two type URLs that differ. *)
Ltac url_ne := destruct urls_ne as (?&?&?&?&?&?&?&?&?&?); congruence.

Lemma translate_RDS p resp : Resp_TypeUrl resp = RouteConfigurationUrl →
  translate p resp = ('(p, (new, old), names) ← translateRDS p resp; Ret (p, inl names, [incremental new old])).
Proof. intros Hurl. unfold translate. rewrite Hurl. by rewrite bool_decide_true. Qed.

Lemma translate_CDS p resp : Resp_TypeUrl resp = ClusterUrl →
  translate p resp =
    ('(p, (new, old), spawned) ← translateCDS p resp; Ret (p, inl [], spawned ++ [incremental new old])).
Proof.
  intros Hurl. unfold translate. rewrite Hurl.
  rewrite bool_decide_false by url_ne. by rewrite bool_decide_true.
Qed.

Lemma translate_EDS p resp : Resp_TypeUrl resp = ClusterLoadAssignmentUrl →
  translate p resp =
    ('(p, news, names, spawned) ← translateEDS p resp; Ret (p, inl names, spawned ++ [SendEvents (eds_events news)])).
Proof.
  intros Hurl. unfold translate. rewrite Hurl.
  rewrite !bool_decide_false by url_ne. by rewrite bool_decide_true.
Qed.

Lemma translate_LDS p resp : Resp_TypeUrl resp = ListenerUrl →
  translate p resp =
    (let '(p, spawned) := translateLDS p resp in
     Ret (p, inl [], spawned ++ [incremental empty_manifest empty_manifest])).
Proof.
  intros Hurl. unfold translate. rewrite Hurl.
  rewrite !bool_decide_false by url_ne. by rewrite bool_decide_true.
Qed.

Lemma translate_SDS p resp : Resp_TypeUrl resp = SecretUrl →
  translate p resp =
    ('(p, names) ← translateSDS p resp; Ret (p, inl names, [incremental empty_manifest empty_manifest])).
Proof.
  intros Hurl. unfold translate. rewrite Hurl.
  rewrite !bool_decide_false by url_ne. by rewrite bool_decide_true.
Qed.

Definition known_url (url : string) : Prop :=
  url ∈ [RouteConfigurationUrl; ClusterUrl; ClusterLoadAssignmentUrl; ListenerUrl; SecretUrl].

Lemma translate_unknown p resp : ¬ known_url (Resp_TypeUrl resp) →
  translate p resp = Ret (p, inr (Errorf "UnknownResourceTypeUrl"), []).
Proof.
  unfold known_url. rewrite !not_elem_of_cons. intros Hurl. unfold translate.
  destruct Hurl as (?&?&?&?&?&_). by rewrite !bool_decide_false by done.
Qed.

#[export] Instance known_url_decision url : Decision (known_url url).
Proof. unfold known_url. apply _. Defined.

Lemma known_url_dec url : known_url url ∨ ¬ known_url url.
Proof. destruct (decide (known_url url)); auto. Qed.

(** An outcome for each kind of response. *)
Inductive translated (p : xdsProvisioner) (resp : DiscoveryResponse) :
    xdsProvisioner → list string + error → list effect → Prop :=
| TrRDS p' new old names :
    Resp_TypeUrl resp = RouteConfigurationUrl → translateRDS p resp = Ret (p', (new, old), names) →
    translated p resp p' (inl names) [incremental new old]
| TrCDS p' new old spawned :
    Resp_TypeUrl resp = ClusterUrl → translateCDS p resp = Ret (p', (new, old), spawned) →
    translated p resp p' (inl []) (spawned ++ [incremental new old])
| TrEDS p' news names spawned :
    Resp_TypeUrl resp = ClusterLoadAssignmentUrl → translateEDS p resp = Ret (p', news, names, spawned) →
    translated p resp p' (inl names) (spawned ++ [SendEvents (eds_events news)])
| TrLDS p' spawned :
    Resp_TypeUrl resp = ListenerUrl → translateLDS p resp = (p', spawned) →
    translated p resp p' (inl []) (spawned ++ [incremental empty_manifest empty_manifest])
| TrSDS p' names :
    Resp_TypeUrl resp = SecretUrl → translateSDS p resp = Ret (p', names) →
    translated p resp p' (inl names) [incremental empty_manifest empty_manifest]
| TrUnknown :
    ¬ known_url (Resp_TypeUrl resp) →
    translated p resp p (inr (Errorf "UnknownResourceTypeUrl")) [].

Lemma translate_inv p resp p' res effs :
  translate p resp = Ret (p', res, effs) → translated p resp p' res effs.
Proof.
  intros Hr. destruct (known_url_dec (Resp_TypeUrl resp)) as [Hurl|Hurl].
  2: { rewrite translate_unknown in Hr by done. injection Hr as <- <- <-. by constructor. }
  unfold known_url in Hurl. rewrite !elem_of_cons, elem_of_nil in Hurl. destruct Hurl as [Hu|[Hu|[Hu|[Hu|[Hu|[]]]]]].
  - rewrite translate_RDS in Hr by done. apply bind_ret in Hr as ([[? []] ?] & ? & [= <- <- <-]). by econstructor.
  - rewrite translate_CDS in Hr by done. apply bind_ret in Hr as ([[? []] ?] & ? & [= <- <- <-]). by econstructor.
  - rewrite translate_EDS in Hr by done. apply bind_ret in Hr as ([[[]]] & ? & [= <- <- <-]). by econstructor.
  - rewrite translate_LDS in Hr by done. destruct (translateLDS p resp) eqn:?. injection Hr as <- <- <-. by econstructor.
  - rewrite translate_SDS in Hr by done. apply bind_ret in Hr as ([] & ? & [= <- <- <-]). by econstructor.
Qed.

(** ** What each case does to the state *)

Lemma static_routes_nil p routes : static_routes p = Ret routes → routes = [].
Proof.
  unfold static_routes. destruct (empty_list _); [by intros [= <-]|].
  assert (∀ rcs r, processStaticRouteConfigurations p rcs = Ret (inl r) → r = []) as Hnil.
  { induction rcs as [|rc rcs IH]; intros r Hr; cbn [processStaticRouteConfigurations] in Hr.
    - by injection Hr as <-.
    - apply bind_ret in Hr as ([] & _ & Hr); [by apply IH|done]. }
  intros Hr. apply bind_ret in Hr as ([partial|] & Hp & Hr); [|by injection Hr as <-].
  injection Hr as <-. by eapply Hnil.
Qed.

(** The controller's plugins that a provisioner holds are well formed. *)
Definition amesh_ok (p : xdsProvisioner) : Prop :=
  ∃ am, XP_amesh p = Some am ∧ keyed (GetPlugins am) ∧ configs_finite (GetPlugins am).

(** The route configurations of a response have 64-bit durations. *)
Definition response_ok (resp : DiscoveryResponse) : Prop :=
  ∀ res rc, res ∈ Resp_Resources resp → unmarshal_RouteConfiguration res = inl rc → config_durations rc.

(** What holds of every route that is translated from a response, under the
    provisioner's plugins, holds of the new routes. *)
Lemma translateRDS_forall (P : Route → Prop) p resp p' new old names :
  translateRDS p resp = Ret (p', (new, old), names) →
  (∀ res rc hosts name vhost route r, res ∈ Resp_Resources resp → unmarshal_RouteConfiguration res = inl rc →
     vhost ∈ RC_VirtualHosts rc → route ∈ VH_Routes vhost →
     translate_route (XP_amesh p) hosts name vhost route = Ret (RouteOk r) → P r) →
  p' = set_routes (Manifest_Routes new) p ∧ old = mkManifest (XP_routes p) [] ∧
  Manifest_Upstreams new = [] ∧ Forall P (Manifest_Routes new).
Proof.
  intros Hr Hok. unfold translateRDS in Hr.
  apply bind_ret in Hr as ([names' routes] & Hf & Hr).
  apply bind_ret in Hr as (static & Hs & Hr). apply static_routes_nil in Hs as ->.
  injection Hr as <- <- <- <-. cbn [Manifest_Routes Manifest_Upstreams]. split_and!; [done..|].
  rewrite app_nil_r. change (Forall P (names', routes).2). revert Hf.
  apply (go_foldl_inv (λ acc, Forall P acc.2)); [apply Forall_nil_2|].
  intros [ns rs] res acc Hin Hacc Hstep. cbn [snd] in Hacc. unfold rds_resource in Hstep.
  destruct (unmarshal_RouteConfiguration res) as [rc|] eqn:Hrc; [|by injection Hstep as <-].
  apply bind_ret in Hstep as ([partial|] & Hp & Hstep); injection Hstep as <-; [|done].
  cbn [fst snd]. apply Forall_app_2; [done|].
  unfold processRouteConfigurationV3 in Hp. eapply TranslateRouteConfiguration_forall; eauto.
Qed.

Lemma translateRDS_state p resp p' new old names :
  translateRDS p resp = Ret (p', (new, old), names) → amesh_ok p → response_ok resp →
  p' = set_routes (Manifest_Routes new) p ∧ old = mkManifest (XP_routes p) [] ∧
  Manifest_Upstreams new = [] ∧ Forall route_finite (Manifest_Routes new).
Proof.
  intros Hr (am & Ham & Hkey & Hconf) Hok. eapply translateRDS_forall; [done|].
  intros res rc hosts name vhost route r Hres Hrc Hv Hroute Ht. rewrite Ham in Ht.
  eapply translate_route_finite; eauto. by eapply Hok.
Qed.

(** The same for the routes that [UpdateRoutesPlugin] patches. *)
Lemma UpdateRoutesPlugin_forall (P : Route → Prop) p p' effs :
  UpdateRoutesPlugin p = Ret (p', effs) → Forall P (XP_routes p) →
  (∀ am r, XP_amesh p = Some am → P r →
     P (set_Route_Plugins (patch_plugins (Route_Id r) (GetPlugins am) (Route_Plugins r)) r)) →
  ∃ routes, p' = set_routes routes p ∧ Forall P routes ∧
    effs = [incremental (mkManifest routes []) (mkManifest (XP_routes p) [])].
Proof.
  intros Hr Hall Hpatch. unfold UpdateRoutesPlugin, updateRoutesPluginManifest in Hr.
  apply bind_ret in Hr as ([p1 [new old]] & Hm & Hr). injection Hr as <- <-.
  apply bind_ret in Hm as (routes & Hf & Hm). injection Hm as <- <- <-.
  exists routes. split_and!; [done| |done]. revert Hf.
  apply (go_foldl_inv (Forall P)); [apply Forall_nil_2|].
  intros acc r acc' Hin Hacc Hstep. unfold update_route_plugins, patchAmeshPlugins in Hstep.
  destruct (XP_amesh p) as [am|]; [|done]. rewrite Copy_eq in Hstep. injection Hstep as <-.
  apply Forall_app_2; [done|]. apply Forall_singleton_2, Hpatch; [done|].
  rewrite Forall_forall in Hall. by apply Hall.
Qed.

Lemma UpdateRoutesPlugin_state p p' effs :
  UpdateRoutesPlugin p = Ret (p', effs) → amesh_ok p → Forall route_finite (XP_routes p) →
  ∃ routes, p' = set_routes routes p ∧ Forall route_finite routes ∧
    effs = [incremental (mkManifest routes []) (mkManifest (XP_routes p) [])].
Proof.
  intros Hr (am & Ham & Hkey & Hconf) Hfin. eapply UpdateRoutesPlugin_forall; [done..|].
  intros am' r Ham' Hr'. assert (am' = am) as -> by congruence. by apply patch_route_finite.
Qed.

(** What the other responses leave alone. *)
Definition same_routes (p p' : xdsProvisioner) : Prop :=
  XP_routes p' = XP_routes p ∧ XP_amesh p' = XP_amesh p.

Lemma cds_resource_nodes p acc res acc' :
  cds_resource p acc res = Ret acc' →
  (∀ u, u ∈ acc.1.2 → has_nodes u = true) → ∀ u, u ∈ acc'.1.2 → has_nodes u = true.
Proof.
  destruct acc as [[eds news] newUps]. cbn [fst snd]. intros Hstep Hn.
  unfold cds_resource in Hstep. destruct (unmarshal_Cluster res) as [cluster|]; [|by injection Hstep as <-].
  apply bind_ret in Hstep as ([ups|err] & _ & Hstep).
  2: { by case_decide; injection Hstep as <-. }
  destruct (Cluster_GetType cluster =? Cluster_EDS).
  - injection Hstep as <-. cbn [fst snd].
    destruct (XP_upstreams p !! Cluster_Name cluster) as [oldUps|]; [|done].
    destruct (negb (empty_list (Upstream_Nodes oldUps))) eqn:Hu; [|done].
    intros u [?| ->%list_elem_of_singleton]%elem_of_app; [by apply Hn|done].
  - destruct (negb (empty_list (Upstream_Nodes ups))) eqn:Hu; injection Hstep as <-; cbn [fst snd]; [|done].
    intros u [?| ->%list_elem_of_singleton]%elem_of_app; [by apply Hn|done].
Qed.

Lemma translateCDS_state p resp p' new old spawned :
  translateCDS p resp = Ret (p', (new, old), spawned) →
  same_routes p p' ∧ Manifest_Routes new = [] ∧ Manifest_Routes old = [] ∧ all_nodes new ∧
  Manifest_Upstreams old = with_nodes ("CDS old " +:+ Resp_Nonce resp) (XP_upstreams p) ∧
  ∀ e, e ∈ spawned → ∃ dr, e = SendRequest dr.
Proof.
  intros Hr. unfold translateCDS in Hr. apply bind_ret in Hr as ([[eds news] newUps] & Hf & Hr).
  injection Hr as <- <- <- <-. cbn [Manifest_Routes]. split_and!; try done; [by destruct p| |].
  - intros u Hu. cbn [Manifest_Upstreams] in Hu. change (u ∈ (eds, news, newUps).1.2) in Hu.
    revert u Hu. revert Hf. apply (go_foldl_inv (λ acc : cds_acc, ∀ u, u ∈ acc.1.2 → has_nodes u = true)).
    + by intros u ?%elem_of_nil.
    + intros acc res acc' _ Hacc Hstep. by eapply cds_resource_nodes.
  - intros e He%list_elem_of_singleton. eauto.
Qed.

Lemma translateEDS_state p resp p' news names spawned :
  translateEDS p resp = Ret (p', news, names, spawned) →
  same_routes p p' ∧ ∀ e, e ∈ spawned → ∃ dr, e = SendRequest dr.
Proof.
  intros Hr. unfold translateEDS in Hr. apply bind_ret in Hr as ([[[p1 ns] nw] further] & Hf & Hr).
  injection Hr as <- <- <- <-. split.
  - change (same_routes p (p1, ns, nw, further).1.1.1). revert Hf.
    apply (go_foldl_inv (λ acc : eds_acc, same_routes p acc.1.1.1)); [done|].
    intros [[[q ns'] nw'] fu] res acc' _ Hacc Hstep. cbn [fst] in Hacc. unfold eds_resource in Hstep.
    destruct (unmarshal_ClusterLoadAssignment res) as [cla|]; [|by injection Hstep as <-].
    apply bind_ret in Hstep as ([ups|err] & _ & Hstep).
    + injection Hstep as <-. by destruct q.
    + by case_decide; injection Hstep as <-.
  - intros e He. case_bool_decide; [by apply elem_of_nil in He|]. apply list_elem_of_singleton in He. eauto.
Qed.

Lemma translateLDS_state p resp p' spawned :
  translateLDS p resp = (p', spawned) →
  same_routes p p' ∧ XP_upstreams p' = XP_upstreams p ∧ ∀ e, e ∈ spawned → ∃ dr, e = SendRequest dr.
Proof.
  intros Hr. unfold translateLDS in Hr. destruct (foldl _ _ _) as [[rdsNames static] own].
  injection Hr as <- <-. split_and!; [by destruct p|by destruct p|].
  unfold sendRds. intros e He. destruct (Nat.eqb _ _); [by apply elem_of_nil in He|].
  apply list_elem_of_singleton in He. eauto.
Qed.

Lemma translateSDS_state p resp p' names : translateSDS p resp = Ret (p', names) → same_routes p p'.
Proof.
  intros Hr. unfold translateSDS in Hr. change (same_routes p (p', names).1). revert Hr.
  apply (go_foldl_inv (λ acc : xdsProvisioner * list string, same_routes p acc.1)); [done|].
  intros [q ns] res acc' _ Hacc Hstep. unfold sds_resource in Hstep.
  destruct (unmarshal_Secret res) as [secret|]; [|by injection Hstep as <-].
  apply bind_ret in Hstep as (secrets & _ & Hstep). injection Hstep as <-. by destruct q.
Qed.

(** ** Effects on the store *)

Lemma apply_effects_app c e1 e2 : apply_effects c (e1 ++ e2) = apply_effects (apply_effects c e1) e2.
Proof. apply foldl_app. Qed.

Lemma apply_requests c es : (∀ e, e ∈ es → ∃ dr, e = SendRequest dr) → apply_effects c es = c.
Proof.
  revert c; induction es as [|e es IH]; intros c Hes; [done|]. cbn [apply_effects foldl].
  destruct (Hes e) as [dr ->]; [by left|]. apply IH. intros e' He'. apply Hes. by right.
Qed.

Lemma apply_empty_diff c : apply_effects c [incremental empty_manifest empty_manifest] = c.
Proof. done. Qed.

Lemma apply_event_other c ev k : Event_Key ev ≠ k → apply_event c ev !! k = c !! k.
Proof.
  intros Hk. unfold apply_event. case_decide; [by rewrite lookup_delete_ne|].
  destruct (marshal_resource _); [by rewrite lookup_insert_ne|done].
Qed.

Lemma apply_events_other c evs k : (∀ ev, ev ∈ evs → Event_Key ev ≠ k) → apply_events c evs !! k = c !! k.
Proof.
  revert c; induction evs as [|ev evs IH]; intros c Hk; [done|]. change (apply_events (apply_event c ev) evs !! k = c !! k).
  rewrite (IH (apply_event c ev)) by (intros; apply Hk; by right). apply apply_event_other, Hk. by left.
Qed.

Lemma eds_events_key news ev : ev ∈ eds_events news → ∃ ups, ups ∈ news ∧ Event_Key ev = upstream_key (Upstream_Id ups).
Proof. unfold eds_events. intros (ups & -> & Hin)%list_elem_of_fmap. eauto. Qed.

(** ** The invariant *)

(** The store holds exactly the provisioner's routes under the route keys. *)
Definition routes_in_sync (p : xdsProvisioner) (c : gmap string string) : Prop :=
  ∀ i, c !! route_key i = encoded Route_Id Marshal (XP_routes p) i.

Lemma route_marshals routes : Forall route_finite routes → ∀ r, r ∈ routes → is_Some (Marshal r).
Proof. rewrite Forall_forall. intros Hf r Hr. apply Marshal_Route_is_Some. by apply Hf. Qed.

Lemma synced_encoded {A} (Id : A → string) M r1 r2 i :
  synced Id M r1 r2 i (encoded Id M r1 i) = encoded Id M r2 i.
Proof. unfold synced, encoded. destruct (last_by Id r2 !! i); [done|]. by destruct (last_by Id r1 !! i). Qed.

Lemma routes_diff_sync p c new routes :
  Manifest_Routes new = routes → Manifest_Upstreams new = [] → Forall route_finite routes →
  routes_in_sync p c →
  routes_in_sync (set_routes routes p) (apply_effects c [incremental new (mkManifest (XP_routes p) [])]).
Proof.
  intros Hroutes Hups Hfin Hsync i. cbn [apply_effects foldl apply_effect incremental].
  rewrite apply_diff_route.
  - cbn [Manifest_Routes]. rewrite Hroutes, (Hsync i), synced_encoded. by destruct p.
  - intros u Hu. rewrite Hups in Hu. by apply elem_of_nil in Hu.
  - rewrite Hroutes. by apply route_marshals.
  - intros x Hx. cbn [Manifest_Routes] in Hx. rewrite (Hsync i). unfold encoded. by rewrite Hx.
Qed.

Lemma same_routes_sync p p' c c' :
  same_routes p p' → (∀ i, c' !! route_key i = c !! route_key i) → routes_in_sync p c → routes_in_sync p' c'.
Proof. intros [Hr _] Hc Hsync i. by rewrite Hc, Hr. Qed.

(** A difference of upstreams leaves the route keys alone. *)
Lemma upstream_diff_routes c new old i :
  Manifest_Routes new = [] → Manifest_Routes old = [] → all_nodes new →
  apply_effects c [incremental new old] !! route_key i = c !! route_key i.
Proof.
  intros Hn Ho Hall. cbn [apply_effects foldl apply_effect incremental]. rewrite apply_diff_route; [|done| |].
  - unfold synced. by rewrite Hn, Ho.
  - rewrite Hn. by intros r ?%elem_of_nil.
  - rewrite Ho. by intros x Hx.
Qed.

(** ** Steps *)

(** [ok] is what is assumed of the responses. *)
Inductive sys_step (ok : DiscoveryResponse → Prop) : xdsProvisioner * gmap string string → xdsProvisioner * gmap string string → Prop :=
| StepResponse p c resp p' res effs :
    ok resp → translate p resp = Ret (p', res, effs) →
    sys_step ok (p, c) (p', apply_effects c effs)
| StepPlugins p c am resp :
    XP_amesh p = Some am →
    sys_step ok (p, c) (set_amesh (Some (updatePlugins am resp).1) p, c)
| StepUpdate p c p' effs :
    UpdateRoutesPlugin p = Ret (p', effs) →
    sys_step ok (p, c) (p', apply_effects c effs).

Definition sys_inv (st : xdsProvisioner * gmap string string) : Prop :=
  amesh_ok st.1 ∧ Forall route_finite (XP_routes st.1) ∧ routes_in_sync st.1 st.2.

Lemma same_routes_ok p p' : same_routes p p' → amesh_ok p → amesh_ok p'.
Proof. intros [_ Ha] (am & ? & ?). exists am. by rewrite Ha. Qed.

Lemma same_routes_inv p p' c c' :
  same_routes p p' → (∀ i, c' !! route_key i = c !! route_key i) → sys_inv (p, c) → sys_inv (p', c').
Proof.
  intros Hs Hc (Ham & Hfin & Hsync). split_and!.
  - by eapply same_routes_ok.
  - cbn [fst] in *. by rewrite (proj1 Hs).
  - by eapply same_routes_sync.
Qed.

Lemma set_routes_inv p c new routes :
  Manifest_Routes new = routes → Manifest_Upstreams new = [] → Forall route_finite routes →
  sys_inv (p, c) →
  sys_inv (set_routes routes p, apply_effects c [incremental new (mkManifest (XP_routes p) [])]).
Proof.
  intros Hr Hu Hfin (Ham & _ & Hsync). split_and!; [by destruct p|by destruct p|].
  by apply routes_diff_sync.
Qed.

Lemma translated_inv p c resp p' res effs :
  response_ok resp → translated p resp p' res effs → sys_inv (p, c) → sys_inv (p', apply_effects c effs).
Proof.
  intros Hok Htr Hinv. destruct Htr as [p' new old names _ Hr|p' new old spawned _ Hr|p' news names spawned _ Hr
    |p' spawned _ Hr|p' names _ Hr|_].
  - destruct Hinv as [Ham Hinv]. apply translateRDS_state in Hr as (-> & -> & Hu & Hfin); [|done..].
    by apply set_routes_inv.
  - apply translateCDS_state in Hr as (Hs & Hn & Ho & Hall & _ & Hreq).
    rewrite apply_effects_app, (apply_requests _ spawned) by done. eapply same_routes_inv; [done| |done].
    intros i. by apply upstream_diff_routes.
  - apply translateEDS_state in Hr as (Hs & Hreq). rewrite apply_effects_app, (apply_requests _ spawned) by done.
    eapply same_routes_inv; [done| |done]. intros i. cbn [apply_effects foldl apply_effect incremental].
    apply apply_events_other. intros ev (ups & _ & ->)%eds_events_key. auto with amesh.
  - apply translateLDS_state in Hr as (Hs & _ & Hreq). rewrite apply_effects_app, (apply_requests _ spawned) by done.
    rewrite apply_empty_diff. by eapply same_routes_inv.
  - apply translateSDS_state in Hr. rewrite apply_empty_diff. by eapply same_routes_inv.
  - done.
Qed.

Lemma sys_step_inv st st' : sys_step response_ok st st' → sys_inv st → sys_inv st'.
Proof.
  intros Hstep Hinv. destruct Hstep as [p c resp p' res effs Hok Hr|p c am resp Ham|p c p' effs Hr].
  - apply translate_inv in Hr. by eapply translated_inv.
  - destruct Hinv as ((am' & Ham' & Hkey & Hconf) & Hfin & Hsync). cbn [fst snd] in *.
    assert (am' = am) as -> by congruence. split_and!; [|by destruct p|].
    + exists (updatePlugins am resp).1. split; [by destruct p|].
      split; [by apply updatePlugins_keyed|by apply updatePlugins_finite].
    + intros i. cbn [fst snd]. rewrite (Hsync i). by destruct p.
  - destruct Hinv as (Ham & Hfin & Hsync). cbn [fst snd] in *.
    apply UpdateRoutesPlugin_state in Hr as (routes & -> & Hfin' & ->); [|done..].
    by apply set_routes_inv.
Qed.

Lemma sys_reach_inv st st' : rtc (sys_step response_ok) st st' → sys_inv st → sys_inv st'.
Proof. induction 1; [done|]. intros. eauto using sys_step_inv. Qed.

(** What [NewXDSProvisioner] returns, with an Amesh source. *)
Lemma NewXDSProvisioner_inv env version logger cfg p :
  NewXDSProvisioner env version logger cfg = inl p → Config_AmeshConfigSource cfg ≠ "" →
  amesh_ok p ∧ XP_routes p = [] ∧ XP_upstreams p = ∅ ∧ XP_secrets p = None.
Proof.
  intros Hp Hsrc. unfold NewXDSProvisioner in Hp. destruct logger; [done|].
  destruct (negb (HasPrefix _ _)); [done|]. rewrite bool_decide_false in Hp by done. cbn [negb] in Hp.
  destruct (NewAmeshProvisioner env _) as [am|] eqn:Ham; [|done]. injection Hp as <-.
  split_and!; [|done..]. exists am. split; [done|]. unfold NewAmeshProvisioner in Ham.
  case_bool_decide; [done|]. case_bool_decide; [done|]. injection Ham as <-.
  split; apply map_Forall_empty.
Qed.

(** ** Properties *)

(** From the state that the constructor returns and a store without routes,
    whatever the sequence of discovery responses of any type, controller
    messages and plugin notifications, the store holds exactly the JSON of the
    provisioner's routes under their keys: no stale, missing or outdated route. *)
Lemma routes_in_sync_reachable env version logger cfg p c p' c' :
  NewXDSProvisioner env version logger cfg = inl p → Config_AmeshConfigSource cfg ≠ "" →
  (∀ i, c !! route_key i = None) →
  rtc (sys_step response_ok) (p, c) (p', c') →
  ∀ i, c' !! route_key i = (last_by Route_Id (XP_routes p') !! i) ≫= Marshal.
Proof.
  intros Hp Hsrc Hc Hreach. apply NewXDSProvisioner_inv in Hp as (Ham & Hroutes & _); [|done].
  assert (sys_inv (p, c)) as Hinv.
  { split_and!; [done|cbn [fst]; by rewrite Hroutes|]. intros i. cbn [fst snd]. rewrite Hc. unfold encoded.
    by rewrite Hroutes. }
  destruct (sys_reach_inv _ _ Hreach Hinv) as (_ & _ & Hsync). exact Hsync.
Qed.
End Sync.

(** ** Witnesses *)

Definition sync_lib : XdsLib := test_lib [example_rc] [] [] [] [] [("fault", example_fault)] [].
Definition example_env : environment := λ name, if bool_decide (name = "POD_NAMESPACE") then "ns"
  else if bool_decide (name = "POD_NAME") then "pod" else "".
Definition example_config : Config := mkConfig "run" "" "" "grpc://istiod:15010" "grpc://amesh:15810" 0 "ns" "10.0.0.1".
Definition initial_provisioner : xdsProvisioner :=
  match NewXDSProvisioner example_env "unknown" None example_config with
  | inl p => p
  | inr _ => mkXdsProvisioner "" (mkXNode "" "") None 0 None [] [] ∅ None ∅ false false false
  end.
Definition rds_response : DiscoveryResponse :=
  mkDiscoveryResponse "v1" [mkAny "" "80"; mkAny "" "unparsable"]
    "type.googleapis.com/envoy.config.route.v3.RouteConfiguration" "n1".

(** The state after a response, for concrete runs. *)
Definition after `{GoRange} `{XdsLib} (p : xdsProvisioner) (resp : DiscoveryResponse) : xdsProvisioner * list effect :=
  match translate p resp with Ret (p', _, effs) => (p', effs) | Panic _ => (p, []) end.

Definition rds_after : xdsProvisioner * list effect := @after map_order sync_lib initial_provisioner rds_response.

Lemma rds_response_ok : @response_ok sync_lib rds_response.
Proof.
  intros res rc Hres Hrc vhost route Hv Hr a d Ha Hd. cbn [Resp_Resources rds_response] in Hres. rewrite !elem_of_cons, elem_of_nil in Hres.
  destruct Hres as [->|[->|[]]]; [|discriminate Hrc]. vm_compute in Hrc. injection Hrc as <-.
  apply list_elem_of_singleton in Hv as ->. apply list_elem_of_singleton in Hr as ->.
  injection Ha as <-. injection Hd as <-. unfold is_int64. cbn. lia.
Qed.
