(* ===== verification/Delivery.v ===== *)
(** * The delivery of event batches

    [translate] and [UpdateRoutesPlugin] hand their events to goroutines of
    their own, which send them on the channel that the agent's event loop
    reads.  Here a batch is pending until the agent receives it: in the order
    of creation ([fifo]), which refines the transition system of Sync.v, or in
    any order, which is what the code allows. *)

From stdpp Require Import relations.
From S2P Require Import Prelude GoStrings GoNum Json Apisix Compare Xds StringSet.
From S2P Require Import Manifest Agent AmeshPlugins RouteTranslator RouteSpec.
From S2P Require Import Finite Provisioner Translate Sync.

Section Delivery.
Context `{GoRange} `{XdsLib}.

(** The provisioner, the batches in flight, and the content of the store. *)
Definition delivery_state : Type := xdsProvisioner * list (list Event) * gmap string string.

(** The batches among the effects of an operation. *)
Definition batches (effs : list effect) : list (list Event) :=
  omap (λ e, match e with SendEvents evs => Some evs | SendRequest _ => None end) effs.

Inductive delivery_step (fifo : bool) : delivery_state → delivery_state → Prop :=
| DeliverResponse p q c resp p' res effs :
    response_ok resp → translate p resp = Ret (p', res, effs) →
    delivery_step fifo (p, q, c) (p', q ++ batches effs, c)
| DeliverPlugins p q c am resp :
    XP_amesh p = Some am →
    delivery_step fifo (p, q, c) (set_amesh (Some (updatePlugins am resp).1) p, q, c)
| DeliverUpdate p q c p' effs :
    UpdateRoutesPlugin p = Ret (p', effs) →
    delivery_step fifo (p, q, c) (p', q ++ batches effs, c)
| DeliverBatch p l1 evs l2 c :
    (fifo = true → l1 = []) →
    delivery_step fifo (p, l1 ++ evs :: l2, c) (p, l1 ++ l2, apply_events c evs).

(** The store once everything in flight has arrived in order. *)
Definition drained (st : delivery_state) : xdsProvisioner * gmap string string :=
  (st.1.1, foldl apply_events st.2 st.1.2).

(** ** Lemmas *)

Lemma apply_effects_batches c effs : apply_effects c effs = foldl apply_events c (batches effs).
Proof. revert c. induction effs as [|[dr|evs] effs IH]; intros c; [done|apply IH|apply IH]. Qed.

(** A delivery in order is invisible once drained; every other step is a step
    of the synchronous system. *)
Lemma drained_step st st' :
  delivery_step true st st' → rtc (sys_step response_ok) (drained st) (drained st').
Proof.
  destruct 1 as [p q c resp p' res effs Hok Hr|p q c am resp Ham|p q c p' effs Hr|p l1 evs l2 c Hl]; unfold drained; cbn [fst snd].
  - rewrite foldl_app, <- apply_effects_batches. apply rtc_once. by eapply StepResponse.
  - apply rtc_once. by eapply StepPlugins.
  - rewrite foldl_app, <- apply_effects_batches. apply rtc_once. by eapply StepUpdate.
  - rewrite (Hl eq_refl). apply rtc_refl.
Qed.

Lemma drained_reach st st' :
  rtc (delivery_step true) st st' → rtc (sys_step response_ok) (drained st) (drained st').
Proof. induction 1; [done|]. etrans; [by apply drained_step|done]. Qed.

(** An RDS response without resources empties the routes. *)
Lemma empty_rds p resp p' res effs :
  Resp_TypeUrl resp = RouteConfigurationUrl → Resp_Resources resp = [] →
  translate p resp = Ret (p', res, effs) →
  XP_routes p' = [] ∧ effs = [incremental (mkManifest [] []) (mkManifest (XP_routes p) [])].
Proof.
  intros Hu Hn Hr. rewrite translate_RDS in Hr by done.
  apply bind_ret in Hr as ([[q [new old]] names] & Ht & [= <- <- <-]).
  unfold translateRDS in Ht. rewrite Hn in Ht. cbn [go_foldl mbind outcome_bind] in Ht.
  apply bind_ret in Ht as (static & Hs & Ht). apply static_routes_nil in Hs as ->.
  injection Ht as <- <- <- _. by split; [destruct p|].
Qed.

(** The batch of the first routes, received last, stores them. *)
Lemma late_batch c new r :
  Manifest_Upstreams new = [] → Forall route_finite (Manifest_Routes new) → r ∈ Manifest_Routes new →
  is_Some (apply_events c (generateIncrementalEvents (Some new) (Some (mkManifest [] []))) !! route_key (Route_Id r)).
Proof.
  intros Hu Hfin Hr. rewrite apply_diff_route.
  - unfold synced. cbn [Manifest_Routes].
    destruct (last_by_is_Some Route_Id (Manifest_Routes new) r Hr) as [r' Hr']. rewrite Hr'.
    apply last_by_Some in Hr' as [Hin _]. by apply (route_marshals (Manifest_Routes new)).
  - intros u Hin. rewrite Hu in Hin. by apply elem_of_nil in Hin.
  - by apply route_marshals.
  - by intros x.
Qed.

(** ** Properties *)

(** C1. The store follows the provisioner: from the state that the constructor
    returns and a store without routes, whatever the sequence of discovery
    responses of any type, controller messages and plugin notifications, and
    however late the batches arrive, provided they arrive in order: once the
    batches in flight are in, the store holds exactly the JSON of the
    provisioner's routes under their keys, with no stale, missing or outdated
    route. *)
Theorem store_follows_provisioner env version logger cfg p c p' q c' :
  NewXDSProvisioner env version logger cfg = inl p → Config_AmeshConfigSource cfg ≠ "" →
  (∀ i, c !! route_key i = None) →
  rtc (delivery_step true) (p, [], c) (p', q, c') →
  ∀ i, foldl apply_events c' q !! route_key i = (last_by Route_Id (XP_routes p') !! i) ≫= Marshal.
Proof.
  intros Hp Hsrc Hc Hreach%drained_reach. by apply (routes_in_sync_reachable env version logger cfg p c).
Qed.

(** The order is not guaranteed, and it matters: the goroutine of a later
    response can send first.  When routes arrive and the next response has
    none, there is a run at whose end every batch has been received and the
    provisioner has no routes, but the store keeps them. *)
Lemma reordered_batches p am c resp1 resp2 p1 res1 effs1 p2 res2 effs2 r :
  XP_amesh p = Some am → keyed (GetPlugins am) → configs_finite (GetPlugins am) → XP_routes p = [] →
  Resp_TypeUrl resp1 = RouteConfigurationUrl → response_ok resp1 → translate p resp1 = Ret (p1, res1, effs1) →
  Resp_TypeUrl resp2 = RouteConfigurationUrl → Resp_Resources resp2 = [] → translate p1 resp2 = Ret (p2, res2, effs2) →
  r ∈ XP_routes p1 →
  ∃ c', rtc (delivery_step false) (p, [], c) (p2, [], c') ∧ XP_routes p2 = [] ∧
    is_Some (c' !! route_key (Route_Id r)).
Proof.
  intros Ham Hkey Hfin Hnone Hu1 Hok1 Ht1 Hu2 Hn2 Ht2 Hr.
  destruct (empty_rds p1 resp2 p2 res2 effs2 Hu2 Hn2 Ht2) as [Hr2 He2].
  assert (response_ok resp2) as Hok2.
  { intros res rc Hin. rewrite Hn2 in Hin. by apply elem_of_nil in Hin. }
  pose proof Ht1 as Ht1'. rewrite translate_RDS in Ht1' by done.
  apply bind_ret in Ht1' as ([[q1 [new old]] names] & Hrds & [= -> Hres He1]).
  apply translateRDS_state in Hrds as (Hp1 & Hold & Hup & Hrf); [|by exists am|done].
  assert (XP_routes p1 = Manifest_Routes new) as Hroutes by (rewrite Hp1; by destruct p).
  rewrite Hroutes in Hr. rewrite Hold, Hnone in He1.
  set (adds := generateIncrementalEvents (Some new) (Some (mkManifest [] []))) in *.
  set (deletes := generateIncrementalEvents (Some (mkManifest [] [])) (Some (mkManifest (XP_routes p1) []))) in *.
  exists (apply_events (apply_events c deletes) adds).
  split_and!; [|done|apply (late_batch _ new r Hup Hrf Hr)].
  eapply rtc_l; [apply (DeliverResponse false p [] c resp1 p1 res1 effs1 Hok1 Ht1)|].
  eapply rtc_l; [apply (DeliverResponse false p1 _ c resp2 p2 res2 effs2 Hok2 Ht2)|].
  rewrite <- He1, He2. change (([] ++ batches [incremental new (mkManifest [] [])]) ++ batches _) with [adds; deletes].
  eapply rtc_l; [by apply (DeliverBatch false p2 [adds] deletes [] c)|].
  apply rtc_once. by apply (DeliverBatch false p2 [] adds [] (apply_events c deletes)).
Qed.
End Delivery.

(** ** Witnesses *)

(** The routes of [rds_response], then a response without resources. *)
Definition second_response : DiscoveryResponse :=
  mkDiscoveryResponse "v2" [] "type.googleapis.com/envoy.config.route.v3.RouteConfiguration" "n2".

Definition second_after : xdsProvisioner * list effect := @after map_order sync_lib rds_after.1 second_response.

Lemma store_follows_provisioner_witness :
  ∃ q, rtc (@delivery_step map_order sync_lib true) (initial_provisioner, [], ∅) (rds_after.1, q, ∅) ∧
    (∀ i, foldl apply_events ∅ q !! route_key i = last_by Route_Id (XP_routes rds_after.1) !! i ≫= Marshal) ∧
    length (XP_routes rds_after.1) = 1%nat.
Proof.
  assert (rtc (@delivery_step map_order sync_lib true) (initial_provisioner, [], ∅)
    (rds_after.1, [] ++ batches rds_after.2, ∅)) as Hreach.
  { apply rtc_once. apply (@DeliverResponse map_order sync_lib true _ [] _ rds_response _ (inl ["80"])); [apply rds_response_ok|].
    vm_compute. reflexivity. }
  eexists. split; [exact Hreach|]. split; [|vm_compute; reflexivity].
  apply (@store_follows_provisioner map_order sync_lib example_env "unknown" None example_config initial_provisioner ∅).
  - reflexivity.
  - discriminate.
  - intros i. apply lookup_empty.
  - exact Hreach.
Defined.

(** The controller's plugins of the initial provisioner: none. *)
Definition initial_amesh : ameshProvisioner := mkAmeshProvisioner "amesh:15810" "ns" "pod" ∅ ∅ false false.

Lemma reordered_batches_witness :
  ∃ r c', rtc (@delivery_step map_order sync_lib false) (initial_provisioner, [], ∅) (second_after.1, [], c') ∧
    XP_routes second_after.1 = [] ∧ is_Some (c' !! route_key (Route_Id r)).
Proof.
  assert (∃ r, r ∈ XP_routes rds_after.1) as [r Hr].
  { destruct (XP_routes rds_after.1) as [|r l] eqn:E; [vm_compute in E; discriminate E|]. exists r. by left. }
  exists r. apply (@reordered_batches map_order sync_lib initial_provisioner initial_amesh ∅ rds_response second_response
    rds_after.1 (inl ["80"]) rds_after.2 second_after.1 (inl []) second_after.2 r).
  - vm_compute. reflexivity.
  - apply map_Forall_empty.
  - apply map_Forall_empty.
  - reflexivity.
  - reflexivity.
  - apply rds_response_ok.
  - vm_compute. reflexivity.
  - reflexivity.
  - reflexivity.
  - vm_compute. reflexivity.
  - exact Hr.
Defined.
