(* ===== verification/UpstreamSync.v ===== *)
(** * The upstreams in the store

    The companion of Sync.v for upstreams: every upstream that the provisioner
    holds with nodes is in the store under its key, with its current nodes.  The
    converse does not hold (Responses.v shows a stale upstream).  [known] is the
    set of the cluster names that occur, on which the id hash is assumed free
    of collisions. *)

From stdpp Require Import relations.
From S2P Require Import Prelude GoStrings GoNum Json Apisix Compare Xds StringSet.
From S2P Require Import Manifest JsonParse JsonRoundtrip UpstreamJson UpstreamRoundtrip FloatText.
From S2P Require Import Agent Endpoint AmeshPlugins.
From S2P Require Import RouteTranslator RouteSpec Finite Provisioner Translate Sync.
From Stdlib Require Import SpecFloat.
Local Open Scope Z_scope.

(** ** Nodes *)

Lemma translate_endpoints_ret eps l nodes nodes' :
  go_foldl (translate_endpoint (locality_weight eps)) nodes l = Ret nodes' →
  ∀ ep, ep ∈ l → has_address ep = true.
Proof.
  revert nodes; induction l as [|ep l IH]; intros nodes Hr; [by intros ? ?%elem_of_nil|].
  cbn [go_foldl] in Hr. apply bind_ret in Hr as (n1 & H1 & Hr).
  intros ep' [->|Hin]%elem_of_cons; [by eapply translate_endpoint_ret|by eapply IH].
Qed.

Lemma translate_localities_ret l nodes nodes' :
  go_foldl translate_locality nodes l = Ret nodes' → addresses_ok l.
Proof.
  revert nodes; induction l as [|eps l IH]; intros nodes Hr; [by intros ? ? ?%elem_of_nil|].
  cbn [go_foldl] in Hr. apply bind_ret in Hr as (n1 & H1 & Hr).
  intros eps' ep [->|Hin]%elem_of_cons; [by eapply translate_endpoints_ret|by eapply IH].
Qed.

(** Whatever is returned are the nodes of the specification. *)
Lemma TranslateClusterLoadAssignment_ret la nodes :
  TranslateClusterLoadAssignment (Some la) = Ret (inl nodes) → nodes = nodes_of (CLA_Endpoints la).
Proof.
  unfold TranslateClusterLoadAssignment. destruct (Nat.eqb _ 0); [done|]. intros Hr.
  apply bind_ret in Hr as (ns & Hns & Hr). injection Hr as ->.
  pose proof (translate_localities_ret _ _ _ Hns) as Ha. rewrite translate_localities_eq in Hns by done.
  by injection Hns as <-.
Qed.

Definition hosts_ok (la : ClusterLoadAssignment) : Prop :=
  Forall (λ n, valid_utf8 (Node_Host n) = true) (nodes_of (CLA_Endpoints la)).

Lemma nodes_of_ok la : hosts_ok la → Forall node_ok (nodes_of (CLA_Endpoints la)).
Proof.
  unfold hosts_ok. rewrite !Forall_forall. intros Hh n Hn. specialize (Hh n Hn).
  apply elem_of_nodes_of in Hn as (eps & ep & _ & _ & Hnode). apply node_of_bounds in Hnode as (Hp & Hw & Hm).
  split_and!; [by apply string_ok_valid|by apply (int_ok_range 32)|by apply (int_ok_range 32)|done].
Qed.

(** ** Clusters and entries *)

Section UpstreamSync.
Context `{GoRange} `{XdsLib} (known : string → Prop).

Record cluster_ok (c : Cluster) : Prop := {
  CO_known : known (Cluster_Name c);
  CO_name : valid_utf8 (Cluster_Name c) = true ∧ valid_utf8 (GenID (Cluster_Name c)) = true;
  CO_timeout : ∀ d, Cluster_ConnectTimeout c = Some d → float_ok (float64_of_Z (Duration_Seconds d));
  CO_nodes : ∀ la, Cluster_LoadAssignment c = Some la → hosts_ok la
}.

Definition ups_response_ok (resp : DiscoveryResponse) : Prop :=
  ∀ res, res ∈ Resp_Resources resp →
    (∀ c, unmarshal_Cluster res = inl c → cluster_ok c) ∧
    (∀ la, unmarshal_ClusterLoadAssignment res = inl la → hosts_ok la).

(** An entry of the upstream map. *)
Record ups_entry (name : string) (u : Upstream) : Prop := {
  UE_name : Upstream_Name u = name;
  UE_id : Upstream_Id u = GenID name;
  UE_known : known name;
  UE_ok : upstream_ok u
}.

Lemma float_60_ok : float_ok (float64_of_Z 60).
Proof. unfold float_ok, field_ok. change (float_reads (float64_of_Z 60)). exists "60". split_and!; vm_compute; reflexivity. Qed.

Lemma base_upstream_ok name : valid_utf8 name = true → valid_utf8 (GenID name) = true → upstream_ok (base_Upstream name).
Proof.
  intros Hn Hi. split; [|constructor|done|done|cbn; by repeat constructor].
  unfold is_int64, is_int32. cbn [base_Upstream Upstream_CreateTime Upstream_UpdateTime Upstream_Retries]. lia.
Qed.

Lemma set_nodes_ok nodes u : Forall node_ok nodes → upstream_ok u → upstream_ok (set_Upstream_Nodes nodes u).
Proof. intros Hn [H1 H2 H3 H4 H5]. destruct u. by split. Qed.

Lemma set_timeout_ok t u : timeout_ok t → upstream_ok u → upstream_ok (set_Upstream_Timeout (Some t) u).
Proof. intros Ht [H1 H2 H3 H4 H5]. destruct u. split; try done. by intros t' [= <-]. Qed.

Lemma set_type_ok ty u : valid_utf8 ty = true → upstream_ok u → upstream_ok (set_Upstream_Type ty u).
Proof.
  intros Ht [H1 H2 H3 H4 H5]. destruct u. split; try done. cbn in *.
  apply Forall_cons in H5 as [_ H5]. by apply Forall_cons.
Qed.

(** The setters keep the name, the id and, but for [set_Upstream_Nodes], the nodes. *)
Definition same_identity (u u' : Upstream) : Prop := Upstream_Name u' = Upstream_Name u ∧ Upstream_Id u' = Upstream_Id u.

Lemma TranslateCluster_entry c ups :
  TranslateCluster c = Ret (inl ups) → cluster_ok c →
  ups_entry (Cluster_Name c) ups ∧ (Cluster_GetType c = Cluster_EDS → Upstream_Nodes ups = []).
Proof.
  intros Hr [Hk [Hn Hi] Hto Hla]. unfold TranslateCluster in Hr.
  set (u1 := translateClusterLbPolicy c (base_Upstream (Cluster_Name c))) in *.
  set (u2 := translateClusterTimeoutSettings c u1) in *.
  assert (upstream_ok u1 ∧ same_identity (base_Upstream (Cluster_Name c)) u1 ∧ Upstream_Nodes u1 = []) as (H1 & I1 & N1).
  { pose proof (base_upstream_ok _ Hn Hi) as Hbase. unfold u1, translateClusterLbPolicy.
    destruct (Cluster_LbPolicy c =? Cluster_ROUND_ROBIN); [|destruct (Cluster_LbPolicy c =? Cluster_LEAST_REQUEST)];
      (split_and!; [by try apply set_type_ok|done|done]). }
  assert (upstream_ok u2 ∧ same_identity u1 u2 ∧ Upstream_Nodes u2 = []) as (H2 & I2 & N2).
  { unfold u2, translateClusterTimeoutSettings. destruct (Cluster_ConnectTimeout c) as [d|] eqn:Hd; [|done].
    split_and!; [|by destruct u1|by destruct u1]. apply set_timeout_ok; [|done].
    split_and!; [by apply Hto|apply float_60_ok|apply float_60_ok]. }
  assert (∀ u, same_identity u2 u → upstream_ok u → ups_entry (Cluster_Name c) u) as Hentry.
  { intros u [Iu1 Iu2] Hu. split; [| |done|done].
    - by rewrite Iu1, (proj1 I2), (proj1 I1).
    - by rewrite Iu2, (proj2 I2), (proj2 I1). }
  unfold translateClusterLoadAssignments in Hr. destruct (Cluster_GetClusterType c) as [t|].
  { injection Hr as <-. split; [by apply Hentry|done]. }
  destruct (Z.eqb_spec (Cluster_GetType c) Cluster_EDS) as [E|E].
  { injection Hr as <-. split; [by apply Hentry|done]. }
  apply bind_ret in Hr as ([nodes|err] & Hnodes & Hr); [|done]. injection Hr as <-. split; [|done].
  apply Hentry; [by destruct u2|]. apply set_nodes_ok; [|done].
  destruct (Cluster_LoadAssignment c) as [la|] eqn:Ela; [|done].
  rewrite (TranslateClusterLoadAssignment_ret la nodes Hnodes). by apply nodes_of_ok, Hla.
Qed.

Definition ups_inv (p : xdsProvisioner) : Prop := map_Forall ups_entry (XP_upstreams p).

(** A known cluster's assignment: the upstream, with the nodes replaced. *)
Lemma process_cla_eq p cla u :
  XP_upstreams p !! CLA_ClusterName cla = Some u → upstream_ok u →
  processClusterLoadAssignmentV3 p cla =
    (res ← TranslateClusterLoadAssignment (Some cla);
     match res with
     | inr err => Ret (inr err)
     | inl nodes => Ret (inl (set_Upstream_Nodes nodes u))
     end).
Proof.
  intros Hu Hok. unfold processClusterLoadAssignmentV3. rewrite Hu.
  destruct (TranslateClusterLoadAssignment (Some cla)) as [[nodes|err]|]; [|done..]. cbn [mbind outcome_bind].
  destruct (upstream_roundtrip u Hok) as (data & -> & ->). done.
Qed.

Lemma process_cla_entry p cla ups :
  processClusterLoadAssignmentV3 p cla = Ret (inl ups) → ups_inv p → hosts_ok cla →
  ∃ u, XP_upstreams p !! CLA_ClusterName cla = Some u ∧ ups = set_Upstream_Nodes (nodes_of (CLA_Endpoints cla)) u ∧
    ups_entry (CLA_ClusterName cla) ups.
Proof.
  intros Hr Hinv Hh. destruct (XP_upstreams p !! CLA_ClusterName cla) as [u|] eqn:Hu.
  2: { unfold processClusterLoadAssignmentV3 in Hr. by rewrite Hu in Hr. }
  destruct (Hinv _ _ Hu) as [Hname Hid Hk Hok]. rewrite (process_cla_eq p cla u) in Hr by done.
  apply bind_ret in Hr as ([nodes|err] & Hnodes & Hr); [|done]. injection Hr as <-.
  apply TranslateClusterLoadAssignment_ret in Hnodes as ->.
  exists u. split_and!; [done..|]. split; [by destruct u|by destruct u|done|].
  by apply set_nodes_ok; [apply nodes_of_ok|].
Qed.

(** Setting an entry under its name. *)
Lemma set_upstream_inv p name ups :
  ups_inv p → ups_entry name ups → ups_inv (set_upstreams (<[Upstream_Name ups := ups]> (XP_upstreams p)) p).
Proof.
  intros Hp Hentry. pose proof Hentry as [-> _ _ _].
  assert (map_Forall ups_entry (<[name := ups]> (XP_upstreams p))) by (by apply map_Forall_insert_2). by destruct p.
Qed.

(** ** The invariant *)

Definition upstreams_in_sync (p : xdsProvisioner) (c : gmap string string) : Prop :=
  ∀ name u, XP_upstreams p !! name = Some u → Upstream_Nodes u ≠ [] → c !! upstream_key (Upstream_Id u) = Marshal u.

Definition ups_sys_inv (st : xdsProvisioner * gmap string string) : Prop :=
  ups_inv st.1 ∧ upstreams_in_sync st.1 st.2.

Context (Hdist : ∀ n1 n2, known n1 → known n2 → GenID n1 = GenID n2 → n1 = n2).

Lemma entry_marshals name u : ups_entry name u → is_Some (Marshal u).
Proof. intros [_ _ _ Hok]. by apply Marshal_Upstream_is_Some, upstream_ok_finite. Qed.

Lemma entries_ids n1 n2 u1 u2 : ups_entry n1 u1 → ups_entry n2 u2 → n1 ≠ n2 → Upstream_Id u1 ≠ Upstream_Id u2.
Proof using Hdist. intros [_ H1 K1 _] [_ H2 K2 _] Hne. rewrite H1, H2. intros E. by apply Hne, Hdist. Qed.

(** *** CDS *)

Definition cds_inv (acc : cds_acc) : Prop :=
  let '(_, news, newUps) := acc in
  map_Forall ups_entry newUps ∧ (∀ u, u ∈ news → ∃ name, ups_entry name u) ∧
  ∀ name u, newUps !! name = Some u → Upstream_Nodes u ≠ [] → last_by Upstream_Id news !! Upstream_Id u = Some u.

(** A cluster adds an upstream of its own name, and at most one to the manifest. *)
Lemma cds_inv_add eds news newUps eds' name ups new :
  cds_inv (eds, news, newUps) → ups_entry name ups →
  (∀ u, u ∈ new → ups_entry name u) → (Upstream_Nodes ups ≠ [] → new = [ups]) → (length new ≤ 1)%nat →
  cds_inv (eds', news ++ new, <[Upstream_Name ups := ups]> newUps).
Proof using Hdist.
  intros (Hups & Hnews & Hlast) Hentry Hnew Hone Hlen. pose proof Hentry as [-> _ _ _]. split_and!.
  - by apply map_Forall_insert_2.
  - intros u [Hu|Hu]%elem_of_app; [by apply Hnews|]. exists name. by apply Hnew.
  - intros name' u Hu Hn. rewrite lookup_insert in Hu. destruct (decide (name = name')) as [->|Hne].
    + injection Hu as <-. rewrite Hone by done. rewrite last_by_snoc. apply lookup_insert_eq.
    + specialize (Hlast name' u Hu Hn). destruct new as [|x [|y new]]; [by rewrite app_nil_r| |cbn in Hlen; lia].
      rewrite last_by_snoc, lookup_insert_ne; [done|].
      apply (entries_ids name name'); [apply Hnew; by left|by apply Hups|done].
Qed.

Lemma cds_resource_inv p acc res acc' :
  cds_resource p acc res = Ret acc' → (∀ c, unmarshal_Cluster res = inl c → cluster_ok c) → ups_inv p →
  cds_inv acc → cds_inv acc'.
Proof using Hdist.
  destruct acc as [[eds news] newUps]. intros Hstep Hok Hp Hinv. unfold cds_resource in Hstep.
  destruct (unmarshal_Cluster res) as [cluster|] eqn:Hc; [|by injection Hstep as <-].
  specialize (Hok cluster eq_refl). apply bind_ret in Hstep as ([ups|err] & Ht & Hstep).
  2: { by case_decide; injection Hstep as <-. }
  apply TranslateCluster_entry in Ht as [Hentry Heds]; [|done].
  destruct (Z.eqb_spec (Cluster_GetType cluster) Cluster_EDS) as [E|E].
  - injection Hstep as <-. specialize (Heds E).
    assert (∃ new, match XP_upstreams p !! Cluster_Name cluster with
              | Some oldUps => if negb (empty_list (Upstream_Nodes oldUps)) then news ++ [oldUps] else news
              | None => news end = news ++ new ∧ (∀ u, u ∈ new → ups_entry (Cluster_Name cluster) u) ∧ (length new ≤ 1)%nat)
      as (new & -> & Hnew & Hlen).
    { destruct (XP_upstreams p !! Cluster_Name cluster) as [o|] eqn:Ho; [destruct (negb (empty_list (Upstream_Nodes o)))|].
      - exists [o]. split_and!; [done| |cbn; lia]. intros u ->%list_elem_of_singleton. by apply Hp.
      - exists []. split_and!; [by rewrite app_nil_r|by intros ? ?%elem_of_nil|cbn; lia].
      - exists []. split_and!; [by rewrite app_nil_r|by intros ? ?%elem_of_nil|cbn; lia]. }
    by eapply (cds_inv_add eds news newUps).
  - destruct (Upstream_Nodes ups) as [|n ns] eqn:Hn; cbn [empty_list negb] in Hstep; injection Hstep as <-.
    + rewrite <- (app_nil_r news). eapply (cds_inv_add eds news newUps); [done..|by intros ? ?%elem_of_nil| |cbn; lia].
      by rewrite Hn.
    + eapply (cds_inv_add eds news newUps); [done..| |done|cbn; lia]. by intros u ->%list_elem_of_singleton.
Qed.

Lemma elem_of_with_nodes seed ups u :
  u ∈ with_nodes seed ups ↔ Upstream_Nodes u ≠ [] ∧ ∃ name, ups !! name = Some u.
Proof.
  unfold with_nodes. rewrite list_elem_of_filter. apply and_iff_compat_l. rewrite list_elem_of_fmap. split.
  - intros ([name u'] & -> & Hin). apply elem_of_range in Hin. by exists name.
  - intros (name & Hu). exists (name, u). split; [done|]. by apply elem_of_range.
Qed.

(** What a CDS response makes of the upstreams, and what is new in the manifest. *)
Lemma translateCDS_news p resp p' new old spawned :
  translateCDS p resp = Ret (p', (new, old), spawned) → ups_response_ok resp → ups_inv p →
  cds_inv (∅, Manifest_Upstreams new, XP_upstreams p').
Proof using Hdist.
  intros Hr Hok Hp. unfold translateCDS in Hr. apply bind_ret in Hr as ([[eds news] newUps] & Hf & Hr).
  injection Hr as <- <- _ _. assert (cds_inv (eds, news, newUps)) as Hinv; [|by destruct p].
  revert Hf. apply go_foldl_inv.
  - split_and!; [apply map_Forall_empty|by intros ? ?%elem_of_nil|intros ? ? Hl; by rewrite lookup_empty in Hl].
  - intros acc res acc' Hin Hacc Hstep. eapply cds_resource_inv; [done| |done|done]. by apply Hok.
Qed.

Lemma translateCDS_inv p resp p' new old spawned c :
  translateCDS p resp = Ret (p', (new, old), spawned) → ups_response_ok resp →
  ups_sys_inv (p, c) → ups_sys_inv (p', apply_effects c [incremental new old]).
Proof using Hdist.
  intros Hr Hok [Hp Hsync]. cbn [fst snd] in *.
  pose proof (translateCDS_state _ _ _ _ _ _ Hr) as (_ & _ & _ & Hall & Hold & _).
  destruct (translateCDS_news _ _ _ _ _ _ Hr Hok Hp) as (Hups & Hnews & Hlast).
  split; [done|]. intros name u Hu Hnodes. cbn [fst snd apply_effects foldl apply_effect incremental] in *.
  rewrite apply_diff_upstream; [|done| |].
  - unfold synced. by rewrite (Hlast name u Hu Hnodes).
  - intros x Hx. apply Hnews in Hx as [n Hx]. by eapply entry_marshals.
  - intros x Hx. rewrite Hold in Hx. apply last_by_Some in Hx as [Hx <-].
    apply elem_of_with_nodes in Hx as (Hxn & n & Hx). by eapply Hsync.
Qed.

(** *** EDS *)

Lemma translateEDS_inv p resp p' news names spawned c :
  translateEDS p resp = Ret (p', news, names, spawned) → ups_response_ok resp →
  ups_sys_inv (p, c) → ups_sys_inv (p', apply_effects c [SendEvents (eds_events news)]).
Proof using Hdist.
  intros Hr Hok Hinv. unfold translateEDS in Hr. apply bind_ret in Hr as ([[[p1 ns] nw] further] & Hf & Hr).
  injection Hr as <- <- <- <-.
  change (ups_sys_inv ((p1, ns, nw, further).1.1.1, apply_events c (eds_events (p1, ns, nw, further).1.2))).
  revert Hf. apply (go_foldl_inv (λ acc : eds_acc, ups_sys_inv (acc.1.1.1, apply_events c (eds_events acc.1.2))));
    [done|].
  intros [[[q ns'] nw'] fu] res acc' Hin [Hq Hsync] Hstep. cbn [fst snd] in *. unfold eds_resource in Hstep.
  destruct (unmarshal_ClusterLoadAssignment res) as [cla|] eqn:Hcla; [|by injection Hstep as <-].
  apply bind_ret in Hstep as ([ups|err] & Hproc & Hstep).
  2: { by case_decide; injection Hstep as <-. }
  injection Hstep as <-. cbn [fst snd].
  apply process_cla_entry in Hproc as (u0 & _ & _ & Hentry); [|done|by apply (Hok res Hin)].
  split; [by eapply set_upstream_inv|]. pose proof Hentry as [Hname _ _ _]. rewrite Hname.
  assert (XP_upstreams (set_upstreams (<[CLA_ClusterName cla := ups]> (XP_upstreams q)) q)
          = <[CLA_ClusterName cla := ups]> (XP_upstreams q)) as Hset by (by destruct q).
  unfold upstreams_in_sync. cbn [fst snd]. rewrite Hset.
  intros name u Hu Hnodes. unfold eds_events. rewrite fmap_app, apply_events_app. cbn [fmap list_fmap apply_events foldl].
  destruct (entry_marshals _ _ Hentry) as [s Hs]. unfold apply_event. rewrite decide_False by done.
  cbn [Event_Object marshal_resource Event_Key]. rewrite Hs.
  rewrite lookup_insert in Hu. destruct (decide (CLA_ClusterName cla = name)) as [<-|Hne].
  - injection Hu as <-. rewrite Hs. apply lookup_insert_eq.
  - rewrite lookup_insert_ne; [by apply (Hsync name)|]. intros E%upstream_key_inj.
    by apply (entries_ids _ _ _ _ Hentry (Hq _ _ Hu) Hne).
Qed.

(** *** The other steps leave the upstreams alone *)

Lemma routes_diff_upstreams c routes old i :
  apply_effects c [incremental (mkManifest routes []) (mkManifest old [])] !! upstream_key i = c !! upstream_key i.
Proof.
  cbn [apply_effects foldl apply_effect incremental]. rewrite apply_diff_upstream; [done|..].
  - by intros u ?%elem_of_nil.
  - by intros u ?%elem_of_nil.
  - by intros x Hx.
Qed.

Lemma same_upstreams_inv p p' c c' :
  XP_upstreams p' = XP_upstreams p → (∀ i, c' !! upstream_key i = c !! upstream_key i) →
  ups_sys_inv (p, c) → ups_sys_inv (p', c').
Proof.
  intros Hp Hc [Hinv Hsync]. split; unfold ups_inv, upstreams_in_sync in *; cbn [fst snd] in *; rewrite Hp; [done|].
  intros name u Hu Hn. rewrite Hc. by eapply Hsync.
Qed.

Lemma translateRDS_shape p resp p' new old names :
  translateRDS p resp = Ret (p', (new, old), names) →
  ∃ routes, p' = set_routes routes p ∧ new = mkManifest routes [] ∧ old = mkManifest (XP_routes p) [].
Proof.
  intros Hr. unfold translateRDS in Hr. apply bind_ret in Hr as ([names' routes] & _ & Hr).
  apply bind_ret in Hr as (static & _ & Hr). injection Hr as <- <- <- <-. by eexists.
Qed.

Lemma translateSDS_upstreams p resp p' names : translateSDS p resp = Ret (p', names) → XP_upstreams p' = XP_upstreams p.
Proof.
  intros Hr. unfold translateSDS in Hr. revert Hr.
  apply (go_foldl_inv (λ acc : xdsProvisioner * list string, XP_upstreams acc.1 = XP_upstreams p)); [done|].
  intros [q ns] res acc' _ Hacc Hstep. cbn [fst] in Hacc. unfold sds_resource in Hstep.
  destruct (unmarshal_Secret res) as [secret|]; [|by injection Hstep as <-].
  apply bind_ret in Hstep as (secrets & _ & Hstep). injection Hstep as <-. by destruct q.
Qed.

Lemma ups_step_inv st st' : sys_step ups_response_ok st st' → ups_sys_inv st → ups_sys_inv st'.
Proof using Hdist.
  intros Hstep Hinv. destruct Hstep as [p c resp p' res effs Hok Hr|p c am resp Ham|p c p' effs Hr].
  - apply translate_inv in Hr. destruct Hr as [p' new old names _ Hr|p' new old spawned _ Hr|p' news names spawned _ Hr
      |p' spawned _ Hr|p' names _ Hr|_].
    + apply translateRDS_shape in Hr as (routes & -> & -> & ->).
      apply (same_upstreams_inv p _ c); [by destruct p|apply routes_diff_upstreams|done].
    + pose proof (translateCDS_state _ _ _ _ _ _ Hr) as (_ & _ & _ & _ & _ & Hreq).
      rewrite apply_effects_app, (apply_requests _ spawned) by done. by eapply translateCDS_inv.
    + pose proof (translateEDS_state _ _ _ _ _ _ Hr) as (_ & Hreq).
      rewrite apply_effects_app, (apply_requests _ spawned) by done. by eapply translateEDS_inv.
    + apply translateLDS_state in Hr as (_ & Hu & Hreq).
      rewrite apply_effects_app, (apply_requests _ spawned) by done. by apply (same_upstreams_inv p _ c).
    + apply translateSDS_upstreams in Hr. by apply (same_upstreams_inv p _ c).
    + done.
  - apply (same_upstreams_inv p _ c); [by destruct p|done|done].
  - unfold UpdateRoutesPlugin, updateRoutesPluginManifest in Hr.
    apply bind_ret in Hr as ([p1 [new old]] & Hm & Hr). injection Hr as <- <-.
    apply bind_ret in Hm as (routes & _ & Hm). injection Hm as <- <- <-.
    apply (same_upstreams_inv p _ c); [by destruct p|apply routes_diff_upstreams|done].
Qed.

Lemma ups_reach_inv st st' : rtc (sys_step ups_response_ok) st st' → ups_sys_inv st → ups_sys_inv st'.
Proof using Hdist. induction 1; [done|]. intros. eauto using ups_step_inv. Qed.

(** ** Properties *)

(** From the initial state, whatever the responses (with cluster names on
    which the id hash has no collision), every upstream that the provisioner
    holds carries its cluster's name and hashed id, and when it has nodes the
    store holds its current JSON under its key. *)
Lemma upstreams_in_sync_reachable p c p' c' name u :
  XP_upstreams p = ∅ → rtc (sys_step ups_response_ok) (p, c) (p', c') →
  XP_upstreams p' !! name = Some u →
  Upstream_Name u = name ∧ Upstream_Id u = GenID name ∧
  (Upstream_Nodes u ≠ [] → ∃ data, Marshal u = Some data ∧ c' !! upstream_key (GenID name) = Some data).
Proof using Hdist.
  intros Hempty Hreach Hu.
  assert (ups_sys_inv (p, c)) as Hinv.
  { split; unfold ups_inv, upstreams_in_sync; cbn [fst snd]; rewrite Hempty; [apply map_Forall_empty|].
    intros ? ? Hl. by rewrite lookup_empty in Hl. }
  destruct (ups_reach_inv _ _ Hreach Hinv) as [Hups Hsync]. cbn [fst snd] in *.
  pose proof (Hups name u Hu) as Hentry. pose proof Hentry as [Hname Hid _ _]. split_and!; [done..|].
  intros Hn. destruct (entry_marshals _ _ Hentry) as [data Hdata]. exists data. split; [done|].
  rewrite <- Hid, <- Hdata. by apply (Hsync name).
Qed.

(** The assignment of a known cluster: the provisioner's upstream, copied
    through JSON without loss, with the nodes of the assignment; an empty
    assignment asks for a further request, and an unknown cluster is an error. *)
Lemma processClusterLoadAssignmentV3_spec p cla :
  ups_inv p → addresses_ok (CLA_Endpoints cla) →
  processClusterLoadAssignmentV3 p cla =
    Ret (match XP_upstreams p !! CLA_ClusterName cla with
         | None => inr (Errorf "UnknownClusterName")
         | Some u => if empty_list (CLA_Endpoints cla) then inr ErrorRequireFurtherEDS
                     else inl (set_Upstream_Nodes (nodes_of (CLA_Endpoints cla)) u)
         end).
Proof.
  intros Hinv Ha. destruct (XP_upstreams p !! CLA_ClusterName cla) as [u|] eqn:Hu.
  - rewrite (process_cla_eq p cla u) by (done || by apply (Hinv _ _ Hu)).
    unfold TranslateClusterLoadAssignment. destruct (CLA_Endpoints cla) as [|eps l]; [done|].
    cbn [length Nat.eqb empty_list]. by rewrite translate_localities_eq.
  - unfold processClusterLoadAssignmentV3. by rewrite Hu.
Qed.
End UpstreamSync.

(** ** The JSON of a translated upstream *)

(** What protobuf guarantees of a cluster: its strings are valid UTF-8 and its
    durations within the range of google.protobuf.Duration, which is about ten
    thousand years. *)
Record cluster_message `{XdsLib} (c : Cluster) : Prop := {
  CM_name : valid_utf8 (Cluster_Name c) = true;
  CM_timeout : ∀ d, Cluster_ConnectTimeout c = Some d → -315576000000 ≤ Duration_Seconds d ≤ 315576000000;
  CM_hosts : ∀ la, Cluster_LoadAssignment c = Some la → hosts_ok la
}.

Lemma cluster_message_ok `{XdsLib} c :
  cluster_message c → valid_utf8 (GenID (Cluster_Name c)) = true → cluster_ok (λ _, True) c.
Proof.
  intros [Hn Ht Hh] Hid. split; [done|done| |done]. intros d Hd. specialize (Ht d Hd).
  apply float64_of_Z_reads. assert (315576000000 < 2 ^ 53) by done. lia.
Qed.

Lemma upstream_ok_roundtrip u : upstream_ok u → (Marshal u ≫= Unmarshal_Upstream) = Some u.
Proof. by intros (data & -> & Hu)%upstream_roundtrip. Qed.

(** C20. An upstream that the translation builds survives its JSON encoding:
    for a cluster whose strings are valid UTF-8 (as its hashed name is) and
    whose connect timeout is within the range of protobuf's durations, the
    translated upstream, and that upstream with the nodes of any load
    assignment (what an EDS response makes of it), is encoded, and decoding
    the document gives the same upstream, with its integers, ports, weights,
    strings, nodes and float timeouts. *)
Theorem upstream_json_roundtrip `{GoRange} `{XdsLib} c ups :
  TranslateCluster c = Ret (inl ups) → cluster_message c → valid_utf8 (GenID (Cluster_Name c)) = true →
  (Marshal ups ≫= Unmarshal_Upstream) = Some ups ∧
  ∀ la nodes, TranslateClusterLoadAssignment (Some la) = Ret (inl nodes) → hosts_ok la →
    (Marshal (set_Upstream_Nodes nodes ups) ≫= Unmarshal_Upstream) = Some (set_Upstream_Nodes nodes ups).
Proof.
  intros Hr Hc Hid. destruct (TranslateCluster_entry (λ _, True) c ups Hr (cluster_message_ok c Hc Hid)) as [[_ _ _ Hok] _].
  split; [by apply upstream_ok_roundtrip|]. intros la nodes Hnodes Hh. apply upstream_ok_roundtrip, set_nodes_ok; [|done].
  rewrite (TranslateClusterLoadAssignment_ret la nodes Hnodes). by apply nodes_of_ok.
Qed.

(** ** Witnesses *)

Definition eds_cluster : Cluster := mkCluster "c" Cluster_ROUND_ROBIN (Some (mkDuration 10 0)) (Some (Cluster_Type Cluster_EDS)) None.
Definition eds_assignment : ClusterLoadAssignment :=
  mkClusterLoadAssignment "c" [mkLocalityLbEndpoints
    [mkLbEndpoint (Some (LbEndpoint_Endpoint (mkEndpoint (Some (example_address 80))))) None] None].
Definition ups_lib : XdsLib := test_lib [] [eds_cluster] [eds_assignment] [] [] [] [].
Definition cds_response : DiscoveryResponse :=
  mkDiscoveryResponse "v1" [mkAny "" "c"] "type.googleapis.com/envoy.config.cluster.v3.Cluster" "n1".
Definition eds_response : DiscoveryResponse :=
  mkDiscoveryResponse "v1" [mkAny "" "c"] "type.googleapis.com/envoy.config.endpoint.v3.ClusterLoadAssignment" "n2".
Definition only_c (name : string) : Prop := name = "c".

Definition cds_after : xdsProvisioner * list effect := @after map_order ups_lib initial_provisioner cds_response.
Definition eds_after : xdsProvisioner * list effect := @after map_order ups_lib cds_after.1 eds_response.
Definition eds_store : gmap string string :=
  @apply_effects map_order ups_lib (@apply_effects map_order ups_lib ∅ cds_after.2) eds_after.2.

Lemma eds_cluster_ok : @cluster_ok ups_lib only_c eds_cluster.
Proof.
  split; [reflexivity|split; reflexivity| |discriminate]. intros d Hd. injection Hd as <-.
  exists "10". split_and!; vm_compute; reflexivity.
Qed.

Lemma eds_hosts_ok : hosts_ok eds_assignment.
Proof. repeat constructor. Qed.

Lemma one_resource_ok resp : Resp_Resources resp = [mkAny "" "c"] → @ups_response_ok ups_lib only_c resp.
Proof.
  intros Hr res Hres. rewrite Hr in Hres. apply list_elem_of_singleton in Hres as ->. split.
  - intros c Hc. injection Hc as <-. apply eds_cluster_ok.
  - intros la Hla. injection Hla as <-. apply eds_hosts_ok.
Qed.

Definition eds_reach : rtc (@sys_step map_order ups_lib (@ups_response_ok ups_lib only_c))
  (initial_provisioner, ∅) (eds_after.1, eds_store).
Proof.
  eapply rtc_l; [|apply rtc_once].
  - apply (@StepResponse map_order ups_lib _ _ _ cds_response cds_after.1 (inl []) cds_after.2);
      [apply one_resource_ok; reflexivity|vm_compute; reflexivity].
  - apply (@StepResponse map_order ups_lib _ _ _ eds_response _ (inl ["c"]));
      [apply one_resource_ok; reflexivity|vm_compute; reflexivity].
Qed.

Definition eds_upstream : Upstream := default new_Upstream (XP_upstreams eds_after.1 !! "c").

Lemma upstreams_in_sync_reachable_witness :
  Upstream_Nodes eds_upstream = [mkNode "10.0.0.1" 80 100 None] ∧
  ∃ data, Marshal eds_upstream = Some data ∧ eds_store !! "/upstreams/<c>" = Some data.
Proof.
  split; [vm_compute; reflexivity|].
  apply (@upstreams_in_sync_reachable map_order ups_lib only_c ltac:(intros n1 n2 H1 H2 _; congruence)
           initial_provisioner ∅ eds_after.1 eds_store "c" eds_upstream).
  - reflexivity.
  - apply eds_reach.
  - vm_compute. reflexivity.
  - vm_compute. discriminate.
Defined.

Lemma cds_after_inv : @ups_inv ups_lib only_c cds_after.1.
Proof.
  apply (@ups_reach_inv map_order ups_lib only_c ltac:(intros n1 n2 H1 H2 _; congruence) (initial_provisioner, ∅)
           (cds_after.1, @apply_effects map_order ups_lib ∅ cds_after.2)).
  - apply rtc_once. apply (@StepResponse map_order ups_lib _ _ _ cds_response cds_after.1 (inl []) cds_after.2);
      [apply one_resource_ok; reflexivity|vm_compute; reflexivity].
  - split; [apply map_Forall_empty|]. intros n u Hu. change ((∅ : gmap string Upstream) !! n = Some u) in Hu.
    by rewrite lookup_empty in Hu.
Qed.

Lemma processClusterLoadAssignmentV3_spec_witness :
  ∃ u, XP_upstreams cds_after.1 !! "c" = Some u ∧
    processClusterLoadAssignmentV3 cds_after.1 eds_assignment =
      Ret (inl (set_Upstream_Nodes [mkNode "10.0.0.1" 80 100 None] u)).
Proof.
  eexists. split; [vm_compute; reflexivity|].
  rewrite (@processClusterLoadAssignmentV3_spec ups_lib only_c cds_after.1 eds_assignment).
  - vm_compute. reflexivity.
  - apply cds_after_inv.
  - intros eps ep Heps Hep. apply list_elem_of_singleton in Heps as ->. apply list_elem_of_singleton in Hep as ->.
    reflexivity.
Defined.

Definition timed_upstream : Upstream :=
  match @TranslateCluster ups_lib eds_cluster with Ret (inl u) => u | _ => @base_Upstream ups_lib "c" end.

Lemma upstream_json_roundtrip_witness :
  let u := set_Upstream_Nodes [mkNode "10.0.0.1" 80 100 None] timed_upstream in
  (Marshal u ≫= Unmarshal_Upstream) = Some u ∧
  Timeout_Connect <$> Upstream_Timeout u = Some (float64_of_Z 10).
Proof.
  intros u. split; [|vm_compute; reflexivity].
  destruct (@upstream_json_roundtrip map_order ups_lib eds_cluster timed_upstream) as [_ Hnodes].
  - vm_compute. reflexivity.
  - split; [vm_compute; reflexivity|intros d Hd; injection Hd as <-; cbn; lia|discriminate].
  - vm_compute. reflexivity.
  - apply (Hnodes eds_assignment [mkNode "10.0.0.1" 80 100 None]); [vm_compute; reflexivity|].
    repeat constructor.
Defined.
