(* ===== verification/Typing.v ===== *)
(** * The provisioner's state is well typed

    What APISIX relies on in the documents it reads, as an invariant of the
    provisioner: the shape of every route and of its plugins (each plugin name
    with the kind of configuration that belongs to it), the identity and the
    numbers of every upstream, and the plugins of the controller under their
    own names.  It holds in every reachable state. *)

From stdpp Require Import relations.
From S2P Require Import Prelude GoStrings GoNum Json Apisix Compare Xds StringSet.
From S2P Require Import Manifest JsonParse JsonRoundtrip UpstreamJson UpstreamRoundtrip Agent Endpoint AmeshPlugins.
From S2P Require Import RouteTranslator RouteSpec Finite Provisioner Translate Sync UpstreamSync.
Local Open Scope Z_scope.

Section Typing.
Context `{GoRange} `{XdsLib} (known : string → Prop).

(** ** The types *)

(** The traffic split of a route: one rule for every request, whose last
    upstream is the route's own. *)
Definition split_typed (ts : TrafficSplit) : Prop :=
  ∃ ws, PlTrafficSplit ts = traffic_split ws ∧ ∀ w, last ws = Some w → TSW_UpstreamId w = "".

(** The configuration that belongs to a plugin name. *)
Definition plugin_typed (name : string) (pl : plugin) : Prop :=
  match pl with
  | PlFaultInjection _ => name = PluginFaultInjection
  | PlTrafficSplit ts => name = PluginTrafficSplit ∧ split_typed ts
  | PlProxyMirror _ => False
  | PlPrometheus _ => name = PluginPrometheus
  | PlExtPlugin conf => (name = "ext-plugin-pre-req" ∨ name = "ext-plugin-post-req") ∧ AEPC_Conf conf ≠ []
  | PlConfig _ => True
  end.

Record route_typed (r : Route) : Prop := {
  RT_status : Route_Status r = RouteEnable;
  RT_priority : Route_Priority r = 0 ∨ Route_Priority r = 999;
  RT_uri : ∃ uri, Route_Uris r = [uri];
  RT_id : ∃ conditions, Route_Id r = GenID (Route_Name r) +:+ "_" +:+ GenID conditions;
  RT_upstream : ∃ cluster, Route_UpstreamId r = GenID cluster;
  RT_plugins : map_Forall plugin_typed (Route_Plugins r)
}.

(** The upstream of a cluster; the load balancing is one of the two that the
    translation knows, or left to APISIX. *)
Definition upstream_typed (name : string) (u : Upstream) : Prop :=
  ups_entry known name u ∧ Upstream_Type u ∈ [""; "roundrobin"; "least_conn"].

Definition provisioner_typed (p : xdsProvisioner) : Prop :=
  (∃ am, XP_amesh p = Some am ∧ keyed (GetPlugins am)) ∧
  Forall route_typed (XP_routes p) ∧ map_Forall upstream_typed (XP_upstreams p).

(** ** Routes *)

Lemma patch_plugins_typed seed am plugins :
  keyed am → map_Forall plugin_typed plugins → map_Forall plugin_typed (patch_plugins seed am plugins).
Proof.
  intros Hkey Hpl k pl Hk. rewrite patch_plugins_lookup in Hk by done. cbv zeta in Hk.
  case_decide as Hpost; [injection Hk as <-; destruct Hpost as [<- ?]; split; [by right|done]|].
  case_decide as Hpre; [injection Hk as <-; destruct Hpre as [<- ?]; split; [by left|done]|].
  destruct (am !! k) as [p|]; [|done]. case_bool_decide; [by injection Hk as <-|by apply Hpl].
Qed.

Lemma own_plugins_typed route plugins :
  map_Forall plugin_typed plugins → map_Forall plugin_typed (own_plugins route plugins).
Proof.
  intros Hpl. unfold own_plugins. apply map_Forall_insert_2; [done|]. unfold with_fault.
  destruct (_ ≫= _); [|done]. by apply map_Forall_insert_2.
Qed.

Lemma weighted_last clusters ws w :
  weighted_upstreams clusters = Ret ws → last ws = Some w → TSW_UpstreamId w = "".
Proof.
  intros Hws Hl. apply weighted_upstreams_spec in Hws as [Hlen Hat].
  rewrite last_lookup in Hl. destruct (lookup_lt_is_Some_2 clusters (pred (length ws))) as [c Hc].
  { apply lookup_lt_Some in Hl. lia. }
  destruct (Hat _ _ Hc) as (v & _ & Hw). rewrite Hl in Hw. injection Hw as ->. cbn.
  apply lookup_lt_Some in Hl. by rewrite decide_True by lia.
Qed.

Lemma set_plugins_typed r plugins :
  route_typed r → map_Forall plugin_typed plugins → route_typed (set_Route_Plugins plugins r).
Proof. intros [] Hp. destruct r. by split. Qed.

Lemma parts_route_typed hosts name vhost route parts : route_typed (parts_route hosts name vhost route parts).
Proof.
  unfold parts_route. split; cbn; [done| |by eexists..|apply map_Forall_empty].
  unfold route_priority. destruct (empty_list hosts); case_bool_decide; auto.
Qed.

Lemma translate_route_typed am hosts name vhost route r :
  translate_route (Some am) hosts name vhost route = Ret (RouteOk r) → keyed (GetPlugins am) → route_typed r.
Proof.
  rewrite translate_route_eq. intros Hr Hkey.
  destruct (route_parts_of route) as [[parts|res]|] eqn:Hp; [| |done].
  2: { cbn in Hr. injection Hr as ->. by apply route_parts_not_ok in Hp. }
  cbn [deref mbind outcome_bind] in Hr. pose proof (parts_route_typed hosts name vhost route parts) as Hparts.
  set (r0 := parts_route hosts name vhost route parts) in *. clearbody r0.
  assert (map_Forall plugin_typed (own_plugins route (patch_plugins (Route_Id r0) (GetPlugins am) ∅))) as Hown.
  { apply own_plugins_typed, patch_plugins_typed; [done|apply map_Forall_empty]. }
  destruct (weighted_clusters route) as [cs|].
  - destruct (weighted_upstreams cs) as [ws|] eqn:Hws; [|done]. injection Hr as <-.
    apply set_plugins_typed; [done|]. apply map_Forall_insert_2; [|done].
    split; [done|]. exists ws. split; [done|]. intros w. by eapply weighted_last.
  - injection Hr as <-. by apply set_plugins_typed.
Qed.

(** ** Upstreams *)

Lemma TranslateCluster_type c ups :
  TranslateCluster c = Ret (inl ups) → Upstream_Type ups ∈ [""; "roundrobin"; "least_conn"].
Proof.
  unfold TranslateCluster, translateClusterLoadAssignments. intros Hr.
  set (u := translateClusterTimeoutSettings c (translateClusterLbPolicy c (base_Upstream (Cluster_Name c)))) in *.
  assert (Upstream_Type u ∈ [""; "roundrobin"; "least_conn"]) as Hu.
  { unfold u, translateClusterTimeoutSettings, translateClusterLbPolicy.
    destruct (_ =? Cluster_ROUND_ROBIN); [|destruct (_ =? Cluster_LEAST_REQUEST)]; destruct (Cluster_ConnectTimeout c);
      apply (bool_decide_unpack _); vm_compute; exact I. }
  destruct (Cluster_GetClusterType c); [by injection Hr as <-|].
  destruct (_ =? Cluster_EDS); [by injection Hr as <-|].
  apply bind_ret in Hr as ([nodes|err] & _ & Hr); [|done]. injection Hr as <-. by destruct u.
Qed.

Lemma cds_resource_typed p acc res acc' :
  cds_resource p acc res = Ret acc' → (∀ c, unmarshal_Cluster res = inl c → cluster_ok known c) →
  map_Forall upstream_typed acc.2 → map_Forall upstream_typed acc'.2.
Proof.
  destruct acc as [[eds news] newUps]. cbn [snd]. intros Hstep Hok Hacc. unfold cds_resource in Hstep.
  destruct (unmarshal_Cluster res) as [cluster|]; [|by injection Hstep as <-].
  specialize (Hok cluster eq_refl). apply bind_ret in Hstep as ([ups|err] & Ht & Hstep).
  2: { by case_decide; injection Hstep as <-. }
  pose proof (TranslateCluster_type _ _ Ht) as Hty. apply (TranslateCluster_entry known) in Ht as [Hentry _]; [|done].
  match type of Hstep with (let '(_, _) := ?e in _) = _ => destruct e as [eds' news'] end. injection Hstep as <-. cbn [snd].
  apply map_Forall_insert_2; [|done]. pose proof Hentry as [-> _ _ _]. by split.
Qed.

Lemma eds_resource_typed (acc : eds_acc) res (acc' : eds_acc) :
  eds_resource acc res = Ret acc' → (∀ la, unmarshal_ClusterLoadAssignment res = inl la → hosts_ok la) →
  map_Forall upstream_typed (XP_upstreams acc.1.1.1) → map_Forall upstream_typed (XP_upstreams acc'.1.1.1).
Proof.
  destruct acc as [[[p names] news] further]. cbn [fst]. intros Hstep Hok Hp. unfold eds_resource in Hstep.
  destruct (unmarshal_ClusterLoadAssignment res) as [cla|]; [|by injection Hstep as <-].
  specialize (Hok cla eq_refl). apply bind_ret in Hstep as ([ups|err] & Hproc & Hstep).
  2: { by case_decide; injection Hstep as <-. }
  injection Hstep as <-. cbn [fst].
  apply (process_cla_entry known) in Hproc as (u & Hu & Hups & Hentry); [|intros n x Hx; by apply Hp in Hx as [? _]|done].
  assert (XP_upstreams (set_upstreams (<[Upstream_Name ups := ups]> (XP_upstreams p)) p)
          = <[Upstream_Name ups := ups]> (XP_upstreams p)) as -> by (by destruct p).
  apply map_Forall_insert_2; [|done]. pose proof Hentry as [-> _ _ _]. split; [done|].
  apply Hp in Hu as [_ Hty]. rewrite Hups. by destruct u.
Qed.

(** ** Steps *)

Lemma same_typed p p' :
  XP_amesh p' = XP_amesh p → XP_routes p' = XP_routes p → XP_upstreams p' = XP_upstreams p →
  provisioner_typed p → provisioner_typed p'.
Proof. unfold provisioner_typed. by intros -> -> ->. Qed.

Lemma set_routes_typed p routes : provisioner_typed p → Forall route_typed routes → provisioner_typed (set_routes routes p).
Proof. intros (Ham & _ & Hups) Hr. destruct p. by split_and!. Qed.

Lemma translated_typed p resp p' res effs :
  translated p resp p' res effs → ups_response_ok known resp → provisioner_typed p → provisioner_typed p'.
Proof.
  intros Htr Hok Hp. pose proof Hp as ((am & Ham & Hkey) & Hroutes & Hups).
  destruct Htr as [p' new old names _ Hr|p' new old spawned _ Hr|p' news names spawned _ Hr|p' spawned _ Hr|p' names _ Hr|_].
  - apply (translateRDS_forall route_typed) in Hr as (-> & _ & _ & Hall); [by apply set_routes_typed|].
    intros ? ? hosts name vhost route r _ _ _ _ Ht. rewrite Ham in Ht. by eapply translate_route_typed.
  - pose proof (translateCDS_state _ _ _ _ _ _ Hr) as [[Hsr Hsa] _]. unfold translateCDS in Hr.
    apply bind_ret in Hr as ([[eds nw] newUps] & Hf & Hr). injection Hr as <- _ _ _.
    split_and!; [exists am; by rewrite Hsa|by rewrite Hsr|].
    assert (map_Forall upstream_typed (eds, nw, newUps).2) as Hnew; [|by destruct p].
    revert Hf. apply (go_foldl_inv (λ acc : cds_acc, map_Forall upstream_typed acc.2)); [apply map_Forall_empty|].
    intros acc res' acc' Hin Hacc Hstep. eapply cds_resource_typed; [done| |done]. by apply Hok.
  - pose proof (translateEDS_state _ _ _ _ _ _ Hr) as [[Hsr Hsa] _]. unfold translateEDS in Hr.
    apply bind_ret in Hr as ([[[p1 ns] nw] fu] & Hf & Hr). injection Hr as <- _ _ _.
    split_and!; [exists am; by rewrite Hsa|by rewrite Hsr|].
    change (map_Forall upstream_typed (XP_upstreams (p1, ns, nw, fu).1.1.1)).
    revert Hf. apply (go_foldl_inv (λ acc : eds_acc, map_Forall upstream_typed (XP_upstreams acc.1.1.1))); [done|].
    intros acc res' acc' Hin Hacc Hstep. eapply eds_resource_typed; [done| |done]. by apply Hok.
  - apply translateLDS_state in Hr as ([Hsr Hsa] & Hu & _). by apply (same_typed p).
  - pose proof (translateSDS_upstreams _ _ _ _ Hr). apply translateSDS_state in Hr as [Hsr Hsa]. by apply (same_typed p).
  - done.
Qed.

Lemma sys_step_typed st st' :
  sys_step (ups_response_ok known) st st' → provisioner_typed st.1 → provisioner_typed st'.1.
Proof.
  intros Hstep Hp. destruct Hstep as [p c resp p' res effs Hok Hr|p c am resp Ham|p c p' effs Hr]; cbn [fst] in *.
  - apply translate_inv in Hr. by eapply translated_typed.
  - destruct Hp as ((am' & Ham' & Hkey) & Hroutes & Hups). assert (am' = am) as -> by congruence.
    destruct p. split_and!; try done. eexists. split; [reflexivity|]. by apply updatePlugins_keyed.
  - pose proof Hp as ((am & Ham & Hkey) & Hroutes & Hups).
    apply (UpdateRoutesPlugin_forall route_typed) in Hr as (routes & -> & Hall & _); [by apply set_routes_typed|done|].
    intros am' r Ham' Hr'. assert (am' = am) as -> by congruence. apply set_plugins_typed; [done|].
    apply patch_plugins_typed; [done|apply Hr'].
Qed.

Lemma sys_reach_typed st st' :
  rtc (sys_step (ups_response_ok known)) st st' → provisioner_typed st.1 → provisioner_typed st'.1.
Proof. induction 1; [done|]. intros. eauto using sys_step_typed. Qed.

(** ** Property *)

(** C3. Every reachable state of the provisioner is well typed: a route is
    enabled, has one URI, one of the two priorities, an id built from its name
    and conditions, the id of some cluster as upstream, and plugins each of the
    kind that its name calls for (never a proxy mirror, never an empty list of
    external plugins, a traffic split whose last upstream is the route's own);
    an upstream is kept under its cluster's name, with the cluster's id,
    numbers in their 32 and 64 bits and a known kind of load balancing; and the
    controller's plugins are kept under their own names. *)
Theorem reachable_typed env version logger cfg p c p' c' :
  NewXDSProvisioner env version logger cfg = inl p → Config_AmeshConfigSource cfg ≠ "" →
  rtc (sys_step (ups_response_ok known)) (p, c) (p', c') → provisioner_typed p'.
Proof.
  intros Hp Hsrc Hreach. apply (sys_reach_typed _ _ Hreach). cbn [fst].
  destruct (NewXDSProvisioner_inv _ _ _ _ _ Hp Hsrc) as ((am & Ham & Hkey & _) & Hr & Hu & _).
  split_and!; [by exists am|rewrite Hr; constructor|rewrite Hu; apply map_Forall_empty].
Qed.
End Typing.

(** ** Witness *)

(** A run with a route configuration, a cluster and its endpoints. *)
Definition mesh_lib : XdsLib := test_lib [example_rc] [eds_cluster] [eds_assignment] [] [] [("fault", example_fault)] [].

Definition mesh_rds : xdsProvisioner * list effect := @after map_order mesh_lib initial_provisioner rds_response.
Definition mesh_cds : xdsProvisioner * list effect := @after map_order mesh_lib mesh_rds.1 cds_response.
Definition mesh_eds : xdsProvisioner * list effect := @after map_order mesh_lib mesh_cds.1 eds_response.

Lemma mesh_cluster_ok : @cluster_ok mesh_lib only_c eds_cluster.
Proof.
  split; [reflexivity|split; reflexivity| |discriminate]. intros d Hd. injection Hd as <-.
  exists "10". split_and!; vm_compute; reflexivity.
Qed.

(** The resources of the three responses: of the names in them only the
    cluster's is one of a cluster and of endpoints. *)
Lemma mesh_resource_ok value :
  (∀ c, @unmarshal_Cluster mesh_lib (mkAny "" value) = inl c → @cluster_ok mesh_lib only_c c) ∧
  (∀ la, @unmarshal_ClusterLoadAssignment mesh_lib (mkAny "" value) = inl la → hosts_ok la).
Proof.
  split; cbn; unfold find_named; cbn [List.find]; intros ?; case_bool_decide; intros Hr; try discriminate Hr; injection Hr as <-.
  - apply mesh_cluster_ok.
  - apply eds_hosts_ok.
Qed.

Lemma mesh_response_ok resp : Forall (λ a, Any_TypeUrl a = "") (Resp_Resources resp) → @ups_response_ok mesh_lib only_c resp.
Proof. rewrite Forall_forall. intros Hr [url value] Hres. specialize (Hr _ Hres). cbn in Hr. subst url. apply mesh_resource_ok. Qed.

Lemma mesh_translate_rds :
  @translate map_order mesh_lib initial_provisioner rds_response = Ret (mesh_rds.1, inl ["80"], mesh_rds.2).
Proof. vm_compute. reflexivity. Qed.
Lemma mesh_translate_cds :
  @translate map_order mesh_lib mesh_rds.1 cds_response = Ret (mesh_cds.1, inl [], mesh_cds.2).
Proof. vm_compute. reflexivity. Qed.
Lemma mesh_translate_eds :
  @translate map_order mesh_lib mesh_cds.1 eds_response = Ret (mesh_eds.1, inl ["c"], mesh_eds.2).
Proof. vm_compute. reflexivity. Qed.

Lemma mesh_reach : ∃ c, rtc (@sys_step map_order mesh_lib (@ups_response_ok mesh_lib only_c))
  (initial_provisioner, ∅) (mesh_eds.1, c).
Proof.
  eexists. eapply rtc_l; [|eapply rtc_l; [|apply rtc_once]].
  - apply (@StepResponse map_order mesh_lib _ _ _ rds_response mesh_rds.1 (inl ["80"]) mesh_rds.2);
      [apply mesh_response_ok; repeat constructor|apply mesh_translate_rds].
  - apply (@StepResponse map_order mesh_lib _ _ _ cds_response mesh_cds.1 (inl []) mesh_cds.2);
      [apply mesh_response_ok; repeat constructor|apply mesh_translate_cds].
  - apply (@StepResponse map_order mesh_lib _ _ _ eds_response mesh_eds.1 (inl ["c"]) mesh_eds.2);
      [apply mesh_response_ok; repeat constructor|apply mesh_translate_eds].
Qed.

Lemma reachable_typed_witness :
  @provisioner_typed mesh_lib only_c mesh_eds.1 ∧ length (XP_routes mesh_eds.1) = 1%nat ∧ size (XP_upstreams mesh_eds.1) = 1%nat.
Proof.
  split; [|split; vm_compute; reflexivity]. destruct mesh_reach as [c Hreach].
  apply (@reachable_typed map_order mesh_lib only_c example_env "unknown" None example_config initial_provisioner ∅ mesh_eds.1 c).
  - reflexivity.
  - discriminate.
  - exact Hreach.
Defined.
