(* ===== verification/StoreContent.v ===== *)
(** * The content of the store

    The agent's event loop behind the provisioner: batches of events go
    through a queue to [event_step], which writes them to the data storage of
    any implementation of the storage interface.  The storage refines the map
    of Sync.v, and everything in it is accounted for: the routes of the
    provisioner, the upstreams of the provisioner, and nothing else but well
    formed upstreams of clusters that were once announced. *)

From stdpp Require Import relations.
From S2P Require Import Prelude GoStrings GoNum Json Apisix Compare Xds StringSet.
From S2P Require Import Manifest Storage JsonParse JsonRoundtrip UpstreamJson UpstreamRoundtrip Agent Endpoint.
From S2P Require Import AmeshPlugins RouteTranslator RouteSpec Finite Provisioner Translate Sync Delivery.
From S2P Require Import UpstreamSync Typing.
Local Open Scope Z_scope.

(** ** Values come from events *)

(** What an event that is not a deletion writes. *)
Definition writes (ev : Event) (k data : string) : Prop :=
  Event_Type ev ≠ EventDelete ∧ Event_Key ev = k ∧ marshal_resource (Event_Object ev) = Some data.

Lemma apply_events_value c evs k data :
  apply_events c evs !! k = Some data → c !! k = Some data ∨ ∃ ev, ev ∈ evs ∧ writes ev k data.
Proof.
  revert c. induction evs as [|ev evs IH]; intros c Hk; [by left|]. cbn [apply_events foldl] in Hk.
  apply IH in Hk as [Hk|(e & He & Hw)]; [|right; exists e; by split; [right|]]. unfold apply_event in Hk.
  destruct (decide (Event_Type ev = EventDelete)) as [Hd|Hd]; [left; by apply lookup_delete_Some in Hk as [_ ?]|].
  destruct (marshal_resource (Event_Object ev)) as [s|] eqn:Hs; [|by left].
  apply lookup_insert_Some in Hk as [[Hkey ->]|[_ Hk]]; [|by left].
  right. exists ev. split; [by left|by split].
Qed.

(** The events for a manifest name resources of the manifest. *)
Lemma Events_value m t ev k data :
  ev ∈ Events m t → writes ev k data →
  (∃ i, k = route_key i) ∨ ∃ u, u ∈ Manifest_Upstreams m ∧ k = upstream_key (Upstream_Id u) ∧ Marshal u = Some data.
Proof.
  rewrite Events_eq. intros Hin (Ht & <- & Hd). apply elem_of_app in Hin as [Hin|Hin].
  - left. apply list_elem_of_fmap in Hin as (r & -> & _). exists (Route_Id r). unfold route_event. by case_decide.
  - right. apply list_elem_of_bind in Hin as (u & Hev & Hu). exists u. split; [done|]. unfold upstream_event in Hev.
    destruct (decide (t = EventDelete)); [by apply list_elem_of_singleton in Hev as ->|].
    destruct (empty_list _); [by apply elem_of_nil in Hev|]. by apply list_elem_of_singleton in Hev as ->.
Qed.

Lemma CompareUpstreams_in o n a d u :
  CompareUpstreams o n = (a, d, u) → (∀ x, x ∈ a → x ∈ n) ∧ (∀ x, x ∈ u → x ∈ n).
Proof. apply compare_added_in. Qed.

(** The incremental events write routes, and upstreams of the new manifest. *)
Lemma incremental_value n o ev k data :
  ev ∈ generateIncrementalEvents (Some n) (Some o) → writes ev k data →
  (∃ i, k = route_key i) ∨ ∃ u, u ∈ Manifest_Upstreams n ∧ k = upstream_key (Upstream_Id u) ∧ Marshal u = Some data.
Proof.
  rewrite generateIncrementalEvents_eq. unfold DiffFrom.
  destruct (CompareRoutes _ _) as [[a d] up]. destruct (CompareUpstreams _ _) as [[au du] uu] eqn:Hu.
  apply CompareUpstreams_in in Hu as [Ha Hup]. rewrite !elem_of_app. intros Hin Hw. pose proof Hw as (Ht & _).
  destruct Hin as [Hin|[Hin|Hin]].
  - apply (Events_value _ _ _ _ _ Hin) in Hw as [?|(u & Hu & ?)]; [by left|right; exists u; split; [by apply Ha|done]].
  - exfalso. apply Ht. rewrite Events_eq in Hin. apply elem_of_app in Hin as [Hin|Hin].
    + by apply list_elem_of_fmap in Hin as (r & -> & _).
    + apply list_elem_of_bind in Hin as (u & Hev & _). by apply list_elem_of_singleton in Hev as ->.
  - apply (Events_value _ _ _ _ _ Hin) in Hw as [?|(u & Hu & ?)]; [by left|right; exists u; split; [by apply Hup|done]].
Qed.

(** ** Every entry is accounted for *)

Section StoreContent.
Context `{GoRange} `{XdsLib} (known : string → Prop).

(** A route's key, or the document of a well-formed upstream under its key. *)
Definition accounted (k data : string) : Prop :=
  (∃ i, k = route_key i) ∨
  ∃ name u, ups_entry known name u ∧ k = upstream_key (GenID name) ∧ Marshal u = Some data.

Definition all_accounted (c : gmap string string) : Prop := map_Forall accounted c.

Lemma entry_accounted name u data :
  ups_entry known name u → Marshal u = Some data → accounted (upstream_key (Upstream_Id u)) data.
Proof. intros Hu Hd. right. exists name, u. split; [done|]. split; [|done]. by rewrite (UE_id known name u Hu). Qed.

Lemma events_accounted c evs :
  (∀ ev k data, ev ∈ evs → writes ev k data → accounted k data) → all_accounted c → all_accounted (apply_events c evs).
Proof. intros Hevs Hc k data Hk. apply apply_events_value in Hk as [Hk|(ev & Hin & Hw)]; [by apply Hc|by eapply Hevs]. Qed.

Lemma incremental_accounted c new old :
  (∀ u, u ∈ Manifest_Upstreams new → ∃ name, ups_entry known name u) → all_accounted c →
  all_accounted (apply_effects c [incremental new old]).
Proof.
  intros Hnew. apply events_accounted. intros ev k data Hin Hw.
  apply (incremental_value _ _ _ _ _ Hin) in Hw as [?|(u & Hu & -> & Hd)]; [by left|].
  apply Hnew in Hu as [name Hu]. by eapply entry_accounted.
Qed.

(** The upstreams of the events of an EDS response are entries. *)
Lemma eds_news_entries p resp p' news names spawned :
  translateEDS p resp = Ret (p', news, names, spawned) → ups_response_ok known resp → ups_inv known p →
  ∀ u, u ∈ news → ∃ name, ups_entry known name u.
Proof.
  intros Hr Hok Hp. unfold translateEDS in Hr. apply bind_ret in Hr as ([[[p1 ns] nw] further] & Hf & Hr).
  injection Hr as <- <- <- <-.
  assert (ups_inv known (p1, ns, nw, further).1.1.1 ∧
    ∀ u, u ∈ (p1, ns, nw, further).1.2 → ∃ name, ups_entry known name u) as [_ Hnews]; [|exact Hnews].
  revert Hf. apply (go_foldl_inv (λ acc : eds_acc, ups_inv known acc.1.1.1 ∧ ∀ u, u ∈ acc.1.2 → ∃ name, ups_entry known name u));
    [split; [done|by intros ? ?%elem_of_nil]|].
  intros [[[q ns'] nw'] fu] res acc' Hin [Hq Hn] Hstep. cbn [fst snd] in *. unfold eds_resource in Hstep.
  destruct (unmarshal_ClusterLoadAssignment res) as [cla|] eqn:Hcla; [|by injection Hstep as <-].
  apply bind_ret in Hstep as ([ups|err] & Hproc & Hstep); [|by case_decide; injection Hstep as <-].
  injection Hstep as <-. cbn [fst snd].
  apply (process_cla_entry known) in Hproc as (u0 & _ & _ & Hentry); [|done|by apply (Hok res Hin)].
  split; [by eapply set_upstream_inv|].
  intros u [Hu|Hu]%elem_of_app; [by apply Hn|]. apply list_elem_of_singleton in Hu as ->. by eexists.
Qed.

Context (Hdist : ∀ n1 n2, known n1 → known n2 → GenID n1 = GenID n2 → n1 = n2).

Lemma step_accounted st st' :
  sys_step (ups_response_ok known) st st' → ups_inv known st.1 → all_accounted st.2 → all_accounted st'.2.
Proof using Hdist.
  intros Hstep Hp Hc. destruct Hstep as [p c resp p' res effs Hok Hr|p c am resp Ham|p c p' effs Hr]; cbn [fst snd] in *.
  - apply translate_inv in Hr. destruct Hr as [p' new old names _ Hr|p' new old spawned _ Hr|p' news names spawned _ Hr
      |p' spawned _ Hr|p' names _ Hr|_].
    + apply translateRDS_shape in Hr as (routes & _ & -> & _). apply incremental_accounted; [|done]. by intros u ?%elem_of_nil.
    + pose proof (translateCDS_state _ _ _ _ _ _ Hr) as (_ & _ & _ & _ & _ & Hreq).
      rewrite apply_effects_app, (apply_requests _ spawned) by done. apply incremental_accounted; [|done].
      by apply (translateCDS_news known Hdist _ _ _ _ _ _ Hr Hok Hp).
    + pose proof (translateEDS_state _ _ _ _ _ _ Hr) as (_ & Hreq).
      rewrite apply_effects_app, (apply_requests _ spawned) by done. apply events_accounted; [|done].
      intros ev k data Hin (_ & <- & Hd). apply list_elem_of_fmap in Hin as (u & -> & Hu). cbn in Hd |- *.
      eapply eds_news_entries in Hu as [name Hu]; [by eapply entry_accounted|done..].
    + apply translateLDS_state in Hr as (_ & _ & Hreq).
      by rewrite apply_effects_app, (apply_requests _ spawned), apply_empty_diff by done.
    + by rewrite apply_empty_diff.
    + done.
  - done.
  - unfold UpdateRoutesPlugin, updateRoutesPluginManifest in Hr.
    apply bind_ret in Hr as ([p1 [new old]] & Hm & Hr). injection Hr as <- <-.
    apply bind_ret in Hm as (routes & _ & Hm). injection Hm as <- <- <-.
    apply incremental_accounted; [|done]. by intros u ?%elem_of_nil.
Qed.

Lemma reach_accounted st st' :
  rtc (sys_step (ups_response_ok known)) st st' → ups_sys_inv known st → all_accounted st.2 → all_accounted st'.2.
Proof using Hdist.
  induction 1 as [|st1 st2 st3 Hstep _ IH]; intros Hinv Hc; [done|].
  apply IH; [by eapply (ups_step_inv known Hdist)|by eapply step_accounted; [|apply Hinv|]].
Qed.

(** ** The agent behind the provisioner *)

Context {S : Type} `{StorageLaws S}.

(** The provisioner, the batches on their way to the agent, the agent. *)
Definition mesh_state : Type := xdsProvisioner * list (list Event) * Agent S.

Definition mesh_ok (resp : DiscoveryResponse) : Prop := response_ok resp ∧ ups_response_ok known resp.

Inductive mesh_step : mesh_state → mesh_state → Prop :=
| MeshResponse p q g resp p' res effs :
    mesh_ok resp → translate p resp = Ret (p', res, effs) →
    mesh_step (p, q, g) (p', q ++ batches effs, g)
| MeshPlugins p q g am resp :
    XP_amesh p = Some am →
    mesh_step (p, q, g) (set_amesh (Some (updatePlugins am resp).1) p, q, g)
| MeshUpdate p q g p' effs :
    UpdateRoutesPlugin p = Ret (p', effs) →
    mesh_step (p, q, g) (p', q ++ batches effs, g)
| MeshReceive p evs q g g' now :
    event_step (g, true) (EventsReceived now evs) = (g', true) →
    mesh_step (p, evs :: q, g) (p, q, g').

(** The storage once the queue is empty. *)
Definition settled (st : mesh_state) : xdsProvisioner * gmap string string :=
  (st.1.1, foldl apply_events (content (DataStorage st.2)) st.1.2).

(** The storage refines the map: receiving a batch is invisible once settled,
    every other step is a step of the synchronous system. *)
Lemma settled_step st st' :
  mesh_step st st' → storage_ok (DataStorage st.2) →
  storage_ok (DataStorage st'.2) ∧ rtc (sys_step mesh_ok) (settled st) (settled st').
Proof.
  destruct 1 as [p q g resp p' res effs Hok Hr|p q g am resp Ham|p q g p' effs Hr|p evs q g g' now Hr];
    intros Hs; unfold settled; cbn [fst snd] in *.
  - split; [done|]. rewrite foldl_app, <- apply_effects_batches. apply rtc_once. by eapply StepResponse.
  - split; [done|]. apply rtc_once. by eapply StepPlugins.
  - split; [done|]. rewrite foldl_app, <- apply_effects_batches. apply rtc_once. by eapply StepUpdate.
  - injection Hr as <-. destruct (storeEvents_data now g evs Hs) as [? ->]. split; [done|apply rtc_refl].
Qed.

Lemma settled_reach st st' :
  rtc mesh_step st st' → storage_ok (DataStorage st.2) → rtc (sys_step mesh_ok) (settled st) (settled st').
Proof.
  induction 1 as [|st1 st2 st3 Hstep _ IH]; intros Hs; [apply rtc_refl|].
  destruct (settled_step _ _ Hstep Hs) as [Hok2 Htail]. etrans; [exact Htail|by apply IH].
Qed.

Lemma sys_step_mono (ok1 ok2 : DiscoveryResponse → Prop) st st' :
  (∀ resp, ok1 resp → ok2 resp) → rtc (sys_step ok1) st st' → rtc (sys_step ok2) st st'.
Proof.
  intros Hok. induction 1 as [|st1 st2 st3 Hstep _ IH]; [apply rtc_refl|]. eapply rtc_l; [|exact IH].
  destruct Hstep; [eapply StepResponse|eapply StepPlugins|eapply StepUpdate]; eauto.
Qed.

(** ** Property *)

(** C2. What the data storage holds, for any implementation of the storage:
    from the provisioner that the constructor returns and an empty storage,
    whatever the responses (with cluster names on which the id hash has no
    collision), the controller's messages, the plugin notifications and the
    delays of the event loop, once the queued batches are in: under the route
    keys, exactly the JSON of the provisioner's routes; for every upstream of
    the provisioner that has nodes, its current JSON under the key of its
    cluster's id; and under every other key nothing, but for upstreams of known
    clusters, whose documents decode to an upstream with the name and the id of
    the key. *)
Theorem store_content env version logger cfg p (g : Agent S) p' q g' :
  NewXDSProvisioner env version logger cfg = inl p → Config_AmeshConfigSource cfg ≠ "" →
  storage_ok (DataStorage g) → content (DataStorage g) = ∅ →
  rtc mesh_step (p, [], g) (p', q, g') →
  let c := foldl apply_events (content (DataStorage g')) q in
  (∀ i, c !! route_key i = (last_by Route_Id (XP_routes p') !! i) ≫= Marshal) ∧
  (∀ name u, XP_upstreams p' !! name = Some u → Upstream_Nodes u ≠ [] →
     ∃ data, Marshal u = Some data ∧ c !! upstream_key (GenID name) = Some data) ∧
  (∀ k data, c !! k = Some data → (∀ i, k ≠ route_key i) →
     ∃ name u, known name ∧ k = upstream_key (GenID name) ∧ Unmarshal_Upstream data = Some u ∧
       Upstream_Name u = name ∧ Upstream_Id u = GenID name).
Proof using Hdist.
  intros Hp Hsrc Hs Hempty Hreach c. apply settled_reach in Hreach; [|done].
  unfold settled in Hreach. cbn [fst snd foldl] in Hreach. rewrite Hempty in Hreach. fold c in Hreach.
  assert (rtc (sys_step (ups_response_ok known)) (p, ∅) (p', c)) as Hups.
  { eapply sys_step_mono; [|exact Hreach]. by intros ? [_ ?]. }
  destruct (NewXDSProvisioner_inv _ _ _ _ _ Hp Hsrc) as (_ & _ & Hu & _).
  assert (ups_sys_inv known (p, ∅)) as Hinv.
  { split; unfold ups_inv, upstreams_in_sync; cbn [fst snd]; rewrite Hu; [apply map_Forall_empty|].
    intros ? ? Hl. by rewrite lookup_empty in Hl. }
  destruct (ups_reach_inv known Hdist _ _ Hups Hinv) as [Hentries Hsync]. cbn [fst snd] in *. split_and!.
  - apply (routes_in_sync_reachable env version logger cfg p ∅); [done|done|intros; apply lookup_empty|].
    eapply sys_step_mono; [|exact Hreach]. by intros ? [? _].
  - intros name u Hl Hn. pose proof (Hentries _ _ Hl) as Hentry. destruct (entry_marshals _ _ _ Hentry) as [data Hd].
    exists data. split; [done|]. rewrite <- (UE_id _ _ _ Hentry), <- Hd. by apply (Hsync name).
  - intros k data Hk Hroute.
    destruct (reach_accounted _ _ Hups Hinv (map_Forall_empty _) k data Hk) as [[i ->]|(name & u & Hentry & -> & Hd)].
    + by destruct (Hroute i).
    + exists name, u. pose proof Hentry as [Hname Hid Hknown Hok]. split_and!; try done.
      destruct (upstream_roundtrip u Hok) as (d & Hd' & Hun). congruence.
Qed.
End StoreContent.

(** ** Witness *)

(** The run of Typing.v: routes, a cluster, its endpoints; the agent receives
    the three batches afterwards. *)
Lemma mesh_responses_ok resp :
  resp = rds_response ∨ Resp_Resources resp = [mkAny "" "c"] → @mesh_ok mesh_lib only_c resp.
Proof.
  intros [->|Hr].
  - split; [apply rds_response_ok|]. apply mesh_response_ok. repeat constructor.
  - split; [|apply mesh_response_ok; rewrite Hr; repeat constructor].
    intros res rc Hin Hrc. rewrite Hr in Hin. apply list_elem_of_singleton in Hin as ->. discriminate Hrc.
Qed.

Definition mesh_queue : list (list Event) := batches mesh_rds.2 ++ batches mesh_cds.2 ++ batches mesh_eds.2.

Definition mesh_agent : Agent (gmap string string) :=
  foldl (λ g b, (event_step (g, true) (EventsReceived 1700000000000 b)).1) example_agent mesh_queue.

Lemma mesh_receives p q (g : Agent (gmap string string)) :
  rtc (@mesh_step map_order mesh_lib only_c _ _) (p, q, g)
    (p, [], foldl (λ g b, (event_step (g, true) (EventsReceived 1700000000000 b)).1) g q).
Proof.
  revert g. induction q as [|b q IH]; intros g; [apply rtc_refl|].
  eapply rtc_l; [|apply IH]. by apply (@MeshReceive map_order mesh_lib only_c _ _ p b q g _ 1700000000000).
Qed.

Lemma mesh_run : rtc (@mesh_step map_order mesh_lib only_c _ _) (initial_provisioner, [], example_agent)
  (mesh_eds.1, [], mesh_agent).
Proof.
  eapply rtc_l; [|eapply rtc_l; [|eapply rtc_l; [|apply (mesh_receives mesh_eds.1 mesh_queue)]]].
  - apply (@MeshResponse map_order mesh_lib only_c _ _ _ [] _ rds_response mesh_rds.1 (inl ["80"]) mesh_rds.2);
      [apply mesh_responses_ok; by left|apply mesh_translate_rds].
  - apply (@MeshResponse map_order mesh_lib only_c _ _ _ _ _ cds_response mesh_cds.1 (inl []) mesh_cds.2);
      [apply mesh_responses_ok; by right|apply mesh_translate_cds].
  - change mesh_queue with (([] ++ batches mesh_rds.2) ++ (batches mesh_cds.2 ++ batches mesh_eds.2)). rewrite app_assoc.
    apply (@MeshResponse map_order mesh_lib only_c _ _ _ _ _ eds_response mesh_eds.1 (inl ["c"]) mesh_eds.2);
      [apply mesh_responses_ok; by right|apply mesh_translate_eds].
Qed.

Definition mesh_upstream : Upstream := default new_Upstream (XP_upstreams mesh_eds.1 !! "c").

Lemma mesh_upstream_at : XP_upstreams mesh_eds.1 !! "c" = Some mesh_upstream.
Proof. vm_compute. reflexivity. Qed.
Lemma mesh_upstream_nodes : Upstream_Nodes mesh_upstream ≠ [].
Proof. vm_compute. discriminate. Qed.
Lemma mesh_content_size : size (content (DataStorage mesh_agent)) = 2%nat.
Proof. vm_compute. reflexivity. Qed.

Lemma store_content_witness :
  (∀ i, content (DataStorage mesh_agent) !! route_key i = (last_by Route_Id (XP_routes mesh_eds.1) !! i) ≫= Marshal) ∧
  (∃ data, Marshal mesh_upstream = Some data ∧ content (DataStorage mesh_agent) !! "/upstreams/<c>" = Some data) ∧
  size (content (DataStorage mesh_agent)) = 2%nat.
Proof.
  destruct (@store_content map_order mesh_lib only_c ltac:(intros n1 n2 H1 H2 _; congruence) _ _ _ example_env
    "unknown" None example_config initial_provisioner example_agent mesh_eds.1 [] mesh_agent) as (Hroutes & Hups & _).
  - reflexivity.
  - discriminate.
  - exact I.
  - reflexivity.
  - exact mesh_run.
  - split; [exact Hroutes|]. split; [|exact mesh_content_size].
    exact (Hups "c" mesh_upstream mesh_upstream_at mesh_upstream_nodes).
Defined.
