(* ===== verification/Responses.v ===== *)
(** * Handling responses: totality, acknowledgements, and where it goes wrong

    Properties of Translate.v and Provisioner.v one response at a time: no panic
    on well-formed messages, the acknowledgement of each response, the
    requests and listeners, and the faults that the model exhibits (secrets, a
    missing Amesh source, a stale upstream, removed plugins). *)

From stdpp Require Import relations.
From S2P Require Import Prelude GoStrings GoNum Json Apisix Compare Xds StringSet.
From S2P Require Import Manifest JsonParse UpstreamJson Agent Endpoint AmeshPlugins RouteTranslator RouteSpec.
From S2P Require Import Finite Provisioner Translate Sync UpstreamSync.
Local Open Scope Z_scope.

Section Responses.
Context `{GoRange} `{XdsLib}.

(** ** No panic on well-formed messages *)

Definition load_assignment_ok (la : option ClusterLoadAssignment) : Prop :=
  addresses_ok (match la with Some la => CLA_Endpoints la | None => [] end).

Lemma TranslateClusterLoadAssignment_total la :
  load_assignment_ok la → ∃ res, TranslateClusterLoadAssignment la = Ret res.
Proof.
  intros Ha. unfold TranslateClusterLoadAssignment. destruct (Nat.eqb _ 0); [by eexists|].
  rewrite translate_localities_eq by done. by eexists.
Qed.

Lemma TranslateCluster_total c :
  load_assignment_ok (Cluster_LoadAssignment c) → ∃ res, TranslateCluster c = Ret res.
Proof.
  intros Ha. unfold TranslateCluster, translateClusterLoadAssignments.
  destruct (Cluster_GetClusterType c); [by eexists|]. destruct (_ =? Cluster_EDS); [by eexists|].
  destruct (TranslateClusterLoadAssignment_total _ Ha) as [[nodes|err] ->]; by eexists.
Qed.

Lemma TranslateRouteConfiguration_total am rc own :
  config_ok rc → ∃ res, TranslateRouteConfiguration (Some am) rc own = Ret res.
Proof. intros Hok. destruct (TranslateRouteConfiguration_eq am rc own Hok) as (res & ? & _). by eexists. Qed.

Lemma processStaticRouteConfigurations_total p am rcs :
  XP_amesh p = Some am → Forall config_ok rcs → ∃ res, processStaticRouteConfigurations p rcs = Ret res.
Proof.
  intros Ham. induction 1 as [|rc rcs Hrc _ IH]; [by eexists|]. cbn [processStaticRouteConfigurations].
  rewrite Ham. destruct (TranslateRouteConfiguration_total am rc (XP_routeOwnership p) Hrc) as [[r|err] ->];
    [exact IH|by eexists].
Qed.

(** The messages on which translate does not panic. *)
Record message_ok (p : xdsProvisioner) (resp : DiscoveryResponse) : Prop := {
  MO_routes : ∀ res rc, res ∈ Resp_Resources resp → unmarshal_RouteConfiguration res = inl rc → config_ok rc;
  MO_clusters : ∀ res c, res ∈ Resp_Resources resp → unmarshal_Cluster res = inl c →
                 load_assignment_ok (Cluster_LoadAssignment c);
  MO_endpoints : ∀ res la, res ∈ Resp_Resources resp → unmarshal_ClusterLoadAssignment res = inl la →
                  addresses_ok (CLA_Endpoints la);
  MO_secrets : Resp_TypeUrl resp = SecretUrl → ∀ res s, res ∈ Resp_Resources resp → unmarshal_Secret res ≠ inl s
}.

Lemma rds_total p am resp :
  XP_amesh p = Some am → message_ok p resp → ∃ acc, go_foldl (rds_resource p) ([], []) (Resp_Resources resp) = Ret acc.
Proof.
  intros Ham [Hrc _ _ _]. apply go_foldl_total. intros acc res Hin. unfold rds_resource.
  destruct (unmarshal_RouteConfiguration res) as [rc|] eqn:Hu; [|by eexists].
  unfold processRouteConfigurationV3. rewrite Ham.
  destruct (TranslateRouteConfiguration_total am rc (XP_routeOwnership p)) as [[r|err] ->]; [by eapply Hrc|by eexists..].
Qed.

Lemma static_routes_total p am :
  XP_amesh p = Some am → Forall config_ok (XP_staticRouteConfigurations p) → ∃ routes, static_routes p = Ret routes.
Proof.
  intros Ham Hs. unfold static_routes. destruct (empty_list _); [by eexists|].
  destruct (processStaticRouteConfigurations_total p am _ Ham Hs) as [[r|err] ->]; by eexists.
Qed.

Lemma cds_total p resp acc :
  message_ok p resp → ∃ acc', go_foldl (cds_resource p) acc (Resp_Resources resp) = Ret acc'.
Proof.
  intros [_ Hc _ _]. apply go_foldl_total. intros [[eds news] newUps] res Hin. unfold cds_resource.
  destruct (unmarshal_Cluster res) as [c|] eqn:Hu; [|by eexists].
  destruct (TranslateCluster_total c) as [[ups|err] ->]; [by eapply Hc| |]; cbn [mbind outcome_bind].
  - destruct (Cluster_GetType c =? Cluster_EDS); [by eexists|]. destruct (negb _); by eexists.
  - case_decide; by eexists.
Qed.

Lemma eds_total p resp acc :
  message_ok p resp → ∃ acc', go_foldl eds_resource acc (Resp_Resources resp) = Ret acc'.
Proof.
  intros [_ _ Hla _]. apply go_foldl_total. intros [[[q names] news] further] res Hin. unfold eds_resource.
  destruct (unmarshal_ClusterLoadAssignment res) as [cla|] eqn:Hu; [|by eexists].
  assert (∃ r, processClusterLoadAssignmentV3 q cla = Ret r) as [r ->].
  { unfold processClusterLoadAssignmentV3. destruct (XP_upstreams q !! _) as [u|]; [|by eexists].
    destruct (TranslateClusterLoadAssignment_total (Some cla)) as [[nodes|err] ->]; [by eapply Hla| |by eexists].
    cbn [mbind outcome_bind]. destruct (Marshal u); [|by eexists]. destruct (Unmarshal_Upstream _); by eexists. }
  destruct r as [ups|err]; cbn [mbind outcome_bind]; [by eexists|]. case_decide; by eexists.
Qed.

Lemma sds_resource_skip acc res e : unmarshal_Secret res = inr e → sds_resource acc res = Ret acc.
Proof. intros Hu. destruct acc. unfold sds_resource. by rewrite Hu. Qed.

Lemma sds_none p resp :
  (∀ res s, res ∈ Resp_Resources resp → unmarshal_Secret res ≠ inl s) →
  translateSDS p resp = Ret (p, []).
Proof.
  intros Hs. unfold translateSDS. induction (Resp_Resources resp) as [|res l IH]; [done|]. cbn [go_foldl].
  destruct (unmarshal_Secret res) as [s|] eqn:Hu; [by destruct (Hs res s ltac:(by left))|].
  rewrite (sds_resource_skip _ _ _ Hu). cbn [mbind outcome_bind]. apply IH. intros r s Hr. apply Hs. by right.
Qed.

(** ** Secrets *)

(** The first resource that is a secret panics while the map is nil. *)
Lemma sds_panics p resp :
  XP_secrets p = None → (∃ res s, res ∈ Resp_Resources resp ∧ unmarshal_Secret res = inl s) →
  translateSDS p resp = Panic "assignment to entry in nil map".
Proof.
  intros Hp (res & s & Hin & Hs). unfold translateSDS. generalize (@nil string) as names.
  induction (Resp_Resources resp) as [|r l IH]; intros names; [by apply elem_of_nil in Hin|].
  cbn [go_foldl]. destruct (unmarshal_Secret r) as [s'|] eqn:Hr.
  - assert (sds_resource (p, names) r = Panic "assignment to entry in nil map") as ->; [|done].
    unfold sds_resource. by rewrite Hr, Hp.
  - rewrite (sds_resource_skip _ _ _ Hr). cbn [mbind outcome_bind]. apply elem_of_cons in Hin as [->|Hin]; [congruence|]. by apply IH.
Qed.

Lemma translateSDS_nil p resp p' names :
  XP_secrets p = None → translateSDS p resp = Ret (p', names) → XP_secrets p' = None.
Proof.
  intros Hp Hr. unfold translateSDS in Hr. revert Hr.
  apply (go_foldl_inv (λ acc : xdsProvisioner * list string, XP_secrets acc.1 = None)); [done|].
  intros [q ns] res acc' _ Hq Hstep. cbn [fst] in Hq. unfold sds_resource in Hstep.
  destruct (unmarshal_Secret res); [|by injection Hstep as <-]. by rewrite Hq in Hstep.
Qed.

(** No step of the program ever creates the map. *)
Lemma translated_secrets p resp p' res effs :
  translated p resp p' res effs → XP_secrets p = None → XP_secrets p' = None.
Proof.
  intros Htr Hp. destruct Htr as [p' new old names _ Hr|p' new old spawned _ Hr|p' news names spawned _ Hr
      |p' spawned _ Hr|p' names _ Hr|_].
  - unfold translateRDS in Hr. apply bind_ret in Hr as ([? ?] & _ & Hr). apply bind_ret in Hr as (? & _ & Hr).
    injection Hr as <- <- <- <-. by destruct p.
  - unfold translateCDS in Hr. apply bind_ret in Hr as ([[? ?] ?] & _ & Hr). injection Hr as <- <- <- <-. by destruct p.
  - unfold translateEDS in Hr. apply bind_ret in Hr as ([[[p1 ns] nw] fu] & Hf & Hr). injection Hr as <- <- <- <-.
    change (XP_secrets (p1, ns, nw, fu).1.1.1 = None). revert Hf.
    apply (go_foldl_inv (λ acc : eds_acc, XP_secrets acc.1.1.1 = None)); [done|].
    intros [[[q ns'] nw'] fu'] r acc' _ Hq Hstep. cbn [fst] in Hq. unfold eds_resource in Hstep.
    destruct (unmarshal_ClusterLoadAssignment r); [|by injection Hstep as <-].
    apply bind_ret in Hstep as ([ups|err] & _ & Hstep); [injection Hstep as <-; by destruct q|].
    by case_decide; injection Hstep as <-.
  - unfold translateLDS in Hr. destruct (foldl _ _ _) as [[? ?] ?]. injection Hr as <- <-. by destruct p.
  - by eapply translateSDS_nil.
  - done.
Qed.

Lemma sys_step_secrets ok st st' : sys_step ok st st' → XP_secrets st.1 = None → XP_secrets st'.1 = None.
Proof.
  intros Hstep Hp. destruct Hstep as [p c resp p' res effs _ Hr|p c am resp Ham|p c p' effs Hr]; cbn [fst] in *.
  - apply translate_inv in Hr. by eapply translated_secrets.
  - by destruct p.
  - unfold UpdateRoutesPlugin, updateRoutesPluginManifest in Hr.
    apply bind_ret in Hr as ([p1 [new old]] & Hm & Hr). injection Hr as <- <-.
    apply bind_ret in Hm as (routes & _ & Hm). injection Hm as <- <- <-. by destruct p.
Qed.

Lemma sys_reach_secrets ok st st' : rtc (sys_step ok) st st' → XP_secrets st.1 = None → XP_secrets st'.1 = None.
Proof. induction 1; [done|]. intros. eauto using sys_step_secrets. Qed.

(** ** The acknowledgement loop *)

(** The version of the last response of a supported type, of whatever type. *)
Definition last_version (verInfo : string) (resps : list DiscoveryResponse) : string :=
  foldl (λ v resp, if decide (known_url (Resp_TypeUrl resp)) then Resp_VersionInfo resp else v) verInfo resps.

Lemma translateLoop_step_ack verInfo p resp verInfo' p' ack effs :
  translateLoop_step verInfo p resp = Ret (verInfo', p', ack, effs) →
  verInfo' = last_version verInfo [resp] ∧ Req_VersionInfo ack = verInfo' ∧
  Req_TypeUrl ack = Resp_TypeUrl resp ∧ Req_ResponseNonce ack = Resp_Nonce resp ∧ Req_Node ack = XP_node p ∧
  (Req_ErrorDetail ack = None ↔ known_url (Resp_TypeUrl resp)) ∧
  (¬ known_url (Resp_TypeUrl resp) →
     p' = p ∧ effs = [] ∧ Req_ResourceNames ack = [] ∧
     Req_ErrorDetail ack = Some (mkStatus Code_INVALID_ARGUMENT "UnknownResourceTypeUrl")).
Proof.
  intros Hr. unfold translateLoop_step in Hr. apply bind_ret in Hr as ([[p1 result] spawned] & Ht & Hr).
  unfold last_version. cbn [foldl].
  destruct (decide (known_url (Resp_TypeUrl resp))) as [Hk|Hk].
  - assert (∃ names, result = inl names) as [names ->].
    { apply translate_inv in Ht. destruct Ht; first [done|by eexists]. }
    injection Hr as <- <- <- <-. by split_and!.
  - rewrite translate_unknown in Ht by done. injection Ht as <- <- <-. injection Hr as <- <- <- <-. by split_and!.
Qed.

Lemma last_version_app v l1 l2 : last_version v (l1 ++ l2) = last_version (last_version v l1) l2.
Proof. apply foldl_app. Qed.

(** ** What a listener denotes *)

(** What a network filter contributes: the RDS configuration or the inline one
    of an HTTP connection manager of the third version of the API. *)
Inductive filter_routes (f : NetFilter) : list string → list RouteConfiguration → Prop :=
| FilterRds data manager name :
    NF_Name f = wellknown_HTTPConnectionManager → NF_TypedConfig f = Some data → Any_TypeUrl data = httpConnectManagerV3 →
    unmarshal_HttpConnectionManager data = inl manager → HCM_RouteSpecifier manager = Some (HCM_Rds name) →
    filter_routes f [name] []
| FilterInline data manager config :
    NF_Name f = wellknown_HTTPConnectionManager → NF_TypedConfig f = Some data → Any_TypeUrl data = httpConnectManagerV3 →
    unmarshal_HttpConnectionManager data = inl manager → HCM_RouteSpecifier manager = Some (HCM_RouteConfig config) →
    filter_routes f [] [config]
| FilterScoped data manager :
    NF_Name f = wellknown_HTTPConnectionManager → NF_TypedConfig f = Some data → Any_TypeUrl data = httpConnectManagerV3 →
    unmarshal_HttpConnectionManager data = inl manager →
    HCM_RouteSpecifier manager = None ∨ HCM_RouteSpecifier manager = Some HCM_ScopedRoutes →
    filter_routes f [] []
| FilterOther :
    (NF_Name f = wellknown_HTTPConnectionManager →
     ∀ data, NF_TypedConfig f = Some data → Any_TypeUrl data ≠ httpConnectManagerV3) →
    filter_routes f [] [].

(** A listener that is used: it parses, it has a socket address with a port, and
    so do all of its connection managers; what its filters contribute, in the
    order of the filter chains. *)
Definition uses_listener (res : Any) (names : list string) (configs : list RouteConfiguration) : Prop :=
  ∃ l protocol host port parts, unmarshal_Listener res = inl l ∧
    Listener_Address l = Some (mkAddress (Some (Address_SocketAddress
      (mkSocketAddress protocol host (Some (SocketAddress_PortValue port)))))) ∧ port ≠ 0 ∧
    Forall2 (λ f part, filter_routes f part.1 part.2) (Listener_FilterChains l ≫= FC_Filters) parts ∧
    names = parts ≫= fst ∧ configs = parts ≫= snd.

(** Any other resource contributes nothing. *)
Inductive resource_routes (res : Any) : list string * list RouteConfiguration → Prop :=
| ResourceUsed names configs : uses_listener res names configs → resource_routes res (names, configs)
| ResourceSkipped : (∀ names configs, ¬ uses_listener res names configs) → resource_routes res ([], []).

Lemma listener_filter_sound names configs f names' configs' :
  listener_filter (names, configs) f = inl (names', configs') →
  ∃ ns cs, filter_routes f ns cs ∧ names' = names ++ ns ∧ configs' = configs ++ cs.
Proof.
  unfold listener_filter. case_bool_decide as Hname.
  2: { intros [= <- <-]. exists [], []. rewrite !app_nil_r. split_and!; [by constructor|done..]. }
  destruct (NF_TypedConfig f) as [data|] eqn:Hdata.
  2: { intros [= <- <-]. exists [], []. rewrite !app_nil_r. split_and!; [constructor; congruence|done..]. }
  case_bool_decide as Hurl.
  2: { intros [= <- <-]. exists [], []. rewrite !app_nil_r. split_and!; [constructor; congruence|done..]. }
  destruct (unmarshal_HttpConnectionManager data) as [hcm|] eqn:Hhcm; [|done].
  destruct (HCM_RouteSpecifier hcm) as [[name|rc|]|] eqn:Hspec; intros [= <- <-].
  - exists [name], []. rewrite app_nil_r. split_and!; [by eapply FilterRds|done..].
  - exists [], [rc]. rewrite app_nil_r. split_and!; [by eapply FilterInline|done..].
  - exists [], []. rewrite !app_nil_r. split_and!; [eapply FilterScoped; eauto|done..].
  - exists [], []. rewrite !app_nil_r. split_and!; [eapply FilterScoped; eauto|done..].
Qed.

Lemma listener_filter_complete names configs f ns cs :
  filter_routes f ns cs → listener_filter (names, configs) f = inl (names ++ ns, configs ++ cs).
Proof.
  unfold listener_filter. intros [data hcm name Hn Hd Hu Hh Hs|data hcm rc Hn Hd Hu Hh Hs|data hcm Hn Hd Hu Hh Hs|Hno].
  - rewrite bool_decide_true, Hd, bool_decide_true, Hh, Hs by done. by rewrite app_nil_r.
  - rewrite bool_decide_true, Hd, bool_decide_true, Hh, Hs by done. by rewrite app_nil_r.
  - rewrite bool_decide_true, Hd, bool_decide_true, Hh by done. by destruct Hs as [-> | ->]; rewrite !app_nil_r.
  - rewrite !app_nil_r. case_bool_decide as Hn; [|done]. destruct (NF_TypedConfig f) as [data|] eqn:Hd; [|done].
    rewrite bool_decide_false; [done|]. by apply Hno.
Qed.

Lemma listener_filters_iff fs names configs names' configs' :
  listener_filters (names, configs) fs = inl (names', configs') ↔
  ∃ parts, Forall2 (λ f part, filter_routes f part.1 part.2) fs parts ∧
    names' = names ++ (parts ≫= fst) ∧ configs' = configs ++ (parts ≫= snd).
Proof.
  revert names configs. induction fs as [|f fs IH]; intros names configs; cbn [listener_filters].
  - split.
    + intros [= <- <-]. exists []. cbn. by rewrite !app_nil_r.
    + intros (parts & ->%Forall2_nil_inv_l & -> & ->). cbn. by rewrite !app_nil_r.
  - split.
    + destruct (listener_filter (names, configs) f) as [[n1 c1]|] eqn:Hf; [|done].
      apply listener_filter_sound in Hf as (ns & cs & Hf & -> & ->). intros (parts & Hparts & -> & ->)%IH.
      exists ((ns, cs) :: parts). cbn. rewrite <- !app_assoc. split; [by constructor|done].
    + intros (parts & Hparts & -> & ->). apply Forall2_cons_inv_l in Hparts as ([ns cs] & parts' & Hf & Hparts & ->).
      rewrite (listener_filter_complete _ _ _ _ _ Hf). apply IH. exists parts'. split; [done|]. cbn. by rewrite <- !app_assoc.
Qed.

Lemma concat_map_bind {A B} (f : A → list B) l : concat (map f l) = l ≫= f.
Proof. induction l as [|x l IH]; [done|]. cbn. by rewrite IH. Qed.

Lemma GetRoutesFromListener_iff l names configs :
  GetRoutesFromListener l = inl (names, configs) ↔
  ∃ parts, Forall2 (λ f part, filter_routes f part.1 part.2) (Listener_FilterChains l ≫= FC_Filters) parts ∧
    names = parts ≫= fst ∧ configs = parts ≫= snd.
Proof. unfold GetRoutesFromListener. rewrite concat_map_bind. apply listener_filters_iff. Qed.

(** ** LDS: listeners with a socket address and a port *)

Definition listener_routes (res : Any) : option (string * list string * list RouteConfiguration) :=
  match unmarshal_Listener res with
  | inr _ => None
  | inl listener =>
      match GetSocketAddress (Listener_Address listener) with
      | None => None
      | Some sa =>
          if GetPortValue sa =? 0 then None
          else match GetRoutesFromListener listener with
               | inr _ => None
               | inl (names, cfgs) => Some (SA_Address sa +:+ ":" +:+ itoa (GetPortValue sa), names, cfgs)
               end
      end
  end.

(** The resource as the handler sees it. *)
Definition routes_of (res : Any) : list string * list RouteConfiguration :=
  match listener_routes res with Some (_, names, configs) => (names, configs) | None => ([], []) end.

Lemma uses_listener_iff res names configs :
  uses_listener res names configs ↔ ∃ addr, listener_routes res = Some (addr, names, configs).
Proof.
  unfold uses_listener, listener_routes. split.
  - intros (l & protocol & host & port & parts & Hl & Haddr & Hport & Hparts). rewrite Hl, Haddr. cbn.
    destruct (Z.eqb_spec port 0) as [|_]; [done|].
    rewrite (proj2 (GetRoutesFromListener_iff l names configs)) by (by exists parts). by eexists.
  - intros [addr Hr]. destruct (unmarshal_Listener res) as [l|]; [|done].
    destruct (Listener_Address l) as [[[[[protocol host [[port|name]|]]|type]|]]|] eqn:Haddr; try done. cbn in Hr.
    destruct (Z.eqb_spec port 0) as [|Hport]; [done|]. destruct (GetRoutesFromListener l) as [[ns cs]|] eqn:Hg; [|done].
    injection Hr as _ <- <-. apply GetRoutesFromListener_iff in Hg as (parts & Hparts). by exists l, protocol, host, port, parts.
Qed.

Lemma routes_of_sound res : resource_routes res (routes_of res).
Proof.
  unfold routes_of. destruct (listener_routes res) as [[[addr names] configs]|] eqn:Hr.
  - apply ResourceUsed, uses_listener_iff. by exists addr.
  - apply ResourceSkipped. intros names configs [addr Hu]%uses_listener_iff. congruence.
Qed.

Lemma routes_of_bind resources :
  (omap listener_routes resources ≫= λ r, r.1.2) = resources ≫= (λ res, (routes_of res).1) ∧
  (omap listener_routes resources ≫= snd) = resources ≫= (λ res, (routes_of res).2).
Proof.
  induction resources as [|res l [IH1 IH2]]; [done|]. cbn [omap list_omap mbind list_bind]. rewrite <- IH1, <- IH2.
  unfold routes_of. by destruct (listener_routes res) as [[[addr names] configs]|].
Qed.

Definition add_listener (acc : lds_acc) (r : string * list string * list RouteConfiguration) : lds_acc :=
  let '(rdsNames, staticConfigs, own) := acc in
  let '(addr, names, cfgs) := r in
  (rdsNames ++ names, staticConfigs ++ cfgs,
   foldl (λ own cfg, <[RC_Name cfg := addr]> own) (foldl (λ own name, <[name := addr]> own) own names) cfgs).

Lemma lds_resource_eq acc res :
  lds_resource acc res = match listener_routes res with Some r => add_listener acc r | None => acc end.
Proof.
  destruct acc as [[rdsNames static] own]. unfold lds_resource, listener_routes.
  destruct (unmarshal_Listener res) as [l|]; [|done]. destruct (GetSocketAddress _) as [sa|]; [|done].
  destruct (GetPortValue sa =? 0); [done|]. by destruct (GetRoutesFromListener l) as [[names cfgs]|].
Qed.

Lemma lds_fold acc l : foldl lds_resource acc l = foldl add_listener acc (omap listener_routes l).
Proof.
  revert acc; induction l as [|res l IH]; intros acc; [done|]. cbn [foldl omap list_omap].
  rewrite lds_resource_eq, IH. by destruct (listener_routes res).
Qed.

Lemma add_listeners_names acc rs :
  (foldl add_listener acc rs).1.1 = acc.1.1 ++ (rs ≫= λ r, r.1.2) ∧
  (foldl add_listener acc rs).1.2 = acc.1.2 ++ (rs ≫= snd).
Proof.
  revert acc; induction rs as [|[[addr names] cfgs] rs IH]; intros [[ns cs] own].
  { cbn. by rewrite !app_nil_r. }
  cbn [foldl]. destruct (IH (add_listener (ns, cs, own) (addr, names, cfgs))) as [-> ->].
  cbn. by rewrite <- !app_assoc.
Qed.

(** ** Properties *)

(** C13. No message crashes the provisioner as long as every route carries a
    match, every weighted action at least one cluster and each of its clusters
    a weight, every endpoint an address, and no secret arrives: with an Amesh
    source (and the inline configurations of earlier listeners satisfying the
    same conditions) translate returns for every response, and the loop
    acknowledges it. *)
Theorem translate_total verInfo p am resp :
  XP_amesh p = Some am → Forall config_ok (XP_staticRouteConfigurations p) → message_ok p resp →
  ∃ p' result effs, translate p resp = Ret (p', result, effs) ∧
    ∃ ack, translateLoop_step verInfo p resp = Ret (Req_VersionInfo ack, p', ack, effs).
Proof.
  intros Ham Hs Hm.
  assert (∃ p' result effs, translate p resp = Ret (p', result, effs)) as (p' & result & effs & Ht).
  { destruct (known_url_dec (Resp_TypeUrl resp)) as [Hurl|Hurl]; [|rewrite translate_unknown by done; eauto].
    unfold known_url in Hurl. rewrite !elem_of_cons, elem_of_nil in Hurl. destruct Hurl as [Hu|[Hu|[Hu|[Hu|[Hu|[]]]]]].
    - rewrite translate_RDS by done. unfold translateRDS.
      destruct (rds_total p am resp Ham Hm) as [[names routes] ->]. cbn [mbind outcome_bind].
      destruct (static_routes_total p am Ham Hs) as [static ->]. cbn. eauto.
    - rewrite translate_CDS by done. unfold translateCDS.
      destruct (cds_total p resp (∅, [], ∅) Hm) as [[[eds news] newUps] ->]. cbn. eauto.
    - rewrite translate_EDS by done. unfold translateEDS.
      destruct (eds_total p resp (p, [], [], ∅) Hm) as [[[[q names] news] further] ->]. cbn. eauto.
    - rewrite translate_LDS by done. destruct (translateLDS p resp). eauto.
    - rewrite translate_SDS by done. rewrite sds_none by (by eapply MO_secrets). cbn. eauto. }
  exists p', result, effs. split; [done|]. unfold translateLoop_step. rewrite Ht. cbn [mbind outcome_bind].
  destruct result as [names|err]; by eexists (mkDiscoveryRequest _ _ _ _ _ _).
Qed.

(** The loop from any state is the loop without a history, after it. *)
Lemma loop_history verInfo p acks effs resps :
  go_foldl loop_step (verInfo, p, acks, effs) resps =
    (st ← go_foldl loop_step (verInfo, p, [], []) resps; Ret (st.1.1.1, st.1.1.2, acks ++ st.1.2, effs ++ st.2)).
Proof.
  revert verInfo p acks effs. induction resps as [|r resps IH]; intros verInfo p acks effs.
  - cbn. by rewrite !app_nil_r.
  - rewrite !go_foldl_cons.
    assert (∀ a e, loop_step (verInfo, p, a, e) r =
      ('(v, q, ack, spawned) ← translateLoop_step verInfo p r; Ret (v, q, a ++ [ack], e ++ spawned))) as Hstep by done.
    rewrite !Hstep. destruct (translateLoop_step verInfo p r) as [[[[v1 p1] ack] spawned]|]; [|done].
    cbn [mbind outcome_bind app]. rewrite IH, (IH v1 p1 [ack] spawned).
    destruct (go_foldl loop_step (v1, p1, [], []) resps) as [[[[v2 p2] acks2] effs2]|]; [|done].
    cbn. by rewrite <- !app_assoc.
Qed.

(** A response of an unsupported type may be left out, but for its answer. *)
Lemma unsupported_left_out p resps1 resp resps2 verInfo p' acks effs :
  translateLoop p (resps1 ++ resp :: resps2) = Ret (verInfo, p', acks, effs) → ¬ known_url (Resp_TypeUrl resp) →
  ∃ acks1 ack acks2, acks = acks1 ++ ack :: acks2 ∧
    (∃ v q effs1, translateLoop p resps1 = Ret (v, q, acks1, effs1)) ∧
    translateLoop p (resps1 ++ resps2) = Ret (verInfo, p', acks1 ++ acks2, effs).
Proof.
  unfold translateLoop. rewrite !go_foldl_app. intros Hr Hunk.
  apply bind_ret in Hr as ([[[v1 p1] acks1] effs1] & Hr1 & Hr). rewrite Hr1. cbn [mbind outcome_bind].
  rewrite go_foldl_cons in Hr. apply bind_ret in Hr as ([[[v2 p2] acks2] effs2] & Hstep & Hr).
  unfold loop_step in Hstep. apply bind_ret in Hstep as ([[[v3 p3] ack] spawned] & Hstep & Heq). injection Heq as <- <- <- <-.
  apply translateLoop_step_ack in Hstep as (-> & _ & _ & _ & _ & _ & Hun). destruct (Hun Hunk) as (-> & -> & _).
  unfold last_version in Hr. cbn [foldl] in Hr. rewrite decide_False, app_nil_r in Hr by done. rewrite loop_history in Hr. rewrite loop_history.
  destruct (go_foldl loop_step (v1, p1, [], []) resps2) as [[[[v4 p4] acks4] effs4]|]; [|done].
  injection Hr as <- <- <- <-. exists acks1, ack, acks4. split_and!; [by rewrite <- app_assoc|by eexists _, _, _|done].
Qed.

(** The version, and the answers, of a run. *)
Lemma translateLoop_acks p resps verInfo p' acks effs :
  translateLoop p resps = Ret (verInfo, p', acks, effs) →
  length acks = length resps ∧
  ∀ i resp ack, resps !! i = Some resp → acks !! i = Some ack →
    Req_TypeUrl ack = Resp_TypeUrl resp ∧ Req_ResponseNonce ack = Resp_Nonce resp ∧
    Req_VersionInfo ack = last_version "" (take (S i) resps) ∧
    (Req_ErrorDetail ack = None ↔ known_url (Resp_TypeUrl resp)) ∧
    (¬ known_url (Resp_TypeUrl resp) →
       Req_ErrorDetail ack = Some (mkStatus Code_INVALID_ARGUMENT "UnknownResourceTypeUrl")).
Proof.
  revert verInfo p' acks effs. unfold translateLoop.
  induction resps as [|r resps IH] using rev_ind; intros verInfo p' acks effs Hr.
  { injection Hr as <- <- <- <-. split; [done|]. intros i resp ack Hi. by rewrite lookup_nil in Hi. }
  rewrite go_foldl_app in Hr. apply bind_ret in Hr as ([[[v1 p1] acks1] effs1] & Hr1 & Hr).
  assert (v1 = last_version "" resps) as Hv1.
  { clear -Hr1. revert v1 p1 acks1 effs1 Hr1. induction resps as [|r resps IH] using rev_ind; intros v1 p1 acks1 effs1 Hr1.
    - by injection Hr1 as <- <- <- <-.
    - rewrite go_foldl_app in Hr1. apply bind_ret in Hr1 as ([[[v2 p2] acks2] effs2] & Hr2 & Hr1).
      apply bind_ret in Hr1 as (st & Hstep & Hr1). injection Hr1 as ->.
      unfold loop_step in Hstep. apply bind_ret in Hstep as ([[[v3 p3] ack] spawned] & Hstep & Heq). injection Heq as <- <- <- <-.
      apply translateLoop_step_ack in Hstep as (-> & _). by rewrite last_version_app, (IH _ _ _ _ Hr2). }
  destruct (IH _ _ _ _ Hr1) as [Hlen Hacks].
  apply bind_ret in Hr as (st & Hstep & Hr). injection Hr as ->.
  unfold loop_step in Hstep. apply bind_ret in Hstep as ([[[v3 p3] ack] spawned] & Hstep & Heq). injection Heq as <- <- <- <-.
  apply translateLoop_step_ack in Hstep as (-> & Hver & Hty & Hnonce & _ & Herr & Hunk). split.
  { rewrite !length_app. cbn. lia. }
  intros i resp ack' Hi Ha. destruct (decide (i < length resps)%nat) as [Hlt|Hge].
  - rewrite lookup_app_l in Hi by done. rewrite lookup_app_l in Ha by lia. rewrite take_app_le by lia. by apply Hacks.
  - rewrite lookup_app_r in Hi by lia. apply list_lookup_singleton_Some in Hi as [Hi <-].
    rewrite lookup_app_r in Ha by lia. apply list_lookup_singleton_Some in Ha as [_ <-].
    rewrite take_ge by (rewrite length_app; cbn; lia). rewrite Hver, Hv1, last_version_app.
    split_and!; try done; try apply Herr. intros Hk. by apply Hunk.
Qed.

(** C21. Acknowledgements: each response gets one request of its type and with
    its nonce; it carries no error detail exactly when the type is one of the
    five supported ones (a resource that does not parse is skipped, not
    rejected), and an unsupported type is refused with an error detail.  A
    response of an unsupported type changes nothing: the loop without it ends
    in the same state and version, with the same effects and the same answers
    to all the others.  The version of an acknowledgement is the one of the
    last response of a supported type, which may be of another type than the
    acknowledged one. *)
Theorem translateLoop_ack p resps verInfo p' acks effs :
  translateLoop p resps = Ret (verInfo, p', acks, effs) →
  length acks = length resps ∧
  (∀ i resp ack, resps !! i = Some resp → acks !! i = Some ack →
    Req_TypeUrl ack = Resp_TypeUrl resp ∧ Req_ResponseNonce ack = Resp_Nonce resp ∧
    Req_VersionInfo ack = last_version "" (take (S i) resps) ∧
    (Req_ErrorDetail ack = None ↔ known_url (Resp_TypeUrl resp)) ∧
    (¬ known_url (Resp_TypeUrl resp) →
       Req_ErrorDetail ack = Some (mkStatus Code_INVALID_ARGUMENT "UnknownResourceTypeUrl"))) ∧
  (∀ resps1 resp resps2, resps = resps1 ++ resp :: resps2 → ¬ known_url (Resp_TypeUrl resp) →
     ∃ acks1 ack acks2, acks = acks1 ++ ack :: acks2 ∧ length acks1 = length resps1 ∧
       translateLoop p (resps1 ++ resps2) = Ret (verInfo, p', acks1 ++ acks2, effs)).
Proof.
  intros Hr. destruct (translateLoop_acks p resps verInfo p' acks effs Hr) as [Hlen Hacks]. split_and!; [done..|].
  intros resps1 resp resps2 -> Hunk. destruct (unsupported_left_out _ _ _ _ _ _ _ _ Hr Hunk) as (acks1 & ack & acks2 & -> & (v & q & effs1 & Hr1) & Hr2).
  exists acks1, ack, acks2. split_and!; [done| |done]. by apply translateLoop_acks in Hr1 as [? _].
Qed.

(** The handler of listeners in terms of the resources. *)
Lemma translate_LDS_eq p resp :
  Resp_TypeUrl resp = ListenerUrl →
  let rs := omap listener_routes (Resp_Resources resp) in
  let names := rs ≫= (λ r, r.1.2) in
  ∃ p', translate p resp =
      Ret (p', inl [], (if empty_list names then [] else [SendRequest (new_request p RouteConfigurationUrl names)])
                       ++ [SendEvents []]) ∧
    XP_staticRouteConfigurations p' = rs ≫= snd ∧
    XP_routes p' = XP_routes p ∧ XP_upstreams p' = XP_upstreams p.
Proof.
  intros Hurl rs names. rewrite translate_LDS by done. unfold translateLDS. rewrite lds_fold.
  pose proof (add_listeners_names ([], [], ∅) rs) as [Hn Hs]. fold rs.
  destruct (foldl add_listener ([], [], ∅) rs) as [[rdsNames static] own]. cbn [fst snd app] in Hn, Hs. subst rdsNames static.
  exists (set_listeners own (rs ≫= snd) p). split; [|by destruct p].
  assert (sendRds (set_listeners own (rs ≫= snd) p) names =
    if empty_list names then [] else [SendRequest (new_request p RouteConfigurationUrl names)]) as Hsend.
  { unfold sendRds. subst names. destruct (rs ≫= _); by destruct p. }
  fold names. by rewrite Hsend.
Qed.

(** C22. Listeners: a resource of the response is used when it parses as a
    listener that has a socket address with a port and whose HTTP connection
    managers all parse; any other contributes nothing.  The answer asks for
    exactly the RDS route configurations that the connection managers of the
    used listeners name, in order, with no request when there is none; their
    inline configurations become the static ones, replacing the previous ones;
    the routes and upstreams are not touched and no event is emitted. *)
Theorem translate_LDS_spec p resp :
  Resp_TypeUrl resp = ListenerUrl →
  ∃ rs p', Forall2 resource_routes (Resp_Resources resp) rs ∧
    translate p resp =
      Ret (p', inl [], (if decide (rs ≫= fst = []) then []
                        else [SendRequest (mkDiscoveryRequest "" (XP_node p) (rs ≫= fst) RouteConfigurationUrl "" None)])
                       ++ [SendEvents []]) ∧
    XP_staticRouteConfigurations p' = rs ≫= snd ∧
    XP_routes p' = XP_routes p ∧ XP_upstreams p' = XP_upstreams p.
Proof.
  intros Hurl. destruct (translate_LDS_eq p resp Hurl) as (p' & Hr & Hstatic & Hroutes & Hups).
  destruct (routes_of_bind (Resp_Resources resp)) as [Hn Hs]. exists (routes_of <$> Resp_Resources resp), p'.
  rewrite !list_fmap_bind. unfold compose. cbv zeta in Hr. rewrite Hn in Hr. rewrite Hs in Hstatic. split_and!; [|..|done|done|done].
  - apply Forall2_fmap_r, Forall2_same_length_lookup_2; [done|]. intros i res res' Hi Hi'.
    assert (res' = res) as -> by congruence. apply routes_of_sound.
  - rewrite Hr. unfold new_request. by destruct (_ ≫= _).
Qed.

(** The secrets map is never created: from the constructor's state, whatever
    happens, the first secret that arrives is a write to a nil map, which
    panics and ends the process. *)
Lemma secrets_never_initialised ok env version logger cfg p c p' c' resp :
  NewXDSProvisioner env version logger cfg = inl p → rtc (sys_step ok) (p, c) (p', c') →
  Resp_TypeUrl resp = SecretUrl → (∃ res s, res ∈ Resp_Resources resp ∧ unmarshal_Secret res = inl s) →
  translate p' resp = Panic "assignment to entry in nil map".
Proof.
  intros Hp Hreach Hurl Hs. assert (XP_secrets p = None) as Hnil.
  { unfold NewXDSProvisioner in Hp. destruct logger; [done|]. destruct (negb (HasPrefix _ _)); [done|].
    destruct (negb (bool_decide _)); [|by injection Hp as <-].
    destruct (NewAmeshProvisioner env _); [|done]. by injection Hp as <-. }
  apply sys_reach_secrets in Hreach; [|done]. rewrite translate_SDS by done. by rewrite sds_panics.
Qed.

(** The constructor accepts a configuration without an Amesh source, but the
    provisioner it returns panics when its plugin goroutine starts, when its
    status is asked for, and on the first route that can be translated. *)
Lemma no_amesh_source_panics env version cfg p hosts name vhost route parts :
  NewXDSProvisioner env version None cfg = inl p → Config_AmeshConfigSource cfg = "" →
  route_parts_of route = Ret (inl parts) →
  plugins_channel p = Panic "nil pointer dereference: p.amesh" ∧
  GetData p "status" = Panic "nil pointer dereference: p.amesh" ∧
  translate_route (XP_amesh p) hosts name vhost route = Panic "nil pointer dereference: p.amesh".
Proof.
  intros Hp Hsrc Hparts. unfold NewXDSProvisioner in Hp. destruct (negb (HasPrefix _ _)); [done|].
  rewrite bool_decide_true in Hp by done. injection Hp as <-.
  split_and!; [done|done|]. by eapply translate_route_no_amesh.
Qed.

(** An upstream is leaked: a CDS response empties the nodes of an EDS
    cluster in the map (keeping the old upstream in the store); if the next CDS
    response drops the cluster before its endpoints arrive, the provisioner
    forgets it but the store keeps it, since only upstreams with nodes are
    compared. *)
Lemma stale_upstream p c n u cluster resp1 resp2 res :
  XP_upstreams p = {[n := u]} → Upstream_Nodes u ≠ [] → is_Some (Marshal u) →
  c !! upstream_key (Upstream_Id u) = Marshal u →
  unmarshal_Cluster res = inl cluster → Cluster_Name cluster = n → Cluster_GetType cluster = Cluster_EDS →
  Resp_TypeUrl resp1 = ClusterUrl → Resp_Resources resp1 = [res] →
  Resp_TypeUrl resp2 = ClusterUrl → Resp_Resources resp2 = [] →
  ∃ p1 r1 e1 p2 r2 e2, translate p resp1 = Ret (p1, r1, e1) ∧ translate p1 resp2 = Ret (p2, r2, e2) ∧
    XP_upstreams p2 = ∅ ∧
    apply_effects (apply_effects c e1) e2 !! upstream_key (Upstream_Id u) = Marshal u.
Proof.
  intros Hups Hnodes [s Hm] Hc Hu <- Heds Hurl1 Hres1 Hurl2 Hres2.
  assert (∃ ups, TranslateCluster cluster = Ret (inl ups) ∧ Upstream_Nodes ups = []) as (ups & Ht & Hupsn).
  { unfold TranslateCluster, translateClusterLoadAssignments, translateClusterTimeoutSettings, translateClusterLbPolicy, base_Upstream.
    rewrite Heds. destruct (Cluster_GetClusterType cluster);
      destruct (Cluster_LbPolicy cluster =? Cluster_ROUND_ROBIN), (Cluster_LbPolicy cluster =? Cluster_LEAST_REQUEST),
        (Cluster_ConnectTimeout cluster); by eexists. }
  assert (with_nodes ("CDS old " +:+ Resp_Nonce resp1) (XP_upstreams p) = [u]) as Hold.
  { unfold with_nodes. rewrite Hups. pose proof (range_perm _ ("CDS old " +:+ Resp_Nonce resp1) {[Cluster_Name cluster := u]}) as Hp.
    rewrite map_to_list_singleton in Hp. apply Permutation_singleton_r in Hp as ->. cbn.
    by rewrite decide_True. }
  set (p1 := set_upstreams (<[Upstream_Name ups := ups]> ∅) (set_edsRequiredClusters (Add ∅ (Cluster_Name cluster)) p)).
  assert (translate p resp1 = Ret (p1, inl [], sendEds ("EDS " +:+ Resp_Nonce resp1) p1 (Add ∅ (Cluster_Name cluster))
            ++ [incremental (mkManifest [] [u]) (mkManifest [] [u])])) as H1.
  { rewrite translate_CDS by done. unfold translateCDS. rewrite Hres1, Hold. cbn [go_foldl]. unfold cds_resource.
    rewrite Hu. rewrite Ht. cbn [mbind outcome_bind]. rewrite Heds. cbn [Z.eqb Cluster_EDS Pos.eqb].
    rewrite Hups, lookup_singleton_eq. by destruct (Upstream_Nodes u) eqn:E. }
  assert (with_nodes ("CDS old " +:+ Resp_Nonce resp2) (XP_upstreams p1) = []) as Hold2.
  { unfold with_nodes. replace (XP_upstreams p1) with ({[Upstream_Name ups := ups]} : gmap string Upstream) by (by destruct p).
    pose proof (range_perm _ ("CDS old " +:+ Resp_Nonce resp2) {[Upstream_Name ups := ups]}) as Hp.
    rewrite map_to_list_singleton in Hp. apply Permutation_singleton_r in Hp as ->. cbn. rewrite decide_False; [done|].
    intros E. by apply E. }
  eexists p1, _, _, _, _, _. split; [exact H1|]. split.
  { rewrite translate_CDS by done. unfold translateCDS. rewrite Hres2, Hold2. reflexivity. }
  split; [by destruct p|].
  rewrite apply_effects_app. cbn [sendEds app apply_effects foldl apply_effect incremental].
  change (generateIncrementalEvents (Some (mkManifest [] [])) (Some (mkManifest [] []))) with (@nil Event).
  cbn [apply_events foldl]. rewrite apply_diff_upstream.
  - unfold synced. cbn [Manifest_Upstreams last_by foldl]. by rewrite lookup_insert_eq.
  - intros x ->%list_elem_of_singleton. unfold has_nodes. by destruct (Upstream_Nodes u).
  - intros x ->%list_elem_of_singleton. by rewrite Hm.
  - intros x Hx. cbn [Manifest_Upstreams last_by foldl] in Hx. rewrite lookup_insert_eq in Hx. by injection Hx as <-.
Qed.

(** Refreshing the plugins of the routes removes the ones that the
    translation itself installed (the Prometheus, fault-injection and
    traffic-split plugins) unless the controller knows a plugin of that name:
    only the controller's plugins remain. *)
Lemma UpdateRoutesPlugin_drops p am p' effs k :
  XP_amesh p = Some am → keyed (GetPlugins am) → UpdateRoutesPlugin p = Ret (p', effs) →
  GetPlugins am !! k = None → k ≠ "ext-plugin-pre-req" → k ≠ "ext-plugin-post-req" →
  length (XP_routes p') = length (XP_routes p) ∧ ∀ r, r ∈ XP_routes p' → Route_Plugins r !! k = None.
Proof.
  intros Ham Hkey Hr Hk Hpre Hpost. unfold UpdateRoutesPlugin, updateRoutesPluginManifest in Hr.
  apply bind_ret in Hr as ([p1 [new old]] & Hm & Hr). injection Hr as <- <-.
  apply bind_ret in Hm as (routes & Hf & Hm). injection Hm as <- <- <-.
  assert (XP_routes (set_routes routes p) = routes) as -> by (by destruct p).
  assert (go_foldl (update_route_plugins p) [] (XP_routes p) =
    Ret (map (λ r, set_Route_Plugins (patch_plugins (Route_Id r) (GetPlugins am) (Route_Plugins r)) r) (XP_routes p))) as Heq.
  { change (map ?f (XP_routes p)) with ([] ++ map f (XP_routes p)). generalize (@nil Route) as acc.
    clear Hf. induction (XP_routes p) as [|r l IH]; intros acc; [cbn; by rewrite app_nil_r|]. cbn [go_foldl map].
    assert (update_route_plugins p acc r =
      Ret (acc ++ [set_Route_Plugins (patch_plugins (Route_Id r) (GetPlugins am) (Route_Plugins r)) r])) as ->
      by (unfold update_route_plugins, patchAmeshPlugins; by rewrite Ham, Copy_eq).
    cbn [mbind outcome_bind]. by rewrite IH, <- app_assoc. }
  rewrite Heq in Hf. injection Hf as <-. split; [by rewrite length_map|].
  intros r Hin. change (map ?f (XP_routes p)) with (f <$> XP_routes p) in Hin.
  apply list_elem_of_fmap in Hin as (r0 & -> & _). rewrite Route_Plugins_set, patch_plugins_lookup by done. cbv zeta.
  rewrite !(decide_False (P := _ ∧ _)) by (by intros [? _]). by rewrite Hk.
Qed.
End Responses.

(** ** Witnesses *)

Lemma sync_message_ok : @message_ok sync_lib initial_provisioner rds_response.
Proof.
  split; cbn [Resp_Resources rds_response].
  - intros res rc Hres Hrc vhost route Hv Hr. rewrite !elem_of_cons, elem_of_nil in Hres.
    destruct Hres as [->|[->|[]]]; [|discriminate Hrc]. vm_compute in Hrc. injection Hrc as <-.
    apply list_elem_of_singleton in Hv as ->. apply list_elem_of_singleton in Hr as ->.
    split; [by eexists|]. intros cs Hcs. injection Hcs as <-. split; [discriminate|]. repeat constructor; eexists; reflexivity.
  - discriminate.
  - discriminate.
  - discriminate.
Qed.

Lemma translate_total_witness :
  ∃ p' result effs, @translate map_order sync_lib initial_provisioner rds_response = Ret (p', result, effs).
Proof.
  destruct (@translate_total map_order sync_lib "" initial_provisioner (mkAmeshProvisioner "amesh:15810" "ns" "pod" ∅ ∅ false false)
    rds_response) as (p' & result & effs & Hr & _).
  - reflexivity.
  - constructor.
  - apply sync_message_ok.
  - exists p', result, effs. exact Hr.
Defined.

(** A known response, then one of an unknown type. *)
Definition odd_response : DiscoveryResponse := mkDiscoveryResponse "v9" [] "type.googleapis.com/other" "n9".
Definition example_loop : loop_state :=
  match @translateLoop map_order sync_lib initial_provisioner [rds_response; odd_response] with
  | Ret st => st
  | Panic _ => ("", initial_provisioner, [], [])
  end.

Lemma translateLoop_ack_witness :
  (∃ ack, example_loop.1.2 !! 1%nat = Some ack ∧ Req_VersionInfo ack = "v1" ∧
    Req_ErrorDetail ack = Some (mkStatus 3 "UnknownResourceTypeUrl")) ∧
  ∃ acks, @translateLoop map_order sync_lib initial_provisioner [rds_response] =
    Ret (example_loop.1.1.1, example_loop.1.1.2, acks, example_loop.2).
Proof.
  assert (¬ @known_url sync_lib (Resp_TypeUrl odd_response)) as Hunk.
  { intros Hk. apply (bool_decide_pack _) in Hk. vm_compute in Hk. exact Hk. }
  destruct (@translateLoop_ack map_order sync_lib initial_provisioner [rds_response; odd_response]
    example_loop.1.1.1 example_loop.1.1.2 example_loop.1.2 example_loop.2) as (_ & Hacks & Hleft).
  - vm_compute. reflexivity.
  - split.
    + eexists. split; [vm_compute; reflexivity|].
      destruct (Hacks 1%nat odd_response (mkDiscoveryRequest "v1" (XP_node initial_provisioner) []
        "type.googleapis.com/other" "n9" (Some (mkStatus 3 "UnknownResourceTypeUrl")))) as (_ & _ & Hv & _ & He).
      * reflexivity.
      * vm_compute. reflexivity.
      * split; [exact Hv|]. by apply He.
    + destruct (Hleft [rds_response] odd_response [] eq_refl Hunk) as (acks1 & ack & acks2 & _ & _ & Hrun).
      exists (acks1 ++ acks2). exact Hrun.
Defined.

Definition http_listener : Listener :=
  mkListener "l" (Some (example_address 8080))
    [mkFilterChain [mkNetFilter "envoy.filters.network.http_connection_manager"
       (Some (mkAny httpConnectManagerV3 "hcm"))]].
Definition lds_lib : XdsLib := test_lib [] [] [] [http_listener] [] [] [("hcm", mkHcm (Some (HCM_Rds "80")))].
Definition lds_response : DiscoveryResponse :=
  mkDiscoveryResponse "v1" [mkAny "" "l"] "type.googleapis.com/envoy.config.listener.v3.Listener" "n".

Lemma translate_LDS_spec_witness :
  ∃ rs p', Forall2 (@resource_routes lds_lib) (Resp_Resources lds_response) rs ∧
    @translate map_order lds_lib initial_provisioner lds_response =
      Ret (p', inl [], (if decide (rs ≫= fst = []) then []
                        else [SendRequest (mkDiscoveryRequest "" (XP_node initial_provisioner) (rs ≫= fst)
                                "type.googleapis.com/envoy.config.route.v3.RouteConfiguration" "" None)])
                       ++ [SendEvents []]) ∧
    rs ≫= fst = ["80"].
Proof.
  destruct (@translate_LDS_spec map_order lds_lib initial_provisioner lds_response eq_refl) as (rs & p' & Hrs & Hr & _).
  exists rs, p'. split; [exact Hrs|]. split; [exact Hr|].
  apply (f_equal (λ o, match o with Ret (_, _, SendRequest req :: _) => Req_ResourceNames req | _ => [] end)) in Hr.
  cbv beta iota in Hr. assert (∀ l l', l = ["80"] → l = l' → l' = ["80"]) as Heq by congruence.
  eapply Heq; [|etransitivity; [exact Hr|]]; [vm_compute; reflexivity|]. by destruct (decide (rs ≫= fst = [])) as [->|].
Defined.

Definition sds_lib : XdsLib := test_lib [] [] [] [] [mkXSecret "default" (Some (Secret_ValidationContext None))] [] [].
Definition sds_response : DiscoveryResponse :=
  mkDiscoveryResponse "v1" [mkAny "" "default"] "type.googleapis.com/envoy.extensions.transport_sockets.tls.v3.Secret" "n".

Lemma secrets_never_initialised_witness :
  @translate map_order sds_lib initial_provisioner sds_response = Panic "assignment to entry in nil map".
Proof.
  apply (@secrets_never_initialised map_order sds_lib (λ _, True) example_env "unknown" None example_config
    initial_provisioner ∅ initial_provisioner ∅).
  - reflexivity.
  - apply rtc_refl.
  - reflexivity.
  - exists (mkAny "" "default"), (mkXSecret "default" (Some (Secret_ValidationContext None))).
    split; [by left|reflexivity].
Defined.

Definition no_amesh_config : Config := mkConfig "run" "" "" "grpc://istiod:15010" "" 0 "ns" "10.0.0.1".
Definition no_amesh_provisioner : xdsProvisioner :=
  match NewXDSProvisioner example_env "unknown" None no_amesh_config with
  | inl p => p
  | inr _ => initial_provisioner
  end.

Lemma no_amesh_source_panics_witness :
  @GetData map_order no_amesh_provisioner "status" = Panic "nil pointer dereference: p.amesh".
Proof.
  apply (@no_amesh_source_panics map_order example_lib example_env "unknown" no_amesh_config no_amesh_provisioner
    [] "80" example_vhost example_route
    (mkRouteParts example_match "v2" "/api*" [[VarStr "request_method"; VarStr "~~"; VarStr "^GET$"]])).
  - reflexivity.
  - reflexivity.
  - vm_compute. reflexivity.
Defined.

Definition leaky_upstream : Upstream := set_Upstream_Nodes [mkNode "10.0.0.1" 80 100 None] (@base_Upstream ups_lib "c").
Definition leaky_provisioner : xdsProvisioner := set_upstreams {["c" := leaky_upstream]} initial_provisioner.
Definition leaky_store : gmap string string :=
  match Marshal leaky_upstream with Some s => {[ "/upstreams/<c>" := s ]} | None => ∅ end.
Definition empty_cds : DiscoveryResponse :=
  mkDiscoveryResponse "v2" [] "type.googleapis.com/envoy.config.cluster.v3.Cluster" "n2".

Lemma stale_upstream_witness : ∃ p1 r1 e1 p2 r2 e2,
  @translate map_order ups_lib leaky_provisioner cds_response = Ret (p1, r1, e1) ∧
  @translate map_order ups_lib p1 empty_cds = Ret (p2, r2, e2) ∧ XP_upstreams p2 = ∅.
Proof.
  destruct (@stale_upstream map_order ups_lib leaky_provisioner leaky_store "c" leaky_upstream eds_cluster cds_response
    empty_cds (mkAny "" "c")) as (p1 & r1 & e1 & p2 & r2 & e2 & H1 & H2 & H3 & _); try reflexivity.
  - discriminate.
  - eexists. vm_compute. reflexivity.
  - exists p1, r1, e1, p2, r2, e2. split; [exact H1|]. split; [exact H2|exact H3].
Defined.

Definition prometheus_route : Route :=
  set_Route_Plugins {["prometheus" := PlPrometheus (mkPrometheus true)]} (@base_route example_lib [] "" "" "" "" "" 0 [] None).
Definition refreshed : xdsProvisioner * list effect :=
  match @UpdateRoutesPlugin map_order (set_amesh (Some example_am) (set_routes [prometheus_route] initial_provisioner)) with
  | Ret r => r
  | Panic _ => (initial_provisioner, [])
  end.

Lemma UpdateRoutesPlugin_drops_witness :
  length (XP_routes refreshed.1) = 1%nat ∧ ∀ r, r ∈ XP_routes refreshed.1 → Route_Plugins r !! "prometheus" = None.
Proof.
  apply (@UpdateRoutesPlugin_drops map_order (set_amesh (Some example_am) (set_routes [prometheus_route] initial_provisioner))
    example_am refreshed.1 refreshed.2 "prometheus").
  - reflexivity.
  - apply example_keyed.
  - vm_compute. reflexivity.
  - vm_compute. reflexivity.
  - discriminate.
  - discriminate.
Defined.
