(* ===== verification/Concurrency.v ===== *)
(** * Goroutines: the plugin lock and the reconnections

    Two interleavings of the provisioners' goroutines as transition systems.

    [plugin_step]: the goroutines that handle controller messages
    ([updatePlugins]) take the write lock [configLock] and send on the
    unbuffered [evChan] while they hold it; the listener goroutine of [run]
    receives from [evChan] and then patches the routes one by one, for each of
    which it needs the read lock ([GetPlugins]).

    [Run] of Provisioner.v: what the connection loop leaves behind when the
    client is reset. *)

From stdpp Require Import relations.
From S2P Require Import Prelude GoStrings GoNum Json Apisix Xds StringSet Manifest.
From S2P Require Import AmeshPlugins RouteTranslator RouteSpec Provisioner.
Local Open Scope Z_scope.

(** ** The plugin lock *)

(** The goroutine of a controller message that holds the lock: about to send, or
    past the send and about to unlock. *)
Inductive holder_pc : Type := Sending | Unlocking.

(** The listener: at the receive, or in the loop of [updateRoutesPluginManifest]
    with the routes that it has patched and those that are left. *)
Inductive listener_pc : Type :=
| Receiving
| Patching (newRoutes oldRoutes : list Route).

Record plugin_state := mkPluginState {
  PS_waiting : list PluginsResponse;       (** goroutines blocked in [configLock.Lock] *)
  PS_holder : option holder_pc;
  PS_listener : listener_pc;
  PS_prov : xdsProvisioner;
  PS_effects : list effect
}.

Section Concurrency.
Context `{GoRange} `{XdsLib}.

(** The state that [updatePlugins] writes under the lock. *)
Definition install (p : xdsProvisioner) (resp : PluginsResponse) : xdsProvisioner :=
  match XP_amesh p with
  | Some am => set_amesh (Some (updatePlugins am resp).1) p
  | None => p
  end.

(** The listener reads the plugins only inside the loop over the routes.  The
    responses that change the routes are not part of these goroutines. *)
Inductive plugin_step : plugin_state → plugin_state → Prop :=
| StepArrive ws h l p es resp :
    PR_ErrorMessage resp = None →
    plugin_step (mkPluginState ws h l p es) (mkPluginState (ws ++ [resp]) h l p es)
| StepLock ws1 resp ws2 l p es :
    plugin_step (mkPluginState (ws1 ++ resp :: ws2) None l p es)
                (mkPluginState (ws1 ++ ws2) (Some Sending) l (install p resp) es)
| StepSend ws p es :
    plugin_step (mkPluginState ws (Some Sending) Receiving p es)
                (mkPluginState ws (Some Unlocking) (Patching [] (XP_routes p)) p es)
| StepUnlock ws l p es :
    plugin_step (mkPluginState ws (Some Unlocking) l p es) (mkPluginState ws None l p es)
| StepPatch ws newRoutes newRoutes' oldRoute oldRoutes p es :
    update_route_plugins p newRoutes oldRoute = Ret newRoutes' →
    plugin_step (mkPluginState ws None (Patching newRoutes (oldRoute :: oldRoutes)) p es)
                (mkPluginState ws None (Patching newRoutes' oldRoutes) p es)
| StepEvents ws h newRoutes p es :
    plugin_step (mkPluginState ws h (Patching newRoutes []) p es)
      (mkPluginState ws h Receiving (set_routes newRoutes p) (es ++ [SendEvents
        (generateIncrementalEvents (Some (mkManifest newRoutes [])) (Some (mkManifest (XP_routes p) [])))])).

(** Nobody can take the lock, and nobody receives. *)
Definition deadlocked (newRoutes oldRoutes : list Route) (st : plugin_state) : Prop :=
  PS_holder st = Some Sending ∧ PS_listener st = Patching newRoutes oldRoutes ∧ oldRoutes ≠ [].

Lemma deadlocked_step ns os st st' :
  plugin_step st st' → deadlocked ns os st → deadlocked ns os st' ∧ PS_effects st' = PS_effects st.
Proof. intros Hstep (Hh & Hl & Hr). unfold deadlocked. destruct Hstep; cbn in *; try done; naive_solver. Qed.

Lemma deadlocked_forever ns os st st' :
  rtc plugin_step st st' → deadlocked ns os st → deadlocked ns os st' ∧ PS_effects st' = PS_effects st.
Proof.
  induction 1 as [|st1 st2 st3 Hstep _ IH]; [done|]. intros Hd.
  destruct (deadlocked_step _ _ _ _ Hstep Hd) as [Hd2 <-]. by apply IH.
Qed.

Definition initial_plugins (p : xdsProvisioner) : plugin_state := mkPluginState [] None Receiving p [].

(** What no step changes: the Amesh source is there. *)
Lemma plugin_amesh st st' : plugin_step st st' → is_Some (XP_amesh (PS_prov st)) → is_Some (XP_amesh (PS_prov st')).
Proof.
  intros Hstep Ha. destruct Hstep as [|ws1 resp ws2 l p es| | | |ws h ns p es]; cbn in *; try done; [|by destruct p].
  unfold install. destruct Ha as [am Ham]. rewrite Ham. by destruct p.
Qed.

Lemma plugin_amesh_reach st st' : rtc plugin_step st st' → is_Some (XP_amesh (PS_prov st)) → is_Some (XP_amesh (PS_prov st')).
Proof. induction 1; [done|]. intros. eauto using plugin_amesh. Qed.

(** Without routes the listener has nothing to read. *)
Definition routeless (st : plugin_state) : Prop :=
  XP_routes (PS_prov st) = [] ∧ (PS_listener st = Receiving ∨ PS_listener st = Patching [] []).

Lemma install_routes p resp : XP_routes (install p resp) = XP_routes p.
Proof. unfold install. destruct (XP_amesh p); by destruct p. Qed.

Lemma routeless_reach st st' : rtc plugin_step st st' → routeless st → routeless st'.
Proof.
  induction 1 as [|st1 st2 st3 Hstep _ IH]; [done|]. intros [Hr Hl]. apply IH.
  destruct Hstep as [|ws1 resp ws2 l p es|ws p es| | |ws h ns p es]; unfold routeless; cbn in *; try done.
  - by rewrite install_routes.
  - rewrite Hr. auto.
  - by destruct Hl.
  - destruct Hl as [?|[= ->]]; [done|]. destruct p. auto.
Qed.

(** Alone, the listener's steps are [UpdateRoutesPlugin]. *)
Lemma patching_steps ws p es oldRoutes : ∀ newRoutes routes,
  go_foldl (update_route_plugins p) newRoutes oldRoutes = Ret routes →
  rtc plugin_step (mkPluginState ws None (Patching newRoutes oldRoutes) p es) (mkPluginState ws None (Patching routes []) p es).
Proof.
  induction oldRoutes as [|r rs IH]; intros ns routes Hf; [injection Hf as <-; apply rtc_refl|].
  apply bind_ret in Hf as (ns' & Hu & Hf). eapply rtc_l; [by apply StepPatch|by apply IH].
Qed.

Lemma patching_UpdateRoutesPlugin ws p p' es es' :
  UpdateRoutesPlugin p = Ret (p', es') →
  rtc plugin_step (mkPluginState ws None (Patching [] (XP_routes p)) p es) (mkPluginState ws None Receiving p' (es ++ es')).
Proof.
  unfold UpdateRoutesPlugin, updateRoutesPluginManifest. intros ([p1 [new old]] & Hm & Hu)%bind_ret. injection Hu as <- <-.
  apply bind_ret in Hm as (routes & Hf & Hm). injection Hm as <- <- <-.
  eapply rtc_r; [by apply patching_steps|apply StepEvents].
Qed.

(** ** Properties *)

(** C37. When there are routes, two controller messages in a row can block the
    plugin updates for good: after the first one is received, the second one
    takes the lock before the listener has patched its first route, and waits
    for a receiver while the listener waits for the lock; as long as only these
    goroutines run, no later message is received and no event is sent.
    Without routes the listener never needs the lock, and nobody blocks it. *)
Theorem updatePlugins_deadlock p resp1 resp2 :
  PR_ErrorMessage resp1 = None → PR_ErrorMessage resp2 = None →
  (XP_routes p ≠ [] →
   ∃ st, rtc plugin_step (initial_plugins p) st ∧
     ∀ st', rtc plugin_step st st' →
       PS_holder st' = Some Sending ∧ PS_listener st' = Patching [] (XP_routes p) ∧ PS_effects st' = []) ∧
  (XP_routes p = [] →
   ∀ st, rtc plugin_step (initial_plugins p) st → PS_holder st = Some Sending → ∃ st', rtc plugin_step st st' ∧ PS_holder st' = Some Unlocking).
Proof.
  intros H1 H2. split.
  - intros Hr.
    exists (mkPluginState [] (Some Sending) (Patching [] (XP_routes p)) (install (install p resp1) resp2) []). split.
    + unfold initial_plugins. eapply rtc_l; [by apply (StepArrive [] None Receiving p [] resp1)|].
      eapply rtc_l; [by apply (StepArrive [resp1] None Receiving p [] resp2)|].
      eapply rtc_l; [apply (StepLock [] resp1 [resp2])|].
      eapply rtc_l; [apply StepSend|]. eapply rtc_l; [apply StepUnlock|].
      eapply rtc_l; [apply (StepLock [] resp2 [])|]. rewrite install_routes. apply rtc_refl.
    + intros st' Hreach. by destruct (deadlocked_forever [] (XP_routes p) _ _ Hreach) as [(Hh & Hl & _) He].
  - intros Hr st Hreach Hh. destruct (routeless_reach _ _ Hreach) as [Hr' Hl]; [by split; [|left]|].
    destruct st as [ws h l q es]; cbn in *. subst h. destruct Hl as [->| ->].
    + eexists. split; [apply rtc_once, StepSend|done].
    + eexists. split; [eapply rtc_l; [apply StepEvents|apply rtc_once, StepSend]|done].
Qed.

(** That is the only way to block: from the initial state, with an Amesh
    source, every reachable state in which a message is pending, the lock is
    held or the listener has work to do, and that is not that deadlock, has a
    step of one of these goroutines. *)
Lemma plugin_progress p st :
  is_Some (XP_amesh p) → rtc plugin_step (initial_plugins p) st →
  PS_waiting st ≠ [] ∨ is_Some (PS_holder st) ∨ PS_listener st ≠ Receiving →
  (∃ newRoutes oldRoutes, deadlocked newRoutes oldRoutes st) ∨
  ∃ st', plugin_step st st' ∧ (length (PS_waiting st') ≤ length (PS_waiting st))%nat.
Proof.
  intros Ha Hreach Hwork. assert (is_Some (XP_amesh (PS_prov st))) as [am Ham] by (by eapply plugin_amesh_reach).
  destruct st as [ws h l q es]; cbn in *. destruct l as [|ns [|r rs]].
  - right. destruct h as [[]|]; [eexists; split; [apply StepSend|done]|eexists; split; [apply StepUnlock|done]|].
    destruct ws as [|resp ws]; [naive_solver|]. eexists. split; [apply (StepLock [] resp ws)|cbn; lia].
  - right. eexists. split; [apply StepEvents|done].
  - destruct h as [[]|]; [left; by exists ns, (r :: rs)|right..].
    + eexists. split; [apply StepUnlock|done].
    + eexists. split; [apply StepPatch|done].
      unfold update_route_plugins, patchAmeshPlugins. by rewrite Ham.
Qed.

(** ** Reconnections *)

Definition all_ok : attempt := mkAttempt true true true true.

Definition reconnects (err : error) (n : nat) : list run_input := mjoin (replicate n [Attempted all_ok; RunReset err]).

Definition running (g : goroutine) (gs : list goroutine) : nat := count_occ goroutine_eq_dec gs g.

Lemma count_occ_app' g l1 l2 : running g (l1 ++ l2) = (running g l1 + running g l2)%nat.
Proof. apply count_occ_app. Qed.

Lemma run_running p g : g ∈ [GoSendLoop; GoTranslateLoop; GoPlugins] → running g (run p).2 = 1%nat.
Proof.
  intros Hg. unfold run. cbn [snd]. rewrite count_occ_app'.
  rewrite !elem_of_cons, elem_of_nil in Hg. destruct Hg as [->|[->|[->|[]]]]; by destruct (0 <? XP_syncInterval p).
Qed.

(** Nothing stops the loops of a connection that was reset: after [n] resets
    there are [n] send loops, [n] translate loops and [n] plugin listeners,
    sharing the channels of the next connection; the flags say disconnected but
    the provisioner still reports that it is ready. *)
Lemma Run_leaks_goroutines p err n :
  let '(p', phase, gs) := Run p (reconnects err (S n)) in
  phase = Connecting ∧ running GoSendLoop gs = S n ∧ running GoTranslateLoop gs = S n ∧ running GoPlugins gs = S n ∧
  XP_adsConnected p' = false ∧ XP_sdsConnected p' = false ∧ XP_ready p' = true.
Proof.
  assert (∀ m q gs0, (m = 0 → XP_ready q = true ∧ XP_adsConnected q = false ∧ XP_sdsConnected q = false)%nat →
    let '(p', phase, gs) := foldl Run_step (q, Connecting, gs0) (reconnects err m) in
    phase = Connecting ∧ running GoSendLoop gs = (running GoSendLoop gs0 + m)%nat ∧
    running GoTranslateLoop gs = (running GoTranslateLoop gs0 + m)%nat ∧ running GoPlugins gs = (running GoPlugins gs0 + m)%nat ∧
    XP_adsConnected p' = false ∧ XP_sdsConnected p' = false ∧ XP_ready p' = true) as Hgen.
  { induction m as [|m IH]; intros q gs0 Hq.
    - cbn. destruct (Hq eq_refl) as (? & ? & ?). split_and!; (done || lia).
    - unfold reconnects. cbn [replicate mjoin list_join]. cbn [app foldl].
      change (mjoin (replicate m [Attempted all_ok; RunReset err])) with (reconnects err m).
      set (q1 := set_sdsConnected true (set_adsConnected true q)).
      change (Run_step (q, Connecting, gs0) (Attempted all_ok)) with ((run q1).1, Serving, gs0 ++ (run q1).2).
      change (Run_step ((run q1).1, Serving, gs0 ++ (run q1).2) (RunReset err))
        with (set_sdsConnected false (set_adsConnected false (run q1).1), Connecting, gs0 ++ (run q1).2).
      specialize (IH (set_sdsConnected false (set_adsConnected false (run q1).1)) (gs0 ++ (run q1).2)).
      destruct (foldl Run_step _ (reconnects err m)) as [[p' phase] gs].
      rewrite !count_occ_app', !run_running in IH by set_solver.
      destruct IH as (? & ? & ? & ? & ? & ? & ?); [intros _; by destruct q|]. split_and!; (done || lia). }
  unfold Run. specialize (Hgen (S n) p [] ltac:(done)). by destruct (foldl _ _ _) as [[? ?] ?].
Qed.
End Concurrency.

(** ** Witnesses *)

Definition empty_response : PluginsResponse := mkPluginsResponse None [].
Definition example_xds : xdsProvisioner :=
  mkXdsProvisioner "istiod:15010" (mkXNode "sidecar~1~2~d" "amesh/unknown") (Some example_am) 0 None [] [] ∅ None ∅
    true true true.

Definition example_routed : xdsProvisioner := set_routes [example_result] example_xds.

Lemma updatePlugins_deadlock_witness :
  ∃ st, rtc (@plugin_step map_order) (initial_plugins example_routed) st ∧
    PS_listener st = Patching [] [example_result] ∧ PS_holder st = Some Sending.
Proof.
  destruct (@updatePlugins_deadlock map_order example_routed empty_response empty_response eq_refl eq_refl)
    as [Hblocks _].
  destruct Hblocks as (st & Hreach & Hst); [discriminate|].
  exists st. destruct (Hst st (rtc_refl _ _)) as (Hh & Hl & _). split; [exact Hreach|]. split; [exact Hl|exact Hh].
Defined.

Lemma plugin_progress_witness :
  ∃ st', @plugin_step map_order (mkPluginState [empty_response] None Receiving example_xds []) st'.
Proof.
  destruct (@plugin_progress map_order example_xds (mkPluginState [empty_response] None Receiving example_xds []))
    as [(ns & os & Hh & _)|(st' & Hstep & _)].
  - eexists. reflexivity.
  - apply rtc_once. apply (@StepArrive map_order [] None Receiving example_xds [] empty_response). reflexivity.
  - left. discriminate.
  - discriminate Hh.
  - exists st'. exact Hstep.
Defined.
