(* ===== verification/ControllerTypes.v ===== *)
(** * Data of the controller and the Kubernetes interface it uses

    The custom resource (src/controller/apis/amesh/v1alpha1/
    ameshpluginconfig_types.go) and the messages of
    src/controller/pkg/types/types.go.  Label selectors, keys and status
    conditions belong to Kubernetes' apimachinery: their data are records and
    their functions the parameters of [K8sLib], whose documented behaviour is
    stated by [K8sLaws]; [k8s_example] is a concrete instance. *)

From S2P Require Import Prelude GoStrings StringSet.
Local Open Scope Z_scope.

(** ** Kubernetes data *)

Record LabelSelectorRequirement := mkLabelSelectorRequirement {
  LSR_Key : string;
  LSR_Operator : string;
  LSR_Values : list string
}.

Record LabelSelector := mkLabelSelector {
  LS_MatchLabels : gmap string string;
  LS_MatchExpressions : list LabelSelectorRequirement
}.

(** [labels.Requirement]: key, operator, values. *)
Record Requirement := mkRequirement {
  Req_Key : string;
  Req_Operator : string;
  Req_Values : gset string
}.

Record Condition := mkCondition {
  Cond_Type : string;
  Cond_Status : string;
  Cond_ObservedGeneration : Z;
  Cond_LastTransitionTime : Z;     (** 0 when it is not set *)
  Cond_Reason : string;
  Cond_Message : string
}.

Record Pod := mkPod {
  Pod_Namespace : string;
  Pod_Name : string;
  Pod_Labels : gmap string string;
  Pod_ResourceVersion : string
}.

#[export] Instance condition_eq_dec : EqDecision Condition.
Proof. solve_decision. Defined.

(** The functions of apimachinery and client-go.  A [labels.Selector] is an
    interface value: [None] is the nil one. *)
Class K8sLib := {
  Selector : Type;
  Everything : Selector;
  Matches : Selector → gmap string string → bool;
  Requirements : Selector → list Requirement * bool;
  LabelSelectorAsSelector : LabelSelector → option Selector + error;
  NamespacedName_String : string → string → string;
  MetaNamespaceKey : string → string → string + error;
  SplitMetaNamespaceKey : string → (string * string) + error;
  IsNotFound : error → bool;
  FindStatusCondition : list Condition → string → option Condition;
  SetStatusCondition : Z → list Condition → Condition → list Condition     (** at the given time *)
}.

(** The condition with another time of its last transition. *)
Definition at_time (time : Z) (c : Condition) : Condition :=
  mkCondition (Cond_Type c) (Cond_Status c) (Cond_ObservedGeneration c) time (Cond_Reason c) (Cond_Message c).

(** What their documentation says. *)
Class K8sLaws `{K8sLib} := {
  Matches_Everything : ∀ labels, Matches Everything labels = true;
  LabelSelectorAsSelector_not_nil : ∀ ls, LabelSelectorAsSelector ls ≠ inl None;
  NamespacedName_String_eq : ∀ ns name, NamespacedName_String ns name = ns +:+ "/" +:+ name;
  MetaNamespaceKey_eq : ∀ ns name, ns ≠ "" → MetaNamespaceKey ns name = inl (ns +:+ "/" +:+ name);
  SplitMetaNamespaceKey_eq : ∀ ns name, ¬ Contains ns "/" → ¬ Contains name "/" →
    SplitMetaNamespaceKey (ns +:+ "/" +:+ name) = inl (ns, name);
  FindStatusCondition_Set : ∀ now cs c,
    ∃ time, FindStatusCondition (SetStatusCondition now cs c) (Cond_Type c) = Some (at_time time c);
  FindStatusCondition_Set_ne : ∀ now cs c t, t ≠ Cond_Type c →
    FindStatusCondition (SetStatusCondition now cs c) t = FindStatusCondition cs t;
  (** the time changes with the status only *)
  SetStatusCondition_again : ∀ now now' cs c,
    SetStatusCondition now' (SetStatusCondition now cs c) c = SetStatusCondition now cs c
}.

(** ** The custom resource *)

Record AmeshPluginConfigPlugin := mkAmeshPluginConfigPlugin {
  Plugin_Type : string;
  Plugin_Name : string;
  Plugin_Config : string
}.

Record AmeshPluginConfigSpec := mkAmeshPluginConfigSpec {
  Spec_Plugins : list AmeshPluginConfigPlugin;
  Spec_Selector : option LabelSelector
}.

Record AmeshPluginConfigResource := mkAmeshPluginConfigResource {
  Res_Namespace : string;
  Res_Name : string;
  Res_ResourceVersion : string;
  Res_Generation : Z;
  Res_DeletionTimestamp : option Z;
  Res_Spec : AmeshPluginConfigSpec;
  Res_Conditions : list Condition     (** of the status *)
}.

(** ** controller/pkg/types *)

Record PodPluginConfig := mkPodPluginConfig {
  PPC_Name : string;
  PPC_Plugins : list AmeshPluginConfigPlugin;
  PPC_Version : string
}.

Record UpdatePodPluginConfigEvent := mkUpdatePodPluginConfigEvent {
  UE_Namespace : string;
  UE_Pods : gset string
}.

(** ** Listers

    A lister reads the informer's cache.  It is given a possibly nil selector,
    and what it does with a nil one is left open. *)

Definition pod_lister `{K8sLib} : Type := string → option Selector → outcome (list Pod + error).

(** Its documented result on the pods of a cluster: those of the namespace
    whose labels the selector matches. *)
Definition selected `{K8sLib} (pods : list Pod) (ns : string) (sel : Selector) (l : list Pod) : Prop :=
  ∀ pod, pod ∈ l ↔ pod ∈ pods ∧ Pod_Namespace pod = ns ∧ Matches sel (Pod_Labels pod) = true.

Definition lists `{K8sLib} (pods : list Pod) (lister : pod_lister) : Prop :=
  ∀ ns sel, (∃ l, lister ns (Some sel) = Ret (inl l) ∧ selected pods ns sel l) ∨
            (∃ err, lister ns (Some sel) = Ret (inr err)).

(** The names of a list of pods, as [sets.String]. *)
Definition pod_names (pods : list Pod) : gset string :=
  foldl (λ s pod, {[Pod_Name pod]} ∪ s) ∅ pods.

Lemma elem_of_pod_names pods name :
  name ∈ pod_names pods ↔ ∃ pod, pod ∈ pods ∧ Pod_Name pod = name.
Proof.
  unfold pod_names. induction pods as [|pod pods IH] using rev_ind.
  - set_solver.
  - rewrite foldl_app. cbn. rewrite elem_of_union, IH, elem_of_singleton.
    setoid_rewrite elem_of_app. setoid_rewrite list_elem_of_singleton. naive_solver.
Qed.

(** ** A concrete instance: selectors are conjunctions of equalities *)

Definition example_split (key : string) : (string * string) + error :=
  match Split key "/" with
  | [ns; name] => inl (ns, name)
  | _ => inr (Errorf "unexpected key format")
  end.

Definition example_find (cs : list Condition) (t : string) : option Condition :=
  snd <$> list_find (λ c, Cond_Type c = t) cs.

Fixpoint example_set (now : Z) (cs : list Condition) (c : Condition) : list Condition :=
  match cs with
  | [] => [if Cond_LastTransitionTime c =? 0 then at_time now c else c]
  | old :: cs =>
      if decide (Cond_Type old = Cond_Type c) then
        (if decide (Cond_Status old = Cond_Status c) then at_time (Cond_LastTransitionTime old) c
         else if Cond_LastTransitionTime c =? 0 then at_time now c else c) :: cs
      else old :: example_set now cs c
  end.

Definition k8s_example : K8sLib := {|
  Selector := gmap string string;
  Everything := ∅;
  Matches sel labels := bool_decide (map_Forall (λ k v, labels !! k = Some v) sel);
  Requirements sel := (map (λ '(k, v), mkRequirement k "=" {[v]}) (map_to_list sel), true);
  LabelSelectorAsSelector ls :=
    match LS_MatchExpressions ls with
    | [] => inl (Some (LS_MatchLabels ls))
    | _ => inr (Errorf "unsupported operator")
    end;
  NamespacedName_String ns name := ns +:+ "/" +:+ name;
  MetaNamespaceKey ns name := inl (if bool_decide (ns = "") then name else ns +:+ "/" +:+ name);
  SplitMetaNamespaceKey := example_split;
  IsNotFound e := bool_decide (e = Errorf "not found");
  FindStatusCondition := example_find;
  SetStatusCondition := example_set
|}.

Lemma Split_sep a sep b : ¬ Contains a (String sep "") →
  Split (a +:+ String sep b) sep = a :: Split b sep.
Proof.
  induction a as [|c a IH]; intros Ha.
  - change ("" +:+ String sep b) with (String sep b). cbn [Split]. by rewrite Ascii.eqb_refl.
  - rewrite append_cons. cbn [Split]. cbn [Contains] in Ha. apply Is_true_false_1, orb_false_iff in Ha as [Hc Ha].
    destruct (Ascii.eqb_spec c sep) as [->|Hne].
    + cbn [HasPrefix] in Hc. rewrite Ascii.eqb_refl in Hc. by destruct a.
    + rewrite IH; [done|]. intros H. by rewrite Ha in H.
Qed.

Lemma Split_none a sep : ¬ Contains a (String sep "") → Split a sep = [a].
Proof.
  induction a as [|c a IH]; intros Ha; [done|]. cbn [Split].
  cbn [Contains] in Ha. apply Is_true_false_1, orb_false_iff in Ha as [Hc Ha].
  destruct (Ascii.eqb_spec c sep) as [->|Hne].
  - cbn [HasPrefix] in Hc. rewrite Ascii.eqb_refl in Hc. by destruct a.
  - rewrite IH; [done|]. intros H. by rewrite Ha in H.
Qed.

Lemma example_split_eq ns name : ¬ Contains ns "/" → ¬ Contains name "/" →
  example_split (ns +:+ "/" +:+ name) = inl (ns, name).
Proof.
  intros Hns Hn. unfold example_split. change ("/" +:+ name) with (String "/" name).
  by rewrite Split_sep, Split_none.
Qed.

Lemma example_find_cons c cs t :
  example_find (c :: cs) t = if decide (t = Cond_Type c) then Some c else example_find cs t.
Proof.
  unfold example_find. cbn. destruct (decide (Cond_Type c = t)) as [<-|Hne].
  - by rewrite decide_True.
  - rewrite decide_False by congruence. by destruct (list_find _ cs) as [[]|].
Qed.

(** [example_set] replaces the first condition of the type, or appends it. *)
Lemma example_set_shape now cs c : ∃ time,
  (example_set now cs c = cs ++ [at_time time c] ∧ Forall (λ old, Cond_Type old ≠ Cond_Type c) cs) ∨
  ∃ before old after, cs = before ++ old :: after ∧ Cond_Type old = Cond_Type c ∧
    example_set now cs c = before ++ at_time time c :: after ∧ Forall (λ old, Cond_Type old ≠ Cond_Type c) before.
Proof.
  assert (c = at_time (Cond_LastTransitionTime c) c) as Hc by (by destruct c).
  assert (∃ time, (if Cond_LastTransitionTime c =? 0 then at_time now c else c) = at_time time c) as [time Ht].
  { destruct (_ =? 0); eauto. }
  induction cs as [|old cs (time' & IH)]; cbn [example_set].
  - exists time. left. by rewrite Ht.
  - destruct (decide (Cond_Type old = Cond_Type c)) as [He|He].
    + destruct (decide _); [exists (Cond_LastTransitionTime old)|exists time]; right; eexists [], old, _;
        rewrite ?Ht; split_and!; (done || constructor).
    + exists time'. destruct IH as [[-> Hall]|(before & old' & after & -> & Ho & -> & Hall)].
      * left. split; [done|by constructor].
      * right. exists (old :: before), old', after. split_and!; try done. by constructor.
Qed.

Lemma example_find_skip before cs t :
  Forall (λ old, Cond_Type old ≠ t) before → example_find (before ++ cs) t = example_find cs t.
Proof.
  induction 1 as [|old before Hne _ IH]; [done|]. cbn [app]. by rewrite example_find_cons, decide_False by congruence.
Qed.

Lemma example_find_set now cs c : ∃ time, example_find (example_set now cs c) (Cond_Type c) = Some (at_time time c).
Proof.
  destruct (example_set_shape now cs c) as (time & [[-> Hall]|(before & old & after & _ & _ & -> & Hall)]);
    exists time; by rewrite example_find_skip, example_find_cons, decide_True.
Qed.

Lemma example_find_set_ne now cs c t : t ≠ Cond_Type c → example_find (example_set now cs c) t = example_find cs t.
Proof.
  intros Ht. induction cs as [|old cs IH]; cbn [example_set].
  - rewrite example_find_cons. destruct (_ =? 0); by rewrite decide_False.
  - destruct (decide (Cond_Type old = Cond_Type c)) as [He|He]; rewrite !example_find_cons.
    + rewrite (decide_False (P := t = Cond_Type old)) by congruence.
      destruct (decide (Cond_Status old = _)); [|destruct (_ =? 0)]; by rewrite decide_False.
    + by rewrite IH.
Qed.

Lemma example_set_replaces now before time c after :
  Forall (λ old, Cond_Type old ≠ Cond_Type c) before →
  example_set now (before ++ at_time time c :: after) c = before ++ at_time time c :: after.
Proof.
  induction 1 as [|old before Hne _ IH]; cbn [app example_set].
  - by rewrite !decide_True.
  - by rewrite decide_False, IH.
Qed.

Lemma example_set_again now now' cs c : example_set now' (example_set now cs c) c = example_set now cs c.
Proof.
  destruct (example_set_shape now cs c) as (time & [[-> Hall]|(before & old & after & _ & _ & -> & Hall)]);
    by apply example_set_replaces.
Qed.

#[export] Instance k8s_example_laws : @K8sLaws k8s_example.
Proof.
  split; cbn.
  - intros labels. apply bool_decide_eq_true, map_Forall_empty.
  - intros ls. by destruct (LS_MatchExpressions ls).
  - done.
  - intros ns name Hns. by rewrite bool_decide_false.
  - apply example_split_eq.
  - apply example_find_set.
  - apply example_find_set_ne.
  - apply example_set_again.
Qed.
