(* ===== verification/ControllerUtils.v ===== *)
(** * Comparisons of the controller (src/controller/utils/compare.go, status.go)

    The functions with which the reconciler decides which pods to notify. *)

From S2P Require Import Prelude GoStrings StringSet ControllerTypes.
Local Open Scope Z_scope.

Section Utils.
Context `{GoRange} `{K8sLib}.

(** [string(plugin.Type)+plugin.Name] *)
Definition plugin_key (plugin : AmeshPluginConfigPlugin) : string :=
  Plugin_Type plugin +:+ Plugin_Name plugin.

Definition plugin_map (plugins : list AmeshPluginConfigPlugin) : gmap string string :=
  foldl (λ m plugin, <[plugin_key plugin := Plugin_Config plugin]> m) ∅ plugins.

(** The loop [for key, new := range newMap] that compares with the old map. *)
Definition included {A} `{EqDecision A} (seed : string) (newMap oldMap : gmap string A) : bool :=
  forallb (λ '(key, newValue),
    match oldMap !! key with
    | None => false
    | Some oldValue => bool_decide (newValue = oldValue)
    end) (range seed newMap).

Definition PluginsConfigEqual (oldPlugins newPlugins : list AmeshPluginConfigPlugin) : bool :=
  if negb (Nat.eqb (length oldPlugins) (length newPlugins)) then false
  else included "plugins" (plugin_map newPlugins) (plugin_map oldPlugins).

Definition requirement_map (reqs : list Requirement) : gmap string (gset string) :=
  foldl (λ m req, <[Req_Key req +:+ Req_Operator req := Req_Values req]> m) ∅ reqs.

(** [LabelSelectorEqual]; the trace it prints to the standard output is left out. *)
Definition LabelSelectorEqual (oldSelector newSelector : Selector) : bool :=
  let '(oldReqs, oldSelectable) := Requirements oldSelector in
  let '(newReqs, newSelectable) := Requirements newSelector in
  if negb (Bool.eqb oldSelectable newSelectable) then false
  else if Nat.eqb (length oldReqs) 0 && Nat.eqb (length newReqs) 0 then true
  else if negb (Nat.eqb (length oldReqs) (length newReqs)) then false
  else included "requirements" (requirement_map newReqs) (requirement_map oldReqs).

Definition LabelsEqual (oldLabels newLabels : gmap string string) : bool :=
  if negb (Nat.eqb (size oldLabels) (size newLabels)) then false
  else included "labels" newLabels oldLabels.

(** The result of [DiffPods]: pods only in the old, in both, only in the new. *)
Record pods_diff := mkPodsDiff {
  onlyInOld : gset string;
  both : gset string;
  onlyInNew : gset string
}.

(** One loop of [DiffPods]: [m] is the map that both of its lookups read. *)
Definition diff_old (m : gset string) (d : pods_diff) (pod : Pod) : pods_diff :=
  let inOld := bool_decide (Pod_Name pod ∈ m) in
  let inNew := bool_decide (Pod_Name pod ∈ m) in
  if inOld && inNew then mkPodsDiff (onlyInOld d) ({[Pod_Name pod]} ∪ both d) (onlyInNew d)
  else mkPodsDiff ({[Pod_Name pod]} ∪ onlyInOld d) (both d) (onlyInNew d).

Definition diff_new (m : gset string) (d : pods_diff) (pod : Pod) : pods_diff :=
  let inOld := bool_decide (Pod_Name pod ∈ m) in
  let inNew := bool_decide (Pod_Name pod ∈ m) in
  if inOld && inNew then mkPodsDiff (onlyInOld d) ({[Pod_Name pod]} ∪ both d) (onlyInNew d)
  else mkPodsDiff (onlyInOld d) (both d) ({[Pod_Name pod]} ∪ onlyInNew d).

Definition DiffPods (lister : pod_lister) (ns : string) (oldSelector newSelector : option Selector) :
    outcome (pods_diff + error) :=
  oldPods ← lister ns oldSelector;
  match oldPods with
  | inr err => Ret (inr err)
  | inl oldPods =>
      newPods ← lister ns newSelector;
      match newPods with
      | inr err => Ret (inr err)
      | inl newPods =>
          let oldMap := pod_names oldPods in
          let newMap := pod_names newPods in
          let d := foldl (diff_old oldMap) (mkPodsDiff ∅ ∅ ∅) oldPods in
          Ret (inl (foldl (diff_new newMap) d newPods))
      end
  end.

(** ** status.go *)

Definition ConditionSync : string := "Sync".
Definition ConditionSyncSuccess : string := "Sync Success".
Definition ResourceReconciled : string := "Reconciled".

Definition VerifyGeneration (conditions : list Condition) (newCondition : Condition) : bool :=
  match FindStatusCondition conditions (Cond_Type newCondition) with
  | Some existingCondition =>
      negb (Cond_ObservedGeneration newCondition <? Cond_ObservedGeneration existingCondition)
  | None => true
  end.

(** ** Lemmas *)

Lemma included_spec {A} `{EqDecision A} seed (newMap oldMap : gmap string A) :
  included seed newMap oldMap = true ↔ newMap ⊆ oldMap.
Proof.
  unfold included. rewrite forallb_forall, map_subseteq_spec. split.
  - intros Hall k x Hk. specialize (Hall (k, x)). cbn in Hall.
    rewrite <- list_elem_of_In, elem_of_range in Hall. specialize (Hall Hk).
    destruct (oldMap !! k); [|done]. by apply bool_decide_eq_true in Hall as ->.
  - intros Hall [k x] Hk%list_elem_of_In. rewrite elem_of_range in Hk. apply Hall in Hk as ->.
    by apply bool_decide_eq_true.
Qed.

Lemma LabelsEqual_eq oldLabels newLabels :
  LabelsEqual oldLabels newLabels = true ↔ oldLabels = newLabels.
Proof.
  unfold LabelsEqual. destruct (Nat.eqb_spec (size oldLabels) (size newLabels)) as [Hs|Hs]; cbn.
  - rewrite included_spec. split; [|by intros ->]. intros Hsub.
    symmetry. by apply map_subseteq_size_eq; [|lia].
  - split; [done|]. by intros ->.
Qed.

Lemma diff_old_fold m pods d :
  (∀ pod, pod ∈ pods → Pod_Name pod ∈ m) →
  foldl (diff_old m) d pods = mkPodsDiff (onlyInOld d) (pod_names pods ∪ both d) (onlyInNew d).
Proof.
  intros Hin. induction pods as [|pod pods IH] using rev_ind.
  - cbn. destruct d. f_equal. set_solver.
  - rewrite foldl_app, IH by (intros; apply Hin; set_solver). cbn. unfold diff_old.
    rewrite bool_decide_true by (apply Hin; set_solver). cbn. f_equal.
    apply set_eq. intros x. rewrite !elem_of_union, !elem_of_pod_names.
    setoid_rewrite elem_of_app. setoid_rewrite list_elem_of_singleton. set_solver.
Qed.

Lemma diff_new_fold m pods d :
  (∀ pod, pod ∈ pods → Pod_Name pod ∈ m) →
  foldl (diff_new m) d pods = mkPodsDiff (onlyInOld d) (pod_names pods ∪ both d) (onlyInNew d).
Proof.
  intros Hin. rewrite <- (diff_old_fold m) by done.
  revert d. induction pods as [|pod pods IH]; intros d; [done|]. cbn.
  assert (Pod_Name pod ∈ m) as Hm by (apply Hin; by left).
  unfold diff_old, diff_new in IH |- *. rewrite bool_decide_true by done. cbn.
  apply IH. intros p Hp. apply Hin. by right.
Qed.

(** Both lookups of a loop read the same map, so no pod is ever found to be in
    one of the lists only. *)
Lemma DiffPods_eq lister ns oldSelector newSelector oldPods newPods :
  lister ns oldSelector = Ret (inl oldPods) → lister ns newSelector = Ret (inl newPods) →
  DiffPods lister ns oldSelector newSelector =
    Ret (inl (mkPodsDiff ∅ (pod_names oldPods ∪ pod_names newPods) ∅)).
Proof.
  intros Ho Hn. unfold DiffPods. rewrite Ho. cbn. rewrite Hn. cbn.
  rewrite (diff_old_fold _ oldPods), (diff_new_fold _ newPods); cbn; [do 2 f_equal; f_equal; set_solver|..].
  - intros pod Hpod. apply elem_of_pod_names. by exists pod.
  - intros pod Hpod. apply elem_of_pod_names. by exists pod.
Qed.

(** The pods that one of two selectors matches. *)
Lemma selected_names_union pods ns s1 s2 l1 l2 name :
  selected pods ns s1 l1 → selected pods ns s2 l2 →
  name ∈ pod_names l1 ∪ pod_names l2 ↔ ∃ pod, pod ∈ pods ∧ Pod_Namespace pod = ns ∧ Pod_Name pod = name ∧
    (Matches s1 (Pod_Labels pod) = true ∨ Matches s2 (Pod_Labels pod) = true).
Proof.
  intros H1 H2. rewrite elem_of_union, !elem_of_pod_names. split.
  - intros [(pod & Hp & Hn)|(pod & Hp & Hn)]; exists pod; [apply H1 in Hp|apply H2 in Hp];
      destruct Hp as (Hp & Hns & Hm); auto.
  - intros (pod & Hp & Hns & Hn & [Hm|Hm]); [left|right]; exists pod; (split; [|done]); [apply H1|apply H2]; auto.
Qed.

(** The pairs of key and configuration of a list of plugins. *)
Definition keyed_plugins (plugins : list AmeshPluginConfigPlugin) : list (string * string) :=
  (λ plugin, (plugin_key plugin, Plugin_Config plugin)) <$> plugins.

Lemma plugin_map_last plugins : plugin_map plugins = Plugin_Config <$> last_by plugin_key plugins.
Proof.
  unfold plugin_map. induction plugins as [|plugin plugins IH] using rev_ind.
  - by rewrite last_by_nil, fmap_empty.
  - by rewrite foldl_app, last_by_snoc, fmap_insert, <- IH.
Qed.

Lemma plugin_map_lookup plugins k c : NoDup (plugin_key <$> plugins) →
  plugin_map plugins !! k = Some c ↔ (k, c) ∈ keyed_plugins plugins.
Proof.
  intros Hnd. rewrite plugin_map_last, lookup_fmap, fmap_Some. unfold keyed_plugins.
  rewrite list_elem_of_fmap. split.
  - intros (plugin & [Hin <-]%last_by_Some & ->). by exists plugin.
  - intros (plugin & [= -> ->] & Hin). exists plugin. split; [|done]. by apply last_by_NoDup.
Qed.

Lemma keyed_plugins_NoDup plugins : NoDup (plugin_key <$> plugins) → NoDup (keyed_plugins plugins).
Proof.
  intros Hnd. apply (NoDup_fmap_1 fst). unfold keyed_plugins. by rewrite <- list_fmap_compose.
Qed.

(** ** Properties *)

(** Two plugin lists whose type-and-name keys are distinct are equal for
    the reconciler exactly when they carry the same keyed configurations, in
    whatever order; the answer does not depend on the map iteration order. *)
Lemma PluginsConfigEqual_spec oldPlugins newPlugins :
  NoDup (plugin_key <$> oldPlugins) → NoDup (plugin_key <$> newPlugins) →
  PluginsConfigEqual oldPlugins newPlugins = true ↔ keyed_plugins oldPlugins ≡ₚ keyed_plugins newPlugins.
Proof.
  intros Ho Hn. unfold PluginsConfigEqual. rewrite <- (length_fmap _ oldPlugins : length (keyed_plugins oldPlugins) = _).
  rewrite <- (length_fmap _ newPlugins : length (keyed_plugins newPlugins) = _).
  destruct (Nat.eqb_spec (length (keyed_plugins oldPlugins)) (length (keyed_plugins newPlugins))) as [Hl|Hl]; cbn.
  - rewrite included_spec, map_subseteq_spec. split; [|intros Hp].
    + intros Hsub. symmetry. apply submseteq_length_Permutation; [|lia].
      apply NoDup_submseteq; [by apply keyed_plugins_NoDup|].
      intros [k c]. rewrite <- !plugin_map_lookup by done. apply Hsub.
    + intros k c. rewrite !plugin_map_lookup by done. by rewrite Hp.
  - split; [done|]. by intros Hp%Permutation_length.
Qed.

(** Which pods differ between two selectors: the code looks every pod up
    twice in the same map, so it never reports a pod as being only in the old
    or only in the new selection; "both" holds every pod of the namespace that
    one of the selectors matches. *)
Lemma DiffPods_spec pods lister ns oldSelector newSelector d :
  lists pods lister → DiffPods lister ns (Some oldSelector) (Some newSelector) = Ret (inl d) →
  onlyInOld d = ∅ ∧ onlyInNew d = ∅ ∧
  ∀ name, name ∈ both d ↔ ∃ pod, pod ∈ pods ∧ Pod_Namespace pod = ns ∧ Pod_Name pod = name ∧
    (Matches oldSelector (Pod_Labels pod) = true ∨ Matches newSelector (Pod_Labels pod) = true).
Proof.
  intros Hl Hd. destruct (Hl ns oldSelector) as [(os & Ho & Hos)|[err Ho]].
  2: { unfold DiffPods in Hd. by rewrite Ho in Hd. }
  destruct (Hl ns newSelector) as [(news & Hn & Hns)|[err Hn]].
  2: { unfold DiffPods in Hd. rewrite Ho in Hd. cbn in Hd. by rewrite Hn in Hd. }
  rewrite (DiffPods_eq _ _ _ _ os news) in Hd by done. injection Hd as <-. cbn.
  split_and!; [done..|]. intros name. by apply selected_names_union.
Qed.

(** With repeated plugins the comparison is one-sided: a list in which one
    plugin was replaced by a copy of another counts as unchanged. *)
Lemma PluginsConfigEqual_one_sided a b :
  plugin_key a ≠ plugin_key b → PluginsConfigEqual [a; b] [a; a] = true.
Proof.
  intros Hne. unfold PluginsConfigEqual. cbn [length Nat.eqb negb].
  rewrite included_spec. unfold plugin_map. cbn. rewrite insert_insert_eq, insert_insert_ne by congruence.
  apply insert_mono, map_empty_subseteq.
Qed.
End Utils.

(** ** Witnesses *)

Definition example_plugin (name : string) : AmeshPluginConfigPlugin :=
  mkAmeshPluginConfigPlugin "pre-req" name "{}".

Lemma PluginsConfigEqual_spec_witness :
  @PluginsConfigEqual map_order [example_plugin "a"; example_plugin "b"] [example_plugin "b"; example_plugin "a"] = true ↔
  keyed_plugins [example_plugin "a"; example_plugin "b"] ≡ₚ keyed_plugins [example_plugin "b"; example_plugin "a"].
Proof.
  apply (@PluginsConfigEqual_spec map_order); apply (bool_decide_unpack _); vm_compute; exact I.
Defined.

Definition example_pods : list Pod :=
  [mkPod "default" "web" {["app" := "web"]} "1"; mkPod "default" "db" {["app" := "db"]} "1"].

(** A lister over a fixed set of pods. *)
Definition list_pods `{K8sLib} (pods : list Pod) : pod_lister := λ ns sel,
  match sel with
  | None => Panic "nil pointer dereference: selector"
  | Some sel => Ret (inl (filter (λ pod, Pod_Namespace pod = ns ∧ Matches sel (Pod_Labels pod) = true) pods))
  end.

Lemma list_pods_lists `{K8sLib} pods : lists pods (list_pods pods).
Proof.
  intros ns sel. left. eexists. split; [done|]. intros pod. rewrite list_elem_of_filter. naive_solver.
Qed.

