(* ===== verification/SelectorCache.v ===== *)
(** * The selector cache (src/controller/utils/selector_cache.go)

    It keeps the compiled selector of each configuration and answers which
    configurations apply to a pod.  A value of the map is a [labels.Selector]
    interface, possibly nil ([None]). *)

From S2P Require Import Prelude GoStrings StringSet ControllerTypes.
Local Open Scope Z_scope.

(** key -> selector *)
Abbreviation SelectorCache := (gmap string (option Selector)).

Section SelectorCache.
Context `{K8sLib}.

Definition NewSelectorCache : SelectorCache := ∅.

Definition Get (sc : SelectorCache) (key : string) : option (option Selector) := sc !! key.

(** The selector that [Update] compiles: everything for a nil or empty one. *)
Definition compile (metaSelector : option LabelSelector) : option Selector + error :=
  match metaSelector with
  | None => inl (Some Everything)
  | Some ls =>
      if Nat.eqb (size (LS_MatchLabels ls) + length (LS_MatchExpressions ls)) 0 then inl (Some Everything)
      else LabelSelectorAsSelector ls
  end.

Definition Update (sc : SelectorCache) (key : string) (metaSelector : option LabelSelector) :
    SelectorCache * (option Selector + error) :=
  match compile metaSelector with
  | inr err => (sc, inr err)
  | inl selector => (<[key := selector]> sc, inl selector)
  end.

Definition Delete (sc : SelectorCache) (key : string) : SelectorCache := delete key sc.

(** [selector.Matches(labels)] *)
Definition selector_matches (selector : option Selector) (labels : gmap string string) : outcome bool :=
  match selector with
  | None => Panic "nil pointer dereference: selector"
  | Some s => Ret (Matches s labels)
  end.

(** One iteration of the loop of [GetPodPluginConfigs]: the cache and the keys
    found so far, or the error that the function has returned. *)
Definition match_config (labels : gmap string string) (acc : SelectorCache * (gset string + error))
    (config : AmeshPluginConfigResource) : outcome (SelectorCache * (gset string + error)) :=
  let '(sc, res) := acc in
  match res with
  | inr _ => Ret acc
  | inl keys =>
      match MetaNamespaceKey (Res_Namespace config) (Res_Name config) with
      | inr err => Ret (sc, inr err)
      | inl key =>
          match Spec_Selector (Res_Spec config) with
          | None => Ret (sc, inl ({[key]} ∪ keys))
          | Some metaSelector =>
              let '(sc, selector) :=
                match Get sc key with
                | Some v => (sc, inl v)
                | None => Update sc key (Some metaSelector)
                end in
              match selector with
              | inr err => Ret (sc, inr err)
              | inl selector =>
                  matched ← selector_matches selector labels;
                  Ret (sc, inl (if (matched : bool) then {[key]} ∪ keys else keys))
              end
          end
      end
  end.

(** [SelectorCache.GetPodPluginConfigs]; [list_configs] is the lister of the
    configurations of a namespace. *)
Definition matched_keys (list_configs : string → outcome (list AmeshPluginConfigResource + error))
    (sc : SelectorCache) (pod : Pod) : outcome (SelectorCache * (gset string + error)) :=
  configs ← list_configs (Pod_Namespace pod);
  match configs with
  | inr err => Ret (sc, inr err)
  | inl configs => go_foldl (match_config (Pod_Labels pod)) (sc, inl ∅) configs
  end.

(** ** Specification *)

(** No cached selector is nil. *)
Definition cache_ok (sc : SelectorCache) : Prop := map_Forall (λ _ s, is_Some s) sc.

(** The selector under which a configuration is looked up. *)
Definition effective (sc : SelectorCache) (key : string) (config : AmeshPluginConfigResource) : option Selector + error :=
  match Spec_Selector (Res_Spec config) with
  | None => inl (Some Everything)
  | Some metaSelector => match sc !! key with Some v => inl v | None => compile (Some metaSelector) end
  end.

Definition config_key (config : AmeshPluginConfigResource) : string :=
  Res_Namespace config +:+ "/" +:+ Res_Name config.

(** The configuration applies to pods with these labels. *)
Definition applies (sc : SelectorCache) (labels : gmap string string) (config : AmeshPluginConfigResource) : Prop :=
  ∃ s, effective sc (config_key config) config = inl (Some s) ∧ Matches s labels = true.

(** ** Lemmas *)

Context `{!K8sLaws}.

Lemma compile_not_nil metaSelector : compile metaSelector ≠ inl None.
Proof.
  destruct metaSelector as [ls|]; [|done]. unfold compile. destruct (Nat.eqb _ 0); [done|].
  apply LabelSelectorAsSelector_not_nil.
Qed.

Lemma compile_is_Some metaSelector s : compile metaSelector = inl s → is_Some s.
Proof. intros Hc. destruct s; [by eexists|]. by apply compile_not_nil in Hc. Qed.

Lemma Update_ok sc key metaSelector : cache_ok sc → cache_ok (Update sc key metaSelector).1.
Proof.
  intros Hsc. unfold Update. destruct (compile metaSelector) as [s|] eqn:Hc; [|done].
  apply map_Forall_insert_2; [|done]. by apply compile_is_Some in Hc.
Qed.

Lemma Delete_ok sc key : cache_ok sc → cache_ok (Delete sc key).
Proof. apply map_Forall_delete. Qed.

Lemma string_app_inj_l (a b c : string) : a +:+ b = a +:+ c → b = c.
Proof.
  induction a as [|x a IH]; [done|]. rewrite !append_cons. intros [= Hbc]. by apply IH.
Qed.

(** A selector that the loop compiles for one configuration does not change
    the one of another configuration. *)
Lemma effective_insert sc key s config :
  key ≠ config_key config → effective (<[key := s]> sc) (config_key config) config = effective sc (config_key config) config.
Proof. intros Hne. unfold effective. destruct (Spec_Selector _); [|done]. by rewrite lookup_insert_ne. Qed.

(** One iteration, on a configuration with a namespace and a valid selector. *)
Lemma match_config_eq labels sc keys config s :
  Res_Namespace config ≠ "" → effective sc (config_key config) config = inl (Some s) →
  ∃ sc', match_config labels (sc, inl keys) config =
    Ret (sc', inl (if Matches s labels then {[config_key config]} ∪ keys else keys)) ∧
    (sc' = sc ∨ sc' = <[config_key config := Some s]> sc ∧ sc !! config_key config = None).
Proof.
  intros Hns He. unfold match_config. rewrite MetaNamespaceKey_eq by done. fold (config_key config).
  unfold effective in He. destruct (Spec_Selector (Res_Spec config)) as [ls|] eqn:Hls.
  - unfold Get, Update. destruct (sc !! config_key config) as [v|] eqn:Hv.
    + injection He as ->. exists sc. split; [done|by left].
    + rewrite He. exists (<[config_key config := Some s]> sc). split; [done|by right].
  - injection He as <-. rewrite Matches_Everything. exists sc. split; [done|by left].
Qed.

Lemma match_configs_eq labels ns configs sc keys :
  ns ≠ "" → (∀ config, config ∈ configs → Res_Namespace config = ns) →
  NoDup (config_key <$> configs) →
  (∀ config, config ∈ configs → ∃ s, effective sc (config_key config) config = inl (Some s)) →
  cache_ok sc →
  ∃ sc' keys', go_foldl (match_config labels) (sc, inl keys) configs = Ret (sc', inl keys') ∧
    cache_ok sc' ∧ sc ⊆ sc' ∧
    ∀ key, key ∈ keys' ↔ key ∈ keys ∨ ∃ config, config ∈ configs ∧ key = config_key config ∧ applies sc labels config.
Proof.
  intros Hne. revert sc keys. induction configs as [|config configs IH]; intros sc keys Hns Hnd Heff Hok.
  - exists sc, keys. split_and!; [done..|]. set_solver.
  - cbn in Hnd. apply NoDup_cons in Hnd as [Hnotin Hnd].
    destruct (Heff config) as [s Hs]; [by left|].
    assert (Res_Namespace config ≠ "") as Hns' by (rewrite (Hns config); [done|by left]).
    destruct (match_config_eq labels sc keys config s Hns' Hs) as (sc1 & Hstep & Hsc1).
    set (keys1 := if Matches s labels then {[config_key config]} ∪ keys else keys) in *.
    assert (∀ c, c ∈ configs → effective sc1 (config_key c) c = effective sc (config_key c) c) as Hsame.
    { intros c Hc. destruct Hsc1 as [->|[-> _]]; [done|]. apply effective_insert. intros Heq.
      apply Hnotin. rewrite Heq. by apply list_elem_of_fmap_2. }
    destruct (IH sc1 keys1) as (sc' & keys' & Hrun & Hok' & Hsub & Hkeys); [| done | | |].
    + intros c Hc. apply Hns. by right.
    + intros c Hc. rewrite Hsame by done. apply Heff. by right.
    + destruct Hsc1 as [->|[-> _]]; [done|]. by apply map_Forall_insert_2; [eexists|].
    + exists sc', keys'. split_and!; [by rewrite go_foldl_cons, Hstep|done| |].
      * etrans; [|done]. destruct Hsc1 as [->|[-> Hnone]]; [done|]. by apply insert_subseteq.
      * intros key. rewrite Hkeys. clear Hkeys Hrun. subst keys1.
        assert (applies sc labels config ↔ Matches s labels = true) as Happ.
        { unfold applies. rewrite Hs. split; [by intros (s' & [= <-] & Hm)|]. intros Hm. by exists s. }
        assert (∀ c, c ∈ configs → (applies sc1 labels c ↔ applies sc labels c)) as Happs.
        { intros c Hc. unfold applies. by rewrite Hsame. }
        split.
        -- intros [Hk|(c & Hc & -> & Ha)].
           ++ destruct (Matches s labels) eqn:Hm; [|by left].
              apply elem_of_union in Hk as [->%elem_of_singleton|Hk]; [|by left].
              right. exists config. split_and!; [by left|done|by apply Happ].
           ++ right. exists c. split_and!; [by right|done|]. by apply Happs.
        -- intros [Hk|(c & [->|Hc]%elem_of_cons & -> & Ha)].
           ++ left. destruct (Matches s labels); [|done]. set_solver.
           ++ left. apply Happ in Ha as ->. set_solver.
           ++ right. exists c. split_and!; [done|done|]. by apply Happs.
Qed.

(** The keys of a pod: exactly the configurations of its namespace that apply
    to its labels. *)
Lemma matched_keys_eq list_configs configs sc pod :
  list_configs (Pod_Namespace pod) = Ret (inl configs) → Pod_Namespace pod ≠ "" →
  (∀ config, config ∈ configs → Res_Namespace config = Pod_Namespace pod) →
  NoDup (config_key <$> configs) →
  (∀ config, config ∈ configs → ∃ s, effective sc (config_key config) config = inl (Some s)) →
  cache_ok sc →
  ∃ sc' keys, matched_keys list_configs sc pod = Ret (sc', inl keys) ∧ cache_ok sc' ∧ sc ⊆ sc' ∧
    ∀ key, key ∈ keys ↔ ∃ config, config ∈ configs ∧ key = config_key config ∧ applies sc (Pod_Labels pod) config.
Proof.
  intros Hl Hne Hns Hnd Heff Hok. unfold matched_keys. rewrite Hl.
  destruct (match_configs_eq (Pod_Labels pod) (Pod_Namespace pod) configs sc ∅) as (sc' & keys & Hr & Hok' & Hsub & Hk);
    [done..|].
  exists sc', keys. split_and!; [done..|]. intros key. rewrite Hk. set_solver.
Qed.

(** Whatever the configurations, the loop never panics on a cache without nil
    selectors, and keeps it so. *)
Lemma match_config_total labels acc config :
  cache_ok acc.1 → ∃ acc', match_config labels acc config = Ret acc' ∧ cache_ok acc'.1.
Proof.
  destruct acc as [sc res]. cbn. intros Hok. unfold match_config.
  destruct res as [keys|]; [|by eexists].
  destruct (MetaNamespaceKey _ _) as [key|]; [|by eexists].
  destruct (Spec_Selector _) as [ls|]; [|by eexists]. unfold Get.
  destruct (sc !! key) as [v|] eqn:Hv.
  - destruct (Hok key v Hv) as [s ->]. by eexists.
  - pose proof (Update_ok sc key (Some ls) Hok) as Hok'.
    unfold Update in *. destruct (compile (Some ls)) as [s|] eqn:Hc; [|by eexists].
    apply compile_is_Some in Hc as [s' ->]. by eexists.
Qed.

Lemma matched_keys_total list_configs sc pod :
  is_ret (list_configs (Pod_Namespace pod)) = true → cache_ok sc →
  ∃ acc, matched_keys list_configs sc pod = Ret acc ∧ cache_ok acc.1.
Proof.
  intros Hret Hok. unfold matched_keys. destruct (list_configs _) as [[configs|]|]; [|by eexists|done].
  clear Hret. cbn [mbind outcome_bind].
  assert (∀ acc, cache_ok acc.1 → ∃ acc', go_foldl (match_config (Pod_Labels pod)) acc configs = Ret acc' ∧ cache_ok acc'.1) as Hgen.
  { induction configs as [|c configs IH]; intros acc Ha; [by eexists|].
    destruct (match_config_total (Pod_Labels pod) acc c Ha) as (acc1 & He & Ha1).
    destruct (IH acc1 Ha1) as (acc2 & He2 & Ha2). exists acc2. by rewrite go_foldl_cons, He. }
  by apply Hgen.
Qed.
End SelectorCache.
