(* ===== verification/Lister.v ===== *)
(** * The lister of AmeshPluginConfigs (src/controller/apis/client/listers/amesh/v1alpha1)

    It reads the index of the informer.  The index is client-go's
    [cache.Indexer]: its functions are the parameters of [IndexerLib] and their
    documentation is stated by [IndexerLaws], with [indexer_example] as a
    concrete instance. *)

From S2P Require Import Prelude GoStrings ControllerTypes SelectorCache.
Local Open Scope Z_scope.

(** An object of the index, an [interface{}] in the code. *)
Inductive cached_object : Type :=
| CachedConfig (config : AmeshPluginConfigResource)
| CachedOther (go_type : string).

(** [ListAll] and [ListAllByNamespace] give the objects on which they call
    their last argument, in order, and their error. *)
Class IndexerLib `{K8sLib} := {
  Indexer : Type;
  ListAll : Indexer → option Selector → outcome (list cached_object * option error);
  ListAllByNamespace : Indexer → string → option Selector → outcome (list cached_object * option error);
  GetByKey : Indexer → string → option cached_object + error;
  NewNotFound : string → string → error
}.

(** An index that holds configurations only, each under its key. *)
Class IndexerLaws `{IndexerLib} := {
  holds : Indexer → list AmeshPluginConfigResource → Prop;
  holds_keys : ∀ ix configs, holds ix configs →
    NoDup (config_key <$> configs) ∧ ∀ config, config ∈ configs → Res_Namespace config ≠ "";
  ListAll_everything : ∀ ix configs, holds ix configs →
    ∃ l, ListAll ix (Some Everything) = Ret (CachedConfig <$> l, None) ∧ l ≡ₚ configs;
  ListAllByNamespace_everything : ∀ ix configs ns, holds ix configs → ns ≠ "" →
    ∃ l, ListAllByNamespace ix ns (Some Everything) = Ret (CachedConfig <$> l, None) ∧
      l ≡ₚ filter (λ config, Res_Namespace config = ns) configs;
  GetByKey_eq : ∀ ix configs key, holds ix configs →
    ∃ o, GetByKey ix key = inl (CachedConfig <$> o) ∧
      ∀ config, o = Some config ↔ config ∈ configs ∧ config_key config = key;
  NewNotFound_is : ∀ resource name, IsNotFound (NewNotFound resource name) = true
}.

Section Lister.
Context `{IndexerLib}.

Record ameshPluginConfigLister := mkLister { L_indexer : Indexer }.

Record ameshPluginConfigNamespaceLister := mkNamespaceLister {
  NL_indexer : Indexer;
  NL_namespace : string
}.

Definition NewAmeshPluginConfigLister (indexer : Indexer) : ameshPluginConfigLister := mkLister indexer.

(** Appending the asserted object. *)
Definition append_config (ret : list AmeshPluginConfigResource) (m : cached_object) :
    outcome (list AmeshPluginConfigResource) :=
  match m with
  | CachedConfig config => Ret (ret ++ [config])
  | CachedOther _ => Panic "interface conversion: not *v1alpha1.AmeshPluginConfig"
  end.

Definition lister_List (s : ameshPluginConfigLister) (selector : option Selector) :
    outcome (list AmeshPluginConfigResource * option error) :=
  called ← ListAll (L_indexer s) selector;
  ret ← go_foldl append_config [] called.1;
  Ret (ret, called.2).

Definition AmeshPluginConfigs (s : ameshPluginConfigLister) (namespace : string) : ameshPluginConfigNamespaceLister :=
  mkNamespaceLister (L_indexer s) namespace.

Definition namespace_List (s : ameshPluginConfigNamespaceLister) (selector : option Selector) :
    outcome (list AmeshPluginConfigResource * option error) :=
  called ← ListAllByNamespace (NL_indexer s) (NL_namespace s) selector;
  ret ← go_foldl append_config [] called.1;
  Ret (ret, called.2).

Definition namespace_Get (s : ameshPluginConfigNamespaceLister) (name : string) :
    outcome (AmeshPluginConfigResource + error) :=
  match GetByKey (NL_indexer s) (NL_namespace s +:+ "/" +:+ name) with
  | inr err => Ret (inr err)
  | inl None => Ret (inr (NewNotFound "ameshpluginconfig" name))
  | inl (Some (CachedConfig config)) => Ret (inl config)
  | inl (Some (CachedOther _)) => Panic "interface conversion: not *v1alpha1.AmeshPluginConfig"
  end.

(** The call [lister.AmeshPluginConfigs(ns).List(labels.Everything())] of the
    selector cache. *)
Definition list_namespace (s : ameshPluginConfigLister) (ns : string) :
    outcome (list AmeshPluginConfigResource + error) :=
  res ← namespace_List (AmeshPluginConfigs s ns) (Some Everything);
  Ret (match res.2 with Some err => inr err | None => inl res.1 end).

(** ** Lemmas *)

Lemma append_configs acc l : go_foldl append_config acc (CachedConfig <$> l) = Ret (acc ++ l).
Proof.
  revert acc. induction l as [|config l IH]; intros acc; cbn; [by rewrite app_nil_r|].
  by rewrite IH, <- app_assoc.
Qed.

Context `{!IndexerLaws}.

Lemma lister_List_eq ix configs :
  holds ix configs → ∃ l, lister_List (NewAmeshPluginConfigLister ix) (Some Everything) = Ret (l, None) ∧ l ≡ₚ configs.
Proof.
  intros Hix. destruct (ListAll_everything ix configs Hix) as (l & Hl & Hp). exists l.
  unfold lister_List. cbn. rewrite Hl. cbn. by rewrite append_configs.
Qed.

Lemma namespace_List_eq ix configs ns :
  holds ix configs → ns ≠ "" →
  ∃ l, namespace_List (AmeshPluginConfigs (NewAmeshPluginConfigLister ix) ns) (Some Everything) = Ret (l, None) ∧
    l ≡ₚ filter (λ config, Res_Namespace config = ns) configs.
Proof.
  intros Hix Hns. destruct (ListAllByNamespace_everything ix configs ns Hix Hns) as (l & Hl & Hp). exists l.
  unfold namespace_List. cbn. rewrite Hl. cbn. by rewrite append_configs.
Qed.

Lemma list_namespace_eq ix configs ns :
  holds ix configs → ns ≠ "" →
  ∃ l, list_namespace (NewAmeshPluginConfigLister ix) ns = Ret (inl l) ∧
    l ≡ₚ filter (λ config, Res_Namespace config = ns) configs.
Proof.
  intros Hix Hns. destruct (namespace_List_eq ix configs ns Hix Hns) as (l & Hl & Hp). exists l.
  unfold list_namespace. by rewrite Hl.
Qed.

(** Looking a configuration up and listing its namespace agree: [Get] returns
    the listed configuration of that name, and an error that callers recognise
    as "not found" when there is none. *)
Lemma namespace_Get_List ix configs ns name :
  holds ix configs → ns ≠ "" →
  let s := AmeshPluginConfigs (NewAmeshPluginConfigLister ix) ns in
  ∃ l, namespace_List s (Some Everything) = Ret (l, None) ∧
    ((∃ config, namespace_Get s name = Ret (inl config) ∧ config ∈ configs ∧
        config_key config = ns +:+ "/" +:+ name ∧ (Res_Namespace config = ns → config ∈ l)) ∨
     (∃ err, namespace_Get s name = Ret (inr err) ∧ IsNotFound err = true ∧
        ∀ config, config ∈ l → Res_Name config ≠ name)).
Proof.
  intros Hix Hns s. destruct (namespace_List_eq ix configs ns Hix Hns) as (l & Hl & Hp). exists l. split; [done|].
  destruct (GetByKey_eq ix configs (ns +:+ "/" +:+ name) Hix) as ([config|] & Hget & Ho); unfold namespace_Get; cbn.
  - left. exists config. rewrite Hget. destruct (Ho config) as [[Hin Hk] _]; [done|]. split_and!; [done..|].
    intros Hc. rewrite Hp. by apply list_elem_of_filter.
  - right. rewrite Hget. eexists. split_and!; [done|apply NewNotFound_is|]. intros config Hin Hname.
    rewrite Hp in Hin. apply list_elem_of_filter in Hin as [Hcns Hin].
    assert (None = Some config) as [=]. apply Ho. split; [done|]. unfold config_key. by rewrite Hcns, Hname.
Qed.
End Lister.

(** ** A concrete instance: the index is a list of configurations *)

Definition indexer_example `{K8sLib} (not_found : error) : IndexerLib := {|
  Indexer := list AmeshPluginConfigResource;
  ListAll ix _ := Ret (CachedConfig <$> ix, None);
  ListAllByNamespace ix ns _ := Ret (CachedConfig <$> filter (λ config, Res_Namespace config = ns) ix, None);
  GetByKey ix key := inl (CachedConfig ∘ snd <$> list_find (λ config, config_key config = key) ix);
  NewNotFound _ _ := not_found
|}.

Definition indexer_example_laws `{K8sLib} (not_found : error) :
  IsNotFound not_found = true → @IndexerLaws _ (indexer_example not_found).
Proof.
  intros Hnf. refine (@Build_IndexerLaws _ (indexer_example not_found)
    (λ ix configs, ix = configs ∧ NoDup (config_key <$> configs) ∧
       ∀ config, config ∈ configs → Res_Namespace config ≠ "") _ _ _ _ _); cbn.
  - by intros ix configs (_ & ? & ?).
  - intros ix configs (-> & _). by exists configs.
  - intros ix configs ns (-> & _) _. by eexists.
  - intros ix configs key (-> & Hnd & _). exists (snd <$> list_find (λ config, config_key config = key) configs).
    split; [by destruct (list_find _ _)|]. intros config. split.
    + intros Hf. destruct (list_find _ configs) as [[i c]|] eqn:Hfind; [|done]. injection Hf as ->.
      apply list_find_Some in Hfind as (Hi & Hk & _). split; [|done]. by apply list_elem_of_lookup_2 in Hi.
    + intros [Hin Hk]. destruct (list_find_elem_of (λ config, config_key config = key) configs config Hin Hk) as [[i c] Hf].
      change (snd <$> list_find (λ config, config_key config = key) configs = Some config). rewrite Hf. cbn. f_equal.
      apply list_find_Some in Hf as (Hi & Hk' & _). apply list_elem_of_lookup in Hin as [j Hj].
      assert (i = j) as ->; [|congruence].
      apply (NoDup_lookup (config_key <$> configs) i j key); [done|..]; rewrite list_lookup_fmap, ?Hi, ?Hj; cbn; congruence.
  - done.
Defined.
