(* ===== verification/Reconciler.v ===== *)
(** * The reconciler (src/controller/controllers/amesh/ameshpluginconfig_controller.go)

    It keeps the plugins and the selector of each AmeshPluginConfig, tells the
    subscribers which pods a change affects, and answers which configurations
    apply to a pod.  An operation takes a snapshot of the cluster (what the
    client and the listers return) and returns the new state, its effects in
    order (notifications and status updates) and its error. *)

From S2P Require Import Prelude GoStrings StringSet ControllerTypes ControllerUtils SelectorCache.
Local Open Scope Z_scope.

Section Reconciler.
Context `{GoRange} `{K8sLib}.

(** ** State *)

Record AmeshPluginConfigReconciler := mkReconciler {
  R_selectorCache : SelectorCache;
  R_pluginsCache : gmap string PodPluginConfig;
  R_subs : list nat      (** the receivers, by an identity *)
}.

Definition NewAmeshPluginConfigController : AmeshPluginConfigReconciler :=
  mkReconciler NewSelectorCache ∅ [].

Definition AddPodChangeListener (r : AmeshPluginConfigReconciler) (receiver : nat) : AmeshPluginConfigReconciler :=
  mkReconciler (R_selectorCache r) (R_pluginsCache r) (R_subs r ++ [receiver]).

(** What the API server and the informers' caches return. *)
Record cluster := mkCluster {
  get_config : string → string → AmeshPluginConfigResource + error;
  get_pod : string → string → Pod + error;
  list_pods_of : pod_lister;
  list_configs : string → outcome (list AmeshPluginConfigResource + error);
  clock : Z     (** the time of day *)
}.

Inductive controller_effect : Type :=
| NotifyPodChange (sub : nat) (event : UpdatePodPluginConfigEvent)
| UpdateStatus (config : AmeshPluginConfigResource).

(** [SendPluginsConfigs]; the plugins that the callers pass are not used. *)
Definition SendPluginsConfigs (r : AmeshPluginConfigReconciler) (ns : string) (names : gset string) :
    list controller_effect :=
  if Nat.leb (size names) 0 then []
  else map (λ sub, NotifyPodChange sub (mkUpdatePodPluginConfigEvent ns names)) (R_subs r).

Definition recordStatus (now : Z) (config : AmeshPluginConfigResource) (reason : string) (err : option error)
    (status : string) : list controller_effect :=
  let message := match err with Some err => error_text err | None => ConditionSyncSuccess end in
  let condition := mkCondition ConditionSync status (Res_Generation config) 0 reason message in
  if VerifyGeneration (Res_Conditions config) condition then
    [UpdateStatus (mkAmeshPluginConfigResource (Res_Namespace config) (Res_Name config)
       (Res_ResourceVersion config) (Res_Generation config) (Res_DeletionTimestamp config) (Res_Spec config)
       (SetStatusCondition now (Res_Conditions config) condition))]
  else [].

(** ** Reconcile *)

(** The object is gone: forget its plugins, notify the pods of its selector,
    forget the selector. *)
Definition reconcile_deleted (c : cluster) (r : AmeshPluginConfigReconciler) (ns key : string) :
    outcome (AmeshPluginConfigReconciler * list controller_effect * option error) :=
  let r := mkReconciler (R_selectorCache r) (delete key (R_pluginsCache r)) (R_subs r) in
  let forget r := mkReconciler (Delete (R_selectorCache r) key) (R_pluginsCache r) (R_subs r) in
  match Get (R_selectorCache r) key with
  | None => Ret (forget r, [], None)
  | Some oldSelector =>
      pods ← list_pods_of c ns oldSelector;
      match pods with
      | inr err => Ret (r, [], Some err)
      | inl pods => Ret (forget r, SendPluginsConfigs r ns (pod_names pods), None)
      end
  end.

(** The notifications of an update, by the four cases of the code. *)
Definition notify_update (c : cluster) (r : AmeshPluginConfigReconciler) (ns : string)
    (hasOldSelector : bool) (newSelector : option Selector) (d : pods_diff) (pluginChanged : bool) :
    outcome (list controller_effect + error) :=
  let send := SendPluginsConfigs r ns in
  match hasOldSelector, newSelector with
  | false, None =>
      if pluginChanged then
        allPods ← list_pods_of c ns (Some Everything);
        match allPods with
        | inr err => Ret (inr err)
        | inl allPods => Ret (inl (send (pod_names allPods)))
        end
      else Ret (inl [])
  | false, Some _ =>
      Ret (inl (send (onlyInOld d) ++ if pluginChanged then send (both d) ++ send (onlyInNew d) else []))
  | true, None =>
      Ret (inl (send (onlyInNew d) ++ if pluginChanged then send (onlyInOld d) ++ send (both d) else []))
  | true, Some _ =>
      Ret (inl (send (onlyInOld d) ++ send (onlyInNew d) ++ if pluginChanged then send (both d) else []))
  end.

Definition reconcile_found (c : cluster) (r : AmeshPluginConfigReconciler) (ns key : string)
    (instance : AmeshPluginConfigResource) :
    outcome (AmeshPluginConfigReconciler * list controller_effect * option error) :=
  let cached := R_pluginsCache r !! key in
  let old_version := match cached with
    | Some oldConfig => String.leb (Res_ResourceVersion instance) (PPC_Version oldConfig)
    | None => false
    end in
  if old_version then Ret (r, [], None)
  else
    let old := Get (R_selectorCache r) key in
    match Update (R_selectorCache r) key (Spec_Selector (Res_Spec instance)) with
    | (_, inr err) => Ret (r, [], Some err)
    | (selectors, inl newSelector) =>
        let newPlugins := Spec_Plugins (Res_Spec instance) in
        let newConfig := mkPodPluginConfig key newPlugins (Res_ResourceVersion instance) in
        let r := mkReconciler selectors (<[key := newConfig]> (R_pluginsCache r)) (R_subs r) in
        let hasOldSelector := match old with Some _ => true | None => false end in
        let oldSelector := match old with Some s => s | None => Some Everything end in
        diff ← DiffPods (list_pods_of c) ns oldSelector newSelector;
        match diff with
        | inr err => Ret (r, [], Some err)
        | inl d =>
            let pluginChanged := match cached with
              | Some oldConfig => negb (PluginsConfigEqual (PPC_Plugins oldConfig) newPlugins)
              | None => true
              end in
            sent ← notify_update c r ns hasOldSelector newSelector d pluginChanged;
            match sent with
            | inr err => Ret (r, [], Some err)
            | inl sent => Ret (r, sent ++ recordStatus (clock c) instance ResourceReconciled None "True", None)
            end
        end
    end.

Definition Reconcile (c : cluster) (r : AmeshPluginConfigReconciler) (ns name : string) :
    outcome (AmeshPluginConfigReconciler * list controller_effect * option error) :=
  let key := NamespacedName_String ns name in
  match get_config c ns name with
  | inr err =>
      if IsNotFound err then reconcile_deleted c r ns key else Ret (r, [], Some err)
  | inl instance =>
      match Res_DeletionTimestamp instance with
      | Some _ => Ret (r, [], None)
      | None => reconcile_found c r ns key instance
      end
  end.

(** ** The pod informer's handlers *)

Definition pod_added (r : AmeshPluginConfigReconciler) (pod : Pod) : list controller_effect :=
  SendPluginsConfigs r (Pod_Namespace pod) {[Pod_Name pod]}.

Definition pod_updated (r : AmeshPluginConfigReconciler) (old pod : Pod) : list controller_effect :=
  if negb (String.leb (Pod_ResourceVersion pod) (Pod_ResourceVersion old)) &&
     negb (LabelsEqual (Pod_Labels old) (Pod_Labels pod))
  then SendPluginsConfigs r (Pod_Namespace pod) {[Pod_Name pod]}
  else [].

(** ** The configurations of a pod *)

(** The loop over the matched keys, in their sorted order. *)
Definition cached_configs (plugins : gmap string PodPluginConfig) (keys : gset string) : list PodPluginConfig :=
  foldl (λ configs key, match plugins !! key with Some cached => configs ++ [cached] | None => configs end)
    [] (SortStrings (elements keys)).

Definition GetPodPluginConfigs (c : cluster) (r : AmeshPluginConfigReconciler) (key : string) :
    outcome (AmeshPluginConfigReconciler * (list PodPluginConfig + error)) :=
  match SplitMetaNamespaceKey key with
  | inr err => Ret (r, if IsNotFound err then inl [] else inr err)
  | inl (ns, name) =>
      match get_pod c ns name with
      | inr err => Ret (r, inr err)
      | inl pod =>
          res ← matched_keys (list_configs c) (R_selectorCache r) pod;
          let r := mkReconciler res.1 (R_pluginsCache r) (R_subs r) in
          match res.2 with
          | inr err => Ret (r, inr err)
          | inl keys => Ret (r, inl (cached_configs (R_pluginsCache r) keys))
          end
      end
  end.
End Reconciler.

(** ** Specification *)

Section Spec.
Context `{GoRange} `{!K8sLib} `{!K8sLaws}.
Implicit Types (r : AmeshPluginConfigReconciler) (c : cluster).

(** The configuration that is served for a custom resource. *)
Definition served (instance : AmeshPluginConfigResource) : PodPluginConfig :=
  mkPodPluginConfig (config_key instance) (Spec_Plugins (Res_Spec instance)) (Res_ResourceVersion instance).

(** The reconciler holds the current plugins and selector of a resource. *)
Definition reconciled r (instance : AmeshPluginConfigResource) : Prop :=
  R_pluginsCache r !! config_key instance = Some (served instance) ∧
  ∃ s, compile (Spec_Selector (Res_Spec instance)) = inl (Some s) ∧
       R_selectorCache r !! config_key instance = Some (Some s).

(** The notifications among the effects. *)
Definition is_notification (e : controller_effect) : bool :=
  match e with NotifyPodChange _ _ => true | UpdateStatus _ => false end.

(** A resource that the reconciler accepts: not being deleted, newer (as a
    string) than what is cached, and with a selector that compiles. *)
Definition accepted_instance r (instance : AmeshPluginConfigResource) (s : Selector) : Prop :=
  Res_DeletionTimestamp instance = None ∧
  compile (Spec_Selector (Res_Spec instance)) = inl (Some s) ∧
  match R_pluginsCache r !! config_key instance with
  | Some old => String.leb (Res_ResourceVersion instance) (PPC_Version old) = false
  | None => True
  end.

(** The plugins differ from the cached ones. *)
Definition plugins_changed r (instance : AmeshPluginConfigResource) : bool :=
  match R_pluginsCache r !! config_key instance with
  | Some old => negb (PluginsConfigEqual (PPC_Plugins old) (Spec_Plugins (Res_Spec instance)))
  | None => true
  end.

(** The selector that was in force, everything when there was none. *)
Definition previous r (instance : AmeshPluginConfigResource) : option Selector :=
  default (Some Everything) (R_selectorCache r !! config_key instance).

(** The state after an accepted resource. *)
Definition installed r (instance : AmeshPluginConfigResource) (s : Selector) : AmeshPluginConfigReconciler :=
  mkReconciler (<[config_key instance := Some s]> (R_selectorCache r))
    (<[config_key instance := served instance]> (R_pluginsCache r)) (R_subs r).

(** The plugins of a list, by type and name, with their configurations. *)
Definition typed_plugins (plugins : list AmeshPluginConfigPlugin) : list (string * string) :=
  (λ plugin, (Plugin_Type plugin +:+ Plugin_Name plugin, Plugin_Config plugin)) <$> plugins.

(** Neither the cached version nor the new one has two plugins of one type and
    name. *)
Definition distinct_plugins r (instance : AmeshPluginConfigResource) : Prop :=
  NoDup (typed_plugins (Spec_Plugins (Res_Spec instance))).*1 ∧
  ∀ old, R_pluginsCache r !! config_key instance = Some old → NoDup (typed_plugins (PPC_Plugins old)).*1.

(** The new version has other plugins than the cached one, or none is cached. *)
Definition other_plugins r (instance : AmeshPluginConfigResource) : Prop :=
  ∀ old, R_pluginsCache r !! config_key instance = Some old →
    ¬ typed_plugins (PPC_Plugins old) ≡ₚ typed_plugins (Spec_Plugins (Res_Spec instance)).

(** Every subscriber is told once of these pods of the namespace; nobody is of
    an empty set. *)
Definition notifications r (ns : string) (names : gset string) : list controller_effect :=
  if decide (names = ∅) then []
  else (λ sub, NotifyPodChange sub (mkUpdatePodPluginConfigEvent ns names)) <$> R_subs r.

(** ** Lemmas *)

Lemma plugins_changed_other r instance :
  distinct_plugins r instance → plugins_changed r instance = true ↔ other_plugins r instance.
Proof.
  intros [Hn Ho]. unfold plugins_changed, other_plugins. unfold typed_plugins in Hn, Ho. rewrite <- list_fmap_compose in Hn.
  destruct (R_pluginsCache r !! config_key instance) as [old|]; [|by split].
  specialize (Ho old eq_refl). rewrite <- list_fmap_compose in Ho.
  pose proof (PluginsConfigEqual_spec (PPC_Plugins old) (Spec_Plugins (Res_Spec instance)) Ho Hn) as Heq.
  change (typed_plugins ?l) with (keyed_plugins l). rewrite negb_true_iff, <- not_true_iff_false, Heq. naive_solver.
Qed.

Lemma SendPluginsConfigs_empty r ns : SendPluginsConfigs r ns ∅ = [].
Proof. done. Qed.

Lemma compile_Update sc key ms s :
  compile ms = inl s → Update sc key ms = (<[key := s]> sc, inl s).
Proof. intros Hc. unfold Update. by rewrite Hc. Qed.

(** The reconciliation of an accepted resource up to the listing of the pods. *)
Lemma reconcile_found_eq c r instance s :
  accepted_instance r instance s →
  let key := config_key instance in
  let ns := Res_Namespace instance in
  let r' := installed r instance s in
  let hasOld := match R_selectorCache r !! key with Some _ => true | None => false end in
  reconcile_found c r ns key instance =
    (diff ← DiffPods (list_pods_of c) ns (previous r instance) (Some s);
     match diff with
     | inr err => Ret (r', [], Some err)
     | inl d =>
         sent ← notify_update c r' ns hasOld (Some s) d (plugins_changed r instance);
         match sent with
         | inr err => Ret (r', [], Some err)
         | inl sent => Ret (r', sent ++ recordStatus (clock c) instance ResourceReconciled None "True", None)
         end
     end).
Proof.
  intros (_ & Hc & Hv) key ns r' hasOld. unfold reconcile_found, installed, previous, plugins_changed, Get.
  subst hasOld. fold key in Hv |- *.
  rewrite (compile_Update _ _ _ _ Hc). cbv beta iota zeta.
  destruct (R_pluginsCache r !! key) as [old|] eqn:Hp.
  - rewrite Hv. destruct (R_selectorCache r !! key) eqn:Hs; cbn [default]; reflexivity.
  - destruct (R_selectorCache r !! key) eqn:Hs; cbn [default]; reflexivity.
Qed.

Lemma notify_no_diff c r ns hasOld s pods changed :
  notify_update c r ns hasOld (Some s) (mkPodsDiff ∅ pods ∅) changed =
    Ret (inl (if (changed : bool) then SendPluginsConfigs r ns pods else [])).
Proof.
  unfold notify_update. cbn [onlyInOld both onlyInNew]. rewrite !SendPluginsConfigs_empty.
  destruct hasOld, changed; cbn [app]; by rewrite ?app_nil_r.
Qed.

Lemma Reconcile_found_unfold c r instance :
  get_config c (Res_Namespace instance) (Res_Name instance) = inl instance →
  Res_DeletionTimestamp instance = None →
  Reconcile c r (Res_Namespace instance) (Res_Name instance) =
    reconcile_found c r (Res_Namespace instance) (config_key instance) instance.
Proof.
  intros Hg Hd. unfold Reconcile. rewrite Hg, Hd. by rewrite NamespacedName_String_eq.
Qed.

(** An accepted resource whose pods can be listed. *)
Lemma Reconcile_accepted c r instance s olds news :
  get_config c (Res_Namespace instance) (Res_Name instance) = inl instance →
  accepted_instance r instance s →
  list_pods_of c (Res_Namespace instance) (previous r instance) = Ret (inl olds) →
  list_pods_of c (Res_Namespace instance) (Some s) = Ret (inl news) →
  Reconcile c r (Res_Namespace instance) (Res_Name instance) =
    Ret (installed r instance s,
         (if plugins_changed r instance
          then SendPluginsConfigs (installed r instance s) (Res_Namespace instance) (pod_names olds ∪ pod_names news)
          else []) ++ recordStatus (clock c) instance ResourceReconciled None "True",
         None).
Proof.
  intros Hg Ha Ho Hn. rewrite Reconcile_found_unfold by (done || apply Ha).
  rewrite (reconcile_found_eq c r instance s Ha).
  rewrite (DiffPods_eq _ _ _ _ olds news) by done. cbn [mbind outcome_bind].
  rewrite notify_no_diff. reflexivity.
Qed.

Lemma elem_of_Send r ns names e :
  e ∈ SendPluginsConfigs r ns names ↔
  names ≠ ∅ ∧ ∃ sub, sub ∈ R_subs r ∧ e = NotifyPodChange sub (mkUpdatePodPluginConfigEvent ns names).
Proof.
  unfold SendPluginsConfigs. destruct (Nat.leb_spec (size names) 0) as [Hle|Hlt].
    split; [by intros ?%elem_of_nil|]. intros [Hne _]. exfalso. apply Hne. apply leibniz_equiv, size_empty_inv. lia.
  - rewrite list_elem_of_fmap. split.
    + intros (sub & -> & Hsub). split; [|by exists sub]. intros ->. rewrite size_empty in Hlt. lia.
    + intros (_ & sub & Hsub & ->). by exists sub.
Qed.

Lemma Send_notifications r ns names : SendPluginsConfigs r ns names = notifications r ns names.
Proof.
  unfold SendPluginsConfigs, notifications. case_decide as Hd; [by subst|].
  destruct (Nat.leb_spec (size names) 0) as [Hle|_]; [|done]. destruct Hd. apply leibniz_equiv, size_empty_inv. lia.
Qed.

(** The state after a resource was accepted does not depend on the listing of
    the pods; when the listing fails the error is returned. *)
Lemma Reconcile_installs pods c r instance s s0 :
  get_config c (Res_Namespace instance) (Res_Name instance) = inl instance →
  accepted_instance r instance s → lists pods (list_pods_of c) → previous r instance = Some s0 →
  ∃ effs err, Reconcile c r (Res_Namespace instance) (Res_Name instance) = Ret (installed r instance s, effs, err) ∧
    (err = None → ∃ olds news,
       selected pods (Res_Namespace instance) s0 olds ∧ selected pods (Res_Namespace instance) s news ∧
       effs = (if plugins_changed r instance
               then SendPluginsConfigs (installed r instance s) (Res_Namespace instance) (pod_names olds ∪ pod_names news)
               else []) ++ recordStatus (clock c) instance ResourceReconciled None "True") ∧
    (is_Some err → effs = []).
Proof.
  intros Hg Ha Hl Hs0. rewrite Reconcile_found_unfold by (done || apply Ha).
  rewrite (reconcile_found_eq c r instance s Ha), Hs0.
  destruct (Hl (Res_Namespace instance) s0) as [(olds & Ho & Hos)|[err Ho]].
  - destruct (Hl (Res_Namespace instance) s) as [(news & Hn & Hns)|[err Hn]].
    + rewrite (DiffPods_eq _ _ _ _ olds news) by done. cbn [mbind outcome_bind]. rewrite notify_no_diff.
      eexists _, None. split_and!; [reflexivity| |by intros []]. intros _. by exists olds, news.
    + unfold DiffPods. rewrite Ho. cbn. rewrite Hn. cbn. by eexists [], (Some err).
  - unfold DiffPods. rewrite Ho. cbn. by eexists [], (Some err).
Qed.

Lemma installed_reconciled r instance s :
  compile (Spec_Selector (Res_Spec instance)) = inl (Some s) → reconciled (installed r instance s) instance.
Proof.
  intros Hc. split; cbn; [by rewrite lookup_insert_eq|]. exists s. by rewrite lookup_insert_eq.
Qed.

Lemma installed_other r instance s other :
  config_key other ≠ config_key instance → reconciled r other → reconciled (installed r instance s) other.
Proof.
  intros Hne [Hp (s' & Hc & Hs)]. split; cbn; [by rewrite lookup_insert_ne by congruence|].
  exists s'. by rewrite lookup_insert_ne by congruence.
Qed.

Lemma reconciled_effective r instance s :
  reconciled r instance → compile (Spec_Selector (Res_Spec instance)) = inl (Some s) →
  effective (R_selectorCache r) (config_key instance) instance = inl (Some s).
Proof.
  intros [_ (s' & Hc & Hs)] Hc'. unfold effective. destruct (Spec_Selector (Res_Spec instance)) as [ls|] eqn:Hls.
  - rewrite Hs. congruence.
  - by injection Hc' as <-.
Qed.

(** The resource selects pods with these labels. *)
Definition selects (instance : AmeshPluginConfigResource) (labels : gmap string string) : Prop :=
  ∃ s, compile (Spec_Selector (Res_Spec instance)) = inl (Some s) ∧ Matches s labels = true.

Lemma reconciled_applies r instance labels :
  reconciled r instance → applies (R_selectorCache r) labels instance ↔ selects instance labels.
Proof.
  intros Hr. unfold applies, selects. pose proof Hr as [_ (s & Hc & _)].
  rewrite (reconciled_effective r instance s) by done. by rewrite Hc.
Qed.

Lemma cached_configs_filter plugins keys :
  cached_configs plugins keys = omap (λ key, plugins !! key) (SortStrings (elements keys)).
Proof.
  unfold cached_configs. generalize (SortStrings (elements keys)) as l. intros l.
  assert (∀ acc, foldl (λ configs key, match plugins !! key with Some cached => configs ++ [cached] | None => configs end)
    acc l = acc ++ omap (λ key, plugins !! key) l) as Hgen; [|by apply (Hgen [])].
  induction l as [|k l IH]; intros acc; [cbn; by rewrite app_nil_r|].
  cbn [foldl]. rewrite IH. cbn. destruct (plugins !! k); [by rewrite <- app_assoc|done].
Qed.

(** The configurations of a pod when the caches are current: those of the
    resources that select it, in the order of their keys. *)
Lemma GetPodPluginConfigs_eq c r pod instances :
  ¬ Contains (Pod_Namespace pod) "/" → ¬ Contains (Pod_Name pod) "/" → Pod_Namespace pod ≠ "" →
  get_pod c (Pod_Namespace pod) (Pod_Name pod) = inl pod →
  list_configs c (Pod_Namespace pod) = Ret (inl instances) →
  (∀ instance, instance ∈ instances → Res_Namespace instance = Pod_Namespace pod ∧ reconciled r instance) →
  NoDup (config_key <$> instances) → cache_ok (R_selectorCache r) →
  ∃ r' configs, GetPodPluginConfigs c r (Pod_Namespace pod +:+ "/" +:+ Pod_Name pod) = Ret (r', inl configs) ∧
    (∀ conf, conf ∈ configs ↔ ∃ instance, instance ∈ instances ∧ selects instance (Pod_Labels pod) ∧ conf = served instance) ∧
    Sorted String.le (PPC_Name <$> configs) ∧ NoDup (PPC_Name <$> configs).
Proof.
  intros Hns Hname Hne Hget Hlist Hrec Hnd Hok. unfold GetPodPluginConfigs.
  rewrite SplitMetaNamespaceKey_eq by done. rewrite Hget.
  destruct (matched_keys_eq (list_configs c) instances (R_selectorCache r) pod) as (sc' & keys & Hm & _ & _ & Hkeys);
    [done|done|apply Hrec|done| |done|].
  { intros i Hi. destruct (Hrec i Hi) as [_ Hri]. pose proof Hri as [_ (s & Hc & _)]. exists s.
    by apply reconciled_effective. }
  rewrite Hm. cbn. eexists _, _. split; [reflexivity|]. rewrite cached_configs_filter.
  set (l := SortStrings (elements keys)).
  assert (∀ key, key ∈ l ↔ ∃ i, i ∈ instances ∧ key = config_key i ∧ selects i (Pod_Labels pod)) as Hl.
  { intros key. unfold l. rewrite SortStrings_perm, elem_of_elements, Hkeys. split.
    - intros (i & Hi & -> & Ha). exists i. split_and!; [done..|]. by apply (reconciled_applies r); [apply Hrec|].
    - intros (i & Hi & -> & Ha). exists i. split_and!; [done..|]. by apply (reconciled_applies r); [apply Hrec|]. }
  assert (PPC_Name <$> omap (λ key, R_pluginsCache r !! key) l = l) as Hnames.
  { assert (∀ key, key ∈ l → ∃ conf, R_pluginsCache r !! key = Some conf ∧ PPC_Name conf = key) as Hall.
    { intros key (i & Hi & -> & _)%Hl. exists (served i). split; [|done]. by apply Hrec. }
    clearbody l. clear Hl. induction l as [|k l IH]; [done|]. cbn.
    destruct (Hall k) as (conf & -> & Hk); [by left|]. cbn. rewrite Hk. f_equal. apply IH.
    intros key Hin. apply Hall. by right. }
  split_and!.
  - intros conf. rewrite list_elem_of_omap. split.
    + intros (key & (i & Hi & -> & Hsel)%Hl & Hconf). exists i. split_and!; [done..|].
      destruct (Hrec i Hi) as [_ [Hp _]]. congruence.
    + intros (i & Hi & Hsel & ->). exists (config_key i). split; [apply Hl; by exists i|]. by apply Hrec.
  - rewrite Hnames. apply SortStrings_sorted.
  - rewrite Hnames. unfold l. rewrite SortStrings_perm. apply NoDup_elements.
Qed.

Lemma string_leb_refl s : String.leb s s = true.
Proof. pose proof (reflexivity (R := String.le) s) as Hs. unfold String.le in Hs. by destruct (String.leb s s). Qed.

Lemma filter_record now instance reason err status :
  filter (λ e, is_notification e = true) (recordStatus now instance reason err status) = [].
Proof. unfold recordStatus. by destruct (VerifyGeneration _ _). Qed.

Lemma filter_Send r ns names :
  filter (λ e, is_notification e = true) (SendPluginsConfigs r ns names) =
    if decide (names ≠ ∅) then (λ sub, NotifyPodChange sub (mkUpdatePodPluginConfigEvent ns names)) <$> R_subs r else [].
Proof.
  unfold SendPluginsConfigs. destruct (Nat.leb_spec (size names) 0) as [Hle|Hlt].
  - rewrite decide_False; [done|]. intros Hne. apply Hne, leibniz_equiv, size_empty_inv. lia.
  - rewrite decide_True by (intros ->; rewrite size_empty in Hlt; lia).
    apply list_filter_all. intros e (sub & -> & _)%list_elem_of_fmap. done.
Qed.

(** Reconciling resources one after the other. *)
Definition reconcile_all c r (instances : list AmeshPluginConfigResource) : outcome AmeshPluginConfigReconciler :=
  go_foldl (λ r instance,
    res ← Reconcile c r (Res_Namespace instance) (Res_Name instance); Ret res.1.1) r instances.

(** A resource as the API server holds it. *)
Definition current c (instance : AmeshPluginConfigResource) : Prop :=
  get_config c (Res_Namespace instance) (Res_Name instance) = inl instance ∧
  Res_DeletionTimestamp instance = None ∧
  ∃ s, compile (Spec_Selector (Res_Spec instance)) = inl (Some s).

Lemma installed_cache_ok r instance s :
  cache_ok (R_selectorCache r) → cache_ok (R_selectorCache (installed r instance s)).
Proof. intros Hok. cbn. by apply map_Forall_insert_2; [eexists|]. Qed.

Lemma previous_ok r instance : cache_ok (R_selectorCache r) → is_Some (previous r instance).
Proof.
  intros Hok. unfold previous. destruct (R_selectorCache r !! config_key instance) as [s|] eqn:Hs; [|by eexists].
  by apply (Hok _ _ Hs).
Qed.

Lemma reconcile_all_spec pods c instances r :
  lists pods (list_pods_of c) → cache_ok (R_selectorCache r) →
  Forall (current c) instances → NoDup (config_key <$> instances) →
  (∀ instance, instance ∈ instances → R_pluginsCache r !! config_key instance = None) →
  ∃ r', reconcile_all c r instances = Ret r' ∧ cache_ok (R_selectorCache r') ∧
    Forall (reconciled r') instances ∧
    (∀ other, config_key other ∉ config_key <$> instances → reconciled r other → reconciled r' other).
Proof.
  intros Hl. revert r. induction instances as [|i instances IH]; intros r Hok Hcur Hnd Hnew.
  - exists r. split_and!; [done..|constructor|done].
  - apply Forall_cons in Hcur as [(Hg & Hd & s & Hc) Hcur]. cbn in Hnd. apply NoDup_cons in Hnd as [Hnotin Hnd].
    destruct (previous_ok r i Hok) as [s0 Hs0].
    assert (accepted_instance r i s) as Ha.
    { split_and!; [done..|]. rewrite (Hnew i); [done|by left]. }
    destruct (Reconcile_installs pods c r i s s0) as (effs & err & Hrec & _); [done..|].
    destruct (IH (installed r i s)) as (r' & Hrun & Hok' & Hall & Hother); [by apply installed_cache_ok|done..| |].
    { intros j Hj. cbn. rewrite lookup_insert_ne; [apply Hnew; by right|]. intros Heq. apply Hnotin. rewrite Heq.
      by apply list_elem_of_fmap_2. }
    exists r'. split_and!; [|done| |].
    + unfold reconcile_all. rewrite go_foldl_cons, Hrec. exact Hrun.
    + apply Forall_cons. split; [|done]. apply Hother; [done|]. by apply installed_reconciled.
    + intros other Hno Hr. cbn in Hno. apply not_elem_of_cons in Hno as [Hne Hno].
      apply Hother; [done|]. by apply installed_other.
Qed.

(** ** Properties *)

(** Once every AmeshPluginConfig has been reconciled, in whatever order and
    even when the listing of the pods failed, a pod is served exactly the
    plugins of the configurations of its namespace whose selector matches its
    labels, sorted by name and without repetition. *)
Lemma controller_serves_matching_configs pods c subs instances l pod :
  lists pods (list_pods_of c) → Forall (current c) instances → NoDup (config_key <$> instances) →
  ¬ Contains (Pod_Namespace pod) "/" → ¬ Contains (Pod_Name pod) "/" → Pod_Namespace pod ≠ "" →
  get_pod c (Pod_Namespace pod) (Pod_Name pod) = inl pod →
  list_configs c (Pod_Namespace pod) = Ret (inl l) →
  l ≡ₚ filter (λ instance, Res_Namespace instance = Pod_Namespace pod) instances →
  let r := foldl AddPodChangeListener NewAmeshPluginConfigController subs in
  ∃ r' r'' configs, reconcile_all c r instances = Ret r' ∧
    GetPodPluginConfigs c r' (Pod_Namespace pod +:+ "/" +:+ Pod_Name pod) = Ret (r'', inl configs) ∧
    (∀ conf, conf ∈ configs ↔ ∃ instance, instance ∈ instances ∧ Res_Namespace instance = Pod_Namespace pod ∧
       selects instance (Pod_Labels pod) ∧ conf = served instance) ∧
    Sorted String.le (PPC_Name <$> configs) ∧ NoDup (PPC_Name <$> configs).
Proof.
  intros Hl Hcur Hnd Hns Hname Hne Hget Hlist Hsame r.
  assert (R_selectorCache r = ∅ ∧ R_pluginsCache r = ∅) as [Hsel Hplug].
  { unfold r. induction subs as [|sub subs IH] using rev_ind; [done|]. by rewrite foldl_app. }
  destruct (reconcile_all_spec pods c instances r) as (r' & Hrun & Hok & Hall & _); [done| |done..| |].
  { rewrite Hsel. apply map_Forall_empty. }
  { intros i _. by rewrite Hplug, lookup_empty. }
  destruct (GetPodPluginConfigs_eq c r' pod l) as (r'' & configs & Hq & Hconf & Hspec); [done..| | |done|].
  { intros i Hi. rewrite Hsame in Hi. apply list_elem_of_filter in Hi as [Hi Hin].
    rewrite Forall_forall in Hall. auto. }
  { rewrite Hsame. apply (sublist_NoDup _ _ Hnd), fmap_sublist, sublist_filter. }
  exists r', r'', configs. split_and!; [done..| |apply Hspec|apply Hspec].
  intros conf. rewrite Hconf. setoid_rewrite Hsame. setoid_rewrite list_elem_of_filter. naive_solver.
Qed.


(** A change of the selector alone reaches nobody: when the plugins stay
    the same, the pods that the new selector matches are served the
    configuration from now on, but no subscriber is told about any pod,
    whatever the previous selector was. *)
Lemma selector_change_unnoticed pods c r instance s s0 labels :
  get_config c (Res_Namespace instance) (Res_Name instance) = inl instance →
  accepted_instance r instance s → lists pods (list_pods_of c) → previous r instance = Some s0 →
  plugins_changed r instance = false → Matches s labels = true →
  ∃ r' effs err, Reconcile c r (Res_Namespace instance) (Res_Name instance) = Ret (r', effs, err) ∧
    applies (R_selectorCache r') labels instance ∧
    filter (λ e, is_notification e = true) effs = [].
Proof.
  intros Hg Ha Hl Hs0 Hsame Hm.
  destruct (Reconcile_installs pods c r instance s s0) as (effs & err & Hrec & Hok & Herr); [done..|].
  exists (installed r instance s), effs, err. split_and!; [done| |].
  - apply reconciled_applies; [apply installed_reconciled, Ha|]. exists s. split; [apply Ha|done].
  - destruct err as [err|].
    + rewrite Herr by (by eexists). done.
    + destruct (Hok eq_refl) as (olds & news & _ & _ & ->). by rewrite Hsame, filter_app, filter_record.
Qed.

(** A failed listing loses the notification for good: the state already
    holds the new version, so that the retry of the same object returns
    without an effect and without an error. *)
Lemma lister_error_loses_notification c c' r instance s err :
  get_config c (Res_Namespace instance) (Res_Name instance) = inl instance →
  get_config c' (Res_Namespace instance) (Res_Name instance) = inl instance →
  accepted_instance r instance s →
  list_pods_of c (Res_Namespace instance) (previous r instance) = Ret (inr err) →
  ∃ r', Reconcile c r (Res_Namespace instance) (Res_Name instance) = Ret (r', [], Some err) ∧
    Reconcile c' r' (Res_Namespace instance) (Res_Name instance) = Ret (r', [], None).
Proof.
  intros Hg Hg' Ha Hl. exists (installed r instance s). split.
  - rewrite Reconcile_found_unfold by (done || apply Ha). rewrite (reconcile_found_eq c r instance s Ha).
    unfold DiffPods. by rewrite Hl.
  - rewrite Reconcile_found_unfold by (done || apply Ha). unfold reconcile_found, installed.
    cbn [R_pluginsCache]. rewrite lookup_insert_eq. cbn [PPC_Version served]. by rewrite string_leb_refl.
Qed.

(** C34. A deleted resource: its plugins are forgotten and no other is.  When
    the pods that its selector matches can be listed, the selector is forgotten
    too, every subscriber is sent one notification, of exactly these pods of
    the namespace (none is sent when there is no such pod), and nothing else
    happens.  When they cannot be listed the error is returned, the selector
    stays and nobody is notified. *)
Theorem Reconcile_deletes pods c r ns name err s :
  get_config c ns name = inr err → IsNotFound err = true → lists pods (list_pods_of c) →
  R_selectorCache r !! (ns +:+ "/" +:+ name) = Some (Some s) →
  ∃ r' effs err', Reconcile c r ns name = Ret (r', effs, err') ∧
    R_pluginsCache r' = delete (ns +:+ "/" +:+ name) (R_pluginsCache r) ∧ R_subs r' = R_subs r ∧
    (∀ l, list_pods_of c ns (Some s) = Ret (inl l) → err' = None) ∧
    (err' = None → R_selectorCache r' = delete (ns +:+ "/" +:+ name) (R_selectorCache r) ∧
      ∃ names : gset string,
        (∀ n, n ∈ names ↔ ∃ pod, pod ∈ pods ∧ Pod_Namespace pod = ns ∧ Pod_Name pod = n ∧
           Matches s (Pod_Labels pod) = true) ∧
        effs = notifications r ns names) ∧
    (∀ failure, list_pods_of c ns (Some s) = Ret (inr failure) →
      R_selectorCache r' = R_selectorCache r ∧ effs = [] ∧ err' = Some failure).
Proof.
  intros Hg Hnf Hl Hs. unfold Reconcile. rewrite Hg, Hnf, NamespacedName_String_eq.
  unfold reconcile_deleted, Get. cbn [R_selectorCache]. rewrite Hs.
  destruct (Hl ns s) as [(l & Hlist & Hsel)|[err' Hlist]]; rewrite Hlist; cbn [mbind outcome_bind].
  - eexists _, _, None. split_and!; [reflexivity|done..| |done]. intros _. split; [done|]. exists (pod_names l).
    split; [|by rewrite Send_notifications]. intros n. rewrite elem_of_pod_names. unfold selected in Hsel. setoid_rewrite Hsel. naive_solver.
  - eexists _, _, (Some err'). split_and!; [reflexivity|done..|]. by intros failure [= ->].
Qed.

(** What happens to a controller. *)
Inductive controller_input : Type :=
| InReconcile (c : cluster) (ns name : string)
| InQuery (c : cluster) (key : string)
| InListen (receiver : nat).

Definition controller_step r (i : controller_input) : outcome AmeshPluginConfigReconciler :=
  match i with
  | InReconcile c ns name => res ← Reconcile c r ns name; Ret res.1.1
  | InQuery c key => res ← GetPodPluginConfigs c r key; Ret res.1
  | InListen receiver => Ret (AddPodChangeListener r receiver)
  end.

Definition input_ok (i : controller_input) : Prop :=
  match i with
  | InReconcile c _ _ => ∃ pods, lists pods (list_pods_of c)
  | InQuery c _ => ∀ ns, is_ret (list_configs c ns) = true
  | InListen _ => True
  end.

Lemma DiffPods_total pods lister ns s1 s2 :
  lists pods lister → ∃ d, DiffPods lister ns (Some s1) (Some s2) = Ret d.
Proof.
  intros Hl. unfold DiffPods. destruct (Hl ns s1) as [(l1 & -> & _)|[e ->]]; cbn; [|by eexists].
  destruct (Hl ns s2) as [(l2 & -> & _)|[e ->]]; cbn; by eexists.
Qed.

Lemma notify_update_total c r ns hasOld s d changed :
  ∃ sent, notify_update c r ns hasOld (Some s) d changed = Ret (inl sent).
Proof. destruct hasOld; by eexists. Qed.

Lemma Reconcile_total pods c r ns name :
  lists pods (list_pods_of c) → cache_ok (R_selectorCache r) →
  ∃ r' effs err, Reconcile c r ns name = Ret (r', effs, err) ∧ cache_ok (R_selectorCache r').
Proof.
  intros Hl Hok. unfold Reconcile. set (key := NamespacedName_String ns name).
  destruct (get_config c ns name) as [instance|err].
  - destruct (Res_DeletionTimestamp instance); [by eexists _, _, _|]. unfold reconcile_found.
    destruct (match R_pluginsCache r !! key with Some o => _ | None => false end); [by eexists _, _, _|].
    pose proof (Update_ok (R_selectorCache r) key (Spec_Selector (Res_Spec instance)) Hok) as Hok'.
    unfold Update in *. destruct (compile _) as [sel|] eqn:Hc; [|by eexists _, _, _].
    apply compile_is_Some in Hc as [s ->]. cbn [fst] in Hok'.
    assert (∃ s0, match Get (R_selectorCache r) key with Some s => s | None => Some Everything end = Some s0) as [s0 ->].
    { unfold Get. destruct (R_selectorCache r !! key) as [s1|] eqn:Hs1; [|by eexists].
      destruct (Hok _ _ Hs1) as [s2 ->]. by eexists. }
    destruct (DiffPods_total pods (list_pods_of c) ns s0 s Hl) as [[d|e] ->]; cbn [mbind outcome_bind]; [|by eexists _, _, _].
    edestruct (notify_update_total c) as [sent ->]. cbn [mbind outcome_bind]. by eexists _, _, _.
  - destruct (IsNotFound err); [|by eexists _, _, _]. unfold reconcile_deleted, Get. cbn [R_selectorCache].
    destruct (R_selectorCache r !! key) as [s1|] eqn:Hs1.
    + destruct (Hok _ _ Hs1) as [s ->].
      destruct (Hl ns s) as [(l & -> & _)|[e ->]]; cbn [mbind outcome_bind]; eexists _, _, _; (split; [reflexivity|]).
      * by apply Delete_ok.
      * done.
    + eexists _, _, _. split; [reflexivity|]. by apply Delete_ok.
Qed.

Lemma GetPodPluginConfigs_total c r key :
  (∀ ns, is_ret (list_configs c ns) = true) → cache_ok (R_selectorCache r) →
  ∃ r' res, GetPodPluginConfigs c r key = Ret (r', res) ∧ cache_ok (R_selectorCache r').
Proof.
  intros Hret Hok. unfold GetPodPluginConfigs. destruct (SplitMetaNamespaceKey key) as [[ns name]|]; [|by eexists _, _].
  destruct (get_pod c ns name) as [pod|]; [|by eexists _, _].
  destruct (matched_keys_total (list_configs c) (R_selectorCache r) pod (Hret _) Hok) as ([sc [keys|e]] & -> & Hok');
    cbn; by eexists _, _.
Qed.

(** The controller never panics: from its constructor, whatever sequence
    of reconciliations, queries and subscriptions, with any configurations and
    any errors of the API server and of the listers (which themselves return), every operation returns
    (no nil selector gets into the cache, and the branches of the code for a
    nil selector are never taken). *)
Lemma controller_never_panics inputs :
  Forall input_ok inputs →
  ∃ r, go_foldl controller_step NewAmeshPluginConfigController inputs = Ret r ∧ cache_ok (R_selectorCache r).
Proof.
  assert (cache_ok (R_selectorCache NewAmeshPluginConfigController)) as Hok by apply map_Forall_empty.
  revert Hok. generalize NewAmeshPluginConfigController as r.
  induction inputs as [|i inputs IH]; intros r Hok Hin; [by exists r|].
  apply Forall_cons in Hin as [Hi Hin]. rewrite go_foldl_cons.
  assert (∃ r', controller_step r i = Ret r' ∧ cache_ok (R_selectorCache r')) as (r' & -> & Hok').
  { destruct i as [c ns name|c key|receiver]; cbn.
    - destruct Hi as [pods Hl]. destruct (Reconcile_total pods c r ns name Hl Hok) as (r' & effs & err & -> & Hok').
      by exists r'.
    - destruct (GetPodPluginConfigs_total c r key Hi Hok) as (r' & res & -> & Hok'). by exists r'.
    - by exists (AddPodChangeListener r receiver). }
  by apply IH.
Qed.
End Spec.

(** ** Witnesses *)

Section Witnesses.
#[local] Existing Instance k8s_example.
#[local] Existing Instance map_order.

Definition example_resource (version app : string) : AmeshPluginConfigResource :=
  mkAmeshPluginConfigResource "default" "conf" version 1 None
    (mkAmeshPluginConfigSpec [example_plugin "a"] (Some (mkLabelSelector {["app" := app]} []))) [].

Definition example_cluster (instance : AmeshPluginConfigResource) : cluster := {|
  get_config := λ ns name,
    if bool_decide (ns = "default" ∧ name = "conf") then inl instance else inr (Errorf "not found");
  get_pod := λ ns name, match list_find (λ pod, Pod_Namespace pod = ns ∧ Pod_Name pod = name) example_pods with
    | Some (_, pod) => inl pod | None => inr (Errorf "not found") end;
  list_pods_of := list_pods example_pods;
  list_configs := λ ns, Ret (inl (if bool_decide (ns = "default") then [instance] else []));
  clock := 1
|}.

Definition example_pod : Pod := mkPod "default" "web" {["app" := "web"]} "1".

Definition one_sub : AmeshPluginConfigReconciler := AddPodChangeListener NewAmeshPluginConfigController 7.

(** The reconciler after the first version of the resource. *)
Definition after_first : AmeshPluginConfigReconciler :=
  installed one_sub (example_resource "1" "db") ({["app" := "db"]} : gmap string string).

(** The second version has another plugin. *)
Definition changed_resource : AmeshPluginConfigResource :=
  mkAmeshPluginConfigResource "default" "conf" "2" 2 None
    (mkAmeshPluginConfigSpec [example_plugin "b"] (Some (mkLabelSelector {["app" := "web"]} []))) [].

Lemma changed_distinct : distinct_plugins after_first changed_resource.
Proof.
  split; [apply (bool_decide_unpack _); vm_compute; exact I|]. intros old Hold.
  assert (old = served (example_resource "1" "db")) as -> by (vm_compute in Hold |- *; congruence).
  apply (bool_decide_unpack _). vm_compute. exact I.
Qed.

Lemma changed_other : other_plugins after_first changed_resource.
Proof.
  apply (plugins_changed_other after_first changed_resource changed_distinct). by vm_compute.
Qed.


Lemma selector_change_unnoticed_witness :
  let c := example_cluster (example_resource "2" "web") in
  let i := example_resource "2" "web" in
  ∃ r' effs err, Reconcile c after_first "default" "conf" = Ret (r', effs, err) ∧
    applies (R_selectorCache r') (Pod_Labels example_pod) i ∧
    filter (λ e, is_notification e = true) effs = [].
Proof.
  intros c i. apply (selector_change_unnoticed example_pods c after_first i
    ({["app" := "web"]} : gmap string string) ({["app" := "db"]} : gmap string string)).
  - by vm_compute.
  - by vm_compute.
  - apply list_pods_lists.
  - by vm_compute.
  - by vm_compute.
  - by vm_compute.
Defined.

(** A cluster whose pod lister fails. *)
Definition failing_cluster (instance : AmeshPluginConfigResource) : cluster :=
  mkCluster (get_config (example_cluster instance)) (get_pod (example_cluster instance))
    (λ _ _, Ret (inr (Errorf "cache not synced"))) (list_configs (example_cluster instance)) 1.

Lemma lister_error_loses_notification_witness :
  let i := example_resource "1" "web" in
  ∃ r', Reconcile (failing_cluster i) one_sub "default" "conf" = Ret (r', [], Some (Errorf "cache not synced")) ∧
    Reconcile (example_cluster i) r' "default" "conf" = Ret (r', [], None).
Proof.
  intros i. apply (lister_error_loses_notification (failing_cluster i) (example_cluster i) one_sub i
    ({["app" := "web"]} : gmap string string)).
  - by vm_compute.
  - by vm_compute.
  - by vm_compute.
  - by vm_compute.
Defined.

(** The cluster after the deletion of the resource. *)
Definition deleted_cluster : cluster :=
  mkCluster (λ _ _, inr (Errorf "not found")) (get_pod (example_cluster (example_resource "1" "db")))
    (list_pods example_pods) (λ _, Ret (inl [])) 1.

Lemma Reconcile_deletes_witness :
  let s : gmap string string := {["app" := "db"]} in
  ∃ r' effs, Reconcile deleted_cluster after_first "default" "conf" = Ret (r', effs, None) ∧
    R_pluginsCache r' = delete "default/conf" (R_pluginsCache after_first) ∧
    R_selectorCache r' = delete "default/conf" (R_selectorCache after_first) ∧
    ∃ names : gset string,
      (∀ n, n ∈ names ↔ ∃ pod, pod ∈ example_pods ∧ Pod_Namespace pod = "default" ∧ Pod_Name pod = n ∧
         @Matches k8s_example s (Pod_Labels pod) = true) ∧
      effs = notifications after_first "default" names.
Proof.
  intros s. destruct (Reconcile_deletes example_pods deleted_cluster after_first "default" "conf" (Errorf "not found") s)
    as (r' & effs & err' & Hrec & Hp & _ & Herr & Hok & _); [done|by vm_compute|apply list_pods_lists|by vm_compute|].
  rewrite (Herr _ eq_refl) in Hrec, Hok. destruct (Hok eq_refl) as [Hsel Hnames]. exists r', effs. by split_and!.
Defined.

Lemma controller_never_panics_witness :
  let inputs := [InListen 7; InReconcile (example_cluster (example_resource "1" "web")) "default" "conf";
                 InReconcile deleted_cluster "default" "conf"; InQuery deleted_cluster "default/web"] in
  ∃ r, go_foldl controller_step NewAmeshPluginConfigController inputs = Ret r ∧ cache_ok (R_selectorCache r).
Proof.
  intros inputs. apply (controller_never_panics inputs).
  repeat apply Forall_cons_2; [exact I|by exists example_pods; apply list_pods_lists..|done|constructor].
Defined.
End Witnesses.
