(* ===== verification/Interleaving.v ===== *)
(** * Interleaved reconciliations and queries
    (src/controller/controllers/amesh/ameshpluginconfig_controller.go,
    src/controller/utils/selector_cache.go)

    Reconciler.v treats an operation of the controller as one step.  Here the
    worker, the queries of the plugin server's streams and the pod handlers are
    goroutines that share the two caches, each critical section (what is
    between a [Lock] and its [Unlock]) being one access.  Run alone, a
    goroutine computes what Reconciler.v says; interleaved in any way none of
    them ever panics, and the configurations that are served are genuine; but
    a query that compiles a selector can overwrite the one of a newer version. *)

From stdpp Require Import relations.
From S2P Require Import Prelude GoStrings StringSet ControllerTypes ControllerUtils SelectorCache Reconciler.
Local Open Scope Z_scope.

(** ** Accesses *)

Section Accesses.
Context `{GoRange} `{K8sLib}.

Inductive access : Type :=
| GetSelector (key : string)                                 (** [SelectorCache.lock] *)
| SetSelector (key : string) (selector : option Selector)
| DeleteSelector (key : string)
| GetPlugins (key : string)                                  (** [pluginsCacheLock] *)
| SetPlugins (key : string) (config : PodPluginConfig)
| DeletePlugins (key : string)
| ReadPlugins (keys : gset string)                           (** the loop of [GetPodPluginConfigs] *)
| Notify (ns : string) (names : gset string)                 (** [SendPluginsConfigs], under [subsLock] *)
| GetConfig (ns name : string)                               (** the client and the listers *)
| GetPod (ns name : string)
| ListPods (ns : string) (selector : option Selector)
| ListConfigs (ns : string)
| RecordStatus (config : AmeshPluginConfigResource).

Definition result (a : access) : Type :=
  match a with
  | GetSelector _ => option (option Selector)
  | GetPlugins _ => option PodPluginConfig
  | ReadPlugins _ => list PodPluginConfig
  | GetConfig _ _ => AmeshPluginConfigResource + error
  | GetPod _ _ => Pod + error
  | ListPods _ _ => list Pod + error
  | ListConfigs _ => list AmeshPluginConfigResource + error
  | _ => unit
  end.

(** The caches after an access, its effects and what it returns. *)
Definition perform (c : cluster) (r : AmeshPluginConfigReconciler) (a : access) :
    outcome (AmeshPluginConfigReconciler * list controller_effect * result a) :=
  let selectors sc := mkReconciler sc (R_pluginsCache r) (R_subs r) in
  let plugins m := mkReconciler (R_selectorCache r) m (R_subs r) in
  match a with
  | GetSelector key => Ret (r, [], Get (R_selectorCache r) key)
  | SetSelector key selector => Ret (selectors (<[key := selector]> (R_selectorCache r)), [], tt)
  | DeleteSelector key => Ret (selectors (Delete (R_selectorCache r) key), [], tt)
  | GetPlugins key => Ret (r, [], R_pluginsCache r !! key)
  | SetPlugins key config => Ret (plugins (<[key := config]> (R_pluginsCache r)), [], tt)
  | DeletePlugins key => Ret (plugins (delete key (R_pluginsCache r)), [], tt)
  | ReadPlugins keys => Ret (r, [], cached_configs (R_pluginsCache r) keys)
  | Notify ns names => Ret (r, SendPluginsConfigs r ns names, tt)
  | GetConfig ns name => Ret (r, [], get_config c ns name)
  | GetPod ns name => Ret (r, [], get_pod c ns name)
  | ListPods ns selector => pods ← list_pods_of c ns selector; Ret (r, [], pods)
  | ListConfigs ns => configs ← list_configs c ns; Ret (r, [], configs)
  | RecordStatus config => Ret (r, recordStatus (clock c) config ResourceReconciled None "True", tt)
  end.

(** The rest of a goroutine: finished, or about to make an access. *)
Inductive prog (A : Type) : Type :=
| Done (res : outcome A)
| Access (a : access) (k : result a → prog A).
Arguments Done {A} res.
Arguments Access {A} a k.

Fixpoint prog_bind {A B} (f : A → prog B) (p : prog A) : prog B :=
  match p with
  | Done (Ret a) => f a
  | Done (Panic why) => Done (Panic why)
  | Access a k => Access a (λ x, prog_bind f (k x))
  end.

#[export] Instance prog_mret : MRet prog := λ A a, Done (Ret a).
#[export] Instance prog_mbind : MBind prog := @prog_bind.

Definition call (a : access) : prog (result a) := Access a mret.

(** A goroutine that runs without interference. *)
Fixpoint run_alone {A} (c : cluster) (r : AmeshPluginConfigReconciler) (p : prog A) :
    outcome (AmeshPluginConfigReconciler * list controller_effect * A) :=
  match p with
  | Done res => a ← res; Ret (r, [], a)
  | Access a k =>
      res ← perform c r a;
      let '(r, effs, x) := res in
      rest ← run_alone c r (k x);
      let '(r, effs', v) := rest in
      Ret (r, effs ++ effs', v)
  end.

(** ** The goroutines *)

(** [SelectorCache.Update] *)
Definition Update_prog (key : string) (metaSelector : option LabelSelector) : prog (option Selector + error) :=
  match compile metaSelector with
  | inr err => mret (inr err)
  | inl selector => _ ← call (SetSelector key selector); mret (inl selector)
  end.

(** [SelectorCache.GetPodPluginConfigs]: the loop over the listed configurations. *)
Fixpoint match_configs_prog (labels : gmap string string) (keys : gset string)
    (configs : list AmeshPluginConfigResource) : prog (gset string + error) :=
  match configs with
  | [] => mret (inl keys)
  | config :: configs =>
      match MetaNamespaceKey (Res_Namespace config) (Res_Name config) with
      | inr err => mret (inr err)
      | inl key =>
          match Spec_Selector (Res_Spec config) with
          | None => match_configs_prog labels ({[key]} ∪ keys) configs
          | Some metaSelector =>
              v ← call (GetSelector key);
              selector ← match v with Some v => mret (inl v) | None => Update_prog key (Some metaSelector) end;
              match selector with
              | inr err => mret (inr err)
              | inl selector =>
                  matched ← Done (selector_matches selector labels);
                  match_configs_prog labels (if (matched : bool) then {[key]} ∪ keys else keys) configs
              end
          end
      end
  end.

Definition matched_keys_prog (pod : Pod) : prog (gset string + error) :=
  configs ← call (ListConfigs (Pod_Namespace pod));
  match configs with
  | inr err => mret (inr err)
  | inl configs => match_configs_prog (Pod_Labels pod) ∅ configs
  end.

(** [AmeshPluginConfigReconciler.GetPodPluginConfigs] *)
Definition GetPodPluginConfigs_prog (key : string) : prog (list PodPluginConfig + error) :=
  match SplitMetaNamespaceKey key with
  | inr err => mret (if IsNotFound err then inl [] else inr err)
  | inl (ns, name) =>
      pod ← call (GetPod ns name);
      match pod with
      | inr err => mret (inr err)
      | inl pod =>
          keys ← matched_keys_prog pod;
          match keys with
          | inr err => mret (inr err)
          | inl keys => configs ← call (ReadPlugins keys); mret (inl configs)
          end
      end
  end.

Definition DiffPods_prog (ns : string) (oldSelector newSelector : option Selector) : prog (pods_diff + error) :=
  oldPods ← call (ListPods ns oldSelector);
  match oldPods with
  | inr err => mret (inr err)
  | inl oldPods =>
      newPods ← call (ListPods ns newSelector);
      match newPods with
      | inr err => mret (inr err)
      | inl newPods =>
          let d := foldl (diff_old (pod_names oldPods)) (mkPodsDiff ∅ ∅ ∅) oldPods in
          mret (inl (foldl (diff_new (pod_names newPods)) d newPods))
      end
  end.

(** Some calls of [SendPluginsConfigs] in a row. *)
Fixpoint notify_all (ns : string) (sets : list (gset string)) : prog unit :=
  match sets with
  | [] => mret tt
  | names :: sets => _ ← call (Notify ns names); notify_all ns sets
  end.

Definition notify_update_prog (ns : string) (hasOldSelector : bool) (newSelector : option Selector) (d : pods_diff)
    (pluginChanged : bool) : prog (option error) :=
  match hasOldSelector, newSelector with
  | false, None =>
      if pluginChanged then
        allPods ← call (ListPods ns (Some Everything));
        match allPods with
        | inr err => mret (Some err)
        | inl allPods => _ ← notify_all ns [pod_names allPods]; mret None
        end
      else mret None
  | false, Some _ =>
      _ ← notify_all ns (onlyInOld d :: if pluginChanged then [both d; onlyInNew d] else []); mret None
  | true, None =>
      _ ← notify_all ns (onlyInNew d :: if pluginChanged then [onlyInOld d; both d] else []); mret None
  | true, Some _ =>
      _ ← notify_all ns (onlyInOld d :: onlyInNew d :: if pluginChanged then [both d] else []); mret None
  end.

Definition reconcile_deleted_prog (ns key : string) : prog (option error) :=
  _ ← call (DeletePlugins key);
  old ← call (GetSelector key);
  match old with
  | None => _ ← call (DeleteSelector key); mret None
  | Some oldSelector =>
      pods ← call (ListPods ns oldSelector);
      match pods with
      | inr err => mret (Some err)
      | inl pods =>
          _ ← call (Notify ns (pod_names pods));
          _ ← call (DeleteSelector key);
          mret None
      end
  end.

Definition reconcile_found_prog (ns key : string) (instance : AmeshPluginConfigResource) : prog (option error) :=
  cached ← call (GetPlugins key);
  let old_version := match cached with
    | Some oldConfig => String.leb (Res_ResourceVersion instance) (PPC_Version oldConfig)
    | None => false
    end in
  if old_version then mret None
  else
    old ← call (GetSelector key);
    updated ← Update_prog key (Spec_Selector (Res_Spec instance));
    match updated with
    | inr err => mret (Some err)
    | inl newSelector =>
        let newPlugins := Spec_Plugins (Res_Spec instance) in
        _ ← call (SetPlugins key (mkPodPluginConfig key newPlugins (Res_ResourceVersion instance)));
        let hasOldSelector := match old with Some _ => true | None => false end in
        let oldSelector := match old with Some s => s | None => Some Everything end in
        diff ← DiffPods_prog ns oldSelector newSelector;
        match diff with
        | inr err => mret (Some err)
        | inl d =>
            let pluginChanged := match cached with
              | Some oldConfig => negb (PluginsConfigEqual (PPC_Plugins oldConfig) newPlugins)
              | None => true
              end in
            failed ← notify_update_prog ns hasOldSelector newSelector d pluginChanged;
            match failed with
            | Some err => mret (Some err)
            | None => _ ← call (RecordStatus instance); mret None
            end
        end
    end.

Definition Reconcile_prog (ns name : string) : prog (option error) :=
  let key := NamespacedName_String ns name in
  instance ← call (GetConfig ns name);
  match instance with
  | inr err => if IsNotFound err then reconcile_deleted_prog ns key else mret (Some err)
  | inl instance =>
      match Res_DeletionTimestamp instance with
      | Some _ => mret None
      | None => reconcile_found_prog ns key instance
      end
  end.

(** ** Alone, a goroutine does what Reconciler.v says *)

Lemma run_alone_bind {A B} c (f : A → prog B) p : ∀ r,
  run_alone c r (p ≫= f) =
    (res ← run_alone c r p; let '(r, effs, a) := res in
     rest ← run_alone c r (f a); let '(r, effs', b) := rest in Ret (r, effs ++ effs', b)).
Proof.
  induction p as [[a|why]|a k IH]; intros r; [|done|].
  - cbn. by destruct (run_alone c r (f a)) as [[[]]|].
  - change (Access a k ≫= f) with (Access a (λ x, k x ≫= f)). cbn [run_alone].
    destruct (perform c r a) as [[[r1 effs] x]|]; [|done]. cbn [mbind outcome_bind]. rewrite IH.
    destruct (run_alone c r1 (k x)) as [[[r2 effs2] v]|]; [|done]. cbn [mbind outcome_bind].
    destruct (run_alone c r2 (f v)) as [[[r3 effs3] w]|]; [|done]. cbn [mbind outcome_bind].
    by rewrite app_assoc.
Qed.

Lemma run_alone_call c r a : run_alone c r (call a) = perform c r a.
Proof. cbn. destruct (perform c r a) as [[[r' effs] x]|]; [|done]. cbn. by rewrite app_nil_r. Qed.

Lemma run_alone_Done {A} c r (res : outcome A) : run_alone c r (Done res) = (a ← res; Ret (r, [], a)).
Proof. done. Qed.

Lemma run_alone_mret {A} c r (a : A) : run_alone c r (mret a) = Ret (r, [], a).
Proof. done. Qed.
End Accesses.

Arguments Done {_ _} res.
Arguments Access {_ _} a k.

Section Alone.
Context `{GoRange} `{K8sLib}.
Implicit Types (r : AmeshPluginConfigReconciler) (c : cluster).

Lemma bind_Ret {A B} (a : A) (f : A → outcome B) : Ret a ≫= f = f a.
Proof. done. Qed.
Lemma bind_Panic {A B} why (f : A → outcome B) : Panic why ≫= f = Panic why.
Proof. done. Qed.

(** Runs a goroutine up to the next case distinction. *)
#[local] Ltac alone :=
  repeat first [rewrite run_alone_bind | rewrite run_alone_mret | rewrite run_alone_Done | rewrite bind_Ret | rewrite bind_Panic
    | progress cbn [perform fst snd app R_selectorCache R_pluginsCache R_subs]
    | match goal with |- context [@run_alone _ ?A ?c ?r (call ?a)] =>
        rewrite (run_alone_call c r a : @run_alone _ A c r (call a) = perform c r a) end].

(** A reconciler with other selectors. *)
Definition with_selectors (r : AmeshPluginConfigReconciler) (sc : SelectorCache) : AmeshPluginConfigReconciler :=
  mkReconciler sc (R_pluginsCache r) (R_subs r).

Lemma with_selectors_same r : with_selectors r (R_selectorCache r) = r.
Proof. by destruct r. Qed.

Lemma match_configs_failed labels sc err configs :
  go_foldl (match_config labels) (sc, inr err) configs = Ret (sc, inr err).
Proof. by induction configs. Qed.

Lemma alone_Update c r key ms :
  run_alone c r (Update_prog key ms) =
    let '(sc, res) := Update (R_selectorCache r) key ms in Ret (with_selectors r sc, [], res).
Proof.
  unfold Update_prog, Update. destruct (compile ms) as [s|err]; [done|]. by rewrite with_selectors_same.
Qed.

Lemma alone_match_configs c labels configs : ∀ r keys,
  run_alone c r (match_configs_prog labels keys configs) =
    (res ← go_foldl (match_config labels) (R_selectorCache r, inl keys) configs;
     Ret (with_selectors r res.1, [], res.2)).
Proof.
  induction configs as [|config configs IH]; intros r keys.
  - cbn. by rewrite with_selectors_same.
  - cbn [match_configs_prog go_foldl match_config].
    destruct (MetaNamespaceKey _ _) as [key|err].
    2: { cbn [mbind outcome_bind]. rewrite match_configs_failed, run_alone_mret. cbn. by rewrite with_selectors_same. }
    destruct (Spec_Selector (Res_Spec config)) as [ms|]; [|cbn [mbind outcome_bind]; by rewrite IH].
    alone. unfold Get. destruct (R_selectorCache r !! key) as [v|] eqn:Hv.
    + alone. destruct (selector_matches v labels) as [b|why]; [|done]. alone. rewrite IH.
      by destruct (go_foldl _ _ _) as [[sc res]|].
    + alone. rewrite alone_Update. destruct (Update (R_selectorCache r) key (Some ms)) as [sc [v|err]].
      * alone. destruct (selector_matches v labels) as [b|why]; [|done]. alone. rewrite IH. by destruct (go_foldl _ _ _) as [[sc' res]|].
      * alone. by rewrite match_configs_failed.
Qed.

Lemma alone_GetPodPluginConfigs c r key :
  run_alone c r (GetPodPluginConfigs_prog key) =
    (res ← GetPodPluginConfigs c r key; let '(r, answer) := res in Ret (r, [], answer)).
Proof.
  unfold GetPodPluginConfigs_prog, GetPodPluginConfigs. destruct (SplitMetaNamespaceKey key) as [[ns name]|err]; [|done].
  alone. destruct (get_pod c ns name) as [pod|err]; [|done].
  unfold matched_keys_prog, matched_keys. alone.
  destruct (list_configs c (Pod_Namespace pod)) as [[configs|err]|why]; [| |done].
  - alone. rewrite alone_match_configs. destruct (go_foldl _ _ _) as [[sc [keys|err]]|why]; [|done..]. by alone.
  - alone. by destruct r.
Qed.

Lemma alone_DiffPods c r ns old new :
  run_alone c r (DiffPods_prog ns old new) = (d ← DiffPods (list_pods_of c) ns old new; Ret (r, [], d)).
Proof.
  unfold DiffPods_prog, DiffPods. alone. destruct (list_pods_of c ns old) as [[oldPods|]|]; [|done..].
  alone. by destruct (list_pods_of c ns new) as [[newPods|]|].
Qed.

Lemma alone_notify_all c r ns sets :
  run_alone c r (notify_all ns sets) = Ret (r, concat (SendPluginsConfigs r ns <$> sets), tt).
Proof. induction sets as [|names sets IH]; [done|]. cbn [notify_all]. alone. by rewrite IH. Qed.

Lemma alone_notify_update c r ns hasOld newSelector d changed :
  run_alone c r (notify_update_prog ns hasOld newSelector d changed) =
    (res ← notify_update c r ns hasOld newSelector d changed;
     Ret (match res with inl effs => (r, effs, None) | inr err => (r, [], Some err) end)).
Proof.
  unfold notify_update_prog, notify_update. destruct hasOld, newSelector.
  1-3: alone; rewrite alone_notify_all; alone; destruct changed; cbn; by rewrite ?app_nil_r.
  destruct changed; [|done]. alone. destruct (list_pods_of c ns (Some Everything)) as [[pods|]|]; [|done..].
  alone. cbn. by rewrite !app_nil_r.
Qed.

Lemma alone_reconcile_deleted c r ns key :
  run_alone c r (reconcile_deleted_prog ns key) = reconcile_deleted c r ns key.
Proof.
  unfold reconcile_deleted_prog, reconcile_deleted. unfold Get. alone. unfold Get.
  destruct (R_selectorCache r !! key) as [old|]; [|done]. alone.
  destruct (list_pods_of c ns old) as [[pods|]|]; [|done..]. alone. by rewrite app_nil_r.
Qed.

Lemma alone_reconcile_found c r ns key instance :
  run_alone c r (reconcile_found_prog ns key instance) = reconcile_found c r ns key instance.
Proof.
  unfold reconcile_found_prog, reconcile_found. alone. set (old_version := match _ with Some _ => _ | None => _ end).
  destruct old_version; [done|]. alone. rewrite alone_Update.
  destruct (Update (R_selectorCache r) key (Spec_Selector (Res_Spec instance))) as [sc [newSelector|err]] eqn:Hu.
  2: { unfold Update in Hu. destruct (compile _); [done|]. injection Hu as <- <-. alone. by rewrite with_selectors_same. }
  alone. rewrite alone_DiffPods. unfold Get. cbn [with_selectors R_selectorCache R_pluginsCache R_subs].
  destruct (DiffPods _ _ _ _) as [[d|err]|why]; [|done..]. alone. rewrite alone_notify_update.
  match goal with |- context [notify_update ?c ?r ?ns ?h ?n ?d ?ch] => destruct (notify_update c r ns h n d ch) as [[effs|err]|why] end;
    [|done..]. alone. by rewrite app_nil_r.
Qed.

Lemma alone_Reconcile c r ns name : run_alone c r (Reconcile_prog ns name) = Reconcile c r ns name.
Proof.
  unfold Reconcile_prog, Reconcile. alone. destruct (get_config c ns name) as [instance|err].
  - destruct (Res_DeletionTimestamp instance); [by alone|]. rewrite alone_reconcile_found.
    by destruct (reconcile_found _ _ _ _ _) as [[[]]|].
  - destruct (IsNotFound err); [|by alone]. rewrite alone_reconcile_deleted.
    by destruct (reconcile_deleted _ _ _ _) as [[[]]|].
Qed.
End Alone.

(** The two models of the controller agree: a goroutine that runs
    without interference, one critical section after the other, has exactly
    the effects, the result and the panics that Reconciler.v gives the whole
    operation, for every reconciliation (created, updated or deleted resource,
    every error of the listers) and every query. *)
Lemma alone_is_atomic `{GoRange} `{K8sLib} c r :
  (∀ ns name, run_alone c r (Reconcile_prog ns name) = Reconcile c r ns name) ∧
  (∀ key, run_alone c r (GetPodPluginConfigs_prog key) =
     (res ← GetPodPluginConfigs c r key; Ret (res.1, [], res.2))).
Proof.
  split; [intros; apply alone_Reconcile|]. intros key. rewrite alone_GetPodPluginConfigs.
  by destruct (GetPodPluginConfigs c r key) as [[]|].
Qed.

(** ** Guarantees of a goroutine, whatever the others do *)

Section Guarantees.
Context `{GoRange} `{!K8sLib} `{!K8sLaws}.

(** The resources that the API server returns. *)
Context (genuine : AmeshPluginConfigResource → Prop).
Implicit Types (r : AmeshPluginConfigReconciler) (c : cluster).

Definition genuine_config (key : string) (config : PodPluginConfig) : Prop :=
  ∃ instance, genuine instance ∧ key = config_key instance ∧ config = served instance.

Definition caches_ok r : Prop :=
  cache_ok (R_selectorCache r) ∧ map_Forall genuine_config (R_pluginsCache r).

Record cluster_ok c : Prop := {
  CL_pods : ∀ ns s, is_ret (list_pods_of c ns (Some s)) = true;
  CL_configs : ∀ ns, is_ret (list_configs c ns) = true;
  CL_genuine : ∀ ns name instance, get_config c ns name = inl instance →
    genuine instance ∧ Res_Namespace instance = ns ∧ Res_Name instance = name
}.

(** What an access requires, and what it may return. *)
Definition access_ok (a : access) : Prop :=
  match a with
  | SetSelector _ selector | ListPods _ selector => is_Some selector
  | SetPlugins key config => genuine_config key config
  | _ => True
  end.

Definition result_ok (a : access) : result a → Prop :=
  match a with
  | GetSelector _ => λ v, ∀ selector, v = Some selector → is_Some selector
  | ReadPlugins _ => λ configs, ∀ config, config ∈ configs → ∃ key, genuine_config key config
  | GetConfig ns name => λ res, ∀ instance, res = inl instance →
      genuine instance ∧ Res_Namespace instance = ns ∧ Res_Name instance = name
  | _ => λ _, True
  end.

Lemma cached_configs_in plugins keys config :
  config ∈ cached_configs plugins keys → ∃ key, plugins !! key = Some config.
Proof.
  rewrite cached_configs_filter. intros (key & _ & Hk)%list_elem_of_omap. by exists key.
Qed.

Lemma perform_ok c r a :
  cluster_ok c → caches_ok r → access_ok a →
  ∃ r' effs x, perform c r a = Ret (r', effs, x) ∧ caches_ok r' ∧ result_ok a x.
Proof.
  intros Hc [Hs Hp] Ha.
  destruct a as [key|key selector|key|key|key config|key|keys|ns names|ns name|ns name|ns selector|ns|config];
    cbn [perform access_ok result_ok] in *.
  11: { destruct Ha as [s ->]. pose proof (CL_pods c Hc ns s) as Hl. destruct (list_pods_of _ _ _); [|done]. by eexists _, _, _. }
  11: { pose proof (CL_configs c Hc ns) as Hl. destruct (list_configs _ _); [|done]. by eexists _, _, _. }
  all: eexists _, _, _; split; [reflexivity|]; split; [split; cbn|cbn]; try done.
  - intros selector Hv. by apply (Hs key).
  - by apply map_Forall_insert_2.
  - by apply Delete_ok.
  - by apply map_Forall_insert_2.
  - by apply map_Forall_delete.
  - intros config (key & Hk)%cached_configs_in. exists key. by apply Hp.
  - by apply CL_genuine.
Qed.

(** [guarantees Q p]: the goroutine never panics, respects what its accesses
    require, and ends with a result in [Q], if the results of its accesses are
    what they may be. *)
Fixpoint guarantees {A} (Q : A → Prop) (p : prog A) : Prop :=
  match p with
  | Done res => ∃ a, res = Ret a ∧ Q a
  | Access a k => access_ok a ∧ ∀ x, result_ok a x → guarantees Q (k x)
  end.

Lemma guarantees_mret {A} (Q : A → Prop) a : Q a → guarantees Q (mret a).
Proof. by exists a. Qed.

Lemma guarantees_bind {A B} (Q : B → Prop) (f : A → prog B) p :
  guarantees (λ a, guarantees Q (f a)) p → guarantees Q (p ≫= f).
Proof.
  induction p as [res|a k IH]; [by intros (a & -> & Hf)|]. intros [Ha Hk]. split; [done|].
  intros x Hx. by apply IH, Hk.
Qed.

Lemma guarantees_call a (Q : result a → Prop) :
  access_ok a → (∀ x, result_ok a x → Q x) → guarantees Q (call a).
Proof. intros Ha Hq. split; [done|]. intros x Hx. by apply guarantees_mret, Hq. Qed.

Lemma guarantees_mono {A} (Q Q' : A → Prop) p : (∀ a, Q a → Q' a) → guarantees Q p → guarantees Q' p.
Proof.
  intros HQ. induction p as [res|a k IH]; [intros (a & -> & Ha); exists a; auto|].
  intros [Ha Hk]. split; [done|]. intros x Hx. by apply IH, Hk.
Qed.

(** One access of a goroutine. *)
Lemma guarantees_access {B} a (Q : B → Prop) (f : result a → prog B) :
  access_ok a → (∀ x, result_ok a x → guarantees Q (f x)) → guarantees Q (call a ≫= f).
Proof. intros Ha Hf. by apply guarantees_bind, guarantees_call. Qed.

(** *** The goroutines of the controller *)

#[local] Tactic Notation "access" simple_intropattern(x) simple_intropattern(Hx) :=
  apply guarantees_access; [cbn [access_ok]; try done|intros x Hx].

Lemma Update_guarantees (Q : option Selector + error → Prop) key ms :
  (∀ s, compile ms = inl (Some s) → Q (inl (Some s))) → (∀ err, Q (inr err)) →
  guarantees Q (Update_prog key ms).
Proof.
  intros Hs He. unfold Update_prog. destruct (compile ms) as [s|err] eqn:Hc; [|by apply guarantees_mret].
  destruct (compile_is_Some ms s Hc) as [s' ->]. access [] _. by apply guarantees_mret, Hs.
Qed.

Lemma match_configs_guarantees labels configs : ∀ keys, guarantees (λ _, True) (match_configs_prog labels keys configs).
Proof.
  induction configs as [|config configs IH]; intros keys; [by apply guarantees_mret|]. cbn [match_configs_prog].
  destruct (MetaNamespaceKey _ _) as [key|]; [|by apply guarantees_mret].
  destruct (Spec_Selector _) as [ms|]; [|by apply IH]. access x Hx. apply guarantees_bind.
  apply (guarantees_mono (λ sel, ∀ v, sel = inl v → is_Some v)).
  - intros [v|err] Hv; [|by apply guarantees_mret]. destruct (Hv v eq_refl) as [s ->]. apply IH.
  - destruct x as [v|]; [apply guarantees_mret; intros v' [= <-]; by apply Hx|].
    apply Update_guarantees; [intros s _ v [= <-]; by eexists|done].
Qed.

Lemma GetPodPluginConfigs_guarantees key :
  guarantees (λ res, ∀ configs, res = inl configs → ∀ config, config ∈ configs → ∃ key, genuine_config key config)
    (GetPodPluginConfigs_prog key).
Proof.
  unfold GetPodPluginConfigs_prog. destruct (SplitMetaNamespaceKey key) as [[ns name]|err].
  2: { apply guarantees_mret. destruct (IsNotFound err); [|done]. by intros configs [= <-] config ?%elem_of_nil. }
  access pod _. destruct pod as [pod|]; [|by apply guarantees_mret]. unfold matched_keys_prog. apply guarantees_bind.
  access configs _. destruct configs as [configs|]; [|by apply guarantees_mret, guarantees_mret].
  apply (guarantees_mono (λ _, True)); [|apply match_configs_guarantees].
  intros [keys|] _; [|by apply guarantees_mret]. access l Hl. apply guarantees_mret. by intros configs' [= <-].
Qed.

Lemma notify_all_guarantees (Q : unit → Prop) ns sets : Q tt → guarantees Q (notify_all ns sets).
Proof. intros HQ. induction sets as [|names sets IH]; [by apply guarantees_mret|]. cbn [notify_all]. by access x Hx. Qed.

Lemma notify_update_guarantees ns hasOld s d changed :
  guarantees (λ _, True) (notify_update_prog ns hasOld (Some s) d changed).
Proof. unfold notify_update_prog. destruct hasOld; apply guarantees_bind, notify_all_guarantees; by apply guarantees_mret. Qed.

Lemma DiffPods_guarantees ns old new :
  is_Some old → is_Some new → guarantees (λ _, True) (DiffPods_prog ns old new).
Proof.
  intros Ho Hn. unfold DiffPods_prog. access l1 _. destruct l1; [|by apply guarantees_mret].
  access l2 _. destruct l2; by apply guarantees_mret.
Qed.

Lemma reconcile_found_guarantees instance :
  genuine instance →
  guarantees (λ _, True) (reconcile_found_prog (Res_Namespace instance) (config_key instance) instance).
Proof.
  intros Hg. unfold reconcile_found_prog. access cached _. case_match; [by apply guarantees_mret|].
  access old Hold. apply guarantees_bind, Update_guarantees; [|intros; by apply guarantees_mret]. intros s Hs.
  access x Hx; [exists instance; by split_and!|]. apply guarantees_bind.
  apply (guarantees_mono (λ _, True)); [|apply DiffPods_guarantees; [|by eexists]].
  - intros [d|err] _; [|by apply guarantees_mret]. apply guarantees_bind.
    apply (guarantees_mono (λ _, True)); [|apply notify_update_guarantees].
    intros [err|] _; [by apply guarantees_mret|]. access y Hy. by apply guarantees_mret.
  - destruct old as [s0|]; [by apply Hold|by eexists].
Qed.

Lemma Reconcile_guarantees ns name : guarantees (λ _, True) (Reconcile_prog ns name).
Proof.
  unfold Reconcile_prog. access res Hres. destruct res as [instance|err].
  - destruct (Hres instance eq_refl) as (Hg & <- & <-). destruct (Res_DeletionTimestamp instance); [by apply guarantees_mret|].
    rewrite NamespacedName_String_eq. by apply reconcile_found_guarantees.
  - destruct (IsNotFound err); [|by apply guarantees_mret]. unfold reconcile_deleted_prog.
    access x Hx. access old Hold. destruct old as [old|]; [|access y Hy; by apply guarantees_mret].
    access pods _; [by apply Hold|]. destruct pods as [pods|]; [|by apply guarantees_mret]. access y Hy. access z Hz. by apply guarantees_mret.
Qed.

(** ** The system *)

(** A goroutine: the worker on a key, a query of a stream of the plugin server,
    a handler of the pod informer. *)
Inductive thread : Type :=
| Worker (key : string) (p : prog (option error))
| Stream (p : prog (list PodPluginConfig + error))
| PodHandler (p : prog unit).

(** One access of a program; [None] when it has ended. *)
Definition advance {A} c r (p : prog A) : option (outcome (AmeshPluginConfigReconciler * list controller_effect * prog A)) :=
  match p with
  | Done _ => None
  | Access a k => Some (res ← perform c r a; let '(r, effs, x) := res in Ret (r, effs, k x))
  end.

(** One access of a goroutine, in the cluster [c]. *)
Inductive thread_step c r : thread → AmeshPluginConfigReconciler → thread → Prop :=
| WorkerStep key p r' effs p' : advance c r p = Some (Ret (r', effs, p')) → thread_step c r (Worker key p) r' (Worker key p')
| StreamStep p r' effs p' : advance c r p = Some (Ret (r', effs, p')) → thread_step c r (Stream p) r' (Stream p')
| HandlerStep p r' effs p' : advance c r p = Some (Ret (r', effs, p')) → thread_step c r (PodHandler p) r' (PodHandler p').

Definition thread_ended (t : thread) : bool :=
  match t with
  | Worker _ (Done (Ret _)) | Stream (Done (Ret _)) | PodHandler (Done (Ret _)) => true
  | _ => false
  end.

Definition controller_state : Type := AmeshPluginConfigReconciler * gmap nat thread.

(** A key is not given to two workers at a time; the cluster may change between
    any two accesses. *)
Inductive controller_run : controller_state → controller_state → Prop :=
| RunWorker r ts i ns name :
    ts !! i = None → (∀ j p, ts !! j ≠ Some (Worker (NamespacedName_String ns name) p)) →
    controller_run (r, ts) (r, <[i := Worker (NamespacedName_String ns name) (Reconcile_prog ns name)]> ts)
| RunStream r ts i key :
    ts !! i = None → controller_run (r, ts) (r, <[i := Stream (GetPodPluginConfigs_prog key)]> ts)
| RunHandler r ts i ns names :
    ts !! i = None → controller_run (r, ts) (r, <[i := PodHandler (call (Notify ns names))]> ts)
| RunThread c r ts i t r' t' :
    cluster_ok c → ts !! i = Some t → thread_step c r t r' t' → controller_run (r, ts) (r', <[i := t']> ts)
| RunEnd r ts i t :
    ts !! i = Some t → thread_ended t = true → controller_run (r, ts) (r, delete i ts).

Definition thread_ok (t : thread) : Prop :=
  match t with
  | Worker _ p => guarantees (λ _, True) p
  | Stream p => guarantees (λ res, ∀ configs, res = inl configs → ∀ config, config ∈ configs → ∃ key, genuine_config key config) p
  | PodHandler p => guarantees (λ _, True) p
  end.

Definition controller_ok (st : controller_state) : Prop :=
  caches_ok st.1 ∧ map_Forall (λ _ t, thread_ok t) st.2.

Lemma advance_ok {A} (Q : A → Prop) c r p :
  cluster_ok c → caches_ok r → guarantees Q p →
  (∃ a, p = Done (Ret a) ∧ Q a) ∨
  ∃ r' effs p', advance c r p = Some (Ret (r', effs, p')) ∧ caches_ok r' ∧ guarantees Q p'.
Proof.
  intros Hc Hr. destruct p as [res|a k]; [intros (a & -> & Ha); left; by exists a|]. intros [Ha Hk]. right. cbn [advance].
  destruct (perform_ok c r a Hc Hr Ha) as (r' & effs & x & -> & Hr' & Hx).
  exists r', effs, (k x). split_and!; [done|done|by apply Hk].
Qed.

Lemma advance_keeps {A} (Q : A → Prop) c r p r' effs p' :
  cluster_ok c → caches_ok r → guarantees Q p → advance c r p = Some (Ret (r', effs, p')) →
  caches_ok r' ∧ guarantees Q p'.
Proof.
  intros Hc Hr Hp Hadv. destruct (advance_ok Q c r p Hc Hr Hp) as [(a & -> & _)|(r2 & effs2 & p2 & Hadv2 & ? & ?)]; [done|].
  rewrite Hadv in Hadv2. by injection Hadv2 as -> -> ->.
Qed.

Lemma controller_run_ok st st' : controller_run st st' → controller_ok st → controller_ok st'.
Proof.
  destruct 1 as [r ts i ns name Hi Hone|r ts i key Hi|r ts i ns names Hi|c r ts i t r' t' Hc Hi Hstep|r ts i t Hi Hend];
    intros [Hr Hts]; cbn [fst snd] in *.
  - split; [done|]. apply map_Forall_insert_2; [|done]. apply Reconcile_guarantees.
  - split; [done|]. apply map_Forall_insert_2; [|done]. apply GetPodPluginConfigs_guarantees.
  - split; [done|]. apply map_Forall_insert_2; [|done]. by apply guarantees_call.
  - pose proof (Hts i t Hi) as Ht.
    assert (caches_ok r' ∧ thread_ok t') as [Hr' Ht']; [|by split; [|apply map_Forall_insert_2]].
    destruct Hstep as [key p r' effs p' Hadv|p r' effs p' Hadv|p r' effs p' Hadv]; by eapply advance_keeps.
  - split; [done|]. by apply map_Forall_delete.
Qed.

Lemma controller_reach_ok st st' : rtc controller_run st st' → controller_ok st → controller_ok st'.
Proof. induction 1; eauto using controller_run_ok. Qed.

(** An ended goroutine, or one that is never blocked. *)
Lemma thread_progress c r t :
  cluster_ok c → caches_ok r → thread_ok t → thread_ended t = true ∨ ∃ r' t', thread_step c r t r' t'.
Proof.
  intros Hc Hr Ht.
  destruct t as [key p|p|p];
    (destruct (advance_ok _ c r p Hc Hr Ht) as [(a & -> & _)|(r' & effs & p' & Hadv & _)];
     [by left|right; eexists _, _; by econstructor]).
Qed.

(** ** Properties *)

(** C26. The controller is safe under every interleaving of its worker, the
    queries of the streams and the pod handlers, at the grain of its critical
    sections, while the cluster changes in between: no goroutine panics or is
    stuck, no nil selector gets into the cache, and every configuration that is
    cached or that a query answers with is the one of a resource that the API
    server has returned, under that resource's key. *)
Theorem interleaved_safe subs r ts :
  rtc controller_run (mkReconciler ∅ ∅ subs, ∅) (r, ts) →
  caches_ok r ∧
  (∀ i t c, ts !! i = Some t → cluster_ok c → thread_ended t = true ∨ ∃ r' t', thread_step c r t r' t') ∧
  (∀ i configs config, ts !! i = Some (Stream (Done (Ret (inl configs)))) → config ∈ configs →
     ∃ instance, genuine instance ∧ config = served instance).
Proof.
  intros Hreach. destruct (controller_reach_ok _ _ Hreach) as [Hr Hts].
  { split; [split; apply map_Forall_empty|apply map_Forall_empty]. }
  cbn [fst snd] in *. split_and!; [done| |].
  - intros i t c Hi Hc. apply thread_progress; [done..|]. by apply (Hts i).
  - intros i configs config Hi Hin. destruct (Hts i _ Hi) as (res & [= <-] & Hq).
    destruct (Hq configs eq_refl config Hin) as (key & instance & Hg & _ & ->). by exists instance.
Qed.

(** ** A query overwrites a newer selector *)

(** A goroutine that runs without interference. *)
Lemma thread_alone {A} (wrap : prog A → thread) c i ts p :
  (∀ r p r' effs p', advance c r p = Some (Ret (r', effs, p')) → thread_step c r (wrap p) r' (wrap p')) →
  cluster_ok c → ∀ r r' effs a, run_alone c r p = Ret (r', effs, a) →
  rtc controller_run (r, <[i := wrap p]> ts) (r', <[i := wrap (Done (Ret a))]> ts).
Proof.
  intros Hwrap Hc. induction p as [res|a k IH]; intros r r' effs v Hrun.
  - apply bind_ret in Hrun as (a & -> & [= <- <- <-]). apply rtc_refl.
  - cbn [run_alone] in Hrun. apply bind_ret in Hrun as ([[r1 effs1] x] & Hp & Hrun).
    apply bind_ret in Hrun as ([[r2 effs2] v2] & Hk & [= <- <- <-]).
    eapply rtc_l.
    + eapply (RunThread c); [done|apply lookup_insert_eq|]. eapply Hwrap. cbn [advance]. by rewrite Hp.
    + rewrite insert_insert_eq. by eapply IH.
Qed.

(** A whole reconciliation while nobody else runs. *)
Lemma reconcile_alone c r ts i ns name r' effs err :
  cluster_ok c → ts !! i = None → (∀ j p, ts !! j ≠ Some (Worker (NamespacedName_String ns name) p)) →
  Reconcile c r ns name = Ret (r', effs, err) → rtc controller_run (r, ts) (r', ts).
Proof.
  intros Hc Hi Hone Hrun. rewrite <- alone_Reconcile in Hrun.
  eapply rtc_l; [by apply (RunWorker r ts i ns name)|]. eapply rtc_r; [eapply (thread_alone (Worker _)); [intros; by econstructor|done..]|].
  rewrite <- (delete_insert_id ts i (Worker (NamespacedName_String ns name) (Done (Ret err)))) at 2 by done.
  apply (RunEnd _ _ i (Worker (NamespacedName_String ns name) (Done (Ret err)))); [apply lookup_insert_eq|done].
Qed.

(** One access of the only stream. *)
Lemma stream_access c r a k r' effs x :
  cluster_ok c → perform c r a = Ret (r', effs, x) →
  controller_run (r, {[0%nat := Stream (Access a k)]}) (r', {[0%nat := Stream (k x)]}).
Proof.
  intros Hc Hp. rewrite <- (insert_singleton_eq 0%nat (Stream (k x)) (Stream (Access a k))).
  eapply (RunThread c); [done|apply lookup_singleton_eq|]. eapply StreamStep. cbn [advance]. by rewrite Hp.
Qed.

(** The state after the race: the plugins of [new], the selector of [old]. *)
Definition overtaken r (new : AmeshPluginConfigResource) (s_old s_new : Selector) : AmeshPluginConfigReconciler :=
  with_selectors (installed r new s_new) (<[config_key new := Some s_old]> (R_selectorCache (installed r new s_new))).

(** The race between a query that lists [old] and the reconciliation of [new]. *)
Record race c1 c2 r podkey (pod : Pod) (old new : AmeshPluginConfigResource) (s_old s_new : Selector) : Prop := {
  RC_c1 : cluster_ok c1;
  RC_c2 : cluster_ok c2;
  RC_pod : ∃ ns name, SplitMetaNamespaceKey podkey = inl (ns, name) ∧ get_pod c1 ns name = inl pod;
  RC_listed : list_configs c1 (Pod_Namespace pod) = Ret (inl [old]);
  RC_same : Res_Namespace old = Res_Namespace new ∧ Res_Name old = Res_Name new ∧ Res_Namespace new ≠ "";
  RC_old : ∃ ms, Spec_Selector (Res_Spec old) = Some ms ∧ compile (Some ms) = inl (Some s_old);
  RC_new : get_config c2 (Res_Namespace new) (Res_Name new) = inl new;
  RC_accepted : accepted_instance r new s_new;
  RC_first : R_selectorCache r !! config_key new = None;
  RC_pods : ∀ s, ∃ l, list_pods_of c2 (Res_Namespace new) (Some s) = Ret (inl l)
}.

Lemma race_run c1 c2 r podkey pod old new s_old s_new :
  race c1 c2 r podkey pod old new s_old s_new → rtc controller_run (r, ∅) (overtaken r new s_old s_new, ∅).
Proof.
  intros [Hc1 Hc2 (ns & name & Hsplit & Hpod) Hlist (Hns & Hname & Hne) (ms & Hms & Hcold) Hget Hacc Hfirst Hpods].
  assert (config_key old = config_key new) as Hkey by (unfold config_key; congruence).
  (* the query up to its miss *)
  eapply rtc_l; [by apply (RunStream r ∅ 0%nat podkey)|]. rewrite insert_empty. unfold GetPodPluginConfigs_prog. rewrite Hsplit.
  eapply rtc_l; [eapply (stream_access c1); [done|]; cbn [perform]; rewrite Hpod; reflexivity|].
  eapply rtc_l; [eapply (stream_access c1); [done|]; cbn [perform]; rewrite Hlist; reflexivity|].
  cbn [prog_bind mret prog_mret match_configs_prog]. rewrite MetaNamespaceKey_eq by congruence. rewrite Hms.
  fold (config_key old). rewrite Hkey.
  eapply rtc_l; [eapply (stream_access c1); [done|]; cbn [perform]; unfold Get; rewrite Hfirst; reflexivity|].
  unfold Update_prog. rewrite Hcold.
  (* the reconciliation *)
  assert (previous r new = Some Everything) as Hprev by (unfold previous; by rewrite Hfirst).
  destruct (Hpods Everything) as [olds Ho], (Hpods s_new) as [news Hn].
  etrans.
  { eapply (reconcile_alone c2 r _ 1%nat (Res_Namespace new) (Res_Name new)); [done|by rewrite lookup_singleton_ne| |].
    - intros j p Hj. apply lookup_singleton_Some in Hj as [_ Hj]. discriminate Hj.
    - apply (Reconcile_accepted c2 r new s_new olds news); [done|done|by rewrite Hprev|done]. }
  (* the rest of the query *)
  eapply rtc_l; [eapply (stream_access c1); [done|reflexivity]|]. fold (overtaken r new s_old s_new).
  cbn [prog_bind mret prog_mret selector_matches match_configs_prog].
  eapply rtc_l; [eapply (stream_access c1); [done|reflexivity]|].
  apply rtc_once. set (t := Stream _). rewrite <- (delete_singleton_eq 0%nat t). by apply (RunEnd _ _ 0%nat t); [apply lookup_singleton_eq|].
Qed.

(** The answer to a pod in whose namespace there is one configuration, its
    selector cached. *)
Lemma query_hit c r podkey ns name pod instance s :
  SplitMetaNamespaceKey podkey = inl (ns, name) → get_pod c ns name = inl pod →
  list_configs c (Pod_Namespace pod) = Ret (inl [instance]) → is_Some (Spec_Selector (Res_Spec instance)) →
  Res_Namespace instance ≠ "" → R_selectorCache r !! config_key instance = Some (Some s) →
  GetPodPluginConfigs c r podkey =
    Ret (r, inl (cached_configs (R_pluginsCache r) (if Matches s (Pod_Labels pod) then {[config_key instance]} ∪ ∅ else ∅))).
Proof.
  intros Hsplit Hpod Hlist [ms Hms] Hne Hs. unfold GetPodPluginConfigs. rewrite Hsplit, Hpod.
  unfold matched_keys. rewrite Hlist. cbn [mbind outcome_bind go_foldl match_config].
  rewrite MetaNamespaceKey_eq by done. rewrite Hms. fold (config_key instance). unfold Get. rewrite Hs.
  cbn [selector_matches mbind outcome_bind fst snd]. by destruct r.
Qed.

(** C39. The controller's queries and its worker race.  The query of a stream
    looks a selector up and, when it is not cached yet, compiles the one that
    it has listed; between the two the worker can reconcile a newer version of
    the resource.  The query then overwrites the newer selector: everything
    ends without an error, and from then on, although the plugins are those of
    the new version, pods are matched by the old selector; reconciling the
    resource again changes nothing, since its version is known, and a pod that
    only the new selector matches is answered without the plugins. *)
Theorem stale_selector c1 c2 r podkey pod old new s_old s_new :
  race c1 c2 r podkey pod old new s_old s_new →
  let r' := overtaken r new s_old s_new in
  rtc controller_run (r, ∅) (r', ∅) ∧
  R_pluginsCache r' !! config_key new = Some (served new) ∧
  R_selectorCache r' !! config_key new = Some (Some s_old) ∧
  (∀ c, get_config c (Res_Namespace new) (Res_Name new) = inl new →
     Reconcile c r' (Res_Namespace new) (Res_Name new) = Ret (r', [], None)) ∧
  (∀ c podkey' ns name pod', SplitMetaNamespaceKey podkey' = inl (ns, name) → get_pod c ns name = inl pod' →
     list_configs c (Pod_Namespace pod') = Ret (inl [new]) → is_Some (Spec_Selector (Res_Spec new)) →
     Matches s_old (Pod_Labels pod') = false →
     GetPodPluginConfigs c r' podkey' = Ret (r', inl [])).
Proof.
  intros Hrace r'. pose proof Hrace as [_ _ _ _ (_ & _ & Hne) _ _ Hacc _ _].
  assert (R_pluginsCache r' !! config_key new = Some (served new)) as Hplugins by apply lookup_insert_eq.
  assert (R_selectorCache r' !! config_key new = Some (Some s_old)) as Hselector by apply lookup_insert_eq.
  split_and!; [by eapply race_run|done|done| |].
  - intros c Hc. rewrite Reconcile_found_unfold by (done || apply Hacc). unfold reconcile_found.
    rewrite Hplugins. cbn [served PPC_Version]. by rewrite string_leb_refl.
  - intros c podkey' ns name pod' Hsplit Hpod Hlist Hms Hm.
    rewrite (query_hit c r' podkey' ns name pod' new s_old) by done. by rewrite Hm.
Qed.
End Guarantees.

(** ** Witnesses *)

Section Witnesses.
#[local] Existing Instance k8s_example.
#[local] Existing Instance map_order.

(** The resource in two versions: for the pods of the database, then for those
    of the web server. *)
Definition old_resource : AmeshPluginConfigResource := example_resource "1" "db".
Definition new_resource : AmeshPluginConfigResource := example_resource "2" "web".
Definition two_versions (instance : AmeshPluginConfigResource) : Prop := instance = old_resource ∨ instance = new_resource.

Lemma example_cluster_ok instance : two_versions instance → cluster_ok two_versions (example_cluster instance).
Proof.
  intros Hi. split; [done|done|]. intros ns name i. cbn. case_bool_decide as Hb; [|done]. destruct Hb as [-> ->].
  intros [= <-]. split; [done|]. by destruct Hi as [->| ->].
Qed.

Definition web_selector : gmap string string := {["app" := "web"]}.
Definition db_selector : gmap string string := {["app" := "db"]}.

Lemma stale_selector_witness :
  let r' := overtaken one_sub new_resource db_selector web_selector in
  rtc (controller_run two_versions) (one_sub, ∅) (r', ∅) ∧
  GetPodPluginConfigs (example_cluster new_resource) r' "default/web" = Ret (r', inl []) ∧
  Matches web_selector (Pod_Labels example_pod) = true.
Proof.
  intros r'.
  destruct (stale_selector two_versions (example_cluster old_resource) (example_cluster new_resource) one_sub "default/web"
    example_pod old_resource new_resource db_selector web_selector) as (Hrun & _ & _ & _ & Hquery).
  - split.
    + apply example_cluster_ok. by left.
    + apply example_cluster_ok. by right.
    + by exists "default", "web".
    + reflexivity.
    + done.
    + by eexists.
    + reflexivity.
    + done.
    + reflexivity.
    + intros s. by eexists.
  - split; [exact Hrun|]. split; [|reflexivity].
    apply (Hquery (example_cluster new_resource) "default/web" "default" "web" example_pod); by try eexists.
Defined.

(** A reconciliation, then a query that is answered. *)
Definition served_stream : gmap nat (@thread k8s_example) :=
  <[0%nat := Stream (Done (Ret (inl [served new_resource])))]> ∅.

Lemma served_answer : GetPodPluginConfigs (example_cluster new_resource) (installed one_sub new_resource web_selector) "default/web"
  = Ret (installed one_sub new_resource web_selector, inl [served new_resource]).
Proof.
  rewrite (query_hit (example_cluster new_resource) _ "default/web" "default" "web" example_pod new_resource web_selector)
    by (done || by eexists).
  do 2 f_equal.
Qed.

Lemma served_run : rtc (controller_run two_versions) (mkReconciler ∅ ∅ [7%nat], ∅)
  (installed one_sub new_resource web_selector, served_stream).
Proof.
  assert (cluster_ok two_versions (example_cluster new_resource)) as Hc by (apply example_cluster_ok; by right).
  etrans.
  - eapply (reconcile_alone two_versions (example_cluster new_resource) _ ∅ 0%nat "default" "conf"
      (installed one_sub new_resource web_selector)); [exact Hc|done|done|].
    apply (Reconcile_accepted (example_cluster new_resource) one_sub new_resource web_selector example_pods [example_pod]);
      [reflexivity|done|reflexivity..].
  - eapply rtc_l; [by apply (RunStream _ _ ∅ 0%nat "default/web")|].
    apply (thread_alone two_versions Stream (example_cluster new_resource) 0%nat ∅ (GetPodPluginConfigs_prog "default/web")
      ltac:(intros; by econstructor) Hc _ _ [] (inl [served new_resource])).
    rewrite alone_GetPodPluginConfigs, served_answer. reflexivity.
Qed.

Lemma interleaved_safe_witness :
  ∃ instance, two_versions instance ∧ served new_resource = served instance.
Proof.
  destruct (interleaved_safe two_versions [7%nat] (installed one_sub new_resource web_selector) served_stream served_run)
    as (_ & _ & Hserved).
  apply (Hserved 0%nat [served new_resource]); [reflexivity|by left].
Defined.
End Witnesses.
