(* ===== verification/Steady.v ===== *)
(** * The goroutines of the controller in a steady cluster

    For a configuration whose selector stays the same and a pod that it
    selects, what the programs of Interleaving.v do while the listers answer:
    the worker of the configuration, when it puts other plugins into the cache,
    goes on to notify the pod; the query of the pod's stream reads the
    configuration's plugins and answers with them; no other goroutine touches
    them. *)

From stdpp Require Import relations.
From S2P Require Import Prelude GoStrings StringSet ControllerTypes ControllerUtils SelectorCache Reconciler Interleaving.
Local Open Scope Z_scope.

(** ** Programs, by their accesses *)

Section Programs.
Context `{GoRange} `{!K8sLib}.
Context (pre : access → Prop) (post : ∀ a, result a → Prop).

(** Every access is allowed and the result is in [Q], if the results of the
    accesses are what they may be. *)
Fixpoint upholds {A} (Q : A → Prop) (p : prog A) : Prop :=
  match p with
  | Done (Ret a) => Q a
  | Done (Panic _) => False
  | Access a k => pre a ∧ ∀ x, post a x → upholds Q (k x)
  end.

Lemma upholds_bind {A B} (Q : B → Prop) (f : A → prog B) p :
  upholds (λ a, upholds Q (f a)) p → upholds Q (p ≫= f).
Proof.
  induction p as [[a|why]|a k IH]; [done..|]. intros [Ha Hk]. split; [done|]. intros x Hx. by apply IH, Hk.
Qed.

Lemma upholds_mono {A} (Q Q' : A → Prop) p : (∀ a, Q a → Q' a) → upholds Q p → upholds Q' p.
Proof.
  intros HQ. induction p as [[a|why]|a k IH]; [apply HQ|done|]. intros [Ha Hk]. split; [done|]. intros x Hx. by apply IH, Hk.
Qed.

Lemma upholds_access {B} a (Q : B → Prop) (f : result a → prog B) :
  pre a → (∀ x, post a x → upholds Q (f x)) → upholds Q (call a ≫= f).
Proof. intros Ha Hf. by split. Qed.

(** On every path some access is in [goal], or the result is in [Q]. *)
Context (goal : access → Prop).

Fixpoint reaches {A} (Q : A → Prop) (p : prog A) : Prop :=
  match p with
  | Done (Ret a) => Q a
  | Done (Panic _) => False
  | Access a k => goal a ∨ ∀ x, post a x → reaches Q (k x)
  end.

Lemma reaches_bind {A B} (Q : B → Prop) (f : A → prog B) p :
  reaches (λ a, reaches Q (f a)) p → reaches Q (p ≫= f).
Proof.
  induction p as [[a|why]|a k IH]; [done..|]. intros [Ha|Hk]; [by left|]. right. intros x Hx. by apply IH, Hk.
Qed.

Lemma reaches_access {B} a (Q : B → Prop) (f : result a → prog B) :
  (∀ x, post a x → reaches Q (f x)) → reaches Q (call a ≫= f).
Proof. intros Hf. by right. Qed.

Lemma reaches_goal {B} a (Q : B → Prop) (f : result a → prog B) : goal a → reaches Q (call a ≫= f).
Proof. by left. Qed.
End Programs.

(** An access of a program. *)
Lemma advance_Some `{GoRange} `{!K8sLib} {A} c r (p : prog A) r' effs p' :
  advance c r p = Some (Ret (r', effs, p')) →
  ∃ a k x, p = Access a k ∧ p' = k x ∧ perform c r a = Ret (r', effs, x).
Proof.
  destruct p as [res|a k]; [done|]. cbn [advance]. intros [= Hadv]. apply bind_ret in Hadv as ([[r1 effs1] x] & Hp & [= <- <- <-]).
  by exists a, k, x.
Qed.

Lemma perform_subs `{GoRange} `{!K8sLib} c r a r' effs x : perform c r a = Ret (r', effs, x) → R_subs r' = R_subs r.
Proof.
  intros Hp. destruct a; cbn [perform] in Hp; try (by injection Hp as <- _ _);
    apply bind_ret in Hp as (res & _ & [= <- _ _]); done.
Qed.

Lemma advance_subs `{GoRange} `{!K8sLib} {A} c r (p : prog A) r' effs p' :
  advance c r p = Some (Ret (r', effs, p')) → R_subs r' = R_subs r.
Proof. intros (a & k & x & -> & -> & Hperf)%advance_Some. by eapply perform_subs. Qed.

(** ** The configuration and the pod *)

Section Steady.
Context `{GoRange} `{!K8sLib} `{!K8sLaws}.
Context (genuine : AmeshPluginConfigResource → Prop).
Context (pod : Pod) (config : string) (s : Selector).
Implicit Types (r : AmeshPluginConfigReconciler) (c : cluster).

Definition pod_key : string := Pod_Namespace pod +:+ "/" +:+ Pod_Name pod.

(** The versions of the configuration: in the pod's namespace, with one
    selector, which matches the pod, and no plugin twice. *)
Record steady : Prop := {
  ST_matches : Matches s (Pod_Labels pod) = true;
  ST_pod : ¬ Contains (Pod_Namespace pod) "/" ∧ ¬ Contains (Pod_Name pod) "/";
  ST_namespaced : ∀ i, genuine i → Res_Namespace i ≠ "";
  ST_version : ∀ i, genuine i → config_key i = config →
    Res_Namespace i = Pod_Namespace pod ∧ compile (Spec_Selector (Res_Spec i)) = inl (Some s) ∧
    NoDup (plugin_key <$> Spec_Plugins (Res_Spec i))
}.

(** The cluster at any time: the listers answer and the pod stays. *)
Record answering c : Prop := {
  AC_ok : cluster_ok genuine c;
  AC_pod : get_pod c (Pod_Namespace pod) (Pod_Name pod) = inl pod;
  AC_pods : ∀ sel, ∃ l, list_pods_of c (Pod_Namespace pod) (Some sel) = Ret (inl l) ∧
    (Matches sel (Pod_Labels pod) = true → pod ∈ l);
  AC_genuine : ∀ ns l i, list_configs c ns = Ret (inl l) → i ∈ l → genuine i
}.

(** The index that the queries use lists the configuration. *)
Record steady_cluster c : Prop := {
  SC_answers : answering c;
  SC_listed : ∃ l i, list_configs c (Pod_Namespace pod) = Ret (inl l) ∧ i ∈ l ∧ config_key i = config
}.

(** The reconciler's client does not have the configuration. *)
Record unseen_cluster c : Prop := {
  UC_answers : answering c;
  UC_get : ∀ ns name, ns +:+ "/" +:+ name = config → ∃ err, get_config c ns name = inr err
}.

(** What the accesses of the system do not do. *)
Definition harmless (a : access) : Prop :=
  match a with
  | SetSelector key sel => is_Some sel ∧ (key = config → sel = Some s)
  | ListPods _ sel => is_Some sel
  | SetPlugins key _ | DeletePlugins key | DeleteSelector key => key ≠ config
  | _ => True
  end.

(** What they may return in any cluster that answers. *)
Definition may_any (a : access) : result a → Prop :=
  match a with
  | GetSelector key => λ v, ∀ sel, v = Some sel → is_Some sel ∧ (key = config → sel = Some s)
  | GetConfig ns name => λ res, ∀ i, res = inl i → genuine i ∧ Res_Namespace i = ns ∧ Res_Name i = name
  | GetPod ns name => λ res, ns = Pod_Namespace pod → name = Pod_Name pod → res = inl pod
  | ListPods ns sel => λ res, ns = Pod_Namespace pod → is_Some sel → ∃ l, res = inl l ∧
      ∀ sel', sel = Some sel' → Matches sel' (Pod_Labels pod) = true → pod ∈ l
  | ListConfigs ns => λ res, ∀ l i, res = inl l → i ∈ l → genuine i
  | _ => λ _, True
  end.

(** What they may return while the configuration is listed. *)
Definition may (a : access) (x : result a) : Prop :=
  may_any a x ∧
  match a return result a → Prop with
  | ListConfigs ns => λ res, ns = Pod_Namespace pod → ∃ l i, res = inl l ∧ i ∈ l ∧ config_key i = config
  | _ => λ _, True
  end x.

(** The notification of the pod. *)
Definition notifies_pod (a : access) : Prop :=
  match a with
  | Notify ns names => ns = Pod_Namespace pod ∧ Pod_Name pod ∈ names
  | _ => False
  end.

Definition selectors_ok r : Prop :=
  ∀ key sel, R_selectorCache r !! key = Some sel → is_Some sel ∧ (key = config → sel = Some s).

(** What they leave: the plugins of the configuration, and its selector in the
    cache. *)
Definition same_entry r r' : Prop :=
  R_pluginsCache r' !! config = R_pluginsCache r !! config ∧
  (is_Some (R_selectorCache r !! config) → is_Some (R_selectorCache r' !! config)).

Lemma perform_may_any c r a r' effs x :
  answering c → selectors_ok r → perform c r a = Ret (r', effs, x) → may_any a x.
Proof.
  intros [Hok Hpod Hpods Hgen] Hs Hp.
  destruct a as [key|key selector|key|key|key conf|key|keys|ns names|ns name|ns name|ns selector|ns|conf];
    cbn [perform may_any] in *; try done.
  - injection Hp as _ _ <-. intros sel Hsel. by apply Hs.
  - injection Hp as _ _ <-. by apply (CL_genuine genuine c Hok).
  - injection Hp as _ _ <-. by intros -> ->.
  - apply bind_ret in Hp as (res & Hres & [= _ _ <-]). intros -> [sel ->]. destruct (Hpods sel) as (l & Hl & Hin).
    exists l. split; [congruence|]. by intros sel' [= <-].
  - apply bind_ret in Hp as (res & Hres & [= _ _ <-]). intros l i ->. by eapply Hgen.
Qed.

Lemma perform_harmless c r a r' effs x :
  selectors_ok r → harmless a → perform c r a = Ret (r', effs, x) → selectors_ok r' ∧ same_entry r r'.
Proof.
  intros Hs Ha Hp.
  destruct a as [key|key selector|key|key|key conf|key|keys|ns names|ns name|ns name|ns selector|ns|conf];
    cbn [perform harmless] in *;
    try (injection Hp as <- _ _); try (apply bind_ret in Hp as (res & _ & [= <- _ _])); try done.
  - split; [|split; [done|]]; cbn [R_selectorCache].
    + intros k sel. cbn [R_selectorCache]. intros [[<- <-]|[_ Hk]]%lookup_insert_Some; [done|by apply Hs].
    + intros Hk. destruct (decide (key = config)) as [->|Hne]; [by rewrite lookup_insert_eq|by rewrite lookup_insert_ne].
  - split; [|split; [done|]]; cbn [R_selectorCache]; unfold Delete.
    + intros k sel. cbn [R_selectorCache]. intros [_ Hk]%lookup_delete_Some. by apply Hs.
    + by rewrite lookup_delete_ne.
  - split; [done|]. split; [|done]. cbn. by rewrite lookup_insert_ne.
  - split; [done|]. split; [|done]. cbn. by rewrite lookup_delete_ne.
Qed.

Lemma advance_upholds (post : ∀ a, result a → Prop) {A} (Q : A → Prop) c r p r' effs p' :
  (∀ a x, perform c r a = Ret (r', effs, x) → post a x) → selectors_ok r →
  upholds harmless post Q p → advance c r p = Some (Ret (r', effs, p')) →
  selectors_ok r' ∧ same_entry r r' ∧ upholds harmless post Q p'.
Proof.
  intros Hpost Hs Hp (a & k & x & -> & -> & Hperf)%advance_Some. destruct Hp as [Ha Hk].
  destruct (perform_harmless c r a r' effs x) as [? ?]; [done..|]. split_and!; [done..|]. by apply Hk, Hpost.
Qed.

Definition will_notify {A} (p : prog A) : Prop := reaches may_any notifies_pod (λ _, False) p.

Definition same_plugins (l l' : list AmeshPluginConfigPlugin) : Prop := keyed_plugins l ≡ₚ keyed_plugins l'.

(** The worker of the configuration, whose plugins in the cache are [old]: when
    it puts others there, it goes on to notify the pod. *)
Fixpoint follows {A} (old : option PodPluginConfig) (p : prog A) : Prop :=
  match p with
  | Done res => ∃ a, res = Ret a
  | Access a k =>
      match a return (result a → prog A) → (result a → Prop) → Prop with
      | GetPlugins key => λ k rest, if decide (key = config) then follows old (k old) else ∀ x, follows old (k x)
      | SetPlugins key new => λ k rest,
          if decide (key = config)
          then ((∃ o, old = Some o ∧ same_plugins (PPC_Plugins o) (PPC_Plugins new)) ∨ will_notify (k tt)) ∧ follows (Some new) (k tt)
          else ∀ x, follows old (k x)
      | DeletePlugins key => λ k rest, if decide (key = config) then follows None (k tt) else ∀ x, follows old (k x)
      | ListPods _ sel => λ k rest, is_Some sel ∧ ∀ x, rest x → follows old (k x)
      | SetSelector key sel => λ k rest, is_Some sel ∧ (key = config → sel = Some s) ∧ ∀ x, follows old (k x)
      | _ => λ k rest, ∀ x, rest x → follows old (k x)
      end k (may_any a)
  end.

Lemma follows_upholds {A B} (Q : A → Prop) old (f : A → prog B) p :
  upholds harmless may_any Q p → (∀ a, Q a → follows old (f a)) → follows old (p ≫= f).
Proof.
  intros Hp Hf. induction p as [[a|why]|a k IH]; [by apply Hf|done|]. destruct Hp as [Ha Hk].
  change (Access a k ≫= f) with (Access a (λ x, k x ≫= f)).
  destruct a; cbn [follows harmless] in *; repeat case_decide; unfold may_any in *; naive_solver.
Qed.

Lemma upholds_follows {A} (Q : A → Prop) old p : upholds harmless may_any Q p → follows old p.
Proof.
  induction p as [[a|why]|a k IH]; [by exists a|done|]. intros [Ha Hk].
  destruct a; cbn [follows harmless] in *; repeat case_decide; unfold may_any in *; naive_solver.
Qed.

Lemma follows_mret {A} old (a : A) : follows old (mret a).
Proof. by exists a. Qed.

(** ** The goroutines, in any cluster that answers *)

Lemma may_may_any a x : may a x → may_any a x.
Proof. by intros []. Qed.

Section Goroutines.
Context (post : ∀ a, result a → Prop) (post_any : ∀ a x, post a x → may_any a x).

#[local] Tactic Notation "access" simple_intropattern(x) simple_intropattern(Hx) :=
  lazymatch goal with |- upholds ?pre ?post ?Q (call ?a ≫= ?f) => apply (upholds_access pre post a Q f) end;
  [cbn [harmless]; try done|let Hpost := fresh in cbn beta; intros x Hpost; apply post_any in Hpost; revert Hpost; cbn [may_any]; intros Hx].

(** The names of a resource determine its key, and its selector is the one. *)
Lemma compile_steady i sel :
  steady → genuine i → compile (Spec_Selector (Res_Spec i)) = inl sel →
  is_Some sel ∧ (config_key i = config → sel = Some s).
Proof.
  intros Hst Hi Hc. split; [by eapply compile_is_Some|]. intros Hk.
  destruct (ST_version Hst i Hi Hk) as (_ & Hc' & _). congruence.
Qed.

Lemma Update_upholds (Q : option Selector + error → Prop) i :
  steady → genuine i → (∀ sel, compile (Spec_Selector (Res_Spec i)) = inl (Some sel) → Q (inl (Some sel))) →
  (∀ err, Q (inr err)) → upholds harmless post Q (Update_prog (config_key i) (Spec_Selector (Res_Spec i))).
Proof.
  intros Hst Hi HQ He. unfold Update_prog. destruct (compile _) as [sel|err] eqn:Hc; [|apply He].
  destruct (compile_steady i sel Hst Hi Hc) as [[sel' ->] Hs]. access x Hx. by apply HQ.
Qed.

Lemma DiffPods_upholds (Q : pods_diff + error → Prop) ns old sel :
  is_Some old → is_Some sel → (∀ d, Q d) → upholds harmless post Q (DiffPods_prog ns old sel).
Proof.
  intros Ho Hs HQ. unfold DiffPods_prog. access l1 _. destruct l1; [|apply HQ]. access l2 _. destruct l2; apply HQ.
Qed.

Lemma notify_all_upholds (Q : unit → Prop) ns sets : Q tt → upholds harmless post Q (notify_all ns sets).
Proof. intros HQ. induction sets as [|names sets IH]; [done|]. cbn [notify_all]. by access x Hx. Qed.

Lemma notify_update_upholds (Q : option error → Prop) ns hasOld sel d changed :
  (∀ err, Q err) → upholds harmless post Q (notify_update_prog ns hasOld (Some sel) d changed).
Proof. intros HQ. unfold notify_update_prog. destruct hasOld; apply upholds_bind, notify_all_upholds, HQ. Qed.

(** The end of a reconciliation, after the plugins have been cached. *)
Definition reconcile_rest (ns : string) (old : option (option Selector)) (newSelector : option Selector)
    (pluginChanged : bool) (instance : AmeshPluginConfigResource) : prog (option error) :=
  let hasOldSelector := match old with Some _ => true | None => false end in
  let oldSelector := match old with Some s => s | None => Some Everything end in
  diff ← DiffPods_prog ns oldSelector newSelector;
  match diff with
  | inr err => mret (Some err)
  | inl d =>
      failed ← notify_update_prog ns hasOldSelector newSelector d pluginChanged;
      match failed with
      | Some err => mret (Some err)
      | None => _ ← call (RecordStatus instance); mret None
      end
  end.

Lemma reconcile_rest_upholds ns old sel changed instance :
  (∀ v, old = Some v → is_Some v) →
  upholds harmless post (λ _, True) (reconcile_rest ns old (Some sel) changed instance).
Proof.
  intros Hold. unfold reconcile_rest. apply upholds_bind, DiffPods_upholds.
  - destruct old as [v|]; [by apply Hold|by eexists].
  - by eexists.
  - intros [d|err]; [|done]. apply upholds_bind, notify_update_upholds. intros [err|]; [done|]. by access x Hx.
Qed.

(** The worker of a key. *)
Lemma reconcile_found_upholds ns key instance :
  steady → genuine instance → key = config_key instance → key ≠ config →
  upholds harmless post (λ _, True) (reconcile_found_prog ns key instance).
Proof.
  intros Hst Hi -> Hne. unfold reconcile_found_prog. access cached _. case_match; [done|]. access old Hold.
  apply upholds_bind, Update_upholds; [done..| |done]. intros sel _. access x _.
  apply (reconcile_rest_upholds ns old sel _ instance). intros v Hv. by apply Hold.
Qed.

Lemma Reconcile_upholds ns name :
  steady → ns +:+ "/" +:+ name ≠ config → upholds harmless post (λ _, True) (Reconcile_prog ns name).
Proof.
  intros Hst Hne. unfold Reconcile_prog. access res Hres. rewrite NamespacedName_String_eq. destruct res as [instance|err].
  - destruct (Hres instance eq_refl) as (Hg & <- & <-). destruct (Res_DeletionTimestamp instance); [done|].
    by apply reconcile_found_upholds.
  - destruct (IsNotFound err); [|done]. unfold reconcile_deleted_prog. access x _. access old Hold.
    destruct old as [old|]; [|by access y Hy]. access pods _; [by apply (Hold old)|]. destruct pods as [pods|]; [|done].
    access y _. by access z _.
Qed.

Definition quiet (a : access) : Prop :=
  harmless a ∧ match a with ReadPlugins _ => False | _ => True end.

Lemma upholds_quiet {A} (Q : A → Prop) p : upholds quiet post Q p → upholds harmless post Q p.
Proof.
  induction p as [[a|why]|a k IH]; [done..|]. intros [[Ha _] Hk]. split; [done|]. intros x Hx. by apply IH, Hk.
Qed.

(** The selector that the loop uses for a configuration. *)
Definition loop_selector (key : string) (ms : LabelSelector) : prog (option Selector + error) :=
  v ← call (GetSelector key);
  match v with Some v => mret (inl v) | None => Update_prog key (Some ms) end.

Lemma loop_selector_upholds i ms :
  steady → genuine i → Spec_Selector (Res_Spec i) = Some ms →
  upholds quiet post (λ res, ∀ sel, res = inl sel → is_Some sel ∧ (config_key i = config → sel = Some s))
    (loop_selector (config_key i) ms).
Proof.
  intros Hst Hi Hms. unfold loop_selector. split; [done|]. intros v Hv%post_any. cbn [prog_bind mret prog_mret].
  destruct v as [v|]; [intros sel [= <-]; by apply Hv|]. unfold Update_prog.
  destruct (compile (Some ms)) as [sel|err] eqn:Hc; [|by intros ?].
  pose proof (compile_steady i sel Hst Hi) as Hsel. rewrite Hms in Hsel. specialize (Hsel Hc).
  split; [done|]. intros x _. by intros ? [= <-].
Qed.

Definition finds (labels : gmap string string) (configs : list AmeshPluginConfigResource) (keys : gset string)
    (res : gset string + error) : Prop :=
  ∀ ks, res = inl ks → keys ⊆ ks ∧
    (∀ i, i ∈ configs → config_key i = config → Matches s labels = true → config ∈ ks).

Lemma finds_next labels i configs keys keys' res :
  keys ⊆ keys' → (config_key i = config → Matches s labels = true → config ∈ keys') →
  finds labels configs keys' res → finds labels (i :: configs) keys res.
Proof.
  intros Hsub Hi Hres ks Hks. destruct (Hres ks Hks) as [Hsub' Hin]. split; [set_solver|].
  intros j [->|Hj]%elem_of_cons Hk Hm; [apply Hsub'; auto|by apply (Hin j)].
Qed.

Lemma match_configs_upholds labels configs :
  steady → (∀ i, i ∈ configs → genuine i) → ∀ keys,
  upholds quiet post (finds labels configs keys) (match_configs_prog labels keys configs).
Proof.
  intros Hst. induction configs as [|i configs IH]; intros Hgen keys.
  { intros ks [= <-]. split; [done|]. by intros i Hi%elem_of_nil. }
  assert (genuine i) as Hi by (apply Hgen; by left). cbn [match_configs_prog].
  rewrite MetaNamespaceKey_eq by (by apply (ST_namespaced Hst)). fold (config_key i).
  assert (∀ keys' : gset string, keys ⊆ keys' → (config_key i = config → Matches s labels = true → config ∈ keys') →
    upholds quiet post (finds labels (i :: configs) keys) (match_configs_prog labels keys' configs)) as Hnext.
  { intros keys' Hsub Hk'. eapply upholds_mono; [|apply (IH (λ j Hj, Hgen j (list_elem_of_further _ _ _ Hj)))].
    intros res. by apply finds_next. }
  destruct (Spec_Selector (Res_Spec i)) as [ms|] eqn:Hms; [|apply Hnext; [set_solver|intros <- _; set_solver]].
  lazymatch goal with |- upholds _ _ ?Q (call _ ≫= (λ v, _ ≫= ?F)) => change (upholds quiet post Q (loop_selector (config_key i) ms ≫= F)) end.
  apply upholds_bind. eapply upholds_mono; [|by apply loop_selector_upholds].
  intros [sel|err] Hsel; [|done]. destruct (Hsel sel eq_refl) as [[sel' ->] Hs]. cbn [selector_matches mbind prog_mbind prog_bind].
  apply Hnext; [destruct (Matches sel' labels); [apply union_subseteq_r|done]|]. intros Hk Hm. specialize (Hs Hk). injection Hs as ->.
  rewrite Hm. set_solver.
Qed.

Lemma GetPodPluginConfigs_upholds key :
  steady → upholds harmless post (λ _, True) (GetPodPluginConfigs_prog key).
Proof.
  intros Hst. unfold GetPodPluginConfigs_prog. destruct (SplitMetaNamespaceKey key) as [[ns name]|err]; [|done].
  access p _. destruct p as [p|]; [|done]. unfold matched_keys_prog. apply upholds_bind. access res Hres.
  destruct res as [configs|err]; [|done].
  eapply upholds_mono; [|apply upholds_quiet, match_configs_upholds; [done|intros i Hi; by eapply Hres]].
  intros [keys|err] _; [|done]. by access l Hl.
Qed.
End Goroutines.

(** ** The worker of the configuration and the query of the pod *)

#[local] Tactic Notation "expect" simple_intropattern(x) simple_intropattern(Hx) :=
  lazymatch goal with |- reaches ?post ?goal ?Q (call ?a ≫= ?f) => apply (reaches_access post goal a Q f) end;
  cbn beta; intros x Hx.

#[local] Tactic Notation "advance" :=
  lazymatch goal with |- follows ?old (call ?a ≫= ?f) => change (follows old (Access a f)) end; cbn [follows].

Lemma notify_all_reaches (Q : unit → Prop) sets names :
  names ∈ sets → Pod_Name pod ∈ names → reaches may_any notifies_pod Q (notify_all (Pod_Namespace pod) sets).
Proof.
  intros Hin Hpod. induction sets as [|n sets IH]; [by apply elem_of_nil in Hin|]. cbn [notify_all].
  apply elem_of_cons in Hin as [<-|Hin]; [by apply reaches_goal|]. apply reaches_access. intros x _. by apply IH.
Qed.

Lemma both_diff os news :
  foldl (diff_new (pod_names news)) (foldl (diff_old (pod_names os)) (mkPodsDiff ∅ ∅ ∅) os) news =
    mkPodsDiff ∅ (pod_names news ∪ (pod_names os ∪ ∅)) ∅.
Proof.
  rewrite (diff_old_fold _ os), (diff_new_fold _ news); [done|..]; intros p Hp; apply elem_of_pod_names; by exists p.
Qed.

(** When the plugins changed, that end notifies the pod. *)
Lemma reconcile_rest_notifies old instance :
  steady → (∀ v, old = Some v → is_Some v) →
  will_notify (reconcile_rest (Pod_Namespace pod) old (Some s) true instance).
Proof.
  intros Hst Hold. unfold reconcile_rest, DiffPods_prog.
  apply reaches_bind. expect oldPods Ho. cbn in Ho.
  destruct Ho as (os & -> & _); [done|destruct old as [v|]; [by apply Hold|by eexists]|].
  expect newPods Hn. cbn in Hn. destruct Hn as (news & -> & Hin); [done|by eexists|].
  specialize (Hin s eq_refl (ST_matches Hst)). cbn [reaches mret prog_mret]. rewrite both_diff. apply reaches_bind.
  assert (Pod_Name pod ∈ pod_names news ∪ (pod_names os ∪ ∅)) as Hpod.
  { apply elem_of_union_l, elem_of_pod_names. by exists pod. }
  destruct old as [v|]; cbn [notify_update_prog both onlyInOld onlyInNew]; apply reaches_bind;
    (eapply notify_all_reaches; [|exact Hpod]); set_solver.
Qed.

(** The worker of the configuration. *)
Lemma reconcile_found_follows ns instance old :
  steady → genuine instance → Res_Namespace instance = ns → config_key instance = config →
  (∀ o, old = Some o → NoDup (plugin_key <$> PPC_Plugins o)) →
  follows old (reconcile_found_prog ns config instance).
Proof.
  intros Hst Hi Hns Hk Hnd. destruct (ST_version Hst instance Hi Hk) as (Hpodns & Hc & Hndi).
  unfold reconcile_found_prog. advance. rewrite decide_True by done. case_match eqn:Hversion; [by apply follows_mret|].
  advance. intros old_sel Hold_sel. rewrite <- Hk at 1. apply (follows_upholds (λ res, res = inl (Some s) ∨ ∃ err, res = inr err)).
  { apply (Update_upholds may_any (λ a x H, H)); [done..| |eauto]. intros sel Hsel. left. congruence. }
  intros res [-> |[err ->]]; [|by apply follows_mret]. advance. rewrite decide_True by done.
  assert (∀ v, old_sel = Some v → is_Some v) as Hold by (intros v Hv; by apply Hold_sel).
  set (changed := match old with Some o => negb (PluginsConfigEqual (PPC_Plugins o) (Spec_Plugins (Res_Spec instance))) | None => true end).
  fold (reconcile_rest ns old_sel (Some s) changed instance).
  split; [|by eapply upholds_follows, (reconcile_rest_upholds may_any (λ a x H, H))].
  rewrite <- Hns, Hpodns. destruct old as [o|]; [|right; by apply reconcile_rest_notifies].
  subst changed. cbn [PPC_Plugins]. destruct (PluginsConfigEqual _ _) eqn:Heq; [|right; by apply reconcile_rest_notifies].
  left. exists o. split; [done|]. apply (PluginsConfigEqual_spec (PPC_Plugins o)); auto.
Qed.

Lemma reconcile_deleted_follows ns old : follows old (reconcile_deleted_prog ns config).
Proof.
  unfold reconcile_deleted_prog. advance. rewrite decide_True by done. advance. intros old_sel Hold.
  destruct old_sel as [sel|]; [|advance; intros x _; by apply follows_mret].
  advance. split; [by apply (Hold sel)|]. intros pods _. destruct pods as [pods|err]; [|by apply follows_mret].
  advance. intros x _. advance. intros y _. by apply follows_mret.
Qed.

Lemma Reconcile_follows ns name old :
  steady → ns +:+ "/" +:+ name = config → (∀ o, old = Some o → NoDup (plugin_key <$> PPC_Plugins o)) →
  follows old (Reconcile_prog ns name).
Proof.
  intros Hst Hk Hnd. unfold Reconcile_prog. advance. intros res Hres. rewrite NamespacedName_String_eq.
  destruct res as [instance|err].
  2: { destruct (IsNotFound err); [rewrite Hk; by apply reconcile_deleted_follows|by apply follows_mret]. }
  destruct (Hres instance eq_refl) as (Hg & Hns & Hname). destruct (Res_DeletionTimestamp instance); [by apply follows_mret|].
  rewrite Hk. apply reconcile_found_follows; [done..| |done]. unfold config_key. congruence.
Qed.

(** The query has still to read the plugins, and then answers with them; the
    configuration is among those it reads. *)
Fixpoint will_read (p : prog (list PodPluginConfig + error)) : Prop :=
  match p with
  | Done res => ∃ err, res = Ret (inr err)
  | Access a k =>
      match a return (result a → prog _) → (result a → Prop) → Prop with
      | ReadPlugins keys => λ k rest, config ∈ keys ∧ ∀ x, k x = Done (Ret (inl x))
      | _ => λ k rest, ∀ x, rest x → will_read (k x)
      end k (may a)
  end.

Lemma will_read_bind {A} (Q : A → Prop) (f : A → prog (list PodPluginConfig + error)) p :
  upholds quiet may Q p → (∀ a, Q a → will_read (f a)) → will_read (p ≫= f).
Proof.
  intros Hp Hf. induction p as [[a|why]|a k IH]; [by apply Hf|done|]. destruct Hp as [[_ Ha] Hk].
  change (Access a k ≫= f) with (Access a (λ x, k x ≫= f)). destruct a; cbn [will_read] in *; unfold may, may_any in *; naive_solver.
Qed.

Lemma GetPodPluginConfigs_will_read : steady → will_read (GetPodPluginConfigs_prog pod_key).
Proof.
  intros Hst. unfold GetPodPluginConfigs_prog, pod_key. destruct (ST_pod Hst) as [Hns Hname].
  rewrite SplitMetaNamespaceKey_eq by done. intros res [Hres _]. cbn [prog_bind mret prog_mret]. rewrite (Hres eq_refl eq_refl).
  change (will_read (matched_keys_prog pod ≫= λ keys, match keys with
    | inl keys => configs ← call (ReadPlugins keys); mret (inl configs) | inr err => mret (inr err) end)).
  eapply (will_read_bind (λ res, ∀ keys, res = inl keys → config ∈ keys)).
  - unfold matched_keys_prog. split; [done|]. intros l [Hgen Hl]. cbn [prog_bind mret prog_mret].
    destruct (Hl eq_refl) as (configs & i & -> & Hi & Hk).
    eapply upholds_mono; [|apply match_configs_upholds; [exact may_may_any|done|intros j Hj; by eapply Hgen]].
    intros res' Hf keys Hks. by apply (proj2 (Hf keys Hks) i Hi Hk), (ST_matches Hst).
  - intros [keys|err] Hk; [|by exists err]. split; [by apply Hk|done].
Qed.
End Steady.
