(* ===== verification/DeepCopy.v ===== *)
(** * Deep copies (src/controller/apis/amesh/v1alpha1/zz_generated.deepcopy.go)

    The other files treat an AmeshPluginConfig as a value.  In the program it
    is a structure that shares its slices and pointers with whoever copied it
    by assignment; [recordStatus] works on a deep copy because the reconciler
    has cached the plugins of the same object.  Here the memory is explicit: a
    heap of cells, and structures that hold addresses, nil being [None].
    [ObjectMeta] and its [DeepCopyInto] are apimachinery's and are parameters;
    a LabelSelector is one cell that apimachinery copies as a whole. *)

From S2P Require Import Prelude GoStrings ControllerTypes ControllerUtils Reconciler.
Local Open Scope Z_scope.

(** ** Memory *)

Abbreviation loc := positive.

Record spec_struct := mkSpecStruct { SP_Plugins : option loc; SP_Selector : option loc }.
Record status_struct := mkStatusStruct { ST_Conditions : option loc }.

Section Structures.
Context (meta : Type).

Record config_struct := mkConfigStruct {
  CS_TypeMeta : string * string;
  CS_Meta : meta;
  CS_Spec : spec_struct;
  CS_Status : status_struct
}.

Record list_struct := mkListStruct {
  LI_TypeMeta : string * string;
  LI_ListMeta : string * string;      (** the resource version and the continue token *)
  LI_Items : option loc
}.

Inductive cell : Type :=
| PluginsCell (plugins : list AmeshPluginConfigPlugin)
| SelectorCell (selector : LabelSelector)
| ConditionsCell (conditions : list Condition)
| TimeCell (time : Z)
| PluginCell (plugin : AmeshPluginConfigPlugin)
| SpecCell (spec : spec_struct)
| StatusCell (status : status_struct)
| ConfigCell (config : config_struct)
| ItemsCell (items : list config_struct)
| ListCell (l : list_struct).
End Structures.

Abbreviation heap meta := (gmap loc (cell meta)).

Arguments mkConfigStruct {meta}.
Arguments CS_TypeMeta {meta}.
Arguments CS_Meta {meta}.
Arguments CS_Spec {meta}.
Arguments CS_Status {meta}.
Arguments PluginsCell {meta}.
Arguments SelectorCell {meta}.
Arguments ConditionsCell {meta}.
Arguments TimeCell {meta}.
Arguments PluginCell {meta}.
Arguments SpecCell {meta}.
Arguments StatusCell {meta}.
Arguments ConfigCell {meta}.
Arguments ItemsCell {meta}.
Arguments ListCell {meta}.

(** Code that reads and allocates memory. *)
Definition mem (meta A : Type) : Type := heap meta → outcome (heap meta * A).

#[export] Instance mem_ret {meta} : MRet (mem meta) := λ A a h, Ret (h, a).
#[export] Instance mem_bind {meta} : MBind (mem meta) := λ A B f m h,
  res ← m h; let '(h, a) := res in f a h.

Section Memory.
Context {meta : Type}.

(** [new(T)] or [make([]T, n)], with what is then stored in it. *)
Definition alloc (c : cell meta) : mem meta loc := λ h,
  let l := fresh (dom h) in Ret (<[l := c]> h, l).

Definition load (l : loc) : mem meta (cell meta) := λ h,
  match h !! l with Some c => Ret (h, c) | None => Panic "invalid memory address" end.

Definition bad_cell {A} : mem meta A := λ _, Panic "invalid memory address".
End Memory.

#[global] Arguments alloc : simpl never.

(** [h2] has the cells of [h'] that are not in [h0]. *)
Definition keeps {meta} (h0 h' h2 : heap meta) : Prop :=
  ∀ l c, h0 !! l = None → h' !! l = Some c → h2 !! l = Some c.

(** [f] makes deep copies: it only allocates, the copy has the value of the
    original, and it depends on no cell that was there before. *)
Definition copies {meta T V} (value : heap meta → T → option V) (f : T → mem meta T) : Prop :=
  (∀ h h' x v, value h x = Some v → h ⊆ h' → value h' x = Some v) ∧
  ∀ h0 h x v, h0 ⊆ h → value h x = Some v →
    ∃ h' y, f x h = Ret (h', y) ∧ h ⊆ h' ∧ ∀ h2, keeps h0 h' h2 → value h2 y = Some v.

(** A type of structures with a deep copy, as apimachinery provides it for its
    own: the values of a structure are read off the heap. *)
Class Copier (meta T V : Type) := {
  value_of : heap meta → T → option V;
  copy_into : T → mem meta T
}.

Class CopierLaws (meta T V : Type) `{Copier meta T V} := {
  copier_copies : copies value_of copy_into
}.

(** ** The generated functions *)

(** The metadata of an object: namespace, name, resource version, generation
    and deletion time. *)
Definition meta_values : Type := string * string * string * Z * option Z.

Section DeepCopy.
Context {meta : Type} `{!Copier meta meta meta_values}.

Definition cell_plugins (c : cell meta) : option (list AmeshPluginConfigPlugin) :=
  match c with PluginsCell l => Some l | _ => None end.
Definition selector_of (c : cell meta) : option LabelSelector :=
  match c with SelectorCell s => Some s | _ => None end.
Definition conditions_of (c : cell meta) : option (list Condition) :=
  match c with ConditionsCell l => Some l | _ => None end.

(** A slice or pointer field: copied to a new cell unless it is nil. *)
Definition copy_field (f : option loc) : mem meta (option loc) :=
  match f with
  | None => mret None
  | Some l => c ← load l; l' ← alloc c; mret (Some l')
  end.

Definition AmeshPluginConfigSpec_DeepCopyInto (inp : spec_struct) : mem meta spec_struct :=
  plugins ← copy_field (SP_Plugins inp);
  selector ← copy_field (SP_Selector inp);
  mret (mkSpecStruct plugins selector).

Definition AmeshPluginConfigStatus_DeepCopyInto (inp : status_struct) : mem meta status_struct :=
  conditions ← copy_field (ST_Conditions inp);
  mret (mkStatusStruct conditions).

Definition AmeshPluginConfig_DeepCopyInto (inp : config_struct meta) : mem meta (config_struct meta) :=
  objectMeta ← copy_into (CS_Meta inp);
  spec ← AmeshPluginConfigSpec_DeepCopyInto (CS_Spec inp);
  status ← AmeshPluginConfigStatus_DeepCopyInto (CS_Status inp);
  mret (mkConfigStruct (CS_TypeMeta inp) objectMeta spec status).

(** The loop over the items. *)
Fixpoint copy_items (items : list (config_struct meta)) : mem meta (list (config_struct meta)) :=
  match items with
  | [] => mret []
  | item :: items =>
      item' ← AmeshPluginConfig_DeepCopyInto item;
      items' ← copy_items items;
      mret (item' :: items')
  end.

Definition AmeshPluginConfigList_DeepCopyInto (inp : list_struct) : mem meta list_struct :=
  items ← match LI_Items inp with
    | None => mret None
    | Some l =>
        c ← load l;
        match c with
        | ItemsCell items => items' ← copy_items items; l' ← alloc (ItemsCell items'); mret (Some l')
        | _ => bad_cell
        end
    end;
  mret (mkListStruct (LI_TypeMeta inp) (LI_ListMeta inp) items).

Definition AmeshPluginConfigPlugin_DeepCopyInto (inp : AmeshPluginConfigPlugin) : mem meta AmeshPluginConfigPlugin := mret inp.

(** [DeepCopy]: nil for nil, else a new structure that the original is copied
    into. *)
Definition deep_copy {T} (unpack : cell meta → option T) (pack : T → cell meta) (DeepCopyInto : T → mem meta T)
    (p : option loc) : mem meta (option loc) :=
  match p with
  | None => mret None
  | Some l =>
      c ← load l;
      match unpack c with
      | None => bad_cell
      | Some inp => out ← DeepCopyInto inp; l' ← alloc (pack out); mret (Some l')
      end
  end.

Definition config_of (c : cell meta) : option (config_struct meta) := match c with ConfigCell x => Some x | _ => None end.
Definition list_of (c : cell meta) : option list_struct := match c with ListCell x => Some x | _ => None end.
Definition plugin_of (c : cell meta) : option AmeshPluginConfigPlugin := match c with PluginCell x => Some x | _ => None end.
Definition spec_of (c : cell meta) : option spec_struct := match c with SpecCell x => Some x | _ => None end.
Definition status_of (c : cell meta) : option status_struct := match c with StatusCell x => Some x | _ => None end.

Definition AmeshPluginConfig_DeepCopy : option loc → mem meta (option loc) :=
  deep_copy config_of ConfigCell AmeshPluginConfig_DeepCopyInto.
Definition AmeshPluginConfigList_DeepCopy : option loc → mem meta (option loc) :=
  deep_copy list_of ListCell AmeshPluginConfigList_DeepCopyInto.
Definition AmeshPluginConfigPlugin_DeepCopy : option loc → mem meta (option loc) :=
  deep_copy plugin_of PluginCell AmeshPluginConfigPlugin_DeepCopyInto.
Definition AmeshPluginConfigSpec_DeepCopy : option loc → mem meta (option loc) :=
  deep_copy spec_of SpecCell AmeshPluginConfigSpec_DeepCopyInto.
Definition AmeshPluginConfigStatus_DeepCopy : option loc → mem meta (option loc) :=
  deep_copy status_of StatusCell AmeshPluginConfigStatus_DeepCopyInto.

(** [DeepCopyObject]: the interface value is nil exactly when the pointer is. *)
Definition AmeshPluginConfig_DeepCopyObject (p : option loc) : mem meta (option loc) :=
  c ← AmeshPluginConfig_DeepCopy p;
  mret c.
Definition AmeshPluginConfigList_DeepCopyObject (p : option loc) : mem meta (option loc) :=
  c ← AmeshPluginConfigList_DeepCopy p;
  mret c.

(** ** What a structure stands for *)

Definition field_value {A} (unpack : cell meta → option A) (h : heap meta) (f : option loc) : option (option A) :=
  match f with
  | None => Some None
  | Some l => c ← h !! l; a ← unpack c; Some (Some a)
  end.

Definition spec_value (h : heap meta) (s : spec_struct) : option (option (list AmeshPluginConfigPlugin) * option LabelSelector) :=
  plugins ← field_value cell_plugins h (SP_Plugins s);
  selector ← field_value selector_of h (SP_Selector s);
  Some (plugins, selector).

(** The object, as the other files see it: a nil slice is an empty list there. *)
Record object := mkObject {
  Obj_TypeMeta : string * string;
  Obj_Meta : meta_values;
  Obj_Plugins : option (list AmeshPluginConfigPlugin);
  Obj_Selector : option LabelSelector;
  Obj_Conditions : option (list Condition)
}.

Definition config_value (h : heap meta) (c : config_struct meta) : option object :=
  m ← value_of h (CS_Meta c);
  spec ← spec_value h (CS_Spec c);
  conditions ← field_value conditions_of h (ST_Conditions (CS_Status c));
  Some (mkObject (CS_TypeMeta c) m spec.1 spec.2 conditions).

Definition pointer_value (h : heap meta) (p : option loc) : option (option object) :=
  match p with
  | None => Some None
  | Some l => c ← h !! l; config ← config_of c; o ← config_value h config; Some (Some o)
  end.

Definition list_value (h : heap meta) (s : list_struct) : option (option (list object)) :=
  match LI_Items s with
  | None => Some None
  | Some l => c ← h !! l; match c with ItemsCell items => o ← mapM (config_value h) items; Some (Some o) | _ => None end
  end.

Definition resource_of (o : object) : AmeshPluginConfigResource :=
  let '(ns, name, version, generation, deletion) := Obj_Meta o in
  mkAmeshPluginConfigResource ns name version generation deletion
    (mkAmeshPluginConfigSpec (default [] (Obj_Plugins o)) (Obj_Selector o)) (default [] (Obj_Conditions o)).

(** ** Lemmas *)

Lemma keeps_mono (h0 h' h'' h2 : heap meta) : h' ⊆ h'' → keeps h0 h'' h2 → keeps h0 h' h2.
Proof. intros Hsub Hk l c Hl Hc. apply Hk; [done|]. by eapply lookup_weaken. Qed.

Lemma keeps_refl (h0 h' : heap meta) : keeps h0 h' h'.
Proof. by intros l c. Qed.

Lemma alloc_spec (h0 h : heap meta) c :
  h0 ⊆ h → ∃ h' l, alloc c h = Ret (h', l) ∧ h ⊆ h' ∧ h0 !! l = None ∧ h !! l = None ∧ ∀ h2, keeps h0 h' h2 → h2 !! l = Some c.
Proof.
  intros Hsub. set (l := fresh (dom h)). assert (h !! l = None) as Hl by apply not_elem_of_dom, is_fresh.
  assert (h0 !! l = None) as Hl0 by (by eapply lookup_weaken_None).
  eexists _, l. split; [reflexivity|]. split_and!; [by apply insert_subseteq|done|done|].
  intros h2 Hk. apply Hk; [done|apply lookup_insert_eq].
Qed.

Lemma mem_bind_eq {A B} (m : mem meta A) (f : A → mem meta B) h :
  (m ≫= f) h = (res ← m h; let '(h, a) := res in f a h).
Proof. done. Qed.

Lemma copy_field_copies {A} (unpack : cell meta → option A) : copies (field_value unpack) copy_field.
Proof.
  split.
  - intros h h' [l|] v Hv Hsub; [|done]. cbn in Hv |- *. destruct (h !! l) as [c|] eqn:Hl; [|done].
    by rewrite (lookup_weaken h h' l c).
  - intros h0 h [l|] v Hsub Hv; [|by exists h, None]. cbn in Hv. destruct (h !! l) as [c|] eqn:Hl; [|done].
    cbn in Hv. destruct (unpack c) as [a|] eqn:Ha; [|done]. injection Hv as <-.
    destruct (alloc_spec h0 h c Hsub) as (h' & l' & Halloc & Hsub' & _ & _ & Hk).
    exists h', (Some l'). split_and!; [|done|].
    + cbn [copy_field]. rewrite mem_bind_eq. unfold load. rewrite Hl. cbn. by rewrite mem_bind_eq, Halloc.
    + intros h2 H2. cbn. rewrite (Hk h2 H2). cbn. by rewrite Ha.
Qed.

(** One copy in a sequence: what it returns stays good under the allocations of
    the next ones. *)
Lemma copies_run {T V} (value : heap meta → T → option V) f h0 h x v :
  copies value f → h0 ⊆ h → value h x = Some v →
  ∃ h' y, f x h = Ret (h', y) ∧ h ⊆ h' ∧ h0 ⊆ h' ∧
    ∀ h'' h2, h' ⊆ h'' → keeps h0 h'' h2 → value h2 y = Some v.
Proof.
  intros [_ Hc] Hsub Hv. destruct (Hc h0 h x v Hsub Hv) as (h' & y & Hrun & Hsub' & Hk).
  exists h', y. split_and!; [done|done|by etrans|]. intros h'' h2 Hext H2. apply Hk. by eapply keeps_mono.
Qed.

Lemma spec_copies : copies spec_value AmeshPluginConfigSpec_DeepCopyInto.
Proof.
  pose proof (copy_field_copies cell_plugins) as Hp. pose proof (copy_field_copies selector_of) as Hs. split.
  - intros h h' [p s] v Hv Hsub. unfold spec_value in *. apply bind_Some in Hv as (pv & Hpv & Hv).
    apply bind_Some in Hv as (sv & Hsv & Hv). cbn in *. by rewrite (proj1 Hp _ h' _ _ Hpv), (proj1 Hs _ h' _ _ Hsv).
  - intros h0 h [p s] v Hsub Hv. unfold spec_value in Hv. apply bind_Some in Hv as (pv & Hpv & Hv).
    apply bind_Some in Hv as (sv & Hsv & Hv). injection Hv as <-. cbn in Hpv, Hsv.
    destruct (copies_run _ _ h0 h _ _ Hp Hsub Hpv) as (h1 & p' & Hr1 & Hs1 & Hs01 & Hk1).
    destruct (copies_run _ _ h0 h1 s sv Hs Hs01) as (h2 & s' & Hr2 & Hs2 & Hs02 & Hk2); [by eapply (proj1 Hs)|].
    exists h2, (mkSpecStruct p' s'). split_and!; [|by transitivity h1|].
    + unfold AmeshPluginConfigSpec_DeepCopyInto. cbn [SP_Plugins SP_Selector]. by rewrite mem_bind_eq, Hr1; cbn; rewrite mem_bind_eq, Hr2.
    + intros h3 H3. unfold spec_value. cbn. rewrite (Hk1 h2 h3) by done. cbn. by rewrite (Hk2 h2 h3).
Qed.

Lemma status_copies :
  copies (λ h s, field_value conditions_of h (ST_Conditions s)) AmeshPluginConfigStatus_DeepCopyInto.
Proof.
  pose proof (copy_field_copies conditions_of) as Hc. split.
  - intros h h' [c] v Hv Hsub. by eapply (proj1 Hc).
  - intros h0 h [c] v Hsub Hv. cbn [ST_Conditions] in Hv.
    destruct (copies_run _ _ h0 h _ _ Hc Hsub Hv) as (h1 & c' & Hr1 & Hs1 & _ & Hk1).
    exists h1, (mkStatusStruct c'). split_and!; [|done|].
    + unfold AmeshPluginConfigStatus_DeepCopyInto. cbn [ST_Conditions]. by rewrite mem_bind_eq, Hr1.
    + intros h2 H2. by apply (Hk1 h1).
Qed.

Context `{!CopierLaws meta meta meta_values}.

Lemma config_copies : copies config_value AmeshPluginConfig_DeepCopyInto.
Proof.
  pose proof copier_copies as Hm. pose proof spec_copies as Hsp. pose proof status_copies as Hst. split.
  - intros h h' [t m sp st] v Hv Hsub. unfold config_value in *. cbn in Hv |- *.
    apply bind_Some in Hv as (mv & Hmv & Hv). apply bind_Some in Hv as (spv & Hspv & Hv).
    apply bind_Some in Hv as (stv & Hstv & Hv).
    by rewrite (proj1 Hm _ h' _ _ Hmv), (proj1 Hsp _ h' _ _ Hspv), (proj1 Hst _ h' _ _ Hstv).
  - intros h0 h [t m sp st] v Hsub Hv. unfold config_value in Hv. cbn in Hv.
    apply bind_Some in Hv as (mv & Hmv & Hv). apply bind_Some in Hv as (spv & Hspv & Hv).
    apply bind_Some in Hv as (stv & Hstv & Hv). injection Hv as <-.
    destruct (copies_run _ _ h0 h _ _ Hm Hsub Hmv) as (h1 & m' & Hr1 & Hs1 & Hs01 & Hk1).
    destruct (copies_run _ _ h0 h1 sp spv Hsp Hs01) as (h2 & sp' & Hr2 & Hs2 & Hs02 & Hk2); [by eapply (proj1 Hsp)|].
    destruct (copies_run _ _ h0 h2 st stv Hst Hs02) as (h3 & st' & Hr3 & Hs3 & _ & Hk3).
    { eapply (proj1 Hst); [done|by transitivity h1]. }
    exists h3, (mkConfigStruct t m' sp' st'). split_and!; [|by transitivity h1; [|transitivity h2]|].
    + unfold AmeshPluginConfig_DeepCopyInto. cbn [CS_Meta CS_Spec CS_Status CS_TypeMeta].
      rewrite mem_bind_eq, Hr1; cbn; rewrite mem_bind_eq, Hr2; cbn; by rewrite mem_bind_eq, Hr3.
    + intros h4 H4. unfold config_value. cbn. rewrite (Hk1 h3 h4) by (done || by transitivity h2). cbn.
      rewrite (Hk2 h3 h4) by done. cbn. by rewrite (Hk3 h3 h4).
Qed.

Lemma items_copies : copies (λ h, mapM (config_value h)) copy_items.
Proof.
  pose proof config_copies as Hc. split.
  - intros h h' l. induction l as [|x l IH]; intros v Hv Hsub; [done|]. cbn in Hv |- *.
    apply bind_Some in Hv as (o & Ho & Hv). apply bind_Some in Hv as (os & Hos & Hv).
    by rewrite (proj1 Hc _ h' _ _ Ho), (IH _ Hos Hsub).
  - intros h0 h l. revert h. induction l as [|x l IH]; intros h v Hsub Hv; [injection Hv as <-; by exists h, []|].
    cbn in Hv. apply bind_Some in Hv as (o & Ho & Hv). apply bind_Some in Hv as (os & Hos & Hv). injection Hv as <-.
    destruct (copies_run _ _ h0 h _ _ Hc Hsub Ho) as (h1 & x' & Hr1 & Hs1 & Hs01 & Hk1).
    destruct (IH h1 os Hs01) as (h2 & l' & Hr2 & Hs2 & Hk2).
    { apply mapM_Some in Hos. apply mapM_Some. eapply Forall2_impl; [exact Hos|]. intros y oy Hy. by apply (proj1 Hc h h1). }
    exists h2, (x' :: l'). split_and!; [|by transitivity h1|].
    + cbn [copy_items]. rewrite mem_bind_eq, Hr1; cbn. by rewrite mem_bind_eq, Hr2.
    + intros h3 H3. cbn. rewrite (Hk1 h2 h3) by done. cbn. by rewrite Hk2.
Qed.

Lemma list_copies : copies list_value AmeshPluginConfigList_DeepCopyInto.
Proof.
  pose proof items_copies as Hi. split.
  - intros h h' [t m [l|]] v Hv Hsub; [|done]. unfold list_value in *. cbn in Hv |- *.
    destruct (h !! l) as [c|] eqn:Hl; [|done]. rewrite (lookup_weaken h h' l c) by done. cbn in Hv |- *.
    destruct c; try done. apply bind_Some in Hv as (o & Ho & Hv). by rewrite (proj1 Hi _ h' _ _ Ho).
  - intros h0 h [t m [l|]] v Hsub Hv; [|by exists h, (mkListStruct t m None)]. unfold list_value in Hv. cbn in Hv.
    destruct (h !! l) as [c|] eqn:Hl; [|done]. cbn in Hv. destruct c as [| | | | | | | |items|]; try done.
    apply bind_Some in Hv as (os & Hos & Hv). injection Hv as <-.
    destruct (copies_run _ _ h0 h _ _ Hi Hsub Hos) as (h1 & items' & Hr1 & Hs1 & Hs01 & Hk1).
    destruct (alloc_spec h0 h1 (ItemsCell items') Hs01) as (h2 & l' & Halloc & Hs2 & _ & _ & Hk2).
    exists h2, (mkListStruct t m (Some l')). split_and!; [|by transitivity h1|].
    + unfold AmeshPluginConfigList_DeepCopyInto. cbn [LI_Items LI_TypeMeta LI_ListMeta].
      rewrite !mem_bind_eq. unfold load at 1. rewrite Hl. cbn. rewrite mem_bind_eq, Hr1. cbn. by rewrite mem_bind_eq, Halloc.
    + intros h3 H3. unfold list_value. cbn. rewrite (Hk2 h3 H3). cbn. by rewrite (Hk1 h2 h3).
Qed.

(** A pointer to a structure. *)
Lemma deep_copy_copies {T V} (unpack : cell meta → option T) (pack : T → cell meta) (value : heap meta → T → option V) f :
  (∀ x, unpack (pack x) = Some x) → copies value f →
  copies (λ h p, match p with
                 | None => Some None
                 | Some l => c ← h !! l; x ← unpack c; o ← value h x; Some (Some o)
                 end) (deep_copy unpack pack f).
Proof.
  intros Hpack Hf. split.
  - intros h h' [l|] v Hv Hsub; [|done]. destruct (h !! l) as [c|] eqn:Hl; [|done].
    rewrite (lookup_weaken h h' l c) by done. cbn in Hv |- *. destruct (unpack c) as [x|]; [|done]. cbn in Hv |- *.
    apply bind_Some in Hv as (o & Ho & Hv). by rewrite (proj1 Hf _ h' _ _ Ho).
  - intros h0 h [l|] v Hsub Hv; [|by exists h, None]. destruct (h !! l) as [c|] eqn:Hl; [|done]. cbn in Hv.
    destruct (unpack c) as [x|] eqn:Hx; [|done]. cbn in Hv. apply bind_Some in Hv as (o & Ho & Hv). injection Hv as <-.
    destruct (copies_run _ _ h0 h _ _ Hf Hsub Ho) as (h1 & y & Hr1 & Hs1 & Hs01 & Hk1).
    destruct (alloc_spec h0 h1 (pack y) Hs01) as (h2 & l' & Halloc & Hs2 & _ & _ & Hk2).
    exists h2, (Some l'). split_and!; [|by transitivity h1|].
    + cbn [deep_copy]. rewrite mem_bind_eq. unfold load. rewrite Hl. cbn. rewrite Hx, mem_bind_eq, Hr1. cbn.
      by rewrite mem_bind_eq, Halloc.
    + intros h3 H3. rewrite (Hk2 h3 H3). cbn. rewrite Hpack. cbn. by rewrite (Hk1 h2 h3).
Qed.

Lemma config_pointer_copies : copies pointer_value AmeshPluginConfig_DeepCopy.
Proof. by apply (deep_copy_copies config_of ConfigCell config_value); [|apply config_copies]. Qed.

Definition list_pointer_value (h : heap meta) (p : option loc) : option (option (option (list object))) :=
  match p with
  | None => Some None
  | Some l => c ← h !! l; x ← list_of c; o ← list_value h x; Some (Some o)
  end.

Lemma list_pointer_copies : copies list_pointer_value AmeshPluginConfigList_DeepCopy.
Proof. by apply (deep_copy_copies list_of ListCell list_value); [|apply list_copies]. Qed.

(** ** recordStatus on memory *)

Section RecordStatus.
Context `{!K8sLib}.

(** The accessors of the object's metadata. *)
Definition read_meta (m : meta) : mem meta meta_values := λ h,
  match value_of h m with Some v => Ret (h, v) | None => Panic "invalid memory address" end.

Definition store (l : loc) (c : cell meta) : mem meta unit := λ h,
  match h !! l with Some _ => Ret (<[l := c]> h, tt) | None => Panic "invalid memory address" end.

Definition load_config (p : option loc) : mem meta (loc * config_struct meta) :=
  match p with
  | None => bad_cell
  | Some l => c ← load l; match config_of c with Some config => mret (l, config) | None => bad_cell end
  end.

Definition load_conditions (l : loc) : mem meta (list Condition) :=
  c ← load l; match conditions_of c with Some conditions => mret conditions | None => bad_cell end.

Definition set_conditions (f : option loc) (config : config_struct meta) : config_struct meta :=
  mkConfigStruct (CS_TypeMeta config) (CS_Meta config) (CS_Spec config) (mkStatusStruct f).

(** [if config.Status.Conditions == nil { ... make([]metav1.Condition, 0) ... }] *)
Definition make_conditions (l : loc) (config : config_struct meta) : mem meta loc :=
  match ST_Conditions (CS_Status config) with
  | Some lc => mret lc
  | None => lc ← alloc (ConditionsCell []); _ ← store l (ConfigCell (set_conditions (Some lc) config)); mret lc
  end.

(** [meta.SetStatusCondition] writes to the array of the conditions, the case
    in which sharing it would be seen.  The result is the address of the object
    given to [UpdateStatus], if it is called. *)
Definition recordStatus_mem (now : Z) (config : option loc) (reason : string) (err : option error) (status : string) :
    mem meta (option loc) :=
  let message := match err with Some err => error_text err | None => ConditionSyncSuccess end in
  '(_, original) ← load_config config;
  '(_, _, _, generation, _) ← read_meta (CS_Meta original);
  let condition := mkCondition ConditionSync status generation 0 reason message in
  config ← AmeshPluginConfig_DeepCopy config;
  '(l, copy) ← load_config config;
  lc ← make_conditions l copy;
  conditions ← load_conditions lc;
  if VerifyGeneration conditions condition then
    _ ← store lc (ConditionsCell (SetStatusCondition now conditions condition));
    mret (Some l)
  else mret None.

Lemma mem_bind_run {A B} (m : mem meta A) (f : A → mem meta B) h h' a : m h = Ret (h', a) → (m ≫= f) h = f a h'.
Proof. intros Hm. by rewrite mem_bind_eq, Hm. Qed.

Lemma load_config_run h l config : h !! l = Some (ConfigCell config) → load_config (Some l) h = Ret (h, (l, config)).
Proof. intros Hl. cbn [load_config]. erewrite mem_bind_run by (unfold load; by rewrite Hl). done. Qed.

Lemma load_conditions_run h l conditions : h !! l = Some (ConditionsCell conditions) → load_conditions l h = Ret (h, conditions).
Proof. intros Hl. unfold load_conditions. erewrite mem_bind_run by (unfold load; by rewrite Hl). done. Qed.

Lemma read_meta_run h m v : value_of h m = Some v → read_meta m h = Ret (h, v).
Proof. intros Hm. unfold read_meta. by rewrite Hm. Qed.

Lemma store_run h l c c0 : h !! l = Some c0 → store l c h = Ret (<[l := c]> h, tt).
Proof. intros Hl. unfold store. by rewrite Hl. Qed.

(** A cell that the value of a copy depends on is a new one. *)
Lemma keeps_change (h h' : heap meta) l c : is_Some (h !! l) → keeps h h' (<[l := c]> h').
Proof. intros [c0 Hc0] l1 c1 Hl1 Hc1. rewrite lookup_insert_ne; [done|congruence]. Qed.

Lemma value_cell_new {A} (read : cell meta → option A) (h h' : heap meta) l :
  read (TimeCell 0) = None →
  (∀ h2, keeps h h' h2 → ∃ c, h2 !! l = Some c ∧ is_Some (read c)) → h !! l = None.
Proof.
  intros Hread Hk. destruct (h !! l) as [c0|] eqn:Hl; [|done]. exfalso.
  destruct (Hk (<[l := TimeCell 0]> h')) as (c & Hc & [x Hx]); [by apply keeps_change|].
  rewrite lookup_insert_eq in Hc. injection Hc as <-. by rewrite Hread in Hx.
Qed.

(** Go's types: the metadata of an object has pointers to times only. *)
Definition is_time (c : cell meta) : bool := match c with TimeCell _ => true | _ => false end.

Context (meta_typed : ∀ h l c' (m : meta) v, value_of h m = Some v →
  is_time c' = false → (∀ c, h !! l = Some c → is_time c = false) → value_of (<[l := c']> h) m = Some v).

Lemma field_value_update {A} (unpack : cell meta → option A) h l c' f v :
  field_value unpack h f = Some v → (∀ c, h !! l = Some c → unpack c = None) → field_value unpack (<[l := c']> h) f = Some v.
Proof.
  destruct f as [l1|]; [|done]. cbn. intros Hv Hl. destruct (decide (l = l1)) as [->|Hne]; [|by rewrite lookup_insert_ne].
  destruct (h !! l1) as [c|]; [|done]. cbn in Hv. by rewrite (Hl c eq_refl) in Hv.
Qed.

(** Writing a new, a condition or an object cell leaves the rest of an object. *)
Lemma parts_update h l c' m sp mv spv :
  value_of h m = Some mv → spec_value h sp = Some spv → is_time c' = false →
  (∀ c, h !! l = Some c → is_time c = false ∧ cell_plugins c = None ∧ selector_of c = None) →
  value_of (<[l := c']> h) m = Some mv ∧ spec_value (<[l := c']> h) sp = Some spv.
Proof.
  intros Hm Hsp Hc' Hl. split; [apply meta_typed; [done..|]; intros; by apply Hl|].
  unfold spec_value in *. apply bind_Some in Hsp as (pv & Hpv & Hsp). apply bind_Some in Hsp as (sv & Hsv & Hsp).
  rewrite (field_value_update cell_plugins h l c' _ pv) by (try done; intros; by apply Hl). cbn.
  by rewrite (field_value_update selector_of h l c' _ sv) by (try done; intros; by apply Hl).
Qed.

(** The object of a copy, opened: its cells are new. *)
Lemma copied_config h h' l o :
  (∀ h2, keeps h h' h2 → pointer_value h2 (Some l) = Some (Some o)) →
  ∃ config, h' !! l = Some (ConfigCell config) ∧ h !! l = None ∧ config_value h' config = Some o ∧
    (∀ lc, ST_Conditions (CS_Status config) = Some lc → h !! lc = None ∧
       ∃ conditions, h' !! lc = Some (ConditionsCell conditions) ∧ Obj_Conditions o = Some conditions).
Proof.
  intros Hk. pose proof (Hk h' (keeps_refl h h')) as Ho. cbn in Ho.
  destruct (h' !! l) as [c|] eqn:Hl; [|done]. cbn in Ho. destruct (config_of c) as [config|] eqn:Hc; [|done]. cbn in Ho.
  assert (c = ConfigCell config) as -> by (destruct c; try done; by injection Hc as ->).
  assert (h !! l = None) as Hnew.
  { apply (value_cell_new config_of h h'); [done|]. intros h2 H2. specialize (Hk h2 H2). cbn in Hk.
    destruct (h2 !! l) as [c|]; [|done]. exists c. split; [done|]. cbn in Hk. by destruct (config_of c). }
  apply bind_Some in Ho as (o' & Ho & [= ->]).
  exists config. split_and!; [done..|]. intros lc Hlc.
  assert (∀ h2, keeps h h' h2 → field_value conditions_of h2 (Some lc) = Some (Obj_Conditions o)) as Hconds.
  { intros h2 H2. pose proof (Hk h2 H2) as Hv. cbn [pointer_value] in Hv. rewrite (H2 l _ Hnew Hl) in Hv. cbn in Hv.
    unfold config_value in Hv. rewrite Hlc in Hv.
    destruct (value_of h2 (CS_Meta config)) as [mv|]; [|done]. cbn in Hv.
    destruct (spec_value h2 (CS_Spec config)) as [spv|]; [|done]. cbn in Hv |- *.
    destruct (h2 !! lc) as [c|]; [|done]. cbn in Hv |- *. destruct (conditions_of c); [|done]. cbn in Hv. by injection Hv as <-. }
  split.
  - apply (value_cell_new conditions_of h h'); [done|]. intros h2 H2. specialize (Hconds h2 H2). cbn in Hconds.
    destruct (h2 !! lc) as [c|]; [|done]. exists c. split; [done|]. cbn in Hconds. by destruct (conditions_of c).
  - specialize (Hconds h' (keeps_refl h h')). cbn in Hconds. destruct (h' !! lc) as [c|]; [|done]. cbn in Hconds.
    destruct c; try done. cbn in Hconds. injection Hconds as Hconds. by eexists.
Qed.

(** An object whose conditions are in a new array at [lc]. *)
Record ready (h h' : heap meta) (l lc : loc) (o : object) (conditions : list Condition) : Prop := {
  RY_sub : h ⊆ h';
  RY_new : h !! lc = None;
  RY_conditions : h' !! lc = Some (ConditionsCell conditions);
  RY_object : ∃ config, h' !! l = Some (ConfigCell config) ∧ ST_Conditions (CS_Status config) = Some lc ∧
    CS_TypeMeta config = Obj_TypeMeta o ∧ value_of h' (CS_Meta config) = Some (Obj_Meta o) ∧
    spec_value h' (CS_Spec config) = Some (Obj_Plugins o, Obj_Selector o)
}.

Definition with_conditions (o : object) (conditions : list Condition) : object :=
  mkObject (Obj_TypeMeta o) (Obj_Meta o) (Obj_Plugins o) (Obj_Selector o) (Some conditions).

Lemma ready_value h h' l lc o conditions :
  ready h h' l lc o conditions → pointer_value h' (Some l) = Some (Some (with_conditions o conditions)).
Proof.
  intros [_ _ Hlc (config & Hl & Hst & Ht & Hm & Hsp)]. cbn. rewrite Hl. cbn. unfold config_value.
  rewrite Hm. cbn. rewrite Hsp. cbn. rewrite Hst. cbn. rewrite Hlc. cbn. by rewrite Ht.
Qed.

Lemma config_parts h config o :
  config_value h config = Some o →
  CS_TypeMeta config = Obj_TypeMeta o ∧ value_of h (CS_Meta config) = Some (Obj_Meta o) ∧
  spec_value h (CS_Spec config) = Some (Obj_Plugins o, Obj_Selector o) ∧
  field_value conditions_of h (ST_Conditions (CS_Status config)) = Some (Obj_Conditions o).
Proof.
  unfold config_value. intros Hv. apply bind_Some in Hv as (mv & Hm & Hv). apply bind_Some in Hv as ([pv sv] & Hsp & Hv).
  apply bind_Some in Hv as (cv & Hcv & Hv). by injection Hv as <-.
Qed.

Lemma make_conditions_ready h h' l config o :
  h ⊆ h' → h !! l = None → h' !! l = Some (ConfigCell config) → config_value h' config = Some o →
  (∀ lc, ST_Conditions (CS_Status config) = Some lc → h !! lc = None ∧
     ∃ conditions, h' !! lc = Some (ConditionsCell conditions) ∧ Obj_Conditions o = Some conditions) →
  ∃ h2 lc, make_conditions l config h' = Ret (h2, lc) ∧ ready h h2 l lc o (default [] (Obj_Conditions o)).
Proof.
  intros Hsub Hnew Hl Ho Hst. apply config_parts in Ho as (Ht & Hm & Hsp & Hcv). unfold make_conditions.
  destruct (ST_Conditions (CS_Status config)) as [lc|] eqn:Hlc.
  - destruct (Hst lc eq_refl) as (Hlcnew & conditions & Hcell & ->). exists h', lc. split; [done|].
    split; [done..|]. by exists config.
  - cbn in Hcv. injection Hcv as <-. destruct (alloc_spec h h' (ConditionsCell []) Hsub) as (h2 & lc & Halloc & Hs2 & Hlcnew & Hfree & _).
    rewrite mem_bind_eq, Halloc. cbn. rewrite mem_bind_eq. unfold store.
    assert (h2 = <[lc := ConditionsCell []]> h') as -> by (unfold alloc in Halloc; congruence).
    assert (l ≠ lc) as Hne by congruence. rewrite lookup_insert_ne, Hl by congruence. cbn.
    eexists _, lc. split; [reflexivity|]. split.
    + apply insert_subseteq_r; [done|]. by transitivity h'.
    + done.
    + rewrite lookup_insert_ne by done. apply lookup_insert_eq.
    + exists (set_conditions (Some lc) config). rewrite lookup_insert_eq. split_and!; [done..| |];
        (destruct (parts_update h' lc (ConditionsCell []) (CS_Meta config) (CS_Spec config) _ _ Hm Hsp) as [Hm1 Hsp1];
         [done|by rewrite Hfree|]);
        (destruct (parts_update (<[lc := ConditionsCell []]> h') l (ConfigCell (set_conditions (Some lc) config)) _ _ _ _ Hm1 Hsp1);
         [done|rewrite lookup_insert_ne, Hl by congruence; by intros c [= <-]|done]).
Qed.

Lemma ready_update h h' l lc o conditions conditions' :
  ready h h' l lc o conditions → ready h (<[lc := ConditionsCell conditions']> h') l lc o conditions'.
Proof.
  intros [Hsub Hnew Hlc (config & Hl & Hst & Ht & Hm & Hsp)]. split.
  - by apply insert_subseteq_r.
  - done.
  - apply lookup_insert_eq.
  - exists config. rewrite lookup_insert_ne by congruence.
    destruct (parts_update h' lc (ConditionsCell conditions') _ _ _ _ Hm Hsp) as [Hm1 Hsp1];
      [done|rewrite Hlc; by intros c [= <-]|by split_and!].
Qed.

(** C40. Recording a status does not disturb what the reconciler has cached:
    [recordStatus] works on a deep copy.  Whatever the object, with whatever
    sharing of its slices and pointers with the caches, every cell of memory
    that existed before is unchanged afterwards, even though conditions are
    written in place; and the object given to [UpdateStatus], if any, is
    exactly the one that the model on values (Reconciler.v) gives. *)
Theorem recordStatus_separates now h l o reason err status :
  pointer_value h (Some l) = Some (Some o) →
  ∃ h' sent, recordStatus_mem now (Some l) reason err status h = Ret (h', sent) ∧ h ⊆ h' ∧
    match sent with
    | Some l' => ∃ o', pointer_value h' (Some l') = Some (Some o') ∧
        recordStatus now (resource_of o) reason err status = [UpdateStatus (resource_of o')]
    | None => recordStatus now (resource_of o) reason err status = []
    end.
Proof.
  intros Hv. destruct (copies_run _ _ h h _ _ config_pointer_copies (reflexivity h) Hv) as (h1 & p' & Hcopy & Hsub & _ & Hk).
  destruct p' as [l'|]; [|specialize (Hk h1 h1 (reflexivity h1) (keeps_refl h h1)); done].
  destruct (copied_config h h1 l' o) as (copy & Hl' & Hnew & Ho & Hst); [intros h2 H2; by apply (Hk h1)|].
  destruct (make_conditions_ready h h1 l' copy o) as (h2 & lc & Hmake & Hready); [done..|].
  cbn in Hv. destruct (h !! l) as [c|] eqn:Hl; [|done]. cbn in Hv. destruct (config_of c) as [config|] eqn:Hc; [|done].
  cbn in Hv. apply bind_Some in Hv as (o0 & Ho0 & [= ->]). apply config_parts in Ho0 as (_ & Hm & _ & _).
  destruct c as [| | | | | | |c| |]; try done. injection Hc as ->.
  destruct o as [tm [[[[ns name] version] generation] deletion] plugins selector conditions].
  unfold recordStatus_mem. erewrite mem_bind_run by (by apply load_config_run). cbn beta iota.
  erewrite mem_bind_run by (by apply read_meta_run). cbn beta iota delta [Obj_Meta].
  erewrite mem_bind_run by exact Hcopy. erewrite mem_bind_run by (by apply load_config_run). cbn beta iota.
  erewrite mem_bind_run by exact Hmake. erewrite mem_bind_run by (by eapply load_conditions_run, RY_conditions).
  unfold recordStatus, resource_of. cbn.
  match goal with |- context [VerifyGeneration ?cs ?cond] => destruct (VerifyGeneration cs cond) end.
  - erewrite mem_bind_run by (by eapply store_run, RY_conditions). eexists _, (Some l'). split; [reflexivity|].
    match goal with |- context [ConditionsCell ?cs] => pose proof (ready_update _ _ _ _ _ _ cs Hready) as Hready' end.
    split; [apply Hready'|]. eexists. split; [by eapply ready_value|]. done.
  - exists h2, None. split_and!; [done|apply Hready|done].
Qed.
End RecordStatus.
End DeepCopy.

(** ** An example: metadata that point to the deletion time *)

Record example_meta := mkExampleMeta {
  EM_Namespace : string;
  EM_Name : string;
  EM_ResourceVersion : string;
  EM_Generation : Z;
  EM_DeletionTimestamp : option loc
}.

Definition time_of (c : cell example_meta) : option Z := match c with TimeCell t => Some t | _ => None end.

#[export] Instance example_copier : Copier example_meta example_meta meta_values := {
  value_of h m :=
    t ← field_value time_of h (EM_DeletionTimestamp m);
    Some (EM_Namespace m, EM_Name m, EM_ResourceVersion m, EM_Generation m, t);
  copy_into m :=
    t ← copy_field (EM_DeletionTimestamp m);
    mret (mkExampleMeta (EM_Namespace m) (EM_Name m) (EM_ResourceVersion m) (EM_Generation m) t)
}.

#[export] Instance example_copier_laws : CopierLaws example_meta example_meta meta_values.
Proof.
  pose proof (copy_field_copies time_of) as Hc. split. split.
  - intros h h' [ns name version generation t] v Hv Hsub. cbn in Hv |- *. apply bind_Some in Hv as (tv & Htv & Hv).
    by rewrite (proj1 Hc _ h' _ _ Htv).
  - intros h0 h [ns name version generation t] v Hsub Hv. cbn in Hv. apply bind_Some in Hv as (tv & Htv & Hv).
    injection Hv as <-. destruct (copies_run _ _ h0 h _ _ Hc Hsub Htv) as (h1 & t' & Hrun & Hs1 & _ & Hk1).
    exists h1, (mkExampleMeta ns name version generation t'). split_and!; [|done|].
    + cbn. by erewrite mem_bind_run by exact Hrun.
    + intros h2 H2. cbn. by rewrite (Hk1 h1 h2).
Qed.

Lemma example_meta_typed h l c' (m : example_meta) (v : meta_values) :
  value_of h m = Some v → is_time c' = false → (∀ c, h !! l = Some c → is_time c = false) →
  value_of (<[l := c']> h) m = Some v.
Proof.
  intros Hv _ Hl. cbn in Hv |- *. apply bind_Some in Hv as (tv & Htv & Hv).
  rewrite (field_value_update time_of h l c' _ tv); [done|done|]. intros c Hc. by destruct c; try done; specialize (Hl _ Hc).
Qed.

(** An object being deleted: its plugins are shared, its conditions nil. *)
Definition example_object : config_struct example_meta :=
  mkConfigStruct ("AmeshPluginConfig", "apisix.apache.org/v1alpha1") (mkExampleMeta "ns" "config" "5" 3 (Some 3%positive))
    (mkSpecStruct (Some 2%positive) None) (mkStatusStruct None).

Definition example_heap : heap example_meta :=
  <[1%positive := ConfigCell example_object]>
    (<[2%positive := PluginsCell [mkAmeshPluginConfigPlugin "" "limit-req" "{}"]]> {[3%positive := TimeCell 7]}).

Definition example_value : object :=
  mkObject ("AmeshPluginConfig", "apisix.apache.org/v1alpha1") ("ns", "config", "5", 3, Some 7)
    (Some [mkAmeshPluginConfigPlugin "" "limit-req" "{}"]) None None.

Lemma recordStatus_separates_witness :
  pointer_value example_heap (Some 1%positive) = Some (Some example_value) ∧
  ∃ h' sent, @recordStatus_mem _ _ k8s_example 9 (Some 1%positive) "ResourceSyncAborted" None "True" example_heap = Ret (h', sent) ∧
    example_heap ⊆ h' ∧
    match sent with
    | Some l' => ∃ o', pointer_value h' (Some l') = Some (Some o') ∧
        @recordStatus k8s_example 9 (resource_of example_value) "ResourceSyncAborted" None "True" = [UpdateStatus (resource_of o')]
    | None => @recordStatus k8s_example 9 (resource_of example_value) "ResourceSyncAborted" None "True" = []
    end.
Proof.
  assert (pointer_value example_heap (Some 1%positive) = Some (Some example_value)) as Hv by reflexivity.
  split; [exact Hv|].
  exact (@recordStatus_separates _ _ _ k8s_example example_meta_typed 9 example_heap 1%positive example_value
           "ResourceSyncAborted" None "True" Hv).
Defined.
