(* ===== verification/GrpcServer.v ===== *)
(** * The plugin server of the controller (src/controller/pkg/grpc_server.go,
    instance_manager.go and pkg/metrics/prometheus.go)

    Each agent holds a stream open; the instance manager maps a pod to the
    notification channel of its stream.  A channel is identified by the number
    of its stream.  The goroutines are the interleaved steps of [grpc_step]:
    a stream, and the senders that [NotifyPodChange] leaves blocked on an
    unbuffered channel until its stream receives. *)

From stdpp Require Import relations.
From S2P Require Import Prelude GoStrings StringSet ControllerTypes AmeshPlugins.
Local Open Scope Z_scope.

(** ** The instance manager and its gauge *)

Record InstanceManager := mkInstanceManager {
  IM_instances : gmap string nat;     (** pod key -> channel *)
  IM_managed : Z                      (** the gauge managed_instances *)
}.

Definition NewInstanceManager : InstanceManager := mkInstanceManager ∅ 0.

(** The metrics collector. *)
Definition IncManagedInstances (gauge : Z) : Z := gauge + 1.
Definition DecManagedInstances (gauge : Z) : Z := gauge - 1.

Definition im_get (m : InstanceManager) (key : string) : option nat := IM_instances m !! key.

Definition im_add (m : InstanceManager) (key : string) (instance : nat) : InstanceManager :=
  mkInstanceManager (<[key := instance]> (IM_instances m)) (IncManagedInstances (IM_managed m)).

Definition im_delete (m : InstanceManager) (key : string) : InstanceManager :=
  mkInstanceManager (delete key (IM_instances m)) (DecManagedInstances (IM_managed m)).

Definition im_foreach `{GoRange} {A} (seed : string) (fn : nat → A) (m : InstanceManager) : list A :=
  map (λ kv, fn kv.2) (range seed (IM_instances m)).

(** ** The response of a pod *)

Definition plugin_message (plugin : AmeshPluginConfigPlugin) : AmeshPlugin :=
  mkAmeshPlugin (Plugin_Type plugin) (Plugin_Name plugin) (Plugin_Config plugin).

Definition config_message (config : PodPluginConfig) : AmeshPluginConfig :=
  mkAmeshPluginConfig (PPC_Name config)
    (foldl (λ plugins plugin, plugins ++ [plugin_message plugin]) [] (PPC_Plugins config))
    (PPC_Version config).

Definition plugins_response (configs : list PodPluginConfig) : PluginsResponse :=
  mkPluginsResponse None (foldl (λ pluginConfigs config, pluginConfigs ++ [config_message config]) [] configs).

(** [status.Errorf(codes.Aborted, err.Error())] *)
Inductive status_error : Type := Aborted (err : error).

(** [sendPodPluginConfig]: the message sent, if any, and the error returned. *)
Definition sendPodPluginConfig (configs : list PodPluginConfig + error) (sent : option error) :
    option PluginsResponse * option status_error :=
  match configs with
  | inr err => (None, Some (Aborted err))
  | inl configs =>
      match sent with
      | Some err => (None, Some (Aborted err))
      | None => (Some (plugins_response configs), None)
      end
  end.

(** ** The server *)

Inductive stream_phase : Type :=
| Opening     (** registered, the initial response not sent yet *)
| Waiting.    (** in the select loop *)

Record GRPCController := mkGRPCController {
  G_manager : InstanceManager;
  G_streams : gmap nat (string * stream_phase);   (** the open streams and their pod *)
  G_senders : list nat;                           (** the channels of the blocked senders *)
  G_next : nat                                    (** the next stream *)
}.

Definition NewGRPCController : GRPCController := mkGRPCController NewInstanceManager ∅ [] 0.

(** A new call of [StreamPlugins], up to its initial send. *)
Definition open_stream (g : GRPCController) (key : string) : GRPCController :=
  mkGRPCController (im_add (G_manager g) key (G_next g)) (<[G_next g := (key, Opening)]> (G_streams g))
    (G_senders g) (S (G_next g)).

(** The end of a stream: the deferred delete. *)
Definition close_stream (g : GRPCController) (id : nat) (key : string) : GRPCController :=
  mkGRPCController (im_delete (G_manager g) key) (delete id (G_streams g)) (G_senders g) (G_next g).

(** The stream goes on in its loop after a send, or returns the error. *)
Definition after_send (g : GRPCController) (id : nat) (key : string) (err : option status_error) : GRPCController :=
  match err with
  | Some _ => close_stream g id key
  | None => mkGRPCController (G_manager g) (<[id := (key, Waiting)]> (G_streams g)) (G_senders g) (G_next g)
  end.

Definition set_senders (g : GRPCController) (senders : list nat) : GRPCController :=
  mkGRPCController (G_manager g) (G_streams g) senders (G_next g).

(** [NotifyPodChange]: a sender for each pod that has an instance. *)
Definition NotifyPodChange_pods `{GoRange} (g : GRPCController) (event : UpdatePodPluginConfigEvent) : GRPCController :=
  foldl (λ g podName,
    match im_get (G_manager g) (UE_Namespace event +:+ "/" +:+ podName) with
    | Some instance => set_senders g (G_senders g ++ [instance])
    | None => g
    end) g (range_keys "notify" (UE_Pods event)).

Fixpoint remove_one (id : nat) (l : list nat) : list nat :=
  match l with
  | [] => []
  | x :: l' => if Nat.eqb x id then l' else x :: remove_one id l'
  end.

(** The steps; a label is the response that a stream sends.  [query] is
    [pluginConfigCache.GetPodPluginConfigs] at the time of the step. *)
Inductive grpc_step `{GoRange} : GRPCController → option (nat * PluginsResponse) → GRPCController → Prop :=
| StepOpen g key : grpc_step g None (open_stream g key)
| StepInitial g id key configs sent resp err :
    G_streams g !! id = Some (key, Opening) →
    sendPodPluginConfig configs sent = (resp, err) →
    grpc_step g ((id,.) <$> resp) (after_send g id key err)
| StepNotify g event : grpc_step g None (NotifyPodChange_pods g event)
| StepUpdate g id key configs sent resp err :
    G_streams g !! id = Some (key, Waiting) → id ∈ G_senders g →
    sendPodPluginConfig configs sent = (resp, err) →
    grpc_step g ((id,.) <$> resp) (after_send (set_senders g (remove_one id (G_senders g))) id key err)
| StepDone g id key :
    G_streams g !! id = Some (key, Waiting) →
    grpc_step g None (close_stream g id key).

(** [Ping] *)
Definition Ping : string := "Pong".

(** ** Specification *)

(** The gauge counts the open streams, and a registered channel belongs to an
    open stream of its pod. *)
Record grpc_inv (g : GRPCController) : Prop := {
  inv_gauge : IM_managed (G_manager g) = Z.of_nat (size (G_streams g));
  inv_fresh : ∀ id, is_Some (G_streams g !! id) → (id < G_next g)%nat;
  inv_instances : ∀ key id, im_get (G_manager g) key = Some id →
    ∃ phase, G_streams g !! id = Some (key, phase);
  inv_senders : ∀ id, id ∈ G_senders g → (id < G_next g)%nat
}.

(** Every open stream is registered. *)
Definition registered (g : GRPCController) : Prop :=
  ∀ id key phase, G_streams g !! id = Some (key, phase) → im_get (G_manager g) key = Some id.

Section Spec.
Context `{GoRange}.

Definition any_step (g g' : GRPCController) : Prop := ∃ label, grpc_step g label g'.

(** A step that opens no stream for the pod [key]. *)
Definition not_opening (key : string) (g g' : GRPCController) : Prop :=
  any_step g g' ∧ g' ≠ open_stream g key.

(** A step that opens a stream only for a pod without one. *)
Definition exclusive_step (g g' : GRPCController) : Prop :=
  any_step g g' ∧
  ∀ key id phase, g' = open_stream g key → G_streams g !! id ≠ Some (key, phase).

(** ** Lemmas *)

Lemma foldl_snoc_app {A B} (f : A → B) l acc : foldl (λ bs a, bs ++ [f a]) acc l = acc ++ (f <$> l).
Proof.
  revert acc. induction l as [|x l IH]; intros acc; cbn; [by rewrite app_nil_r|].
  by rewrite IH, <- app_assoc.
Qed.

Lemma plugins_response_eq configs : plugins_response configs = mkPluginsResponse None (config_message <$> configs).
Proof. unfold plugins_response. by rewrite foldl_snoc_app. Qed.

Lemma config_message_eq config :
  config_message config = mkAmeshPluginConfig (PPC_Name config) (plugin_message <$> PPC_Plugins config) (PPC_Version config).
Proof. unfold config_message. by rewrite foldl_snoc_app. Qed.

(** A notification only adds senders: the channels registered for its pods. *)
Lemma NotifyPodChange_eq g event :
  NotifyPodChange_pods g event =
    set_senders g (G_senders g ++ omap (λ podName, im_get (G_manager g) (UE_Namespace event +:+ "/" +:+ podName))
                     (range_keys "notify" (UE_Pods event))).
Proof.
  unfold NotifyPodChange_pods. generalize (range_keys "notify" (UE_Pods event)) as l. intros l.
  assert (∀ senders, foldl (λ g podName,
      match im_get (G_manager g) (UE_Namespace event +:+ "/" +:+ podName) with
      | Some instance => set_senders g (G_senders g ++ [instance])
      | None => g
      end) (set_senders g senders) l =
    set_senders g (senders ++ omap (λ podName, im_get (G_manager g) (UE_Namespace event +:+ "/" +:+ podName)) l)) as Hgen.
  { induction l as [|k l IH]; intros senders; [cbn; by rewrite app_nil_r|]. cbn [foldl omap list_omap].
    cbn [G_manager set_senders G_senders]. destruct (im_get (G_manager g) _) as [i|]; [|apply IH].
    change (set_senders (set_senders g senders) (senders ++ [i])) with (set_senders g (senders ++ [i])).
    rewrite IH. by rewrite <- app_assoc. }
  rewrite <- Hgen. f_equal. by destruct g.
Qed.

Lemma elem_of_notified g event id :
  id ∈ G_senders (NotifyPodChange_pods g event) ↔
  id ∈ G_senders g ∨ ∃ pod, pod ∈ UE_Pods event ∧ im_get (G_manager g) (UE_Namespace event +:+ "/" +:+ pod) = Some id.
Proof.
  rewrite NotifyPodChange_eq. cbn [G_senders set_senders]. rewrite elem_of_app, list_elem_of_omap.
  setoid_rewrite elem_of_range_keys. done.
Qed.

Lemma elem_of_remove_one id x l : x ≠ id → x ∈ remove_one id l ↔ x ∈ l.
Proof.
  intros Hne. induction l as [|y l IH]; [done|]. cbn. destruct (Nat.eqb_spec y id) as [->|Hy].
  - rewrite elem_of_cons. naive_solver.
  - by rewrite !elem_of_cons, IH.
Qed.

Lemma remove_one_subset id x l : x ∈ remove_one id l → x ∈ l.
Proof.
  induction l as [|y l IH]; [done|]. cbn. destruct (Nat.eqb y id); [by right|].
  rewrite !elem_of_cons. naive_solver.
Qed.

Lemma open_inv g key : grpc_inv g → grpc_inv (open_stream g key).
Proof.
  intros [Hg Hf Hi Hsend]. assert (G_streams g !! G_next g = None) as Hnew.
  { apply eq_None_not_Some. intros Hs. apply Hf in Hs. lia. }
  split; cbn.
  - rewrite map_size_insert_None by done. unfold IncManagedInstances. lia.
  - intros id [x Hx]. apply lookup_insert_Some in Hx as [[<- _]|[_ Hx]]; [lia|].
    pose proof (Hf id (ex_intro _ x Hx)). lia.
  - unfold im_get, im_add. cbn. intros k id [[<- <-]|[Hne Hk]]%lookup_insert_Some.
    + exists Opening. by rewrite lookup_insert_eq.
    + destruct (Hi k id Hk) as [ph Hph]. exists ph. rewrite lookup_insert_ne; [done|]. intros <-. congruence.
  - intros id Hid. apply Hsend in Hid. lia.
Qed.

Lemma close_inv g id key phase :
  grpc_inv g → G_streams g !! id = Some (key, phase) → grpc_inv (close_stream g id key).
Proof.
  intros [Hg Hf Hi Hsend] Hid. split; cbn.
  - rewrite map_size_delete_Some by (by eexists). unfold DecManagedInstances. rewrite Hg.
    assert (size (G_streams g) ≠ 0)%nat; [|lia]. intros Hz%map_size_empty_inv. by rewrite Hz in Hid.
  - intros i Hs. apply Hf. destruct Hs as [x Hx]. apply lookup_delete_Some in Hx as [_ Hx]. by exists x.
  - unfold im_get, im_delete. cbn. intros k i [Hne Hk]%lookup_delete_Some.
    destruct (Hi k i Hk) as [ph Hph]. exists ph. rewrite lookup_delete_ne; [done|]. intros <-. congruence.
  - done.
Qed.

Lemma set_senders_inv g l :
  (∀ id, id ∈ l → (id < G_next g)%nat) → grpc_inv g → grpc_inv (set_senders g l).
Proof. intros Hl [Hg Hf Hi _]. by split. Qed.

Lemma notified_bound g event id :
  grpc_inv g → id ∈ G_senders (NotifyPodChange_pods g event) → (id < G_next g)%nat.
Proof.
  intros [_ Hf Hi Hs] [Hid|(pod & _ & Hid)]%elem_of_notified; [auto|].
  apply Hi in Hid as [ph Hid]. apply Hf. by eexists.
Qed.

Lemma after_send_inv g id key phase err :
  grpc_inv g → G_streams g !! id = Some (key, phase) → grpc_inv (after_send g id key err).
Proof.
  intros Hinv Hid. destruct err as [err|]; [by eapply close_inv|]. destruct Hinv as [Hg Hf Hi Hsend]. split; cbn; [| | |done].
  - by rewrite map_size_insert_Some by (by eexists).
  - intros i [x Hx]. apply lookup_insert_Some in Hx as [[<- _]|[_ Hx]]; apply Hf; by eexists.
  - intros k i Hk. destruct (Hi k i Hk) as [ph Hph]. destruct (decide (id = i)) as [<-|Hne].
    + exists Waiting. rewrite lookup_insert_eq. congruence.
    + exists ph. by rewrite lookup_insert_ne.
Qed.

Lemma grpc_step_inv g label g' : grpc_step g label g' → grpc_inv g → grpc_inv g'.
Proof.
  intros Hstep Hinv. destruct Hstep.
  - by apply open_inv.
  - by eapply after_send_inv.
  - pose proof (λ id, notified_bound g event id Hinv) as Hb. rewrite NotifyPodChange_eq in Hb |- *.
    by apply set_senders_inv.
  - eapply after_send_inv; [|done]. apply set_senders_inv; [|done].
    intros i Hi%remove_one_subset. by apply (inv_senders g Hinv).
  - by eapply close_inv.
Qed.

Lemma initial_inv : grpc_inv NewGRPCController.
Proof. split; cbn; [done|by intros id [x Hx]|done|]. by intros id ?%elem_of_nil. Qed.

Lemma reach_inv g g' : rtc any_step g g' → grpc_inv g → grpc_inv g'.
Proof. induction 1 as [|g1 g2 g3 [label Hs] _ IH]; [done|]. intros Hg. eapply IH, grpc_step_inv; eauto. Qed.

(** Without two streams for one pod every open stream stays registered. *)
Lemma exclusive_registered g g' :
  exclusive_step g g' → grpc_inv g → registered g → registered g'.
Proof.
  intros [[label Hstep] Hex] Hinv Hreg.
  assert (∀ id key err phase, G_streams g !! id = Some (key, phase) → registered (after_send g id key err)) as Hsend.
  { intros id key err phase Hid i k ph. destruct err as [err|]; unfold im_get; cbn.
    - intros [Hne Hi]%lookup_delete_Some. pose proof (Hreg _ _ _ Hi) as Hr. unfold im_get in Hr.
      rewrite lookup_delete_ne; [done|]. intros <-. apply Hreg in Hid. unfold im_get in Hid. congruence.
    - intros [[<- [= <- <-]]|[Hne Hi]]%lookup_insert_Some; [by eapply Hreg|by eapply Hreg]. }
  destruct Hstep as [g key|g id key configs sent resp err Hid Hs|g event|g id key configs sent resp err Hid Hin Hs|g id key Hid].
  - intros i k ph. unfold im_get. cbn. intros [[<- [= <- <-]]|[Hne Hi]]%lookup_insert_Some; [by rewrite lookup_insert_eq|].
    rewrite lookup_insert_ne; [by eapply Hreg|]. intros <-. by apply (Hex key i ph eq_refl).
  - by eapply Hsend.
  - rewrite NotifyPodChange_eq. exact Hreg.
  - pose proof (Hsend id key err Waiting Hid) as Hr. by destruct err.
  - intros i k ph Hi. eapply (Hsend id key (Some (Aborted ErrorRequireFurtherEDS)) Waiting Hid i k ph). exact Hi.
Qed.

Lemma exclusive_reach g g' : rtc exclusive_step g g' → grpc_inv g → registered g → grpc_inv g' ∧ registered g'.
Proof.
  induction 1 as [g|g1 g2 g3 Hstep _ IH]; [done|]. intros Hi Hr. apply IH.
  - destruct Hstep as [[label Hs] _]. by eapply grpc_step_inv.
  - by eapply exclusive_registered.
Qed.

(** A stream whose pod is not registered, and for which no sender waits. *)
Definition unreachable (key : string) (id : nat) (g : GRPCController) : Prop :=
  grpc_inv g ∧ im_get (G_manager g) key = None ∧ (id ∉ G_senders g) ∧ (id < G_next g)%nat ∧
  (∀ k phase, G_streams g !! id = Some (k, phase) → k = key ∧ phase = Waiting).

Lemma unreachable_step key id g g' : not_opening key g g' → unreachable key id g → unreachable key id g'.
Proof.
  intros [[label Hstep] Hno] (Hinv & Hnone & Hid & Hlt & Hkey).
  split; [by eapply grpc_step_inv|].
  destruct Hstep as [g k|g i k configs sent resp err Hi Hs|g event|g i k configs sent resp err Hi Hin Hs|g i k Hi].
  - unfold im_get in *. cbn. rewrite lookup_insert_ne by (intros <-; by apply Hno).
    split_and!; [done|done|lia|]. intros k' ph. rewrite lookup_insert_ne by lia. by eapply Hkey.
  - destruct err; unfold im_get in *; cbn.
    + rewrite lookup_delete_None. split_and!; [by right|done|done|].
      intros k' ph [_ Hk]%lookup_delete_Some. by eapply Hkey.
    + split_and!; [done|done|done|]. intros k' ph [[<- [= <- <-]]|[_ Hk]]%lookup_insert_Some; [split; [by eapply (Hkey _ _ Hi)|done]|by eapply Hkey].
  - split_and!; [by rewrite NotifyPodChange_eq| |by rewrite NotifyPodChange_eq|by rewrite NotifyPodChange_eq].
    intros [Hin|(pod & _ & Hp)]%elem_of_notified; [done|].
    destruct (inv_instances g Hinv _ _ Hp) as [ph Hph]. destruct (Hkey _ _ Hph) as [<- _]. congruence.
  - destruct err; unfold im_get in *; cbn.
    + rewrite lookup_delete_None. split_and!; [by right|by (intros ?%remove_one_subset)|done|].
      intros k' ph [_ Hk]%lookup_delete_Some. by eapply Hkey.
    + split_and!; [done|by (intros ?%remove_one_subset)|done|].
      intros k' ph [[<- [= <- <-]]|[_ Hk]]%lookup_insert_Some; [split; [by eapply (Hkey _ _ Hi)|done]|by eapply Hkey].
  - unfold im_get in *. cbn. rewrite lookup_delete_None. split_and!; [by right|done|done|].
    intros k' ph [_ Hk]%lookup_delete_Some. by eapply Hkey.
Qed.

Lemma unreachable_forever key id g g' : rtc (not_opening key) g g' → unreachable key id g → unreachable key id g'.
Proof. induction 1 as [|g1 g2 g3 Hs _ IH]; [done|]. intros Hu. eapply IH, unreachable_step; eauto. Qed.

Lemma unreachable_notified key id g event : unreachable key id g → id ∉ G_senders (NotifyPodChange_pods g event).
Proof.
  intros (Hinv & Hnone & Hid & _ & Hkey) [Hin|(pod & _ & Hp)]%elem_of_notified; [done|].
  destruct (inv_instances g Hinv _ _ Hp) as [ph Hph]. destruct (Hkey _ _ Hph) as [<- _]. congruence.
Qed.

Lemma unreachable_silent key id g resp g' : unreachable key id g → ¬ grpc_step g (Some (id, resp)) g'.
Proof.
  intros (_ & _ & Hid & _ & Hkey) Hstep. inversion Hstep as [|? i k configs sent r err Hi Hs Heq| |? i k configs sent r err Hi Hin Hs Heq|];
    destruct r; simplify_eq/=; [|done]. by destruct (Hkey _ _ Hi).
Qed.

(** ** Properties *)

(** C25. As long as no pod opens a second stream while it has one, a
    notification reaches the pod: a sender waits for the pod's stream, the
    stream can receive it and then answers with the configurations of that
    moment, and until it does (or ends) no step removes the sender.  The gauge
    of managed instances counts the open streams. *)
Theorem notification_reaches_stream g event pod id :
  rtc exclusive_step NewGRPCController g →
  pod ∈ UE_Pods event → G_streams g !! id = Some (UE_Namespace event +:+ "/" +:+ pod, Waiting) →
  let g1 := NotifyPodChange_pods g event in
  IM_managed (G_manager g) = Z.of_nat (size (G_streams g)) ∧
  id ∈ G_senders g1 ∧
  (∀ configs, ∃ g2, grpc_step g1 (Some (id, mkPluginsResponse None (config_message <$> configs))) g2) ∧
  (∀ g2 label g3, rtc any_step g1 g2 → id ∈ G_senders g2 → grpc_step g2 label g3 →
     id ∈ G_senders g3 ∨ (∃ resp, label = Some (id, resp)) ∨ G_streams g3 !! id = None).
Proof.
  intros Hreach Hpod Hid g1.
  apply exclusive_reach in Hreach as [Hinv Hreg]; [|apply initial_inv|done]. split_and!.
  - apply Hinv.
  - apply elem_of_notified. right. exists pod. split; [done|]. by eapply Hreg.
  - intros configs. rewrite <- plugins_response_eq. eexists.
    apply (StepUpdate g1 id (UE_Namespace event +:+ "/" +:+ pod) (inl configs) None (Some (plugins_response configs)) None).
    + subst g1. rewrite NotifyPodChange_eq. exact Hid.
    + apply elem_of_notified. right. exists pod. split; [done|]. by eapply Hreg.
    + done.
  - intros g2 label g3 _ Hin Hstep.
    destruct Hstep as [g2 k|g2 i k configs sent resp err Hi Hs|g2 ev|g2 i k configs sent resp err Hi Hin' Hs|g2 i k Hi].
    + by left.
    + left. by destruct err.
    + left. apply elem_of_notified. by left.
    + destruct (decide (i = id)) as [->|Hne].
      * unfold sendPodPluginConfig in Hs. destruct configs as [cs|]; [destruct sent|]; injection Hs as <- <-.
        -- right. right. apply lookup_delete_eq.
        -- right. left. by eexists.
        -- right. right. apply lookup_delete_eq.
      * left. destruct err; cbn; by apply elem_of_remove_one.
    + by left.
Qed.

(** C28. A pod that reconnects before its old stream has ended is cut off.  In
    every state that the plugin server reaches a pod can open a stream and then
    another one; when the first one ends after that, it deletes the registration
    of the second one.  From then on, whatever happens, unless the pod opens yet
    another stream, the pod has no instance, no notification leaves a sender for
    the open stream, and the stream sends nothing any more. *)
Theorem reconnect_unregisters g0 key :
  rtc any_step NewGRPCController g0 →
  ∃ g, rtc any_step g0 g ∧ G_streams g !! S (G_next g0) = Some (key, Waiting) ∧
    ∀ g', rtc (not_opening key) g g' →
      im_get (G_manager g') key = None ∧ S (G_next g0) ∉ G_senders g' ∧
      (∀ event, S (G_next g0) ∉ G_senders (NotifyPodChange_pods g' event)) ∧
      ∀ resp g'', ¬ grpc_step g' (Some (S (G_next g0), resp)) g''.
Proof.
  intros Hreach. apply reach_inv in Hreach; [|apply initial_inv]. rename Hreach into Hinv.
  set (id := G_next g0).
  set (g1 := open_stream g0 key). set (g2 := after_send g1 id key None).
  set (g3 := open_stream g2 key). set (g4 := after_send g3 (S id) key None). set (g5 := close_stream g4 id key).
  assert (G_streams g1 !! id = Some (key, Opening)) as H1 by apply lookup_insert_eq.
  assert (G_streams g3 !! S id = Some (key, Opening)) as H3 by apply lookup_insert_eq.
  assert (G_streams g4 !! id = Some (key, Waiting)) as H4.
  { cbn. rewrite !lookup_insert_ne by (unfold id; lia). apply lookup_insert_eq. }
  assert (G_streams g5 !! S id = Some (key, Waiting)) as H5.
  { cbn. rewrite lookup_delete_ne by (unfold id; lia). apply lookup_insert_eq. }
  assert (rtc any_step g0 g5) as Hpath.
  { eapply rtc_l; [by eexists; apply (StepOpen g0 key)|].
    eapply rtc_l; [by eexists; apply (StepInitial g1 id key (inl []) None (Some (plugins_response [])) None H1)|].
    eapply rtc_l; [by eexists; apply (StepOpen g2 key)|].
    eapply rtc_l; [by eexists; apply (StepInitial g3 (S id) key (inl []) None (Some (plugins_response [])) None H3)|].
    apply rtc_once. eexists. by apply (StepDone g4 id key). }
  exists g5. split_and!; [done|done|].
  intros g' Hg'. assert (unreachable key (S id) g5) as Hu.
  { split_and!.
    - by eapply reach_inv.
    - unfold im_get. cbn. apply lookup_delete_eq.
    - intros Hin. change (S id ∈ G_senders g0) in Hin. apply (inv_senders g0 Hinv) in Hin. unfold id in Hin. lia.
    - cbn. unfold id. lia.
    - intros k ph Hk. rewrite H5 in Hk. by injection Hk as <- <-. }
  apply (unreachable_forever _ _ _ _ Hg') in Hu as Hu'. pose proof Hu' as (_ & Hn & Hs & _ & Hph).
  split_and!; [done|done| |intros resp g''; by apply (unreachable_silent key)].
  intros event. by apply (unreachable_notified key).
Qed.

(** A stream answers with the configurations of its pod in the order in
    which they are found, each with its name, version and plugins; when they
    cannot be found or sent nothing is sent and the call ends with an aborted
    error. *)
Lemma sendPodPluginConfig_spec configs sent :
  sendPodPluginConfig configs sent =
    match configs, sent with
    | inl configs, None =>
        (Some (mkPluginsResponse None
           ((λ c, mkAmeshPluginConfig (PPC_Name c)
                    ((λ p, mkAmeshPlugin (Plugin_Type p) (Plugin_Name p) (Plugin_Config p)) <$> PPC_Plugins c)
                    (PPC_Version c)) <$> configs)), None)
    | inl _, Some err => (None, Some (Aborted err))
    | inr err, _ => (None, Some (Aborted err))
    end.
Proof.
  unfold sendPodPluginConfig. destruct configs as [configs|]; [|by destruct sent]. destruct sent; [done|].
  rewrite plugins_response_eq. do 3 f_equal. apply list_fmap_ext. intros _ c _. apply config_message_eq.
Qed.
End Spec.

(** ** Witnesses *)

Section Witnesses.
#[local] Existing Instance map_order.

(** One stream of the pod default/web, in its loop. *)
Definition one_stream : GRPCController :=
  after_send (open_stream NewGRPCController "default/web") 0 "default/web" None.

Lemma one_stream_reach : rtc exclusive_step NewGRPCController one_stream.
Proof.
  eapply rtc_l; [|apply rtc_once]; split.
  - eexists. apply (StepOpen NewGRPCController "default/web").
  - intros key id phase _. by vm_compute.
  - eexists. by apply (StepInitial _ 0 "default/web" (inl []) None (Some (plugins_response [])) None).
  - intros key id phase Heq. apply (f_equal G_next) in Heq. discriminate Heq.
Qed.

Lemma notification_reaches_stream_witness :
  let event := mkUpdatePodPluginConfigEvent "default" {["web"]} in
  let g1 := NotifyPodChange_pods one_stream event in
  IM_managed (G_manager one_stream) = Z.of_nat (size (G_streams one_stream)) ∧
  0%nat ∈ G_senders g1 ∧
  (∀ configs, ∃ g2, grpc_step g1 (Some (0%nat, mkPluginsResponse None (config_message <$> configs))) g2) ∧
  (∀ g2 label g3, rtc any_step g1 g2 → 0%nat ∈ G_senders g2 → grpc_step g2 label g3 →
     0%nat ∈ G_senders g3 ∨ (∃ resp, label = Some (0%nat, resp)) ∨ G_streams g3 !! 0%nat = None).
Proof.
  intros event. apply (notification_reaches_stream one_stream event "web" 0%nat).
  - apply one_stream_reach.
  - apply (bool_decide_unpack _). by vm_compute.
  - by vm_compute.
Defined.

Lemma reconnect_unregisters_witness :
  ∃ g, rtc any_step NewGRPCController g ∧ G_streams g !! 1%nat = Some ("default/web", Waiting) ∧
    ∀ g', rtc (not_opening "default/web") g g' → ∀ resp g'', ¬ grpc_step g' (Some (1%nat, resp)) g''.
Proof.
  destruct (reconnect_unregisters NewGRPCController "default/web") as (g & Hreach & Hopen & Hcut); [apply rtc_refl|].
  exists g. split; [exact Hreach|]. split; [exact Hopen|]. intros g' Hg'. apply (Hcut g' Hg').
Defined.
End Witnesses.
