(* ===== verification/Server.v ===== *)
(** * The controller as one system (src/controller/pkg/grpc_server.go with
    src/controller/controllers/amesh/ameshpluginconfig_controller.go)

    The reconciler's goroutines of Interleaving.v and the streams of the plugin
    server on the same caches: a notification of the reconciler becomes a
    blocked sender of a stream, a stream that receives it runs the query one
    access at a time and sends the answer.  [served_step] has a step for every
    access of a worker, a pod handler or a query, and for every event of a
    stream: it opens, receives, sends, fails, ends. *)

From stdpp Require Import relations.
From S2P Require Import Prelude GoStrings StringSet ControllerTypes ControllerUtils SelectorCache Reconciler.
From S2P Require Import Interleaving AmeshPlugins GrpcServer.
Local Open Scope Z_scope.

Section Server.
Context `{GoRange} `{!K8sLib}.

(** A call of [StreamPlugins]: the query of [sendPodPluginConfig] is running, or
    the loop waits, having sent these configurations last. *)
Inductive stream_state : Type :=
| Answering (p : prog (list PodPluginConfig + error))
| Idle (last : list PodPluginConfig).

Record server := mkServer {
  V_reconciler : AmeshPluginConfigReconciler;
  V_threads : gmap nat thread;                       (** workers and pod handlers *)
  V_manager : InstanceManager;
  V_streams : gmap nat (string * stream_state);
  V_senders : list nat;                              (** the channels of the blocked senders *)
  V_next : nat;
  V_stopped : bool                                   (** [stopCh] is closed *)
}.

Definition new_server (subs : list nat) : server :=
  mkServer (foldl AddPodChangeListener NewAmeshPluginConfigController subs) ∅ NewInstanceManager ∅ [] 0 false.

Definition with_senders (v : server) (senders : list nat) : server :=
  mkServer (V_reconciler v) (V_threads v) (V_manager v) (V_streams v) senders (V_next v) (V_stopped v).

Definition with_thread (v : server) (r : AmeshPluginConfigReconciler) (threads : gmap nat thread) : server :=
  mkServer r threads (V_manager v) (V_streams v) (V_senders v) (V_next v) (V_stopped v).

Definition with_stream (v : server) (r : AmeshPluginConfigReconciler) (id : nat) (key : string) (s : stream_state) : server :=
  mkServer r (V_threads v) (V_manager v) (<[id := (key, s)]> (V_streams v)) (V_senders v) (V_next v) (V_stopped v).

(** The senders that [NotifyPodChange] starts, one for each pod of the event
    that has an instance. *)
Definition notified (m : InstanceManager) (event : UpdatePodPluginConfigEvent) : list nat :=
  omap (λ podName, im_get m (UE_Namespace event +:+ "/" +:+ podName)) (range_keys "notify" (UE_Pods event)).

(** The effects of a goroutine that reach the plugin server, the listener [self]. *)
Definition deliver (self : nat) (v : server) (effs : list controller_effect) : server :=
  foldl (λ v eff,
    match eff with
    | NotifyPodChange sub event =>
        if Nat.eqb sub self then with_senders v (V_senders v ++ notified (V_manager v) event) else v
    | UpdateStatus _ => v
    end) v effs.

(** It adds senders. *)
Lemma deliver_eq self v effs :
  deliver self v effs = with_senders v (V_senders v ++ (effs ≫= λ eff, match eff with
    | NotifyPodChange sub event => if Nat.eqb sub self then notified (V_manager v) event else []
    | UpdateStatus _ => [] end)).
Proof.
  revert v. induction effs as [|eff effs IH]; intros v; cbn.
  { rewrite app_nil_r. by destruct v. }
  unfold deliver in IH. rewrite IH. destruct eff as [sub event|]; [destruct (Nat.eqb sub self)|]; cbn; [by rewrite app_assoc|done|done].
Qed.

(** [StreamPlugins] up to the initial query. *)
Definition open_served (v : server) (key : string) : server :=
  mkServer (V_reconciler v) (V_threads v) (im_add (V_manager v) key (V_next v))
    (<[V_next v := (key, Answering (GetPodPluginConfigs_prog key))]> (V_streams v)) (V_senders v) (S (V_next v)) (V_stopped v).

(** The return of [StreamPlugins], with its deferred delete. *)
Definition close_served (v : server) (id : nat) (key : string) : server :=
  mkServer (V_reconciler v) (V_threads v) (im_delete (V_manager v) key) (delete id (V_streams v)) (V_senders v)
    (V_next v) (V_stopped v).

(** A case of the select loop: the notification. *)
Definition receive (v : server) (id : nat) (key : string) : server :=
  with_senders (with_stream v (V_reconciler v) id key (Answering (GetPodPluginConfigs_prog key))) (remove_one id (V_senders v)).

(** [Run] after the stop signal: the streams see the closed channel, and the
    listener is closed, which does not end the streams' connections. *)
Definition stop_served (v : server) : server :=
  mkServer (V_reconciler v) (V_threads v) (V_manager v) (V_streams v) (V_senders v) (V_next v) true.

(** ** The calls of the gRPC library *)

Inductive grpc_call : Type :=
| Listen (network addr : string)
| NewServer (maxConnectionIdle : Z)          (** a [time.Duration] *)
| RegisterAmeshServiceServer
| RegisterHealthCheckServiceServer
| RegisterReflection
| CloseListener
| LogFailure (message : string).

(** [NewGRPCController]: [listen] is the error of [net.Listen]. *)
Definition create_server (addr : string) (listen : option error) (subs : list nat) : list grpc_call * (server + error) :=
  match listen with
  | Some err => ([Listen "tcp" addr], inr (Errorf ("bad grpc server addr: " +:+ error_text err)))
  | None =>
      ([Listen "tcp" addr; NewServer (15 * 60 * 1000000000); RegisterAmeshServiceServer; RegisterHealthCheckServiceServer;
        RegisterReflection], inl (new_server subs))
  end.

(** The end of the goroutine of [Run] that serves, with the error of [Serve]. *)
Definition serve_ended (err : option error) : list grpc_call :=
  match err with
  | Some err =>
      if Contains (error_text err) "use of closed network connection" then [] else [LogFailure "grpc server serve loop aborted"]
  | None => []
  end.

(** [Run] after the stop signal, with the error of closing the listener; it
    does not stop the server. *)
Definition server_Run_stop (v : server) (close_err : option error) : list grpc_call * server :=
  (CloseListener :: match close_err with Some _ => [LogFailure "failed to close grpc listener"] | None => [] end, stop_served v).

Section Steps.
Context (cluster_ok : cluster → Prop) (self : nat).

(** The system's own steps: what its goroutines do with the work that they
    have; the cluster may change between any two of them. *)
Inductive internal_step (v : server) : server → Prop :=
| SrvWorker c i key p r' effs p' :
    cluster_ok c → V_threads v !! i = Some (Worker key p) → advance c (V_reconciler v) p = Some (Ret (r', effs, p')) →
    internal_step v (deliver self (with_thread v r' (<[i := Worker key p']> (V_threads v))) effs)
| SrvHandler c i p r' effs p' :
    cluster_ok c → V_threads v !! i = Some (PodHandler p) → advance c (V_reconciler v) p = Some (Ret (r', effs, p')) →
    internal_step v (deliver self (with_thread v r' (<[i := PodHandler p']> (V_threads v))) effs)
| SrvEnd i t :
    V_threads v !! i = Some t → thread_ended t = true →
    internal_step v (with_thread v (V_reconciler v) (delete i (V_threads v)))
| SrvQuery c id key p r' effs p' :
    cluster_ok c → V_streams v !! id = Some (key, Answering p) → advance c (V_reconciler v) p = Some (Ret (r', effs, p')) →
    internal_step v (with_stream v r' id key (Answering p'))
| SrvSend id key configs :
    V_streams v !! id = Some (key, Answering (Done (Ret (inl configs)))) →
    internal_step v (with_stream v (V_reconciler v) id key (Idle configs))
| SrvFail id key res :      (** the query or the send failed *)
    V_streams v !! id = Some (key, Answering (Done (Ret res))) → internal_step v (close_served v id key)
| SrvReceive id key last :
    V_streams v !! id = Some (key, Idle last) → id ∈ V_senders v → internal_step v (receive v id key)
| SrvStopped id key last :
    V_streams v !! id = Some (key, Idle last) → V_stopped v = true → internal_step v (close_served v id key).

(** What comes from outside: events of the resources and of the pods, agents
    that connect and disconnect, the stop signal.  A pod may open a second stream
    while it has one: the new one takes the place of the old one in the instance
    manager, and the end of either deletes the place. *)
Inductive external_step (v : server) : server → Prop :=
| SrvReconcile i ns name :
    V_threads v !! i = None → (∀ j p, V_threads v !! j ≠ Some (Worker (NamespacedName_String ns name) p)) →
    external_step v (with_thread v (V_reconciler v)
      (<[i := Worker (NamespacedName_String ns name) (Reconcile_prog ns name)]> (V_threads v)))
| SrvPod i ns names :
    V_threads v !! i = None →
    external_step v (with_thread v (V_reconciler v) (<[i := PodHandler (call (Notify ns names))]> (V_threads v)))
| SrvOpen key : external_step v (open_served v key)
| SrvDisconnect id key last :
    V_streams v !! id = Some (key, Idle last) → external_step v (close_served v id key)
| SrvStop : external_step v (stop_served v).

Definition served_step (v v' : server) : Prop := internal_step v v' ∨ external_step v v'.

(** No pod has two streams. *)
Definition one_each (v : server) : Prop :=
  ∀ i j key s t, V_streams v !! i = Some (key, s) → V_streams v !! j = Some (key, t) → i = j.

(** A step after which no pod has two streams. *)
Definition exclusive_served (v v' : server) : Prop := served_step v v' ∧ one_each v'.
End Steps.
End Server.
