(* ===== verification/OneStream.v ===== *)
(** * One stream and one worker

    Runs of Server.v's system with the stream of one pod and at most one worker:
    a program that runs alone is a run of the system, and the installation of a
    configuration notifies the pod. *)

From stdpp Require Import relations.
From S2P Require Import Prelude GoStrings StringSet ControllerTypes ControllerUtils SelectorCache Reconciler.
From S2P Require Import Interleaving GrpcServer Server.
Local Open Scope Z_scope.

(** ** A system with one stream and one worker *)

Section OneStream.
Context `{GoRange} `{!K8sLib}.
Context (cluster_ok : cluster → Prop) (self : nat) (podkey : string).

Definition one_manager : InstanceManager := im_add NewInstanceManager podkey 0.

Definition one_stream_state (r : AmeshPluginConfigReconciler) (ts : gmap nat thread) (st : stream_state) (senders : list nat) : server :=
  mkServer r ts one_manager {[0%nat := (podkey, st)]} senders 1 false.

Definition working (key : string) r p st senders : server := one_stream_state r {[0%nat := Worker key p]} st senders.
Definition resting r st senders : server := one_stream_state r ∅ st senders.

(** The senders that some effects start. *)
Definition started_senders (effs : list controller_effect) : list nat :=
  effs ≫= λ eff, match eff with
    | NotifyPodChange sub event => if Nat.eqb sub self then notified one_manager event else []
    | UpdateStatus _ => []
    end.

Lemma working_access c key r a k st senders r' effs x :
  cluster_ok c → perform c r a = Ret (r', effs, x) →
  served_step cluster_ok self (working key r (Access a k) st senders) (working key r' (k x) st (senders ++ started_senders effs)).
Proof.
  intros Hc Hp. left.
  assert (working key r' (k x) st (senders ++ started_senders effs) =
    deliver self (with_thread (working key r (Access a k) st senders) r'
      (<[0%nat := Worker key (k x)]> (V_threads (working key r (Access a k) st senders)))) effs) as ->.
  { rewrite deliver_eq. unfold working, one_stream_state, with_thread, with_senders. cbn. by rewrite insert_singleton_eq. }
  eapply (SrvWorker _ _ _ c 0%nat key (Access a k)); [done|apply lookup_singleton_eq|]. cbn [advance V_reconciler working one_stream_state]. by rewrite Hp.
Qed.

(** The worker runs to its end. *)
Lemma working_alone c key st p : cluster_ok c → ∀ r senders r' effs a,
  run_alone c r p = Ret (r', effs, a) →
  rtc (served_step cluster_ok self) (working key r p st senders)
    (working key r' (Done (Ret a)) st (senders ++ started_senders effs)).
Proof.
  intros Hc. induction p as [res|a k IH]; intros r senders r' effs b Hrun.
  - apply bind_ret in Hrun as (b' & -> & [= <- <- <-]). cbn. by rewrite app_nil_r.
  - cbn [run_alone] in Hrun. apply bind_ret in Hrun as ([[r1 effs1] x] & Hp & Hrun).
    apply bind_ret in Hrun as ([[r2 effs2] v2] & Hk & [= <- <- <-]).
    eapply rtc_l; [by eapply working_access|]. unfold started_senders. rewrite bind_app, app_assoc. by apply IH.
Qed.

(** A query runs to its end. *)
Lemma answering_alone c ts p : cluster_ok c → ∀ r senders r' effs a,
  run_alone c r p = Ret (r', effs, a) →
  rtc (served_step cluster_ok self) (one_stream_state r ts (Answering p) senders)
    (one_stream_state r' ts (Answering (Done (Ret a))) senders).
Proof.
  intros Hc. induction p as [res|a k IH]; intros r senders r' effs b Hrun.
  - apply bind_ret in Hrun as (b' & -> & [= <- <- <-]). done.
  - cbn [run_alone] in Hrun. apply bind_ret in Hrun as ([[r1 effs1] x] & Hp & Hrun).
    apply bind_ret in Hrun as ([[r2 effs2] v2] & Hk & [= <- <- <-]). eapply rtc_l; [|by eapply IH]. left.
    assert (one_stream_state r1 ts (Answering (k x)) senders =
      with_stream (one_stream_state r ts (Answering (Access a k)) senders) r1 0%nat podkey (Answering (k x))) as ->.
    { unfold one_stream_state, with_stream. cbn. by rewrite insert_singleton_eq. }
    eapply (SrvQuery _ _ _ c 0%nat podkey (Access a k)); [done|apply lookup_singleton_eq|]. cbn [advance V_reconciler working one_stream_state]. by rewrite Hp.
Qed.

Lemma sending r ts configs senders :
  served_step cluster_ok self (one_stream_state r ts (Answering (Done (Ret (inl configs)))) senders)
    (one_stream_state r ts (Idle configs) senders).
Proof.
  left.
  assert (one_stream_state r ts (Idle configs) senders =
    with_stream (one_stream_state r ts (Answering (Done (Ret (inl configs)))) senders) r 0%nat podkey (Idle configs)) as ->.
  { unfold one_stream_state, with_stream. cbn. by rewrite insert_singleton_eq. }
  apply SrvSend. apply lookup_singleton_eq.
Qed.

Lemma receiving r ts last :
  served_step cluster_ok self (one_stream_state r ts (Idle last) [0%nat])
    (one_stream_state r ts (Answering (GetPodPluginConfigs_prog podkey)) []).
Proof.
  left.
  assert (one_stream_state r ts (Answering (GetPodPluginConfigs_prog podkey)) [] =
    receive (one_stream_state r ts (Idle last) [0%nat]) 0%nat podkey) as ->.
  { unfold one_stream_state, receive, with_stream, with_senders. cbn. by rewrite insert_singleton_eq. }
  eapply SrvReceive; [apply lookup_singleton_eq|by left].
Qed.

Lemma ending key r a st senders :
  served_step cluster_ok self (working key r (Done (Ret a)) st senders) (resting r st senders).
Proof.
  left.
  assert (resting r st senders = with_thread (working key r (Done (Ret a)) st senders) r
    (delete 0%nat (V_threads (working key r (Done (Ret a)) st senders)))) as ->.
  { unfold resting, working, one_stream_state, with_thread. cbn. by rewrite delete_singleton_eq. }
  eapply SrvEnd; [apply lookup_singleton_eq|done].
Qed.

(** One access of a worker that will run to its end. *)
Lemma working_one c key r a k st senders r1 x r' effs b :
  cluster_ok c → perform c r a = Ret (r1, [], x) → run_alone c r (Access a k) = Ret (r', effs, b) →
  served_step cluster_ok self (working key r (Access a k) st senders) (working key r1 (k x) st senders) ∧
  run_alone c r1 (k x) = Ret (r', effs, b).
Proof.
  intros Hc Hp Hrun. split.
  - pose proof (working_access c key r a k st senders r1 [] x Hc Hp) as Hs. cbn in Hs. by rewrite app_nil_r in Hs.
  - cbn [run_alone] in Hrun. rewrite Hp, bind_Ret in Hrun. apply bind_ret in Hrun as ([[r2 effs2] v2] & Hk & [= <- <- <-]). exact Hk.
Qed.

(** Nothing is left to do. *)
Lemma resting_stuck r last v' : ¬ internal_step cluster_ok self (resting r (Idle last) []) v'.
Proof.
  intros Hstep. inversion Hstep as [c i key p r' effs p' Hc Hi Hadv|c i p r' effs p' Hc Hi Hadv|i t Hi Hend
    |c id key p r' effs p' Hc Hid Hadv|id key answer Hid|id key res Hid|id key last' Hid Hin|id key last' Hid Hstop];
    subst; cbn in *; try (by apply lookup_empty_Some in Hi); try (by apply elem_of_nil in Hin); try done;
    by apply lookup_singleton_Some in Hid as [_ [=]].
Qed.
End OneStream.

(** ** The installation of a configuration *)

Section Installation.
Context `{GoRange} `{!K8sLib} `{!K8sLaws}.

(** A cluster with a pod and a configuration that selects it. *)
Record installable (c : cluster) (instance : AmeshPluginConfigResource) (s : Selector) (pod : Pod) : Prop := {
  IN_get : get_config c (Res_Namespace instance) (Res_Name instance) = inl instance;
  IN_new : Res_DeletionTimestamp instance = None;
  IN_selector : ∃ ms, Spec_Selector (Res_Spec instance) = Some ms ∧ compile (Some ms) = inl (Some s);
  IN_matches : Matches s (Pod_Labels pod) = true;
  IN_namespace : Res_Namespace instance = Pod_Namespace pod ∧ Pod_Namespace pod ≠ "";
  IN_pods : ∀ sel, ∃ l, list_pods_of c (Pod_Namespace pod) (Some sel) = Ret (inl l) ∧
    (Matches sel (Pod_Labels pod) = true → pod ∈ l)
}.

(** The pod's key is its own, and the cluster has the pod. *)
Record has_pod (c : cluster) (pod : Pod) : Prop := {
  HP_key : ¬ Contains (Pod_Namespace pod) "/" ∧ ¬ Contains (Pod_Name pod) "/";
  HP_pod : get_pod c (Pod_Namespace pod) (Pod_Name pod) = inl pod
}.

Context (self : nat) (c : cluster) (instance : AmeshPluginConfigResource) (s : Selector) (pod : Pod).
Context (Hfirst : installable c instance s pod).

Abbreviation podkey := (Pod_Namespace pod +:+ "/" +:+ Pod_Name pod).
Abbreviation r0 := (mkReconciler ∅ ∅ [self]).
Abbreviation r1 := (installed r0 instance s).

Lemma first_accepted : accepted_instance r0 instance s.
Proof. destruct (IN_selector _ _ _ _ Hfirst) as (ms & Hms & Hcomp). split_and!; [apply (IN_new _ _ _ _ Hfirst)|by rewrite Hms|done]. Qed.

(** What the reconciliation notifies. *)
Lemma first_reconcile : ∃ names effs, Pod_Name pod ∈ names ∧
  run_alone c r0 (Reconcile_prog (Res_Namespace instance) (Res_Name instance)) = Ret (r1, effs, None) ∧
  started_senders self podkey effs = notified (one_manager podkey) (mkUpdatePodPluginConfigEvent (Pod_Namespace pod) names).
Proof.
  pose proof Hfirst as [Hget Hnew _ Hm (Hns & _) Hpods].
  destruct (Hpods Everything) as (olds & Ho & _), (Hpods s) as (news & Hn & Hin). specialize (Hin Hm). rewrite <- Hns in Ho, Hn.
  assert (Pod_Name pod ∈ pod_names olds ∪ pod_names news) as Hpod.
  { apply elem_of_union_r, elem_of_pod_names. by exists pod. }
  eexists (pod_names olds ∪ pod_names news), _. split; [done|]. rewrite alone_Reconcile.
  split; [apply (Reconcile_accepted c r0 instance s olds news Hget first_accepted); [exact Ho|done]|].
  change (plugins_changed r0 instance) with true. cbv iota. unfold SendPluginsConfigs.
  destruct (Nat.leb_spec (size (pod_names olds ∪ pod_names news)) 0) as [Hz|_].
  { assert (size (pod_names olds ∪ pod_names news) = 0)%nat as Hz' by lia. apply size_empty_inv in Hz'. set_solver. }
  unfold started_senders. rewrite bind_app. rewrite Hns. cbn [R_subs installed map mbind list_bind app]. rewrite Nat.eqb_refl, app_nil_r.
  replace (recordStatus _ _ _ _ _ ≫= _) with (@nil nat); [by rewrite app_nil_r|]. unfold recordStatus. by destruct (VerifyGeneration _ _).
Qed.

Lemma first_notified names :
  Pod_Name pod ∈ names →
  notified (one_manager podkey) (mkUpdatePodPluginConfigEvent (Pod_Namespace pod) names) = [0%nat].
Proof.
  intros Hin. unfold notified. cbn [UE_Namespace UE_Pods].
  assert (∀ x, im_get (one_manager podkey) (Pod_Namespace pod +:+ "/" +:+ x) = if decide (x = Pod_Name pod) then Some 0%nat else None) as Hget.
  { intros x. unfold im_get, one_manager. cbn. destruct (decide (x = Pod_Name pod)) as [->|Hne]; [apply lookup_insert_eq|].
    rewrite lookup_insert_ne; [done|]. intros Heq. apply Hne. by apply (inj _), (inj _) in Heq. }
  assert (∀ l, (Pod_Name pod ∉ l → omap (λ x, im_get (one_manager podkey) (Pod_Namespace pod +:+ "/" +:+ x)) l = []) ∧
    (NoDup l → Pod_Name pod ∈ l → omap (λ x, im_get (one_manager podkey) (Pod_Namespace pod +:+ "/" +:+ x)) l = [0%nat])) as Hl.
  { induction l as [|y l [IH1 IH2]]; [split; [done|by intros _ ?%elem_of_nil]|]. cbn [omap list_omap]. rewrite Hget. split.
    - intros [Hy Hl]%not_elem_of_cons. rewrite decide_False by done. by apply IH1.
    - intros [Hy Hnd]%NoDup_cons [Heq|Hl]%elem_of_cons.
      + rewrite decide_True by done. f_equal. apply IH1. by rewrite Heq.
      + rewrite decide_False by (intros ->; done). by apply IH2. }
  apply Hl; [apply NoDup_range_keys|by apply elem_of_range_keys].
Qed.

End Installation.
