(* ===== verification/Notification.v ===== *)
(** * Notifications that are not lost

    The system of Server.v for one configuration and one pod: whatever the
    streams of the pod should agree on with the caches, they do, or they are
    about to be notified.  What that is, and why the goroutines keep to it, is
    the interface [protocol] with its laws [protocol_laws], stated access by
    access; Convergence.v and Deletion.v implement it.  The system's own steps
    terminate, so once nothing comes from outside every stream of the pod
    agrees with the caches. *)

From stdpp Require Import relations.
From S2P Require Import Prelude GoStrings StringSet ControllerTypes ControllerUtils SelectorCache Reconciler.
From S2P Require Import Interleaving AmeshPlugins GrpcServer Steady Server.
Local Open Scope Z_scope.

(** ** What every schedule leads to *)

Section Eventually.
Context {S : Type} (R : relation S).

(** Whatever step the scheduler chooses next, and there is one, the system
    comes to [Q]. *)
Inductive eventually (Q : S → Prop) s : Prop :=
| Now : Q s → eventually Q s
| Later : (∃ s', R s s') → (∀ s', R s s' → eventually Q s') → eventually Q s.

Lemma eventually_mono (Q Q' : S → Prop) s : (∀ s', Q s' → Q' s') → eventually Q s → eventually Q' s.
Proof. intros HQ. induction 1 as [s Hs|s Hstep _ IH]; [apply Now; auto|by apply Later]. Qed.

(** An invariant of the steps holds where they lead. *)
Lemma eventually_inv (I Q : S → Prop) s :
  (∀ s s', R s s' → I s → I s') → eventually Q s → I s → eventually (λ s, Q s ∧ I s) s.
Proof. intros Hstep Hev. induction Hev as [s HQ|s Hex _ IH]; intros Hs; [by apply Now|]. apply Later; eauto. Qed.

(** Steps that end, and do not end elsewhere. *)
Lemma eventually_wf (I Q : S → Prop) s :
  (∀ s s', R s s' → I s → I s') → (∀ s, I s → Q s ∨ ∃ s', R s s') → I s → Acc (flip R) s → eventually Q s.
Proof.
  intros Hstep Hprog Hs Hwf. induction Hwf as [s _ IH]. destruct (Hprog s Hs) as [HQ|Hex]; [by apply Now|].
  apply Later; [done|]. intros s' Hs'. apply IH; [done|]. by eapply Hstep.
Qed.
End Eventually.

(** ** The interface *)

Section Notification.
Context `{GoRange} `{!K8sLib} `{!K8sLaws}.
Context (genuine : AmeshPluginConfigResource → Prop) (cok : cluster → Prop) (self : nat) (pod : Pod) (config : string).
Implicit Types (r : AmeshPluginConfigReconciler) (c : cluster) (v : server).

Abbreviation pod_key := (pod_key pod).

(** The event of a notification of the pod, if it is among the effects. *)
Definition notifies (effs : list controller_effect) : Prop :=
  ∃ names, Pod_Name pod ∈ names ∧ NotifyPodChange self (mkUpdatePodPluginConfigEvent (Pod_Namespace pod) names) ∈ effs.

Lemma SendPluginsConfigs_notifies r names :
  self ∈ R_subs r → Pod_Name pod ∈ names → notifies (SendPluginsConfigs r (Pod_Namespace pod) names).
Proof.
  intros Hself Hin. exists names. split; [done|]. unfold SendPluginsConfigs. destruct (Nat.leb_spec (size names) 0) as [Hz|_].
  - assert (size names = 0)%nat as Hz' by lia. apply size_empty_inv in Hz'. set_solver.
  - apply list_elem_of_fmap. by exists self.
Qed.

Record protocol := {
  P_ok : AmeshPluginConfigReconciler → Prop;
  (** the last answer of a stream agrees with the caches *)
  P_agrees : AmeshPluginConfigReconciler → list PodPluginConfig → Prop;
  (** the worker of the configuration is bound to notify the pod *)
  P_bound : AmeshPluginConfigReconciler → prog (option error) → Prop;
  (** what the accesses of the others leave as it is *)
  P_same : AmeshPluginConfigReconciler → AmeshPluginConfigReconciler → Prop;
  P_worker : AmeshPluginConfigReconciler → prog (option error) → Prop;
  P_other : ∀ A, prog A → Prop;
  (** the query of a stream of the pod will agree with the caches *)
  P_query : AmeshPluginConfigReconciler → prog (list PodPluginConfig + error) → Prop
}.

Context (P : protocol).

Record protocol_laws : Prop := {
  PL_cluster : ∀ c, cok c → cluster_ok genuine c;
  PL_new : ∀ r, R_selectorCache r = ∅ → R_pluginsCache r = ∅ → P_ok P r;
  PL_refl : ∀ r, P_same P r r;
  PL_same : ∀ r r', P_same P r r' →
    (∀ answer, P_agrees P r answer → P_agrees P r' answer) ∧
    (∀ p, P_worker P r p → P_worker P r' p) ∧ (∀ p, P_bound P r p → P_bound P r' p) ∧ (∀ p, P_query P r p → P_query P r' p);
  PL_other : ∀ A (p : prog A) c r r' effs p', cok c → P_ok P r → caches_ok genuine r → P_other P A p →
    advance c r p = Some (Ret (r', effs, p')) → P_ok P r' ∧ P_same P r r' ∧ P_other P A p';
  PL_worker : ∀ p c r r' effs p', cok c → P_ok P r → caches_ok genuine r → self ∈ R_subs r → P_worker P r p →
    advance c r p = Some (Ret (r', effs, p')) →
    P_ok P r' ∧ P_worker P r' p' ∧ (∀ answer, P_agrees P r answer → P_agrees P r' answer ∨ P_bound P r' p') ∧
    (∀ q, P_query P r q → P_query P r' q ∨ P_bound P r' p') ∧
    (P_bound P r p → notifies effs ∨ P_bound P r' p');
  PL_ended : ∀ r p, thread_ended (Worker config p) = true → ¬ P_bound P r p;
  PL_query : ∀ p c r r' effs p', cok c → P_ok P r → caches_ok genuine r → P_other P _ p → P_query P r p →
    advance c r p = Some (Ret (r', effs, p')) → P_query P r' p';
  PL_query_done : ∀ r answer, P_query P r (Done (Ret (inl answer))) → P_agrees P r answer;
  PL_reconcile : ∀ r ns name, P_ok P r → caches_ok genuine r → ns +:+ "/" +:+ name = config → P_worker P r (Reconcile_prog ns name);
  PL_reconcile_other : ∀ ns name, ns +:+ "/" +:+ name ≠ config → P_other P _ (Reconcile_prog ns name);
  PL_notify : ∀ ns names, P_other P _ (call (Notify ns names));
  PL_queries : ∀ key, P_other P _ (GetPodPluginConfigs_prog key);
  PL_pod_query : ∀ r, P_ok P r → P_query P r (GetPodPluginConfigs_prog pod_key)
}.

Context (L : protocol_laws).

(** A notification is on its way to the stream [id]. *)
Definition pending v (id : nat) : Prop :=
  id ∈ V_senders v ∨ ∃ i p, V_threads v !! i = Some (Worker config p) ∧ P_bound P (V_reconciler v) p.

(** An answer of the stream [id] is current, or it will be replaced. *)
Definition current v (id : nat) (answer : list PodPluginConfig) : Prop :=
  P_agrees P (V_reconciler v) answer ∨ pending v id.

(** A query of it will answer with what is current, or the answer will be
    replaced. *)
Definition querying v (id : nat) (p : prog (list PodPluginConfig + error)) : Prop :=
  P_query P (V_reconciler v) p ∨ pending v id.

(** The stream [id] is the one that the pod's notifications go to. *)
Definition notified_stream v (id : nat) : Prop := im_get (V_manager v) pod_key = Some id.

Definition stream_inv v (id : nat) (key : string) (st : stream_state) : Prop :=
  match st with
  | Idle last => key = pod_key → notified_stream v id → current v id last
  | Answering p => P_other P _ p ∧ thread_ok genuine (Stream p) ∧ (key = pod_key → notified_stream v id → querying v id p)
  end.

Definition thread_inv r (t : thread) : Prop :=
  thread_ok genuine t ∧
  match t with
  | Worker key p => if decide (key = config) then P_worker P r p else P_other P _ p
  | Stream _ => False        (** the queries are those of the streams *)
  | PodHandler p => P_other P _ p
  end.

Record server_inv v : Prop := {
  SI_ok : P_ok P (V_reconciler v);
  SI_caches : caches_ok genuine (V_reconciler v);
  SI_self : self ∈ R_subs (V_reconciler v);
  SI_threads : ∀ i t, V_threads v !! i = Some t → thread_inv (V_reconciler v) t;
  SI_unique : ∀ i j p q, V_threads v !! i = Some (Worker config p) → V_threads v !! j = Some (Worker config q) → i = j;
  SI_fresh : ∀ id key st, V_streams v !! id = Some (key, st) → (id < V_next v)%nat;
  SI_streams : ∀ id key st, V_streams v !! id = Some (key, st) → stream_inv v id key st
}.

(** What is current stays current, and what will be current: then so does what
    is said of a stream. *)
Definition keeps v v' (id : nat) : Prop :=
  (∀ answer, current v id answer → current v' id answer) ∧ (∀ p, querying v id p → querying v' id p).

Lemma stream_inv_keeps v v' id key st :
  (notified_stream v' id → notified_stream v id ∧ keeps v v' id) → stream_inv v id key st → stream_inv v' id key st.
Proof. unfold stream_inv, keeps. destruct st; naive_solver. Qed.

Lemma keeps_harmless v v' id :
  P_same P (V_reconciler v) (V_reconciler v') →
  (id ∈ V_senders v → id ∈ V_senders v') →
  (∀ i p, V_threads v !! i = Some (Worker config p) → P_bound P (V_reconciler v) p → V_threads v' !! i = Some (Worker config p)) →
  keeps v v' id.
Proof.
  intros (Hagree & _ & Hbound & Hquery)%(PL_same L) Hs Ht.
  assert (pending v id → pending v' id) as Hpend.
  { intros [Hin|(i & p & Hi & Hp)]; [left; auto|right]. exists i, p. auto. }
  split; intros x [Hx|Hx]; [left|right|left|right]; auto.
Qed.

Lemma thread_inv_same r r' t : P_same P r r' → thread_inv r t → thread_inv r' t.
Proof.
  intros (_ & Hw & _ & _)%(PL_same L) [Hok Ht]. split; [done|]. destruct t as [key p|p|p]; [|done..]. destruct (decide _); auto.
Qed.

(** ** Deliveries *)

Lemma deliver_notifies v effs id :
  notifies effs → im_get (V_manager v) pod_key = Some id → id ∈ V_senders (deliver self v effs).
Proof.
  intros (names & Hin & Heff) Hid. rewrite deliver_eq. cbn [with_senders V_senders]. apply elem_of_app. right.
  apply list_elem_of_bind. eexists. split; [|exact Heff]. cbn. rewrite Nat.eqb_refl.
  unfold notified. apply list_elem_of_omap. exists (Pod_Name pod). split; [by apply elem_of_range_keys|exact Hid].
Qed.

(** ** A step of a thread *)

Definition thread_moved v (i : nat) r' (t' : thread) (effs : list controller_effect) : server :=
  deliver self (with_thread v r' (<[i := t']> (V_threads v))) effs.

Lemma moved_inv v i t r' t' effs :
  server_inv v → V_threads v !! i = Some t →
  P_ok P r' → caches_ok genuine r' → R_subs r' = R_subs (V_reconciler v) → thread_inv r' t' →
  (∀ p', t' = Worker config p' → ∃ p, t = Worker config p) →
  (P_same P (V_reconciler v) r' ∨ ∃ p, t = Worker config p) →
  (∀ id, im_get (V_manager v) pod_key = Some id → keeps v (thread_moved v i r' t' effs) id) →
  server_inv (thread_moved v i r' t' effs).
Proof.
  intros [Hok Hcaches Hself Hthreads Huniq Hfresh Hstreams] Hi Hok' Hcaches' Hsubs' Ht' Hkind Hsame Hkeeps.
  unfold thread_moved in *. rewrite deliver_eq in *. set (senders := _ ++ _) in *.
  split; cbn [with_senders with_thread V_reconciler V_threads V_streams V_manager V_next]; try done.
  - by rewrite Hsubs'.
  - intros j tj [[<- <-]|[Hne Hj]]%lookup_insert_Some; [done|]. specialize (Hthreads j tj Hj).
    destruct Hsame as [Hsame|[p ->]]; [by eapply thread_inv_same|].
    destruct tj as [key q|q|q]; [|done..]. unfold thread_inv in *. destruct (decide (key = config)) as [->|]; [|done].
    destruct Hne. by eapply Huniq.
  - assert (∀ j q, <[i:=t']> (V_threads v) !! j = Some (Worker config q) → ∃ q', V_threads v !! j = Some (Worker config q')) as Hback.
    { intros j q [[<- ->]|[_ Hj]]%lookup_insert_Some; [|by exists q]. destruct (Hkind q eq_refl) as [p ->]. by exists p. }
    intros j k p q [p' Hj]%Hback [q' Hk]%Hback. by eapply Huniq.
  - intros id key st Hid. eapply stream_inv_keeps; [|by apply Hstreams]. intros Hn. split; [exact Hn|]. by apply Hkeeps.
Qed.

(** An access that leaves the configuration's part of the caches. *)
Lemma harmless_inv v i t r' t' effs :
  server_inv v → V_threads v !! i = Some t → (∀ p, t ≠ Worker config p) → (∀ p, t' ≠ Worker config p) →
  P_ok P r' → caches_ok genuine r' → R_subs r' = R_subs (V_reconciler v) → P_same P (V_reconciler v) r' → thread_inv r' t' →
  server_inv (thread_moved v i r' t' effs).
Proof.
  intros Hinv Hi Ht Ht' Hok' Hcaches' Hsubs' Hsame Hti. eapply moved_inv; eauto; [naive_solver|].
  intros id _. apply keeps_harmless; unfold thread_moved; rewrite deliver_eq; cbn [with_senders with_thread V_reconciler V_senders V_threads].
  - done.
  - intros Hin. apply elem_of_app. by left.
  - intros j p Hj _. rewrite lookup_insert_ne; [done|]. intros <-. destruct (Ht p). congruence.
Qed.

(** An access of the worker of the configuration. *)
Lemma worker_inv c v i p r' effs p' :
  cok c → server_inv v → V_threads v !! i = Some (Worker config p) →
  advance c (V_reconciler v) p = Some (Ret (r', effs, p')) →
  server_inv (thread_moved v i r' (Worker config p') effs).
Proof.
  intros Hc Hinv Hi Hadv. pose proof Hinv as [Hok Hcaches Hself Hthreads Huniq _ _].
  destruct (Hthreads i _ Hi) as [Hg Hp]. rewrite decide_True in Hp by done.
  destruct (advance_keeps genuine _ c _ p r' effs p' (PL_cluster L c Hc) Hcaches Hg Hadv) as [Hcaches' Hg'].
  destruct (PL_worker L p c _ r' effs p' Hc Hok Hcaches Hself Hp Hadv) as (Hok' & Hp' & Hchange & Hquery & Hbound).
  pose proof (advance_subs c _ p r' effs p' Hadv) as Hsubs'.
  assert (thread_inv r' (Worker config p')) as Hti by (split; [done|by rewrite decide_True]).
  set (v' := thread_moved v i r' (Worker config p') effs).
  assert (V_reconciler v' = r') as Hr' by (subst v'; unfold thread_moved; by rewrite deliver_eq).
  assert (∀ id, P_bound P r' p' → pending v' id) as Hnext.
  { intros id Hn. right. exists i, p'. rewrite Hr'. subst v'. unfold thread_moved. rewrite deliver_eq. split; [apply lookup_insert_eq|exact Hn]. }
  assert (∀ id, im_get (V_manager v) pod_key = Some id → pending v id → pending v' id) as Hpend.
  { intros id Hid [Hin|(j & q & Hj & Hq)].
    - left. subst v'. unfold thread_moved. rewrite deliver_eq. apply elem_of_app. by left.
    - assert (j = i) as -> by (by eapply Huniq). assert (q = p) as -> by congruence.
      destruct (Hbound Hq) as [Hev|Hn]; [left|by apply Hnext]. by apply deliver_notifies. }
  eapply moved_inv; eauto. intros id Hid. fold v'. split; intros x [Hx|Hx]; try (right; by apply Hpend).
  - unfold current. rewrite Hr'. destruct (Hchange x Hx); [by left|right; by apply Hnext].
  - unfold querying. rewrite Hr'. destruct (Hquery x Hx); [by left|right; by apply Hnext].
Qed.

(** ** A step of a stream *)

Lemma streams_inv v v' :
  server_inv v → V_threads v' = V_threads v →
  P_ok P (V_reconciler v') → caches_ok genuine (V_reconciler v') → R_subs (V_reconciler v') = R_subs (V_reconciler v) →
  P_same P (V_reconciler v) (V_reconciler v') →
  (∀ id key st, V_streams v' !! id = Some (key, st) →
     (id < V_next v')%nat ∧ stream_inv v' id key st) →
  server_inv v'.
Proof.
  intros [Hok Hcaches Hself Hthreads Huniq _ _] Ht Hok' Hcaches' Hsubs' Hsame Hst.
  split; rewrite ?Ht, ?Hsubs'; try done; [|naive_solver..]. intros i t Hi. by eapply thread_inv_same, Hthreads.
Qed.

(** The stream [id] goes on; the others may have received more. *)
Lemma stream_moved_inv v v' id key st st' :
  server_inv v → V_streams v !! id = Some (key, st) →
  V_threads v' = V_threads v → V_streams v' = <[id := (key, st')]> (V_streams v) → V_manager v' = V_manager v →
  V_next v' = V_next v → (∀ i, i ≠ id → i ∈ V_senders v → i ∈ V_senders v') →
  P_ok P (V_reconciler v') → caches_ok genuine (V_reconciler v') → R_subs (V_reconciler v') = R_subs (V_reconciler v) →
  P_same P (V_reconciler v) (V_reconciler v') → stream_inv v' id key st' → server_inv v'.
Proof.
  intros Hinv Hid Ht Hs Hm Hn Hsend Hok' Hcaches' Hsubs' Hsame Hst'. eapply streams_inv; [done..|].
  intros i k sti. rewrite Hs, Hn. intros [[<- [= <- <-]]|[Hne Hi]]%lookup_insert_Some.
  - split_and!; [by eapply SI_fresh|done].
  - split_and!; [by eapply SI_fresh|].
    apply (stream_inv_keeps v v'); [|by eapply SI_streams]. unfold notified_stream. rewrite Hm. intros Hn'. split; [done|].
    apply keeps_harmless; [done|auto|by rewrite Ht].
Qed.

(** A stream ends. *)
Lemma closed_inv v id key st : server_inv v → V_streams v !! id = Some (key, st) → server_inv (close_served v id key).
Proof.
  intros Hinv Hid. pose proof Hinv as [Hok Hcaches _ _ _ Hfresh Hstreams].
  eapply (streams_inv v); [done..|apply (PL_refl L)|]. cbn. intros i k sti [Hne Hi]%lookup_delete_Some.
  split; [by eapply Hfresh|]. eapply stream_inv_keeps; [|by eapply Hstreams].
  unfold notified_stream, im_get. cbn. intros [_ Hn]%lookup_delete_Some. split; [done|].
  apply keeps_harmless; [apply (PL_refl L)|done..].
Qed.

(** A thread ends. *)
Lemma ended_inv v i t :
  server_inv v → V_threads v !! i = Some t → thread_ended t = true →
  server_inv (with_thread v (V_reconciler v) (delete i (V_threads v))).
Proof.
  intros [Hok Hcaches Hself Hthreads Huniq Hfresh Hstreams] Hi Hend.
  split; cbn [with_thread V_reconciler V_threads V_streams V_manager V_next]; try done.
  - intros j tj [_ Hj]%lookup_delete_Some. by eapply Hthreads.
  - intros j k p q [_ Hj]%lookup_delete_Some [_ Hk]%lookup_delete_Some. by eapply Huniq.
  - intros id key st Hid. eapply stream_inv_keeps; [|by eapply Hstreams]. intros Hn. split; [done|].
    apply keeps_harmless; [apply (PL_refl L)|done|]. intros j p Hj Hp. cbn [with_thread V_threads]. rewrite lookup_delete_ne; [done|]. intros <-.
    assert (t = Worker config p) as -> by congruence. by apply (PL_ended L (V_reconciler v) p).
Qed.

(** An access of the query of a stream. *)
Lemma query_inv c v id key p r' effs p' :
  cok c → server_inv v → V_streams v !! id = Some (key, Answering p) →
  advance c (V_reconciler v) p = Some (Ret (r', effs, p')) → server_inv (with_stream v r' id key (Answering p')).
Proof.
  intros Hc Hinv Hid Hadv. pose proof Hinv as [Hok Hcaches Hself _ _ _ Hstreams].
  destruct (Hstreams _ _ _ Hid) as (Hp & Hg & Hkey).
  destruct (advance_keeps genuine _ c _ p r' effs p' (PL_cluster L c Hc) Hcaches Hg Hadv) as [Hcaches' Hg'].
  destruct (PL_other L _ p c _ r' effs p' Hc Hok Hcaches Hp Hadv) as (Hok' & Hsame & Hp').
  eapply stream_moved_inv; [done|exact Hid|done..|by eapply advance_subs|done|]. split_and!; [done..|].
  intros Hk Hn. destruct (Hkey Hk Hn) as [Hq|[Hin|(i & q & Hi & Hbound)]].
  - left. exact (PL_query L p c _ r' effs p' Hc Hok Hcaches Hp Hq Hadv).
  - right. by left.
  - right. right. exists i, q. split; [done|]. by apply (PL_same L _ _ Hsame).
Qed.

(** A new query. *)
Lemma answering_inv v id key :
  P_ok P (V_reconciler v) → stream_inv v id key (Answering (GetPodPluginConfigs_prog key)).
Proof.
  intros Hok. split_and!; [apply (PL_queries L)|by apply GetPodPluginConfigs_guarantees|].
  intros -> _. left. by apply (PL_pod_query L).
Qed.

Lemma receive_inv v id key last :
  server_inv v → V_streams v !! id = Some (key, Idle last) → server_inv (receive v id key).
Proof.
  intros Hinv Hid. pose proof Hinv as [Hok Hcaches Hself _ _ _ Hstreams].
  eapply stream_moved_inv; [done|exact Hid|done..| |done|done|done|apply (PL_refl L)|by apply answering_inv].
  intros i Hi Hin. cbn. by apply elem_of_remove_one.
Qed.

Lemma sent_inv v id key answer :
  server_inv v → V_streams v !! id = Some (key, Answering (Done (Ret (inl answer)))) →
  server_inv (with_stream v (V_reconciler v) id key (Idle answer)).
Proof.
  intros Hinv Hid. pose proof Hinv as [Hok Hcaches Hself _ _ _ Hstreams].
  eapply stream_moved_inv; [done|exact Hid|done..|apply (PL_refl L)|]. intros Hk Hn.
  destruct (Hstreams _ _ _ Hid) as (_ & _ & Hkey).
  destruct (Hkey Hk Hn) as [Hq|Hp]; [left; by apply (PL_query_done L)|by right].
Qed.

(** ** Every step *)

Lemma internal_inv v v' : internal_step cok self v v' → server_inv v → server_inv v'.
Proof.
  intros Hstep Hinv. pose proof Hinv as [Hok Hcaches Hself Hthreads _ _ _].
  destruct Hstep as [c i key p r' effs p' Hc Hi Hadv|c i p r' effs p' Hc Hi Hadv|i t Hi Hend|c id key p r' effs p' Hc Hid Hadv
    |id key answer Hid|id key res Hid|id key last Hid Hin|id key last Hid Hstop].
  - destruct (decide (key = config)) as [->|Hne]; [by eapply worker_inv|].
    destruct (Hthreads i _ Hi) as [Hg Hp]. rewrite decide_False in Hp by done.
    destruct (advance_keeps genuine _ c _ p r' effs p' (PL_cluster L c Hc) Hcaches Hg Hadv) as [? ?].
    destruct (PL_other L _ p c _ r' effs p' Hc Hok Hcaches Hp Hadv) as (? & ? & ?).
    eapply harmless_inv; [done|exact Hi|naive_solver..|done|done|by eapply advance_subs|done|]. split; [done|]. by rewrite decide_False.
  - destruct (Hthreads i _ Hi) as [Hg Hp].
    destruct (advance_keeps genuine _ c _ p r' effs p' (PL_cluster L c Hc) Hcaches Hg Hadv) as [? ?].
    destruct (PL_other L _ p c _ r' effs p' Hc Hok Hcaches Hp Hadv) as (? & ? & ?).
    by eapply harmless_inv; [done|exact Hi|done..|by eapply advance_subs|done|].
  - by eapply ended_inv.
  - by eapply query_inv.
  - by apply sent_inv.
  - by eapply closed_inv.
  - by eapply receive_inv.
  - by eapply closed_inv.
Qed.

(** A new thread. *)
Lemma spawned_inv v i t :
  server_inv v → V_threads v !! i = None → thread_inv (V_reconciler v) t →
  (∀ p, t = Worker config p → ∀ j q, V_threads v !! j ≠ Some (Worker config q)) →
  server_inv (with_thread v (V_reconciler v) (<[i := t]> (V_threads v))).
Proof.
  intros [Hok Hcaches Hself Hthreads Huniq Hfresh Hstreams] Hi Ht Hone.
  split; cbn [with_thread V_reconciler V_threads V_streams V_manager V_next]; try done.
  - intros j tj [[<- <-]|[_ Hj]]%lookup_insert_Some; [done|by eapply Hthreads].
  - intros j k p q [[<- ->]|[Hj Hj']]%lookup_insert_Some [[<- Hq]|[Hk Hk']]%lookup_insert_Some; [done|..].
    + by destruct (Hone p eq_refl k q).
    + by destruct (Hone q Hq j p).
    + by eapply Huniq.
  - intros id key st Hid. eapply stream_inv_keeps; [|by eapply Hstreams]. intros Hn. split; [done|].
    apply keeps_harmless; [apply (PL_refl L)|done|]. intros j p Hj _. cbn [with_thread V_threads]. rewrite lookup_insert_ne; [done|]. intros <-. congruence.
Qed.

Lemma external_inv v v' : external_step v v' → server_inv v → server_inv v'.
Proof.
  intros Hstep Hinv. pose proof Hinv as [Hok Hcaches Hself Hthreads _ Hfresh Hstreams].
  destruct Hstep as [i ns name Hi Hone|i ns names Hi|key|id key last Hid|].
  - apply spawned_inv; [done..| |intros p [= Heq _]; by rewrite <- Heq].
    split; [apply Reconcile_guarantees|]. rewrite NamespacedName_String_eq in *. destruct (decide _) as [Hk|Hk].
    + by apply (PL_reconcile L).
    + by apply (PL_reconcile_other L).
  - apply spawned_inv; [done..| |done]. split; [by apply guarantees_call|]. apply (PL_notify L).
  - eapply (streams_inv v); [done..|apply (PL_refl L)|]. cbn. intros i k st [[<- [= <- <-]]|[Hne Hi]]%lookup_insert_Some.
    + split; [lia|by apply answering_inv].
    + pose proof (Hfresh _ _ _ Hi). split; [lia|]. eapply stream_inv_keeps; [|by eapply Hstreams].
      unfold notified_stream, im_get. cbn. intros [[_ Heq]|[_ Hn]]%lookup_insert_Some; [lia|]. split; [done|].
      apply keeps_harmless; [apply (PL_refl L)|done..].
  - by eapply closed_inv.
  - eapply (streams_inv v); [done..|apply (PL_refl L)|]. cbn. intros i k st Hi. split; [by eapply Hfresh|].
    eapply stream_inv_keeps; [|by eapply Hstreams]. intros Hn. split; [done|]. apply keeps_harmless; [apply (PL_refl L)|done..].
Qed.

Lemma new_server_subs subs r : R_subs (foldl AddPodChangeListener r subs) = R_subs r ++ subs ∧
  R_selectorCache (foldl AddPodChangeListener r subs) = R_selectorCache r ∧
  R_pluginsCache (foldl AddPodChangeListener r subs) = R_pluginsCache r.
Proof.
  revert r. induction subs as [|x subs IH]; intros r; cbn [foldl]; [by rewrite app_nil_r|].
  destruct (IH (AddPodChangeListener r x)) as (-> & -> & ->). cbn. by rewrite <- app_assoc.
Qed.

Lemma new_server_inv subs : self ∈ subs → server_inv (new_server subs).
Proof.
  intros Hin. destruct (new_server_subs subs NewAmeshPluginConfigController) as (Hsubs & Hsel & Hplug).
  split; cbn [new_server V_reconciler V_threads V_streams V_next V_manager]; try (by intros * Hx; rewrite lookup_empty in Hx).
  - by apply (PL_new L).
  - split; rewrite ?Hsel, ?Hplug; apply map_Forall_empty.
  - by rewrite Hsubs.
Qed.

Lemma steps_inv v v' : rtc (served_step cok self) v v' → server_inv v → server_inv v'.
Proof.
  induction 1 as [v|v1 v2 v3 [Hstep|Hstep] _ IH]; [done|..]; intros Hv1; apply IH;
    [by eapply internal_inv|by eapply external_inv].
Qed.

Lemma reachable_inv subs v : self ∈ subs → rtc (served_step cok self) (new_server subs) v → server_inv v.
Proof. intros Hin Hreach. eapply steps_inv; [done|]. by apply new_server_inv. Qed.

(** ** Termination *)

(** What follows a program. *)
Definition rest {A} (p' p : prog A) : Prop :=
  match p with
  | Done _ => False
  | Access a k => ∃ x, p' = k x
  end.

Lemma rest_wf {A} (p : prog A) : Acc rest p.
Proof. induction p as [res|a k IH]; constructor; [by intros p' []|]. intros p' [x ->]. apply IH. Qed.

Lemma advance_rest {A} c r (p : prog A) r' effs p' : advance c r p = Some (Ret (r', effs, p')) → rest p' p.
Proof. intros (a & k & x & -> & -> & _)%advance_Some. by exists x. Qed.

(** A pool: one of its members goes on, or leaves. *)
Definition pool_next {T} (next : T → T → Prop) (m' m : gmap nat T) : Prop :=
  ∃ i t, m !! i = Some t ∧ (m' = delete i m ∨ ∃ t', next t' t ∧ m' = <[i := t']> m).

Lemma pool_insert {T} (next : T → T → Prop) m : Acc (pool_next next) m →
  ∀ t, Acc next t → ∀ i, m !! i = None → Acc (pool_next next) (<[i := t]> m).
Proof.
  induction 1 as [m Hm IHm]. intros t Hwf. pose proof Hwf as Ht. induction Ht as [t _ IHt]. intros i Hi. constructor.
  intros m' (j & u & Hj & Hstep). apply lookup_insert_Some in Hj as [[<- <-]|[Hne Hj]].
  - destruct Hstep as [->|(t' & Hnext & ->)].
    + rewrite delete_insert_id by done. by constructor.
    + rewrite insert_insert_eq. apply IHt; [done|by eapply Acc_inv|done].
  - destruct Hstep as [->|(t' & Hnext & ->)].
    + rewrite delete_insert_ne by done. apply IHm; [exists j, u; auto|done|]. by rewrite lookup_delete_ne.
    + rewrite insert_insert_ne by done. apply IHm; [|done|by rewrite lookup_insert_ne].
      exists j, u. split; [done|]. right. by exists t'.
Qed.

Lemma pool_wf {T} (next : T → T → Prop) m : (∀ t, Acc next t) → Acc (pool_next next) m.
Proof.
  intros Hwf. induction m as [|i t m Hi IH] using map_ind; [|by apply pool_insert].
  constructor. intros m' (i & t & Hi & _). by rewrite lookup_empty in Hi.
Qed.

Definition thread_next (t' t : thread) : Prop :=
  match t, t' with
  | Worker _ p, Worker _ p' => rest p' p
  | PodHandler p, PodHandler p' => rest p' p
  | _, _ => False
  end.

Lemma thread_wf t : Acc thread_next t.
Proof.
  destruct t as [key p|p|p]; [|by constructor; intros t' Ht'; destruct t'|].
  - revert key. induction (rest_wf p) as [p _ IH]. intros key. constructor. intros [key' p'|p'|p'] Ht'; [by apply IH|done..].
  - induction (rest_wf p) as [p _ IH]. constructor. intros [key' p'|p'|p'] Ht'; [done..|by apply IH].
Qed.

(** A stream goes on without a new notification. *)
Definition stream_next (x' x : string * stream_state) : Prop :=
  match x.2, x'.2 with
  | Answering p, Answering p' => rest p' p
  | Answering _, Idle _ => True
  | Idle _, _ => False
  end.

Lemma stream_wf x : Acc stream_next x.
Proof.
  assert (∀ key last, Acc stream_next (key, Idle last)) as Hidle by (intros; by constructor).
  destruct x as [key [p|last]]; [|done]. revert key. induction (rest_wf p) as [p _ IH]. intros key. constructor.
  intros [key' [p'|last]] Hx; [by apply IH|done].
Qed.

Lemma remove_one_length id l : id ∈ l → (length (remove_one id l) < length l)%nat.
Proof.
  induction l as [|x l IH]; [by intros ?%elem_of_nil|]. cbn. destruct (Nat.eqb_spec x id) as [->|Hne]; [lia|].
  intros [->|Hin]%elem_of_cons; [done|]. cbn. specialize (IH Hin). lia.
Qed.

(** The system's own steps end: a thread goes on, or a notification is
    received, or a stream goes on. *)
Lemma internal_decreases v v' : internal_step cok self v v' →
  pool_next thread_next (V_threads v') (V_threads v) ∨
  V_threads v' = V_threads v ∧ ((length (V_senders v') < length (V_senders v))%nat ∨
    V_senders v' = V_senders v ∧ pool_next stream_next (V_streams v') (V_streams v)).
Proof.
  destruct 1 as [c i key p r' effs p' Hc Hi Hadv|c i p r' effs p' Hc Hi Hadv|i t Hi Hend|c id key p r' effs p' Hc Hid Hadv
    |id key answer Hid|id key res Hid|id key last Hid Hin|id key last Hid Hstop]; rewrite ?deliver_eq; cbn.
  - left. eexists i, _. split; [done|]. right. eexists. split; [|done]. by eapply advance_rest.
  - left. eexists i, _. split; [done|]. right. eexists. split; [|done]. by eapply advance_rest.
  - left. eexists i, _. split; [done|]. by left.
  - right. split; [done|]. right. split; [done|]. eexists id, _. split; [done|]. right. eexists. split; [|done]. by eapply advance_rest.
  - right. split; [done|]. right. split; [done|]. eexists id, _. split; [done|]. right. eexists. by split; [|done].
  - right. split; [done|]. right. split; [done|]. eexists id, _. split; [done|]. by left.
  - right. split; [done|]. left. by apply remove_one_length.
  - right. split; [done|]. right. split; [done|]. eexists id, _. split; [done|]. by left.
Qed.

Lemma internal_terminates v : Acc (flip (internal_step cok self)) v.
Proof.
  remember (V_threads v) as ts eqn:Ht. revert v Ht. induction (pool_wf thread_next ts thread_wf) as [ts _ IHts]. intros v ->.
  remember (length (V_senders v)) as n eqn:Hn. remember (V_threads v) as ts eqn:Ht. revert v Hn Ht.
  induction (lt_wf n) as [n _ IHn]. intros v -> ->.
  remember (length (V_senders v)) as n eqn:Hn. remember (V_threads v) as ts eqn:Ht. remember (V_streams v) as ss eqn:Hs.
  revert v Hn Ht Hs. induction (pool_wf stream_next ss stream_wf) as [ss _ IHss]. intros v -> -> ->. constructor.
  intros v' [Hts|[Hts [Hlt|[Hse Hss]]]]%internal_decreases.
  - by eapply IHts.
  - by eapply IHn.
  - eapply IHss; [exact Hss|by rewrite Hse|done|done].
Qed.

(** ** Convergence *)

(** Nothing is left to do, what the stream that is registered for the pod has
    sent last agrees with the caches, and after the stop signal no stream is
    left. *)
Definition settled v : Prop :=
  V_threads v = ∅ ∧ (V_stopped v = true → V_streams v = ∅) ∧
  ∀ id key st, V_streams v !! id = Some (key, st) →
    ∃ last, st = Idle last ∧ (key = pod_key → notified_stream v id → P_agrees P (V_reconciler v) last).

(** Waiting for a notification that has not been sent, or for the stop. *)
Definition waiting v (id : nat) (x : string * stream_state) : Prop :=
  match x.2 with Answering _ => False | Idle _ => (id ∉ V_senders v) ∧ V_stopped v = false end.

#[local] Instance waiting_dec v id x : Decision (waiting v id x).
Proof. unfold waiting. destruct x.2; apply _. Defined.

Lemma thread_moves c v i t :
  cok c → server_inv v → V_threads v !! i = Some t → ∃ v', internal_step cok self v v'.
Proof.
  intros Hc Hinv Hi. destruct (SI_threads v Hinv i t Hi) as [Hok Ht].
  destruct t as [key p|p|p]; [|done|];
    destruct (advance_ok genuine _ c _ p (PL_cluster L c Hc) (SI_caches v Hinv) Hok) as [(a & -> & _)|(r' & effs & p' & Hadv & _)].
  - eexists. by eapply SrvEnd.
  - eexists. by eapply SrvWorker.
  - eexists. by eapply SrvEnd.
  - eexists. by eapply SrvHandler.
Qed.

Lemma stream_moves c v id x :
  cok c → server_inv v → V_streams v !! id = Some x → ¬ waiting v id x →
  ∃ v', internal_step cok self v v'.
Proof.
  intros Hc Hinv Hid Hw. destruct x as [key [p|last]].
  - destruct (SI_streams v Hinv id key _ Hid) as (_ & Hok & _).
    destruct (advance_ok genuine _ c _ p (PL_cluster L c Hc) (SI_caches v Hinv) Hok) as [(a & -> & _)|(r' & effs & p' & Hadv & _)].
    + eexists. by eapply SrvFail.
    + eexists. by eapply SrvQuery.
  - destruct (V_stopped v) eqn:Hstop; [eexists; by eapply SrvStopped|].
    eexists. eapply SrvReceive; [exact Hid|]. apply dec_stable. intros Hin. by apply Hw.
Qed.

Lemma progress c v : cok c → server_inv v → settled v ∨ ∃ v', internal_step cok self v v'.
Proof.
  intros Hc Hinv. destruct (decide (V_threads v = ∅)) as [Ht|Ht].
  2: { apply map_choose in Ht as (i & t & Hi). right. by eapply thread_moves. }
  destruct (decide (map_Forall (waiting v) (V_streams v))) as [Hw|Hw].
  2: { apply map_not_Forall in Hw as (id & x & Hid & Hx); [|apply _]. right. by eapply stream_moves. }
  left. split_and!; [done| |].
  { intros Hstop. apply map_empty. intros id. apply eq_None_not_Some. intros [[key [p|last]] Hid]; [by apply (Hw id _ Hid)|].
    destruct (Hw id _ Hid) as [_ Hno]. congruence. }
  intros id key st Hid. pose proof (Hw id _ Hid) as Hx. destruct st as [p|last]; [done|].
  exists last. split; [done|]. intros Hk Hn. destruct Hx as [Hx _].
  destruct (SI_streams v Hinv id key _ Hid Hk Hn) as [|[Hin|(i & p & Hi & _)]]; [done..|].
  by rewrite Ht, lookup_empty in Hi.
Qed.

(** The theorem of the interface, from any state that satisfies the invariant. *)
Lemma protocol_settles v c :
  cok c → server_inv v → eventually (internal_step cok self) (λ v, settled v ∧ server_inv v) v.
Proof.
  intros Hc Hinv. apply eventually_inv; [by intros v1 v2 Hstep; eapply internal_inv| |done].
  apply (eventually_wf _ server_inv); [by intros v1 v2 Hstep; eapply internal_inv| |done|apply internal_terminates].
  intros v' Hv'. by eapply progress.
Qed.

Lemma protocol_current v id last :
  server_inv v → V_streams v !! id = Some (pod_key, Idle last) → notified_stream v id → current v id last.
Proof. intros Hinv Hid Hn. by apply (SI_streams v Hinv id pod_key (Idle last) Hid). Qed.
End Notification.

(** The laws hold for fewer clusters. *)
Lemma protocol_laws_mono `{GoRange} `{!K8sLib} genuine (cok cok' : cluster → Prop) self pod config P :
  (∀ c, cok' c → cok c) → protocol_laws genuine cok self pod config P → protocol_laws genuine cok' self pod config P.
Proof. intros Hcok []. split; eauto. Qed.
