(* ===== verification/Convergence.v ===== *)
(** * Convergence of the controller

    No update of the plugins of a configuration is lost on its way to a pod
    that it selects: in every reachable state of Server.v's system a stream of
    the pod has the current plugins, or a sender waits for it, or the worker of
    the configuration is about to notify it.  A run has two parts, before the
    reconciler has seen the configuration and after the queries' index lists it
    (Stranded.v shows that the second must not begin late); each implements the
    interface of Notification.v, which has the system's side. *)

From stdpp Require Import relations.
From S2P Require Import Prelude GoStrings StringSet ControllerTypes ControllerUtils SelectorCache Reconciler.
From S2P Require Import Interleaving AmeshPlugins GrpcServer Steady Server Notification.
Local Open Scope Z_scope.

Section Convergence.
Context `{GoRange} `{!K8sLib} `{!K8sLaws}.
Context (genuine : AmeshPluginConfigResource → Prop) (self : nat).
Context (pod : Pod) (config : string) (s : Selector).
Implicit Types (r : AmeshPluginConfigReconciler) (c : cluster) (v : server).

Abbreviation may := (may genuine pod config s).
Abbreviation may_any := (may_any genuine pod config s).
Abbreviation harmless := (harmless config s).
Abbreviation steady := (steady genuine pod config s).
Abbreviation answering := (answering genuine pod).
Abbreviation steady_cluster := (steady_cluster genuine pod config).
Abbreviation unseen_cluster := (unseen_cluster genuine pod config).
Abbreviation will_notify := (will_notify genuine pod config s).
Abbreviation follows := (follows genuine pod config s).
Abbreviation will_read := (will_read genuine pod config s).
Abbreviation selectors_ok := (selectors_ok config s).
Abbreviation pod_key := (pod_key pod).
Abbreviation notifies := (notifies self pod).

(** ** One access *)

Lemma perform_may c r a r' effs x :
  steady_cluster c → selectors_ok r → perform c r a = Ret (r', effs, x) → may a x.
Proof.
  intros [Hans Hlist] Hs Hp. split; [by eapply perform_may_any|].
  destruct a as [key|key selector|key|key|key conf|key|keys|ns names|ns name|ns name|ns selector|ns|conf]; cbn [perform] in *; try done.
  apply bind_ret in Hp as (res & Hres & [= _ _ <-]).
  intros ->. destruct Hlist as (l & i & Hl & Hi). exists l, i. split; [congruence|done].
Qed.

Lemma advance_will_notify {A} c r (p : prog A) r' effs p' :
  answering c → selectors_ok r → self ∈ R_subs r → will_notify p → advance c r p = Some (Ret (r', effs, p')) →
  notifies effs ∨ will_notify p'.
Proof.
  intros Hc Hs Hself Hp (a & k & x & -> & -> & Hperf)%advance_Some. destruct Hp as [Ha|Hk].
  - left. destruct a; try done. destruct Ha as [-> Hin]. cbn [perform] in Hperf. injection Hperf as _ <- _.
    by apply SendPluginsConfigs_notifies.
  - right. by eapply Hk, (perform_may_any _ _ _ _ c r a r' effs).
Qed.

(** What an access of the worker does to the plugins: nothing that the pods must
    be told, or they are going to be. *)
Definition told r r' (bound : Prop) : Prop :=
  R_pluginsCache r' !! config = R_pluginsCache r !! config ∨ R_pluginsCache r' !! config = None ∨ bound ∨
  ∃ o n, R_pluginsCache r !! config = Some o ∧ R_pluginsCache r' !! config = Some n ∧ same_plugins (PPC_Plugins o) (PPC_Plugins n).

(** An access of the worker of the configuration. *)
Lemma advance_follows {A} c r (p : prog A) r' effs p' :
  answering c → selectors_ok r → follows (R_pluginsCache r !! config) p → advance c r p = Some (Ret (r', effs, p')) →
  selectors_ok r' ∧ follows (R_pluginsCache r' !! config) p' ∧ told r r' (will_notify p').
Proof.
  intros Hc Hs Hp (a & k & x & -> & -> & Hperf)%advance_Some. unfold told.
  pose proof (perform_may_any _ _ _ _ c r a r' effs x Hc Hs Hperf) as Hx.
  assert (harmless a → follows (R_pluginsCache r !! config) (k x) →
    selectors_ok r' ∧ follows (R_pluginsCache r' !! config) (k x) ∧ told r r' (will_notify (k x))) as Hharmless.
  { intros Ha Hk. destruct (perform_harmless config s c r a r' effs x) as [? [Heq _]]; [done..|].
    rewrite Heq. split_and!; [done..|by left]. }
  destruct a as [key|key selector|key|key|key conf|key|keys|ns names|ns name|ns name|ns selector|ns|conf];
    cbn [Steady.follows Steady.harmless] in *; try (apply Hharmless; naive_solver).
  - destruct (decide (key = config)) as [->|Hne]; [|apply Hharmless; [done|by apply Hp]].
    cbn [perform] in Hperf. injection Hperf as <- _ <-. cbn [R_pluginsCache]. split_and!; [|by apply Hp|by left].
    intros k' sel'. cbn [R_selectorCache]. unfold Delete. intros [_ Hk']%lookup_delete_Some. by apply Hs.
  - destruct (decide (key = config)) as [->|Hne]; [|by apply Hharmless]. apply Hharmless; [done|].
    cbn [perform] in Hperf. by injection Hperf as _ _ <-.
  - destruct (decide (key = config)) as [->|Hne]; [|by apply Hharmless].
    cbn [perform] in Hperf. injection Hperf as <- _ <-. cbn [R_pluginsCache]. rewrite !lookup_insert_eq.
    destruct Hp as [Hnew Hp]. split_and!; [exact Hs|done|]. do 2 right. destruct Hnew as [(o & Ho & Hsame)|Hn]; [right|by left].
    by exists o, conf.
  - destruct (decide (key = config)) as [->|Hne]; [|by apply Hharmless].
    cbn [perform] in Hperf. injection Hperf as <- _ <-. cbn [R_pluginsCache]. rewrite !lookup_delete_eq.
    split_and!; [exact Hs|done|]. right. by left.
Qed.

(** ** Streams *)

(** The answer has the plugins of the configuration. *)
Definition up_to_date r (answer : list PodPluginConfig) : Prop :=
  ∀ cached, R_pluginsCache r !! config = Some cached →
    ∃ conf, conf ∈ answer ∧ PPC_Name conf = config ∧ same_plugins (PPC_Plugins conf) (PPC_Plugins cached).

Lemma cached_PPC_Name r cached :
  caches_ok genuine r → R_pluginsCache r !! config = Some cached → PPC_Name cached = config.
Proof. intros [_ Hp] Hk. by destruct (Hp config cached Hk) as (i & _ & -> & ->). Qed.

Lemma cached_NoDup r cached :
  steady → caches_ok genuine r → R_pluginsCache r !! config = Some cached → NoDup (plugin_key <$> PPC_Plugins cached).
Proof. intros Hst [_ Hp] Hk. destruct (Hp config cached Hk) as (i & Hg & He & ->). destruct (ST_version _ _ _ _ Hst i Hg) as (_ & _ & ?); done. Qed.

Lemma up_to_date_read r keys :
  caches_ok genuine r → config ∈ keys → up_to_date r (cached_configs (R_pluginsCache r) keys).
Proof.
  intros Hr Hk cached Hc. exists cached. split_and!; [|by eapply cached_PPC_Name|unfold same_plugins; reflexivity].
  rewrite cached_configs_filter, list_elem_of_omap. exists config. split; [|done]. by rewrite SortStrings_perm, elem_of_elements.
Qed.

Lemma up_to_date_same r r' answer :
  R_pluginsCache r' !! config = R_pluginsCache r !! config → up_to_date r answer → up_to_date r' answer.
Proof. intros Heq Hu cached. rewrite Heq. apply Hu. Qed.

Lemma up_to_date_changed r r' answer o n :
  R_pluginsCache r !! config = Some o → R_pluginsCache r' !! config = Some n →
  same_plugins (PPC_Plugins o) (PPC_Plugins n) → up_to_date r answer → up_to_date r' answer.
Proof.
  intros Ho Hn Hsame Hu cached Hc. destruct (Hu o Ho) as (conf & Hin & Hname & Hconf). exists conf. split_and!; [done..|].
  assert (cached = n) as -> by congruence. unfold same_plugins in *. by etrans.
Qed.

Lemma up_to_date_told r r' answer bound : told r r' bound → up_to_date r answer → up_to_date r' answer ∨ bound.
Proof.
  intros [Hsame|[Hnone|[Hb|(o & n & Ho & Hn & Hsame)]]] Hu; [left; by eapply up_to_date_same| |by right|left].
  - left. intros cached Hc. congruence.
  - exact (up_to_date_changed _ _ _ o n Ho Hn Hsame Hu).
Qed.

(** The query will read the plugins, or has; or there are none yet. *)
Definition informed r (p : prog (list PodPluginConfig + error)) : Prop :=
  R_pluginsCache r !! config = None ∨ will_read p ∨ ∃ answer, p = Done (Ret (inl answer)) ∧ up_to_date r answer.

Lemma informed_told r r' p bound : told r r' bound → informed r p → informed r' p ∨ bound.
Proof.
  intros Ht [Hnone|[Hr|(answer & -> & Hu)]].
  - destruct Ht as [Heq|[Hn|[Hb|(o & n & Ho & _)]]]; [left; left; congruence|left; by left|by right|congruence].
  - left. right. by left.
  - destruct (up_to_date_told r r' answer bound Ht Hu); [|by right]. left. do 2 right. by exists answer.
Qed.

Lemma informed_same r r' p : R_pluginsCache r' !! config = R_pluginsCache r !! config → informed r p → informed r' p.
Proof. intros Heq Hp. destruct (informed_told r r' p False); [by left|done..]. Qed.

Lemma informed_done r answer : informed r (Done (Ret (inl answer))) → up_to_date r answer.
Proof.
  intros [Hnone|[[err [=]]|(answer' & [= <-] & Hu)]]; [|done]. intros cached Hc. congruence.
Qed.

Lemma advance_will_read c r p r' effs p' :
  steady_cluster c → selectors_ok r → caches_ok genuine r → will_read p → advance c r p = Some (Ret (r', effs, p')) →
  informed r' p'.
Proof.
  intros Hc Hs Hr Hp (a & k & x & -> & -> & Hperf)%advance_Some. right.
  pose proof (perform_may c r a r' effs x Hc Hs Hperf) as Hx.
  destruct a; cbn [Steady.will_read] in *; try (left; by apply Hp).
  right. destruct Hp as [Hin Hk]. exists x. split; [done|]. cbn [perform] in Hperf. injection Hperf as <- _ <-.
  by apply up_to_date_read.
Qed.

(** ** The instance *)

Definition update_protocol : protocol := {|
  P_ok := selectors_ok;
  P_agrees := up_to_date;
  P_bound := λ _ p, will_notify p;
  P_same := λ r r', R_pluginsCache r' !! config = R_pluginsCache r !! config;
  P_worker := λ r p, follows (R_pluginsCache r !! config) p;
  P_other := λ A p, upholds harmless may_any (λ _, True) p;
  P_query := informed
|}.

Lemma thread_ended_quiet p : thread_ended (Worker config p) = true → ¬ will_notify p.
Proof. destruct p as [[a|why]|a k]; [|done..]. by intros _ []. Qed.

(** What the others do. *)
Lemma advance_other {A} c r (p : prog A) r' effs p' :
  answering c → selectors_ok r → upholds harmless may_any (λ _, True) p → advance c r p = Some (Ret (r', effs, p')) →
  selectors_ok r' ∧ R_pluginsCache r' !! config = R_pluginsCache r !! config ∧ upholds harmless may_any (λ _, True) p'.
Proof.
  intros Hc Hs Hp Hadv. destruct (advance_upholds config s may_any (λ _, True) c r p r' effs p') as (? & [? _] & ?); [|done..].
  intros a x. by apply perform_may_any.
Qed.

Lemma update_laws : steady → protocol_laws genuine steady_cluster self pod config update_protocol.
Proof.
  intros Hst. split; cbn [P_ok P_agrees P_bound P_same P_worker P_other P_query update_protocol].
  - intros c Hc. by apply Hc.
  - intros r Hr _ k sel. rewrite Hr. by intros ?%lookup_empty_Some.
  - done.
  - intros r r' Hsame. split_and!; [intros answer; by apply up_to_date_same|by rewrite Hsame|done|intros p; by apply informed_same].
  - intros A p c r r' effs p' Hc Hs _. apply (advance_other c); [apply Hc|done].
  - intros p c r r' effs p' Hc Hs _ Hself Hp Hadv.
    destruct (advance_follows c r p r' effs p' (SC_answers _ _ _ _ Hc) Hs Hp Hadv) as (Hs' & Hp' & Ht). split_and!; [done|done|..].
    + intros answer. by apply up_to_date_told.
    + intros q. by apply informed_told.
    + intros Hn. exact (advance_will_notify c r p r' effs p' (SC_answers _ _ _ _ Hc) Hs Hself Hn Hadv).
  - intros r p. apply thread_ended_quiet.
  - intros p c r r' effs p' Hc Hs Hr Ho [Hnone|[Hp|(answer & -> & _)]] Hadv; [|by eapply advance_will_read|done].
    left. destruct (advance_other c r p r' effs p' (SC_answers _ _ _ _ Hc) Hs Ho Hadv) as (_ & -> & _). done.
  - apply informed_done.
  - intros r ns name _ Hr Hk. apply Reconcile_follows; [done..|]. intros o Ho. by eapply cached_NoDup.
  - intros ns name Hne. by apply (Reconcile_upholds _ _ _ _ may_any (λ a x H, H)).
  - by intros ns names.
  - intros key. by apply (GetPodPluginConfigs_upholds _ _ _ _ may_any (λ a x H, H)).
  - intros r _. right. left. by apply GetPodPluginConfigs_will_read.
Qed.

(** ** Before the configuration is there *)

(** The worker does not cache plugins of the configuration. *)
Definition blank (a : access) : Prop :=
  match a with SetPlugins key _ => key ≠ config | _ => True end.

Definition unseen (a : access) (x : result a) : Prop :=
  may_any a x ∧
  match a return result a → Prop with
  | GetConfig ns name => λ res, ns +:+ "/" +:+ name = config → ∃ err, res = inr err
  | _ => λ _, True
  end x.

Definition unseen_protocol : protocol := {|
  P_ok := λ r, selectors_ok r ∧ R_pluginsCache r !! config = None;
  P_agrees := up_to_date;
  P_bound := λ _ _, False;
  P_same := λ r r', R_pluginsCache r' !! config = R_pluginsCache r !! config;
  P_worker := λ _ p, follows None p ∧ upholds blank unseen (λ _, True) p;
  P_other := λ A p, upholds harmless may_any (λ _, True) p;
  P_query := λ r _, R_pluginsCache r !! config = None
|}.

Lemma advance_blank {A} c r (p : prog A) r' effs p' :
  unseen_cluster c → selectors_ok r → R_pluginsCache r !! config = None → upholds blank unseen (λ _, True) p →
  advance c r p = Some (Ret (r', effs, p')) →
  R_pluginsCache r' !! config = None ∧ upholds blank unseen (λ _, True) p'.
Proof.
  intros [Hc Hget] Hs Hnone Hp (a & k & x & -> & -> & Hperf)%advance_Some. destruct Hp as [Ha Hk]. split.
  - destruct a as [key|key selector|key|key|key conf|key|keys|ns names|ns name|ns name|ns selector|ns|conf];
      cbn [perform blank] in *; try (injection Hperf as <- _ _); try (apply bind_ret in Hperf as (res & _ & [= <- _ _])); try done.
    + cbn. by rewrite lookup_insert_ne.
    + cbn. rewrite lookup_delete_None. by right.
  - apply Hk. split; [by eapply perform_may_any|]. destruct a; try done. cbn [perform] in Hperf. injection Hperf as _ _ <-. apply Hget.
Qed.

Lemma Reconcile_blank ns name : ns +:+ "/" +:+ name = config → upholds blank unseen (λ _, True) (Reconcile_prog ns name).
Proof.
  intros Hk. unfold Reconcile_prog. apply upholds_access; [done|]. intros res [_ Hres].
  destruct (Hres Hk) as [err ->]. destruct (IsNotFound err); [|done]. unfold reconcile_deleted_prog.
  apply upholds_access; [done|]. intros x _. apply upholds_access; [done|]. intros [old|] _.
  - apply upholds_access; [done|]. intros [pods|err'] _; [|done].
    apply upholds_access; [done|]. intros y _. by apply upholds_access.
  - by apply upholds_access.
Qed.

Lemma unseen_laws : steady → protocol_laws genuine unseen_cluster self pod config unseen_protocol.
Proof.
  intros Hst. split; cbn [P_ok P_agrees P_bound P_same P_worker P_other P_query unseen_protocol].
  - intros c Hc. by apply Hc.
  - intros r Hr Hp. split; [|by rewrite Hp]. intros k sel. rewrite Hr. by intros ?%lookup_empty_Some.
  - done.
  - intros r r' Hsame. split_and!; [intros answer; by apply up_to_date_same|done|done|by rewrite Hsame].
  - intros A p c r r' effs p' Hc [Hs Hnone] _ Hp Hadv.
    destruct (advance_other c r p r' effs p' (UC_answers _ _ _ _ Hc) Hs Hp Hadv) as (? & Heq & ?). by rewrite Heq.
  - intros p c r r' effs p' Hc [Hs Hnone] _ _ [Hf Hb] Hadv.
    destruct (advance_blank c r p r' effs p' Hc Hs Hnone Hb Hadv) as [Hnone' Hb'].
    rewrite <- Hnone in Hf. destruct (advance_follows c r p r' effs p' (UC_answers _ _ _ _ Hc) Hs Hf Hadv) as (Hs' & Hf' & _).
    rewrite Hnone' in Hf'. split_and!; [done..| |by left|done]. left. intros cached Hcached. congruence.
  - intros r p _ [].
  - intros p c r r' effs p' Hc [Hs _] _ Hp Hnone Hadv.
    destruct (advance_other c r p r' effs p' (UC_answers _ _ _ _ Hc) Hs Hp Hadv) as (_ & -> & _). done.
  - intros r answer Hnone cached Hcached. congruence.
  - intros r ns name _ _ Hk. split; [by apply Reconcile_follows|by apply Reconcile_blank].
  - intros ns name Hne. by apply (Reconcile_upholds _ _ _ _ may_any (λ a x H, H)).
  - by intros ns names.
  - intros key. by apply (GetPodPluginConfigs_upholds _ _ _ _ may_any (λ a x H, H)).
  - by intros r [].
Qed.

(** Then it may come. *)
Lemma unseen_update v :
  server_inv genuine self pod config unseen_protocol v → server_inv genuine self pod config update_protocol v.
Proof.
  intros [[Hs Hnone] Hcaches Hself Hthreads Huniq Hfresh Hstreams]. split; try done.
  - intros i t Hi. destruct (Hthreads i t Hi) as [Hg Ht]. split; [done|]. destruct t as [key p|p|p]; [|done..].
    cbn [P_worker P_other update_protocol unseen_protocol] in *. rewrite Hnone. destruct (decide (key = config)); [|done]. by destruct Ht.
  - intros id key st Hid. pose proof (Hstreams id key st Hid) as Hst. destruct st as [p|last].
    + destruct Hst as (? & ? & _). split_and!; [done..|]. intros _ _. left. by left.
    + intros _ _. left. intros cached Hcached. cbn in Hcached. congruence.
Qed.

(** A run, before and after. *)
Lemma update_reachable subs v0 v :
  steady → self ∈ subs → rtc (served_step unseen_cluster self) (new_server subs) v0 →
  rtc (served_step steady_cluster self) v0 v → server_inv genuine self pod config update_protocol v.
Proof.
  intros Hst Hin Hreach Hsteps. eapply (steps_inv _ _ _ _ _ _ (update_laws Hst)); [done|].
  apply unseen_update. by eapply (reachable_inv _ _ _ _ _ _ (unseen_laws Hst)).
Qed.

Abbreviation current := (current config update_protocol).
Abbreviation settled := (settled pod update_protocol).
Abbreviation eventually := (eventually (internal_step steady_cluster self)).

End Convergence.

(** ** Witness: a stream opens while the configuration is reconciled *)

Section Witnesses.
#[local] Existing Instance k8s_example.
#[local] Existing Instance map_order.

Definition web_resource : AmeshPluginConfigResource := example_resource "1" "web".
Definition web_only (instance : AmeshPluginConfigResource) : Prop := instance = web_resource.

Lemma example_steady : steady web_only example_pod "default/conf" web_selector.
Proof.
  split.
  - reflexivity.
  - by vm_compute.
  - by intros i ->.
  - intros i -> _. split_and!; [done|reflexivity|]. apply NoDup_singleton.
Qed.

Lemma default_conf_eq ns name : ns +:+ "/" +:+ name = "default/conf" → ns = "default" ∧ name = "conf".
Proof.
  intros Heq.
  do 7 (destruct ns as [|? ns]; [discriminate Heq|injection Heq as -> Heq]).
  destruct ns as [|? ns]; [injection Heq as Heq; cbn in Heq; by subst|injection Heq as -> Heq].
  by do 5 (destruct ns as [|? ns]; [discriminate Heq|try discriminate Heq; injection Heq as -> Heq]).
Qed.

Lemma example_answering : answering web_only example_pod (example_cluster web_resource).
Proof.
  split.
  - split; [done|done|]. intros ns name i. cbn. case_bool_decide as Hb; [|done]. destruct Hb as [-> ->]. by intros [= <-].
  - by vm_compute.
  - intros sel. eexists. split; [reflexivity|]. intros Hm. apply list_elem_of_filter. split; [done|]. by left.
  - intros ns l i [= <-] Hi. case_bool_decide; [by apply list_elem_of_singleton in Hi|by apply elem_of_nil in Hi].
Qed.

Lemma example_steady_cluster : steady_cluster web_only example_pod "default/conf" (example_cluster web_resource).
Proof.
  split; [apply example_answering|].
  exists [web_resource], web_resource. split_and!; [reflexivity|by left|reflexivity].
Qed.

(** The agent connects, then the configuration is created. *)
Definition both_started : server :=
  let v := open_served (new_server [7%nat]) "default/web" in
  with_thread v (V_reconciler v) (<[0%nat := Worker "default/conf" (Reconcile_prog "default" "conf")]> (V_threads v)).

End Witnesses.
