(* ===== verification/Aim.v ===== *)
(** * What the worker of a configuration brings about

    The system of Server.v under the interface of Notification.v, with one more
    interface: an [aim] for the caches that the worker of the configuration is
    on course for from its start, and reaches by its end.  Once every worker of
    the configuration is on course, the system comes to rest with the aim
    reached. *)

From stdpp Require Import relations.
From S2P Require Import Prelude GoStrings StringSet ControllerTypes ControllerUtils SelectorCache Reconciler.
From S2P Require Import Interleaving AmeshPlugins GrpcServer Steady Server Notification.
Local Open Scope Z_scope.

Section Aim.
Context `{GoRange} `{!K8sLib} `{!K8sLaws}.
Context (genuine : AmeshPluginConfigResource → Prop) (cok : cluster → Prop) (self : nat) (pod : Pod) (config : string).
Context (P : protocol).
Implicit Types (r : AmeshPluginConfigReconciler) (c : cluster) (v : server).

Abbreviation server_inv := (server_inv genuine self pod config P).

Record aim := {
  A_reached : AmeshPluginConfigReconciler → Prop;
  A_on_course : AmeshPluginConfigReconciler → prog (option error) → Prop
}.

Context (A : aim).

Record aim_laws : Prop := {
  AL_same : ∀ r r', P_same P r r' →
    (A_reached A r → A_reached A r') ∧ (∀ p, A_on_course A r p → A_on_course A r' p);
  AL_step : ∀ p c r r' effs p', cok c → P_ok P r → caches_ok genuine r → A_on_course A r p →
    advance c r p = Some (Ret (r', effs, p')) → A_on_course A r' p';
  AL_ended : ∀ r p, thread_ended (Worker config p) = true → A_on_course A r p → A_reached A r;
  AL_start : ∀ r ns name, P_ok P r → caches_ok genuine r → ns +:+ "/" +:+ name = config →
    A_on_course A r (Reconcile_prog ns name)
}.

(** The aim is reached, or the worker is at work; and it is on course. *)
Record aiming v : Prop := {
  AI_worker : A_reached A (V_reconciler v) ∨ ∃ i p, V_threads v !! i = Some (Worker config p);
  AI_course : ∀ i p, V_threads v !! i = Some (Worker config p) → A_on_course A (V_reconciler v) p
}.

Context (L : protocol_laws genuine cok self pod config P) (LA : aim_laws).

Lemma aiming_other v v' :
  P_same P (V_reconciler v) (V_reconciler v') →
  (∀ i p, V_threads v !! i = Some (Worker config p) ↔ V_threads v' !! i = Some (Worker config p)) →
  aiming v → aiming v'.
Proof.
  intros [Hreach Hcourse]%(AL_same LA) Ht [Hw Hc]. split.
  - destruct Hw as [|(i & p & Hi)]; [left; auto|right]. exists i, p. by apply Ht.
  - intros i p Hi. eapply Hcourse, Hc. by apply Ht.
Qed.

(** A thread that is not the worker of the configuration goes on. *)
Lemma worker_kept v i t t' p j :
  V_threads v !! i = Some t → (∀ q, t ≠ Worker config q) → (∀ q, t' ≠ Worker config q) →
  V_threads v !! j = Some (Worker config p) ↔ <[i := t']> (V_threads v) !! j = Some (Worker config p).
Proof.
  intros Hi Ht Ht'. destruct (decide (i = j)) as [->|Hne]; [|by rewrite lookup_insert_ne].
  rewrite lookup_insert_eq, Hi. split; intros [= Heq]; [by destruct (Ht p)|by destruct (Ht' p)].
Qed.

Lemma other_same {T} c v (p : prog T) r' effs p' :
  cok c → server_inv v → P_other P T p → advance c (V_reconciler v) p = Some (Ret (r', effs, p')) →
  P_same P (V_reconciler v) r'.
Proof.
  intros Hc Hinv Hp Hadv.
  by apply (PL_other _ _ _ _ _ _ L T p c (V_reconciler v) r' effs p' Hc (SI_ok _ _ _ _ _ v Hinv) (SI_caches _ _ _ _ _ v Hinv) Hp Hadv).
Qed.

Lemma worker_aiming v i p r' p' :
  server_inv v → V_threads v !! i = Some (Worker config p) → A_on_course A r' p' →
  aiming (with_thread v r' (<[i := Worker config p']> (V_threads v))).
Proof.
  intros Hinv Hi Hp'. split; cbn [with_thread V_reconciler V_threads].
  - right. exists i, p'. by rewrite lookup_insert_eq.
  - intros j q [[<- [= <-]]|[Hij Hj]]%lookup_insert_Some; [done|]. destruct Hij. by eapply (SI_unique _ _ _ _ _ v Hinv).
Qed.

Lemma aiming_step v v' : internal_step cok self v v' → server_inv v → aiming v → aiming v'.
Proof.
  intros Hstep Hinv Haim. pose proof (SI_threads _ _ _ _ _ v Hinv) as Hthreads. pose proof (PL_refl _ _ _ _ _ _ L) as Hrefl.
  destruct Hstep as [c i key p r' effs p' Hc Hi Hadv|c i p r' effs p' Hc Hi Hadv|i t Hi Hend|c id key p r' effs p' Hc Hid Hadv
    |id key answer Hid|id key res Hid|id key last Hid Hin|id key last Hid Hstop]; rewrite ?deliver_eq;
    try (by eapply (aiming_other v)).
  - destruct (Hthreads i _ Hi) as [_ Hp]. destruct (decide (key = config)) as [->|Hne].
    + eapply (aiming_other (with_thread v r' (<[i := Worker config p']> (V_threads v)))); [apply Hrefl|done|].
      apply (worker_aiming v i p); [done..|]. eapply (AL_step LA p c); [done|apply Hinv..|by apply (AI_course v Haim i)|done].
    + eapply (aiming_other v); [by eapply other_same| |done].
      intros j q. apply (worker_kept v i (Worker key p)); [done|..]; by intros q' [= Heq _].
  - destruct (Hthreads i _ Hi) as [_ Hp]. eapply (aiming_other v); [by eapply other_same| |done].
    intros j q. by apply (worker_kept v i (PodHandler p)).
  - destruct Haim as [Hw Hcourse]. split; cbn [with_thread V_reconciler V_threads].
    + destruct Hw as [|(j & q & Hj)]; [by left|]. destruct (decide (i = j)) as [->|Hne].
      * left. assert (t = Worker config q) as -> by congruence. by eapply (AL_ended LA), Hcourse.
      * right. exists j, q. by rewrite lookup_delete_ne.
    + intros j q [_ Hj]%lookup_delete_Some. by apply (Hcourse j).
  - destruct (SI_streams _ _ _ _ _ v Hinv id key _ Hid) as (Hp & _ & _).
    eapply (aiming_other v); [by eapply other_same|done..].
Qed.

(** The worker that has just been started. *)
Lemma started_aiming v i ns name :
  server_inv v → ns +:+ "/" +:+ name = config →
  V_threads v !! i = Some (Worker config (Reconcile_prog ns name)) → aiming v.
Proof.
  intros Hinv Hk Hi. split; [right; by eexists _, _|]. intros j p Hj.
  assert (j = i) as -> by (by eapply (SI_unique _ _ _ _ _ v Hinv)). rewrite Hi in Hj. injection Hj as <-.
  apply (AL_start LA); [apply Hinv..|done].
Qed.

Lemma aiming_reached v : V_threads v = ∅ → aiming v → A_reached A (V_reconciler v).
Proof. intros Ht [[|(i & p & Hi)] _]; [done|]. by rewrite Ht, lookup_empty in Hi. Qed.

Lemma aim_settles v c :
  cok c → server_inv v → aiming v →
  eventually (internal_step cok self) (λ v, settled pod P v ∧ A_reached A (V_reconciler v)) v.
Proof.
  intros Hc Hinv Haim.
  cut (eventually (internal_step cok self) (λ v, (settled pod P v ∧ server_inv v) ∧ server_inv v ∧ aiming v) v).
  { apply eventually_mono. intros v' ([Hset _] & _ & Ha). split; [done|]. apply aiming_reached; [apply Hset|done]. }
  apply eventually_inv; [|by apply (protocol_settles _ _ _ _ _ _ L v c)|done].
  intros v1 v2 Hstep [Hinv1 Ha1]. split; [by eapply (internal_inv _ _ _ _ _ _ L)|by eapply aiming_step].
Qed.
End Aim.
