(* ===== verification/Deletion.v ===== *)
(** * Deletions reach the pods

    A configuration that comes and goes: the resource is created, updated,
    deleted and created again, in any order, with one selector.  Whenever the
    controller has forgotten its plugins, a stream of a pod that it selected
    has last sent an answer without it, or is about to be notified; and once
    the deletion has been reconciled, the streams of the pod end up without the
    configuration.  The second implementation of the interface of
    Notification.v. *)

From stdpp Require Import relations.
From S2P Require Import Prelude GoStrings StringSet ControllerTypes ControllerUtils SelectorCache Reconciler.
From S2P Require Import Interleaving AmeshPlugins GrpcServer Steady Server Notification Convergence Aim.
Local Open Scope Z_scope.

Section Deletion.
Context `{GoRange} `{!K8sLib} `{!K8sLaws}.
Context (genuine : AmeshPluginConfigResource → Prop) (self : nat).
Context (pod : Pod) (config : string) (s : Selector).
Implicit Types (r : AmeshPluginConfigReconciler) (c : cluster) (v : server).

Abbreviation may_any := (may_any genuine pod config s).
Abbreviation harmless := (harmless config s).
Abbreviation steady := (steady genuine pod config s).
Abbreviation answering := (answering genuine pod).
Abbreviation selectors_ok := (selectors_ok config s).
Abbreviation same_entry := (same_entry config).
Abbreviation pod_key := (pod_key pod).
Abbreviation notifies := (notifies self pod).
Abbreviation notifies_pod := (notifies_pod pod).

(** The caches have plugins, or a selector, of the configuration. *)
Definition has_plugins r : bool := bool_decide (is_Some (R_pluginsCache r !! config)).
Definition has_selector r : Prop := is_Some (R_selectorCache r !! config).

(** ** The worker of the configuration *)

(** What an access returns while the selector is cached. *)
Definition known (a : access) (x : result a) : Prop :=
  may_any a x ∧
  match a return result a → Prop with
  | GetSelector key => λ val, key = config → val ≠ None
  | _ => λ _, True
  end x.

Definition keeps_selector (a : access) : Prop :=
  match a with DeleteSelector key => key ≠ config | _ => True end.

(** It notifies the pod before it forgets the selector. *)
Fixpoint soon {A} (p : prog A) : Prop :=
  match p with
  | Done _ => False
  | Access a k => notifies_pod a ∨ (keeps_selector a ∧ ∀ x, known a x → soon (k x))
  end.

(** The worker while plugins of the configuration are cached ([pl]) and its
    selector surely is ([sel]): plugins are cached after their selector, and
    when it deletes plugins it goes on to notify the pod. *)
Fixpoint forgets {A} (pl sel : bool) (p : prog A) : Prop :=
  match p with
  | Done res => ∃ a, res = Ret a
  | Access a k =>
      match a return (result a → prog A) → (result a → Prop) → Prop with
      | SetSelector key val => λ k rest, is_Some val ∧ (key = config → val = Some s) ∧
          ∀ x, forgets pl (sel || bool_decide (key = config)) (k x)
      | DeleteSelector key => λ k rest, (key = config → pl = false) ∧
          ∀ x, forgets pl (if decide (key = config) then false else sel) (k x)
      | SetPlugins key _ => λ k rest, (key = config → sel = true) ∧
          ∀ x, forgets (pl || bool_decide (key = config)) sel (k x)
      | DeletePlugins key => λ k rest, (key = config → pl = true → soon (k tt)) ∧
          ∀ x, forgets (if decide (key = config) then false else pl) sel (k x)
      | ListPods _ val => λ k rest, is_Some val ∧ ∀ x, rest x → forgets pl sel (k x)
      | _ => λ k rest, ∀ x, rest x → forgets pl sel (k x)
      end k (may_any a)
  end.

Definition worker_forgets r (p : prog (option error)) : Prop :=
  ∃ sel, (sel = true → has_selector r) ∧ (has_plugins r = true → sel = true) ∧ forgets (has_plugins r) sel p.

Lemma upholds_forgets {A} (Q : A → Prop) pl sel p : upholds harmless may_any Q p → forgets pl sel p.
Proof.
  revert pl sel. induction p as [[a|why]|a k IH]; intros pl sel; [by exists a|done|]. intros [Ha Hk].
  destruct a; cbn [forgets Steady.harmless] in *; unfold Steady.may_any in *; rewrite ?decide_False by done;
    rewrite ?(bool_decide_false (_ = config)) by done; naive_solver.
Qed.

Lemma has_plugins_same r r' : same_entry r r' → has_plugins r' = has_plugins r.
Proof. intros [Heq _]. unfold has_plugins. by rewrite Heq. Qed.

(** A step of it. *)
Lemma perform_forgets c r a {A} (k : result a → prog A) r' effs x sel :
  answering c → selectors_ok r → (sel = true → has_selector r) → (has_plugins r = true → sel = true) →
  forgets (has_plugins r) sel (Access a k) → perform c r a = Ret (r', effs, x) →
  selectors_ok r' ∧
  (∃ sel', (sel' = true → has_selector r') ∧ (has_plugins r' = true → sel' = true) ∧ forgets (has_plugins r') sel' (k x)) ∧
  (has_plugins r' = false → has_plugins r = false ∨ soon (k x) ∧ has_selector r').
Proof.
  intros Hc Hs Hsel Hpl Hp Hperf. pose proof (perform_may_any _ _ _ _ c r a r' effs x Hc Hs Hperf) as Hx.
  assert (harmless a → forgets (has_plugins r) sel (k x) →
    selectors_ok r' ∧
    (∃ sel', (sel' = true → has_selector r') ∧ (has_plugins r' = true → sel' = true) ∧ forgets (has_plugins r') sel' (k x)) ∧
    (has_plugins r' = false → has_plugins r = false ∨ soon (k x) ∧ has_selector r')) as Hharmless.
  { intros Ha Hk. destruct (perform_harmless config s c r a r' effs x) as [? Hsame]; [done..|].
    rewrite (has_plugins_same r r' Hsame). split_and!; [done| |by left]. exists sel. split_and!; [|done..].
    intros Ht. apply Hsame. by apply Hsel. }
  destruct a as [key|key val|key|key|key conf|key|keys|ns names|ns name|ns name|ns val|ns|conf];
    cbn [forgets Steady.harmless] in *;
    try (apply Hharmless; [exact I|exact (Hp x Hx)]); try (apply Hharmless; [exact (proj1 Hp)|exact (proj2 Hp x Hx)]).
  - destruct Hp as (Hv & Hvs & Hk). destruct (decide (key = config)) as [->|Hne].
    2: { apply Hharmless; [done|]. specialize (Hk x). rewrite bool_decide_false, orb_false_r in Hk by done. done. }
    destruct (perform_harmless config s c r (SetSelector config val) r' effs x) as [? Hsame]; [done..|].
    rewrite (has_plugins_same r r' Hsame). split_and!; [done| |by left]. exists true.
    cbn [perform] in Hperf. injection Hperf as <- _ _.
    split_and!; [intros _; unfold has_selector; cbn; by rewrite lookup_insert_eq|done|].
    specialize (Hk x). by rewrite bool_decide_true, orb_true_r in Hk.
  - destruct Hp as [Hnone Hk]. destruct (decide (key = config)) as [->|Hne]; [|by apply Hharmless].
    cbn [perform] in Hperf. injection Hperf as <- _ _. specialize (Hnone eq_refl).
    assert (∀ sc, has_plugins (mkReconciler sc (R_pluginsCache r) (R_subs r)) = has_plugins r) as Hhp by done. rewrite Hhp.
    split_and!; [|by exists false; rewrite Hnone in *|by left].
    intros key sel'. cbn [R_selectorCache]. unfold Delete. intros [_ Hk']%lookup_delete_Some. by apply Hs.
  - destruct Hp as [Hset Hk]. destruct (decide (key = config)) as [->|Hne].
    2: { apply Hharmless; [done|]. specialize (Hk x). rewrite bool_decide_false, orb_false_r in Hk by done. done. }
    cbn [perform] in Hperf. injection Hperf as <- _ <-. specialize (Hset eq_refl). specialize (Hk tt).
    rewrite bool_decide_true, orb_true_r in Hk by done.
    assert (has_plugins (mkReconciler (R_selectorCache r) (<[config:=conf]> (R_pluginsCache r)) (R_subs r)) = true) as ->.
    { unfold has_plugins. cbn. rewrite lookup_insert_eq. by apply bool_decide_true. }
    split_and!; [exact Hs| |done]. exists true. split_and!; [|done|by rewrite Hset in Hk]. intros _. by apply Hsel.
  - destruct Hp as [Hsoon Hk]. destruct (decide (key = config)) as [->|Hne]; [|by apply Hharmless].
    cbn [perform] in Hperf. injection Hperf as <- _ <-. specialize (Hsoon eq_refl). specialize (Hk tt).
    assert (has_plugins (mkReconciler (R_selectorCache r) (delete config (R_pluginsCache r)) (R_subs r)) = false) as ->.
    { unfold has_plugins. cbn. rewrite lookup_delete_eq. by apply bool_decide_false; intros [? ?]. }
    split_and!; [exact Hs| |].
    + exists sel. split_and!; [by intros Ht; apply Hsel|done|done].
    + intros _. destruct (has_plugins r) eqn:Hhp; [right|by left]. split; [by apply Hsoon|]. apply Hsel. by apply Hpl.
Qed.

(** A step towards the notification. *)
Lemma perform_soon c r a {A} (k : result a → prog A) r' effs x :
  answering c → selectors_ok r → self ∈ R_subs r → has_selector r → soon (Access a k) → perform c r a = Ret (r', effs, x) →
  notifies effs ∨ soon (k x) ∧ has_selector r'.
Proof.
  intros Hc Hs Hself Hsel [Ha|[Hkeep Hk]] Hperf.
  - left. destruct a; try done. destruct Ha as [-> Hin]. cbn [perform] in Hperf. injection Hperf as _ <- _.
    by apply SendPluginsConfigs_notifies.
  - right. split.
    + apply Hk. split; [by eapply perform_may_any|]. destruct a; try done. intros ->. cbn [perform] in Hperf. injection Hperf as _ _ <-.
      unfold Get. destruct Hsel as [val ->]. done.
    + unfold has_selector in *.
      destruct a as [key|key val|key|key|key conf|key|keys|ns names|ns name|ns name|ns val|ns|conf]; cbn [perform keeps_selector] in *;
        try (injection Hperf as <- _ _); try (apply bind_ret in Hperf as (res & _ & [= <- _ _])); try done; cbn [R_selectorCache].
      * destruct (decide (key = config)) as [->|Hne]; [by rewrite lookup_insert_eq|by rewrite lookup_insert_ne].
      * unfold Delete. by rewrite lookup_delete_ne.
Qed.

(** What it does is right from the start. *)
#[local] Tactic Notation "advance" :=
  lazymatch goal with
  | |- forgets ?pl ?sel (call ?a ≫= ?f) => change (forgets pl sel (Access a f)); cbn [forgets]
  | |- soon (call ?a ≫= ?f) => change (soon (Access a f)); cbn [soon]
  end.

Lemma reconcile_found_forgets instance pl sel :
  steady → genuine instance → config_key instance = config →
  forgets pl sel (reconcile_found_prog (Res_Namespace instance) config instance).
Proof.
  intros Hst Hi Hk. destruct (ST_version _ _ _ _ Hst instance Hi Hk) as (_ & Hc & _).
  unfold reconcile_found_prog. advance. intros cached _. case_match; [by eexists|].
  advance. intros old Hold. unfold Update_prog. rewrite Hc.
  match goal with |- forgets _ _ ((call ?a ≫= ?g) ≫= ?F) => change (forgets pl sel (Access a (λ x, g x ≫= F))) end.
  cbn [forgets]. split_and!; [by eexists|done|].
  intros x. rewrite bool_decide_true, orb_true_r by done.
  match goal with |- forgets _ _ (mret ?y ≫= ?F) => change (forgets pl true (F y)) end. cbn beta iota.
  advance. split; [done|]. intros y. rewrite bool_decide_true, orb_true_r by done.
  eapply upholds_forgets.
  apply (reconcile_rest_upholds genuine pod config s may_any (λ a x H, H) (Res_Namespace instance) old s).
  intros val Hval. by apply Hold.
Qed.

(** The deletion: plugins first, then the notification, then the selector. *)
Lemma reconcile_deleted_forgets ns pl sel :
  steady → ns = Pod_Namespace pod → forgets pl sel (reconcile_deleted_prog ns config).
Proof.
  intros Hst Hns. unfold reconcile_deleted_prog. advance. split.
  - intros _ _. advance. right. split; [done|]. intros old [Hold Hsome].
    destruct old as [old|]; [|by destruct Hsome]. destruct (Hold old eq_refl) as [_ ->]; [|done].
    advance. right. split; [done|]. intros pods [Hpods _]. destruct (Hpods Hns) as (l & -> & Hl); [by eexists|].
    advance. left. split; [done|]. apply elem_of_pod_names. exists pod. split; [|done].
    by apply (Hl s), (ST_matches _ _ _ _ Hst).
  - intros x. rewrite decide_True by done. advance. intros old Hold.
    destruct old as [old|]; [|advance; split; [done|]; intros y; by eexists].
    advance. split; [by apply (Hold old)|]. intros pods _. destruct pods as [pods|err]; [|by eexists].
    advance. intros y _. advance. split; [done|]. intros z. by eexists.
Qed.

Lemma Reconcile_forgets ns name pl sel :
  steady → ns +:+ "/" +:+ name = config → ns = Pod_Namespace pod → forgets pl sel (Reconcile_prog ns name).
Proof.
  intros Hst Hk Hns. unfold Reconcile_prog. advance. intros res Hres. rewrite NamespacedName_String_eq, Hk.
  destruct res as [instance|err].
  - destruct (Hres instance eq_refl) as (Hg & <- & Hname). destruct (Res_DeletionTimestamp instance); [by eexists|].
    apply reconcile_found_forgets; [done..|]. unfold config_key. congruence.
  - destruct (IsNotFound err); [|by eexists]. by apply reconcile_deleted_forgets.
Qed.

(** ** The streams *)

(** An answer without the configuration, when its plugins are not cached. *)
Definition forgotten r (answer : list PodPluginConfig) : Prop :=
  has_plugins r = false → ∀ conf, conf ∈ answer → PPC_Name conf ≠ config.

(** The query has still to read the plugins, or fails. *)
Fixpoint reads (p : prog (list PodPluginConfig + error)) : Prop :=
  match p with
  | Done res => ∃ err, res = Ret (inr err)
  | Access a k =>
      match a return (result a → prog _) → (result a → Prop) → Prop with
      | ReadPlugins keys => λ k rest, ∀ x, k x = Done (Ret (inl x))
      | _ => λ k rest, ∀ x, rest x → reads (k x)
      end k (may_any a)
  end.

Lemma reads_bind {A} (Q : A → Prop) (f : A → prog (list PodPluginConfig + error)) p :
  upholds (quiet config s) may_any Q p → (∀ a, Q a → reads (f a)) → reads (p ≫= f).
Proof.
  intros Hp Hf. induction p as [[a|why]|a k IH]; [by apply Hf|done|]. destruct Hp as [[_ Ha] Hk].
  change (Access a k ≫= f) with (Access a (λ x, k x ≫= f)). destruct a; cbn [reads] in *; naive_solver.
Qed.

Lemma GetPodPluginConfigs_reads : steady → reads (GetPodPluginConfigs_prog pod_key).
Proof.
  intros Hst. unfold GetPodPluginConfigs_prog, Steady.pod_key. destruct (ST_pod _ _ _ _ Hst) as [Hns Hname].
  rewrite SplitMetaNamespaceKey_eq by done. intros res Hres. cbn [prog_bind mret prog_mret]. rewrite (Hres eq_refl eq_refl).
  change (reads (matched_keys_prog pod ≫= λ keys, match keys with
    | inl keys => configs ← call (ReadPlugins keys); mret (inl configs) | inr err => mret (inr err) end)).
  eapply (reads_bind (λ _, True)); [|intros [keys|err] _; [done|by exists err]].
  unfold matched_keys_prog. split; [done|]. intros l Hl. cbn [prog_bind mret prog_mret]. destruct l as [configs|err]; [|done].
  eapply upholds_mono; [|apply (match_configs_upholds genuine pod config s may_any (λ a x H, H)); [done|intros j Hj; by eapply Hl]]. done.
Qed.

Definition reading r (p : prog (list PodPluginConfig + error)) : Prop :=
  reads p ∨ ∃ answer, p = Done (Ret (inl answer)) ∧ forgotten r answer.

Lemma perform_reads c r p r' effs p' :
  answering c → selectors_ok r → caches_ok genuine r → reads p → advance c r p = Some (Ret (r', effs, p')) → reading r' p'.
Proof.
  intros Hc Hs Hr Hp (a & k & x & -> & -> & Hperf)%advance_Some.
  pose proof (perform_may_any _ _ _ _ c r a r' effs x Hc Hs Hperf) as Hx.
  destruct a; cbn [reads] in *; try (left; by apply Hp).
  right. exists x. split; [done|]. cbn [perform] in Hperf. injection Hperf as <- _ <-. intros Hno conf Hin Hname.
  apply cached_configs_in in Hin as (key & Hkey). destruct Hr as [_ Hg]. destruct (Hg key conf Hkey) as (i & _ & -> & ->).
  cbn in Hname. apply bool_decide_eq_false in Hno. apply Hno. rewrite <- Hname. by eexists.
Qed.

(** ** The instance *)

Definition deletion_protocol : protocol := {|
  P_ok := λ r, selectors_ok r ∧ (has_plugins r = true → has_selector r);
  P_agrees := forgotten;
  P_bound := λ r p, soon p ∧ has_selector r;
  P_same := same_entry;
  P_worker := worker_forgets;
  P_other := λ A p, upholds harmless may_any (λ _, True) p;
  P_query := reading
|}.

(** The configuration has a key of the pod's namespace. *)
Definition namespaced : Prop := ∀ ns name, ns +:+ "/" +:+ name = config → ns = Pod_Namespace pod.

Lemma same_entry_selector r r' : same_entry r r' → has_selector r → has_selector r'.
Proof. by intros [_ Hs]. Qed.

Lemma deletion_laws cok : (∀ c, cok c → answering c) → steady → namespaced →
  protocol_laws genuine cok self pod config deletion_protocol.
Proof.
  intros Hcok Hst Hns. split; cbn [P_ok P_agrees P_bound P_same P_worker P_other P_query deletion_protocol].
  - intros c Hc. by apply Hcok.
  - intros r Hr Hp. split; [intros k sel; rewrite Hr; by intros ?%lookup_empty_Some|].
    unfold has_plugins. rewrite Hp, lookup_empty. by intros Hb%bool_decide_eq_true; destruct Hb.
  - done.
  - intros r r' Hsame. pose proof (same_entry_selector r r' Hsame) as Hsel. pose proof (has_plugins_same r r' Hsame) as Hpl.
    split_and!.
    + intros answer. unfold forgotten. by rewrite Hpl.
    + intros p (sel & ? & ? & ?). exists sel. rewrite Hpl. auto.
    + intros p []. auto.
    + intros p. unfold reading, forgotten. by rewrite Hpl.
  - intros A p c r r' effs p' Hc [Hs Hpl] _ Hp Hadv.
    destruct (advance_upholds config s may_any (λ _, True) c r p r' effs p') as (? & Hsame & ?); [|done..|].
    { intros a x Hperf. eapply perform_may_any; [by apply Hcok|exact Hs|exact Hperf]. }
    split_and!; [done| |done|done]. rewrite (has_plugins_same r r' Hsame). intros Ht. by eapply same_entry_selector, Hpl.
  - intros p c r r' effs p' Hc [Hs Hpl] _ Hself (sel & Hsel & Himp & Hp) Hadv.
    apply advance_Some in Hadv as (a & k & x & -> & -> & Hperf).
    destruct (perform_forgets c r a k r' effs x sel (Hcok c Hc) Hs Hsel Himp Hp Hperf) as (Hs' & (sel' & Hsel' & Himp' & Hp') & Hchange).
    assert (∀ answer, forgotten r answer → forgotten r' answer ∨ soon (k x) ∧ has_selector r') as Hforgotten.
    { intros answer Hfor. destruct (has_plugins r') eqn:Hpl'; [left; intros Hno; congruence|].
      destruct (Hchange eq_refl) as [Hno|]; [|by right]. left. intros _. by apply Hfor. }
    split_and!; [done|auto|by exists sel'|done| |].
    + intros q [Hr|(answer & -> & Hfor)]; [by left; left|].
      destruct (Hforgotten answer Hfor); [left; right; by exists answer|by right].
    + intros [Hsoon Hhas]. exact (perform_soon c r a k r' effs x (Hcok c Hc) Hs Hself Hhas Hsoon Hperf).
  - intros r p Hend [Hsoon _]. destruct p as [[a|why]|a k]; done.
  - intros p c r r' effs p' Hc [Hs _] Hcaches _ [Hr|(answer & -> & _)] Hadv; [|done].
    exact (perform_reads c r p r' effs p' (Hcok c Hc) Hs Hcaches Hr Hadv).
  - by intros r answer [[err [=]]|(answer' & [= <-] & Hfor)].
  - intros r ns name [Hs Hpl] _ Hk. exists (has_plugins r). split_and!; [done|done|]. apply Reconcile_forgets; [done..|by eapply Hns].
  - intros ns name Hne. by apply (Reconcile_upholds genuine pod config s may_any (λ a x H, H)).
  - by intros ns names.
  - intros key. by apply (GetPodPluginConfigs_upholds genuine pod config s may_any (λ a x H, H)).
  - intros r _. left. by apply GetPodPluginConfigs_reads.
Qed.

(** ** After the deletion *)

(** The resource is gone. *)
Record gone c : Prop := {
  GN_answers : answering c;
  GN_gone : ∀ ns name, ns +:+ "/" +:+ name = config → ∃ err, get_config c ns name = inr err ∧ IsNotFound err = true
}.

Definition missing (a : access) (x : result a) : Prop :=
  may_any a x ∧
  match a return result a → Prop with
  | GetConfig ns name => λ res, ns +:+ "/" +:+ name = config → ∃ err, res = inr err ∧ IsNotFound err = true
  | _ => λ _, True
  end x.

(** The worker that reconciles the deletion: when it ends, the plugins are
    gone. *)
Fixpoint erases {A} (pl : bool) (p : prog A) : Prop :=
  match p with
  | Done _ => pl = false
  | Access a k =>
      match a return (result a → prog A) → (result a → Prop) → Prop with
      | SetPlugins key _ => λ k rest, key ≠ config ∧ ∀ x, erases pl (k x)
      | DeletePlugins key => λ k rest, ∀ x, erases (if decide (key = config) then false else pl) (k x)
      | _ => λ k rest, ∀ x, rest x → erases pl (k x)
      end k (missing a)
  end.

Lemma perform_erases c r a {A} (k : result a → prog A) r' effs x :
  gone c → selectors_ok r → erases (has_plugins r) (Access a k) → perform c r a = Ret (r', effs, x) →
  erases (has_plugins r') (k x).
Proof.
  intros Hc Hs Hp Hperf.
  assert (missing a x) as Hx.
  { split; [eapply perform_may_any; [by apply Hc|done..]|]. destruct a; try done. cbn [perform] in Hperf. injection Hperf as _ _ <-.
    by apply (GN_gone c Hc). }
  destruct a as [key|key val|key|key|key conf|key|keys|ns names|ns name|ns name|ns val|ns|conf];
    cbn [perform erases] in *; try (injection Hperf as <- _ <-); try (apply bind_ret in Hperf as (res & _ & [= <- _ <-]));
    try (exact (Hp _ Hx)).
  - destruct Hp as [Hne Hp]. specialize (Hp tt). unfold has_plugins in *. cbn. by rewrite lookup_insert_ne.
  - specialize (Hp tt). unfold has_plugins in *. cbn. destruct (decide (key = config)) as [->|Hne].
    + rewrite lookup_delete_eq. rewrite bool_decide_false by (by intros []). done.
    + by rewrite lookup_delete_ne.
Qed.

#[local] Tactic Notation "advances" :=
  lazymatch goal with |- erases ?pl (call ?a ≫= ?f) => change (erases pl (Access a f)) end; cbn [erases].

Lemma Reconcile_erases ns name pl : ns +:+ "/" +:+ name = config → erases pl (Reconcile_prog ns name).
Proof.
  intros Hk. unfold Reconcile_prog. advances. intros res [_ Hres]. rewrite NamespacedName_String_eq, Hk.
  destruct (Hres Hk) as (err & -> & Herr). rewrite Herr.
  unfold reconcile_deleted_prog. advances. intros x. rewrite decide_True by done.
  advances. intros old _. destruct old as [old|]; [|advances; by intros y _].
  advances. intros pods _. destruct pods as [pods|err']; [|done]. advances. intros y _. advances. by intros z _.
Qed.

Definition deletion_aim : aim := {|
  A_reached := λ r, has_plugins r = false;
  A_on_course := λ r p, erases (has_plugins r) p
|}.

Lemma deletion_aim_laws : aim_laws genuine gone config deletion_protocol deletion_aim.
Proof.
  split; cbn [A_reached A_on_course P_same P_ok deletion_protocol deletion_aim].
  - intros r r' Hsame%has_plugins_same. by rewrite Hsame.
  - intros p c r r' effs p' Hc [Hs _] _ Hp Hadv. apply advance_Some in Hadv as (a & k & x & -> & -> & Hperf).
    by eapply (perform_erases c).
  - intros r p Hend Hp. by destruct p.
  - intros r ns name _ _ Hk. by apply Reconcile_erases.
Qed.

Abbreviation server_inv := (server_inv genuine self pod config deletion_protocol).
Abbreviation current := (current config deletion_protocol).
Abbreviation eventually := (eventually (internal_step gone self)).

(** The registered stream of the pod is left without the configuration. *)
Record withdrawn v : Prop := {
  WD_threads : V_threads v = ∅;
  WD_stopped : V_stopped v = true → V_streams v = ∅;
  WD_plugins : R_pluginsCache (V_reconciler v) !! config = None;
  WD_streams : ∀ id st, V_streams v !! id = Some (pod_key, st) → notified_stream pod v id →
    ∃ last, st = Idle last ∧ ∀ conf, conf ∈ last → PPC_Name conf ≠ config
}.

Lemma settled_withdrawn v : settled pod deletion_protocol v → has_plugins (V_reconciler v) = false → withdrawn v.
Proof.
  intros (Ht & Hstop & Hs) Hno. split; [done..| |].
  - apply eq_None_not_Some. by apply bool_decide_eq_false in Hno.
  - intros id st Hid Hn. destruct (Hs id pod_key st Hid) as (last & -> & Hlast). exists last. split; [done|]. by apply Hlast.
Qed.

(** C7. A deletion reaches the stream that is registered for the pod (see
    [updates_converge]: every stream of the pod, as long as no pod opens a
    second one while it has one).  The listers answer, the pod and its labels
    stay, and every version of the configuration is in the pod's namespace, has
    the same selector, which matches the pod, and lists no plugin twice.  Under
    these conditions it may be created, updated, deleted and created again, in
    any order, and whatever else happens in the cluster; the workers, the pod
    handlers and the streams interleave access by access.  Whenever the
    controller holds no plugins of the configuration, that stream, when it waits
    in its loop, has last sent an answer without the configuration, or a sender
    waits for it, or the worker that erased them still knows the selector and is
    going to notify it.  And once the resource is gone and a worker reconciles
    its key, the goroutines come to rest under any scheduling with the
    configuration's plugins out of the cache and out of the last answer of that
    stream. *)
Theorem deletion_converges subs v :
  steady → namespaced → self ∈ subs → rtc (served_step answering self) (new_server subs) v →
  (∀ id last, V_streams v !! id = Some (pod_key, Idle last) → notified_stream pod v id → current v id last) ∧
  (∀ c i ns name, gone c → ns +:+ "/" +:+ name = config →
    V_threads v !! i = Some (Worker config (Reconcile_prog ns name)) → eventually withdrawn v).
Proof.
  intros Hst Hns Hin Hreach. pose proof (deletion_laws answering (λ c Hc, Hc) Hst Hns) as HLa.
  pose proof (deletion_laws gone GN_answers Hst Hns) as HL. apply (reachable_inv _ _ _ _ _ _ HLa) in Hreach as Hinv; [|done].
  split; [intros id last; exact (protocol_current _ _ _ _ _ v id last Hinv)|].
  intros c i ns name Hc Hk Hi. pose proof (started_aiming genuine gone self pod config _ _ deletion_aim_laws v i ns name Hinv Hk Hi) as Haim.
  eapply eventually_mono; [|by apply (aim_settles _ _ _ _ _ _ _ HL deletion_aim_laws v c)].
  intros v' []. by apply settled_withdrawn.
Qed.
End Deletion.

(** ** Witness: a configuration is cached, then deleted *)

Section Witnesses.
#[local] Existing Instance k8s_example.
#[local] Existing Instance map_order.

(** At most [n] accesses of a worker. *)
Fixpoint worked (n : nat) (c : cluster) (self i : nat) (key : string) (p : prog (option error)) (v : server) : server :=
  match n with
  | O => v
  | S n =>
      match advance c (V_reconciler v) p with
      | Some (Ret (r', effs, p')) =>
          worked n c self i key p' (deliver self (with_thread v r' (<[i := Worker key p']> (V_threads v))) effs)
      | _ => v
      end
  end.

Lemma worked_steps (cok : cluster → Prop) n c self i key p v :
  cok c → V_threads v !! i = Some (Worker key p) → rtc (served_step cok self) v (worked n c self i key p v).
Proof.
  intros Hc. revert p v. induction n as [|n IH]; intros p v Hi; [done|]. cbn [worked].
  destruct (advance c (V_reconciler v) p) as [[[[r' effs] p']|why]|] eqn:Hadv; [|done..].
  eapply rtc_l; [left; by eapply SrvWorker|]. apply IH. rewrite deliver_eq. cbn. by rewrite lookup_insert_eq.
Qed.

Definition no_config : cluster := {|
  get_config := λ ns name, inr (Errorf "not found");
  get_pod := get_pod (example_cluster web_resource);
  list_pods_of := list_pods_of (example_cluster web_resource);
  list_configs := λ ns, Ret (inl []);
  clock := 1
|}.

Lemma no_config_gone : gone web_only example_pod "default/conf" no_config.
Proof.
  destruct example_answering as [[] Hpod Hpods _]. split; [split|].
  - by split.
  - done.
  - done.
  - by intros ns l i [= <-] ?%elem_of_nil.
  - intros ns name _. eexists. split; [reflexivity|by vm_compute].
Qed.

(** The agent is connected, the configuration has been cached, and its deletion
    is reconciled. *)
Definition cached_state : server :=
  worked 20 (example_cluster web_resource) 7 0 "default/conf" (Reconcile_prog "default" "conf") both_started.

Definition again (v : server) : server :=
  let v := with_thread v (V_reconciler v) (delete 0%nat (V_threads v)) in
  with_thread v (V_reconciler v) (<[0%nat := Worker "default/conf" (Reconcile_prog "default" "conf")]> (V_threads v)).

Definition deleted_state : server := again cached_state.

Lemma again_steps cok self v :
  match V_threads v !! 0%nat with Some t => thread_ended t = true | None => False end →
  delete 0%nat (V_threads v) = ∅ → rtc (served_step cok self) v (again v).
Proof.
  intros Hend Halone. destruct (V_threads v !! 0%nat) as [t|] eqn:Ht; [|done].
  eapply rtc_l; [left; by apply (SrvEnd _ _ _ 0 t)|]. apply rtc_once. right.
  apply (SrvReconcile (with_thread v (V_reconciler v) (delete 0%nat (V_threads v))) 0%nat "default" "conf").
  - cbn [with_thread V_threads]. by rewrite Halone.
  - intros j p. cbn [with_thread V_threads]. rewrite Halone. by rewrite lookup_empty.
Qed.

Lemma cached_state_ended :
  match V_threads cached_state !! 0%nat with Some t => thread_ended t = true | None => False end.
Proof. by vm_compute. Qed.

Lemma cached_state_alone : delete 0%nat (V_threads cached_state) = ∅.
Proof. apply map_size_empty_inv. vm_compute. reflexivity. Qed.

Lemma deleted_state_reached cok :
  cok (example_cluster web_resource) → rtc (served_step cok 7%nat) (new_server [7%nat]) deleted_state.
Proof.
  intros Hc. eapply rtc_l; [right; apply (SrvOpen _ "default/web")|].
  eapply rtc_l; [right; exact (SrvReconcile (open_served (new_server [7%nat]) "default/web") 0%nat "default" "conf" eq_refl (λ j p Hj, ltac:(done)))|].
  trans cached_state; [|exact (again_steps cok 7%nat cached_state cached_state_ended cached_state_alone)].
  unfold cached_state. by apply worked_steps; [|apply lookup_insert_eq].
Qed.

Lemma deletion_converges_witness :
  is_Some (R_pluginsCache (V_reconciler deleted_state) !! "default/conf") ∧
  eventually (internal_step (gone web_only example_pod "default/conf") 7%nat) (withdrawn example_pod "default/conf") deleted_state.
Proof.
  split; [eexists; by vm_compute|].
  refine (proj2 (deletion_converges web_only 7%nat example_pod "default/conf" web_selector [7%nat] deleted_state
    example_steady _ _ _) no_config 0%nat "default" "conf" no_config_gone eq_refl _).
  - by intros ns name [-> _]%default_conf_eq.
  - by left.
  - apply deleted_state_reached, example_answering.
  - apply lookup_insert_eq.
Defined.
End Witnesses.
