(* ===== verification/WorkQueue.v ===== *)
(** * The work queue of the controller

    The worker of controller-runtime takes the reconciler's requests from a
    queue, one after the other; the queue keeps a request once however often it
    is added, and a request that is added while it is being processed is
    processed again.  With it in place of the freely started workers of
    Server.v, the controller is level-triggered: when a request is due, what
    the cluster holds by then is what the pods get, whatever happened before. *)

From stdpp Require Import relations.
From S2P Require Import Prelude GoStrings StringSet ControllerTypes ControllerUtils SelectorCache Reconciler.
From S2P Require Import Interleaving AmeshPlugins GrpcServer Steady Server Notification Aim.
Local Open Scope Z_scope.

(** ** The queue of client-go, and what it promises *)

(** A request is the namespace and the name of a resource. *)
Definition request : Type := string * string.

#[export] Instance request_eq_dec : EqDecision request := _.
#[export] Instance request_countable : Countable request := _.

Class WorkQueue := {
  queue : Type;
  new_queue : queue;
  wq_Add : request → queue → queue;
  wq_Get : queue → option (request * queue);      (** [None]: the call blocks *)
  wq_Done : request → queue → queue
}.

(** Its content: the requests that are due and those that are being processed. *)
Class WorkQueueLaws `{WorkQueue} := {
  wq_due : queue → gset request;
  wq_busy : queue → gset request;
  wq_new_spec : wq_due new_queue = ∅ ∧ wq_busy new_queue = ∅;
  wq_Add_spec : ∀ x q, wq_due (wq_Add x q) = {[x]} ∪ wq_due q ∧ wq_busy (wq_Add x q) = wq_busy q;
  wq_Get_spec : ∀ x q q', wq_Get q = Some (x, q') →
    x ∈ wq_due q ∧ (x ∉ wq_busy q) ∧ wq_due q' = wq_due q ∖ {[x]} ∧ wq_busy q' = {[x]} ∪ wq_busy q;
  wq_Get_ready : ∀ x q, x ∈ wq_due q → x ∉ wq_busy q → is_Some (wq_Get q);
  wq_Done_spec : ∀ x q, wq_due (wq_Done x q) = wq_due q ∧ wq_busy (wq_Done x q) = wq_busy q ∖ {[x]}
}.

(** ** The controller *)

Section Controller.
Context `{GoRange} `{!K8sLib} `{!K8sLaws} `{!WorkQueue} `{!WorkQueueLaws}.
Implicit Types (r : AmeshPluginConfigReconciler) (c : cluster) (v : server) (x : request).

(** The server, the queue, and what the worker's goroutine is processing. *)
Record controller := mkController {
  C_server : server;
  C_queue : queue;
  C_current : option request
}.

Implicit Types (st : controller).

Definition new_controller (subs : list nat) : controller := mkController (new_server subs) new_queue None.

Definition is_worker (t : thread) : bool := match t with Worker _ _ => true | _ => false end.
Definition worker_at v (i : nat) : bool := match V_threads v !! i with Some t => is_worker t | None => false end.
Definition same_workers v v' : Prop := ∀ i, worker_at v' i = worker_at v i.

(** The start of [Reconcile] on a request. *)
Definition start_worker v (i : nat) x : server :=
  with_thread v (V_reconciler v) (<[i := Worker (NamespacedName_String x.1 x.2) (Reconcile_prog x.1 x.2)]> (V_threads v)).

Section Steps.
Context (cok : cluster → Prop) (self : nat).

(** The controller's own steps. *)
Inductive working st : controller → Prop :=
| CtlMove v' :
    internal_step cok self (C_server st) v' → same_workers (C_server st) v' →
    working st (mkController v' (C_queue st) (C_current st))
| CtlGet i x q' :
    C_current st = None → wq_Get (C_queue st) = Some (x, q') → V_threads (C_server st) !! i = None →
    working st (mkController (start_worker (C_server st) i x) q' (Some x))
| CtlDone i key res x :
    C_current st = Some x → V_threads (C_server st) !! i = Some (Worker key (Done (Ret res))) →
    working st (mkController (with_thread (C_server st) (V_reconciler (C_server st)) (delete i (V_threads (C_server st))))
      (wq_Done x (C_queue st)) None).

(** What comes from outside: a request is added, by an event or after the delay
    of a retry; pods, agents and the stop signal as in Server.v. *)
Inductive arriving st : controller → Prop :=
| CtlAdd x : arriving st (mkController (C_server st) (wq_Add x (C_queue st)) (C_current st))
| CtlOutside v' :
    external_step (C_server st) v' → same_workers (C_server st) v' →
    arriving st (mkController v' (C_queue st) (C_current st)).

Definition controller_step st st' : Prop := working st st' ∨ arriving st st'.

(** There is one worker while a request is processed, and none otherwise. *)
Record controller_inv st : Prop := {
  CI_busy : wq_busy (C_queue st) = match C_current st with Some x => {[x]} | None => ∅ end;
  CI_worker : match C_current st with
    | Some _ => ∃ i, ∀ j, worker_at (C_server st) j = bool_decide (i = j)
    | None => ∀ j, worker_at (C_server st) j = false
    end
}.

Lemma worker_at_true v i : worker_at v i = true ↔ ∃ key p, V_threads v !! i = Some (Worker key p).
Proof. unfold worker_at. destruct (V_threads v !! i) as [[]|]; cbn; naive_solver. Qed.

Lemma no_worker v : (∀ j, worker_at v j = false) → ∀ j key p, V_threads v !! j ≠ Some (Worker key p).
Proof. intros Hno j key p Hj. specialize (Hno j). unfold worker_at in Hno. by rewrite Hj in Hno. Qed.

Lemma new_controller_inv subs : controller_inv (new_controller subs).
Proof. split; cbn; [by apply wq_new_spec|]. intros j. unfold worker_at. cbn. by rewrite lookup_empty. Qed.

Lemma working_inv st st' : working st st' → controller_inv st → controller_inv st'.
Proof.
  intros Hstep [Hbusy Hw]. destruct Hstep as [v' _ Hsame|i x q' Hcur Hget Hi|i key res x Hcur Hi].
  - split; [done|]. cbn. destruct (C_current st); [destruct Hw as [i Hi]; exists i|]; intros j; by rewrite Hsame.
  - rewrite Hcur in Hbusy, Hw. apply wq_Get_spec in Hget as (_ & _ & _ & Hq). split; cbn.
    + by rewrite Hq, Hbusy, union_empty_r_L.
    + exists i. intros j. unfold worker_at in *. cbn. destruct (decide (i = j)) as [->|Hne].
      * rewrite lookup_insert_eq. symmetry. by apply bool_decide_eq_true.
      * rewrite lookup_insert_ne by done. rewrite Hw. symmetry. by apply bool_decide_eq_false.
  - rewrite Hcur in Hbusy, Hw. destruct Hw as [i' Hw]. assert (i' = i) as ->.
    { specialize (Hw i). unfold worker_at in Hw. rewrite Hi in Hw. symmetry in Hw. by apply bool_decide_eq_true in Hw. }
    split; cbn.
    + destruct (wq_Done_spec x (C_queue st)) as [_ ->]. rewrite Hbusy. set_solver.
    + intros j. unfold worker_at in *. cbn. destruct (decide (i = j)) as [->|Hne]; [by rewrite lookup_delete_eq|].
      rewrite lookup_delete_ne by done. rewrite Hw. by apply bool_decide_eq_false.
Qed.

Lemma controller_step_inv st st' : controller_step st st' → controller_inv st → controller_inv st'.
Proof.
  intros [Hstep|Hstep]; [by apply working_inv|]. intros [Hbusy Hw]. destruct Hstep as [x|v' _ Hsame].
  - split; [|done]. cbn. destruct (wq_Add_spec x (C_queue st)) as [_ ->]. done.
  - split; [done|]. cbn. destruct (C_current st); [destruct Hw as [i Hi]; exists i|]; intros j; by rewrite Hsame.
Qed.

(** ** It is the system of Server.v *)

Lemma started_step v i x :
  (∀ j, worker_at v j = false) → V_threads v !! i = None → external_step v (start_worker v i x).
Proof. intros Hno Hi. apply SrvReconcile; [done|]. intros j p. by apply no_worker. Qed.

Lemma working_served st st' :
  working st st' → controller_inv st → rtc (served_step cok self) (C_server st) (C_server st').
Proof.
  intros Hstep [_ Hw]. apply rtc_once. destruct Hstep as [v' Hint _|i x q' Hcur Hget Hi|i key res x Hcur Hi]; cbn.
  - by left.
  - right. rewrite Hcur in Hw. by apply started_step.
  - left. by eapply SrvEnd.
Qed.

Lemma controller_served st st' :
  rtc controller_step st st' → controller_inv st →
  controller_inv st' ∧ rtc (served_step cok self) (C_server st) (C_server st').
Proof.
  induction 1 as [st|st1 st2 st3 Hstep _ IH]; intros Hinv; [done|].
  destruct IH as [Hinv3 Hrtc]; [by eapply controller_step_inv|]. split; [done|]. etrans; [|exact Hrtc].
  destruct Hstep as [Hstep|[x|v' Hext _]]; [by apply working_served|done|]. apply rtc_once. by right.
Qed.

(** ** Its own steps end *)

Lemma working_decreases st st' : working st st' →
  (size (wq_due (C_queue st')) < size (wq_due (C_queue st)))%nat ∨
  wq_due (C_queue st') = wq_due (C_queue st) ∧ internal_step cok self (C_server st) (C_server st').
Proof.
  destruct 1 as [v' Hint _|i x q' Hcur Hget Hi|i key res x Hcur Hi]; cbn.
  - by right.
  - left. apply wq_Get_spec in Hget as (Hin & _ & -> & _). apply subset_size. set_solver.
  - right. destruct (wq_Done_spec x (C_queue st)) as [-> _]. split; [done|]. by eapply SrvEnd.
Qed.

Lemma working_terminates st : Acc (flip working) st.
Proof.
  remember (size (wq_due (C_queue st))) as n eqn:Hn. revert st Hn. induction (lt_wf n) as [n _ IHn]. intros st ->.
  remember (C_server st) as v eqn:Hv. remember (size (wq_due (C_queue st))) as n eqn:Hn. revert st Hv Hn.
  induction (internal_terminates cok self v) as [v _ IHv]. intros st -> ->. constructor.
  intros st' [Hlt|[Hdue Hint]]%working_decreases; [by eapply IHn|].
  eapply IHv; [exact Hint|done|by rewrite Hdue].
Qed.
End Steps.

(** ** What is due is done *)

Section Due.
Context (genuine : AmeshPluginConfigResource → Prop) (cok : cluster → Prop) (self : nat) (pod : Pod) (config : string).
Context (P : protocol) (L : protocol_laws genuine cok self pod config P).

Abbreviation server_inv := (server_inv genuine self pod config P).

(** A step of the goroutines leaves the worker at work, or ends it. *)
Lemma internal_workers v v' : internal_step cok self v v' →
  same_workers v v' ∨ ∃ i key res, V_threads v !! i = Some (Worker key (Done (Ret res))).
Proof.
  assert (∀ r' i t t', V_threads v !! i = Some t → is_worker t' = is_worker t →
    same_workers v (with_thread v r' (<[i := t']> (V_threads v)))) as Hins.
  { intros r' i t t' Hi Ht j. unfold worker_at. cbn. destruct (decide (i = j)) as [->|Hne].
    - by rewrite lookup_insert_eq, Hi.
    - by rewrite lookup_insert_ne. }
  destruct 1 as [c i key p r' effs p' Hc Hi Hadv|c i p r' effs p' Hc Hi Hadv|i t Hi Hend|c id key p r' effs p' Hc Hid Hadv
    |id key answer Hid|id key res Hid|id key last Hid Hin|id key last Hid Hstop]; rewrite ?deliver_eq; try (by left).
  - left. by apply (Hins r' i (Worker key p)).
  - left. by apply (Hins r' i (PodHandler p)).
  - destruct t as [key [[res|why]|a k]|p|p]; try done; [right; by eexists _, _, _|left..];
      intros j; unfold worker_at; cbn; (destruct (decide (i = j)) as [->|Hne];
        [by rewrite lookup_delete_eq, Hi|by rewrite lookup_delete_ne]).
Qed.

(** Nothing is left to do. *)
Record at_rest st : Prop := {
  AR_settled : settled pod P (C_server st);
  AR_due : wq_due (C_queue st) = ∅;
  AR_current : C_current st = None
}.

Lemma current_at_work st x : C_current st = Some x → controller_inv st → V_threads (C_server st) ≠ ∅.
Proof.
  intros Hcur [_ Hw] Ht. rewrite Hcur in Hw. destruct Hw as [i Hi]. specialize (Hi i). unfold worker_at in Hi.
  rewrite Ht, lookup_empty in Hi. symmetry in Hi. by apply bool_decide_eq_false in Hi.
Qed.

Lemma controller_progress st c :
  cok c → controller_inv st → server_inv (C_server st) → at_rest st ∨ ∃ st', working cok self st st'.
Proof.
  intros Hc Hctl Hinv. destruct (progress _ _ _ _ _ _ L c (C_server st) Hc Hinv) as [Hset|[v' Hint]].
  - destruct (C_current st) as [x|] eqn:Hcur; [by destruct (current_at_work st x Hcur Hctl), Hset|].
    destruct (set_choose_or_empty (wq_due (C_queue st))) as [[x Hx]|Hnone]; [|left; split; [done|by apply leibniz_equiv|done]].
    right. destruct Hctl as [Hbusy _]. rewrite Hcur in Hbusy.
    destruct (wq_Get_ready x (C_queue st) Hx) as [[y q'] Hget]; [rewrite Hbusy; set_solver|].
    eexists. apply (CtlGet _ _ st 0 y q'); [done..|]. destruct Hset as [-> _]. apply lookup_empty.
  - right. destruct (internal_workers _ _ Hint) as [Hsame|(i & key & res & Hi)]; [eexists; by eapply CtlMove|].
    destruct (C_current st) as [x|] eqn:Hcur; [eexists; by eapply CtlDone|].
    destruct Hctl as [_ Hw]. rewrite Hcur in Hw. by destruct (no_worker _ Hw i key (Done (Ret res))).
Qed.

Lemma working_server_inv st st' :
  working cok self st st' → controller_inv st → server_inv (C_server st) → server_inv (C_server st').
Proof.
  intros Hstep Hctl. eapply (steps_inv _ _ _ _ _ _ L). by eapply working_served.
Qed.

(** ** The aim of a request *)

Context (A : aim) (LA : aim_laws genuine cok config P A).
Abbreviation aiming := (aiming config A).

(** The request is due, or its worker is on course. *)
Definition due_or_aiming (x : request) st : Prop := x ∈ wq_due (C_queue st) ∨ aiming (C_server st).

Lemma started_other v i x :
  V_threads v !! i = None → x.1 +:+ "/" +:+ x.2 ≠ config → aiming v → aiming (start_worker v i x).
Proof.
  intros Hi Hne. apply (aiming_other genuine cok config P A LA); [apply (PL_refl _ _ _ _ _ _ L)|].
  intros j p. cbn. destruct (decide (i = j)) as [->|Hij]; [|by rewrite lookup_insert_ne].
  rewrite lookup_insert_eq, Hi, NamespacedName_String_eq. split; [done|]. by intros [= Heq _].
Qed.

Lemma due_step x st st' :
  x.1 +:+ "/" +:+ x.2 = config → working cok self st st' → controller_inv st → server_inv (C_server st) →
  due_or_aiming x st → due_or_aiming x st'.
Proof.
  intros Hk Hstep Hctl Hinv Hx. pose proof (working_server_inv st st' Hstep Hctl Hinv) as Hinv'. unfold due_or_aiming in *.
  destruct Hstep as [v' Hint _|i y q' Hcur Hget Hi|i key res y Hcur Hi]; cbn [C_queue C_server] in *.
  - destruct Hx as [|Ha]; [by left|right]. by eapply (aiming_step _ _ _ _ _ _ _ L LA).
  - apply wq_Get_spec in Hget as (_ & _ & -> & _). destruct (decide (y.1 +:+ "/" +:+ y.2 = config)) as [Hy|Hy].
    + right. eapply (started_aiming _ _ _ _ _ _ _ LA _ i); [done|exact Hy|].
      cbn. by rewrite lookup_insert_eq, NamespacedName_String_eq, Hy.
    + destruct Hx as [Hx|Ha]; [left|right; by apply started_other]. apply elem_of_difference. split; [done|].
      intros ->%elem_of_singleton. done.
  - destruct (wq_Done_spec y (C_queue st)) as [-> _]. destruct Hx as [|Ha]; [by left|right].
    eapply (aiming_step _ _ _ _ _ _ _ L LA); [by eapply SrvEnd|done..].
Qed.

(** When the request is due, the controller comes to rest with its aim reached. *)
Lemma due_settles x st c :
  cok c → x.1 +:+ "/" +:+ x.2 = config → controller_inv st → server_inv (C_server st) → due_or_aiming x st →
  eventually (working cok self) (λ st, at_rest st ∧ A_reached A (V_reconciler (C_server st))) st.
Proof.
  intros Hc Hk Hctl Hinv Hx.
  set (I := λ st, controller_inv st ∧ server_inv (C_server st) ∧ due_or_aiming x st).
  assert (∀ st st', working cok self st st' → I st → I st') as HI.
  { intros st1 st2 Hstep (Hctl1 & Hinv1 & Hx1).
    split_and!; [by eapply working_inv|by eapply working_server_inv|by eapply due_step]. }
  eapply eventually_mono; [|eapply (eventually_inv _ I at_rest); [exact HI| |done]].
  - intros st' [[Hset Hdue Hcur] (_ & _ & [Hin|Ha])]; [rewrite Hdue in Hin; set_solver|].
    split; [done|]. apply (aiming_reached config A); [apply Hset|done].
  - apply (eventually_wf _ I); [exact HI| |done|apply working_terminates].
    intros st' (Hctl' & Hinv' & _). by eapply controller_progress.
Qed.
End Due.
End Controller.

(** ** A queue that keeps the promises *)

(** The due requests in order, each once, and those being processed. *)
Record fifo := mkFifo {
  F_order : list request;
  F_processing : gset request
}.

Definition fifo_Add (x : request) (q : fifo) : fifo :=
  if decide (x ∈ F_order q) then q else mkFifo (F_order q ++ [x]) (F_processing q).

Definition fifo_Get (q : fifo) : option (request * fifo) :=
  match list_find (λ x, x ∉ F_processing q) (F_order q) with
  | Some (_, x) => Some (x, mkFifo (filter (λ y, y ≠ x) (F_order q)) ({[x]} ∪ F_processing q))
  | None => None
  end.

Definition fifo_Done (x : request) (q : fifo) : fifo := mkFifo (F_order q) (F_processing q ∖ {[x]}).

Definition fifo_queue : WorkQueue := {|
  queue := fifo;
  new_queue := mkFifo [] ∅;
  wq_Add := fifo_Add;
  wq_Get := fifo_Get;
  wq_Done := fifo_Done
|}.

Definition fifo_due (q : fifo) : gset request := list_to_set (F_order q).

Lemma fifo_Add_spec x q :
  fifo_due (fifo_Add x q) = {[x]} ∪ fifo_due q ∧ F_processing (fifo_Add x q) = F_processing q.
Proof. unfold fifo_Add, fifo_due. destruct (decide (x ∈ F_order q)); cbn; set_solver. Qed.

Lemma fifo_Get_spec x q q' : fifo_Get q = Some (x, q') →
  x ∈ fifo_due q ∧ (x ∉ F_processing q) ∧ fifo_due q' = fifo_due q ∖ {[x]} ∧ F_processing q' = {[x]} ∪ F_processing q.
Proof.
  unfold fifo_Get, fifo_due. destruct (list_find _ _) as [[i y]|] eqn:Hf; [|done]. intros [= <- <-].
  apply list_find_Some in Hf as (Hi & Hb & _). apply list_elem_of_lookup_2 in Hi. cbn. split_and!; [set_solver|done| |done].
  apply set_eq. intros z. rewrite elem_of_difference, !elem_of_list_to_set, list_elem_of_filter. set_solver.
Qed.

Lemma fifo_Get_ready x q : x ∈ fifo_due q → x ∉ F_processing q → is_Some (fifo_Get q).
Proof.
  intros Hx%elem_of_list_to_set Hb. unfold fifo_Get.
  destruct (list_find_elem_of (λ y, y ∉ F_processing q) (F_order q) x Hx Hb) as [[i y] ->]. by eexists.
Qed.

#[export] Instance fifo_laws : @WorkQueueLaws fifo_queue := {|
  wq_due := (fifo_due : @queue fifo_queue → gset request);
  wq_busy := (F_processing : @queue fifo_queue → gset request);
  wq_new_spec := conj eq_refl eq_refl;
  wq_Add_spec := fifo_Add_spec;
  wq_Get_spec := fifo_Get_spec;
  wq_Get_ready := fifo_Get_ready;
  wq_Done_spec := λ x q, conj eq_refl eq_refl
|}.
