(* ===== verification/Arrival.v ===== *)
(** * What is requested arrives at the pods

    The controller with its work queue (WorkQueue.v), end to end: once a request
    for a configuration is due, the streams of a pod that it selects end up with
    the plugins of the resource as the cluster holds it by then, or without the
    configuration when the resource is gone.  The update's aim is here, the
    deletion's in Deletion.v. *)

From stdpp Require Import relations.
From S2P Require Import Prelude GoStrings StringSet ControllerTypes ControllerUtils SelectorCache Reconciler.
From S2P Require Import Interleaving GrpcServer Steady Server Notification.
From S2P Require Import Aim WorkQueue Convergence Deletion.
Local Open Scope Z_scope.

Section Arrival.
Context `{GoRange} `{!K8sLib} `{!K8sLaws} `{!WorkQueue} `{!WorkQueueLaws}.
Context (genuine : AmeshPluginConfigResource → Prop) (self : nat).
Context (pod : Pod) (config : string) (s : Selector) (instance : AmeshPluginConfigResource).
Implicit Types (r : AmeshPluginConfigReconciler) (c : cluster) (v : server).

Abbreviation may := (may genuine pod config s).
Abbreviation harmless := (harmless config s).
Abbreviation steady := (steady genuine pod config s).
Abbreviation steady_cluster := (steady_cluster genuine pod config).
Abbreviation unseen_cluster := (unseen_cluster genuine pod config).
Abbreviation answering := (answering genuine pod).
Abbreviation gone := (gone genuine pod config).
Abbreviation pod_key := (pod_key pod).
Abbreviation update_protocol := (update_protocol genuine pod config s).
Abbreviation deletion_protocol := (deletion_protocol genuine pod config s).

(** [instance] is the last version of the configuration: the versions that the
    reconciler does not take for older ones serve the same. *)
Record latest : Prop := {
  LT_key : config_key instance = config;
  LT_genuine : genuine instance;
  LT_alive : Res_DeletionTimestamp instance = None;
  LT_version : ∀ i, genuine i → config_key i = config →
    String.leb (Res_ResourceVersion instance) (Res_ResourceVersion i) = true → served i = served instance
}.

(** The cluster holds it. *)
Record latest_cluster c : Prop := {
  LC_steady : steady_cluster c;
  LC_get : ∀ ns name, ns +:+ "/" +:+ name = config → get_config c ns name = inl instance
}.

(** ** The worker installs it *)

Definition may_latest (a : access) (x : result a) : Prop :=
  may a x ∧
  match a return result a → Prop with
  | GetConfig ns name => λ res, ns +:+ "/" +:+ name = config → res = inl instance
  | _ => λ _, True
  end x.

(** With [old] cached for the configuration, the worker ends with [instance]
    cached. *)
Fixpoint installs {A} (old : option PodPluginConfig) (p : prog A) : Prop :=
  match p with
  | Done _ => old = Some (served instance)
  | Access a k =>
      match a return (result a → prog A) → (result a → Prop) → Prop with
      | GetPlugins key => λ k rest, if decide (key = config) then installs old (k old) else ∀ x, installs old (k x)
      | SetPlugins key new => λ k rest,
          if decide (key = config) then installs (Some new) (k tt) else ∀ x, installs old (k x)
      | DeletePlugins key => λ k rest, key ≠ config ∧ ∀ x, installs old (k x)
      | _ => λ k rest, ∀ x, rest x → installs old (k x)
      end k (may_latest a)
  end.

Lemma perform_installs c r a {A} (k : result a → prog A) r' effs x :
  latest_cluster c → selectors_ok config s r → installs (R_pluginsCache r !! config) (Access a k) →
  perform c r a = Ret (r', effs, x) → installs (R_pluginsCache r' !! config) (k x).
Proof.
  intros [Hc Hget] Hs Hp Hperf.
  assert (may_latest a x) as Hx.
  { split; [by eapply perform_may|]. destruct a; try done. cbn [perform] in Hperf. injection Hperf as _ _ <-. apply Hget. }
  destruct a as [key|key val|key|key|key conf|key|keys|ns names|ns name|ns name|ns val|ns|conf];
    cbn [perform installs] in *; try (injection Hperf as <- _ <-); try (apply bind_ret in Hperf as (res & _ & [= <- _ <-]));
    try (exact (Hp _ Hx)).
  - destruct (decide (key = config)) as [->|Hne]; apply Hp.
  - cbn. destruct (decide (key = config)) as [->|Hne]; [by rewrite lookup_insert_eq|by rewrite lookup_insert_ne].
  - destruct Hp as [Hne Hp]. cbn. by rewrite lookup_delete_ne.
Qed.

(** What leaves the configuration's plugins leaves them installed. *)
Lemma upholds_installs {A} (Q : A → Prop) p : upholds harmless may Q p → installs (Some (served instance)) p.
Proof.
  induction p as [[a|why]|a k IH]; [done..|]. intros [Ha Hk].
  destruct a; cbn [installs Steady.harmless] in *; repeat case_decide; unfold may_latest, Steady.may, Steady.may_any in *; naive_solver.
Qed.

#[local] Tactic Notation "advance" :=
  lazymatch goal with |- installs ?old (call ?a ≫= ?f) => change (installs old (Access a f)) end; cbn [installs].

Lemma reconcile_found_installs old :
  steady → latest → (∀ o, old = Some o → ∃ i, genuine i ∧ config_key i = config ∧ o = served i) →
  installs old (reconcile_found_prog (Res_Namespace instance) config instance).
Proof.
  intros Hst [Hk Hi _ Hversion] Hold. destruct (ST_version _ _ _ _ Hst instance Hi Hk) as (_ & Hc & _).
  unfold reconcile_found_prog. advance. rewrite decide_True by done.
  destruct old as [o|]; [destruct (Hold o eq_refl) as (i & Hig & Hik & ->); cbn [PPC_Version served];
    destruct (String.leb _ _) eqn:Hle; [by rewrite (Hversion i)|]|].
  all: advance; intros old_sel [Hsel%may_may_any _]; unfold Update_prog; rewrite Hc.
  all: match goal with |- installs ?old ((call ?a ≫= ?g) ≫= ?F) => change (installs old (Access a (λ x, g x ≫= F))) end;
    cbn [installs]; intros x _; match goal with |- installs ?old (mret ?y ≫= ?F) => change (installs old (F y)) end; cbn beta iota.
  all: advance; rewrite decide_True by done.
  all: assert (mkPodPluginConfig config (Spec_Plugins (Res_Spec instance)) (Res_ResourceVersion instance) = served instance) as ->
    by (unfold served; by rewrite Hk).
  all: eapply upholds_installs, (reconcile_rest_upholds genuine pod config s may (may_may_any _ _ _ _) (Res_Namespace instance) old_sel s).
  all: intros val Hval; by apply Hsel.
Qed.

Lemma Reconcile_on_course r ns name :
  steady → latest → caches_ok genuine r → ns +:+ "/" +:+ name = config →
  installs (R_pluginsCache r !! config) (Reconcile_prog ns name).
Proof.
  intros Hst Hlast Hr Hk. unfold Reconcile_prog. advance. intros res [[Hres _] Hinst]. rewrite NamespacedName_String_eq, Hk.
  rewrite (Hinst Hk) in *. destruct (Hres instance eq_refl) as (_ & <- & _). rewrite (LT_alive Hlast).
  apply reconcile_found_installs; [done..|]. intros o Ho. destruct Hr as [_ Hg]. destruct (Hg config o Ho) as (i & ? & ? & ?).
  by exists i.
Qed.

Definition update_aim : aim := {|
  A_reached := λ r, R_pluginsCache r !! config = Some (served instance);
  A_on_course := λ r p, installs (R_pluginsCache r !! config) p
|}.

Lemma update_aim_laws : steady → latest → aim_laws genuine latest_cluster config update_protocol update_aim.
Proof.
  intros Hst Hlast. split; cbn [A_reached A_on_course P_same P_ok Convergence.update_protocol update_aim].
  - intros r r' Hsame. by rewrite Hsame.
  - intros p c r r' effs p' Hc Hs _ Hp Hadv. apply advance_Some in Hadv as (a & k & x & -> & -> & Hperf).
    by eapply (perform_installs c).
  - intros r p Hend Hp. by destruct p.
  - intros r ns name _ Hr Hk. by apply Reconcile_on_course.
Qed.

(** ** The theorems *)

(** What the pods get in the end. *)
Record arrived v : Prop := {
  AV_threads : V_threads v = ∅;
  AV_stopped : V_stopped v = true → V_streams v = ∅;
  AV_cached : R_pluginsCache (V_reconciler v) !! config = Some (served instance);
  AV_streams : ∀ id st, V_streams v !! id = Some (pod_key, st) → notified_stream pod v id →
    ∃ last conf, st = Idle last ∧ conf ∈ last ∧ PPC_Name conf = config ∧
      same_plugins (PPC_Plugins conf) (Spec_Plugins (Res_Spec instance))
}.

Lemma settled_arrived v :
  settled pod update_protocol v → R_pluginsCache (V_reconciler v) !! config = Some (served instance) → arrived v.
Proof.
  intros (Ht & Hstop & Hs) Hcached. split; [done..|]. intros id st Hid Hn.
  destruct (Hs id pod_key st Hid) as (last & -> & Hlast). destruct (Hlast eq_refl Hn _ Hcached) as (conf & Hin & Hname & Hsame).
  by exists last, conf.
Qed.

(** The requests of the queue are used up. *)
Definition used_up (st : controller) : Prop := wq_due (C_queue st) = ∅ ∧ C_current st = None.


(** C9. A deletion arrives in the same way, under the same conditions on the
    pod, the versions of the configuration and the listers, at the stream that
    is registered for the pod (every stream of the pod, as long as no pod opens a
    second one while it has one): when a request for the configuration is due
    and its resource is gone, the controller comes to rest under any scheduling,
    with no request left and the configuration out of its cache and of the last
    answer of that stream, whether the configuration has been created, updated
    and deleted before or not. *)
Theorem deletion_arrives subs st c ns name :
  steady → namespaced pod config → self ∈ subs → rtc (controller_step answering self) (new_controller subs) st →
  ns +:+ "/" +:+ name = config → (ns, name) ∈ wq_due (C_queue st) → gone c →
  eventually (working gone self) (λ st', withdrawn pod config (C_server st') ∧ used_up st') st.
Proof.
  intros Hst Hns Hin Hreach Hk Hdue Hc. pose proof (deletion_laws genuine self pod config s answering (λ c Hc, Hc) Hst Hns) as HLa.
  pose proof (protocol_laws_mono _ _ _ _ _ _ _ (GN_answers genuine pod config) HLa) as HL.
  apply controller_served in Hreach as [Hctl Hserved]; [|apply new_controller_inv].
  apply (reachable_inv _ _ _ _ _ _ HLa) in Hserved; [|done].
  eapply eventually_mono; [|by apply (due_settles _ _ _ _ _ _ HL _ (deletion_aim_laws genuine pod config s) (ns, name) st c Hc Hk Hctl Hserved); left].
  intros st' [[Hset Hnone Hcur] Hgone]. split; [by eapply settled_withdrawn|done].
Qed.
End Arrival.

(** ** Witnesses *)

Section Witnesses.
#[local] Existing Instance k8s_example.
#[local] Existing Instance map_order.
#[local] Existing Instance fifo_queue.

Definition conf_request : request := ("default", "conf").

Lemma example_latest : latest web_only "default/conf" web_resource.
Proof. split; [done..|]. by intros i ->. Qed.

Lemma example_latest_cluster : latest_cluster web_only example_pod "default/conf" web_resource (example_cluster web_resource).
Proof. split; [apply example_steady_cluster|]. by intros ns name [-> ->]%default_conf_eq. Qed.

(** An agent connects and the configuration is created. *)
Definition requested : controller :=
  mkController (open_served (new_server [7%nat]) "default/web") (wq_Add conf_request new_queue) None.

Lemma open_same_workers v key : same_workers v (open_served v key).
Proof. done. Qed.

Definition connected : controller := mkController (open_served (new_server [7%nat]) "default/web") new_queue None.

Lemma connected_reached cok : rtc (controller_step cok 7%nat) (new_controller [7%nat]) connected.
Proof. apply rtc_once. right. apply (CtlOutside (new_controller _)); [apply (SrvOpen _ "default/web")|apply open_same_workers]. Qed.

Lemma requested_reached cok : rtc (controller_step cok 7%nat) connected requested.
Proof. apply rtc_once. right. apply (CtlAdd connected). Qed.


(** The worker takes the request and goes on alone. *)
Lemma worked_controller cok n c self i key p v q cur :
  cok c → V_threads v !! i = Some (Worker key p) →
  rtc (controller_step cok self) (mkController v q cur) (mkController (worked n c self i key p v) q cur).
Proof.
  intros Hc. revert p v. induction n as [|n IH]; intros p v Hi; [done|]. cbn [worked].
  destruct (advance c (V_reconciler v) p) as [[[[r' effs] p']|why]|] eqn:Hadv; [|done..].
  eapply rtc_l; [left; eapply (CtlMove _ _ (mkController v q cur)); [by eapply SrvWorker|]|].
  - rewrite deliver_eq. intros j. unfold worker_at. cbn. destruct (decide (i = j)) as [->|Hne].
    + by rewrite lookup_insert_eq, Hi.
    + by rewrite lookup_insert_ne.
  - apply IH. rewrite deliver_eq. cbn. by rewrite lookup_insert_eq.
Qed.

(** It is done, and the request is added again: the resource is gone. *)
Definition taken : queue := mkFifo [] {[conf_request]}.

Definition worker_done (v : server) : server :=
  with_thread v (V_reconciler v) (delete 0%nat (V_threads v)).

Definition requested_again : controller :=
  mkController (worker_done cached_state) (wq_Add conf_request (wq_Done conf_request taken)) None.

Lemma cached_state_done :
  match V_threads cached_state !! 0%nat with Some (Worker _ (Done (Ret _))) => True | _ => False end.
Proof. by vm_compute. Qed.

Lemma done_steps cok self v q :
  match V_threads v !! 0%nat with Some (Worker _ (Done (Ret _))) => True | _ => False end →
  rtc (controller_step cok self) (mkController v q (Some conf_request))
    (mkController (worker_done v) (wq_Add conf_request (wq_Done conf_request q)) None).
Proof.
  intros Hend. destruct (V_threads v !! 0%nat) as [[key [[res|why]|a k]|p|p]|] eqn:Ht; try done.
  eapply rtc_l; [left; by eapply (CtlDone _ _ (mkController v q (Some conf_request)))|].
  apply rtc_once. right. apply (CtlAdd (mkController (worker_done v) (wq_Done conf_request q) None)).
Qed.

Lemma requested_again_reached cok :
  cok (example_cluster web_resource) → rtc (controller_step cok 7%nat) (new_controller [7%nat]) requested_again.
Proof.
  intros Hc. etrans; [apply connected_reached|]. etrans; [apply requested_reached|].
  eapply rtc_l; [left; apply (CtlGet _ _ requested 0 conf_request taken); [done|by vm_compute|done]|].
  trans (mkController cached_state taken (Some conf_request)); [|apply done_steps, cached_state_done].
  unfold cached_state. apply worked_controller; [done|apply lookup_insert_eq].
Qed.

Lemma deletion_arrives_witness :
  is_Some (R_pluginsCache (V_reconciler (C_server requested_again)) !! "default/conf") ∧
  eventually (working (gone web_only example_pod "default/conf") 7%nat)
    (λ st, withdrawn example_pod "default/conf" (C_server st) ∧ used_up st) requested_again.
Proof.
  split; [eexists; by vm_compute|].
  refine (deletion_arrives web_only 7%nat example_pod "default/conf" web_selector [7%nat] requested_again no_config
    "default" "conf" example_steady _ _ (requested_again_reached _ _) eq_refl _ no_config_gone).
  - by intros ns name [-> _]%default_conf_eq.
  - by left.
  - apply example_answering.
  - apply (bool_decide_unpack _). by vm_compute.
Defined.
End Witnesses.
