(* ===== verification/Stranded.v ===== *)
(** * Pods that are left without their plugins

    Two runs of Server.v's system, with the stream of one pod, that end with a
    configuration in the caches and without it in the last answer of the pod's
    stream, with nothing on its way.  Reconciling the resource again changes
    nothing, since its version is cached.

    The reconciler reads a resource through the manager's client, the query
    lists the configurations from an informer of its own: in the first run the
    index of that informer has not seen the resource yet when the pod is
    notified.  In the second run the resource is deleted and created again
    before the worker looks at it: the worker sees an update that leaves the
    plugins as they were, and notifies nobody. *)

From stdpp Require Import relations.
From S2P Require Import Prelude GoStrings StringSet ControllerTypes ControllerUtils SelectorCache Reconciler.
From S2P Require Import Interleaving GrpcServer Server OneStream Steady Convergence Deletion.
Local Open Scope Z_scope.

Section Stranded.
Context `{GoRange} `{!K8sLib} `{!K8sLaws}.
Context (cluster_ok : cluster → Prop) (self : nat) (s : Selector) (pod : Pod).
Implicit Types (r : AmeshPluginConfigReconciler) (c : cluster) (v : server) (instance : AmeshPluginConfigResource).

Abbreviation podkey := (pod_key pod).
Abbreviation r0 := (mkReconciler ∅ ∅ [self]).

(** The caches have the resource, the pod's only stream is open and has sent
    nothing of it, no goroutine can do anything, and reconciling the resource
    again does nothing. *)
Record stranded v instance : Prop := {
  SD_cached : reconciled (V_reconciler v) instance;
  SD_stream : V_streams v = {[0%nat := (podkey, Idle [])]};
  SD_running : V_stopped v = false;
  SD_stuck : ∀ cok v', ¬ internal_step cok self v v';
  SD_again : ∀ c, get_config c (Res_Namespace instance) (Res_Name instance) = inl instance →
    run_alone c (V_reconciler v) (Reconcile_prog (Res_Namespace instance) (Res_Name instance)) = Ret (V_reconciler v, [], None)
}.

Lemma resting_stranded c r instance :
  installable c instance s pod → stranded (resting podkey (installed r instance s) (Idle []) []) instance.
Proof.
  intros [_ Hnew (ms & Hms & Hcomp) _ _ _]. split; cbn [V_reconciler V_streams V_stopped resting one_stream_state]; try done.
  - split; [apply lookup_insert_eq|]. exists s. rewrite Hms. split; [done|apply lookup_insert_eq].
  - intros cok v'. apply resting_stuck.
  - intros c' Hget. rewrite alone_Reconcile, Reconcile_found_unfold by done. unfold reconcile_found, installed.
    cbn [R_pluginsCache]. rewrite lookup_insert_eq. cbn [PPC_Version served]. by rewrite string_leb_refl.
Qed.

(** The query while the index has no configuration of the namespace. *)
Lemma unlisted_query c r :
  has_pod c pod → list_configs c (Pod_Namespace pod) = Ret (inl []) →
  run_alone c r (GetPodPluginConfigs_prog podkey) = Ret (r, [], inl []).
Proof.
  intros [[Hk1 Hk2] Hpod] Hlist. rewrite alone_GetPodPluginConfigs. unfold GetPodPluginConfigs, pod_key.
  rewrite SplitMetaNamespaceKey_eq, Hpod by done. unfold matched_keys. rewrite Hlist. by destruct r.
Qed.

(** It answers with nothing. *)
Lemma unlisted_answer c r ts senders :
  cluster_ok c → has_pod c pod → list_configs c (Pod_Namespace pod) = Ret (inl []) →
  rtc (served_step cluster_ok self)
    (one_stream_state podkey r ts (Answering (GetPodPluginConfigs_prog podkey)) senders)
    (one_stream_state podkey r ts (Idle []) senders).
Proof.
  intros Hc Hpod Hlist. eapply rtc_r; [|apply sending].
  by apply (answering_alone cluster_ok self podkey c ts _ Hc r senders r [] (inl [])), unlisted_query.
Qed.

(** A worker starts, and reconciles the resource to its end. *)
Lemma reconciled_run c r st senders instance r' effs :
  cluster_ok c → run_alone c r (Reconcile_prog (Res_Namespace instance) (Res_Name instance)) = Ret (r', effs, None) →
  rtc (served_step cluster_ok self) (resting podkey r st senders)
    (resting podkey r' st (senders ++ started_senders self podkey effs)).
Proof.
  intros Hc Hrun.
  eapply rtc_l; [right; apply (SrvReconcile _ 0%nat (Res_Namespace instance) (Res_Name instance)); [done|by intros j q]|].
  rewrite NamespacedName_String_eq. fold (config_key instance).
  eapply rtc_r; [|apply (ending cluster_ok self podkey (config_key instance) r' None)].
  by apply (working_alone cluster_ok self podkey c (config_key instance) st _ Hc r senders r' effs None).
Qed.

(** The resource is installed by a worker that sees it, and the stream queries
    an index that does not have it. *)
Lemma stranding_run c c0 instance :
  cluster_ok c → cluster_ok c0 → installable c instance s pod → has_pod c0 pod → list_configs c0 (Pod_Namespace pod) = Ret (inl []) →
  rtc (served_step cluster_ok self) (new_server [self]) (resting podkey (installed r0 instance s) (Idle []) []).
Proof.
  intros Hc Hc0 Hin Hpod Hlist. destruct (first_reconcile self c instance s pod Hin) as (names & effs & Hnames & Hrun & Heffs).
  rewrite first_notified in Heffs by done.
  eapply rtc_l; [right; apply (SrvOpen _ podkey)|].
  etrans; [exact (unlisted_answer c0 r0 ∅ [] Hc0 Hpod Hlist)|].
  etrans; [by apply (reconciled_run c r0 (Idle []) [] instance (installed r0 instance s) effs Hc Hrun)|].
  unfold pod_key. rewrite Heffs. eapply rtc_l; [apply receiving|]. by apply unlisted_answer with c0.
Qed.

(** A pod can be left without its plugins although everything works,
    because the reconciler and the queries see the resources through two caches.
    The agent of the pod is connected; the resource is created; the worker,
    whose cache has it, installs it and notifies the pod; the stream queries the
    configurations while the index of the other informer does not have it, and
    answers without.  Nothing is left to do, the caches of the reconciler have
    the configuration, and although the index will list it, neither the system
    nor another reconciliation of the resource ever tells the pod. *)
Lemma lagging_index_strands c instance :
  cluster_ok c → installable c instance s pod → has_pod c pod → list_configs c (Pod_Namespace pod) = Ret (inl []) →
  ∃ v, rtc (served_step cluster_ok self) (new_server [self]) v ∧ stranded v instance.
Proof.
  intros Hc Hin Hpod Hlist. eexists. split; [by apply (stranding_run c c instance)|by eapply resting_stranded].
Qed.

(** ** The resource is created again *)

(** A version of the configuration with the same plugins and selector, which is
    newer. *)
Record recreated old new : Prop := {
  RC_key : Res_Namespace new = Res_Namespace old ∧ Res_Name new = Res_Name old;
  RC_spec : Res_Spec new = Res_Spec old;
  RC_newer : String.leb (Res_ResourceVersion new) (Res_ResourceVersion old) = false;
  RC_plugins : NoDup (plugin_key <$> Spec_Plugins (Res_Spec old))
}.

(** The worker takes it for an update without a difference. *)
Lemma recreated_reconcile c old new r :
  installable c new s pod → recreated old new → compile (Spec_Selector (Res_Spec old)) = inl (Some s) →
  run_alone c (installed r old s) (Reconcile_prog (Res_Namespace new) (Res_Name new)) =
    Ret (installed (installed r old s) new s, recordStatus (clock c) new ResourceReconciled None "True", None).
Proof.
  intros [Hget Hnew _ _ (Hns & _) Hpods] [(Hkns & Hkname) Hspec Hnewer Hnd] Hcomp. rewrite alone_Reconcile.
  assert (config_key new = config_key old) as Hkey by (unfold config_key; by rewrite Hkns, Hkname).
  destruct (Hpods s) as (pods & Hl & _). rewrite <- Hns in Hl.
  rewrite (Reconcile_accepted c (installed r old s) new s pods pods Hget).
  - assert (plugins_changed (installed r old s) new = false) as ->; [|done].
    unfold plugins_changed, installed. cbn [R_pluginsCache]. rewrite Hkey, lookup_insert_eq, Hspec. cbn [PPC_Plugins served].
    apply negb_false_iff, PluginsConfigEqual_spec; done.
  - split_and!; [done|by rewrite Hspec|]. unfold installed. cbn [R_pluginsCache]. by rewrite Hkey, lookup_insert_eq.
  - unfold previous, installed. cbn [R_selectorCache]. by rewrite Hkey, lookup_insert_eq.
  - done.
Qed.

Lemma status_senders c instance :
  started_senders self podkey (recordStatus (clock c) instance ResourceReconciled None "True") = [].
Proof. unfold recordStatus. by destruct (VerifyGeneration _ _). Qed.

(** A pod can be left without its plugins although everything works,
    because the reconciler compares what it sees with what it saw last, not with
    what the pods have been told.  The agent of the pod is connected; the
    resource is created, and the pod is notified; the resource is deleted, and
    the stream answers the notification without it; the resource is created
    again, with the same plugins and selector, before the worker looks at it.
    The worker finds an update without a difference and notifies nobody.
    Nothing is left to do, the caches have the configuration, and neither the
    system nor another reconciliation of the resource ever tells the pod. *)
Lemma recreation_strands c1 c0 c2 old new :
  cluster_ok c1 → cluster_ok c0 → cluster_ok c2 →
  installable c1 old s pod → has_pod c0 pod → list_configs c0 (Pod_Namespace pod) = Ret (inl []) →
  installable c2 new s pod → recreated old new →
  ∃ v, rtc (served_step cluster_ok self) (new_server [self]) v ∧ stranded v new.
Proof.
  intros Hc1 Hc0 Hc2 Hold Hpod Hlist Hnew Hre. exists (resting podkey (installed (installed r0 old s) new s) (Idle []) []).
  split; [|by eapply resting_stranded]. etrans; [by apply (stranding_run c1 c0 old)|].
  destruct (IN_selector _ _ _ _ Hold) as (ms & Hms & Hcomp). rewrite <- Hms in Hcomp.
  pose proof (recreated_reconcile c2 old new r0 Hnew Hre Hcomp) as Hrun.
  etrans; [by apply (reconciled_run c2 _ (Idle []) [] new _ _ Hc2 Hrun)|]. by rewrite status_senders.
Qed.
End Stranded.

(** ** Witnesses *)

Section Witnesses.
#[local] Existing Instance k8s_example.
#[local] Existing Instance map_order.

Definition again_resource : AmeshPluginConfigResource := example_resource "2" "web".
Definition both_versions instance : Prop := instance = web_resource ∨ instance = again_resource.

(** The reconciler's client has the resource, the index of the queries not yet. *)
Definition lagging (instance : AmeshPluginConfigResource) : cluster := {|
  get_config := get_config (example_cluster instance);
  get_pod := get_pod (example_cluster instance);
  list_pods_of := list_pods_of (example_cluster instance);
  list_configs := λ ns, Ret (inl []);
  clock := 1
|}.

Lemma lagging_ok instance : both_versions instance → cluster_ok both_versions (lagging instance).
Proof.
  intros Hi. split; [done|done|]. intros ns name i. cbn. case_bool_decide as Hb; [|done]. destruct Hb as [-> ->].
  intros [= <-]. split; [done|]. by destruct Hi as [->| ->].
Qed.

Lemma no_config_ok : cluster_ok both_versions no_config.
Proof. by split. Qed.

Lemma lagging_installable instance : both_versions instance → installable (lagging instance) instance web_selector example_pod.
Proof.
  intros [->| ->]; (split; [reflexivity|reflexivity|eexists; by split|reflexivity|by split|]);
    intros sel; (eexists; split; [reflexivity|]); intros Hm; (apply list_elem_of_filter; split; [done|]); by left.
Qed.

Lemma example_has_pod c : get_pod c = get_pod (example_cluster web_resource) → has_pod c example_pod.
Proof. intros Heq. split; [by split; vm_compute|]. by rewrite Heq. Qed.

Lemma lagging_index_strands_witness :
  ∃ v, rtc (served_step (cluster_ok both_versions) 7%nat) (new_server [7%nat]) v ∧ stranded 7%nat example_pod v web_resource.
Proof.
  apply (lagging_index_strands (cluster_ok both_versions) 7%nat (web_selector : @Selector k8s_example) example_pod (lagging web_resource)).
  - apply lagging_ok. by left.
  - apply lagging_installable. by left.
  - by apply example_has_pod.
  - reflexivity.
Defined.

Lemma recreation_strands_witness :
  ∃ v, rtc (served_step (cluster_ok both_versions) 7%nat) (new_server [7%nat]) v ∧ stranded 7%nat example_pod v again_resource.
Proof.
  apply (recreation_strands (cluster_ok both_versions) 7%nat (web_selector : @Selector k8s_example) example_pod
    (lagging web_resource) no_config (lagging again_resource) web_resource again_resource).
  - apply lagging_ok. by left.
  - apply no_config_ok.
  - apply lagging_ok. by right.
  - apply lagging_installable. by left.
  - by apply example_has_pod.
  - reflexivity.
  - apply lagging_installable. by right.
  - split; [done|done|by vm_compute|]. apply NoDup_singleton.
Defined.
End Witnesses.
