(* ===== verification/ServerRefines.v ===== *)
(** * The plugin server, atomically and step by step

    GrpcServer.v has a query with the sending of its answer as one step of a
    stream.  Server.v runs the query one access at a time while the caches and
    the cluster change.  Every run of the detailed system is a run of the
    abstract one: a stream that is answering a notification is, abstractly,
    still waiting for it. *)

From stdpp Require Import relations.
From S2P Require Import Prelude GoStrings StringSet ControllerTypes ControllerUtils SelectorCache Reconciler.
From S2P Require Import Interleaving AmeshPlugins GrpcServer Server.
Local Open Scope Z_scope.

(** ** Senders *)

Lemma remove_one_perm id l : id ∈ l → l ≡ₚ id :: remove_one id l.
Proof.
  induction l as [|x l IH]; [by intros ?%elem_of_nil|]. cbn. destruct (Nat.eqb_spec x id) as [->|Hne]; [done|].
  intros [->|Hin]%elem_of_cons; [done|]. rewrite (IH Hin) at 1. apply Permutation_swap.
Qed.

Lemma remove_one_perm_eq id l k : id ∈ l → l ≡ₚ id :: k → remove_one id l ≡ₚ k.
Proof. intros Hin Hl. rewrite (remove_one_perm id l Hin) in Hl. by apply Permutation.Permutation_cons_inv in Hl. Qed.

Section Refines.
Context `{GoRange} `{!K8sLib}.
Context (cluster_ok : cluster → Prop) (self : nat).

(** A stream of the detailed system and of the abstract one; [updating] are
    those that answer a notification. *)
Definition phase_of (updating : list nat) (id : nat) (st : stream_state) : stream_phase :=
  match st with
  | Idle _ => Waiting
  | Answering _ => if decide (id ∈ updating) then Waiting else Opening
  end.

Record refines (updating : list nat) (v : server) (g : GRPCController) : Prop := {
  RF_manager : G_manager g = V_manager v;
  RF_next : G_next g = V_next v;
  RF_streams : ∀ id, G_streams g !! id = (λ x, (x.1, phase_of updating id x.2)) <$> V_streams v !! id;
  RF_senders : G_senders g ≡ₚ V_senders v ++ updating;
  RF_updating : ∀ id, id ∈ updating → ∃ key p, V_streams v !! id = Some (key, Answering p);
  RF_nodup : NoDup updating;
  RF_fresh : ∀ id, is_Some (V_streams v !! id) → (id < V_next v)%nat
}.

Definition implements (v : server) (g : GRPCController) : Prop := ∃ updating, refines updating v g.

Lemma phase_of_ext updating updating' id st :
  (id ∈ updating ↔ id ∈ updating') → phase_of updating id st = phase_of updating' id st.
Proof. intros Hiff. destruct st; [|done]. cbn. destruct (decide (id ∈ updating)), (decide (id ∈ updating')); naive_solver. Qed.

Lemma NoDup_split (id : nat) (l : list nat) : NoDup l → id ∈ l → l ≡ₚ id :: filter (λ i, i ≠ id) l.
Proof.
  intros Hnd Hin. apply NoDup_Permutation; [done| |].
  - apply NoDup_cons. split; [|by apply NoDup_filter]. rewrite list_elem_of_filter. by intros [].
  - intros x. rewrite elem_of_cons, list_elem_of_filter. destruct (decide (x = id)) as [->|]; naive_solver.
Qed.

Lemma filter_absent (id : nat) (l : list nat) : id ∉ l → filter (λ i, i ≠ id) l = l.
Proof. intros Hid. induction l as [|x l IH]; [done|]. apply not_elem_of_cons in Hid as [Hne Hid]. rewrite filter_cons_True by done. by rewrite IH. Qed.

(** An abstract step that is not the opening of a stream. *)
Lemma step_exclusive g label g' : grpc_step g label g' → G_next g' = G_next g → exclusive_step g g'.
Proof.
  intros Hstep Hn. split; [by eexists|]. intros key id phase ->. cbn in Hn. lia.
Qed.

(** ** Deliveries *)

Lemma deliver_implements updating v g effs :
  refines updating v g → ∃ g', rtc exclusive_step g g' ∧ refines updating (deliver self v effs) g'.
Proof.
  revert v g. induction effs as [|eff effs IH]; intros v g Hr; [by exists g|].
  change (deliver self v (eff :: effs)) with (deliver self (deliver self v [eff]) effs).
  destruct eff as [sub event|config]; cbn [deliver foldl]; [|by apply IH].
  destruct (Nat.eqb sub self); [|by apply IH].
  destruct (IH (with_senders v (V_senders v ++ notified (V_manager v) event)) (NotifyPodChange_pods g event)) as (g' & Hreach & Hr').
  - destruct Hr as [Hm Hn Hst Hse Hup Hnd Hf]. rewrite NotifyPodChange_eq. split; cbn; try done.
    rewrite Hse, Hm. unfold notified. rewrite <- !app_assoc. f_equiv. apply Permutation_app_comm.
  - exists g'. split; [|done]. eapply rtc_l; [|exact Hreach]. eapply step_exclusive; [apply StepNotify|by rewrite NotifyPodChange_eq].
Qed.

(** ** The answer of a stream *)

Lemma answer_step updating v g id key p configs sent resp err :
  refines updating v g → V_streams v !! id = Some (key, Answering p) → sendPodPluginConfig configs sent = (resp, err) →
  ∃ senders, grpc_step g ((id,.) <$> resp) (after_send (set_senders g senders) id key err) ∧
    senders ≡ₚ V_senders v ++ filter (λ i, i ≠ id) updating.
Proof.
  intros [Hm Hn Hst Hse Hup Hnd Hf] Hid Hsend. pose proof (Hst id) as Hg. rewrite Hid in Hg. cbn in Hg.
  destruct (decide (id ∈ updating)) as [Hin|Hin].
  - assert (G_senders g ≡ₚ id :: (V_senders v ++ filter (λ i, i ≠ id) updating)) as Hperm.
    { rewrite Hse. rewrite (NoDup_split id updating) at 1 by done. by rewrite Permutation_middle. }
    assert (id ∈ G_senders g) as Hing by (rewrite Hperm; by left).
    exists (remove_one id (G_senders g)). split; [by eapply StepUpdate|]. by apply remove_one_perm_eq.
  - exists (G_senders g). rewrite filter_absent by done. split; [|done].
    replace (set_senders g (G_senders g)) with g by (by destruct g). by eapply StepInitial.
Qed.

(** The streams that answer go on when another one changes. *)
Lemma updating_left (updating : list nat) v id st key j :
  (∀ i, i ∈ updating → ∃ key p, V_streams v !! i = Some (key, Answering p)) → j ∈ filter (λ i, i ≠ id) updating →
  ∃ k p, <[id := (key, st)]> (V_streams v) !! j = Some (k, Answering p) ∧ delete id (V_streams v) !! j = Some (k, Answering p).
Proof.
  intros Hup [Hne Hj]%list_elem_of_filter. destruct (Hup j Hj) as (k & p & Hp). exists k, p.
  by rewrite lookup_insert_ne, lookup_delete_ne.
Qed.

(** ** The steps *)

Definition simulates (v' : server) (g : GRPCController) : Prop := ∃ g', rtc exclusive_step g g' ∧ implements v' g'.

Lemma sent_simulates updating v g id key configs :
  refines updating v g → V_streams v !! id = Some (key, Answering (Done (Ret (inl configs)))) →
  ∃ g', grpc_step g (Some (id, plugins_response configs)) g' ∧
    refines (filter (λ i, i ≠ id) updating) (with_stream v (V_reconciler v) id key (Idle configs)) g'.
Proof.
  intros Hr Hid. destruct (answer_step updating v g id key _ (inl configs) None _ _ Hr Hid eq_refl) as (senders & Hstep & Hperm).
  destruct Hr as [Hm Hn Hst Hse Hup Hnd Hf]. eexists. split; [exact Hstep|]. split; cbn; try done.
  - intros j. destruct (decide (j = id)) as [->|Hne]; [by rewrite !lookup_insert_eq|].
    rewrite !lookup_insert_ne by done. rewrite Hst. destruct (V_streams v !! j) as [[k st]|]; [|done]. cbn. do 2 f_equal.
    apply phase_of_ext. rewrite list_elem_of_filter. naive_solver.
  - intros j Hj. destruct (updating_left updating v id (Idle configs) key j Hup Hj) as (k & p & Hp & _). by exists k, p.
  - by apply NoDup_filter.
  - intros j [x Hx]. apply lookup_insert_Some in Hx as [[<- _]|[_ Hx]]; apply Hf; by eexists.
Qed.

(** The stream leaves, whatever the abstract one does. *)
Lemma closed_refines updating v g id key st senders :
  refines updating v g → V_streams v !! id = Some (key, st) → senders ≡ₚ V_senders v ++ filter (λ i, i ≠ id) updating →
  refines (filter (λ i, i ≠ id) updating) (close_served v id key) (close_stream (set_senders g senders) id key).
Proof.
  intros [Hm Hn Hst Hse Hup Hnd Hf] Hid Hperm. split; cbn; try done.
  - by rewrite Hm.
  - intros j. destruct (decide (j = id)) as [->|Hne]; [by rewrite !lookup_delete_eq|].
    rewrite !lookup_delete_ne by done. rewrite Hst. destruct (V_streams v !! j) as [[k st']|]; [|done]. cbn. do 2 f_equal.
    apply phase_of_ext. rewrite list_elem_of_filter. naive_solver.
  - intros j Hj. destruct (updating_left updating v id (Idle []) key j Hup Hj) as (k & p & _ & Hp). by exists k, p.
  - by apply NoDup_filter.
  - intros j [x Hx]. apply lookup_delete_Some in Hx as [_ Hx]. apply Hf. by eexists.
Qed.

Lemma failed_simulates updating v g id key res :
  refines updating v g → V_streams v !! id = Some (key, Answering (Done (Ret res))) → simulates (close_served v id key) g.
Proof.
  intros Hr Hid.
  assert (∃ configs sent resp err, sendPodPluginConfig configs sent = (resp, Some err)) as (configs & sent & resp & err & Hsend).
  { by exists (inr (Errorf "")), None, None, (Aborted (Errorf "")). }
  destruct (answer_step updating v g id key _ configs sent _ _ Hr Hid Hsend) as (senders & Hstep & Hperm).
  eexists. split; [apply rtc_once; by eapply step_exclusive|]. eexists. by eapply closed_refines.
Qed.

Lemma waiting_not_updating updating v g id key last :
  refines updating v g → V_streams v !! id = Some (key, Idle last) → id ∉ updating.
Proof. intros Hr Hid Hin. destruct (RF_updating _ _ _ Hr id Hin) as (k & p & Hp). congruence. Qed.

Lemma done_simulates updating v g id key last :
  refines updating v g → V_streams v !! id = Some (key, Idle last) → simulates (close_served v id key) g.
Proof.
  intros Hr Hid. pose proof (waiting_not_updating _ _ _ _ _ _ Hr Hid) as Hup.
  exists (close_stream g id key). split.
  - apply rtc_once. eapply step_exclusive; [|done]. apply StepDone. rewrite (RF_streams _ _ _ Hr), Hid. done.
  - eexists. replace g with (set_senders g (G_senders g)) at 1 by (by destruct g). eapply closed_refines; [done..|].
    rewrite filter_absent by done. apply (RF_senders _ _ _ Hr).
Qed.

Lemma received_refines updating v g id key last :
  refines updating v g → V_streams v !! id = Some (key, Idle last) → id ∈ V_senders v →
  refines (id :: updating) (receive v id key) g.
Proof.
  intros Hr Hid Hin. pose proof (waiting_not_updating _ _ _ _ _ _ Hr Hid) as Hno. destruct Hr as [Hm Hn Hst Hse Hup Hnd Hf].
  split; cbn; try done.
  - intros j. destruct (decide (j = id)) as [->|Hne].
    + rewrite lookup_insert_eq, Hst, Hid. cbn. by rewrite decide_True by (by left).
    + rewrite lookup_insert_ne by done. rewrite Hst. destruct (V_streams v !! j) as [[k st]|]; [|done]. cbn. do 2 f_equal.
      apply phase_of_ext. rewrite elem_of_cons. naive_solver.
  - rewrite Hse. rewrite (remove_one_perm id (V_senders v) Hin) at 1. by rewrite <- Permutation_middle.
  - intros j [->|Hj]%elem_of_cons; [eexists _, _; apply lookup_insert_eq|].
    destruct (Hup j Hj) as (k & p & Hp). exists k, p. rewrite lookup_insert_ne; [done|]. by intros <-.
  - by apply NoDup_cons.
  - intros j [x Hx]. apply lookup_insert_Some in Hx as [[<- _]|[_ Hx]]; apply Hf; by eexists.
Qed.

Lemma internal_simulates updating v g v' :
  internal_step cluster_ok self v v' → refines updating v g → simulates v' g.
Proof.
  intros Hstep Hr.
  assert (∀ v', V_manager v' = V_manager v → V_streams v' = V_streams v → V_senders v' = V_senders v → V_next v' = V_next v →
    refines updating v' g) as Hsame.
  { intros w Hm Hs Hse Hn. destruct Hr as [H1 H2 H3 H4 H5 H6 H7]. by split; rewrite ?Hm, ?Hs, ?Hse, ?Hn. }
  destruct Hstep as [c i key p r' effs p' Hc Hi Hadv|c i p r' effs p' Hc Hi Hadv|i t Hi Hend|c id key p r' effs p' Hc Hid Hadv
    |id key configs Hid|id key res Hid|id key last Hid Hin|id key last Hid Hstop].
  - destruct (deliver_implements updating _ g effs (Hsame (with_thread v r' (<[i:=Worker key p']> (V_threads v)))
      eq_refl eq_refl eq_refl eq_refl)) as (g' & Hreach & Hr'). exists g'. split; [done|]. by eexists.
  - destruct (deliver_implements updating _ g effs (Hsame (with_thread v r' (<[i:=PodHandler p']> (V_threads v)))
      eq_refl eq_refl eq_refl eq_refl)) as (g' & Hreach & Hr'). exists g'. split; [done|]. by eexists.
  - exists g. split; [done|]. exists updating. by apply Hsame.
  - exists g. split; [done|]. exists updating. destruct Hr as [Hm Hn Hst Hse Hup Hnd Hf]. split; cbn; try done.
    + intros j. destruct (decide (j = id)) as [->|Hne]; [by rewrite lookup_insert_eq, Hst, Hid|by rewrite lookup_insert_ne, Hst].
    + intros j Hj. destruct (decide (j = id)) as [->|Hne]; [eexists _, _; apply lookup_insert_eq|].
      rewrite lookup_insert_ne by done. by apply Hup.
    + intros j [x Hx]. apply lookup_insert_Some in Hx as [[<- _]|[_ Hx]]; apply Hf; by eexists.
  - destruct (sent_simulates updating v g id key configs Hr Hid) as (g' & Hstep & Hr'). exists g'. split; [|by eexists].
    apply rtc_once. eapply step_exclusive; [done|]. by rewrite (RF_next _ _ _ Hr'), (RF_next _ _ _ Hr).
  - by eapply failed_simulates.
  - exists g. split; [done|]. eexists. by eapply received_refines.
  - by eapply done_simulates.
Qed.

Lemma opened_refines updating v g key : refines updating v g → refines updating (open_served v key) (open_stream g key).
Proof.
  intros [Hm Hn Hst Hse Hup Hnd Hf].
  assert (V_next v ∉ updating) as Hnew.
  { intros Hin. destruct (Hup _ Hin) as (k & p & Hp). pose proof (Hf _ (ex_intro _ _ Hp)). lia. }
  split; cbn; try done.
  - by rewrite Hm, Hn.
  - by rewrite Hn.
  - intros j. rewrite Hn. destruct (decide (j = V_next v)) as [->|Hne].
    + rewrite !lookup_insert_eq. cbn. by rewrite decide_False.
    + by rewrite !lookup_insert_ne, Hst.
  - intros j Hj. destruct (Hup j Hj) as (k & p & Hp). exists k, p. rewrite lookup_insert_ne; [done|]. by intros <-.
  - intros j [x Hx]. apply lookup_insert_Some in Hx as [[<- _]|[_ Hx]]; [lia|]. pose proof (Hf j (ex_intro _ _ Hx)). lia.
Qed.

Lemma open_stream_key g key key' : open_stream g key = open_stream g key' → key = key'.
Proof.
  intros Heq. assert (G_streams (open_stream g key) !! G_next g = G_streams (open_stream g key') !! G_next g) as Hs by (by rewrite Heq).
  cbn in Hs. rewrite !lookup_insert_eq in Hs. congruence.
Qed.

(** No other stream of the pod is open if no pod has two afterwards. *)
Lemma opened_exclusive updating v g key :
  refines updating v g → one_each (open_served v key) → exclusive_step g (open_stream g key).
Proof.
  intros Hr Hone. split; [exists None; apply StepOpen|]. intros k id ph <-%open_stream_key Hid.
  rewrite (RF_streams _ _ _ Hr) in Hid. destruct (V_streams v !! id) as [[k st]|] eqn:Hv; [|done]. injection Hid as -> _.
  pose proof (RF_fresh _ _ _ Hr id (ex_intro _ _ Hv)) as Hlt.
  assert (id = V_next v) as ->; [|lia]. apply (Hone id (V_next v) key st (Answering (GetPodPluginConfigs_prog key))); cbn.
  - by rewrite lookup_insert_ne by lia.
  - apply lookup_insert_eq.
Qed.

Lemma exclusive_any g g' : rtc exclusive_step g g' → rtc any_step g g'.
Proof. apply rtc_subrel. by intros ?? []. Qed.

(** Any step, and one after which no pod has two streams. *)
Lemma served_simulates updating v g v' :
  served_step cluster_ok self v v' → refines updating v g →
  ∃ g', rtc any_step g g' ∧ (one_each v' → rtc exclusive_step g g') ∧ implements v' g'.
Proof.
  intros Hstep Hr.
  assert (∀ w, simulates w g → ∃ g', rtc any_step g g' ∧ (one_each w → rtc exclusive_step g g') ∧ implements w g') as Hsim.
  { intros w (g' & Hg & Hi). exists g'. split_and!; [by apply exclusive_any|done|done]. }
  destruct Hstep as [Hstep|[i ns name Hi Hone|i ns names Hi|key|id key last Hid|]].
  - by apply Hsim, (internal_simulates updating v).
  - apply Hsim. exists g. split; [done|]. exists updating. by destruct Hr.
  - apply Hsim. exists g. split; [done|]. exists updating. by destruct Hr.
  - exists (open_stream g key). split_and!.
    + apply rtc_once. exists None. apply StepOpen.
    + intros Hone. by apply rtc_once, (opened_exclusive updating v).
    + exists updating. by apply opened_refines.
  - by apply Hsim, (done_simulates updating v g id key last).
  - apply Hsim. exists g. split; [done|]. exists updating. by destruct Hr.
Qed.

Lemma new_server_refines subs : refines [] (new_server subs) NewGRPCController.
Proof.
  split; cbn; try done.
  - by intros id Hid%elem_of_nil.
  - apply NoDup_nil_2.
  - intros id [x Hx]. by apply lookup_empty_Some in Hx.
Qed.

Lemma initial_implements subs : implements (new_server subs) NewGRPCController.
Proof. exists []. apply new_server_refines. Qed.

Lemma served_implements v v' g :
  rtc (served_step cluster_ok self) v v' → implements v g → ∃ g', rtc any_step g g' ∧ implements v' g'.
Proof.
  intros Hreach. revert g. induction Hreach as [v|v1 v2 v3 Hstep _ IH]; intros g; [by exists g|]. intros [updating Hr].
  destruct (served_simulates _ _ _ _ Hstep Hr) as (g2 & Hg2 & _ & Hi). destruct (IH g2 Hi) as (g3 & Hg3 & Hi3).
  exists g3. split; [by etrans|done].
Qed.

Lemma exclusive_implements v v' g :
  rtc (exclusive_served cluster_ok self) v v' → implements v g → ∃ g', rtc exclusive_step g g' ∧ implements v' g'.
Proof.
  intros Hreach. revert g. induction Hreach as [v|v1 v2 v3 [Hstep Hone] _ IH]; intros g; [by exists g|]. intros [updating Hr].
  destruct (served_simulates _ _ _ _ Hstep Hr) as (g2 & _ & Hg2 & Hi). destruct (IH g2 Hi) as (g3 & Hg3 & Hi3).
  exists g3. split; [etrans; [by apply Hg2|done]|done].
Qed.

(** C27. The plugin server is implemented correctly on the interleaved
    controller.  Every state that the controller reaches when queries, workers
    and pod handlers interleave access by access, in any clusters, while pods
    open streams as they like (a pod may have several), is one of the atomic
    plugin server, in which a stream answers in one step: a stream that answers
    a notification is still waiting for it there.  A message that a stream
    sends is the response of the atomic server's step.  The gauge of managed
    instances counts the open streams, and a registration that exists is the
    one of an open stream of its pod.  The converse holds only as long as no
    pod has two streams at a time, which the code does not check: on a run of
    which no state has two streams of a pod, every open stream is registered
    for its pod. *)
Theorem server_refines_grpc subs v :
  rtc (served_step cluster_ok self) (new_server subs) v →
  (∃ updating g, rtc any_step NewGRPCController g ∧ refines updating v g ∧
    (∀ id key configs, V_streams v !! id = Some (key, Answering (Done (Ret (inl configs)))) →
       ∃ g', grpc_step g (Some (id, plugins_response configs)) g' ∧
         refines (filter (λ i, i ≠ id) updating) (with_stream v (V_reconciler v) id key (Idle configs)) g')) ∧
  IM_managed (V_manager v) = Z.of_nat (size (V_streams v)) ∧
  (∀ id key, im_get (V_manager v) key = Some id → ∃ st, V_streams v !! id = Some (key, st)) ∧
  (rtc (exclusive_served cluster_ok self) (new_server subs) v →
   ∀ id key st, V_streams v !! id = Some (key, st) → im_get (V_manager v) key = Some id).
Proof.
  intros Hreach. destruct (served_implements _ _ _ Hreach (initial_implements subs)) as (g & Hg & updating & Hr).
  pose proof (reach_inv _ _ Hg initial_inv) as Hinv. split_and!.
  - exists updating, g. split_and!; [done|done|]. intros id key configs Hid. by apply sent_simulates.
  - rewrite <- (RF_manager _ _ _ Hr), (inv_gauge g Hinv).
    f_equal. rewrite <- !size_dom. f_equal. apply set_eq. intros id. rewrite !elem_of_dom, (RF_streams _ _ _ Hr id). by rewrite fmap_is_Some.
  - intros id key Hget. rewrite <- (RF_manager _ _ _ Hr) in Hget. destruct (inv_instances g Hinv _ _ Hget) as [ph Hph].
    rewrite (RF_streams _ _ _ Hr id) in Hph. destruct (V_streams v !! id) as [[k st]|]; [|done]. injection Hph as -> _. by exists st.
  - intros Hex. destruct (exclusive_implements _ _ _ Hex (initial_implements subs)) as (g' & Hg' & u' & Hr').
    apply exclusive_reach in Hg' as [_ Hreg]; [|apply initial_inv|done]. intros id key st Hid.
    rewrite <- (RF_manager _ _ _ Hr'). eapply Hreg. rewrite (RF_streams _ _ _ Hr' id), Hid. reflexivity.
Qed.
End Refines.

(** ** Witness: a stream whose first answer is ready *)

Section Alone.
Context `{GoRange} `{!K8sLib}.
Context (cluster_ok : cluster → Prop) (self : nat).

(** A stream that goes on does not change whose streams there are. *)
Lemma with_stream_one_each v r id key st st' :
  V_streams v !! id = Some (key, st) → one_each v → one_each (with_stream v r id key st').
Proof.
  intros Hid Hone.
  assert (∀ i k s, V_streams (with_stream v r id key st') !! i = Some (k, s) → ∃ s', V_streams v !! i = Some (k, s')) as Hold.
  { cbn. intros i k s [[<- [= <- <-]]|[_ Hi]]%lookup_insert_Some; by eexists. }
  intros i j k s t (s' & Hi)%Hold (t' & Hj)%Hold. by eapply Hone.
Qed.

(** A query that nobody interrupts. *)
Lemma query_alone c id key p : cluster_ok c → ∀ v r' effs a,
  one_each v → V_streams v !! id = Some (key, Answering p) → run_alone c (V_reconciler v) p = Ret (r', effs, a) →
  rtc (exclusive_served cluster_ok self) v (with_stream v r' id key (Answering (Done (Ret a)))).
Proof.
  intros Hc. induction p as [res|a k IH]; intros v r' effs b Hone Hid Hrun.
  - apply bind_ret in Hrun as (b' & -> & [= <- <- <-]).
    assert (with_stream v (V_reconciler v) id key (Answering (Done (Ret b'))) = v) as -> by
      (unfold with_stream; rewrite insert_id by done; by destruct v). done.
  - cbn [run_alone] in Hrun. apply bind_ret in Hrun as ([[r1 effs1] x] & Hp & Hrun).
    apply bind_ret in Hrun as ([[r2 effs2] v2] & Hk & [= <- <- <-]).
    pose proof (with_stream_one_each v r1 id key _ (Answering (k x)) Hid Hone) as Hone'. eapply rtc_l.
    + split; [|exact Hone']. left. eapply (SrvQuery _ _ _ c id key (Access a k)); [done..|]. cbn [advance]. by rewrite Hp.
    + specialize (IH x (with_stream v r1 id key (Answering (k x))) r2 effs2 v2 Hone' (lookup_insert_eq _ _ _) Hk).
      unfold with_stream in IH. cbn in IH. rewrite insert_insert_eq in IH. exact IH.
Qed.
End Alone.

Section Witnesses.
#[local] Existing Instance k8s_example.
#[local] Existing Instance map_order.

(** A cluster without configurations. *)
Definition bare_cluster : cluster := {|
  get_config := λ _ _, inr (Errorf "not found");
  get_pod := λ _ _, inl example_pod;
  list_pods_of := list_pods [example_pod];
  list_configs := λ _, Ret (inl []);
  clock := 1
|}.

Definition just_opened : server := open_served (new_server [7%nat]) "default/web".

Definition answer_ready : server :=
  with_stream just_opened (V_reconciler just_opened) 0%nat "default/web" (Answering (Done (Ret (inl [])))).

(** The opening and the query, after each of which the pod has one stream. *)
Lemma query_exclusive : rtc (exclusive_served (λ _, True) 7%nat) (new_server [7%nat]) answer_ready.
Proof.
  assert (one_each just_opened) as Hone.
  { intros i j key s t. cbn. intros [[<- _]|[_ []%lookup_empty_Some]]%lookup_insert_Some [[<- _]|[_ []%lookup_empty_Some]]%lookup_insert_Some. done. }
  eapply rtc_l; [split; [right; apply (SrvOpen _ "default/web")|exact Hone]|].
  apply (query_alone (λ _, True) 7%nat bare_cluster 0%nat "default/web" (GetPodPluginConfigs_prog "default/web") I
    just_opened (V_reconciler just_opened) [] (inl []) Hone eq_refl). reflexivity.
Qed.

Lemma server_refines_grpc_witness :
  (∃ g g', grpc_step g (Some (0%nat, plugins_response [])) g' ∧ G_streams g' !! 0%nat = Some ("default/web", Waiting)) ∧
  im_get (V_manager answer_ready) "default/web" = Some 0%nat.
Proof.
  destruct (server_refines_grpc (λ _, True) 7%nat [7%nat] answer_ready) as ((updating & g & _ & Hr & Hsend) & _ & _ & Hreg).
  - apply (rtc_subrel _ _ _ _ (λ v v' Hs, proj1 Hs) query_exclusive).
  - split.
    + destruct (Hsend 0%nat "default/web" [] ltac:(reflexivity)) as (g' & Hstep & Hr'). exists g, g'. split; [exact Hstep|].
      rewrite (RF_streams _ _ _ Hr' 0%nat). reflexivity.
    + exact (Hreg query_exclusive 0%nat "default/web" _ eq_refl).
Defined.
End Witnesses.
