(* ===== verification/Resend.v ===== *)
(** * A first installation that is lost on the way to the agent

    Server.v with the agent of AmeshPlugins.v.  The controller may send a pod
    the same version of a configuration twice: a query that starts while the
    worker is between its caches and its notification answers with the new
    plugins, and the notification makes the stream answer with them again.  The
    agent takes only what is newer than what it remembers, and keeps nothing
    else. *)

From stdpp Require Import relations.
From S2P Require Import Prelude GoStrings StringSet ControllerTypes ControllerUtils SelectorCache Reconciler.
From S2P Require Import Interleaving AmeshPlugins GrpcServer Server OneStream.
Local Open Scope Z_scope.

(** ** The race *)

Section Race.
Context `{GoRange} `{!K8sLib} `{!K8sLaws}.

(** A cluster with a pod and a new configuration that selects it, the only one
    of the pod's namespace. *)
Record first_install (c : cluster) (instance : AmeshPluginConfigResource) (s : Selector) (pod : Pod) : Prop := {
  FI_installable : installable c instance s pod;
  FI_pod : has_pod c pod;
  FI_listed : list_configs c (Pod_Namespace pod) = Ret (inl [instance])
}.

Context (cluster_ok : cluster → Prop) (self : nat) (c : cluster) (instance : AmeshPluginConfigResource) (s : Selector) (pod : Pod).
Context (Hc : cluster_ok c) (Hfirst : first_install c instance s pod).

Abbreviation podkey := (Pod_Namespace pod +:+ "/" +:+ Pod_Name pod).
Abbreviation r0 := (mkReconciler ∅ ∅ [self]).
Abbreviation r1 := (installed r0 instance s).

(** The query once both caches have the configuration. *)
Lemma first_query : run_alone c r1 (GetPodPluginConfigs_prog podkey) = Ret (r1, [], inl [served instance]).
Proof.
  destruct Hfirst as [[_ _ (ms & Hms & _) Hm (Hns & Hne) _] [(Hk1 & Hk2) Hpod] Hlist].
  rewrite alone_GetPodPluginConfigs.
  rewrite (query_hit c r1 podkey (Pod_Namespace pod) (Pod_Name pod) pod instance s).
  - cbn [mbind outcome_bind]. do 3 f_equal. rewrite Hm, union_empty_r_L, cached_configs_filter, elements_singleton.
    replace (SortStrings [config_key instance]) with [config_key instance].
    2: { symmetry. apply Permutation_singleton_r. by rewrite SortStrings_perm. }
    cbn [omap list_omap]. unfold installed. cbn [R_pluginsCache]. by rewrite lookup_insert_eq.
  - by apply SplitMetaNamespaceKey_eq.
  - done.
  - done.
  - by eexists.
  - by rewrite Hns.
  - apply lookup_insert_eq.
Qed.

(** The worker of the resource has come to [p], with nothing notified, and
    will end well. *)
Definition worker_at (effs : list controller_effect) st r (p : prog (option error)) : Prop :=
  run_alone c r p = Ret (r1, effs, None) ∧
  rtc (served_step cluster_ok self)
    (working podkey (config_key instance) r0 (Reconcile_prog (Res_Namespace instance) (Res_Name instance)) st [])
    (working podkey (config_key instance) r p st []).

Lemma worker_call effs st r a f r' x :
  worker_at effs st r (call a ≫= f) → perform c r a = Ret (r', [], x) → worker_at effs st r' (f x).
Proof.
  intros [Hrun Hreach] Hp.
  destruct (working_one cluster_ok self podkey c (config_key instance) r a f st [] r' x r1 effs None Hc Hp Hrun) as [Hs Hrun'].
  split; [exact Hrun'|]. by eapply rtc_r.
Qed.

Lemma worker_call_in {A} effs st r a (g : result a → prog A) f r' x :
  worker_at effs st r ((call a ≫= g) ≫= f) → perform c r a = Ret (r', [], x) → worker_at effs st r' (g x ≫= f).
Proof. intros Hw. by apply (worker_call effs st r a (λ x, g x ≫= f)). Qed.

(** The worker up to its notification. *)
Lemma worker_caches st :
  ∃ p effs, started_senders self podkey effs = [0%nat] ∧ worker_at effs st r1 p.
Proof.
  destruct (first_reconcile self c instance s pod (FI_installable _ _ _ _ Hfirst)) as (names & effs & Hpod & Hrun & Heffs).
  rewrite first_notified in Heffs by done.
  pose proof Hfirst as [[Hget Hnew (ms & Hms & Hcomp) _ _ _] _ _].
  assert (worker_at effs st r0 (Reconcile_prog (Res_Namespace instance) (Res_Name instance))) as Hw by by split.
  unfold Reconcile_prog in Hw. eapply worker_call in Hw; [|cbn [perform]; rewrite Hget; reflexivity].
  cbn beta iota in Hw. rewrite Hnew, NamespacedName_String_eq in Hw. fold (config_key instance) in Hw.
  unfold reconcile_found_prog in Hw. eapply worker_call in Hw; [|reflexivity].
  change (R_pluginsCache r0 !! config_key instance) with (@None PodPluginConfig) in Hw. cbn beta iota in Hw.
  eapply worker_call in Hw; [|reflexivity]. unfold Update_prog in Hw at 1. rewrite Hms, Hcomp in Hw.
  eapply worker_call_in in Hw; [|reflexivity]. cbn [mret prog_mret mbind prog_mbind prog_bind] in Hw.
  cbn beta iota in Hw. eapply worker_call in Hw; [|reflexivity]. eexists _, effs. split; [exact Heffs|exact Hw].
Qed.

(** C38. A first installation can be lost although everything works.  The
    only stream of a pod opens while the worker reconciles the configuration
    for the first time: it can read the caches after the worker has filled them
    and before the worker notifies, so that it sends the new version; the
    notification then makes it send the same version again.  The controller
    has settled, no error occurred and nothing is on its way, the stream has
    sent the current plugins last, and the agent, which installed them on the
    first message, has dropped them on the second. *)
Theorem first_installation_lost am :
  AM_configRevision am = ∅ →
  let resp := plugins_response [served instance] in
  ∃ v1 v2,
    rtc (served_step cluster_ok self) (new_server [self]) v1 ∧
    V_streams v1 !! 0%nat = Some (podkey, Answering (Done (Ret (inl [served instance])))) ∧
    rtc (served_step cluster_ok self) (with_stream v1 (V_reconciler v1) 0 podkey (Idle [served instance])) v2 ∧
    V_streams v2 !! 0%nat = Some (podkey, Answering (Done (Ret (inl [served instance])))) ∧
    V_threads v2 = ∅ ∧ V_senders v2 = [] ∧ V_stopped v2 = false ∧
    R_pluginsCache (V_reconciler v2) !! config_key instance = Some (served instance) ∧
    GetPlugins (updatePlugins am resp).1 = plugins_of [config_message (served instance)] ∧
    GetPlugins (updatePlugins (updatePlugins am resp).1 resp).1 = ∅.
Proof.
  intros Ham resp. set (answer := [served instance]).
  destruct (worker_caches (Answering (GetPodPluginConfigs_prog podkey))) as (p & effs & Heffs & Hrun & Hreach).
  exists (working podkey (config_key instance) r1 p (Answering (Done (Ret (inl answer)))) []),
    (resting podkey r1 (Answering (Done (Ret (inl answer)))) []).
  split_and!; [|done| |done..|apply lookup_insert_eq| |].
  - eapply rtc_l; [right; apply (SrvOpen _ podkey)|].
    eapply rtc_l; [right; apply (SrvReconcile _ 0%nat (Res_Namespace instance) (Res_Name instance)); [done|by intros j q]|].
    rewrite NamespacedName_String_eq. fold (config_key instance). etrans; [exact Hreach|].
    apply (answering_alone cluster_ok self podkey c _ _ Hc r1 [] r1 [] (inl answer)), first_query.
  - assert (with_stream (working podkey (config_key instance) r1 p (Answering (Done (Ret (inl answer)))) []) r1 0 podkey (Idle answer) =
      working podkey (config_key instance) r1 p (Idle answer) []) as Heq.
    { unfold with_stream, working, one_stream_state. cbn. by rewrite insert_singleton_eq. }
    cbn [V_reconciler working one_stream_state]. fold (one_stream_state podkey).
    change (rtc (served_step cluster_ok self)
      (with_stream (working podkey (config_key instance) r1 p (Answering (Done (Ret (inl answer)))) []) r1 0 podkey (Idle answer))
      (resting podkey r1 (Answering (Done (Ret (inl answer)))) [])). rewrite Heq.
    etrans; [by apply (working_alone cluster_ok self podkey c (config_key instance) (Idle answer) p Hc r1 [] r1 effs None)|].
    rewrite Heffs. eapply rtc_l; [apply ending|]. eapply rtc_l; [apply receiving|].
    apply (answering_alone cluster_ok self podkey c _ _ Hc r1 [] r1 [] (inl answer)), first_query.
  - pose proof (updatePlugins_resend am [config_message (served instance)] Ham (NoDup_singleton _)) as (Hone & _ & _).
    unfold resp. rewrite plugins_response_eq. exact Hone.
  - pose proof (updatePlugins_resend am [config_message (served instance)] Ham (NoDup_singleton _)) as (_ & Htwo & _).
    unfold resp. rewrite plugins_response_eq. exact Htwo.
Qed.
End Race.

(** ** Witness *)

Section Witnesses.
#[local] Existing Instance k8s_example.
#[local] Existing Instance map_order.

Lemma example_first_install : first_install (example_cluster new_resource) new_resource web_selector example_pod.
Proof.
  split; [split|split|].
  - reflexivity.
  - reflexivity.
  - eexists. by split.
  - reflexivity.
  - by split.
  - intros sel. eexists. split; [reflexivity|]. intros Hm. apply list_elem_of_filter. split; [done|]. by left.
  - by split; vm_compute.
  - reflexivity.
  - reflexivity.
Qed.

Lemma first_installation_lost_witness :
  AM_configRevision (mkAmeshProvisioner "controller:15810" "default" "web" ∅ ∅ true true) = ∅ ∧
  ∃ v1 v2 : server, rtc (served_step (cluster_ok two_versions) 7%nat) (new_server [7%nat]) v1 ∧
    V_threads v2 = ∅ ∧ V_senders v2 = [] ∧ is_Some (R_pluginsCache (V_reconciler v2) !! config_key new_resource) ∧
    GetPlugins (updatePlugins (updatePlugins (mkAmeshProvisioner "controller:15810" "default" "web" ∅ ∅ true true)
      (plugins_response [served new_resource])).1 (plugins_response [served new_resource])).1 = ∅.
Proof.
  split; [reflexivity|].
  destruct (first_installation_lost (cluster_ok two_versions) 7%nat (example_cluster new_resource) new_resource web_selector example_pod
    (example_cluster_ok new_resource (or_intror eq_refl)) example_first_install
    (mkAmeshProvisioner "controller:15810" "default" "web" ∅ ∅ true true) eq_refl)
    as (v1 & v2 & H1 & _ & _ & _ & H2 & H3 & _ & H4 & _ & H5).
  exists v1, v2. split; [exact H1|]. split; [exact H2|]. split; [exact H3|]. split; [by eexists|exact H5].
Defined.
End Witnesses.
