(* ===== verification/Propagation.v ===== *)
(** * The way of an update to the agent

    A change of the plugins of a resource, through the reconciler, its
    notification, the stream of the pod and the answer to its query, up to the
    plugins of the agent: the composition of Reconciler, GrpcServer and
    AmeshPlugins on one update. *)

From stdpp Require Import relations.
From S2P Require Import Prelude GoStrings JsonParse ControllerTypes ControllerUtils SelectorCache Reconciler.
From S2P Require Import AmeshPlugins GrpcServer.
Local Open Scope Z_scope.

Section Propagation.
Context `{GoRange} `{!K8sLib} `{!K8sLaws}.

(** The pod of an agent, with its labels as the cluster has them. *)
Record pod_of (c : cluster) (pods : list Pod) (pod : Pod) (am : ameshProvisioner) : Prop := {
  PO_known : pod ∈ pods;
  PO_get : get_pod c (Pod_Namespace pod) (Pod_Name pod) = inl pod;
  PO_namespace : AM_namespace am = Pod_Namespace pod ∧ Pod_Namespace pod ≠ "" ∧ ¬ Contains (Pod_Namespace pod) "/";
  PO_name : AM_name am = Pod_Name pod ∧ ¬ Contains (Pod_Name pod) "/"
}.

(** The resource is the only one of the pod's namespace that selects the pod;
    the others have been reconciled. *)
Record only_config (c : cluster) (r : AmeshPluginConfigReconciler) (instance : AmeshPluginConfigResource)
    (pod : Pod) : Prop := {
  OC_list : ∃ l, list_configs c (Pod_Namespace pod) = Ret (inl l) ∧ instance ∈ l ∧ NoDup (config_key <$> l) ∧
    ∀ other, other ∈ l → Res_Namespace other = Pod_Namespace pod ∧
      (other = instance ∨ (config_key other ≠ config_key instance ∧ reconciled r other ∧ ¬ selects other (Pod_Labels pod)))
}.

Lemma instance_key_eq c pods pod am :
  pod_of c pods pod am → instance_key am = Pod_Namespace pod +:+ "/" +:+ Pod_Name pod.
Proof. intros [_ _ [Hns _] [Hname _]]. unfold instance_key. by rewrite Hns, Hname. Qed.

Lemma singleton_list {A B} (f : A → B) (l : list A) x :
  (∀ y, y ∈ l ↔ y = x) → NoDup (f <$> l) → l = [x].
Proof.
  intros Hl Hnd. destruct l as [|a [|b l]].
  - pose proof (proj2 (Hl x) eq_refl) as Hx. by apply elem_of_nil in Hx.
  - f_equal. apply Hl. by left.
  - assert (a = x) as -> by (apply Hl; by left). assert (b = x) as -> by (apply Hl; right; by left).
    cbn in Hnd. apply NoDup_cons in Hnd as [Hn _]. destruct Hn. by left.
Qed.

(** What the pod is served once the resource is installed. *)
Lemma query_serves_only c pods r instance s pod am :
  pod_of c pods pod am → only_config c r instance pod → accepted_instance r instance s →
  Matches s (Pod_Labels pod) = true → cache_ok (R_selectorCache r) →
  ∃ r'', GetPodPluginConfigs c (installed r instance s) (instance_key am) = Ret (r'', inl [served instance]).
Proof.
  intros Hpod [(l & Hlist & Hin & Hnd & Hothers)] (_ & Hc & _) Hm Hok. rewrite (instance_key_eq c pods pod am Hpod).
  destruct Hpod as [_ Hget (_ & Hne & Hns) (_ & Hname)].
  destruct (GetPodPluginConfigs_eq c (installed r instance s) pod l) as (r'' & configs & Hq & Hconf & _ & Hnames); [done..| |done| |].
  - intros i Hi. destruct (Hothers i Hi) as [Hnsi [->|(Hki & Hri & _)]]; (split; [done|]).
    + by apply installed_reconciled.
    + by apply installed_other.
  - by apply installed_cache_ok.
  - exists r''. rewrite Hq. do 3 f_equal. apply (singleton_list PPC_Name); [|done].
    intros conf. rewrite Hconf. split.
    + intros (i & Hi & Hsel & ->). by destruct (Hothers i Hi) as [_ [->|(_ & _ & Hno)]].
    + intros ->. exists instance. split_and!; [done| |done]. by exists s.
Qed.

(** The pods that are notified of the update. *)
Lemma update_notifies pods c r instance s s0 sub pod :
  get_config c (Res_Namespace instance) (Res_Name instance) = inl instance →
  accepted_instance r instance s → plugins_changed r instance = true →
  lists pods (list_pods_of c) → previous r instance = Some s0 → R_subs r = [sub] →
  pod ∈ pods → Pod_Namespace pod = Res_Namespace instance → Matches s (Pod_Labels pod) = true →
  ∃ effs err, Reconcile c r (Res_Namespace instance) (Res_Name instance) = Ret (installed r instance s, effs, err) ∧
    (err = None → ∃ event, filter (λ e, is_notification e = true) effs = [NotifyPodChange sub event] ∧
       UE_Namespace event = Pod_Namespace pod ∧ Pod_Name pod ∈ UE_Pods event).
Proof.
  intros Hg Ha Hch Hl Hs0 Hsub Hpod Hns Hm.
  destruct (Reconcile_installs pods c r instance s s0) as (effs & err & Hrec & Hok & _); [done..|].
  exists effs, err. split; [done|]. intros Herr. destruct (Hok Herr) as (olds & news & Hos & Hnews & ->).
  set (names := pod_names olds ∪ pod_names news).
  assert (Pod_Name pod ∈ names) as Hin.
  { unfold names. apply (selected_names_union pods (Res_Namespace instance) s0 s olds news); [done..|].
    exists pod. split_and!; [done..|by right]. }
  exists (mkUpdatePodPluginConfigEvent (Res_Namespace instance) names). split_and!; [|done|done].
  rewrite Hch, filter_app, filter_record, app_nil_r, filter_Send, decide_True by set_solver. cbn [R_subs installed]. by rewrite Hsub.
Qed.

(** What the agent installs of one configuration: for each name the last plugin
    of the resource that has it and whose configuration decodes. *)
Lemma served_installs instance name ap :
  plugins_of [config_message (served instance)] !! name = Some ap ↔
  ∃ plugin, last_such (λ plugin, Plugin_Name plugin = name ∧ is_Some (Unmarshal_map (Plugin_Config plugin)))
      (Spec_Plugins (Res_Spec instance)) plugin ∧
    AP_Type ap = Plugin_Type plugin ∧ AP_Name ap = name ∧ Unmarshal_map (Plugin_Config plugin) = Some (AP_Config ap).
Proof.
  rewrite plugins_of_installs, config_message_eq. cbn [mbind list_bind APC_Plugins]. rewrite app_nil_r. unfold installs.
  setoid_rewrite last_such_fmap. cbn. naive_solver.
Qed.

End Propagation.

(** ** Witness: another plugin in the second version *)

Section Witnesses.
#[local] Existing Instance k8s_example.
#[local] Existing Instance map_order.

Definition before_change : AmeshPluginConfigReconciler :=
  installed one_sub (example_resource "1" "web") ({["app" := "web"]} : gmap string string).

Definition agent_before : ameshProvisioner :=
  mkAmeshProvisioner "controller:15810" "default" "web" ∅ {["default/conf" := "1"]} true true.

Lemma before_distinct : distinct_plugins before_change changed_resource.
Proof.
  split; [apply (bool_decide_unpack _); vm_compute; exact I|]. intros old Hold.
  assert (old = served (example_resource "1" "web")) as -> by (vm_compute in Hold |- *; congruence).
  apply (bool_decide_unpack _). vm_compute. exact I.
Qed.

Lemma example_plugin_decodes : Unmarshal_map "{}" = Some (Some []).
Proof. by vm_compute. Qed.

Lemma example_last (plugin : AmeshPluginConfigPlugin) :
  is_Some (Unmarshal_map (Plugin_Config plugin)) →
  last_such (λ p, Plugin_Name p = Plugin_Name plugin ∧ is_Some (Unmarshal_map (Plugin_Config p))) [plugin] plugin.
Proof. intros Hs. exists [], []. split_and!; [done|done|done|by intros y ?%elem_of_nil]. Qed.

End Witnesses.
