(* ===== verification/Metrics.v ===== *)
(** * The metrics of the controller (src/controller/pkg/metrics/prometheus.go)

    Three vectors are created and registered when the package is loaded; the
    collector increments and decrements series of them.  The Prometheus client
    is a parameter, with its documented rules: a series is found when the labels
    given are those declared, and registering a vector twice panics. *)

From S2P Require Import Prelude GoStrings Agent GrpcServer.
Local Open Scope Z_scope.

Abbreviation Labels := (gmap string string).

(** [prometheus.GaugeOpts] and [CounterOpts] *)
Record Opts := mkOpts {
  Opts_Namespace : string;
  Opts_Name : string;
  Opts_Help : string;
  Opts_ConstLabels : Labels
}.

Inductive vec_kind : Type := GaugeKind | CounterKind.

Class PromLib := {
  Vec : Type;
  Series : Type;
  Registerer : Type;
  NewVec : vec_kind → Opts → list string → Vec;
  With : Vec → Labels → outcome Series;
  MustRegister : Registerer → list Vec → outcome Registerer;
  vec_Collect : Vec → list Series;       (** the series that exist *)
  Desc : Vec → string
}.

(** The fully-qualified name, with which a vector is registered. *)
Definition fq_name (opts : Opts) : string := Opts_Namespace opts +:+ "_" +:+ Opts_Name opts.

(** [registry]: controller-runtime's registry before the package is loaded,
    which has no name of the package's. *)
Class PromLaws `{PromLib} (registry : Registerer) := {
  With_declared : ∀ kind opts names labels, dom labels = list_to_set names →
    ∃ s, With (NewVec kind opts names) labels = Ret s;
  With_other : ∀ kind opts names labels, dom labels ≠ list_to_set names →
    ∃ why, With (NewVec kind opts names) labels = Panic why;
  With_inj : ∀ kind opts names labels kind' opts' names' labels' s,
    With (NewVec kind opts names) labels = Ret s → With (NewVec kind' opts' names') labels' = Ret s →
    fq_name opts = fq_name opts' ∧ labels = labels';
  MustRegister_fresh : ∀ (vecs : list (vec_kind * Opts * list string)),
    NoDup (fq_name <$> vecs.*1.*2) → ∃ reg, MustRegister registry ((λ v, NewVec v.1.1 v.1.2 v.2) <$> vecs) = Ret reg
}.

Section Collector.
Context `{PromLib}.

Definition _namespace : string := "amesh".

(** The package's variables, which every collector shares. *)
Record collector := mkCollector {
  instances : Vec;
  controllerEvents : Vec;
  controllerErrors : Vec
}.

Definition const_labels (env : environment) : Labels :=
  let podName := env "POD_NAME" in
  let podNamespace := env "POD_NAMESPACE" in
  let podNamespace := if bool_decide (podNamespace = "") then "default" else podNamespace in
  {["controller_pod" := podName; "controller_namespace" := podNamespace]}.

Definition instances_opts (env : environment) : Opts :=
  mkOpts _namespace "managed_instances" "Number of managed instances" (const_labels env).
Definition events_opts (env : environment) : Opts :=
  mkOpts _namespace "events_total" "Number of events handled by the controller" (const_labels env).
Definition errors_opts (env : environment) : Opts :=
  mkOpts _namespace "errors_total" "Number of errors handled by the controller" (const_labels env).

(** [init] *)
Definition metrics_init (env : environment) (registry : Registerer) : outcome (collector * Registerer) :=
  let instances := NewVec GaugeKind (instances_opts env) ["resource"] in
  let controllerEvents := NewVec CounterKind (events_opts env) ["operation"; "resource"] in
  let controllerErrors := NewVec CounterKind (errors_opts env) ["operation"; "resource"] in
  registry ← MustRegister registry [instances; controllerEvents; controllerErrors];
  Ret (mkCollector instances controllerEvents controllerErrors, registry).

Definition NewPrometheusCollector (package : collector) : collector :=
  mkCollector (instances package) (controllerEvents package) (controllerErrors package).

(** An update of a series. *)
Inductive series_update : Type := SeriesInc (s : Series) | SeriesDec (s : Series).

Definition collector_IncManagedInstances (c : collector) : outcome series_update :=
  s ← With (instances c) {["resource" := "managed_instances"]}; Ret (SeriesInc s).

Definition collector_DecManagedInstances (c : collector) : outcome series_update :=
  s ← With (instances c) {["resource" := "managed_instances"]}; Ret (SeriesDec s).

Definition AddEvent (c : collector) (resource operation : string) : outcome series_update :=
  s ← With (controllerEvents c) {["operation" := operation; "resource" := resource]}; Ret (SeriesInc s).

(** [Collect] and [Describe]: the vector of the errors is left out. *)
Definition Collect (c : collector) : list Series := vec_Collect (instances c) ++ vec_Collect (controllerEvents c).
Definition Describe (c : collector) : list string := [Desc (instances c); Desc (controllerEvents c)].
End Collector.

(** ** The exported gauge *)

Section Exported.
Context `{PromLib} `{EqDecision Series}.

(** The calls of the instance manager and of others. *)
Inductive metric_call : Type := CallInc | CallDec | CallEvent (resource operation : string).

Definition metric_update (c : collector) (call : metric_call) : outcome series_update :=
  match call with
  | CallInc => collector_IncManagedInstances c
  | CallDec => collector_DecManagedInstances c
  | CallEvent resource operation => AddEvent c resource operation
  end.

(** The value of a series after some updates. *)
Definition apply_update (s : Series) (value : Z) (u : series_update) : Z :=
  match u with
  | SeriesInc s' => if decide (s' = s) then value + 1 else value
  | SeriesDec s' => if decide (s' = s) then value - 1 else value
  end.

Definition metric_value (s : Series) (us : list series_update) : Z := foldl (apply_update s) 0 us.

(** The gauge of GrpcServer.v under the same calls. *)
Definition gauge_call (gauge : Z) (call : metric_call) : Z :=
  match call with
  | CallInc => IncManagedInstances gauge
  | CallDec => DecManagedInstances gauge
  | CallEvent _ _ => gauge
  end.

Lemma metrics_init_ok env registry :
  PromLaws registry → ∃ registry', metrics_init env registry =
    Ret (mkCollector (NewVec GaugeKind (instances_opts env) ["resource"])
           (NewVec CounterKind (events_opts env) ["operation"; "resource"])
           (NewVec CounterKind (errors_opts env) ["operation"; "resource"]), registry').
Proof.
  intros Hlaws. destruct (MustRegister_fresh [(GaugeKind, instances_opts env, ["resource"]);
    (CounterKind, events_opts env, ["operation"; "resource"]); (CounterKind, errors_opts env, ["operation"; "resource"])]) as [reg Hreg].
  - apply (bool_decide_unpack _). by vm_compute.
  - exists reg. unfold metrics_init. cbn in Hreg |- *. by rewrite Hreg.
Qed.

(** One call: its series exists, and only the calls of the manager move the
    gauge, since the events have another name. *)
Lemma metric_update_ok env registry registry' c s call :
  PromLaws registry → metrics_init env registry = Ret (c, registry') →
  With (instances c) {["resource" := "managed_instances"]} = Ret s →
  ∃ u, metric_update (NewPrometheusCollector c) call = Ret u ∧ ∀ v, apply_update s v u = gauge_call v call.
Proof.
  intros Hlaws Hinit Hs. destruct (metrics_init_ok env registry Hlaws) as [reg Heq]. rewrite Hinit in Heq. injection Heq as -> ->.
  destruct call as [| |resource operation]; cbn in Hs |- *.
  - unfold collector_IncManagedInstances. cbn. rewrite Hs. eexists. split; [reflexivity|]. intros v. cbn. by rewrite decide_True.
  - unfold collector_DecManagedInstances. cbn. rewrite Hs. eexists. split; [reflexivity|]. intros v. cbn. by rewrite decide_True.
  - unfold AddEvent. cbn.
    destruct (With_declared CounterKind (events_opts env) ["operation"; "resource"] {["operation" := operation; "resource" := resource]}) as [s' Hs'];
      [set_solver|].
    rewrite Hs'. eexists. split; [reflexivity|]. intros v. cbn. rewrite decide_False; [done|]. intros ->.
    by destruct (With_inj _ _ _ _ _ _ _ _ _ Hs Hs') as [Hname _].
Qed.

(** No call of the collector panics, and the series that is exported as
    amesh_managed_instances has, whatever events are counted in between, the
    value of the gauge that the instance manager is modelled with. *)
Theorem managed_instances_exported env registry calls :
  PromLaws registry →
  ∃ c registry' s us, metrics_init env registry = Ret (c, registry') ∧
    With (instances c) {["resource" := "managed_instances"]} = Ret s ∧
    mapM (metric_update (NewPrometheusCollector c)) calls = Ret us ∧
    metric_value s us = foldl gauge_call 0 calls.
Proof.
  intros Hlaws. destruct (metrics_init_ok env registry Hlaws) as [registry' Hinit].
  destruct (With_declared GaugeKind (instances_opts env) ["resource"] {["resource" := "managed_instances"]}) as [s Hs]; [set_solver|].
  eexists _, registry', s. unfold metric_value. generalize 0 as v. induction calls as [|call calls IH]; intros v; [by exists []|].
  destruct (metric_update_ok env registry registry' _ s call Hlaws Hinit Hs) as (u & Hu & Happly).
  destruct (IH (gauge_call v call)) as (us & _ & _ & Hus & Hv). exists (u :: us). split_and!; [done..| |].
  - cbn [mapM]. by rewrite Hu; cbn; rewrite Hus.
  - cbn. by rewrite Happly, Hv.
Qed.
End Exported.

(** ** A client *)

Definition prom_example : PromLib := {|
  Vec := string * gset string;
  Series := string * Labels;
  Registerer := gset string;
  NewVec _ opts names := (fq_name opts, list_to_set names);
  With v labels := if decide (dom labels = v.2) then Ret (v.1, labels) else Panic "inconsistent label cardinality";
  MustRegister reg vecs :=
    go_foldl (λ reg v, if decide (v.1 ∈ reg) then Panic "duplicate metrics collector registration attempted" else Ret ({[v.1]} ∪ reg))
      reg vecs;
  vec_Collect _ := [];
  Desc v := v.1
|}.

Lemma prom_example_laws : @PromLaws prom_example ∅.
Proof.
  split.
  - intros kind opts names labels Hd. cbn. rewrite decide_True by done. by eexists.
  - intros kind opts names labels Hd. cbn. rewrite decide_False by done. by eexists.
  - intros kind opts names labels kind' opts' names' labels' s. cbn. repeat case_decide; try done. by intros [= <-] [= -> ->].
  - intros vecs. cbn. assert (∀ reg : gset string, NoDup (fq_name <$> vecs.*1.*2) → (∀ v, v ∈ vecs → fq_name v.1.2 ∉ reg) →
      ∃ reg', go_foldl (λ reg (v : string * gset string), if decide (v.1 ∈ reg)
          then Panic "duplicate metrics collector registration attempted" else Ret ({[v.1]} ∪ reg)) reg
        ((λ v, (fq_name v.1.2, list_to_set v.2)) <$> vecs) = Ret reg') as Hgen; [|intros Hnd; apply Hgen; [done|set_solver]].
    induction vecs as [|[[kind opts] names] vecs IH]; intros reg Hnd Hfresh; [by eexists|]. cbn in Hnd |- *.
    apply NoDup_cons in Hnd as [Hn Hnd]. rewrite decide_False by (apply (Hfresh (kind, opts, names)); by left).
    cbn. apply IH; [done|]. intros v Hv. apply not_elem_of_union. split; [|apply Hfresh; by right].
    intros Heq%elem_of_singleton. apply Hn. rewrite <- Heq. apply list_elem_of_fmap_2, list_elem_of_fmap_2. by apply list_elem_of_fmap_2.
Qed.
