(* ===== verification/Validate.v ===== *)
(** * The validators of the protocol (src/api/go/proto/v1, the files
    named .pb.validate.go)

    Each message of api/proto/v1 has [Validate], which returns the first
    violated rule, and [ValidateAll], which collects all of them.  An error is
    a violation of a field, with the error of the message in that field as its
    cause, or the list that [ValidateAll] wraps.  The messages of other
    packages (google.rpc.Status, google.protobuf.Any) are parameters: they may
    have either method or none, and the type switches of the code ask which. *)

From S2P Require Import Prelude GoStrings Json AmeshPlugins.
Local Open Scope Z_scope.

(** [utf8.RuneCountInString]: a byte that starts no valid sequence counts as
    one. *)
Fixpoint RuneCountInString (s : string) : Z :=
  match s with
  | "" => 0
  | String c1 s1 =>
      if byte c1 <? 128 then 1 + RuneCountInString s1 else
      match s1 with
      | "" => 1
      | String c2 s2 =>
          if valid2 (byte c1) (byte c2) then 1 + RuneCountInString s2 else
          match s2 with
          | "" => 1 + RuneCountInString s1
          | String c3 s3 =>
              if valid3 (byte c1) (byte c2) (byte c3) then 1 + RuneCountInString s3 else
              match s3 with
              | "" => 1 + RuneCountInString s1
              | String c4 s4 =>
                  if valid4 (byte c1) (byte c2) (byte c3) (byte c4) then 1 + RuneCountInString s4
                  else 1 + RuneCountInString s1
              end
          end
      end
  end.

(** ** Errors *)

(** The fields of an [XValidationError]. *)
Record violation (E : Type) := mkViolation {
  field : string;
  reason : string;
  cause : option E;
  key : bool
}.

Arguments mkViolation {E}.
Arguments field {E}.
Arguments reason {E}.
Arguments cause {E}.
Arguments key {E}.

(** An error: the dynamic type is given by the name of the message. *)
#[local] Set Warnings "-register-all".

Inductive verror : Type :=
| ValidationError (message : string) (v : violation verror)
| MultiError (message : string) (errors : list verror)
| OtherError (text : string).     (** of another package *)

(** The accessors. *)
Definition Field (v : violation verror) : string := field v.
Definition Reason (v : violation verror) : string := reason v.
Definition Cause (v : violation verror) : option verror := cause v.
Definition Key (v : violation verror) : bool := key v.
Definition ErrorName (message : string) : string := message +:+ "ValidationError".

Definition violation_Error (Error : verror → string) (message : string) (v : violation verror) : string :=
  let cause := match cause v with Some err => " | caused by: " +:+ Error err | None => "" end in
  let key := if key v then "key for " else "" in
  "invalid " +:+ key +:+ message +:+ "." +:+ field v +:+ ": " +:+ reason v +:+ cause.

Definition multi_Error (Error : verror → string) (errors : list verror) : string := Join (map Error errors) "; ".

(** [Error], by the dynamic type. *)
Fixpoint Error (err : verror) : string :=
  match err with
  | ValidationError message v => violation_Error Error message v
  | MultiError _ errors => multi_Error Error errors
  | OtherError text => text
  end.

Definition AllErrors (err : verror) : list verror := match err with MultiError _ errors => errors | _ => [] end.

(** ** The pattern of the generated code *)

(** Return an error at once, or go on with those collected. *)
Definition early (A : Type) : Type := (verror + A)%type.
#[export] Instance early_ret : MRet early := λ A, inr.
#[export] Instance early_bind : MBind early := λ A B f m, match m with inl err => inl err | inr a => f a end.

(** A rule on a field. *)
Definition field_rule (all violated : bool) (err : verror) (errors : list verror) : early (list verror) :=
  if violated then (if all then inr (errors ++ [err]) else inl err) else inr errors.

(** The methods that a type has, of those that the type switch looks for. *)
Record methods (T : Type) := mkMethods {
  method_ValidateAll : option (option T → option verror);
  method_Validate : option (option T → option verror)
}.

Arguments mkMethods {T}.
Arguments method_ValidateAll {T}.
Arguments method_Validate {T}.

(** The call that is made on an embedded message, if any. *)
Definition embedded_error {T} (all : bool) (M : methods T) (v : option T) : option verror :=
  if all then
    match method_ValidateAll M with
    | Some ValidateAll => ValidateAll v
    | None => match method_Validate M with Some Validate => Validate v | None => None end
    end
  else match method_Validate M with Some Validate => Validate v | None => None end.

Definition embedded {T} (all : bool) (M : methods T) (fail : verror → verror) (v : option T) (errors : list verror) :
    early (list verror) :=
  match embedded_error all M v with
  | Some err => if all then inr (errors ++ [fail err]) else inl (fail err)
  | None => inr errors
  end.

(** [for idx, item := range items] *)
Fixpoint embedded_items {T} (all : bool) (M : methods T) (fail : nat → verror → verror) (idx : nat) (items : list T)
    (errors : list verror) : early (list verror) :=
  match items with
  | [] => mret errors
  | item :: items => errors ← embedded all M (fail idx) (Some item) errors; embedded_items all M fail (S idx) items errors
  end.

(** The end of a validator. *)
Definition finish (multi : list verror → verror) (r : early (list verror)) : option verror :=
  match r with
  | inl err => Some err
  | inr errors => if (0 <? Z.of_nat (length errors)) then Some (multi errors) else None
  end.

Definition index_field (name : string) (idx : nat) : string := name +:+ "[" +:+ itoa (Z.of_nat idx) +:+ "]".
Definition embedded_reason : string := "embedded message failed validation".

(** ** healthcheck.proto *)

Inductive Empty : Type := mkEmpty.

Definition EmptyValidationError (f r : string) (c : option verror) : verror := ValidationError "Empty" (mkViolation f r c false).
Definition EmptyValidationError_Error : violation verror → string := violation_Error Error "Empty".
Definition EmptyMultiError : list verror → verror := MultiError "Empty".
Definition EmptyMultiError_Error : list verror → string := multi_Error Error.

Definition Empty_validate (all : bool) (m : option Empty) : option verror :=
  match m with
  | None => None
  | Some _ => finish EmptyMultiError (mret [])
  end.

Definition Empty_Validate : option Empty → option verror := Empty_validate false.
Definition Empty_ValidateAll : option Empty → option verror := Empty_validate true.

Record HealthCheckResponse := mkHealthCheckResponse { HCR_Text : string }.

Definition HealthCheckResponseValidationError (f r : string) (c : option verror) : verror :=
  ValidationError "HealthCheckResponse" (mkViolation f r c false).
Definition HealthCheckResponseValidationError_Error : violation verror → string := violation_Error Error "HealthCheckResponse".
Definition HealthCheckResponseMultiError : list verror → verror := MultiError "HealthCheckResponse".
Definition HealthCheckResponseMultiError_Error : list verror → string := multi_Error Error.

(** No rules for the text. *)
Definition HealthCheckResponse_validate (all : bool) (m : option HealthCheckResponse) : option verror :=
  match m with
  | None => None
  | Some _ => finish HealthCheckResponseMultiError (mret [])
  end.

Definition HealthCheckResponse_Validate : option HealthCheckResponse → option verror := HealthCheckResponse_validate false.
Definition HealthCheckResponse_ValidateAll : option HealthCheckResponse → option verror := HealthCheckResponse_validate true.

(** ** instance.proto *)

Record Instance := mkInstance { Instance_Key : string }.

Definition InstanceValidationError (f r : string) (c : option verror) : verror :=
  ValidationError "Instance" (mkViolation f r c false).
Definition InstanceValidationError_Error : violation verror → string := violation_Error Error "Instance".
Definition InstanceMultiError : list verror → verror := MultiError "Instance".
Definition InstanceMultiError_Error : list verror → string := multi_Error Error.

Definition Instance_validate (all : bool) (m : option Instance) : option verror :=
  match m with
  | None => None
  | Some m =>
      finish InstanceMultiError
        (let l := RuneCountInString (Instance_Key m) in
         field_rule all ((l <? 2) || (253 <? l))
           (InstanceValidationError "Key" "value length must be between 2 and 253 runes, inclusive" None) [])
  end.

Definition Instance_Validate : option Instance → option verror := Instance_validate false.
Definition Instance_ValidateAll : option Instance → option verror := Instance_validate true.

Definition Instance_methods : methods Instance := mkMethods (Some Instance_ValidateAll) (Some Instance_Validate).

(** ** types.proto *)

Definition AmeshPluginValidationError (f r : string) (c : option verror) : verror :=
  ValidationError "AmeshPlugin" (mkViolation f r c false).
Definition AmeshPluginValidationError_Error : violation verror → string := violation_Error Error "AmeshPlugin".
Definition AmeshPluginMultiError : list verror → verror := MultiError "AmeshPlugin".
Definition AmeshPluginMultiError_Error : list verror → string := multi_Error Error.

Definition AmeshPlugin_Type_InLookup : gset string := {[""; "pre-req"; "post-req"]}.

Definition AmeshPlugin_validate (all : bool) (m : option AmeshPlugin) : option verror :=
  match m with
  | None => None
  | Some m =>
      finish AmeshPluginMultiError
        (errors ← field_rule all (bool_decide (AmeshPlugin_Type m ∉ AmeshPlugin_Type_InLookup))
           (AmeshPluginValidationError "Type" "value must be in list [ pre-req post-req]" None) [];
         errors ← field_rule all (RuneCountInString (AmeshPlugin_Name m) <? 1)
           (AmeshPluginValidationError "Name" "value length must be at least 1 runes" None) errors;
         field_rule all (RuneCountInString (AmeshPlugin_Config m) <? 2)
           (AmeshPluginValidationError "Config" "value length must be at least 2 runes" None) errors)
  end.

Definition AmeshPlugin_Validate : option AmeshPlugin → option verror := AmeshPlugin_validate false.
Definition AmeshPlugin_ValidateAll : option AmeshPlugin → option verror := AmeshPlugin_validate true.

Definition AmeshPlugin_methods : methods AmeshPlugin := mkMethods (Some AmeshPlugin_ValidateAll) (Some AmeshPlugin_Validate).

Definition AmeshPluginConfigValidationError (f r : string) (c : option verror) : verror :=
  ValidationError "AmeshPluginConfig" (mkViolation f r c false).
Definition AmeshPluginConfigValidationError_Error : violation verror → string := violation_Error Error "AmeshPluginConfig".
Definition AmeshPluginConfigMultiError : list verror → verror := MultiError "AmeshPluginConfig".
Definition AmeshPluginConfigMultiError_Error : list verror → string := multi_Error Error.

Definition AmeshPluginConfig_validate (all : bool) (m : option AmeshPluginConfig) : option verror :=
  match m with
  | None => None
  | Some m =>
      finish AmeshPluginConfigMultiError
        (errors ← field_rule all (RuneCountInString (APC_Name m) <? 1)
           (AmeshPluginConfigValidationError "Name" "value length must be at least 1 runes" None) [];
         errors ← embedded_items all AmeshPlugin_methods
           (λ idx err, AmeshPluginConfigValidationError (index_field "Plugins" idx) embedded_reason (Some err))
           0 (APC_Plugins m) errors;
         field_rule all (RuneCountInString (APC_Version m) <? 1)
           (AmeshPluginConfigValidationError "Version" "value length must be at least 1 runes" None) errors)
  end.

Definition AmeshPluginConfig_Validate : option AmeshPluginConfig → option verror := AmeshPluginConfig_validate false.
Definition AmeshPluginConfig_ValidateAll : option AmeshPluginConfig → option verror := AmeshPluginConfig_validate true.

Definition AmeshPluginConfig_methods : methods AmeshPluginConfig :=
  mkMethods (Some AmeshPluginConfig_ValidateAll) (Some AmeshPluginConfig_Validate).

(** ** service.proto *)

Record PluginsRequest := mkPluginsRequest { Request_Instance : option Instance }.

(** What [ameshProvisioner.run] sends. *)
Definition plugins_request (p : ameshProvisioner) : PluginsRequest := mkPluginsRequest (Some (mkInstance (instance_key p))).

Definition PluginsRequestValidationError (f r : string) (c : option verror) : verror :=
  ValidationError "PluginsRequest" (mkViolation f r c false).
Definition PluginsRequestValidationError_Error : violation verror → string := violation_Error Error "PluginsRequest".
Definition PluginsRequestMultiError : list verror → verror := MultiError "PluginsRequest".
Definition PluginsRequestMultiError_Error : list verror → string := multi_Error Error.

Definition PluginsRequest_validate (all : bool) (m : option PluginsRequest) : option verror :=
  match m with
  | None => None
  | Some m =>
      finish PluginsRequestMultiError
        (errors ← field_rule all (bool_decide (Request_Instance m = None))
           (PluginsRequestValidationError "Instance" "value is required" None) [];
         embedded all Instance_methods
           (λ err, PluginsRequestValidationError "Instance" embedded_reason (Some err)) (Request_Instance m) errors)
  end.

Definition PluginsRequest_Validate : option PluginsRequest → option verror := PluginsRequest_validate false.
Definition PluginsRequest_ValidateAll : option PluginsRequest → option verror := PluginsRequest_validate true.

Definition PluginsResponseValidationError (f r : string) (c : option verror) : verror :=
  ValidationError "PluginsResponse" (mkViolation f r c false).
Definition PluginsResponseValidationError_Error : violation verror → string := violation_Error Error "PluginsResponse".
Definition PluginsResponseMultiError : list verror → verror := MultiError "PluginsResponse".
Definition PluginsResponseMultiError_Error : list verror → string := multi_Error Error.

Section Response.
Context (status_methods : methods (Z * string)).

Definition PluginsResponse_validate (all : bool) (m : option PluginsResponse) : option verror :=
  match m with
  | None => None
  | Some m =>
      finish PluginsResponseMultiError
        (errors ← embedded all status_methods
           (λ err, PluginsResponseValidationError "ErrorMessage" embedded_reason (Some err)) (PR_ErrorMessage m) [];
         embedded_items all AmeshPluginConfig_methods
           (λ idx err, PluginsResponseValidationError (index_field "Plugins" idx) embedded_reason (Some err))
           0 (PR_Plugins m) errors)
  end.

Definition PluginsResponse_Validate : option PluginsResponse → option verror := PluginsResponse_validate false.
Definition PluginsResponse_ValidateAll : option PluginsResponse → option verror := PluginsResponse_validate true.
End Response.

(** ** event.proto and resource.proto, whose sources are gone *)

Section AnyMessage.
Context {Any : Type} (any_methods : methods Any).

Record Event_message := mkEvent {
  EM_Type : Z;
  EM_Payload : option Any;
  EM_Stamp : Z;
  EM_ObjectId : string
}.

Record Resource_message := mkResource {
  RM_Type : Z;
  RM_Payload : option Any
}.

Definition EventValidationError (f r : string) (c : option verror) : verror := ValidationError "Event" (mkViolation f r c false).
Definition EventValidationError_Error : violation verror → string := violation_Error Error "Event".
Definition EventMultiError : list verror → verror := MultiError "Event".
Definition EventMultiError_Error : list verror → string := multi_Error Error.

Definition Event_validate (all : bool) (m : option Event_message) : option verror :=
  match m with
  | None => None
  | Some m =>
      finish EventMultiError
        (errors ← embedded all any_methods
           (λ err, EventValidationError "Payload" embedded_reason (Some err)) (EM_Payload m) [];
         let l := RuneCountInString (EM_ObjectId m) in
         field_rule all ((l <? 1) || (64 <? l))
           (EventValidationError "ObjectId" "value length must be between 1 and 64 runes, inclusive" None) errors)
  end.

Definition Event_Validate : option Event_message → option verror := Event_validate false.
Definition Event_ValidateAll : option Event_message → option verror := Event_validate true.

Definition ResourceValidationError (f r : string) (c : option verror) : verror :=
  ValidationError "Resource" (mkViolation f r c false).
Definition ResourceValidationError_Error : violation verror → string := violation_Error Error "Resource".
Definition ResourceMultiError : list verror → verror := MultiError "Resource".
Definition ResourceMultiError_Error : list verror → string := multi_Error Error.

Definition Resource_validate (all : bool) (m : option Resource_message) : option verror :=
  match m with
  | None => None
  | Some m =>
      finish ResourceMultiError
        (embedded all any_methods
           (λ err, ResourceValidationError "Payload" embedded_reason (Some err)) (RM_Payload m) [])
  end.

Definition Resource_Validate : option Resource_message → option verror := Resource_validate false.
Definition Resource_ValidateAll : option Resource_message → option verror := Resource_validate true.
End AnyMessage.
