(* ===== verification/ValidateSpec.v ===== *)
(** * What the validators accept and report

    The rules of api/proto/v1 as propositions; [Validate] and [ValidateAll]
    both accept exactly the messages that obey them; on others [Validate]
    returns the first of the errors that [ValidateAll] collects.  The messages
    that the controller sends obey the rules. *)

From S2P Require Import Prelude GoStrings Json AmeshPlugins ControllerTypes ControllerUtils SelectorCache.
From S2P Require Import Reconciler Interleaving GrpcServer Validate.
Local Open Scope Z_scope.

(** ** The rules *)

Definition Instance_valid (m : Instance) : Prop := 2 ≤ RuneCountInString (Instance_Key m) ≤ 253.

Record AmeshPlugin_valid (m : AmeshPlugin) : Prop := {
  APV_type : AmeshPlugin_Type m = "" ∨ AmeshPlugin_Type m = "pre-req" ∨ AmeshPlugin_Type m = "post-req";
  APV_name : 1 ≤ RuneCountInString (AmeshPlugin_Name m);
  APV_config : 2 ≤ RuneCountInString (AmeshPlugin_Config m)
}.

Record AmeshPluginConfig_valid (m : AmeshPluginConfig) : Prop := {
  APCV_name : 1 ≤ RuneCountInString (APC_Name m);
  APCV_plugins : Forall AmeshPlugin_valid (APC_Plugins m);
  APCV_version : 1 ≤ RuneCountInString (APC_Version m)
}.

Definition PluginsRequest_valid (m : PluginsRequest) : Prop :=
  ∃ instance, Request_Instance m = Some instance ∧ Instance_valid instance.

(** [status_ok]: what the other package accepts. *)
Record PluginsResponse_valid (status_ok : option (Z * string) → Prop) (m : PluginsResponse) : Prop := {
  PRV_error : status_ok (PR_ErrorMessage m);
  PRV_plugins : Forall AmeshPluginConfig_valid (PR_Plugins m)
}.

(** A single error is the first one of what [ValidateAll] collects: of a list the
    first of its first element, of the error of a field the same with the first
    of its cause.  It never holds a list. *)
Inductive reports : verror → verror → Prop :=
| reports_rule message f r k :
    reports (ValidationError message (mkViolation f r None k)) (ValidationError message (mkViolation f r None k))
| reports_other text : reports (OtherError text) (OtherError text)
| reports_cause message f r c c' k : reports c c' →
    reports (ValidationError message (mkViolation f r (Some c) k)) (ValidationError message (mkViolation f r (Some c') k))
| reports_first err err' message errs : reports err err' → reports err (MultiError message (err' :: errs)).

(** What a type that may be embedded promises. *)
Class Validator {T} (M : methods T) (valid : option T → Prop) : Prop := {
  validator_ok all v : embedded_error all M v = None ↔ valid v;
  validator_reports v : option_Forall2 reports (embedded_error false M v) (embedded_error true M v)
}.

(** ** The pattern *)

(** A check that finds the errors [bad]. *)
Definition checks (f : bool → list verror → early (list verror)) (bad : list verror) : Prop :=
  (∀ errors, f true errors = inr (errors ++ bad)) ∧
  match bad with
  | [] => ∀ errors, f false errors = inr errors
  | err' :: _ => ∃ err, reports err err' ∧ ∀ errors, f false errors = inl err
  end.

Lemma checks_seq f g bad1 bad2 :
  checks f bad1 → checks g bad2 → checks (λ all errors, errors ← f all errors; g all errors) (bad1 ++ bad2).
Proof.
  intros [Hft Hff] [Hgt Hgf]. split.
  - intros errors. rewrite Hft. cbn. by rewrite Hgt, app_assoc.
  - destruct bad1 as [|err' bad1]; cbn [app].
    + destruct bad2 as [|err' bad2]; [intros errors; by rewrite Hff; cbn; rewrite Hgf|].
      destruct Hgf as (err & Hr & Hgf). exists err. split; [done|]. intros errors. by rewrite Hff; cbn; rewrite Hgf.
    + destruct Hff as (err & Hr & Hff). exists err. split; [done|]. intros errors. by rewrite Hff.
Qed.

Lemma field_rule_checks violated message f r k (err := ValidationError message (mkViolation f r None k)) :
  checks (λ all, field_rule all violated err) (if violated then [err] else []).
Proof.
  unfold field_rule. destruct violated; split; try done.
  - exists err. split; [constructor|done].
  - intros errors. by rewrite app_nil_r.
Qed.

Definition embedded_bad {T} (M : methods T) (fail : verror → verror) (v : option T) : list verror :=
  match embedded_error true M v with Some err => [fail err] | None => [] end.

Definition keeps_reports (fail : verror → verror) : Prop := ∀ err err', reports err err' → reports (fail err) (fail err').

Lemma embedded_checks {T} (M : methods T) valid `{!Validator M valid} fail v :
  keeps_reports fail → checks (λ all, embedded all M fail v) (embedded_bad M fail v).
Proof.
  intros Hfail. unfold checks, embedded, embedded_bad. cbn beta. pose proof (validator_reports (M := M) v) as Hr.
  destruct Hr as [err err' He|].
  - split; [done|]. exists (fail err). by split; [apply Hfail|].
  - split; [intros errors; by rewrite app_nil_r|done].
Qed.

(** The errors of a list of messages, from an index on. *)
Fixpoint items_bad {T} (M : methods T) (fail : nat → verror → verror) (idx : nat) (items : list T) : list verror :=
  match items with
  | [] => []
  | item :: items => embedded_bad M (fail idx) (Some item) ++ items_bad M fail (S idx) items
  end.

Lemma embedded_items_checks {T} (M : methods T) valid `{!Validator M valid} fail items idx :
  (∀ idx, keeps_reports (fail idx)) → checks (λ all, embedded_items all M fail idx items) (items_bad M fail idx items).
Proof.
  intros Hfail. revert idx. induction items as [|item items IH]; intros idx; cbn [embedded_items items_bad].
  - split; [intros errors; by rewrite app_nil_r|done].
  - apply (checks_seq (λ all, embedded all M (fail idx) (Some item)) (λ all, embedded_items all M fail (S idx) items)); [by eapply embedded_checks|apply IH].
Qed.

Lemma embedded_bad_nil {T} (M : methods T) valid `{!Validator M valid} fail v : embedded_bad M fail v = [] ↔ valid v.
Proof.
  rewrite <- (validator_ok true v). unfold embedded_bad. by destruct (embedded_error true M v).
Qed.

Lemma items_bad_nil {T} (M : methods T) valid `{!Validator M valid} fail items idx :
  items_bad M fail idx items = [] ↔ Forall (λ item, valid (Some item)) items.
Proof.
  revert idx. induction items as [|item items IH]; intros idx; cbn [items_bad]; [by split; [constructor|]|].
  by rewrite app_nil, (embedded_bad_nil M), IH, Forall_cons.
Qed.

(** The field that an error is about. *)
Definition error_field (err : verror) : option string :=
  match err with ValidationError _ v => Some (Field v) | _ => None end.

Lemma embedded_bad_field {T} (M : methods T) valid `{!Validator M valid} fail name v f :
  (∀ err, error_field (fail err) = Some name) →
  f ∈ omap error_field (embedded_bad M fail v) ↔ f = name ∧ ¬ valid v.
Proof.
  intros Hname. rewrite <- (validator_ok true v). unfold embedded_bad. destruct (embedded_error true M v) as [err|]; cbn.
  - rewrite Hname, elem_of_cons, elem_of_nil. naive_solver.
  - rewrite elem_of_nil. naive_solver.
Qed.

Lemma items_bad_field {T} (M : methods T) valid `{!Validator M valid} fail name items idx f :
  (∀ idx err, error_field (fail idx err) = Some (name idx)) →
  f ∈ omap error_field (items_bad M fail idx items) ↔
  ∃ i item, items !! i = Some item ∧ ¬ valid (Some item) ∧ f = name (idx + i)%nat.
Proof.
  intros Hname. revert idx. induction items as [|item items IH]; intros idx; cbn [items_bad].
  - cbn. rewrite elem_of_nil. split; [done|]. intros (i & item & Hi & _). by rewrite lookup_nil in Hi.
  - rewrite omap_app, elem_of_app, (embedded_bad_field M valid _ (name idx)) by apply Hname. rewrite IH. split.
    + intros [[-> Hv]|(i & item' & Hi & Hv & ->)]; [exists 0%nat, item|exists (S i), item']; split_and!; try done; f_equal; lia.
    + intros ([|i] & item' & Hi & Hv & ->); cbn in Hi.
      * injection Hi as ->. left. split; [f_equal; lia|done].
      * right. exists i, item'. split_and!; [done..|f_equal; lia].
Qed.

(** The whole of a validator. *)
Lemma finish_checks multi f bad :
  (∀ errs, ∃ message, multi errs = MultiError message errs) → checks f bad →
  finish multi (f true []) = match bad with [] => None | _ => Some (multi bad) end ∧
  option_Forall2 reports (finish multi (f false [])) (finish multi (f true [])) ∧
  ∀ all, finish multi (f all []) = None ↔ bad = [].
Proof.
  intros Hmulti [Ht Hf]. rewrite Ht. cbn [app finish]. destruct bad as [|err' bad]; cbn [length].
  - rewrite Hf. cbn. split_and!; [done|constructor|]. intros []; [|rewrite Hf]; rewrite ?Ht; by cbn.
  - destruct Hf as (err & Hr & Hf). rewrite Hf. rewrite (proj2 (Z.ltb_lt 0 _)) by lia. split_and!; [done| |].
    + cbn. constructor. destruct (Hmulti (err' :: bad)) as [message ->]. by constructor.
    + intros []; [rewrite Ht|rewrite Hf]; cbn; [by rewrite (proj2 (Z.ltb_lt 0 _)) by lia|done].
Qed.

(** A nil message is accepted. *)
Definition option_valid {T} (P : T → Prop) (v : option T) : Prop := match v with Some m => P m | None => True end.

(** A validator that is a sequence of checks. *)
Record checked_by {T} (validate : bool → option T → option verror) (multi : list verror → verror) (P : T → Prop)
    (m : T) (bad : list verror) : Prop := {
  CB_all : validate true (Some m) = match bad with [] => None | _ => Some (multi bad) end;
  CB_first : option_Forall2 reports (validate false (Some m)) (validate true (Some m));
  CB_none : ∀ all, validate all (Some m) = None ↔ bad = [];
  CB_valid : bad = [] ↔ P m
}.

Lemma checked_by_checks {T} (validate : bool → option T → option verror) message (P : T → Prop) m f bad :
  (∀ all, validate all (Some m) = finish (MultiError message) (f all [])) → checks f bad → (bad = [] ↔ P m) →
  checked_by validate (MultiError message) P m bad.
Proof.
  intros Heq Hf HP. destruct (finish_checks (MultiError message) f bad) as (Hall & Hfirst & Hnone); [by eexists|done|].
  split; [by rewrite Heq|by rewrite !Heq|intros all; by rewrite Heq|done].
Qed.

Lemma validator_of {T} (validate : bool → option T → option verror) multi (P : T → Prop) :
  (∀ all, validate all None = None) → (∀ m, ∃ bad, checked_by validate multi P m bad) →
  Validator (mkMethods (Some (validate true)) (Some (validate false))) (option_valid P).
Proof.
  intros Hnil Hall. split.
  - intros all [m|]; [destruct (Hall m) as [bad [_ _ Hn <-]]|]; destruct all; cbn; [apply Hn|apply Hn|by rewrite Hnil..].
  - intros [m|]; cbn; [|rewrite !Hnil; constructor]. destruct (Hall m) as [bad [_ Hf _ _]]. apply Hf.
Qed.

Lemma rule_bad_nil (violated : bool) (err : verror) : (if violated then [err] else []) = [] ↔ violated = false.
Proof. by destruct violated. Qed.

(** ** The messages *)

Lemma Instance_checked m : ∃ bad, checked_by Instance_validate InstanceMultiError Instance_valid m bad.
Proof.
  eexists. eapply (checked_by_checks _ _ _ _ (λ all, field_rule all _ _)); [intros all; reflexivity|apply field_rule_checks|].
  rewrite rule_bad_nil. unfold Instance_valid. rewrite orb_false_iff, !Z.ltb_ge. lia.
Qed.

#[export] Instance Instance_validator : Validator Instance_methods (option_valid Instance_valid).
Proof. by apply (validator_of Instance_validate InstanceMultiError), Instance_checked. Qed.

Lemma Type_InLookup_spec t :
  bool_decide (t ∉ AmeshPlugin_Type_InLookup) = false ↔ t = "" ∨ t = "pre-req" ∨ t = "post-req".
Proof.
  rewrite bool_decide_eq_false. unfold AmeshPlugin_Type_InLookup. split; [intros Ht%dec_stable|intros Ht Hn]; set_solver.
Qed.

Lemma AmeshPlugin_checked m : ∃ bad, checked_by AmeshPlugin_validate AmeshPluginMultiError AmeshPlugin_valid m bad.
Proof.
  eexists. eapply (checked_by_checks _ _ _ _ (λ all errors,
    errors ← field_rule all _ _ errors; errors ← field_rule all _ _ errors; field_rule all _ _ errors)); [intros all; reflexivity| |].
  { eapply (checks_seq (λ all, field_rule all _ _)), (checks_seq (λ all, field_rule all _ _)); apply field_rule_checks. }
  rewrite !app_nil, !rule_bad_nil, Type_InLookup_spec, !Z.ltb_ge. split; [intros (? & ? & ?)|intros []]; by split_and?.
Qed.

#[export] Instance AmeshPlugin_validator : Validator AmeshPlugin_methods (option_valid AmeshPlugin_valid).
Proof. by apply (validator_of AmeshPlugin_validate AmeshPluginMultiError), AmeshPlugin_checked. Qed.

Lemma fail_keeps_reports message f r : keeps_reports (λ err, ValidationError message (mkViolation f r (Some err) false)).
Proof. intros err err'. by constructor. Qed.

Lemma AmeshPluginConfig_checked m :
  ∃ bad, checked_by AmeshPluginConfig_validate AmeshPluginConfigMultiError AmeshPluginConfig_valid m bad.
Proof.
  eexists. eapply (checked_by_checks _ _ _ _ (λ all errors,
    errors ← field_rule all _ _ errors; errors ← embedded_items all _ _ _ _ errors; field_rule all _ _ errors)); [intros all; reflexivity| |].
  { eapply (checks_seq (λ all, field_rule all _ _)); [apply field_rule_checks|].
    eapply (checks_seq (λ all, embedded_items all _ _ _ _)); [|apply field_rule_checks].
    eapply embedded_items_checks; [apply AmeshPlugin_validator|intros idx; apply fail_keeps_reports]. }
  rewrite !app_nil, !rule_bad_nil, (items_bad_nil AmeshPlugin_methods _), !Z.ltb_ge.
  split; [intros (? & ? & ?)|intros []]; by split_and?.
Qed.

#[export] Instance AmeshPluginConfig_validator : Validator AmeshPluginConfig_methods (option_valid AmeshPluginConfig_valid).
Proof. by apply (validator_of AmeshPluginConfig_validate AmeshPluginConfigMultiError), AmeshPluginConfig_checked. Qed.

Lemma PluginsRequest_checked m :
  ∃ bad, checked_by PluginsRequest_validate PluginsRequestMultiError PluginsRequest_valid m bad.
Proof.
  eexists. eapply (checked_by_checks _ _ _ _ (λ all errors,
    errors ← field_rule all _ _ errors; embedded all _ _ _ errors)); [intros all; reflexivity| |].
  { eapply (checks_seq (λ all, field_rule all _ _)); [apply field_rule_checks|].
    eapply embedded_checks; [apply Instance_validator|apply fail_keeps_reports]. }
  rewrite !app_nil, !rule_bad_nil, (embedded_bad_nil Instance_methods _), bool_decide_eq_false.
  unfold PluginsRequest_valid. destruct (Request_Instance m) as [i|]; naive_solver.
Qed.

Section Response.
Context (status_methods : methods (Z * string)) (status_ok : option (Z * string) → Prop).
Context `{!Validator status_methods status_ok}.

Lemma PluginsResponse_checked m :
  checked_by (PluginsResponse_validate status_methods) PluginsResponseMultiError (PluginsResponse_valid status_ok) m
    (embedded_bad status_methods (λ err, PluginsResponseValidationError "ErrorMessage" embedded_reason (Some err)) (PR_ErrorMessage m) ++
     items_bad AmeshPluginConfig_methods
       (λ idx err, PluginsResponseValidationError (index_field "Plugins" idx) embedded_reason (Some err)) 0 (PR_Plugins m)).
Proof.
  eapply (checked_by_checks _ _ _ _ (λ all errors,
    errors ← embedded all _ _ _ errors; embedded_items all _ _ _ _ errors)); [intros all; reflexivity| |].
  { eapply (checks_seq (λ all, embedded all _ _ _)); [eapply embedded_checks; [done|apply fail_keeps_reports]|].
    eapply embedded_items_checks; [apply AmeshPluginConfig_validator|intros idx; apply fail_keeps_reports]. }
  rewrite !app_nil, (embedded_bad_nil status_methods _), (items_bad_nil AmeshPluginConfig_methods _).
  split; [intros (? & ?)|intros []]; by split_and?.
Qed.

(** The first error is a single one, and determined by what [ValidateAll]
    collects. *)
Lemma reports_single err err' : reports err err' → AllErrors err = [].
Proof. by induction 1. Qed.

Lemma reports_unique err1 err2 err' : reports err1 err' → reports err2 err' → err1 = err2.
Proof.
  intros H1. revert err2. induction H1 as [message f r k|text|message f r c c' k Hc IH|err err' message errs He IH];
    intros err2 H2; inversion H2; subst; [done..|f_equal; f_equal; f_equal|]; by apply IH.
Qed.

(** C17. The validation of a response, on every branch: [Validate] accepts
    exactly the responses that obey the rules of the protocol; otherwise
    [ValidateAll] wraps the list of the error message's and the indexed
    configurations' violations, exactly of those that break the rules, and
    [Validate] returns the first error of the list alone, whose cause is again
    only the first of what the nested [ValidateAll] found; no error that it
    returns is a list. *)
Theorem response_validation m :
  let Validate := PluginsResponse_Validate status_methods (Some m) in
  let ValidateAll := PluginsResponse_ValidateAll status_methods (Some m) in
  (Validate = None ↔ PluginsResponse_valid status_ok m) ∧
  (ValidateAll = None ↔ PluginsResponse_valid status_ok m) ∧
  (∀ all, ValidateAll = Some all → ∃ err errs, all = MultiError "PluginsResponse" (err :: errs) ∧
     (∃ first, reports first err ∧ Validate = Some first) ∧
     ∀ f, f ∈ omap error_field (err :: errs) ↔
       (f = "ErrorMessage" ∧ ¬ status_ok (PR_ErrorMessage m)) ∨
       ∃ i config, PR_Plugins m !! i = Some config ∧ ¬ AmeshPluginConfig_valid config ∧ f = index_field "Plugins" i) ∧
  (∀ err, Validate = Some err → AllErrors err = []).
Proof.
  intros V VA. destruct (PluginsResponse_checked m) as [Hall Hfirst Hnone Hvalid].
  assert (∀ err, V = Some err → ∃ all, VA = Some all ∧ reports err all) as Hsingle.
  { intros err Herr. unfold V, VA, PluginsResponse_Validate, PluginsResponse_ValidateAll in *. rewrite Herr in Hfirst.
    inversion Hfirst as [? all Hr Heq1 Heq2|]; subst. by exists all. }
  split_and!.
  - unfold V, PluginsResponse_Validate. by rewrite Hnone.
  - unfold VA, PluginsResponse_ValidateAll. by rewrite Hnone.
  - intros all Hva. pose proof Hva as Hva'. unfold VA, PluginsResponse_ValidateAll in Hva'. rewrite Hall in Hva'.
    match type of Hva' with match ?bad with _ => _ end = _ => destruct bad as [|err errs] eqn:Hbad end; [done|].
    injection Hva' as <-. exists err, errs. split_and!; [done| |].
    + unfold VA, PluginsResponse_ValidateAll in Hva. rewrite Hva in Hfirst.
      inversion Hfirst as [first ? Hr Heq1 Heq2|]; subst. exists first. split; [|done]. by inversion Hr.
    + intros f. rewrite <- Hbad.
      rewrite omap_app, elem_of_app, (embedded_bad_field status_methods status_ok _ "ErrorMessage") by done.
      by rewrite (items_bad_field AmeshPluginConfig_methods _ _ (index_field "Plugins")) by done.
  - intros err (all & _ & Hr)%Hsingle. by eapply reports_single.
Qed.
End Response.

Section AnyMessage.
Context {Any : Type} (any_methods : methods Any) (any_ok : option Any → Prop) `{!Validator any_methods any_ok}.

Definition Event_valid (m : @Event_message Any) : Prop :=
  any_ok (EM_Payload m) ∧ 1 ≤ RuneCountInString (EM_ObjectId m) ≤ 64.

Lemma Event_checked m : ∃ bad, checked_by (Event_validate any_methods) EventMultiError Event_valid m bad.
Proof.
  eexists. eapply (checked_by_checks _ _ _ _ (λ all errors,
    errors ← embedded all _ _ _ errors; field_rule all _ _ errors)); [intros all; reflexivity| |].
  { eapply (checks_seq (λ all, embedded all _ _ _)); [|apply field_rule_checks].
    eapply embedded_checks; [done|apply fail_keeps_reports]. }
  rewrite app_nil, rule_bad_nil, (embedded_bad_nil any_methods _), orb_false_iff, !Z.ltb_ge. unfold Event_valid. naive_solver lia.
Qed.

Lemma Resource_checked m :
  ∃ bad, checked_by (Resource_validate any_methods) ResourceMultiError (λ m, any_ok (RM_Payload m)) m bad.
Proof.
  eexists. eapply (checked_by_checks _ _ _ _ (λ all, embedded all _ _ _)); [intros all; reflexivity| |].
  { eapply embedded_checks; [done|apply fail_keeps_reports]. }
  apply (embedded_bad_nil any_methods _).
Qed.
End AnyMessage.

(** ** Runes *)

Lemma RuneCount_nonneg s : 0 ≤ RuneCountInString s.
Proof.
  induction s as [s IH] using (induction_ltof1 _ String.length). unfold ltof in IH.
  destruct s as [|c1 [|c2 [|c3 [|c4 s4]]]]; cbn; repeat case_match; try lia;
    repeat match goal with
    | |- context [RuneCountInString ?t] => lazymatch goal with H : 0 ≤ RuneCountInString t |- _ => fail | _ => assert (0 ≤ RuneCountInString t) by (apply IH; cbn; lia) end
    end; try lia.
Qed.

Lemma RuneCount_pos s : 1 ≤ RuneCountInString s ↔ s ≠ "".
Proof.
  split; [by intros ? ->|]. intros Hs. destruct s as [|c1 [|c2 [|c3 [|c4 s4]]]]; [done|..]; cbn -[Z.add];
    repeat case_match; try lia;
    match goal with |- context [RuneCountInString ?t] => pose proof (RuneCount_nonneg t) | _ => idtac end; cbn -[Z.add] in *; try lia.
Qed.

(** The names of Kubernetes are ASCII. *)
Fixpoint is_ascii (s : string) : bool :=
  match s with "" => true | String c s' => (byte c <? 128) && is_ascii s' end.

Lemma RuneCount_ascii s : is_ascii s = true → RuneCountInString s = Z.of_nat (String.length s).
Proof.
  induction s as [|c s IH]; [done|]. cbn [is_ascii RuneCountInString String.length]. intros [-> Hs]%andb_true_iff.
  rewrite (IH Hs). lia.
Qed.

Lemma is_ascii_append s t : is_ascii (s +:+ t) = is_ascii s && is_ascii t.
Proof. induction s as [|c s IH]; [done|]. rewrite append_cons. cbn. by rewrite IH, andb_assoc. Qed.

(** ** The agent's request *)

(** A pod's key is rejected when it is longer than 253, which namespaces (63)
    and pod names (253) that Kubernetes allows can make it. *)
Lemma request_valid_iff p :
  is_ascii (AM_namespace p) = true → is_ascii (AM_name p) = true → AM_namespace p ≠ "" →
  PluginsRequest_Validate (Some (plugins_request p)) = None ↔
  (String.length (AM_namespace p) + String.length (AM_name p) ≤ 252)%nat.
Proof.
  intros Hns Hname Hne. destruct (PluginsRequest_checked (plugins_request p)) as [bad [_ _ Hnone Hvalid]].
  unfold PluginsRequest_Validate. rewrite Hnone, Hvalid. unfold PluginsRequest_valid, plugins_request, Instance_valid. cbn.
  assert (RuneCountInString (instance_key p) =
    Z.of_nat (String.length (AM_namespace p)) + Z.of_nat (String.length (AM_name p)) + 1) as Hlen.
  { unfold instance_key. rewrite RuneCount_ascii, !length_append; [cbn; lia|]. by rewrite !is_ascii_append, Hns, Hname. }
  assert (1 ≤ Z.of_nat (String.length (AM_namespace p))) by (destruct (AM_namespace p); [done|cbn; lia]).
  split.
  - intros (i & [= <-] & Hi). cbn in Hi. lia.
  - intros Hle. eexists. split; [done|]. cbn. lia.
Qed.

(** ** The controller's responses *)

(** The markers of AmeshPluginConfigPlugin (ameshpluginconfig_types.go), and the
    resource version that the API server assigns.  The schema in
    config/crd/bases checks the fields that are there, but it does not require
    them: see [unnamed_plugin_rejected]. *)
Record schema_ok (instance : AmeshPluginConfigResource) : Prop := {
  SO_plugins : Forall (λ plugin,
    (Plugin_Type plugin = "" ∨ Plugin_Type plugin = "pre-req" ∨ Plugin_Type plugin = "post-req") ∧
    1 ≤ RuneCountInString (Plugin_Name plugin) ∧ 2 ≤ RuneCountInString (Plugin_Config plugin))
    (Spec_Plugins (Res_Spec instance));
  SO_version : Res_ResourceVersion instance ≠ ""
}.

Lemma config_message_valid instance : schema_ok instance → AmeshPluginConfig_valid (config_message (served instance)).
Proof.
  intros [Hplugins Hversion]. rewrite config_message_eq. split; cbn [APC_Name APC_Plugins APC_Version served PPC_Name PPC_Plugins PPC_Version].
  - apply RuneCount_pos. unfold config_key. by destruct (Res_Namespace instance).
  - apply Forall_fmap. eapply Forall_impl; [exact Hplugins|]. intros plugin (? & ? & ?). by split.
  - by apply RuneCount_pos.
Qed.

Section Responses.
Context `{GoRange} `{!K8sLib} `{!K8sLaws} (genuine : AmeshPluginConfigResource → Prop).
Context (status_methods : methods (Z * string)) (status_ok : option (Z * string) → Prop).
Context `{!Validator status_methods status_ok} (no_status : status_ok None).

(** A plugin without a name passes the schema, and what is sent breaks the
    rules. *)
Lemma unnamed_plugin_rejected configs instance plugin :
  served instance ∈ configs → plugin ∈ Spec_Plugins (Res_Spec instance) → Plugin_Name plugin = "" →
  PluginsResponse_Validate status_methods (Some (plugins_response configs)) ≠ None.
Proof.
  intros Hc Hp Hn. unfold PluginsResponse_Validate.
  destruct (PluginsResponse_checked status_methods status_ok (plugins_response configs)) as [_ _ -> ->].
  rewrite plugins_response_eq. intros [_ Hall]. cbn in Hall. rewrite Forall_fmap, Forall_forall in Hall. specialize (Hall _ Hc). cbn in Hall.
  rewrite config_message_eq in Hall. destruct Hall as [_ Hplugins _]. cbn in Hplugins.
  rewrite Forall_fmap, Forall_forall in Hplugins. destruct (Hplugins _ Hp) as [_ Hname _]. cbn in Hname. rewrite Hn in Hname. by cbn in Hname.
Qed.

(** C36. Every response that the controller sends obeys the rules of the
    protocol, under every interleaving of the reconciler, the streams and the
    pod handlers: if the resources that the API server returns satisfy the
    markers of their type, then what [sendPodPluginConfig] sends for any
    answered query passes [Validate], although the controller never calls it. *)
Theorem responses_valid subs r ts :
  (∀ instance, genuine instance → schema_ok instance) →
  rtc (controller_run genuine) (mkReconciler ∅ ∅ subs, ∅) (r, ts) →
  ∀ i configs resp, ts !! i = Some (Stream (Done (Ret (inl configs)))) →
    sendPodPluginConfig (inl configs) None = (Some resp, None) →
    PluginsResponse_Validate status_methods (Some resp) = None.
Proof.
  intros Hschema Hreach i configs resp Hi [= <-]. destruct (controller_reach_ok genuine _ _ Hreach) as [_ Hts].
  { split; [split; apply map_Forall_empty|apply map_Forall_empty]. }
  unfold PluginsResponse_Validate. destruct (PluginsResponse_checked status_methods status_ok (plugins_response configs)) as [_ _ -> ->].
  rewrite plugins_response_eq. split; [done|]. apply Forall_fmap, Forall_forall. intros config Hin.
  destruct (Hts i _ Hi) as (res & [= <-] & Hq).
  destruct (Hq configs eq_refl config Hin) as (key & instance & Hg & _ & ->). by apply config_message_valid, Hschema.
Qed.
End Responses.

(** ** Witnesses *)

(** google.rpc.Status as generated by protoc-gen-go alone: no method. *)
Definition no_methods : methods (Z * string) := mkMethods None None.

#[export] Instance no_methods_validator : Validator no_methods (λ _, True).
Proof. split; [by intros [] v|]. intros v. constructor. Qed.

(** The second configuration has an empty name and a plugin without a
    configuration. *)
Definition bad_response : PluginsResponse :=
  mkPluginsResponse None
    [mkAmeshPluginConfig "default/a" [mkAmeshPlugin "" "limit" "{}"] "1"; mkAmeshPluginConfig "" [mkAmeshPlugin "pre" "limit" ""] "1"].

Example bad_response_Validate :
  Error <$> PluginsResponse_Validate no_methods (Some bad_response) = Some
    "invalid PluginsResponse.Plugins[1]: embedded message failed validation | caused by: invalid AmeshPluginConfig.Name: value length must be at least 1 runes".
Proof. vm_compute. reflexivity. Qed.

Example bad_response_ValidateAll :
  Error <$> AmeshPlugin_ValidateAll (Some (mkAmeshPlugin "pre" "limit" "")) = Some
    "invalid AmeshPlugin.Type: value must be in list [ pre-req post-req]; invalid AmeshPlugin.Config: value length must be at least 2 runes".
Proof. vm_compute. reflexivity. Qed.

Lemma response_validation_witness :
  PluginsResponse_Validate no_methods (Some bad_response) ≠ None ∧
  ¬ PluginsResponse_valid (λ _, True) bad_response ∧
  ∃ first err errs, PluginsResponse_ValidateAll no_methods (Some bad_response) = Some (MultiError "PluginsResponse" (err :: errs)) ∧
    reports first err ∧ PluginsResponse_Validate no_methods (Some bad_response) = Some first.
Proof.
  assert (PluginsResponse_Validate no_methods (Some bad_response) ≠ None) as Hne by (by vm_compute).
  destruct (response_validation no_methods (λ _, True) bad_response) as (Hok & _ & Hall & _).
  split; [exact Hne|]. split; [intros Hvalid; by apply Hne, Hok|].
  destruct (Hall _ ltac:(vm_compute; reflexivity)) as (err & errs & Heq & (first & Hr & Hf) & _).
  exists first, err, errs. split; [rewrite <- Heq; vm_compute; reflexivity|]. split; [exact Hr|exact Hf].
Defined.

Section Witnesses.
#[local] Existing Instance k8s_example.
#[local] Existing Instance map_order.

Lemma versions_schema_ok instance : two_versions instance → schema_ok instance.
Proof.
  intros [-> | ->]; (split; [|done]); apply Forall_singleton; cbn; (split_and!; [by right; left|by vm_compute..]).
Qed.

Lemma responses_valid_witness :
  served_stream !! 0%nat = Some (Stream (Done (Ret (inl [served new_resource])))) ∧
  PluginsResponse_Validate no_methods (Some (plugins_response [served new_resource])) = None.
Proof.
  split; [reflexivity|].
  apply (responses_valid two_versions no_methods (λ _, True) I [7%nat] (installed one_sub new_resource web_selector) served_stream
    versions_schema_ok served_run 0%nat [served new_resource]); reflexivity.
Defined.
End Witnesses.

(** A pod whose name has 253 characters. *)
Fixpoint long_name (n : nat) : string := match n with O => "" | S n' => String "a" (long_name n') end.

Lemma long_pod_rejected :
  let p := mkAmeshProvisioner "controller:15810" "default" (long_name 253) ∅ ∅ false false in
  Error <$> PluginsRequest_Validate (Some (plugins_request p)) = Some
    "invalid PluginsRequest.Instance: embedded message failed validation | caused by: invalid Instance.Key: value length must be between 2 and 253 runes, inclusive".
Proof. vm_compute. reflexivity. Qed.
