(* ===== verification/ControllerAgent.v ===== *)
(** * From the custom resources to the plugins of the agent

    The controller and the agent together: what the reconciler serves, sent by
    the plugin server and decoded by the agent's provisioner. *)

From S2P Require Import Prelude GoStrings JsonParse ControllerTypes ControllerUtils SelectorCache Reconciler.
From S2P Require Import Lister AmeshPlugins GrpcServer.
Local Open Scope Z_scope.

Section EndToEnd.
Context `{GoRange} `{!K8sLib} `{!K8sLaws} `{!IndexerLib} `{!IndexerLaws}.

(** A resource of the pod's namespace that selects the pod carries the
    plugin, with a configuration that is a JSON object. *)
Definition provides (instance : AmeshPluginConfigResource) (plugin : AmeshPluginConfigPlugin)
    (pod : Pod) (name : string) : Prop :=
  Res_Namespace instance = Pod_Namespace pod ∧ selects instance (Pod_Labels pod) ∧
  plugin ∈ Spec_Plugins (Res_Spec instance) ∧ Plugin_Name plugin = name ∧
  is_Some (Unmarshal_map (Plugin_Config plugin)).

(** C4. From the custom resources to the agent: once the configurations of all
    namespaces have been reconciled and are in the index of the informer, the
    first response that a new agent of a pod receives installs a plugin of a
    name exactly when some configuration of the pod's namespace that selects
    the pod carries a plugin of that name whose configuration decodes, and the
    installed plugin has the type and the decoded configuration of one of
    these. *)
Theorem plugins_reach_agent pods c subs ix instances pod (am : ameshProvisioner) :
  lists pods (list_pods_of c) → Forall (current c) instances → holds ix instances →
  list_configs c = list_namespace (NewAmeshPluginConfigLister ix) →
  ¬ Contains (Pod_Namespace pod) "/" → ¬ Contains (Pod_Name pod) "/" → Pod_Namespace pod ≠ "" →
  get_pod c (Pod_Namespace pod) (Pod_Name pod) = inl pod →
  AM_namespace am = Pod_Namespace pod → AM_name am = Pod_Name pod → AM_configRevision am = ∅ →
  let r := foldl AddPodChangeListener NewAmeshPluginConfigController subs in
  ∃ r' r'' configs resp, reconcile_all c r instances = Ret r' ∧
    GetPodPluginConfigs c r' (instance_key am) = Ret (r'', inl configs) ∧
    sendPodPluginConfig (inl configs) None = (Some resp, None) ∧
    let installed := GetPlugins (updatePlugins am resp).1 in
    ∀ name,
      (is_Some (installed !! name) ↔
         ∃ instance plugin, instance ∈ instances ∧ provides instance plugin pod name) ∧
      (∀ ap, installed !! name = Some ap →
         ∃ instance plugin, instance ∈ instances ∧ provides instance plugin pod name ∧
           AP_Type ap = Plugin_Type plugin ∧ AP_Name ap = name ∧
           Some (AP_Config ap) = Unmarshal_map (Plugin_Config plugin)).
Proof.
  intros Hl Hcur Hix Hlist Hns Hname Hne Hget Hamns Hamname Hrev r.
  destruct (list_namespace_eq ix instances (Pod_Namespace pod) Hix Hne) as (l & Hll & Hperm).
  rewrite <- Hlist in Hll. destruct (holds_keys ix instances Hix) as [Hnd _].
  destruct (controller_serves_matching_configs pods c subs instances l pod) as
    (r' & r'' & configs & Hrun & Hq & Hconf & _); [done..|].
  assert (instance_key am = Pod_Namespace pod +:+ "/" +:+ Pod_Name pod) as ->.
  { unfold instance_key. by rewrite Hamns, Hamname. }
  exists r', r'', configs, (plugins_response configs). split_and!; [done..|]. intros installed name.
  assert (installed = plugins_of (config_message <$> configs)) as ->.
  { unfold installed. rewrite plugins_response_eq, updatePlugins_eq. unfold GetPlugins. cbn [AM_config].
    by rewrite Hrev, accepted_empty. }
  assert (∀ conf pl, conf ∈ config_message <$> configs → pl ∈ APC_Plugins conf → AmeshPlugin_Name pl = name →
    is_Some (Unmarshal_map (AmeshPlugin_Config pl)) →
    ∃ instance plugin, instance ∈ instances ∧ provides instance plugin pod name ∧ pl = plugin_message plugin) as Hback.
  { intros conf pl (conf' & -> & Hin)%list_elem_of_fmap Hpl Hn Hd. rewrite config_message_eq in Hpl. cbn in Hpl.
    apply list_elem_of_fmap in Hpl as (plugin & -> & Hpl). apply Hconf in Hin as (instance & Hi & Hins & Hsel & ->).
    by exists instance, plugin. }
  assert (∀ ap, plugins_of (config_message <$> configs) !! name = Some ap →
    ∃ instance plugin, instance ∈ instances ∧ provides instance plugin pod name ∧
      AP_Type ap = Plugin_Type plugin ∧ AP_Name ap = name ∧
      Some (AP_Config ap) = Unmarshal_map (Plugin_Config plugin)) as Hval.
  { intros ap (conf & pl & v & Hc & Hpl & Hn & Hd & ->)%plugins_of_lookup.
    destruct (Hback conf pl) as (instance & plugin & Hi & Hp & ->); [done..|by eexists|].
    exists instance, plugin. by split_and!. }
  split; [split|done].
  - intros [ap Hap]. destruct (Hval ap Hap) as (instance & plugin & Hi & Hp & _). by exists instance, plugin.
  - intros (instance & plugin & Hi & Hins & Hsel & Hpl & Hn & Hd).
    apply (plugins_of_is_Some _ _ (config_message (served instance)) (plugin_message plugin)); [|by rewrite config_message_eq; apply list_elem_of_fmap_2|done..].
    apply list_elem_of_fmap_2, Hconf. by exists instance.
Qed.
(** Nothing waits for the informers before the plugin server answers: while the
    index is still empty, a pod is served an empty list, and its agent drops
    all of its plugins. *)
Lemma empty_index_drops_plugins c r ix pod am :
  holds ix [] → list_configs c = list_namespace (NewAmeshPluginConfigLister ix) →
  ¬ Contains (Pod_Namespace pod) "/" → ¬ Contains (Pod_Name pod) "/" → Pod_Namespace pod ≠ "" →
  get_pod c (Pod_Namespace pod) (Pod_Name pod) = inl pod → cache_ok (R_selectorCache r) →
  ∃ r' resp, GetPodPluginConfigs c r (Pod_Namespace pod +:+ "/" +:+ Pod_Name pod) = Ret (r', inl []) ∧
    sendPodPluginConfig (inl []) None = (Some resp, None) ∧ GetPlugins (updatePlugins am resp).1 = ∅.
Proof.
  intros Hix Hlist Hns Hname Hne Hget Hok.
  destruct (list_namespace_eq ix [] (Pod_Namespace pod) Hix Hne) as (l & Hll & Hp%Permutation_nil_r).
  subst l. rewrite <- Hlist in Hll.
  destruct (GetPodPluginConfigs_eq c r pod []) as (r' & configs & Hq & Hconf & _); try done.
  { by intros i ?%elem_of_nil. } { constructor. }
  destruct configs as [|conf configs].
  - exists r', (plugins_response []). split_and!; [done..|]. rewrite plugins_response_eq, updatePlugins_eq.
    unfold GetPlugins. by cbn.
  - destruct (proj1 (Hconf conf)) as (i & ?%elem_of_nil & _); [by left|done].
Qed.
End EndToEnd.

(** ** Witness *)

Section Witnesses.
#[local] Existing Instance k8s_example.
#[local] Existing Instance map_order.

#[local] Instance example_index : IndexerLib := indexer_example (Errorf "not found").
#[local] Instance example_index_laws : IndexerLaws := indexer_example_laws (Errorf "not found") eq_refl.

(** The resource of another namespace. *)
Definition other_resource : AmeshPluginConfigResource :=
  mkAmeshPluginConfigResource "other" "conf" "1" 1 None (mkAmeshPluginConfigSpec [example_plugin "b"] None) [].

Definition example_objects : Indexer := [example_resource "1" "web"; other_resource].

Definition two_namespaces : cluster := {|
  get_config := λ ns name, if bool_decide (ns = "default") then inl (example_resource "1" "web") else inl other_resource;
  get_pod := get_pod (example_cluster other_resource);
  list_pods_of := list_pods example_pods;
  list_configs := list_namespace (NewAmeshPluginConfigLister example_objects);
  clock := 1
|}.

Lemma plugins_reach_agent_witness :
  let am := mkAmeshProvisioner "controller:15810" "default" "web" ∅ ∅ true true in
  ∃ r' r'' configs resp,
    reconcile_all two_namespaces (foldl AddPodChangeListener NewAmeshPluginConfigController [7%nat])
      [example_resource "1" "web"; other_resource] = Ret r' ∧
    GetPodPluginConfigs two_namespaces r' "default/web" = Ret (r'', inl configs) ∧
    sendPodPluginConfig (inl configs) None = (Some resp, None) ∧
    is_Some (GetPlugins (updatePlugins am resp).1 !! "a").
Proof.
  intros am.
  destruct (plugins_reach_agent example_pods two_namespaces [7%nat] example_objects
    [example_resource "1" "web"; other_resource] example_pod am) as (r' & r'' & configs & resp & H1 & H2 & H3 & H4).
  - apply list_pods_lists.
  - repeat apply Forall_cons_2; [| |constructor]; (split_and!; [by vm_compute|done|eexists; reflexivity]).
  - split; [done|]. split; [apply (bool_decide_unpack _); by vm_compute|].
    intros config [->|[->|[]%elem_of_nil]%elem_of_cons]%elem_of_cons; done.
  - done.
  - by vm_compute.
  - by vm_compute.
  - done.
  - by vm_compute.
  - done.
  - done.
  - done.
  - exists r', r'', configs, resp. split_and!; [exact H1|exact H2|exact H3|].
    apply (H4 "a"). exists (example_resource "1" "web"), (example_plugin "a"). split; [by left|].
    split_and!; [done| |by left|done|].
    + exists ({["app" := "web"]} : gmap string string). split; [done|]. by vm_compute.
    + apply (bool_decide_unpack _). by vm_compute.
Defined.
End Witnesses.
