(* ===== verification/Client.v ===== *)
(** * The typed client of AmeshPluginConfigs
    (src/controller/apis/client/clientset/versioned)

    A method builds one request with the builder of client-go's REST client
    and hands it over.  The REST client and the API server behind it are the
    parameter [RestLib]; [RestConfigLib] is the rest of client-go that creating
    a client needs. *)

From S2P Require Import Prelude GoStrings GoNum ControllerTypes.
Local Open Scope Z_scope.

(** ** Requests *)

(** The fields of [metav1.ListOptions] that the client reads or writes, and
    the others as one encoded value. *)
Record ListOptions := mkListOptions {
  LO_TimeoutSeconds : option Z;
  LO_Watch : bool;
  LO_others : string
}.

(** The options of a request; those other than of a list are only encoded. *)
Inductive request_params : Type :=
| NoParams
| ParamsList (opts : ListOptions)
| ParamsEncoded (opts : string).

Inductive request_body : Type :=
| NoBody
| BodyConfig (config : AmeshPluginConfigResource)
| BodyOptions (opts : string)
| BodyData (data : string).

Record request := mkRequest {
  Rq_verb : string;
  Rq_namespace : string;
  Rq_resource : string;
  Rq_name : option string;
  Rq_subresources : list string;
  Rq_params : request_params;
  Rq_timeout : option Z;        (** a [time.Duration] *)
  Rq_body : request_body
}.

(** [Do] executes a request: it gives the new state of the API server and what
    [Into] decodes (of an object or of a list), or only the error. *)
Class RestLib := {
  Server : Type;
  Watch_Interface : Type;
  Do_Into : Server → request → Server * (AmeshPluginConfigResource + error);
  Do_Into_List : Server → request → Server * (list AmeshPluginConfigResource + error);
  Do_Error : Server → request → Server * option error;
  Do_Watch : Server → request → Server * (Watch_Interface + error)
}.

Section Client.
Context `{RestLib}.

(** The typed client of a namespace.  Its REST client is the API server. *)
Record ameshPluginConfigs := mkAmeshPluginConfigs { client_ns : string }.

Definition newAmeshPluginConfigs (namespace : string) : ameshPluginConfigs := mkAmeshPluginConfigs namespace.

Definition resource_name : string := "ameshpluginconfigs".

(** [time.Duration( *opts.TimeoutSeconds) * time.Second], on 64 bits. *)
Definition list_timeout (opts : ListOptions) : Z :=
  match LO_TimeoutSeconds opts with
  | Some seconds => int64_of (seconds * 1000000000)
  | None => 0
  end.

(** What [c.client.Verb().Namespace(c.ns).Resource("ameshpluginconfigs")] has
    built. *)
Definition on_resource (c : ameshPluginConfigs) (verb : string) (name : option string) (subresources : list string)
    (params : request_params) (timeout : option Z) (body : request_body) : request :=
  mkRequest verb (client_ns c) resource_name name subresources params timeout body.

Definition client_Get (c : ameshPluginConfigs) (s : Server) (name options : string) :=
  Do_Into s (on_resource c "GET" (Some name) [] (ParamsEncoded options) None NoBody).

Definition client_List (c : ameshPluginConfigs) (s : Server) (opts : ListOptions) :=
  Do_Into_List s (on_resource c "GET" None [] (ParamsList opts) (Some (list_timeout opts)) NoBody).

Definition client_Watch (c : ameshPluginConfigs) (s : Server) (opts : ListOptions) :=
  let timeout := list_timeout opts in
  let opts := mkListOptions (LO_TimeoutSeconds opts) true (LO_others opts) in
  Do_Watch s (on_resource c "GET" None [] (ParamsList opts) (Some timeout) NoBody).

Definition client_Create (c : ameshPluginConfigs) (s : Server) (config : AmeshPluginConfigResource) (opts : string) :=
  Do_Into s (on_resource c "POST" None [] (ParamsEncoded opts) None (BodyConfig config)).

Definition client_Update (c : ameshPluginConfigs) (s : Server) (config : AmeshPluginConfigResource) (opts : string) :=
  Do_Into s (on_resource c "PUT" (Some (Res_Name config)) [] (ParamsEncoded opts) None (BodyConfig config)).

Definition client_UpdateStatus (c : ameshPluginConfigs) (s : Server) (config : AmeshPluginConfigResource) (opts : string) :=
  Do_Into s (on_resource c "PUT" (Some (Res_Name config)) ["status"] (ParamsEncoded opts) None (BodyConfig config)).

Definition client_Delete (c : ameshPluginConfigs) (s : Server) (name opts : string) :=
  Do_Error s (on_resource c "DELETE" (Some name) [] NoParams None (BodyOptions opts)).

Definition client_DeleteCollection (c : ameshPluginConfigs) (s : Server) (opts : string) (listOpts : ListOptions) :=
  Do_Error s (on_resource c "DELETE" None [] (ParamsList listOpts) (Some (list_timeout listOpts)) (BodyOptions opts)).

Definition client_Patch (c : ameshPluginConfigs) (s : Server) (name pt data opts : string) (subresources : list string) :=
  Do_Into s (on_resource c ("PATCH " +:+ pt) (Some name) subresources (ParamsEncoded opts) None (BodyData data)).
End Client.

(** ** Creating clients (clientset.go, amesh_client.go) *)

(** The fields of [rest.Config] that the code reads or writes: [None] is a nil
    rate limiter; the query rate is a float32. *)
Record rest_Config := mk_rest_Config {
  Cfg_UserAgent : string;
  Cfg_APIPath : string;
  Cfg_GroupVersion : option (string * string);
  Cfg_RateLimiter : option string;
  Cfg_QPS : SpecFloat.spec_float;
  Cfg_Burst : Z;
  Cfg_others : string
}.

Class RestConfigLib := {
  HTTPClient : Type;
  RESTClient : Type;
  DiscoveryClient : Type;
  DefaultKubernetesUserAgent : string;
  HTTPClientFor : rest_Config → HTTPClient + error;
  RESTClientForConfigAndClient : rest_Config → HTTPClient → RESTClient + error;
  NewDiscoveryClientForConfigAndClient : rest_Config → HTTPClient → DiscoveryClient + error;
  NewDiscoveryClient : RESTClient → DiscoveryClient;
  NewTokenBucketRateLimiter : SpecFloat.spec_float → Z → string
}.

Section Clientset.
Context `{RestConfigLib}.

Record ApisixV1alpha1Client := mkApisixV1alpha1Client { restClient : RESTClient }.

Definition set_user_agent (c : rest_Config) : rest_Config :=
  if bool_decide (Cfg_UserAgent c = "")
  then mk_rest_Config DefaultKubernetesUserAgent (Cfg_APIPath c) (Cfg_GroupVersion c) (Cfg_RateLimiter c)
         (Cfg_QPS c) (Cfg_Burst c) (Cfg_others c)
  else c.

Definition setConfigDefaults (c : rest_Config) : rest_Config :=
  set_user_agent (mk_rest_Config (Cfg_UserAgent c) "/apis" (Some ("apisix.apache.org", "v1alpha1")) (Cfg_RateLimiter c)
    (Cfg_QPS c) (Cfg_Burst c) (Cfg_others c)).

(** [NewForConfigAndClient] of amesh_client.go; its argument is not nil. *)
Definition apisix_NewForConfigAndClient (c : rest_Config) (h : HTTPClient) : ApisixV1alpha1Client + error :=
  let config := setConfigDefaults c in
  match RESTClientForConfigAndClient config h with
  | inr err => inr err
  | inl client => inl (mkApisixV1alpha1Client client)
  end.

Definition apisix_NewForConfig (c : option rest_Config) : outcome (ApisixV1alpha1Client + error) :=
  c ← deref "nil pointer dereference: rest.Config" c;
  let config := setConfigDefaults c in
  Ret (match HTTPClientFor config with
       | inr err => inr err
       | inl httpClient => apisix_NewForConfigAndClient config httpClient
       end).

Definition apisix_New (c : RESTClient) : ApisixV1alpha1Client := mkApisixV1alpha1Client c.

(** [RESTClient]: nil on a nil client. *)
Definition client_RESTClient (c : option ApisixV1alpha1Client) : option RESTClient := restClient <$> c.

Record Clientset := mkClientset {
  CS_DiscoveryClient : DiscoveryClient;
  CS_apisixV1alpha1 : ApisixV1alpha1Client
}.

(** A method of a nil [*Clientset] panics, except [Discovery]. *)
Definition ApisixV1alpha1 (c : option Clientset) : outcome ApisixV1alpha1Client :=
  c ← deref "nil pointer dereference: Clientset" c;
  Ret (CS_apisixV1alpha1 c).

Definition Discovery (c : option Clientset) : option DiscoveryClient := CS_DiscoveryClient <$> c.

(** [c.QPS > 0] *)
Definition qps_positive (f : SpecFloat.spec_float) : bool :=
  match f with
  | SpecFloat.S754_finite false _ _ | SpecFloat.S754_infinity false => true
  | _ => false
  end.

Definition NewForConfigAndClient (c : option rest_Config) (httpClient : HTTPClient) : outcome (Clientset + error) :=
  c ← deref "nil pointer dereference: rest.Config" c;
  let limited :=
    match Cfg_RateLimiter c with
    | None =>
        if qps_positive (Cfg_QPS c) then
          if Cfg_Burst c <=? 0
          then inr (Errorf "burst is required to be greater than 0 when RateLimiter is not set and QPS is set to greater than 0")
          else inl (mk_rest_Config (Cfg_UserAgent c) (Cfg_APIPath c) (Cfg_GroupVersion c)
                      (Some (NewTokenBucketRateLimiter (Cfg_QPS c) (Cfg_Burst c))) (Cfg_QPS c) (Cfg_Burst c) (Cfg_others c))
        else inl c
    | Some _ => inl c
    end in
  Ret (match limited with
       | inr err => inr err
       | inl config =>
           match apisix_NewForConfigAndClient config httpClient with
           | inr err => inr err
           | inl apisix =>
               match NewDiscoveryClientForConfigAndClient config httpClient with
               | inr err => inr err
               | inl discovery => inl (mkClientset discovery apisix)
               end
           end
       end).

Definition NewForConfig (c : option rest_Config) : outcome (Clientset + error) :=
  c ← deref "nil pointer dereference: rest.Config" c;
  let config := set_user_agent c in
  match HTTPClientFor config with
  | inr err => Ret (inr err)
  | inl httpClient => NewForConfigAndClient (Some config) httpClient
  end.

Definition NewForConfigOrDie (c : option rest_Config) : outcome Clientset :=
  cs ← NewForConfig c;
  match cs with inl cs => Ret cs | inr err => Panic (error_text err) end.

Definition New (c : RESTClient) : Clientset := mkClientset (NewDiscoveryClient c) (apisix_New c).

(** ** Lemmas *)

(** Without a configuration the constructor does not return an error: it
    panics. *)
Lemma NewForConfig_nil : ∃ why, NewForConfig None = Panic why.
Proof. by eexists. Qed.

(** With one it returns, and a clientset that it returns talks to the API of
    the group, whatever path the configuration had. *)
Lemma NewForConfig_group c cs :
  NewForConfig (Some c) = Ret (inl cs) →
  ∃ config h, RESTClientForConfigAndClient config h = inl (restClient (CS_apisixV1alpha1 cs)) ∧
    Cfg_APIPath config = "/apis" ∧ Cfg_GroupVersion config = Some ("apisix.apache.org", "v1alpha1") ∧
    (Cfg_UserAgent c ≠ "" → Cfg_UserAgent config = Cfg_UserAgent c).
Proof.
  unfold NewForConfig, NewForConfigAndClient. cbn. destruct (HTTPClientFor _) as [h|]; [|done]. cbn.
  set (config := set_user_agent c). intros Hcs. injection Hcs as Hcs.
  assert (Cfg_UserAgent c ≠ "" → Cfg_UserAgent config = Cfg_UserAgent c) as Hua.
  { intros Hne. unfold config, set_user_agent. by rewrite bool_decide_false. }
  clearbody config.
  match type of Hcs with match ?lim with _ => _ end = _ =>
    assert (∀ config', lim = inl config' → Cfg_UserAgent config' = Cfg_UserAgent config) as Hlim end.
  { intros config'. destruct (Cfg_RateLimiter config); [by intros [= <-]|].
    destruct (qps_positive _); [|by intros [= <-]]. destruct (_ <=? 0); [done|]. by intros [= <-]. }
  match type of Hcs with match ?lim with _ => _ end = _ => destruct lim as [config'|]; [|done] end.
  unfold apisix_NewForConfigAndClient in Hcs.
  destruct (RESTClientForConfigAndClient (setConfigDefaults config') h) as [rc|] eqn:Hrc; [|done].
  destruct (NewDiscoveryClientForConfigAndClient _ _); [|done]. injection Hcs as <-.
  exists (setConfigDefaults config'), h. split_and!; [done|..]; unfold setConfigDefaults, set_user_agent; cbn;
    (destruct (decide (Cfg_UserAgent config' = "")) as [He|He];
       [rewrite bool_decide_true by done|rewrite bool_decide_false by done]); cbn; try done.
  - intros Hne. rewrite <- Hua, <- (Hlim config'), He in Hne; done.
  - intros Hne. by rewrite (Hlim config'), Hua.
Qed.
End Clientset.
