(* ===== verification/FakeClient.v ===== *)
(** * The fake clientset (src/controller/apis/client/clientset/versioned/fake
    and typed/amesh/v1alpha1/fake)

    The test double of the typed client.  A method hands one action to the
    [Fake] of client-go's testing package, which runs it through its chain of
    reactors; the clientset's only reactors are those of its object tracker.
    That package, with the state of its trackers and fakes, is the parameter
    [FakeLib]: a tracker and a [Fake] are references into its state, so the
    reactors and the clientset share one tracker.  If the reactors treat an
    action as the API server treats the typed client's request for it, the two
    clients cannot be told apart. *)

From S2P Require Import Prelude GoStrings GoNum ControllerTypes Client.
Local Open Scope Z_scope.

(** ** Actions and objects *)

Record GroupVersionResource := mkGVR { GVR_Group : string; GVR_Version : string; GVR_Resource : string }.
Record GroupVersionKind := mkGVK { GVK_Group : string; GVK_Version : string; GVK_Kind : string }.

Definition ameshpluginconfigsResource : GroupVersionResource := mkGVR "apisix.apache.org" "v1alpha1" "ameshpluginconfigs".
Definition ameshpluginconfigsKind : GroupVersionKind := mkGVK "apisix.apache.org" "v1alpha1" "AmeshPluginConfig".

(** The values that cross the interface [runtime.Object]; a resource comes with
    the labels of its metadata. *)
Definition labelled : Type := gmap string string * AmeshPluginConfigResource.

Inductive runtime_Object : Type :=
| ObjConfig (config : labelled)
| ObjList (meta : string) (items : list labelled)
| ObjOther (kind : string).

Inductive fake_action : Type :=
| GetAction (resource : GroupVersionResource) (ns name : string)
| ListAction (resource : GroupVersionResource) (kind : GroupVersionKind) (ns : string) (opts : ListOptions)
| WatchAction (resource : GroupVersionResource) (ns : string) (opts : ListOptions)
| CreateAction (resource : GroupVersionResource) (ns : string) (object : runtime_Object)
| UpdateAction (resource : GroupVersionResource) (ns : string) (object : runtime_Object)
| UpdateSubresourceAction (resource : GroupVersionResource) (subresource ns : string) (object : runtime_Object)
| DeleteActionWithOptions (resource : GroupVersionResource) (ns name opts : string)
| DeleteCollectionAction (resource : GroupVersionResource) (ns : string) (opts : ListOptions)
| PatchSubresourceAction (resource : GroupVersionResource) (ns name pt data : string) (subresources : list string).

Definition action_resource (a : fake_action) : GroupVersionResource :=
  match a with
  | GetAction r _ _ | ListAction r _ _ _ | WatchAction r _ _ | CreateAction r _ _ | UpdateAction r _ _
  | UpdateSubresourceAction r _ _ _ | DeleteActionWithOptions r _ _ _ | DeleteCollectionAction r _ _
  | PatchSubresourceAction r _ _ _ _ _ => r
  end.

Definition action_namespace (a : fake_action) : string :=
  match a with
  | GetAction _ ns _ | ListAction _ _ ns _ | WatchAction _ ns _ | CreateAction _ ns _ | UpdateAction _ ns _
  | UpdateSubresourceAction _ _ ns _ | DeleteActionWithOptions _ ns _ _ | DeleteCollectionAction _ ns _
  | PatchSubresourceAction _ ns _ _ _ _ => ns
  end.

(** client-go's testing package.  A Go function that returns an object and an
    error can return both. *)
Class FakeLib `{K8sLib} := {
  World : Type;
  Tracker : Type;
  FakeRef : Type;
  Watcher : Type;
  NewObjectTracker : World → World * Tracker;
  Tracker_Add : World → Tracker → runtime_Object → World * option error;
  Tracker_Watch : World → Tracker → GroupVersionResource → string → World * (option Watcher * option error);
  new_Fake : World → World * FakeRef;
  (** [AddReactor(verb, resource, ObjectReaction(tracker))] *)
  AddReactor : World → FakeRef → string → string → Tracker → World;
  AddWatchReactor : World → FakeRef → string →
    (World → fake_action → World * (bool * option Watcher * option error)) → World;
  Invokes : World → FakeRef → fake_action → runtime_Object → World * (option runtime_Object * option error);
  InvokesWatch : World → FakeRef → fake_action → World * (option Watcher * option error);
  ExtractFromListOptions : ListOptions → option Selector
}.

Section Fake.
Context `{!K8sLib} `{!FakeLib}.

(** ** The typed double *)

Record FakeAmeshPluginConfigs := mkFakeAmeshPluginConfigs { FA_Fake : FakeRef; FA_ns : string }.
Record FakeApisixV1alpha1 := mkFakeApisixV1alpha1 { FX_Fake : FakeRef }.

Definition fake_AmeshPluginConfigs (c : FakeApisixV1alpha1) (namespace : string) : FakeAmeshPluginConfigs :=
  mkFakeAmeshPluginConfigs (FX_Fake c) namespace.

(** [RESTClient] returns a nil pointer. *)
Definition fake_RESTClient {R} (c : FakeApisixV1alpha1) : option R := None.

(** [&v1alpha1.AmeshPluginConfig{}] and [&v1alpha1.AmeshPluginConfigList{}] *)
Definition empty_config : runtime_Object :=
  ObjConfig (∅, mkAmeshPluginConfigResource "" "" "" 0 None (mkAmeshPluginConfigSpec [] None) []).
Definition empty_config_list : runtime_Object := ObjList "" [].

Definition as_config (obj : runtime_Object) : outcome labelled :=
  match obj with
  | ObjConfig config => Ret config
  | _ => Panic "interface conversion: not *v1alpha1.AmeshPluginConfig"
  end.

Definition as_config_list (obj : runtime_Object) : outcome (string * list labelled) :=
  match obj with
  | ObjList meta items => Ret (meta, items)
  | _ => Panic "interface conversion: not *v1alpha1.AmeshPluginConfigList"
  end.

(** The end of the methods that return a resource. *)
Definition config_result (obj : option runtime_Object) (err : option error) : outcome (option labelled * option error) :=
  match obj with
  | None => Ret (None, err)
  | Some obj => config ← as_config obj; Ret (Some config, err)
  end.

Definition invoke_config (c : FakeAmeshPluginConfigs) (w : World) (a : fake_action) :
    World * outcome (option labelled * option error) :=
  let '(w, (obj, err)) := Invokes w (FA_Fake c) a empty_config in (w, config_result obj err).

Definition fake_Get (c : FakeAmeshPluginConfigs) (w : World) (name options : string) :=
  invoke_config c w (GetAction ameshpluginconfigsResource (FA_ns c) name).

Definition fake_List (c : FakeAmeshPluginConfigs) (w : World) (opts : ListOptions) :
    World * outcome (option (string * list labelled) * option error) :=
  let '(w, (obj, err)) :=
    Invokes w (FA_Fake c) (ListAction ameshpluginconfigsResource ameshpluginconfigsKind (FA_ns c) opts) empty_config_list in
  (w, match obj with
      | None => Ret (None, err)
      | Some obj =>
          let label := match ExtractFromListOptions opts with None => Everything | Some label => label end in
          l ← as_config_list obj;
          let items := foldl (λ items item, if Matches label item.1 then items ++ [item] else items) [] l.2 in
          Ret (Some (l.1, items), err)
      end).

Definition fake_Watch (c : FakeAmeshPluginConfigs) (w : World) (opts : ListOptions) :=
  InvokesWatch w (FA_Fake c) (WatchAction ameshpluginconfigsResource (FA_ns c) opts).

Definition fake_Create (c : FakeAmeshPluginConfigs) (w : World) (config : labelled) (opts : string) :=
  invoke_config c w (CreateAction ameshpluginconfigsResource (FA_ns c) (ObjConfig config)).

Definition fake_Update (c : FakeAmeshPluginConfigs) (w : World) (config : labelled) (opts : string) :=
  invoke_config c w (UpdateAction ameshpluginconfigsResource (FA_ns c) (ObjConfig config)).

Definition fake_UpdateStatus (c : FakeAmeshPluginConfigs) (w : World) (config : labelled) (opts : string) :=
  invoke_config c w (UpdateSubresourceAction ameshpluginconfigsResource "status" (FA_ns c) (ObjConfig config)).

Definition fake_Delete (c : FakeAmeshPluginConfigs) (w : World) (name opts : string) : World * option error :=
  let '(w, (_, err)) :=
    Invokes w (FA_Fake c) (DeleteActionWithOptions ameshpluginconfigsResource (FA_ns c) name opts) empty_config in
  (w, err).

Definition fake_DeleteCollection (c : FakeAmeshPluginConfigs) (w : World) (opts : string) (listOpts : ListOptions) :
    World * option error :=
  let action := DeleteCollectionAction ameshpluginconfigsResource (FA_ns c) listOpts in
  let '(w, (_, err)) := Invokes w (FA_Fake c) action empty_config_list in
  (w, err).

Definition fake_Patch (c : FakeAmeshPluginConfigs) (w : World) (name pt data opts : string) (subresources : list string) :=
  invoke_config c w (PatchSubresourceAction ameshpluginconfigsResource (FA_ns c) name pt data subresources).

(** ** The clientset *)

Record fake_Clientset := mkFakeClientset {
  FC_Fake : FakeRef;
  FC_discovery : FakeRef;      (** the [FakeDiscovery] over the same [Fake] *)
  FC_tracker : Tracker
}.

(** The loop over the objects; an error panics. *)
Fixpoint add_objects (w : World) (o : Tracker) (objects : list runtime_Object) : outcome World :=
  match objects with
  | [] => Ret w
  | obj :: objects =>
      let '(w, err) := Tracker_Add w o obj in
      match err with
      | Some err => Panic (error_text err)
      | None => add_objects w o objects
      end
  end.

(** The reactor for watches. *)
Definition watch_reaction (o : Tracker) (w : World) (action : fake_action) : World * (bool * option Watcher * option error) :=
  let '(w, (watch, err)) := Tracker_Watch w o (action_resource action) (action_namespace action) in
  match err with
  | Some err => (w, (false, None, Some err))
  | None => (w, (true, watch, None))
  end.

Definition NewSimpleClientset (w : World) (objects : list runtime_Object) : outcome (World * fake_Clientset) :=
  let '(w, o) := NewObjectTracker w in
  w ← add_objects w o objects;
  let '(w, f) := new_Fake w in
  let cs := mkFakeClientset f f o in
  let w := AddReactor w f "*" "*" o in
  Ret (AddWatchReactor w f "*" (watch_reaction o), cs).

Definition fake_Discovery (c : fake_Clientset) : FakeRef := FC_discovery c.
Definition fake_Tracker (c : fake_Clientset) : Tracker := FC_tracker c.
Definition fake_ApisixV1alpha1 (c : fake_Clientset) : FakeApisixV1alpha1 := mkFakeApisixV1alpha1 (FC_Fake c).

(** ** Lemmas *)

Definition list_selector (opts : ListOptions) : Selector :=
  match ExtractFromListOptions opts with None => Everything | Some label => label end.

Lemma foldl_filter {A} (P : A → bool) l : ∀ acc,
  foldl (λ items item, if P item then items ++ [item] else items) acc l = acc ++ filter (λ item, P item = true) l.
Proof.
  induction l as [|x l IH]; intros acc; cbn [foldl]; [by rewrite app_nil_r|]. rewrite IH, filter_cons.
  destruct (P x) eqn:Hx; [rewrite decide_True by done; by rewrite <- app_assoc|by rewrite decide_False].
Qed.

(** The list of the double: the listed items that the label selector of the
    options matches. *)
Lemma fake_List_filter c w opts w' meta items err :
  Invokes w (FA_Fake c) (ListAction ameshpluginconfigsResource ameshpluginconfigsKind (FA_ns c) opts) empty_config_list =
    (w', (Some (ObjList meta items), err)) →
  fake_List c w opts =
    (w', Ret (Some (meta, filter (λ item, Matches (list_selector opts) item.1 = true) items), err)).
Proof.
  unfold fake_List. intros ->. cbn [as_config_list mbind outcome_bind fst snd]. fold (list_selector opts).
  by rewrite (foldl_filter (λ item : labelled, Matches (list_selector opts) item.1)).
Qed.

(** A new clientset answers from the tracker that holds the objects: its [Fake]
    has the tracker's two reactors and no others. *)
Lemma NewSimpleClientset_tracker w objects w' cs :
  NewSimpleClientset w objects = Ret (w', cs) →
  ∃ w1 w2, add_objects (NewObjectTracker w).1 (fake_Tracker cs) objects = Ret w1 ∧
    new_Fake w1 = (w2, FX_Fake (fake_ApisixV1alpha1 cs)) ∧ fake_Discovery cs = FX_Fake (fake_ApisixV1alpha1 cs) ∧
    w' = AddWatchReactor (AddReactor w2 (FC_Fake cs) "*" "*" (fake_Tracker cs)) (FC_Fake cs) "*" (watch_reaction (fake_Tracker cs)).
Proof.
  unfold NewSimpleClientset. destruct (NewObjectTracker w) as [w0 o] eqn:Ho. cbn [fst].
  intros (w1 & Hadd & Hcs)%bind_ret. destruct (new_Fake w1) as [w2 f] eqn:Hf. injection Hcs as <- <-.
  by exists w1, w2.
Qed.
End Fake.

(** ** The double and the typed client *)

(** A use of the client, and its answer. *)
Inductive client_call : Type :=
| CallGet (name options : string)
| CallList (opts : ListOptions)
| CallCreate (config : AmeshPluginConfigResource) (opts : string)
| CallUpdate (config : AmeshPluginConfigResource) (opts : string)
| CallUpdateStatus (config : AmeshPluginConfigResource) (opts : string)
| CallDelete (name opts : string)
| CallDeleteCollection (opts : string) (listOpts : ListOptions)
| CallPatch (name pt data opts : string) (subresources : list string).

Inductive client_answer : Type :=
| AnswerConfig (res : AmeshPluginConfigResource + error)
| AnswerList (res : list AmeshPluginConfigResource + error)
| AnswerDone (err : option error).

Section Double.
Context `{!K8sLib} `{!FakeLib} `{!RestLib}.
Context (ns : string) (fake : FakeRef) (labels_of : AmeshPluginConfigResource → gmap string string).

Definition real_call (s : Server) (call : client_call) : Server * client_answer :=
  let c := newAmeshPluginConfigs ns in
  match call with
  | CallGet name options => prod_map id AnswerConfig (client_Get c s name options)
  | CallList opts => prod_map id AnswerList (client_List c s opts)
  | CallCreate config opts => prod_map id AnswerConfig (client_Create c s config opts)
  | CallUpdate config opts => prod_map id AnswerConfig (client_Update c s config opts)
  | CallUpdateStatus config opts => prod_map id AnswerConfig (client_UpdateStatus c s config opts)
  | CallDelete name opts => prod_map id AnswerDone (client_Delete c s name opts)
  | CallDeleteCollection opts listOpts => prod_map id AnswerDone (client_DeleteCollection c s opts listOpts)
  | CallPatch name pt data opts subresources => prod_map id AnswerConfig (client_Patch c s name pt data opts subresources)
  end.

(** What a caller that checks the error makes of a result. *)
Definition checked {A B} (view : A → B) (res : outcome (option A * option error)) : outcome (B + error) :=
  res ← res;
  match res with
  | (_, Some err) => Ret (inr err)
  | (Some a, None) => Ret (inl (view a))
  | (None, None) => Panic "nil pointer dereference: the result"
  end.

Definition fake_call (w : World) (call : client_call) : World * outcome client_answer :=
  let c := fake_AmeshPluginConfigs (mkFakeApisixV1alpha1 fake) ns in
  let config (res : World * outcome (option labelled * option error)) :=
    (res.1, a ← checked snd res.2; Ret (AnswerConfig a)) in
  match call with
  | CallGet name options => config (fake_Get c w name options)
  | CallList opts => let res := fake_List c w opts in (res.1, a ← checked (λ l, snd <$> l.2) res.2; Ret (AnswerList a))
  | CallCreate o opts => config (fake_Create c w (labels_of o, o) opts)
  | CallUpdate o opts => config (fake_Update c w (labels_of o, o) opts)
  | CallUpdateStatus o opts => config (fake_UpdateStatus c w (labels_of o, o) opts)
  | CallDelete name opts => let res := fake_Delete c w name opts in (res.1, Ret (AnswerDone res.2))
  | CallDeleteCollection opts listOpts => let res := fake_DeleteCollection c w opts listOpts in (res.1, Ret (AnswerDone res.2))
  | CallPatch name pt data opts subresources => config (fake_Patch c w name pt data opts subresources)
  end.

(** The request of the typed client that an action stands for. *)
Inductive stands_for : fake_action → request → Prop :=
| ForGet name o : stands_for (GetAction ameshpluginconfigsResource ns name)
    (mkRequest "GET" ns resource_name (Some name) [] (ParamsEncoded o) None NoBody)
| ForCreate config o : stands_for (CreateAction ameshpluginconfigsResource ns (ObjConfig (labels_of config, config)))
    (mkRequest "POST" ns resource_name None [] (ParamsEncoded o) None (BodyConfig config))
| ForUpdate config o : stands_for (UpdateAction ameshpluginconfigsResource ns (ObjConfig (labels_of config, config)))
    (mkRequest "PUT" ns resource_name (Some (Res_Name config)) [] (ParamsEncoded o) None (BodyConfig config))
| ForUpdateStatus config o :
    stands_for (UpdateSubresourceAction ameshpluginconfigsResource "status" ns (ObjConfig (labels_of config, config)))
    (mkRequest "PUT" ns resource_name (Some (Res_Name config)) ["status"] (ParamsEncoded o) None (BodyConfig config))
| ForPatch name pt data o subresources :
    stands_for (PatchSubresourceAction ameshpluginconfigsResource ns name pt data subresources)
    (mkRequest ("PATCH " +:+ pt) ns resource_name (Some name) subresources (ParamsEncoded o) None (BodyData data)).

(** The tracker behind the [Fake] does to its objects what the API server does
    to its own. *)
Record tracks (sim : World → Server → Prop) : Prop := {
  TR_config : ∀ w s a rq, sim w s → stands_for a rq →
    let '(w', (obj, err)) := Invokes w fake a empty_config in
    sim w' (Do_Into s rq).1 ∧
    match (Do_Into s rq).2 with
    | inl config => ∃ labels, obj = Some (ObjConfig (labels, config)) ∧ err = None
    | inr e => err = Some e ∧ ∀ o, obj = Some o → ∃ config, o = ObjConfig config
    end;
  TR_list : ∀ w s opts, sim w s →
    let '(w', (obj, err)) :=
      Invokes w fake (ListAction ameshpluginconfigsResource ameshpluginconfigsKind ns opts) empty_config_list in
    let '(s', res) := client_List (newAmeshPluginConfigs ns) s opts in
    sim w' s' ∧
    match res with
    | inl l => ∃ meta items, obj = Some (ObjList meta items) ∧ err = None ∧
        l = snd <$> filter (λ item : labelled, Matches (list_selector opts) item.1 = true) items
    | inr e => err = Some e ∧ obj = None
    end;
  TR_delete : ∀ w s name o, sim w s →
    let '(w', (_, err)) := Invokes w fake (DeleteActionWithOptions ameshpluginconfigsResource ns name o) empty_config in
    let '(s', res) := client_Delete (newAmeshPluginConfigs ns) s name o in
    sim w' s' ∧ err = res;
  TR_delete_collection : ∀ w s o listOpts, sim w s →
    let '(w', (_, err)) := Invokes w fake (DeleteCollectionAction ameshpluginconfigsResource ns listOpts) empty_config_list in
    let '(s', res) := client_DeleteCollection (newAmeshPluginConfigs ns) s o listOpts in
    sim w' s' ∧ err = res
}.

Definition as_on (sim : World → Server → Prop) {A} (res : World * outcome A) (out : Server * A) : Prop :=
  sim res.1 out.1 ∧ res.2 = Ret out.2.

Lemma invoke_config_tracks sim w s a rq :
  tracks sim → sim w s → stands_for a rq →
  let res := invoke_config (mkFakeAmeshPluginConfigs fake ns) w a in
  as_on sim (res.1, a ← checked snd res.2; Ret (AnswerConfig a)) (prod_map id AnswerConfig (Do_Into s rq)).
Proof.
  intros Ht Hs Hrq. pose proof (TR_config sim Ht w s a rq Hs Hrq) as Hd. unfold invoke_config. cbn [FA_Fake].
  destruct (Invokes w fake a empty_config) as [w' [obj err]]. destruct (Do_Into s rq) as [s' out]. destruct Hd as [Hs' Hd].
  split; [done|]. cbn in Hd |- *. destruct out as [config|e].
  - by destruct Hd as (labels & -> & ->).
  - destruct Hd as [-> Ho]. destruct obj as [o|]; [|done]. by destruct (Ho o eq_refl) as [config ->].
Qed.

Lemma fake_call_tracks sim w s call : tracks sim → sim w s → as_on sim (fake_call w call) (real_call s call).
Proof.
  intros Ht Hs. destruct call as [name o|opts|config o|config o|config o|name o|o opts|name pt data o subs];
    try (by eapply invoke_config_tracks; [done..|constructor]); cbn [fake_call real_call fst snd].
  - pose proof (TR_list sim Ht w s opts Hs) as Hl.
    destruct (Invokes _ _ (ListAction _ _ _ _) _) as [w' [obj err]] eqn:Hi. destruct (client_List _ s opts) as [s' out].
    destruct Hl as [Hs' Hl]. destruct out as [l|e].
    + destruct Hl as (meta & items & -> & -> & ->). change (fake_AmeshPluginConfigs _ _) with (mkFakeAmeshPluginConfigs fake ns).
      by rewrite (fake_List_filter (mkFakeAmeshPluginConfigs fake ns) w opts w' meta items None Hi).
    + destruct Hl as [-> ->]. unfold fake_List. cbn [fake_AmeshPluginConfigs FX_Fake FA_Fake FA_ns]. by rewrite Hi.
  - pose proof (TR_delete sim Ht w s name o Hs) as Hd. unfold fake_Delete. cbn [fake_AmeshPluginConfigs FX_Fake FA_Fake FA_ns].
    destruct (Invokes _ _ _ _) as [w' [obj err]]. destruct (client_Delete _ s name o) as [s' out]. by destruct Hd as [Hs' ->].
  - pose proof (TR_delete_collection sim Ht w s o opts Hs) as Hd. unfold fake_DeleteCollection.
    cbn [fake_AmeshPluginConfigs FX_Fake FA_Fake FA_ns].
    destruct (Invokes _ _ _ _) as [w' [obj err]]. destruct (client_DeleteCollection _ s o opts) as [s' out]. by destruct Hd as [Hs' ->].
Qed.

(** A test against the double sees what it would see against the API server:
    if the tracker follows the server, every sequence of calls is answered
    alike, and none of the double's type assertions panics. *)
Fixpoint fake_calls (w : World) (calls : list client_call) : World * outcome (list client_answer) :=
  match calls with
  | [] => (w, Ret [])
  | call :: calls =>
      let '(w, a) := fake_call w call in
      let '(w, rest) := fake_calls w calls in
      (w, a ← a; rest ← rest; Ret (a :: rest))
  end.

Fixpoint real_calls (s : Server) (calls : list client_call) : Server * list client_answer :=
  match calls with
  | [] => (s, [])
  | call :: calls =>
      let '(s, a) := real_call s call in
      let '(s, rest) := real_calls s calls in
      (s, a :: rest)
  end.

Lemma fake_client_refines sim w s calls :
  tracks sim → sim w s → as_on sim (fake_calls w calls) (real_calls s calls).
Proof.
  intros Ht. revert w s. induction calls as [|call calls IH]; intros w s Hs; [done|]. cbn [fake_calls real_calls].
  pose proof (fake_call_tracks sim w s call Ht Hs) as [Hs' Hc].
  destruct (fake_call w call) as [w1 a], (real_call s call) as [s1 b]. cbn in Hs', Hc. subst a.
  destruct (IH w1 s1 Hs') as [Hs'' Hr]. destruct (fake_calls w1 calls) as [w2 l], (real_calls s1 calls) as [s2 l'].
  cbn in Hs'', Hr. by subst l.
Qed.
End Double.
