(* ===== verification/Registration.v ===== *)
(** * Registration of the custom resource's types
    (src/controller/apis/amesh/v1alpha1/zz_generated.register.go,
    clientset/versioned/scheme/register.go, fake/register.go, main.go)

    Go initialises packages in the order of their imports: a package's
    variables first, then its [init].  The package v1alpha1 keeps the functions
    that know its types in a [SchemeBuilder]; the variable [AddToScheme] is a
    method value bound to the builder's address, so it runs what the builder
    holds when it is called, not when the variable is initialised.
    apimachinery's schemes are the parameter [SchemeLib]. *)

From S2P Require Import Prelude GoStrings.
Local Open Scope Z_scope.

Record GroupVersion := mkGroupVersion { GV_Group : string; GV_Version : string }.

#[export] Instance group_version_eq_dec : EqDecision GroupVersion.
Proof. solve_decision. Defined.

(** apimachinery's [runtime.Scheme]; registering a type twice panics. *)
Class SchemeLib := {
  Scheme : Type;
  NewScheme : Scheme;
  AddKnownTypes : Scheme → GroupVersion → list string → outcome Scheme;
  AddToGroupVersion : Scheme → GroupVersion → outcome Scheme;
  clientgo_AddToScheme : Scheme → outcome (Scheme * option error);
  Recognizes : Scheme → GroupVersion → string → bool
}.

(** What their documentation says of a scheme that can take the types. *)
Class SchemeLaws `{SchemeLib} := {
  AddKnownTypes_new : ∀ s gv kinds, (∀ k, k ∈ kinds → Recognizes s gv k = false) → NoDup kinds →
    ∃ s', AddKnownTypes s gv kinds = Ret s' ∧
      ∀ gv' k, Recognizes s' gv' k = Recognizes s gv' k || bool_decide (gv' = gv ∧ k ∈ kinds);
  (** the list and watch types of a group, which no group defines itself *)
  AddToGroupVersion_keeps : ∀ s gv, ∃ s', AddToGroupVersion s gv = Ret s' ∧
    ∀ gv' k, k = "AmeshPluginConfig" ∨ k = "AmeshPluginConfigList" → Recognizes s' gv' k = Recognizes s gv' k;
  NewScheme_empty : ∀ gv k, Recognizes NewScheme gv k = false;
  clientgo_AddToScheme_keeps : ∃ s', clientgo_AddToScheme NewScheme = Ret (s', None) ∧
    ∀ v k, Recognizes s' (mkGroupVersion "apisix.apache.org" v) k = false
}.

Section Registration.
Context `{SchemeLib}.

(** ** Builders *)

Definition builder_function : Type := Scheme → outcome (Scheme * option error).
Definition SchemeBuilder : Type := list builder_function.

Definition builder_Register (b : SchemeBuilder) (fs : list builder_function) : SchemeBuilder := b ++ fs.

(** [SchemeBuilder.AddToScheme]: the functions in order, up to the first error. *)
Fixpoint builder_AddToScheme (b : SchemeBuilder) (s : Scheme) : outcome (Scheme * option error) :=
  match b with
  | [] => Ret (s, None)
  | f :: b =>
      res ← f s;
      match res with
      | (s, Some err) => Ret (s, Some err)
      | (s, None) => builder_AddToScheme b s
      end
  end.

(** [utilruntime.Must] *)
Definition Must (res : Scheme * option error) : outcome Scheme :=
  match res with
  | (s, None) => Ret s
  | (_, Some err) => Panic (error_text err)
  end.

(** ** The package v1alpha1 *)

Definition GroupName : string := "apisix.apache.org".
Definition SchemeGroupVersion : GroupVersion := mkGroupVersion GroupName "v1alpha1".

(** [Resource]: the group and the resource. *)
Definition Resource (resource : string) : string * string := (GV_Group SchemeGroupVersion, resource).

Definition addKnownTypes : builder_function := λ scheme,
  scheme ← AddKnownTypes scheme SchemeGroupVersion ["AmeshPluginConfig"; "AmeshPluginConfigList"];
  scheme ← AddToGroupVersion scheme SchemeGroupVersion;
  Ret (scheme, None).

(** The package's state is its builder; [v1alpha1_init] is its [init]. *)
Definition v1alpha1_vars : SchemeBuilder := [].
Definition v1alpha1_init (b : SchemeBuilder) : SchemeBuilder := builder_Register b [addKnownTypes].

(** The variables [AddToScheme] and [Install]. *)
Definition v1alpha1_AddToScheme (b : SchemeBuilder) : builder_function := builder_AddToScheme b.

(** ** The packages that use it: the clientset's scheme, the fake's, and main *)

Definition scheme_AddToScheme (b : SchemeBuilder) : builder_function := builder_AddToScheme [v1alpha1_AddToScheme b].

Definition scheme_init (b : SchemeBuilder) : outcome Scheme :=
  scheme ← AddToGroupVersion NewScheme (mkGroupVersion "" "v1");
  res ← scheme_AddToScheme b scheme;
  Must res.

Definition fake_AddToScheme (b : SchemeBuilder) : builder_function := builder_AddToScheme [v1alpha1_AddToScheme b].

Definition fake_init (b : SchemeBuilder) : outcome Scheme :=
  scheme ← AddToGroupVersion NewScheme (mkGroupVersion "" "v1");
  res ← fake_AddToScheme b scheme;
  Must res.

Definition main_init (b : SchemeBuilder) : outcome Scheme :=
  res ← clientgo_AddToScheme NewScheme;
  scheme ← Must res;
  res ← v1alpha1_AddToScheme b scheme;
  Must res.

(** ** Lemmas *)

Definition knows (s : Scheme) : Prop :=
  ∀ gv k, k = "AmeshPluginConfig" ∨ k = "AmeshPluginConfigList" →
    Recognizes s gv k = bool_decide (gv = SchemeGroupVersion).

Context `{!SchemeLaws}.

Lemma addKnownTypes_knows s :
  (∀ gv k, k = "AmeshPluginConfig" ∨ k = "AmeshPluginConfigList" → Recognizes s gv k = false) →
  ∃ s', addKnownTypes s = Ret (s', None) ∧ knows s'.
Proof.
  intros Hs. unfold addKnownTypes.
  destruct (AddKnownTypes_new s SchemeGroupVersion ["AmeshPluginConfig"; "AmeshPluginConfigList"]) as (s1 & -> & Hr1).
  { intros k Hk. apply Hs. set_solver. }
  { by apply (bool_decide_unpack _). }
  cbn [mbind outcome_bind]. destruct (AddToGroupVersion_keeps s1 SchemeGroupVersion) as (s2 & -> & Hr2). eexists. split; [done|].
  intros gv k Hk. rewrite Hr2, Hr1, Hs by done. cbn [orb]. apply bool_decide_ext. set_solver.
Qed.

(** After the packages have been initialised in their order, the client's codec
    and the fake's know the two types, in the group's version only, and nothing
    panics. *)
Lemma schemes_know :
  let b := v1alpha1_init v1alpha1_vars in
  (∃ s, scheme_init b = Ret s ∧ knows s) ∧ (∃ s, fake_init b = Ret s ∧ knows s).
Proof.
  cbn zeta. unfold scheme_init, fake_init. destruct (AddToGroupVersion_keeps NewScheme (mkGroupVersion "" "v1")) as (s & -> & Hs).
  destruct (addKnownTypes_knows s) as (s' & Hs' & Hk).
  { intros gv k Hk. rewrite Hs by done. apply NewScheme_empty. }
  split; exists s'; (split; [|done]); cbn; rewrite Hs'; done.
Qed.

(** So does the manager's scheme. *)
Lemma main_scheme_knows :
  ∃ s, main_init (v1alpha1_init v1alpha1_vars) = Ret s ∧
    ∀ k, k = "AmeshPluginConfig" ∨ k = "AmeshPluginConfigList" → Recognizes s SchemeGroupVersion k = true.
Proof.
  unfold main_init. destruct clientgo_AddToScheme_keeps as (s & -> & Hs). cbn.
  unfold addKnownTypes. destruct (AddKnownTypes_new s SchemeGroupVersion ["AmeshPluginConfig"; "AmeshPluginConfigList"]) as (s1 & -> & Hr1).
  { intros k _. apply Hs. }
  { by apply (bool_decide_unpack _). }
  cbn [mbind outcome_bind]. destruct (AddToGroupVersion_keeps s1 SchemeGroupVersion) as (s2 & -> & Hr2).
  exists s2. split; [done|]. intros k Hk. rewrite Hr2, Hr1 by done. rewrite (bool_decide_true (_ = _ ∧ _)) by set_solver. apply orb_true_r.
Qed.

(** A scheme built before the package's [init] would know nothing: the types
    are there because the builder is read late. *)
Lemma early_scheme_unknown s gv k :
  v1alpha1_AddToScheme v1alpha1_vars NewScheme = Ret (s, None) → Recognizes s gv k = false.
Proof. intros [= <-]. apply NewScheme_empty. Qed.
End Registration.
