(* ===== verification/StatusLoop.v ===== *)
(** * The reconciler and the status of a resource

    A reconciliation writes the status of the resource it handled, the API
    server stores it, and the stored change triggers the next reconciliation
    of the same resource.  Here the reconciler runs against an API server: the
    work queue of one resource is a flag, raised by an error of the
    reconciliation and by a change of the stored object.  What the API server
    promises about the status subresource is stated by [ApiServerLaws]. *)

From S2P Require Import Prelude GoStrings ControllerTypes ControllerUtils SelectorCache Reconciler Client.
Local Open Scope Z_scope.

(** Writing the status of [old] with the object [config] can leave [new]:
    only the status and the version change, the version changes exactly when
    the status does, and a version that is not current is refused. *)
Definition status_written (old config new : AmeshPluginConfigResource) : Prop :=
  Res_ResourceVersion config = Res_ResourceVersion old ∧
  (Res_Conditions config = Res_Conditions old ∧ new = old ∨
   ∃ version, Res_Conditions config ≠ Res_Conditions old ∧ version ≠ Res_ResourceVersion old ∧
     new = mkAmeshPluginConfigResource (Res_Namespace old) (Res_Name old) version (Res_Generation old)
             (Res_DeletionTimestamp old) (Res_Spec old) (Res_Conditions config)).

Class ApiServerLaws `{RestLib} := {
  stored : Server → string → string → option AmeshPluginConfigResource;
  stored_key : ∀ s ns name o, stored s ns name = Some o → Res_Namespace o = ns ∧ Res_Name o = name;
  (** an update that reports an error may have been applied or not *)
  UpdateStatus_stored : ∀ s ns config opts s' res old,
    stored s ns (Res_Name config) = Some old →
    client_UpdateStatus (newAmeshPluginConfigs ns) s config opts = (s', res) →
    ∃ new, stored s' ns (Res_Name config) = Some new ∧
      (status_written old config new ∨ new = old ∧ ∃ err, res = inr err)
}.

(** The server does not fail a write of the current version. *)
Definition accepts_current `{ApiServerLaws} : Prop := ∀ s ns config opts old,
  stored s ns (Res_Name config) = Some old → Res_ResourceVersion config = Res_ResourceVersion old →
  ∃ o, (client_UpdateStatus (newAmeshPluginConfigs ns) s config opts).2 = inl o.

Section StatusLoop.
Context `{GoRange} `{!K8sLib} `{!K8sLaws} `{!RestLib} `{!ApiServerLaws}.
Context (not_found : error).

(** The cluster that a reconciliation sees: the object that the server stores,
    the pods of the informer's cache and the time. *)
Definition cluster_of (s : Server) (lister : pod_lister) (now : Z) : cluster := {|
  get_config := λ ns name, match stored s ns name with Some o => inl o | None => inr not_found end;
  get_pod := λ _ _, inr not_found;
  list_pods_of := lister;
  list_configs := λ _, Ret (inl []);
  clock := now
|}.

(** The server's part of an effect: [recordStatus] calls the typed client and
    logs its error. *)
Definition run_effect (s : Server) (e : controller_effect) : Server :=
  match e with
  | NotifyPodChange _ _ => s
  | UpdateStatus config => (client_UpdateStatus (newAmeshPluginConfigs (Res_Namespace config)) s config "").1
  end.

Record loop_state := mkLoop {
  Loop_server : Server;
  Loop_reconciler : AmeshPluginConfigReconciler;
  Loop_queued : bool
}.

(** Handling the key of a resource once: it is queued again after an error and
    when the stored object has changed. *)
Definition round (ns name : string) (env : pod_lister * Z) (st : loop_state) : outcome loop_state :=
  let s := Loop_server st in
  res ← Reconcile (cluster_of s env.1 env.2) (Loop_reconciler st) ns name;
  let '(r', effs, err) := res in
  let s' := foldl run_effect s effs in
  let changed := bool_decide (Res_ResourceVersion <$> stored s' ns name ≠ Res_ResourceVersion <$> stored s ns name) in
  Ret (mkLoop s' r' (match err with Some _ => true | None => changed end)).

(** The worker: it handles the key as long as it is queued, [envs] being what
    successive reconciliations see of the pods and of the time. *)
Fixpoint work (ns name : string) (envs : list (pod_lister * Z)) (st : loop_state) : outcome loop_state :=
  if Loop_queued st then
    match envs with
    | [] => Ret st
    | env :: envs => st' ← round ns name env st; work ns name envs st'
    end
  else Ret st.

(** ** Lemmas *)

Definition sync_condition (o : AmeshPluginConfigResource) : Condition :=
  mkCondition ConditionSync "True" (Res_Generation o) 0 ResourceReconciled ConditionSyncSuccess.

(** The object that [recordStatus] sends after a successful reconciliation. *)
Definition recorded (now : Z) (o : AmeshPluginConfigResource) : AmeshPluginConfigResource :=
  mkAmeshPluginConfigResource (Res_Namespace o) (Res_Name o) (Res_ResourceVersion o) (Res_Generation o)
    (Res_DeletionTimestamp o) (Res_Spec o) (SetStatusCondition now (Res_Conditions o) (sync_condition o)).

(** The status says that this generation was synchronised. *)
Definition synced (o : AmeshPluginConfigResource) : Prop :=
  ∃ cond, FindStatusCondition (Res_Conditions o) ConditionSync = Some cond ∧
    Cond_Status cond = "True" ∧ Cond_ObservedGeneration cond = Res_Generation o.

(** The same resource up to status and version. *)
Definition same_resource (o o' : AmeshPluginConfigResource) : Prop :=
  Res_Namespace o' = Res_Namespace o ∧ Res_Name o' = Res_Name o ∧ Res_Generation o' = Res_Generation o ∧
  Res_DeletionTimestamp o' = Res_DeletionTimestamp o ∧ Res_Spec o' = Res_Spec o.

#[local] Instance same_resource_preorder : PreOrder same_resource.
Proof. split; [by intros o|]. unfold same_resource. intros o1 o2 o3. naive_solver congruence. Qed.

Lemma recordStatus_eq now o :
  recordStatus now o ResourceReconciled None "True" =
    if VerifyGeneration (Res_Conditions o) (sync_condition o) then [UpdateStatus (recorded now o)] else [].
Proof. done. Qed.

Lemma run_effects_Send s r ns names : foldl run_effect s (SendPluginsConfigs r ns names) = s.
Proof.
  unfold SendPluginsConfigs. destruct (Nat.leb _ _); [done|].
  induction (R_subs r) as [|sub subs IH]; [done|]. apply IH.
Qed.

Lemma recorded_synced now o version : 
  let o' := recorded now o in
  synced (mkAmeshPluginConfigResource (Res_Namespace o) (Res_Name o) version (Res_Generation o)
    (Res_DeletionTimestamp o) (Res_Spec o) (Res_Conditions o')).
Proof.
  cbn. destruct (FindStatusCondition_Set now (Res_Conditions o) (sync_condition o)) as [time Ht].
  eexists. by split.
Qed.

(** What one reconciliation of a stored resource with the valid selector [sel]
    does to the server and to the queue. *)
Inductive rounded (lister : pod_lister) (now : Z) (sel : Selector) (o : AmeshPluginConfigResource) (s : Server)
    (r : AmeshPluginConfigReconciler) : loop_state → Prop :=
| rounded_old : ¬ accepted_instance r o sel → rounded lister now sel o s r (mkLoop s r false)
| rounded_failed r' ns sel' err : lister ns (Some sel') = Ret (inr err) →
    R_pluginsCache r' !! config_key o = Some (served o) → rounded lister now sel o s r (mkLoop s r' true)
| rounded_silent r' : VerifyGeneration (Res_Conditions o) (sync_condition o) = false →
    R_pluginsCache r' !! config_key o = Some (served o) → rounded lister now sel o s r (mkLoop s r' false)
| rounded_written r' s' res o' :
    client_UpdateStatus (newAmeshPluginConfigs (Res_Namespace o)) s (recorded now o) "" = (s', res) →
    stored s' (Res_Namespace o) (Res_Name o) = Some o' →
    status_written o (recorded now o) o' ∨ o' = o ∧ (∃ err, res = inr err) →
    R_pluginsCache r' !! config_key o = Some (served o) →
    rounded lister now sel o s r (mkLoop s' r' (bool_decide (Res_ResourceVersion o' ≠ Res_ResourceVersion o))).

Lemma Reconcile_old c r o sel :
  get_config c (Res_Namespace o) (Res_Name o) = inl o → Res_DeletionTimestamp o = None →
  compile (Spec_Selector (Res_Spec o)) = inl (Some sel) → ¬ accepted_instance r o sel →
  Reconcile c r (Res_Namespace o) (Res_Name o) = Ret (r, [], None).
Proof.
  intros Hg Hd Hc Hna. rewrite Reconcile_found_unfold by done. unfold reconcile_found.
  unfold accepted_instance in Hna. destruct (R_pluginsCache r !! config_key o) as [old|]; [|naive_solver].
  destruct (String.leb _ _); [done|naive_solver].
Qed.

Lemma Reconcile_stored pods c r o sel :
  lists pods (list_pods_of c) → cache_ok (R_selectorCache r) →
  get_config c (Res_Namespace o) (Res_Name o) = inl o → accepted_instance r o sel →
  ∃ effs err, Reconcile c r (Res_Namespace o) (Res_Name o) = Ret (installed r o sel, effs, err) ∧
    ((∃ ns names, effs = SendPluginsConfigs (installed r o sel) ns names ++
        recordStatus (clock c) o ResourceReconciled None "True" ∧ err = None) ∨
     (effs = [] ∧ is_Some err ∧ ∃ ns sel' e, list_pods_of c ns (Some sel') = Ret (inr e))).
Proof.
  intros Hl Hok Hg Ha. destruct (previous_ok r o Hok) as [s0 Hs0].
  destruct (Hl (Res_Namespace o) s0) as [(olds & Ho & _)|[e He]].
  - destruct (Hl (Res_Namespace o) sel) as [(news & Hn & _)|[e He]].
    + eexists _, None. split; [apply (Reconcile_accepted c r o sel olds news); (done || by rewrite Hs0)|]. left.
      destruct (plugins_changed r o); [by eexists _, _|]. by exists "", ∅.
    + eexists [], (Some e). rewrite Reconcile_found_unfold by (done || apply Ha). split; [|right; eauto 10].
      rewrite (reconcile_found_eq c r o sel Ha), Hs0. unfold DiffPods. rewrite Ho. cbn. by rewrite He.
  - eexists [], (Some e). rewrite Reconcile_found_unfold by (done || apply Ha). split; [|right; eauto 10].
    rewrite (reconcile_found_eq c r o sel Ha), Hs0. unfold DiffPods. by rewrite He.
Qed.

Lemma version_changed (o o' : AmeshPluginConfigResource) :
  bool_decide (Res_ResourceVersion <$> Some o' ≠ Res_ResourceVersion <$> Some o) =
  bool_decide (Res_ResourceVersion o' ≠ Res_ResourceVersion o).
Proof. apply bool_decide_ext. cbn. split; intros Hne Heq; apply Hne; congruence. Qed.

Lemma accepted_or_not r o sel :
  Res_DeletionTimestamp o = None → compile (Spec_Selector (Res_Spec o)) = inl (Some sel) →
  accepted_instance r o sel ∨ ¬ accepted_instance r o sel.
Proof.
  intros Hd Hc. unfold accepted_instance. destruct (R_pluginsCache r !! config_key o) as [old|]; [|naive_solver].
  destruct (String.leb _ _); naive_solver.
Qed.

Lemma round_stored pods lister now s r queued o sel :
  lists pods lister → cache_ok (R_selectorCache r) →
  stored s (Res_Namespace o) (Res_Name o) = Some o →
  Res_DeletionTimestamp o = None → compile (Spec_Selector (Res_Spec o)) = inl (Some sel) →
  ∃ st', round (Res_Namespace o) (Res_Name o) (lister, now) (mkLoop s r queued) = Ret st' ∧
    cache_ok (R_selectorCache (Loop_reconciler st')) ∧ rounded lister now sel o s r st'.
Proof.
  intros Hl Hok Hs Hd Hc. unfold round. cbn [Loop_server Loop_reconciler fst snd].
  set (c := cluster_of s lister now).
  assert (get_config c (Res_Namespace o) (Res_Name o) = inl o) as Hg by (unfold c; cbn; by rewrite Hs).
  destruct (accepted_or_not r o sel Hd Hc) as [Ha|Ha].
  - destruct (Reconcile_stored pods c r o sel) as (effs & err & Hrec & Hcase); [done..|]. rewrite Hrec. cbn [mbind outcome_bind].
    assert (R_pluginsCache (installed r o sel) !! config_key o = Some (served o)) as Hp by (cbn; by rewrite lookup_insert_eq).
    destruct Hcase as [(ns & names & -> & ->)|(-> & [e ->] & ns & sel' & e' & He)].
    + rewrite foldl_app, run_effects_Send, recordStatus_eq.
      destruct (VerifyGeneration _ _) eqn:Hv; cbn [foldl run_effect].
      * destruct (client_UpdateStatus (newAmeshPluginConfigs (Res_Namespace o)) s (recorded now o) "") as [s' res] eqn:Hu.
        pose proof Hu as Hu'. change (Res_Name o) with (Res_Name (recorded now o)) in Hs.
        destruct (UpdateStatus_stored _ _ _ _ _ _ _ Hs Hu') as (o' & Ho' & Hw). cbn in Ho', Hs.
        eexists. split; [reflexivity|]. split; [by apply installed_cache_ok|].
        change (Res_Namespace (recorded (clock c) o)) with (Res_Namespace o). change (clock c) with now. rewrite Hu. cbn [fst].
        rewrite Ho', Hs, version_changed. by eapply rounded_written.
      * eexists. split; [reflexivity|]. split; [by apply installed_cache_ok|].
        rewrite bool_decide_false by (intros Hne; by apply Hne). by apply rounded_silent.
    + eexists. split; [reflexivity|]. split; [by apply installed_cache_ok|]. by eapply rounded_failed.
  - rewrite (Reconcile_old c r o sel) by done. cbn. eexists. split; [reflexivity|]. split; [done|].
    rewrite bool_decide_false by (intros Hne; by apply Hne). by apply rounded_old.
Qed.

(** The object after a round is the same resource; if it changed, its status is
    the recorded one. *)
Lemma written_same o now o' (P : Prop) : status_written o (recorded now o) o' ∨ o' = o ∧ P →
  o' = o ∨ same_resource o o' ∧ synced o' ∧ Res_Conditions o' = Res_Conditions (recorded now o).
Proof.
  intros [(_ & [[_ ->]|(version & _ & _ & ->)])|[-> _]]; [by left| |by left].
  right. split_and!; [done|apply recorded_synced|done].
Qed.

(** A second write of the same generation changes nothing. *)
Lemma written_again o now o' now' o'' (P : Prop) :
  Res_Conditions o' = Res_Conditions (recorded now o) → Res_Generation o' = Res_Generation o →
  status_written o' (recorded now' o') o'' ∨ o'' = o' ∧ P → o'' = o'.
Proof.
  intros Hc Hg [(_ & [[_ ->]|(version & Hne & _)])|[-> _]]; [done| |done]. exfalso. apply Hne.
  cbn. rewrite Hc. unfold sync_condition. rewrite Hg. cbn. by rewrite SetStatusCondition_again.
Qed.

Lemma not_accepted_served r o sel :
  R_pluginsCache r !! config_key o = Some (served o) → ¬ accepted_instance r o sel.
Proof. intros Hp (_ & _ & Hv). rewrite Hp in Hv. cbn in Hv. by rewrite string_leb_refl in Hv. Qed.

(** ** Properties *)

(** From a state that has served this version of the object, and whose
    object has the recorded status or not, the work ends in two rounds. *)
Lemma work_served ns name envs env st o sel :
  ns = Res_Namespace o → name = Res_Name o →
  stored (Loop_server st) ns name = Some o → Res_DeletionTimestamp o = None →
  compile (Spec_Selector (Res_Spec o)) = inl (Some sel) →
  R_pluginsCache (Loop_reconciler st) !! config_key o = Some (served o) →
  work ns name (env :: envs) st = Ret (mkLoop (Loop_server st) (Loop_reconciler st) false).
Proof.
  intros -> -> Hs Hd Hc Hp. destruct st as [s r [|]]; [|by destruct envs]. cbn in Hs, Hp. cbn [work Loop_queued].
  unfold round. cbn [Loop_server Loop_reconciler].
  rewrite (Reconcile_old _ r o sel); [|by cbn; rewrite Hs|done|done|by apply not_accepted_served]. cbn.
  rewrite bool_decide_false by (intros Hne; by apply Hne). by destruct envs.
Qed.

(** An object whose status is the recorded one is not written any more. *)
Lemma work_recorded pods env env' envs s r o o0 now sel :
  lists pods env.1 → cache_ok (R_selectorCache r) →
  stored s (Res_Namespace o) (Res_Name o) = Some o → Res_DeletionTimestamp o = None →
  compile (Spec_Selector (Res_Spec o)) = inl (Some sel) →
  Res_Conditions o = Res_Conditions (recorded now o0) → Res_Generation o = Res_Generation o0 →
  ∃ st, work (Res_Namespace o) (Res_Name o) (env :: env' :: envs) (mkLoop s r true) = Ret st ∧
    Loop_queued st = false ∧ cache_ok (R_selectorCache (Loop_reconciler st)) ∧
    stored (Loop_server st) (Res_Namespace o) (Res_Name o) = Some o.
Proof.
  intros Hl Hok Hs Hd Hc Hcond Hgen. destruct env as [lister time].
  destruct (round_stored pods lister time s r true o sel) as (st1 & Hr & Hok1 & Hcase); [done..|].
  change (∃ st, (st' ← round (Res_Namespace o) (Res_Name o) (lister, time) (mkLoop s r true);
    work (Res_Namespace o) (Res_Name o) (env' :: envs) st') = Ret st ∧
    Loop_queued st = false ∧ cache_ok (R_selectorCache (Loop_reconciler st)) ∧
    stored (Loop_server st) (Res_Namespace o) (Res_Name o) = Some o).
  rewrite Hr. cbn [mbind outcome_bind].
  destruct Hcase as [Hna|r' ns sel' err He Hp|r' Hv Hp|r' s' res o' Hu Hs' Hw Hp]; cbn in Hok1.
  - eexists. split; [reflexivity|]. by split_and!.
  - rewrite (work_served _ _ _ _ _ o sel) by done. eexists. split; [reflexivity|]. by split_and!.
  - eexists. split; [reflexivity|]. by split_and!.
  - assert (o' = o) as -> by by eapply written_again. rewrite bool_decide_false by (intros Hne; by apply Hne).
    eexists. split; [reflexivity|]. by split_and!.
Qed.

(** ** Properties *)

(** Versions are compared as texts: once version "9" of a resource is cached,
    its version "10" is taken for an old one and its plugins never arrive. *)
Lemma version_ten_ignored c r o old sel :
  get_config c (Res_Namespace o) (Res_Name o) = inl o → Res_DeletionTimestamp o = None →
  compile (Spec_Selector (Res_Spec o)) = inl (Some sel) →
  R_pluginsCache r !! config_key o = Some old → PPC_Version old = "9" → Res_ResourceVersion o = "10" →
  Reconcile c r (Res_Namespace o) (Res_Name o) = Ret (r, [], None).
Proof.
  intros Hg Hd Hc Hp Hold Hnew. apply (Reconcile_old c r o sel); [done..|].
  intros (_ & _ & Hv). by rewrite Hp, Hold, Hnew in Hv.
Qed.

(** A status without a later generation than the resource's is written. *)
Lemma VerifyGeneration_not_later o :
  (∀ cond, FindStatusCondition (Res_Conditions o) ConditionSync = Some cond → Cond_ObservedGeneration cond ≤ Res_Generation o) →
  VerifyGeneration (Res_Conditions o) (sync_condition o) = true.
Proof.
  intros Hcond. unfold VerifyGeneration. cbn. destruct (FindStatusCondition _ _) as [cond|]; [|done].
  apply negb_true_iff, Z.ltb_ge. by apply Hcond.
Qed.

End StatusLoop.

(** ** A concrete server, of one object *)

Definition example_put (o : AmeshPluginConfigResource) (config : AmeshPluginConfigResource) :
    AmeshPluginConfigResource * (AmeshPluginConfigResource + error) :=
  if decide (Res_ResourceVersion config = Res_ResourceVersion o) then
    if decide (Res_Conditions config = Res_Conditions o) then (o, inl o)
    else let new := mkAmeshPluginConfigResource (Res_Namespace o) (Res_Name o) (Res_ResourceVersion o +:+ "0")
                      (Res_Generation o) (Res_DeletionTimestamp o) (Res_Spec o) (Res_Conditions config) in (new, inl new)
  else (o, inr (Errorf "the object has been modified")).

Definition example_server : RestLib := {|
  Server := AmeshPluginConfigResource;
  Watch_Interface := unit;
  Do_Into s rq :=
    match Rq_name rq, Rq_body rq with
    | Some name, BodyConfig config =>
        if decide (Rq_namespace rq = Res_Namespace s ∧ name = Res_Name s) then example_put s config
        else (s, inr (Errorf "not found"))
    | _, _ => (s, inr (Errorf "unsupported"))
    end;
  Do_Into_List s _ := (s, inl [s]);
  Do_Error s _ := (s, None);
  Do_Watch s _ := (s, inl tt)
|}.

Definition example_stored (s : @Server example_server) (ns name : string) : option AmeshPluginConfigResource :=
  if decide (ns = Res_Namespace s ∧ name = Res_Name s) then Some s else None.

Lemma longer_ne (s : string) : s +:+ "0" ≠ s.
Proof.
  intros Heq. apply (f_equal String.length) in Heq.
  assert (∀ t, String.length (t +:+ "0") = S (String.length t)) as Hlen.
  { induction t as [|a t IH]; [done|]. cbn. by rewrite <- IH. }
  rewrite Hlen in Heq. lia.
Qed.

#[export] Instance example_server_laws : @ApiServerLaws example_server.
Proof.
  refine (@Build_ApiServerLaws example_server example_stored _ _).
  - unfold example_stored. intros s ns name o. by destruct (decide _) as [[-> ->]|]; [intros [= <-]|].
  - unfold example_stored. intros s ns config opts s' res old.
    destruct (decide _) as [[-> Hn]|]; [|done]. intros [= <-]. cbn. rewrite decide_True by done. unfold example_put.
    destruct (decide _) as [Hv|]; [destruct (decide _) as [Hc|Hc]|]; intros [= <- <-].
    + exists s. rewrite decide_True by done. split; [done|]. left. split; [done|by left].
    + eexists. rewrite decide_True by done. split; [done|]. left. split; [done|]. right. eexists. split_and!; [done| |done].
      apply longer_ne.
    + exists s. rewrite decide_True by done. split; [done|]. right. split; [done|]. by eexists.
Defined.

(** ** Witness *)

Section Witnesses.
#[local] Existing Instance k8s_example.
#[local] Existing Instance map_order.
#[local] Existing Instance example_server.

Definition failing_lister : pod_lister := λ _ _, Ret (inr (Errorf "cache not synced")).

Lemma failing_lists pods : lists pods failing_lister.
Proof. intros ns sel. right. by eexists. Qed.

Definition example_state : Server := example_resource "1" "web".

Lemma example_accepts : accepts_current.
Proof.
  intros s ns config opts old. cbn. unfold example_stored. destruct (decide _) as [[-> Hn]|]; [|done].
  intros [= <-] Hv. unfold example_put. rewrite !decide_True by done. destruct (decide _); by eexists.
Qed.

End Witnesses.
