(* ===== verification/Informers.v ===== *)
(** * The informers of AmeshPluginConfigs
    (src/controller/apis/client/informers/externalversions)

    A factory creates at most one informer per type and starts each of the
    informers that were asked for.  An informer is client-go's
    [cache.SharedIndexInformer]: it is known by the number under which it was
    created, and [world] records with what each one was created and which ones
    were run. *)

From S2P Require Import Prelude GoStrings ControllerTypes Client.
Local Open Scope Z_scope.

Section Informers.
Context `{GoRange} `{!RestLib} `{!RestConfigLib}.

(** A [versioned.Interface]: a clientset, possibly the nil pointer. *)
Abbreviation client := (option Clientset).

(** [TweakListOptionsFunc]; [None] is nil. *)
Abbreviation TweakListOptionsFunc := (option (ListOptions → ListOptions)).

(** [cache.NewSharedIndexInformer(&ListWatch{...}, &AmeshPluginConfig{},
    resyncPeriod, indexers)]: the closures of the [ListWatch] are kept as what
    they capture. *)
Record informer_args := mkInformerArgs {
  IA_client : client;
  IA_namespace : string;
  IA_tweak : TweakListOptionsFunc;
  IA_object : string;
  IA_resync : Z;
  IA_indexers : list string
}.

Record world := mkWorld {
  W_created : list informer_args;     (** informer [n] is the n-th *)
  W_running : list nat                (** the calls [go informer.Run(stopCh)] *)
}.

Definition NewSharedIndexInformer (w : world) (args : informer_args) : world * nat :=
  (mkWorld (W_created w ++ [args]) (W_running w), length (W_created w)).

(** The two closures of [NewFilteredAmeshPluginConfigInformer]. *)
Definition tweaked (tweak : TweakListOptionsFunc) (options : ListOptions) : ListOptions :=
  match tweak with Some f => f options | None => options end.

Definition ListFunc (args : informer_args) (s : Server) (options : ListOptions) :=
  let options := tweaked (IA_tweak args) options in
  _ ← ApisixV1alpha1 (IA_client args);
  Ret (client_List (newAmeshPluginConfigs (IA_namespace args)) s options).

Definition WatchFunc (args : informer_args) (s : Server) (options : ListOptions) :=
  let options := tweaked (IA_tweak args) options in
  _ ← ApisixV1alpha1 (IA_client args);
  Ret (client_Watch (newAmeshPluginConfigs (IA_namespace args)) s options).

Definition config_type : string := "*v1alpha1.AmeshPluginConfig".
Definition NamespaceIndex : string := "namespace".
Definition NamespaceAll : string := "".

Definition NewFilteredAmeshPluginConfigInformer (w : world) (c : client) (namespace : string) (resyncPeriod : Z)
    (indexers : list string) (tweak : TweakListOptionsFunc) : world * nat :=
  NewSharedIndexInformer w (mkInformerArgs c namespace tweak config_type resyncPeriod indexers).

Definition NewAmeshPluginConfigInformer (w : world) (c : client) (namespace : string) (resyncPeriod : Z)
    (indexers : list string) : world * nat :=
  NewFilteredAmeshPluginConfigInformer w c namespace resyncPeriod indexers None.

(** ** The factory *)

Record sharedInformerFactory := mkFactory {
  F_client : client;
  F_namespace : string;
  F_tweakListOptions : TweakListOptionsFunc;
  F_defaultResync : Z;
  F_customResync : gmap string Z;
  F_informers : gmap string nat;
  F_startedInformers : gmap string bool
}.

Definition SharedInformerOption : Type := sharedInformerFactory → sharedInformerFactory.

(** The keys of the map are objects: here an identity, the value carrying the
    type of the object. *)
Definition WithCustomResyncConfig (resyncConfig : gmap string (string * Z)) : SharedInformerOption := λ f,
  mkFactory (F_client f) (F_namespace f) (F_tweakListOptions f) (F_defaultResync f)
    (foldl (λ m kv, <[kv.2.1 := kv.2.2]> m) (F_customResync f) (range "resyncConfig" resyncConfig))
    (F_informers f) (F_startedInformers f).

Definition WithTweakListOptions (tweak : TweakListOptionsFunc) : SharedInformerOption := λ f,
  mkFactory (F_client f) (F_namespace f) tweak (F_defaultResync f) (F_customResync f) (F_informers f)
    (F_startedInformers f).

Definition WithNamespace (namespace : string) : SharedInformerOption := λ f,
  mkFactory (F_client f) namespace (F_tweakListOptions f) (F_defaultResync f) (F_customResync f) (F_informers f)
    (F_startedInformers f).

Definition NewSharedInformerFactoryWithOptions (c : client) (defaultResync : Z) (options : list SharedInformerOption) :
    sharedInformerFactory :=
  foldl (λ factory opt, opt factory) (mkFactory c NamespaceAll None defaultResync ∅ ∅ ∅) options.

Definition NewSharedInformerFactory (c : client) (defaultResync : Z) : sharedInformerFactory :=
  NewSharedInformerFactoryWithOptions c defaultResync [].

Definition NewFilteredSharedInformerFactory (c : client) (defaultResync : Z) (namespace : string)
    (tweak : TweakListOptionsFunc) : sharedInformerFactory :=
  NewSharedInformerFactoryWithOptions c defaultResync [WithNamespace namespace; WithTweakListOptions tweak].

Definition is_started (f : sharedInformerFactory) (informerType : string) : bool :=
  default false (F_startedInformers f !! informerType).

(** One iteration of [Start]. *)
Definition start_informer (st : world * sharedInformerFactory) (entry : string * nat) : world * sharedInformerFactory :=
  let '(w, f) := st in
  let '(informerType, informer) := entry in
  if negb (is_started f informerType) then
    (mkWorld (W_created w) (W_running w ++ [informer]),
     mkFactory (F_client f) (F_namespace f) (F_tweakListOptions f) (F_defaultResync f) (F_customResync f)
       (F_informers f) (<[informerType := true]> (F_startedInformers f)))
  else (w, f).

Definition Start (w : world) (f : sharedInformerFactory) : world * sharedInformerFactory :=
  foldl start_informer (w, f) (range "informers" (F_informers f)).

(** [WaitForCacheSync]; [sync] is [cache.WaitForCacheSync] on the informer. *)
Definition WaitForCacheSync (sync : nat → bool) (f : sharedInformerFactory) : gmap string bool :=
  let informers := foldl (λ m entry, if is_started f entry.1 then <[entry.1 := entry.2]> m else m) ∅
    (range "informers" (F_informers f)) in
  foldl (λ res entry, <[entry.1 := sync entry.2]> res) ∅ (range "started" informers).

Definition NewInformerFunc : Type := world → client → Z → world * nat.

Definition InformerFor (w : world) (f : sharedInformerFactory) (informerType : string) (newFunc : NewInformerFunc) :
    world * sharedInformerFactory * nat :=
  match F_informers f !! informerType with
  | Some informer => (w, f, informer)
  | None =>
      let resyncPeriod := default (F_defaultResync f) (F_customResync f !! informerType) in
      let '(w, informer) := newFunc w (F_client f) resyncPeriod in
      (w, mkFactory (F_client f) (F_namespace f) (F_tweakListOptions f) (F_defaultResync f) (F_customResync f)
            (<[informerType := informer]> (F_informers f)) (F_startedInformers f), informer)
  end.

(** ** From the factory to an informer (interface.go, ameshpluginconfig.go)

    [f.Apisix().V1alpha1().AmeshPluginConfigs()] carries the namespace and the
    list options of the factory along. *)

Record ameshPluginConfigInformer := mkConfigInformer {
  CI_tweakListOptions : TweakListOptionsFunc;
  CI_namespace : string
}.

Record group := mkGroup { G_namespace : string; G_tweakListOptions : TweakListOptionsFunc }.
Record version := mkVersion { V_namespace : string; V_tweakListOptions : TweakListOptionsFunc }.

Definition Apisix (f : sharedInformerFactory) : group := mkGroup (F_namespace f) (F_tweakListOptions f).
Definition V1alpha1 (g : group) : version := mkVersion (G_namespace g) (G_tweakListOptions g).
Definition version_AmeshPluginConfigs (v : version) : ameshPluginConfigInformer :=
  mkConfigInformer (V_tweakListOptions v) (V_namespace v).

Definition defaultInformer (i : ameshPluginConfigInformer) : NewInformerFunc := λ w c resyncPeriod,
  NewFilteredAmeshPluginConfigInformer w c (CI_namespace i) resyncPeriod [NamespaceIndex] (CI_tweakListOptions i).

Definition Informer (w : world) (f : sharedInformerFactory) (i : ameshPluginConfigInformer) :
    world * sharedInformerFactory * nat :=
  InformerFor w f config_type (defaultInformer i).

(** [Lister]: the number of the informer whose index the lister reads. *)
Definition Lister (w : world) (f : sharedInformerFactory) (i : ameshPluginConfigInformer) :
    world * sharedInformerFactory * nat := Informer w f i.

(** [ForResource], by group, version and resource. *)
Definition ForResource (w : world) (f : sharedInformerFactory) (g v resource : string) :
    (world * sharedInformerFactory * (nat * (string * string))) + error :=
  if bool_decide (g = "apisix.apache.org" ∧ v = "v1alpha1" ∧ resource = "ameshpluginconfigs") then
    let '(w, f, informer) := Informer w f (version_AmeshPluginConfigs (V1alpha1 (Apisix f))) in
    inl (w, f, (informer, (g, resource)))
  else inr (Errorf ("no informer found for " +:+ g +:+ "/" +:+ v +:+ ", Resource=" +:+ resource)).

(** ** Invariant *)

(** The informers of a factory are distinct and created; those of its started
    types, and no others, were run, each once. *)
Record factory_ok (w : world) (f : sharedInformerFactory) (runs : list nat) : Prop := {
  ok_created : ∀ ty n, F_informers f !! ty = Some n → (n < length (W_created w))%nat;
  ok_inj : ∀ ty ty' n, F_informers f !! ty = Some n → F_informers f !! ty' = Some n → ty = ty';
  ok_nodup : NoDup runs;
  ok_runs : ∀ n, n ∈ runs ↔ ∃ ty, F_informers f !! ty = Some n ∧ is_started f ty = true;
  ok_started : ∀ ty, is_started f ty = true → is_Some (F_informers f !! ty)
}.

Lemma is_started_insert f ty ty' :
  is_started (mkFactory (F_client f) (F_namespace f) (F_tweakListOptions f) (F_defaultResync f) (F_customResync f)
    (F_informers f) (<[ty := true]> (F_startedInformers f))) ty' = bool_decide (ty' = ty) || is_started f ty'.
Proof.
  unfold is_started. cbn. destruct (decide (ty' = ty)) as [->|Hne].
  - by rewrite lookup_insert_eq, bool_decide_true.
  - by rewrite lookup_insert_ne, bool_decide_false by congruence.
Qed.

(** One loop of [Start] over informers of the factory. *)
Lemma start_informers_ok l : ∀ w f r0 runs,
  (∀ ty n, (ty, n) ∈ l → F_informers f !! ty = Some n) →
  W_running w = r0 ++ runs → factory_ok w f runs →
  ∃ runs', let '(w', f') := foldl start_informer (w, f) l in
    W_created w' = W_created w ∧ W_running w' = r0 ++ runs ++ runs' ∧ factory_ok w' f' (runs ++ runs') ∧
    F_informers f' = F_informers f ∧ F_client f' = F_client f ∧
    (∀ ty, is_started f' ty = true ↔ is_started f ty = true ∨ ∃ n, (ty, n) ∈ l).
Proof.
  induction l as [|[ty n] l IH]; intros w f r0 runs Hl Hr Hok.
  - exists []. cbn. rewrite !app_nil_r. split_and!; try done. set_solver.
  - cbn [foldl start_informer]. pose proof (Hl ty n ltac:(by left)) as Hty.
    destruct (is_started f ty) eqn:Hst; cbn [negb].
    + destruct (IH w f r0 runs) as (runs' & Hrun); [set_solver|done|done|]. exists runs'.
      destruct (foldl start_informer (w, f) l) as [w' f']. destruct Hrun as (Hc & Hw & Hok' & Hi & Hcl & Hs).
      split_and!; try done. intros ty'. rewrite Hs. split; [set_solver|].
      intros [?|(n' & [[= -> ->]|Hin]%elem_of_cons)]; eauto.
    + set (f1 := mkFactory _ _ _ _ _ _ _). set (w1 := mkWorld _ _).
      assert (∀ ty', is_started f1 ty' = bool_decide (ty' = ty) || is_started f ty') as Hins by (intros; apply is_started_insert).
      assert (factory_ok w1 f1 (runs ++ [n])) as Hok1.
      { destruct Hok as [Hcr Hinj Hnd Hruns Hsome]. split; cbn; try done.
        - apply NoDup_app. split_and!; [done| |apply NoDup_singleton]. intros x Hx ->%list_elem_of_singleton.
          apply Hruns in Hx as (ty' & Hty' & Hs'). rewrite (Hinj ty ty' n) in Hst by done. congruence.
        - intros x. rewrite elem_of_app, Hruns, list_elem_of_singleton. split.
          + intros [(ty' & Hn & Hs')| ->]; [exists ty'|exists ty]; (split; [done|]); rewrite Hins, orb_true_iff; auto.
            left. by apply bool_decide_eq_true.
          + intros (ty' & Hty' & Hs'). rewrite Hins, orb_true_iff, bool_decide_eq_true in Hs'.
            destruct Hs' as [->|Hs']; [right; congruence|left; eauto].
        - intros ty'. rewrite Hins, orb_true_iff, bool_decide_eq_true. intros [->|Hs']; [by eexists|auto]. }
      destruct (IH w1 f1 r0 (runs ++ [n])) as (runs' & Hrun); [set_solver|cbn; by rewrite Hr, <- app_assoc|done|].
      exists (n :: runs'). destruct (foldl start_informer (w1, f1) l) as [w' f'].
      destruct Hrun as (Hc & Hw & Hok' & Hi & Hcl & Hs). rewrite <- !app_assoc in Hw, Hok'. cbn in Hw, Hok'.
      split_and!; try done. intros ty'. rewrite Hs, Hins, orb_true_iff, bool_decide_eq_true. split.
      * intros [[->|?]|(n' & ?)]; [right; exists n; by left|by left|right; exists n'; by right].
      * intros [?|(n' & [[= -> ->]|Hin]%elem_of_cons)]; eauto.
Qed.

Lemma Start_ok w f r0 runs :
  W_running w = r0 ++ runs → factory_ok w f runs →
  ∃ runs', let '(w', f') := Start w f in
    W_created w' = W_created w ∧ W_running w' = r0 ++ runs ++ runs' ∧ factory_ok w' f' (runs ++ runs') ∧
    F_informers f' = F_informers f ∧ F_client f' = F_client f ∧
    (∀ ty, is_started f' ty = true ↔ is_Some (F_informers f' !! ty)).
Proof.
  intros Hr Hok. destruct (start_informers_ok (range "informers" (F_informers f)) w f r0 runs) as (runs' & Hrun).
  { intros ty n. by rewrite elem_of_range. }
  { done. } { done. }
  exists runs'. unfold Start. destruct (foldl _ _ _) as [w' f']. destruct Hrun as (Hc & Hw & Hok' & Hi & Hcl & Hs).
  split_and!; try done. intros ty. rewrite Hs, Hi. setoid_rewrite elem_of_range. split; [|intros [n Hn]; eauto].
  intros [Hst|[n Hn]]; [by apply (ok_started _ _ _ Hok)|by eexists].
Qed.

(** A function that creates one informer. *)
Definition creates (newFunc : NewInformerFunc) : Prop :=
  ∀ w c resync, ∃ args, newFunc w c resync = NewSharedIndexInformer w args ∧ IA_client args = c ∧ IA_resync args = resync.

Lemma defaultInformer_creates i : creates (defaultInformer i).
Proof. intros w c resync. by eexists. Qed.

Lemma InformerFor_ok w f r0 runs ty newFunc :
  creates newFunc → W_running w = r0 ++ runs → factory_ok w f runs →
  let '(w', f', n) := InformerFor w f ty newFunc in
    W_created w `prefix_of` W_created w' ∧ W_running w' = r0 ++ runs ∧ factory_ok w' f' runs ∧
    F_informers f' !! ty = Some n ∧ F_informers f ⊆ F_informers f' ∧ F_startedInformers f' = F_startedInformers f ∧
    F_client f' = F_client f.
Proof.
  intros Hnew Hr Hok. unfold InformerFor. destruct (F_informers f !! ty) as [n|] eqn:Hty; [done|].
  set (resync := default _ _). destruct (Hnew w (F_client f) resync) as (args & -> & _ & _). cbn.
  destruct Hok as [Hcr Hinj Hnd Hruns Hsome].
  assert (∀ ty' n, F_informers f !! ty' = Some n → n ≠ length (W_created w)) as Hfresh.
  { intros ty' n Hn ->. apply Hcr in Hn. lia. }
  split_and!; [by apply prefix_app_r|done| |by rewrite lookup_insert_eq|by apply insert_subseteq|done|done].
  split; cbn; try done.
  - intros ty' n. rewrite length_app. cbn. destruct (decide (ty' = ty)) as [->|Hne].
    + rewrite lookup_insert_eq. intros [= <-]. lia.
    + rewrite lookup_insert_ne by done. intros Hn%Hcr. lia.
  - intros ty1 ty2 n. destruct (decide (ty1 = ty)) as [->|Hne1], (decide (ty2 = ty)) as [->|Hne2];
      rewrite ?lookup_insert_eq, ?lookup_insert_ne by done; [done|..|by apply Hinj].
    + intros [= <-] Hn. by apply Hfresh in Hn.
    + intros Hn [= <-]. by apply Hfresh in Hn.
  - intros n. rewrite Hruns. unfold is_started. cbn. split; intros (ty' & Hn & Hs); exists ty'; (split; [|done]).
    + rewrite lookup_insert_ne; [done|]. congruence.
    + destruct (decide (ty' = ty)) as [->|Hne]; [|by rewrite lookup_insert_ne in Hn].
      apply Hsome in Hs. by rewrite Hty in Hs; destruct Hs.
  - intros ty' Hs. destruct (decide (ty' = ty)) as [->|Hne]; [rewrite lookup_insert_eq; by eexists|].
    rewrite lookup_insert_ne by done. by apply Hsome.
Qed.

Lemma new_factory_ok w c resync options :
  Forall (λ opt : SharedInformerOption, ∀ f, F_informers (opt f) = F_informers f ∧ F_startedInformers (opt f) = F_startedInformers f) options →
  factory_ok w (NewSharedInformerFactoryWithOptions c resync options) [].
Proof.
  intros Hopts. unfold NewSharedInformerFactoryWithOptions.
  assert (∀ f, F_informers f = ∅ → F_startedInformers f = ∅ →
    factory_ok w (foldl (λ factory opt, opt factory) f options) []) as Hgen; [|by apply Hgen].
  induction Hopts as [|opt options Ho _ IH]; intros f Hi Hs.
  - split; cbn; unfold is_started; rewrite ?Hi, ?Hs; try done; [by constructor|].
    intros n. split; [by intros ?%elem_of_nil|]. intros (ty & ? & _). done.
  - cbn. destruct (Ho f) as [Hinf Hst]. apply IH; congruence.
Qed.
End Informers.
