(* ===== verification/Startup.v ===== *)
(** * The start of the controller (src/controller/main.go)

    [main] builds the clients, the informer factories, the reconciler and the
    plugin server, starts the informers and hands over to the manager.  What
    the calls of controller-runtime, client-go and the operating system return
    is the record [library_calls]; the factory of the AmeshPluginConfig
    informers, the clientset, the reconciler and its subscription are the
    definitions of their files. *)

From S2P Require Import Prelude GoStrings GoNum ControllerTypes Lister Reconciler Client StatusLoop Informers.
Local Open Scope Z_scope.

Section Startup.
Context `{GoRange} `{!K8sLib} `{!RestLib} `{!RestConfigLib}.
Context {KubeClient : Type}.     (** [*kubernetes.Clientset] *)

(** The results of the calls, [None] for a nil error. *)
Record library_calls := mkCalls {
  GetConfigOrDie : option error;                            (** ends the process on an error *)
  NewManager : option error;
  BuildConfigFromFlags : rest_Config + error;
  kubernetes_NewForConfig : option rest_Config → outcome (KubeClient + error);
  CoreV1 : option KubeClient → outcome unit;
  SetupWithManager : option error;
  AddHealthzCheck : option error;
  AddReadyzCheck : option error;
  net_Listen : string → option error;
  Manager_Start : option error
}.

Inductive startup_effect : Type :=
| LogError (message : string)
| AddPodEventHandler
| ListenTCP (addr : string)
| StartKubeInformers
| GoRunInformer (informer : nat)
| GoRunGrpc
| GoRunCollector
| StartManager.

Inductive ending : Type :=
| Exited (code : Z)
| Panicked (why : string)
| Returned.

(** A computation of [main]: it extends the trace, and gives a value or ends
    the process. *)
Definition startup (A : Type) : Type := list startup_effect → list startup_effect * (A + ending).

#[local] Instance startup_ret : MRet startup := λ A a trace, (trace, inl a).
#[local] Instance startup_bind : MBind startup := λ A B f m trace,
  match m trace with
  | (trace, inl a) => f a trace
  | (trace, inr e) => (trace, inr e)
  end.

Definition emit (e : startup_effect) : startup unit := λ trace, (trace ++ [e], inl tt).
Definition os_Exit {A} (code : Z) : startup A := λ trace, (trace, inr (Exited code)).
Definition lift {A} (m : outcome A) : startup A := λ trace,
  (trace, match m with Ret a => inl a | Panic why => inr (Panicked why) end).

(** [if err != nil { setupLog.Error(err, msg); os.Exit(1) }] *)
Definition or_exit (err : option error) (msg : string) : startup unit :=
  match err with
  | Some _ => _ ← emit (LogError msg); os_Exit 1
  | None => mret tt
  end.

(** [x, err := f(); if err != nil { setupLog.Error(err, msg) }]: [x] is nil after
    an error, and the code goes on. *)
Definition or_log {A} (res : A + error) (msg : string) : startup (option A) :=
  match res with
  | inl x => mret (Some x)
  | inr _ => _ ← emit (LogError msg); mret None
  end.

(** What runs when the manager takes over. *)
Record process := mkProcess {
  P_world : world;
  P_factory : sharedInformerFactory;
  P_reconciler : AmeshPluginConfigReconciler;
  P_lister : nat                  (** the informer whose index the selector cache lists *)
}.

Definition thirty_seconds : Z := 30 * 1000000000.

(** [NewAmeshPluginConfigController]: it records events with [kubeClient], asks
    the pod informer for its events and the configuration informer for its
    lister. *)
Definition start_controller (calls : library_calls) (w : world) (f : sharedInformerFactory) (kubeClient : option KubeClient) :
    startup (world * sharedInformerFactory * AmeshPluginConfigReconciler * nat) :=
  _ ← lift (CoreV1 calls kubeClient);
  let '(w, f, lister) := Lister w f (version_AmeshPluginConfigs (V1alpha1 (Apisix f))) in
  _ ← emit AddPodEventHandler;
  mret (w, f, NewAmeshPluginConfigController, lister).

(** [ameshInformerFactory.Start], with the goroutines it starts in the trace. *)
Definition start_informers (w : world) (f : sharedInformerFactory) : startup (world * sharedInformerFactory) := λ trace,
  let '(w', f') := Start w f in
  (trace ++ (GoRunInformer <$> drop (length (W_running w)) (W_running w')), inl (w', f')).

Definition grpc_listener : nat := 0.

Definition main (calls : library_calls) : startup process :=
  _ ← or_exit (GetConfigOrDie calls) "unable to get kubeconfig";
  _ ← or_exit (NewManager calls) "unable to start manager";
  cfg ← or_log (BuildConfigFromFlags calls) "failed to build kubeconfig";
  kube ← lift (kubernetes_NewForConfig calls cfg);
  kubeClient ← or_log kube "failed to create kubernetes clientset";
  amesh ← lift (NewForConfig cfg);
  ameshClient ← or_log amesh "failed to create Amesh clientset: %s";
  let f := NewSharedInformerFactory ameshClient thirty_seconds in
  res ← start_controller calls (mkWorld [] []) f kubeClient;
  let '(w, f, r, lister) := res in
  _ ← or_exit (SetupWithManager calls) "unable to create controller";
  _ ← or_exit (AddHealthzCheck calls) "unable to set up health check";
  _ ← or_exit (AddReadyzCheck calls) "unable to set up ready check";
  _ ← or_exit (net_Listen calls ":15810") "unable to create controller";
  _ ← emit (ListenTCP ":15810");
  let r := AddPodChangeListener r grpc_listener in
  _ ← emit StartKubeInformers;
  res ← start_informers w f;
  let '(w, f) := res in
  _ ← emit GoRunGrpc;
  _ ← emit GoRunCollector;
  _ ← emit StartManager;
  mret (mkProcess w f r lister).

(** How the process ends once the manager has taken over. *)
Definition main_ending (calls : library_calls) (running : process + ending) : ending :=
  match running with
  | inl _ => match Manager_Start calls with Some _ => Exited 1 | None => Returned end
  | inr e => e
  end.

Lemma bind_eq {A B} (m : startup A) (g : A → startup B) trace :
  (m ≫= g) trace = match m trace with (t, inl a) => g a t | (t, inr e) => (t, inr e) end.
Proof. done. Qed.

(** The effects that concern informers. *)
Definition is_informer_effect (e : startup_effect) : Prop :=
  match e with AddPodEventHandler | StartKubeInformers | GoRunInformer _ => True | _ => False end.

#[local] Instance is_informer_effect_dec e : Decision (is_informer_effect e).
Proof. destruct e; cbn; apply _. Defined.

(** The calls that [main] relies on succeed. *)
Definition library_ok (calls : library_calls) (c : rest_Config) (k : KubeClient) : Prop :=
  GetConfigOrDie calls = None ∧ NewManager calls = None ∧ BuildConfigFromFlags calls = inl c ∧
  kubernetes_NewForConfig calls (Some c) = Ret (inl k) ∧ CoreV1 calls (Some k) = Ret tt ∧
  SetupWithManager calls = None ∧ AddHealthzCheck calls = None ∧ AddReadyzCheck calls = None ∧
  net_Listen calls ":15810" = None.

(** The world and the factory once the lister was asked for. *)
Definition lister_world (amesh : option Clientset) : world :=
  mkWorld [mkInformerArgs amesh NamespaceAll None config_type thirty_seconds [NamespaceIndex]] [].
Definition lister_factory (amesh : option Clientset) (started : gmap string bool) : sharedInformerFactory :=
  mkFactory amesh NamespaceAll None thirty_seconds ∅ {[config_type := 0%nat]} started.

Lemma start_controller_eq calls amesh k trace :
  CoreV1 calls (Some k) = Ret tt →
  start_controller calls (mkWorld [] []) (NewSharedInformerFactory amesh thirty_seconds) (Some k) trace =
    (trace ++ [AddPodEventHandler],
     inl (lister_world amesh, lister_factory amesh ∅, NewAmeshPluginConfigController, 0%nat)).
Proof.
  intros Hcore. unfold start_controller, lift. rewrite bind_eq, Hcore. unfold Lister, Informer, InformerFor.
  cbn [F_informers F_customResync NewSharedInformerFactory NewSharedInformerFactoryWithOptions foldl].
  by rewrite !lookup_empty.
Qed.

Lemma start_informers_eq amesh trace :
  start_informers (lister_world amesh) (lister_factory amesh ∅) trace =
    (trace ++ [GoRunInformer 0],
     inl (mkWorld (W_created (lister_world amesh)) [0%nat], lister_factory amesh (<[config_type := true]> ∅))).
Proof.
  unfold start_informers, Start. cbn [F_informers lister_factory]. rewrite range_singleton. cbn [foldl start_informer].
  unfold is_started. cbn [F_startedInformers lister_factory]. by rewrite lookup_empty.
Qed.

(** With these, [main] comes up whatever became of the Amesh clientset. *)
Lemma main_comes_up calls c k amesh :
  library_ok calls c k → NewForConfig (Some c) = Ret amesh →
  ∃ trace p, main calls [] = (trace ++ [GoRunGrpc; GoRunCollector; StartManager], inl p) ∧
    R_subs (P_reconciler p) = [grpc_listener] ∧
    filter is_informer_effect trace = [AddPodEventHandler; StartKubeInformers; GoRunInformer (P_lister p)] ∧
    W_running (P_world p) = [P_lister p] ∧
    ∃ args, W_created (P_world p) !! P_lister p = Some args ∧
      IA_client args = (match amesh with inl cs => Some cs | inr _ => None end) ∧
      IA_namespace args = NamespaceAll ∧ IA_tweak args = None ∧ IA_resync args = thirty_seconds.
Proof.
  intros (Hconf & Hmgr & Hcfg & Hkube & Hcore & Hsetup & Hhealth & Hready & Hlisten) Hcs. unfold main.
  rewrite Hconf, Hmgr, Hcfg, Hsetup, Hhealth, Hready, Hlisten. unfold mbind, startup_bind. cbn -[NewForConfig start_controller NewSharedInformerFactory].
  rewrite Hkube. cbn -[NewForConfig start_controller NewSharedInformerFactory]. unfold lift. rewrite Hcs.
  destruct amesh as [cs|err]; cbn -[start_controller NewSharedInformerFactory];
    unfold mbind, startup_bind; cbn -[start_controller NewSharedInformerFactory];
    rewrite start_controller_eq by done;
    cbn -[start_informers]; rewrite start_informers_eq; cbn.
  - eexists [AddPodEventHandler; ListenTCP ":15810"; StartKubeInformers; GoRunInformer 0], _. split; [reflexivity|].
    cbn. split_and!; try done. by eexists.
  - eexists [LogError _; AddPodEventHandler; ListenTCP ":15810"; StartKubeInformers; GoRunInformer 0], _. split; [reflexivity|].
    cbn. split_and!; try done. by eexists.
Qed.

(** When the libraries' calls succeed the controller comes up connected:
    the plugin server is the reconciler's subscriber, and the index that the
    reconciler lists configurations from belongs to an informer over all
    namespaces which runs, started once and before the manager. *)
Lemma main_ready calls c k cs :
  library_ok calls c k → NewForConfig (Some c) = Ret (inl cs) →
  ∃ trace p, main calls [] = (trace ++ [GoRunGrpc; GoRunCollector; StartManager], inl p) ∧
    R_subs (P_reconciler p) = [grpc_listener] ∧
    filter is_informer_effect trace = [AddPodEventHandler; StartKubeInformers; GoRunInformer (P_lister p)] ∧
    W_running (P_world p) = [P_lister p] ∧
    ∃ args, W_created (P_world p) !! P_lister p = Some args ∧
      IA_client args = Some cs ∧ IA_namespace args = NamespaceAll ∧ IA_tweak args = None ∧ IA_resync args = thirty_seconds ∧
      ∀ s opts, ListFunc args s opts = Ret (client_List (newAmeshPluginConfigs NamespaceAll) s opts).
Proof.
  intros Hok Hcs. destruct (main_comes_up calls c k (inl cs) Hok Hcs) as (trace & p & Hmain & Hp).
  exists trace, p. split; [exact Hmain|]. destruct Hp as (Hsubs & Htrace & Hrun & args & Hargs & Hcl & Hns & Htw & Hre).
  split_and!; [done..|]. exists args. split_and!; [done..|]. intros s opts. unfold ListFunc. by rewrite Hcl, Hns, Htw.
Qed.

(** C32. What the start of the controller does when it fails.  Without a
    configuration for the manager, or without a manager, the process ends with
    status 1; but a kubeconfig that cannot be read, which the code only logs,
    crashes it with a nil pointer, and an Amesh clientset that cannot be
    created lets it come up with a nil client: the informer that the
    reconciler reads then runs, and its first listing crashes the process. *)
Theorem main_failures calls :
  (is_Some (GetConfigOrDie calls) ∨ is_Some (NewManager calls) →
     main_ending calls (main calls []).2 = Exited 1) ∧
  (∀ err, GetConfigOrDie calls = None → NewManager calls = None → BuildConfigFromFlags calls = inr err →
     ∃ why, main_ending calls (main calls []).2 = Panicked why) ∧
  (∀ c k err, library_ok calls c k → NewForConfig (Some c) = Ret (inr err) →
     ∃ trace p args, main calls [] = (trace, inl p) ∧ W_running (P_world p) = [P_lister p] ∧
       W_created (P_world p) !! P_lister p = Some args ∧
       ∀ s opts, ∃ why, ListFunc args s opts = Panic why).
Proof.
  split_and!.
  - unfold main. destruct (GetConfigOrDie calls); [done|]. destruct (NewManager calls); [done|].
    intros [[]|[]]; congruence.
  - intros err Hconf Hmgr Hcfg. unfold main. rewrite Hconf, Hmgr, Hcfg.
    repeat (unfold mbind, startup_bind; cbn). unfold lift.
    destruct (kubernetes_NewForConfig calls None) as [[k|e]|why]; repeat (unfold mbind, startup_bind; cbn); by eexists.
  - intros c k err Hok Hcs. destruct (main_comes_up calls c k (inr err) Hok Hcs) as (trace & p & Hmain & Hp).
    destruct Hp as (_ & _ & Hrun & args & Hargs & Hcl & _). eexists _, p, args. split_and!; [exact Hmain|done..|].
    intros s opts. unfold ListFunc. rewrite Hcl. by eexists.
Qed.
End Startup.

(** ** Witnesses *)

Section Witnesses.
#[local] Existing Instance k8s_example.
#[local] Existing Instance map_order.
#[local] Existing Instance example_server.

(** A client library in which every call succeeds, or, with an HTTP client
    that cannot be made, none. *)
#[local] Instance example_config_lib : RestConfigLib := {|
  HTTPClient := unit;
  RESTClient := string;
  DiscoveryClient := unit;
  DefaultKubernetesUserAgent := "manager/v0.0.0";
  HTTPClientFor c := if bool_decide (Cfg_others c = "bad tls") then inr (Errorf "bad tls") else inl tt;
  RESTClientForConfigAndClient c _ := inl (Cfg_APIPath c);
  NewDiscoveryClientForConfigAndClient _ _ := inl tt;
  NewDiscoveryClient _ := tt;
  NewTokenBucketRateLimiter _ _ := "limiter"
|}.

Definition example_config (others : string) : rest_Config := mk_rest_Config "" "" None None (float32_of_Z 0) 0 others.

Definition example_calls (config : rest_Config + error) : library_calls (KubeClient := unit) := {|
  GetConfigOrDie := None;
  NewManager := None;
  BuildConfigFromFlags := config;
  kubernetes_NewForConfig := λ c, match c with
    | Some _ => Ret (inl tt) | None => Panic "nil pointer dereference: rest.Config" end;
  CoreV1 := λ k, match k with Some _ => Ret tt | None => Panic "nil pointer dereference: Clientset" end;
  SetupWithManager := None;
  AddHealthzCheck := None;
  AddReadyzCheck := None;
  net_Listen := λ _, None;
  Manager_Start := None
|}.

Definition example_clientset : Clientset :=
  @mkClientset example_config_lib tt (@mkApisixV1alpha1Client example_config_lib "/apis").

Lemma main_ready_witness :
  ∃ trace p, main (example_calls (inl (example_config ""))) [] = (trace ++ [GoRunGrpc; GoRunCollector; StartManager], inl p) ∧
    R_subs (P_reconciler p) = [grpc_listener] ∧ W_running (P_world p) = [P_lister p].
Proof.
  destruct (main_ready (example_calls (inl (example_config ""))) (example_config "") tt
    example_clientset) as (trace & p & Hm & Hs & _ & Hr & _).
  - by split_and!.
  - reflexivity.
  - exists trace, p. split_and!; [exact Hm|exact Hs|exact Hr].
Defined.

Lemma main_failures_witness :
  (∃ why, main_ending (example_calls (inr (Errorf "invalid configuration")))
     (main (example_calls (inr (Errorf "invalid configuration"))) []).2 = Panicked why) ∧
  (∃ trace p args, main (example_calls (inl (example_config "bad tls"))) [] = (trace, inl p) ∧
     W_running (P_world p) = [P_lister p] ∧ W_created (P_world p) !! P_lister p = Some args ∧
     ∀ s opts, ∃ why, ListFunc args s opts = Panic why).
Proof.
  split.
  - destruct (main_failures (example_calls (inr (Errorf "invalid configuration")))) as (_ & Hcfg & _).
    apply (Hcfg (Errorf "invalid configuration")); reflexivity.
  - destruct (main_failures (example_calls (inl (example_config "bad tls")))) as (_ & _ & Hamesh).
    apply (Hamesh (example_config "bad tls") tt (Errorf "bad tls")); [by split_and!|reflexivity].
Defined.
End Witnesses.
