(* ===== verification/Iptables.v ===== *)
(** * The traffic interception rules (src/cmd/iptables/main.go)

    The rules are the argument lists that the command hands to istio's
    iptables builder, in the order in which it appends them; what the builder
    makes of them is [BuildV4], a parameter.  The second half gives the rules
    the meaning that iptables documents for them, and shows which packets they
    redirect. *)

From S2P Require Import Prelude GoStrings.
Local Open Scope Z_scope.

Definition InboundChain : string := "APISIX_INBOUND".
Definition RedirectChain : string := "APISIX_REDIRECT".
Definition InboundRedirectChain : string := "APISIX_INBOUND_REDIRECT".
Definition OutputChain : string := "OUTPUT".
Definition PreRoutingChain : string := "PREROUTING".

(** The options of the command that the rules depend on. *)
Record iptables_config := mkIptablesConfig {
  ProxyPort : string;
  InboundCapturePort : string;
  InboundPortsInclude : string;
  InboundPortsExclude : string;
  OutboundPortsInclude : string;
  OutboundPortsExclude : string;
  ProxyUID : string;
  ProxyGID : string
}.

(** The defaults of the flags; the user is looked up by the command. *)
Definition default_config (uid gid : string) : iptables_config :=
  mkIptablesConfig "9080" "9081" "" "" "" "" uid gid.

(** One [AppendRuleV4]: chain, table and arguments. *)
Record rule := mkRule {
  rule_chain : string;
  rule_table : string;
  rule_args : list string
}.

Fixpoint filterEmpty (strs : list string) : list string :=
  match strs with
  | [] => []
  | s :: strs => if bool_decide (s = "") then filterEmpty strs else s :: filterEmpty strs
  end.

Definition split (s : string) : list string :=
  if bool_decide (s = "") then [] else filterEmpty (Split s ",").

Definition port_rule (chain target port : string) : rule :=
  mkRule chain "nat" ["-p"; "tcp"; "--dport"; port; "-j"; target].

Definition insertInboundRules (cfg : iptables_config) : list rule :=
  if bool_decide (InboundPortsInclude cfg = "") then []
  else
    mkRule PreRoutingChain "nat" ["-p"; "tcp"; "-j"; InboundChain] ::
    if bool_decide (InboundPortsInclude cfg = "*") then
      port_rule InboundChain "RETURN" "22" ::
      (if bool_decide (InboundPortsExclude cfg = "") then []
       else map (port_rule InboundChain "RETURN") (split (InboundPortsExclude cfg))) ++
      [mkRule InboundChain "nat" ["-p"; "tcp"; "-j"; InboundRedirectChain]]
    else map (port_rule InboundChain InboundRedirectChain) (split (InboundPortsInclude cfg)).

Definition insertOutboundRules (cfg : iptables_config) : list rule :=
  if bool_decide (OutboundPortsInclude cfg = "") then []
  else if bool_decide (OutboundPortsInclude cfg = "*") then
    (if bool_decide (OutboundPortsExclude cfg = "") then []
     else map (port_rule OutputChain "RETURN") (split (OutboundPortsExclude cfg))) ++
    [mkRule OutputChain "nat" ["-p"; "tcp"; "-j"; RedirectChain]]
  else map (port_rule OutputChain RedirectChain) (split (OutboundPortsInclude cfg)).

Definition insertSkipRules (cfg : iptables_config) : list rule := [
  mkRule OutputChain "nat" ["-o"; "lo"; "!"; "-d"; "127.0.0.1/32"; "-m"; "owner"; "--uid-owner"; ProxyUID cfg; "-j"; "RETURN"];
  mkRule OutputChain "nat" ["-d"; "127.0.0.1/32"; "-j"; "RETURN"];
  mkRule OutputChain "nat" ["-m"; "owner"; "--gid-owner"; ProxyGID cfg; "-j"; "RETURN"]
].

(** The rules that [iptablesConstructor.run] appends. *)
Definition appended_rules (cfg : iptables_config) : list rule :=
  [mkRule RedirectChain "nat" ["-p"; "tcp"; "-j"; "REDIRECT"; "--to-ports"; ProxyPort cfg];
   mkRule InboundRedirectChain "nat" ["-p"; "tcp"; "-j"; "REDIRECT"; "--to-ports"; InboundCapturePort cfg]] ++
  insertSkipRules cfg ++ insertInboundRules cfg ++ insertOutboundRules cfg.

(** [executeCommand]: the program and the arguments of each command. *)
Fixpoint executeCommand (commands : list (list string)) : outcome (list (string * list string)) :=
  match commands with
  | [] => Ret []
  | cmd :: commands =>
      match cmd with
      | [] => Panic "index out of range: cmd[0]"
      | program :: args => rest ← executeCommand commands; Ret ((program, args) :: rest)
      end
  end.

Definition iptables_run (BuildV4 : list rule → list (list string)) (cfg : iptables_config) :
    outcome (list (string * list string)) :=
  executeCommand (BuildV4 (appended_rules cfg)).

(** ** What iptables does with such rules *)

Record packet := mkPacket {
  pkt_proto : string;
  pkt_dport : Z;
  pkt_out : string;       (** the output interface *)
  pkt_uid : string;       (** the owner of the sending socket *)
  pkt_gid : string
}.

Inductive target : Type :=
| Redirect (port : string)
| ReturnTo
| Jump (chain : string).

Section Netfilter.
(** How iptables reads a port and a destination address. *)
Variable port_matches : string → Z → bool.
Variable dst_matches : string → packet → bool.

(** The matches of a rule up to its target; [ok] is what matched so far. *)
Fixpoint eval_args (pkt : packet) (ok : bool) (args : list string) : option (bool * target) :=
  match args with
  | "-p" :: proto :: rest => eval_args pkt (ok && bool_decide (pkt_proto pkt = proto)) rest
  | "--dport" :: port :: rest => eval_args pkt (ok && port_matches port (pkt_dport pkt)) rest
  | "-o" :: iface :: rest => eval_args pkt (ok && bool_decide (pkt_out pkt = iface)) rest
  | "!" :: "-d" :: addr :: rest => eval_args pkt (ok && negb (dst_matches addr pkt)) rest
  | "-d" :: addr :: rest => eval_args pkt (ok && dst_matches addr pkt) rest
  | "-m" :: "owner" :: rest => eval_args pkt ok rest
  | "--uid-owner" :: uid :: rest => eval_args pkt (ok && bool_decide (pkt_uid pkt = uid)) rest
  | "--gid-owner" :: gid :: rest => eval_args pkt (ok && bool_decide (pkt_gid pkt = gid)) rest
  | ["-j"; "REDIRECT"; "--to-ports"; port] => Some (ok, Redirect port)
  | ["-j"; "RETURN"] => Some (ok, ReturnTo)
  | ["-j"; chain] => Some (ok, Jump chain)
  | _ => None
  end.

(** The verdict of a chain: redirected to a port, back to the caller (the end
    of the chain or RETURN), or not decided within the fuel. *)
Inductive verdict : Type :=
| Redirected (port : string)
| Back
| Undecided.

Definition chain_rules (rules : list rule) (chain : string) : list rule :=
  filter (λ r, rule_chain r = chain ∧ rule_table r = "nat") rules.

(** The rules of a chain in order; [jump] evaluates another chain. *)
Fixpoint run_rules (jump : string → verdict) (pkt : packet) (rules : list rule) : verdict :=
  match rules with
  | [] => Back
  | r :: rules =>
      match eval_args pkt true (rule_args r) with
      | Some (true, Redirect port) => Redirected port
      | Some (true, ReturnTo) => Back
      | Some (true, Jump chain) =>
          match jump chain with Back => run_rules jump pkt rules | v => v end
      | Some (false, _) => run_rules jump pkt rules
      | None => Undecided
      end
  end.

Fixpoint run_chain (fuel : nat) (rules : list rule) (pkt : packet) (chain : string) : verdict :=
  match fuel with
  | O => Undecided
  | S fuel => run_rules (run_chain fuel rules pkt) pkt (chain_rules rules chain)
  end.

(** ** Specification *)

(** The port is in a comma separated list. *)
Definition listed (ports : string) (port : Z) : bool := existsb (λ p, port_matches p port) (split ports).

(** The inbound packets that are to be intercepted. *)
Definition inbound_captured (cfg : iptables_config) (pkt : packet) : bool :=
  bool_decide (pkt_proto pkt = "tcp") &&
  if bool_decide (InboundPortsInclude cfg = "*")
  then negb (port_matches "22" (pkt_dport pkt)) && negb (listed (InboundPortsExclude cfg) (pkt_dport pkt))
  else listed (InboundPortsInclude cfg) (pkt_dport pkt).

(** The outbound packets of the proxy itself and to the loopback address. *)
Definition skipped (cfg : iptables_config) (pkt : packet) : bool :=
  (bool_decide (pkt_out pkt = "lo") && negb (dst_matches "127.0.0.1/32" pkt) && bool_decide (pkt_uid pkt = ProxyUID cfg)) ||
  dst_matches "127.0.0.1/32" pkt || bool_decide (pkt_gid pkt = ProxyGID cfg).

Definition outbound_captured (cfg : iptables_config) (pkt : packet) : bool :=
  negb (skipped cfg pkt) && bool_decide (pkt_proto pkt = "tcp") &&
  if bool_decide (OutboundPortsInclude cfg = "*")
  then negb (listed (OutboundPortsExclude cfg) (pkt_dport pkt))
  else listed (OutboundPortsInclude cfg) (pkt_dport pkt).

(** ** Lemmas *)

Lemma chain_rules_app rules rules' chain :
  chain_rules (rules ++ rules') chain = chain_rules rules chain ++ chain_rules rules' chain.
Proof. apply filter_app. Qed.

Lemma chain_rules_ports chain target ports chain' :
  chain_rules (map (port_rule chain target) ports) chain' =
    if decide (chain = chain') then map (port_rule chain target) ports else [].
Proof.
  unfold chain_rules. case_decide as Hc.
  - apply list_filter_all. by intros r (port & -> & _)%list_elem_of_fmap.
  - induction ports as [|port ports IH]; [done|]. cbn [map]. rewrite filter_cons_False; [done|].
    by intros [? _].
Qed.

Lemma eval_port_rule pkt chain port (target : string) t :
  eval_args pkt true ["-j"; target] = Some (true, t) → (∀ ok, eval_args pkt ok ["-j"; target] = Some (ok, t)) →
  eval_args pkt true (rule_args (port_rule chain target port)) =
    Some (bool_decide (pkt_proto pkt = "tcp") && port_matches port (pkt_dport pkt), t).
Proof. intros _ Ht. exact (Ht _). Qed.

Lemma run_return_ports jump pkt chain ports rest :
  run_rules jump pkt (map (port_rule chain "RETURN") ports ++ rest) =
    if bool_decide (pkt_proto pkt = "tcp") && existsb (λ p, port_matches p (pkt_dport pkt)) ports
    then Back else run_rules jump pkt rest.
Proof.
  induction ports as [|port ports IH]; [cbn; by rewrite andb_false_r|].
  cbn [map app run_rules existsb]. rewrite (eval_port_rule pkt chain port "RETURN" ReturnTo) by done.
  destruct (bool_decide (pkt_proto pkt = "tcp")) eqn:Htcp; [|exact IH]. cbn [andb].
  destruct (port_matches port (pkt_dport pkt)); [done|]. exact IH.
Qed.

Lemma run_jump_ports jump pkt chain target ports port' :
  (∀ ok, eval_args pkt ok ["-j"; target] = Some (ok, Jump target)) → jump target = Redirected port' →
  run_rules jump pkt (map (port_rule chain target) ports) =
    if bool_decide (pkt_proto pkt = "tcp") && existsb (λ p, port_matches p (pkt_dport pkt)) ports
    then Redirected port' else Back.
Proof.
  intros Ht Hj. induction ports as [|port ports IH]; [cbn; by rewrite andb_false_r|].
  cbn [map run_rules existsb]. rewrite (eval_port_rule pkt chain port target (Jump target)) by done.
  destruct (bool_decide (pkt_proto pkt = "tcp")) eqn:Htcp; [|exact IH]. cbn [andb].
  destruct (port_matches port (pkt_dport pkt)); [by rewrite Hj|]. exact IH.
Qed.

Lemma listed_return ports port :
  existsb (λ p, port_matches p port) (if bool_decide (ports = "") then [] else split ports) = listed ports port.
Proof. unfold listed, split. by case_bool_decide. Qed.

Lemma map_if (b : bool) {A B} (f : A → B) l : (if b then [] else map f l) = map f (if b then [] else l).
Proof. by destruct b. Qed.

(** The rules of each chain. *)
Lemma outbound_only_output cfg chain :
  chain_rules (insertOutboundRules cfg) chain = if decide (OutputChain = chain) then insertOutboundRules cfg else [].
Proof.
  unfold insertOutboundRules. destruct (bool_decide (_ = "")); [by case_decide|]. rewrite map_if.
  destruct (bool_decide (_ = "*")); rewrite ?chain_rules_app, chain_rules_ports; unfold chain_rules;
    rewrite ?filter_cons, ?filter_nil; cbn [rule_chain rule_table]; repeat case_decide; naive_solver.
Qed.

(** The part of the inbound rules in [APISIX_INBOUND]. *)
Definition inbound_rules (cfg : iptables_config) : list rule :=
  if bool_decide (InboundPortsInclude cfg = "*") then
    map (port_rule InboundChain "RETURN")
      ("22" :: if bool_decide (InboundPortsExclude cfg = "") then [] else split (InboundPortsExclude cfg)) ++
    [mkRule InboundChain "nat" ["-p"; "tcp"; "-j"; InboundRedirectChain]]
  else map (port_rule InboundChain InboundRedirectChain) (split (InboundPortsInclude cfg)).

Lemma insertInboundRules_eq cfg : InboundPortsInclude cfg ≠ "" →
  insertInboundRules cfg = mkRule PreRoutingChain "nat" ["-p"; "tcp"; "-j"; InboundChain] :: inbound_rules cfg.
Proof.
  intros Hne. unfold insertInboundRules, inbound_rules. rewrite bool_decide_false by done. rewrite map_if.
  by destruct (bool_decide (_ = "*")).
Qed.

Lemma inbound_only_inbound cfg chain :
  chain_rules (inbound_rules cfg) chain = if decide (InboundChain = chain) then inbound_rules cfg else [].
Proof.
  unfold inbound_rules. destruct (bool_decide (_ = "*")); rewrite ?chain_rules_app, chain_rules_ports; unfold chain_rules;
    rewrite ?filter_cons, ?filter_nil; cbn [rule_chain rule_table]; repeat case_decide; naive_solver.
Qed.

Lemma appended_redirect cfg : chain_rules (appended_rules cfg) RedirectChain =
  [mkRule RedirectChain "nat" ["-p"; "tcp"; "-j"; "REDIRECT"; "--to-ports"; ProxyPort cfg]].
Proof.
  unfold appended_rules. rewrite !chain_rules_app, outbound_only_output, decide_False by done. rewrite app_nil_r.
  destruct (decide (InboundPortsInclude cfg = "")) as [He|Hne].
  - unfold insertInboundRules. by rewrite bool_decide_true.
  - rewrite insertInboundRules_eq by done.
    change (?x :: inbound_rules cfg) with ([x] ++ inbound_rules cfg). rewrite chain_rules_app, inbound_only_inbound, decide_False by done.
    reflexivity.
Qed.

Lemma appended_inbound_redirect cfg : chain_rules (appended_rules cfg) InboundRedirectChain =
  [mkRule InboundRedirectChain "nat" ["-p"; "tcp"; "-j"; "REDIRECT"; "--to-ports"; InboundCapturePort cfg]].
Proof.
  unfold appended_rules. rewrite !chain_rules_app, outbound_only_output, decide_False by done. rewrite app_nil_r.
  destruct (decide (InboundPortsInclude cfg = "")) as [He|Hne].
  - unfold insertInboundRules. by rewrite bool_decide_true.
  - rewrite insertInboundRules_eq by done.
    change (?x :: inbound_rules cfg) with ([x] ++ inbound_rules cfg). rewrite chain_rules_app, inbound_only_inbound, decide_False by done.
    reflexivity.
Qed.

Lemma appended_inbound cfg : InboundPortsInclude cfg ≠ "" →
  chain_rules (appended_rules cfg) InboundChain = inbound_rules cfg.
Proof.
  intros Hne. unfold appended_rules. rewrite !chain_rules_app, outbound_only_output, decide_False by done. rewrite app_nil_r.
  rewrite insertInboundRules_eq by done. change (?x :: inbound_rules cfg) with ([x] ++ inbound_rules cfg).
  rewrite chain_rules_app, inbound_only_inbound, decide_True by done. reflexivity.
Qed.

Lemma appended_prerouting cfg : chain_rules (appended_rules cfg) PreRoutingChain =
  if bool_decide (InboundPortsInclude cfg = "") then []
  else [mkRule PreRoutingChain "nat" ["-p"; "tcp"; "-j"; InboundChain]].
Proof.
  unfold appended_rules. rewrite !chain_rules_app, outbound_only_output, decide_False by done. rewrite app_nil_r.
  destruct (decide (InboundPortsInclude cfg = "")) as [He|Hne].
  - unfold insertInboundRules. by rewrite bool_decide_true.
  - rewrite insertInboundRules_eq, bool_decide_false by done. change (?x :: inbound_rules cfg) with ([x] ++ inbound_rules cfg).
    rewrite chain_rules_app, inbound_only_inbound, decide_False by done. reflexivity.
Qed.

Lemma appended_output cfg :
  chain_rules (appended_rules cfg) OutputChain = insertSkipRules cfg ++ insertOutboundRules cfg.
Proof.
  unfold appended_rules. rewrite !chain_rules_app, outbound_only_output, decide_True by done.
  assert (chain_rules (insertInboundRules cfg) OutputChain = []) as ->; [|reflexivity].
  destruct (decide (InboundPortsInclude cfg = "")) as [He|Hne].
  - unfold insertInboundRules. by rewrite bool_decide_true.
  - rewrite insertInboundRules_eq by done. change (?x :: inbound_rules cfg) with ([x] ++ inbound_rules cfg).
    by rewrite chain_rules_app, inbound_only_inbound, decide_False.
Qed.

(** The redirecting chains. *)
Lemma run_redirect fuel cfg pkt : run_chain (S fuel) (appended_rules cfg) pkt RedirectChain =
  if bool_decide (pkt_proto pkt = "tcp") then Redirected (ProxyPort cfg) else Back.
Proof. cbn [run_chain]. rewrite appended_redirect. cbn. by destruct (bool_decide _). Qed.

Lemma run_inbound_redirect fuel cfg pkt : run_chain (S fuel) (appended_rules cfg) pkt InboundRedirectChain =
  if bool_decide (pkt_proto pkt = "tcp") then Redirected (InboundCapturePort cfg) else Back.
Proof. cbn [run_chain]. rewrite appended_inbound_redirect. cbn. by destruct (bool_decide _). Qed.

(** A chain of port rules followed by a jump for every other packet. *)
Lemma run_return_then_jump jump pkt chain ports target port' :
  (∀ ok, eval_args pkt ok ["-j"; target] = Some (ok, Jump target)) →
  jump target = (if bool_decide (pkt_proto pkt = "tcp") then Redirected port' else Back) →
  run_rules jump pkt (map (port_rule chain "RETURN") ports ++ [mkRule chain "nat" ["-p"; "tcp"; "-j"; target]]) =
    if bool_decide (pkt_proto pkt = "tcp") && negb (existsb (λ p, port_matches p (pkt_dport pkt)) ports)
    then Redirected port' else Back.
Proof.
  intros Ht Hj. rewrite run_return_ports. cbn [run_rules rule_args].
  change (eval_args pkt true ["-p"; "tcp"; "-j"; target]) with (eval_args pkt (bool_decide (pkt_proto pkt = "tcp")) ["-j"; target]).
  rewrite Ht. destruct (bool_decide (pkt_proto pkt = "tcp")) eqn:Htcp; [|done]. cbn [andb]. rewrite Hj.
  by destruct (existsb _ ports).
Qed.

(** A chain of rules that jump for the listed ports. *)
Lemma run_jump_listed jump pkt chain ports target port' :
  (∀ ok, eval_args pkt ok ["-j"; target] = Some (ok, Jump target)) →
  jump target = (if bool_decide (pkt_proto pkt = "tcp") then Redirected port' else Back) →
  run_rules jump pkt (map (port_rule chain target) ports) =
    if bool_decide (pkt_proto pkt = "tcp") && existsb (λ p, port_matches p (pkt_dport pkt)) ports
    then Redirected port' else Back.
Proof.
  intros Ht Hj. destruct (bool_decide (pkt_proto pkt = "tcp")) eqn:Htcp.
  - by rewrite (run_jump_ports jump pkt chain target ports port'), Htcp.
  - cbn [andb]. induction ports as [|port ports IH]; [done|]. cbn [map run_rules].
    rewrite (eval_port_rule pkt chain port target (Jump target)) by done. by rewrite Htcp.
Qed.

(** The chain of the inbound packets. *)
Lemma run_inbound fuel cfg pkt : InboundPortsInclude cfg ≠ "" →
  run_chain (S (S fuel)) (appended_rules cfg) pkt InboundChain =
    if inbound_captured cfg pkt then Redirected (InboundCapturePort cfg) else Back.
Proof.
  intros Hne. remember (S fuel) as fuel1 eqn:Hfuel. cbn [run_chain]. rewrite appended_inbound by done.
  assert (run_chain fuel1 (appended_rules cfg) pkt InboundRedirectChain =
    if bool_decide (pkt_proto pkt = "tcp") then Redirected (InboundCapturePort cfg) else Back) as Hj.
  { subst fuel1. apply run_inbound_redirect. }
  unfold inbound_rules, inbound_captured. destruct (bool_decide (InboundPortsInclude cfg = "*")).
  - rewrite (run_return_then_jump _ pkt InboundChain _ InboundRedirectChain (InboundCapturePort cfg)) by done.
    cbn [existsb]. by rewrite listed_return, negb_orb.
  - by rewrite (run_jump_listed _ pkt InboundChain _ InboundRedirectChain (InboundCapturePort cfg)).
Qed.

(** The rules that let the packets of the proxy pass. *)
Lemma run_skip jump cfg pkt rest :
  run_rules jump pkt (insertSkipRules cfg ++ rest) = if skipped cfg pkt then Back else run_rules jump pkt rest.
Proof.
  unfold insertSkipRules, skipped. cbn [app run_rules rule_args].
  change (eval_args pkt true ["-o"; "lo"; "!"; "-d"; "127.0.0.1/32"; "-m"; "owner"; "--uid-owner"; ProxyUID cfg; "-j"; "RETURN"])
    with (Some (bool_decide (pkt_out pkt = "lo") && negb (dst_matches "127.0.0.1/32" pkt) && bool_decide (pkt_uid pkt = ProxyUID cfg), ReturnTo)).
  change (eval_args pkt true ["-d"; "127.0.0.1/32"; "-j"; "RETURN"]) with (Some (dst_matches "127.0.0.1/32" pkt, ReturnTo)).
  change (eval_args pkt true ["-m"; "owner"; "--gid-owner"; ProxyGID cfg; "-j"; "RETURN"])
    with (Some (bool_decide (pkt_gid pkt = ProxyGID cfg), ReturnTo)).
  by destruct (_ && _ && _), (dst_matches _ pkt), (bool_decide (pkt_gid pkt = _)).
Qed.

Lemma run_outbound jump cfg pkt :
  jump RedirectChain = (if bool_decide (pkt_proto pkt = "tcp") then Redirected (ProxyPort cfg) else Back) →
  run_rules jump pkt (insertOutboundRules cfg) =
    if bool_decide (pkt_proto pkt = "tcp") &&
       (if bool_decide (OutboundPortsInclude cfg = "*") then negb (listed (OutboundPortsExclude cfg) (pkt_dport pkt))
        else listed (OutboundPortsInclude cfg) (pkt_dport pkt))
    then Redirected (ProxyPort cfg) else Back.
Proof.
  intros Hj. unfold insertOutboundRules.
  destruct (decide (OutboundPortsInclude cfg = "")) as [He|Hne].
  - rewrite He. cbn. by rewrite andb_false_r.
  - rewrite bool_decide_false by done. destruct (bool_decide (OutboundPortsInclude cfg = "*")).
    + rewrite map_if, (run_return_then_jump _ pkt OutputChain _ RedirectChain (ProxyPort cfg)) by done.
      by rewrite listed_return.
    + by rewrite (run_jump_listed _ pkt OutputChain _ RedirectChain (ProxyPort cfg)).
Qed.

(** ** Properties *)

(** C24. Which packets the generated rules intercept, for every configuration
    and packet: an inbound packet is redirected, to the inbound capture port,
    exactly when it is TCP and its port is listed, or, under the wildcard, is
    neither SSH nor excluded; an outbound packet is redirected, to the proxy
    port, exactly when it is TCP, is not one of the proxy itself or to the
    loopback address, and its port is listed, or not excluded under the
    wildcard.  Three levels of chains are enough. *)
Theorem interception_spec cfg pkt fuel :
  run_chain (S (S (S fuel))) (appended_rules cfg) pkt PreRoutingChain =
    (if inbound_captured cfg pkt then Redirected (InboundCapturePort cfg) else Back) ∧
  run_chain (S (S fuel)) (appended_rules cfg) pkt OutputChain =
    (if outbound_captured cfg pkt then Redirected (ProxyPort cfg) else Back).
Proof.
  split.
  - remember (S (S fuel)) as fuel2 eqn:Hfuel. cbn [run_chain]. rewrite appended_prerouting.
    destruct (decide (InboundPortsInclude cfg = "")) as [He|Hne].
    + rewrite bool_decide_true by done. cbn [run_rules]. unfold inbound_captured. rewrite He. cbn.
      by rewrite andb_false_r.
    + rewrite bool_decide_false by done. cbn [run_rules rule_args].
      change (eval_args pkt true ["-p"; "tcp"; "-j"; InboundChain])
        with (Some (bool_decide (pkt_proto pkt = "tcp"), Jump InboundChain)). subst fuel2.
      rewrite run_inbound by done. destruct (bool_decide (pkt_proto pkt = "tcp")) eqn:Htcp.
      * by destruct (inbound_captured cfg pkt).
      * unfold inbound_captured. by rewrite Htcp.
  - remember (S fuel) as fuel1 eqn:Hfuel. cbn [run_chain]. rewrite appended_output, run_skip.
    rewrite run_outbound by (subst fuel1; apply run_redirect).
    unfold outbound_captured. by destruct (skipped cfg pkt).
Qed.
End Netfilter.

Lemma executeCommand_total commands : Forall (λ cmd, cmd ≠ []) commands →
  executeCommand commands = Ret ((λ cmd, (hd "" cmd, tail cmd)) <$> commands).
Proof.
  induction 1 as [|cmd commands Hne _ IH]; [done|]. cbn. destruct cmd; [done|]. by rewrite IH.
Qed.

(** ** An example: everything but SSH and the proxy's own port *)

Definition decimal_port (p : string) (port : Z) : bool := bool_decide (p = itoa port).

Definition capture_all : iptables_config :=
  mkIptablesConfig "9080" "9081" "*" "9080,,9081" "80" "" "65534" "65534".

Example intercepts :
  (λ port, run_chain decimal_port (λ _ _, false) 3 (appended_rules capture_all)
     (mkPacket "tcp" port "eth0" "0" "0") PreRoutingChain) <$> [80; 22; 9080; 8080] =
  [Redirected "9081"; Back; Back; Redirected "9081"].
Proof. reflexivity. Qed.
