(* ===== verification/HttpHandlers.v ===== *)
(** * The HTTP servers of the agent (src/pkg/amesh/agent.go, Agent.Run)

    The status server shows the provisioner's state and requests secrets; the
    metrics server merges the agent's own metrics with those of APISIX.  The
    routing of [http.ServeMux] is Go's; the Prometheus handler and the gzip
    format are parameters. *)

From S2P Require Import Prelude GoStrings Agent Xds Provisioner.
Local Open Scope Z_scope.

Record reply := mkReply { Reply_code : Z; Reply_body : string }.

(** ** The status server *)

Section Status.
Context `{GoRange} `{XdsLib}.

Definition StatusMovedPermanently : Z := 301.
Definition StatusNotFound : Z := 404.

(** The patterns that [Run] registers. *)
Inductive status_route : Type :=
| DataRoute (dataType : string)
| SdsRoute.

Definition status_patterns : list (string * status_route) := [
  ("/status", DataRoute "status"); ("/routes", DataRoute "routes"); ("/upstreams", DataRoute "upstreams");
  ("/plugins", DataRoute "plugins"); ("/sds/", SdsRoute)].

(** [http.ServeMux] on a clean path: a pattern that ends in a slash stands for
    the paths below it, and the path without the slash is redirected to it. *)
Definition pattern_matches (pattern path : string) : bool :=
  bool_decide (pattern = path) || (bool_decide (pattern = "/sds/") && HasPrefix path pattern).

Definition mux_handler (path : string) : option status_route :=
  snd <$> head (filter (λ p, pattern_matches p.1 path = true) status_patterns).

(** A request to the status server: the reply and the discovery request that
    was sent. *)
Definition status_server (p : xdsProvisioner) (path : string) : outcome (reply * option DiscoveryRequest) :=
  match mux_handler path with
  | Some (DataRoute dataType) =>
      data ← GetData p dataType;
      let '(code, body) := internalDataHandler (λ _, data) dataType in
      Ret (mkReply code body, None)
  | Some SdsRoute =>
      let '(name, body) := sds_handler path in
      Ret (mkReply StatusOK body, SendSds p <$> name)
  | None =>
      if bool_decide (path = "/sds") then Ret (mkReply StatusMovedPermanently "", None)
      else Ret (mkReply StatusNotFound "404 page not found", None)
  end.
End Status.

(** ** The metrics server *)

Section Metrics.
Context (promhttp : header → string).     (** the bytes that the Prometheus handler writes *)
Context (gzip : string → string).         (** what a gzip writer writes for some data *)
Context (newRequest : string → header + error).
Context (do : string → header → (Z * (string + error)) + error).

(** The body of a reply of the metrics server. *)
Definition metrics_handler (url : string) (hdr : header) : string :=
  let own := promhttp hdr in
  match getMetrics newRequest do url hdr with
  | inr _ => own
  | inl apisixMetrics => own +:+ (if isGzipEncoding hdr then gzip apisixMetrics else apisixMetrics)
  end.
End Metrics.

(** ** Lemmas *)

(** Which patterns a clean path matches. *)
Lemma mux_handler_data dataType :
  dataType ∈ ["status"; "routes"; "upstreams"; "plugins"] → mux_handler ("/" +:+ dataType) = Some (DataRoute dataType).
Proof. rewrite !elem_of_cons. by intros [->|[->|[->|[->|?%elem_of_nil]]]]. Qed.

Lemma mux_handler_sds name : mux_handler ("/sds/" +:+ name) = Some SdsRoute.
Proof. by destruct name. Qed.

(** ** Properties *)

(** The status server: a data path is answered with the provisioner's document,
    a secret is requested exactly when its path names one, and any other path
    is not found. *)
Lemma status_server_spec `{GoRange} `{XdsLib} p :
  (∀ dataType data, dataType ∈ ["status"; "routes"; "upstreams"; "plugins"] → GetData p dataType = Ret (inl data) →
     status_server p ("/" +:+ dataType) = Ret (mkReply StatusOK data, None)) ∧
  (∀ name, status_server p ("/sds/" +:+ name) =
     Ret (mkReply StatusOK ("Sending SDS: " +:+ name), if bool_decide (name = "") then None else Some (SendSds p name))) ∧
  (∀ path, mux_handler path = None → path ≠ "/sds" → ∃ body, status_server p path = Ret (mkReply StatusNotFound body, None)).
Proof.
  split_and!.
  - intros dataType data Hd Hdata. unfold status_server. rewrite mux_handler_data by done. by rewrite Hdata.
  - intros name. unfold status_server. rewrite mux_handler_sds. unfold sds_handler.
    assert (TrimPrefix ("/sds/" +:+ name) "/sds/" = name) as -> by (by destruct name).
    by case_bool_decide.
  - intros path Hm Hne. unfold status_server. rewrite Hm, bool_decide_false by done. by eexists.
Qed.

(** ** Which clients accept gzip *)

Definition blank (text : string) : Prop := Forall (λ c, N_of_ascii c ∈ [9; 10; 11; 12; 13; 32]%N) (String.list_ascii_of_string text).

(** An element of the comma-separated header begins with "gzip", perhaps after
    white space; parameters and quality values after it do not matter. *)
Definition accepts_gzip (encoding : string) : Prop :=
  ∃ before blanks rest, encoding = before +:+ blanks +:+ "gzip" +:+ rest ∧
    (before = "" ∨ ∃ elements, before = elements +:+ ",") ∧ blank blanks.

Lemma is_space_byte_blank c : is_space_byte c = true ↔ N_of_ascii c ∈ [9; 10; 11; 12; 13; 32]%N.
Proof.
  unfold is_space_byte. rewrite orb_true_iff, andb_true_iff, N.eqb_eq, !N.leb_le, !elem_of_cons, elem_of_nil. lia.
Qed.

(** The pieces after the first begin after a separator. *)
Lemma elem_of_tail_Split s sep w :
  w ∈ tail (Split s sep) ↔ ∃ b r, s = b +:+ String sep r ∧ w = before_byte r sep.
Proof.
  induction s as [|c s IH]; cbn [Split].
  - split; [by intros ?%elem_of_nil|]. by intros ([|] & r & Heq & _).
  - pose proof (Split_hd s sep) as Hhd. destruct (Split s sep) as [|w' ws]; [done|]. injection Hhd as ->.
    assert (w ∈ ws ↔ ∃ b r, s = b +:+ String sep r ∧ w = before_byte r sep) as IH' by exact IH.
    destruct (Ascii.eqb_spec c sep) as [->|Hc]; cbn [tail].
    + rewrite elem_of_cons, IH'. split.
      * intros [->|(b & r & -> & ->)]; [by exists "", s|by exists (String sep b), r].
      * intros ([|d b] & r & Heq & ->); [injection Heq as ->; by left|injection Heq as -> ->; right; eauto].
    + rewrite IH'. split.
      * intros (b & r & -> & ->). by exists (String c b), r.
      * intros ([|d b] & r & Heq & ->); injection Heq as -> ->; [done|eauto].
Qed.

(** A prefix is found before any byte that it does not contain. *)
Lemma HasPrefix_before_byte sep p : Forall (λ c, c ≠ sep) (String.list_ascii_of_string p) → ∀ s,
  HasPrefix (before_byte s sep) p = HasPrefix s p.
Proof.
  induction p as [|c p IH]; intros Hp s; [by destruct (before_byte s sep), s|].
  apply Forall_cons in Hp as [Hc Hp]. destruct s as [|d s]; [done|]. cbn.
  destruct (Ascii.eqb_spec d sep) as [->|Hd]; cbn; [by destruct (Ascii.eqb_spec c sep)|]. by rewrite IH.
Qed.

Lemma trim_left_before_byte s : trim_left (before_byte s ",") = before_byte (trim_left s) ",".
Proof.
  induction s as [|c s IH]; [done|]. cbn. destruct (Ascii.eqb_spec c ",") as [->|Hc].
  - done.
  - cbn. destruct (is_space_byte c); [done|]. cbn. by destruct (Ascii.eqb_spec c ",").
Qed.

(** Nor does trimming at the end hide a prefix without white space. *)
Lemma rev_app_append s t u : String.rev_app s (t +:+ u) = String.rev_app s t +:+ u.
Proof. revert t. induction s as [|c s IH]; intros t; [done|]. cbn. rewrite <- append_cons. apply IH. Qed.

Lemma rev_append s t : String.rev (s +:+ t) = String.rev t +:+ String.rev s.
Proof.
  unfold String.rev. assert (∀ u, String.rev_app (s +:+ t) u = String.rev_app t "" +:+ String.rev_app s u) as H.
  { induction s as [|c s IH]; intros u; [by rewrite <- rev_app_append|]. apply IH. }
  apply H.
Qed.

Lemma rev_involutive s : String.rev (String.rev s) = s.
Proof.
  induction s as [|c s IH]; [done|]. change (String c s) with (String c "" +:+ s).
  rewrite rev_append, rev_append, IH. done.
Qed.

Lemma trim_left_split s : ∃ blanks, s = blanks +:+ trim_left s ∧ blank blanks.
Proof.
  induction s as [|c s (blanks & Hs & Hb)]; [exists ""; by split; [|constructor]|]. cbn. destruct (is_space_byte c) eqn:Hc.
  - exists (String c blanks). rewrite append_cons, <- Hs. split; [done|]. constructor; [by apply is_space_byte_blank|done].
  - exists "". by split; [|constructor].
Qed.

Lemma list_ascii_append s t :
  String.list_ascii_of_string (s +:+ t) = String.list_ascii_of_string s ++ String.list_ascii_of_string t.
Proof. induction s as [|c s IH]; [done|]. cbn. by rewrite <- IH. Qed.

Lemma list_ascii_rev s : String.list_ascii_of_string (String.rev s) = reverse (String.list_ascii_of_string s).
Proof.
  induction s as [|c s IH]; [done|]. change (String c s) with (String c "" +:+ s).
  rewrite rev_append, !list_ascii_append, IH, reverse_app. done.
Qed.

Lemma HasPrefix_blank_end p : Forall (λ c, is_space_byte c = false) (String.list_ascii_of_string p) → ∀ s blanks,
  blank blanks → HasPrefix (s +:+ blanks) p = HasPrefix s p.
Proof.
  intros Hp s blanks Hb. revert s Hp. induction p as [|c p IH]; intros s Hp; [by destruct s, blanks|].
  apply Forall_cons in Hp as [Hc Hp]. destruct s as [|d s].
  - change (HasPrefix blanks (String c p) = false). destruct blanks as [|d blanks]; [done|].
    apply Forall_cons in Hb as [Hd _]. cbn. destruct (Ascii.eqb_spec c d) as [->|]; [|done].
    apply is_space_byte_blank in Hd. congruence.
  - rewrite append_cons. cbn. by rewrite IH.
Qed.

Lemma HasPrefix_TrimSpace s p : Forall (λ c, is_space_byte c = false) (String.list_ascii_of_string p) →
  HasPrefix (TrimSpace s) p = HasPrefix (trim_left s) p.
Proof.
  intros Hp. unfold TrimSpace. destruct (trim_left_split (String.rev (trim_left s))) as (blanks & Hs & Hb).
  assert (trim_left s = String.rev (trim_left (String.rev (trim_left s))) +:+ String.rev blanks) as Heq.
  { by rewrite <- rev_append, <- Hs, rev_involutive. }
  rewrite Heq at 2. rewrite HasPrefix_blank_end; [done..|]. unfold blank. by rewrite list_ascii_rev, Forall_reverse.
Qed.

Lemma HasPrefix_trim_left s :
  HasPrefix (trim_left s) "gzip" = true ↔ ∃ blanks rest, s = blanks +:+ "gzip" +:+ rest ∧ blank blanks.
Proof.
  rewrite HasPrefix_spec. split.
  - intros [rest Hr]. destruct (trim_left_split s) as (blanks & Hs & Hb). rewrite Hr in Hs. eauto.
  - intros (blanks & rest & -> & Hb). exists rest. induction blanks as [|c blanks IH]; [done|].
    apply Forall_cons in Hb as [Hc Hb]. rewrite append_cons. cbn. apply is_space_byte_blank in Hc. rewrite Hc. by apply IH.
Qed.

Lemma isGzipEncoding_spec hdr : isGzipEncoding hdr = true ↔ accepts_gzip (header_Get hdr "Accept-Encoding").
Proof.
  unfold isGzipEncoding. set (s := header_Get hdr "Accept-Encoding"). rewrite existsb_exists.
  assert (∀ r, HasPrefix (TrimSpace (before_byte r ",")) "gzip" = true ↔
    ∃ blanks rest, r = blanks +:+ "gzip" +:+ rest ∧ blank blanks) as Hpiece.
  { intros r. rewrite HasPrefix_TrimSpace, trim_left_before_byte, HasPrefix_before_byte; [apply HasPrefix_trim_left|..];
      by repeat constructor. }
  pose proof (Split_hd s ",") as Hhd. pose proof (elem_of_tail_Split s ",") as Htl.
  destruct (Split s ",") as [|w ws]; [done|]. injection Hhd as ->. cbn [tail] in Htl. split.
  - intros (w & [<-|Hw] & Hpre).
    + apply Hpiece in Hpre as (blanks & rest & Heq & Hb). exists "", blanks, rest. auto.
    + apply list_elem_of_In, Htl in Hw as (b & r & Hs & ->). apply Hpiece in Hpre as (blanks & rest & -> & Hb).
      exists (b +:+ ","), blanks, rest. split; [|split; [eauto|done]]. rewrite Hs. by rewrite <- !append_assoc.
  - intros (before & blanks & rest & Hs & [->|[elements ->]] & Hb).
    + exists (before_byte s ","). split; [by left|]. apply Hpiece. eauto.
    + set (r := blanks +:+ "gzip" +:+ rest). exists (before_byte r ","). split; [|apply Hpiece; by exists blanks, rest].
      right. apply list_elem_of_In, Htl. exists elements, r. split; [|done]. rewrite Hs. by rewrite <- append_assoc.
Qed.

(** The request that APISIX gets has these headers of the client and no others. *)
Definition scrape_headers : list string := ["Accept"; "Accept-Encoding"; "User-Agent"; "X-Prometheus-Scrape-Timeout-Seconds"].

Definition scrape_request (client request : header) : Prop :=
  ∀ key, header_Get request key = if decide (key ∈ scrape_headers) then header_Get client key else "".

Lemma getMetrics_request hdr : scrape_request hdr (applyHeaders ∅ hdr forwarded_headers).
Proof.
  intros key. rewrite applyHeaders_spec.
  assert (header_Get ∅ key = "") as -> by (unfold header_Get; by rewrite lookup_empty).
  destruct (decide (key ∈ forwarded_headers ∧ _)) as [[Hin _]|Hd]; [by rewrite decide_True|].
  destruct (decide (key ∈ scrape_headers)) as [Hin|]; [|done].
  destruct (decide (header_Get hdr key = "")) as [->|Hne]; [done|]. by destruct Hd.
Qed.

(** C33. A scrape of the metrics server, for any Accept-Encoding.  The reply is
    the agent's own metrics followed by the body with which APISIX answers a
    request that carries the client's Accept, Accept-Encoding, User-Agent and
    scrape timeout and no other header; the body is compressed exactly if an
    element of the client's Accept-Encoding begins with "gzip".  Since the
    client's Accept-Encoding is passed on, that body may be compressed already:
    when both servers compress, the client gets, after decompression, its own
    metrics followed by bytes that are still compressed.  When the request
    cannot be made or APISIX does not answer it with status 200 and a body, the
    agent's metrics are served alone. *)
Theorem metrics_scrape promhttp gzip gunzip do url hdr body :
  (∀ a b, gunzip (gzip a +:+ gzip b) = Some (a +:+ b)) →
  (∀ request, scrape_request hdr request → do url request = inl (StatusOK, inl body)) →
  let scrape := metrics_handler promhttp gzip (λ _, inl ∅) do url hdr in
  (accepts_gzip (header_Get hdr "Accept-Encoding") → scrape = promhttp hdr +:+ gzip body) ∧
  (¬ accepts_gzip (header_Get hdr "Accept-Encoding") → scrape = promhttp hdr +:+ body) ∧
  (accepts_gzip (header_Get hdr "Accept-Encoding") →
   ∀ own apisix, promhttp hdr = gzip own → body = gzip apisix → gunzip scrape = Some (own +:+ gzip apisix)) ∧
  (∀ newRequest do',
     (∃ err, newRequest url = inr err) ∨ (∀ request data, do' url request ≠ inl (StatusOK, inl data)) →
     metrics_handler promhttp gzip newRequest do' url hdr = promhttp hdr).
Proof.
  intros Hgz Hdo scrape.
  assert (scrape = promhttp hdr +:+ (if isGzipEncoding hdr then gzip body else body)) as Hscrape.
  { unfold scrape, metrics_handler, getMetrics. by rewrite (Hdo _ (getMetrics_request hdr)). }
  pose proof (isGzipEncoding_spec hdr) as Hspec. split_and!.
  - intros Hacc%Hspec. by rewrite Hscrape, Hacc.
  - intros Hacc. rewrite Hscrape. by destruct (isGzipEncoding hdr); [destruct Hacc; apply Hspec|].
  - intros Hacc%Hspec own apisix Hown Hbody. by rewrite Hscrape, Hacc, Hown, Hgz, Hbody.
  - intros newRequest do' [[err Herr]|Hfail]; unfold metrics_handler, getMetrics; [by rewrite Herr|].
    destruct (newRequest url) as [h|err]; [|done].
    specialize (Hfail (applyHeaders h hdr forwarded_headers)). destruct (do' url _) as [[code data]|err]; [|done].
    destruct (Z.eqb_spec code StatusOK) as [->|]; [|done]. destruct data as [data|err]; [by destruct (Hfail data)|done].
Qed.

(** ** Witness *)

(** A compression whose parts can be told apart: every byte is doubled. *)
Fixpoint doubled (s : string) : string :=
  match s with EmptyString => "" | String c s => String c (String c (doubled s)) end.

Fixpoint undoubled (s : string) : option string :=
  match s with
  | EmptyString => Some ""
  | String c (String d s) => if Ascii.eqb c d then String c <$> undoubled s else None
  | _ => None
  end.

Lemma undoubled_app a b : undoubled (doubled a +:+ doubled b) = Some (a +:+ b).
Proof.
  assert (∀ s, undoubled (doubled s) = Some s) as Hinv.
  { induction s as [|c s IH]; [done|]. cbn [doubled undoubled]. by rewrite Ascii.eqb_refl, IH. }
  induction a as [|c a IH]; [apply Hinv|]. cbn [doubled]. rewrite !append_cons. cbn [undoubled].
  by rewrite Ascii.eqb_refl, IH.
Qed.

(** A scraper, whose Accept-Encoding is a list, and an APISIX that compresses
    what it sends to it. *)
Definition scraper : header :=
  <["Accept-Encoding" := ["br, gzip;q=0.5"]]> {["User-Agent" := ["Prometheus/2.40"]]}.

Definition compressing_apisix (url : string) (request : header) : (Z * (string + error)) + error :=
  let data := "up{agent=" +:+ header_Get request "User-Agent" +:+ "} 1" in
  inl (StatusOK, inl (if bool_decide (header_Get request "Accept-Encoding" = "br, gzip;q=0.5") then doubled data else data)).

Lemma metrics_scrape_witness :
  let own hdr := doubled "own " in
  let scrape := metrics_handler own doubled (λ _, inl ∅) compressing_apisix "http://localhost:9091/stats/prometheus" scraper in
  undoubled scrape = Some ("own " +:+ doubled "up{agent=Prometheus/2.40} 1").
Proof.
  apply (metrics_scrape (λ _, doubled "own ") doubled undoubled compressing_apisix "http://localhost:9091/stats/prometheus"
    scraper (doubled "up{agent=Prometheus/2.40} 1")).
  - apply undoubled_app.
  - intros request Hrequest. unfold compressing_apisix. rewrite !Hrequest. reflexivity.
  - exists "br,", " ", ";q=0.5". split; [reflexivity|]. split; [right; exists "br"; reflexivity|].
    repeat constructor.
  - reflexivity.
  - reflexivity.
Defined.
