(* ===== verification/Shutdown.v ===== *)
(** * The life of the agent (src/pkg/amesh/agent.go, Agent.Run)

    [Run] starts the provisioner and a goroutine for each of two HTTP servers,
    handles batches of events until it is told to stop, and then shuts the
    servers down.  The goroutines are interleaved with those that send the
    batches (src/pkg/amesh/provisioner/xds.go).  The servers are Go's
    [http.Server]: [ListenAndServe] returns with an error in any case, and at
    once when [Shutdown] is called.  What the logger's [Fatalw] does after it
    has logged is a parameter; a panic ends the process with status 2.  When
    [Run] has returned, the command of src/cmd/standalone/main.go returns too,
    which ends the process with status 0, whatever the goroutines still do; in
    the shared library of src/cmd/dynamic/main.go, where [Run] is a goroutine of
    its own, its return ends nothing. *)

From stdpp Require Import relations.
From S2P Require Import Prelude GoStrings GoNum Json Apisix Compare Manifest Storage.
From S2P Require Import Agent.
Local Open Scope Z_scope.

Section Shutdown.
Context {S : Type} `{StorageLaws S}.

(** [Fatalw] ends the process with status 1. *)
Context (fatal_exits : bool).

(** The command returns when [Run] does. *)
Context (command_exits : bool).

(** ** State *)

(** A server's goroutine.  The variable that [Run] shuts down is set from
    [ServerListening] on. *)
Inductive server_state : Type :=
| ServerOff                       (** the goroutine returned before there was a server *)
| ServerParseFailed               (** about to call [Fatalw] on a port that does not parse *)
| ServerStarting (port : Z)       (** before the assignment of the variable *)
| ServerListening (port : Z)      (** in [ListenAndServe] *)
| ServerReturned                  (** about to call [Fatalw] on the error of [ListenAndServe] *)
| ServerDone.

Inductive main_state : Type := MainLoop | ShutStatus | ShutMetrics | MainReturned.

Record life := mkLife {
  L_agent : Agent S;
  L_main : main_state;
  L_status : server_state;
  L_metrics : server_state;
  L_senders : list (list Event);  (** goroutines blocked in [p.evChan <- events] *)
  L_closed : bool;                (** the provisioner has returned and closed [evChan] *)
  L_stop : bool;                  (** the stop channel is closed *)
  L_exit : option Z               (** the process has exited *)
}.

(** The start of a server's goroutine, on the port of its variables. *)
Definition server_start (port : server_port) : server_state :=
  match port with
  | NotStarted => ServerOff
  | FatalPort => ServerParseFailed
  | Listen port => ServerStarting port
  end.

Definition life_start (env : environment) (g : Agent S) : life :=
  mkLife g MainLoop (server_start (status_server_port fatal_exits env))
    (server_start (metrics_server_port fatal_exits env)) [] false false None.

(** One step of a server's goroutine: its new state, and whether it calls
    [Fatalw].  A server that listens returns by itself when it fails. *)
Inductive server_step : server_state → server_state → bool → Prop :=
| ParseFatal : server_step ServerParseFailed ServerDone true
| Assign port : server_step (ServerStarting port) (ServerListening port) false
| ListenFails port : server_step (ServerListening port) ServerReturned false
| ReturnFatal : server_step ServerReturned ServerDone true.

(** [Shutdown], if there is a server. *)
Definition shut (s : server_state) : server_state :=
  match s with ServerListening _ => ServerReturned | _ => s end.

Definition fatal (called : bool) : option Z := if called && fatal_exits then Some 1 else None.

(** A send on a closed channel panics, also when it was blocked before. *)
Definition sending (closed : bool) (senders : list (list Event)) : option Z :=
  if closed && negb (empty_list senders) then Some 2 else None.

(** The label is the batch that a goroutine sends.  The provisioner's [Run]
    returns only when it is told to stop.  The main loop takes the first of the
    blocked senders; when it can choose between the stop signal and the channel,
    either is taken.  The [Shutdown] of a server may [failed], which is fatal
    too.  After [Run] the command exits; until then the goroutines go on. *)
Inductive life_step : option (list Event) → life → life → Prop :=
| StatusStep g m s s' x q closed stop called :
    server_step s s' called →
    life_step None (mkLife g m s x q closed stop None) (mkLife g m s' x q closed stop (fatal called))
| MetricsStep g m s x x' q closed stop called :
    server_step x x' called →
    life_step None (mkLife g m s x q closed stop None) (mkLife g m s x' q closed stop (fatal called))
| StopArrives g m s x q closed : life_step None (mkLife g m s x q closed false None) (mkLife g m s x q closed true None)
| BatchSent g m s x q closed stop events :
    life_step (Some events) (mkLife g m s x q closed stop None)
      (mkLife g m s x (q ++ [events]) closed stop (sending closed (q ++ [events])))
| ProvisionerEnds g m s x q : life_step None (mkLife g m s x q false true None) (mkLife g m s x q true true (sending true q))
| LoopEvents g s x q closed stop now events g' :
    event_step (g, true) (EventsReceived now events) = (g', true) →
    life_step None (mkLife g MainLoop s x (events :: q) closed stop None) (mkLife g' MainLoop s x q closed stop None)
| LoopClosed g s x stop :
    life_step None (mkLife g MainLoop s x [] true stop None) (mkLife g MainReturned s x [] true stop None)
| LoopStop g s x q closed :
    life_step None (mkLife g MainLoop s x q closed true None) (mkLife g ShutStatus s x q closed true None)
| StopStatus g s x q closed stop failed :
    (failed = true → ∃ port, s = ServerListening port) →
    life_step None (mkLife g ShutStatus s x q closed stop None) (mkLife g ShutMetrics (shut s) x q closed stop (fatal failed))
| StopMetrics g s x q closed stop failed :
    (failed = true → ∃ port, x = ServerListening port) →
    life_step None (mkLife g ShutMetrics s x q closed stop None) (mkLife g MainReturned s (shut x) q closed stop (fatal failed))
| MainExits g s x q closed stop :
    command_exits = true →
    life_step None (mkLife g MainReturned s x q closed stop None) (mkLife g MainReturned s x q closed stop (Some 0)).

Definition life_moves (st st' : life) : Prop := ∃ sent, life_step sent st st'.

(** A run, with the batches that were sent in it. *)
Inductive life_run : life → list (list Event) → life → Prop :=
| RunNil st : life_run st [] st
| RunStep st1 sent st2 batches st3 :
    life_step sent st1 st2 → life_run st2 batches st3 → life_run st1 (option_list sent ++ batches) st3.

(** ** Ranking of the shutdown *)

Definition listening (s : server_state) : Prop := ∃ port, s = ServerListening port.

Definition server_rank (s : server_state) : nat :=
  match s with
  | ServerOff | ServerDone => 0
  | ServerReturned | ServerParseFailed => 1
  | ServerListening _ => 2
  | ServerStarting _ => 3
  end.

Definition main_rank (m : main_state) : nat :=
  match m with MainLoop => 3 | ShutStatus => 2 | ShutMetrics => 1 | MainReturned => 0 end.

Definition exit_rank (exit : option Z) : nat := match exit with None => 1 | Some _ => 0 end.

Definition life_rank (st : life) : nat :=
  exit_rank (L_exit st) + main_rank (L_main st) + server_rank (L_status st) + server_rank (L_metrics st).

Lemma server_step_rank s s' called : server_step s s' called → (server_rank s' < server_rank s)%nat.
Proof. destruct 1; cbn; lia. Qed.

Lemma shut_rank s : (server_rank (shut s) ≤ server_rank s)%nat.
Proof. destruct s; cbn; lia. Qed.

(** Somebody is about to call [Fatalw], or will be after the shutdown. *)
Definition doomed (st : life) : Prop :=
  L_status st = ServerReturned ∨ L_metrics st = ServerReturned ∨
  L_main st = ShutStatus ∧ listening (L_status st) ∨
  (L_main st = ShutStatus ∨ L_main st = ShutMetrics) ∧ listening (L_metrics st).

(** What holds from the moment the stop is noticed. *)
Definition going_down (g : Agent S) (st : life) : Prop :=
  L_main st ≠ MainLoop ∧ L_agent st = g ∧ (L_exit st = None → doomed st).

Lemma exit_rank_le exit : (exit_rank exit ≤ 1)%nat.
Proof. destruct exit; cbn; lia. Qed.

(** A server's step keeps what is about to happen, unless it happens. *)
Lemma server_step_doomed s s' called (P : Prop) :
  fatal_exits = true → server_step s s' called → fatal called = None →
  s = ServerReturned ∨ P ∧ listening s → s' = ServerReturned ∨ P ∧ listening s'.
Proof.
  intros Hf Hs Hcalled [->|[HP [port ->]]].
  - inversion Hs; subst. unfold fatal in Hcalled. by rewrite Hf in Hcalled.
  - inversion Hs; subst. by left.
Qed.

Lemma shut_doomed s (P : Prop) : s = ServerReturned ∨ P ∧ listening s → shut s = ServerReturned.
Proof. by intros [->|[_ [port ->]]]. Qed.

Lemma going_down_step g st st' :
  fatal_exits = true → life_moves st st' → going_down g st → going_down g st' ∧ (life_rank st' ≤ life_rank st)%nat.
Proof.
  intros Hf [sent Hstep] (Hm & Hg & Hd).
  destruct Hstep as [g0 m s s' x q closed stop called Hs|g0 m s x x' q closed stop called Hs|g0 m s x q closed
    |g0 m s x q closed stop evs|g0 m s x q|g0 s x q closed stop now evs g' He|g0 s x stop|g0 s x q closed
    |g0 s x q closed stop failed Hfail|g0 s x q closed stop failed Hfail|g0 s x q closed stop Hc];
    cbn in Hm, Hg, Hd; try done; specialize (Hd eq_refl); unfold going_down, life_rank, doomed in *;
    cbn [L_agent L_main L_status L_metrics L_exit main_rank exit_rank] in *.
  - pose proof (server_step_rank _ _ _ Hs). pose proof (exit_rank_le (fatal called)). split; [|lia]. split_and!; [done..|].
    intros Hnone.
    destruct Hd as [Hd|[Hd|[Hd|Hd]]]; [|tauto| |tauto].
    + destruct (server_step_doomed s s' called False Hf Hs Hnone); tauto.
    + destruct (server_step_doomed s s' called (m = ShutStatus) Hf Hs Hnone); tauto.
  - pose proof (server_step_rank _ _ _ Hs). pose proof (exit_rank_le (fatal called)). split; [|lia]. split_and!; [done..|].
    intros Hnone.
    destruct Hd as [Hd|[Hd|[Hd|Hd]]]; [tauto| |tauto|].
    + destruct (server_step_doomed x x' called False Hf Hs Hnone); tauto.
    + destruct (server_step_doomed x x' called (m = ShutStatus ∨ m = ShutMetrics) Hf Hs Hnone); tauto.
  - pose proof (exit_rank_le (sending closed (q ++ [evs]))). split; [|lia]. by split_and!.
  - pose proof (exit_rank_le (sending true q)). split; [|lia]. by split_and!.
  - pose proof (shut_rank s). pose proof (exit_rank_le (fatal failed)). split; [|lia]. split_and!; [done..|]. intros _.
    destruct Hd as [->|[->|[[_ Hl]|[_ Hl]]]]; [by left|by right; left| |by right; right; right; split; [right|]].
    left. by apply (shut_doomed s True); right.
  - pose proof (shut_rank x). pose proof (exit_rank_le (fatal failed)). split; [|lia]. split_and!; [done..|]. intros _.
    destruct Hd as [->|[->|[[? _]|[_ Hl]]]]; [by left|by right; left|done|].
    right. left. by apply (shut_doomed x True); right.
  - split; [|lia]. by split_and!.
Qed.

Lemma going_down_reach g st st' :
  fatal_exits = true → rtc life_moves st st' → going_down g st → going_down g st'.
Proof. intros Hf. induction 1 as [|st1 st2 st3 Hstep _ IH]; [done|]. intros Hd. by apply IH, (going_down_step _ _ _ Hf Hstep). Qed.

(** While the process lives one of the agent's own steps brings it closer to
    its end: a step of the main goroutine and then, at the latest, the [Fatalw]
    of a server's. *)
Lemma going_down_progress g st :
  fatal_exits = true → going_down g st → L_exit st = None → ∃ st', life_moves st st' ∧ (life_rank st' < life_rank st)%nat.
Proof.
  destruct st as [g0 m s x q closed stop exit]. intros Hf (Hm & _ & Hd) He. cbn in Hm, He. subst exit. specialize (Hd eq_refl).
  unfold life_rank. destruct m; [done|..].
  - eexists. split; [eexists; by apply (StopStatus _ _ _ _ _ _ false)|]. cbn. pose proof (shut_rank s). lia.
  - eexists. split; [eexists; by apply (StopMetrics _ _ _ _ _ _ false)|]. cbn. pose proof (shut_rank x). lia.
  - unfold doomed in Hd. cbn in Hd. pose proof (exit_rank_le (fatal true)).
    destruct Hd as [->|[->|[[? _]|[[?|?] _]]]]; [..|done|done|done].
    + eexists. split; [eexists; by apply StatusStep, ReturnFatal|]. cbn. lia.
    + eexists. split; [eexists; by apply MetricsStep, ReturnFatal|]. cbn. lia.
Qed.

(** Only the return of the command is a status 0. *)
Lemma no_clean_exit st st' :
  command_exits = false → rtc life_moves st st' → L_exit st ≠ Some 0 → L_exit st' ≠ Some 0.
Proof.
  intros Hc. induction 1 as [|st1 st2 st3 [sent Hstep] _ IH]; [done|]. intros _. apply IH.
  assert (∀ called, fatal called ≠ Some 0) as Hfatal by (intros called; unfold fatal; by destruct (called && fatal_exits)).
  assert (∀ closed q, sending closed q ≠ Some 0) as Hsending by (intros closed q; unfold sending; by case_match).
  destruct Hstep; cbn; try done. by rewrite Hc in *.
Qed.

(** The main goroutine can go on to the return of [Run] first. *)
Lemma main_returns g st :
  fatal_exits = true → going_down g st → L_exit st = None →
  ∃ st', rtc life_moves st st' ∧ going_down g st' ∧ L_main st' = MainReturned ∧ L_exit st' = None.
Proof.
  intros Hf Hd He.
  assert (∀ st, going_down g st → L_exit st = None → L_main st = ShutMetrics →
    ∃ st', rtc life_moves st st' ∧ going_down g st' ∧ L_main st' = MainReturned ∧ L_exit st' = None) as Hmetrics.
  { intros [g0 m s x q closed stop exit]. cbn. intros Hdown -> ->. set (st0 := mkLife g0 ShutMetrics s x q closed stop None).
    assert (life_moves st0 (mkLife g0 MainReturned s (shut x) q closed stop None)) as Hstep.
    { eexists. by apply (StopMetrics _ _ _ _ _ _ false). }
    eexists. split; [by apply rtc_once|]. split; [|done]. by apply (going_down_step g _ _ Hf Hstep). }
  destruct st as [g0 m s x q closed stop exit]. cbn in He. subst exit. destruct m; [by destruct Hd as [[] _]|..].
  - set (st0 := mkLife g0 ShutStatus s x q closed stop None) in *.
    assert (life_moves st0 (mkLife g0 ShutMetrics (shut s) x q closed stop None)) as Hstep.
    { eexists. by apply (StopStatus _ _ _ _ _ _ false). }
    apply (going_down_step g _ _ Hf Hstep) in Hd as [Hd _].
    destruct (Hmetrics _ Hd eq_refl eq_refl) as (st' & Hreach & Hrest). exists st'. split; [by eapply rtc_l|done].
  - by apply Hmetrics.
  - eexists. by split.
Qed.

(** Either end is open. *)
Lemma both_exits g st :
  fatal_exits = true → going_down g st → L_exit st = None →
  (command_exits = true → ∃ st', rtc life_moves st st' ∧ L_exit st' = Some 0) ∧ (∃ st', rtc life_moves st st' ∧ L_exit st' = Some 1).
Proof.
  intros Hf Hd He. destruct (main_returns g st Hf Hd He) as (st1 & Hreach & (_ & _ & Hdoom) & Hm & He1).
  specialize (Hdoom He1). destruct st1 as [g1 m s x q closed stop exit]. cbn in Hm, He1. subst m exit. unfold doomed in Hdoom. cbn in Hdoom. split.
  - intros Hc. eexists. split; [eapply rtc_r; [exact Hreach|eexists; by apply MainExits]|done].
  - assert (fatal true = Some 1) as Hfatal by (unfold fatal; by rewrite Hf).
    destruct Hdoom as [->|[->|[[? _]|[[?|?] _]]]]; [..|done|done|done].
    + eexists. split; [eapply rtc_r; [exact Hreach|eexists; by apply StatusStep, ReturnFatal]|]. exact Hfatal.
    + eexists. split; [eapply rtc_r; [exact Hreach|eexists; by apply MetricsStep, ReturnFatal]|]. exact Hfatal.
Qed.

(** ** Properties *)

(** C29. The agent stores what it is sent: whatever the interleaving of the
    main loop with the goroutines that send batches, the servers and the stop,
    the data storage holds the batches that the loop has taken, applied in the
    order in which they were sent, and the others are still waiting. *)
Theorem life_stores env g sent st :
  storage_ok (DataStorage g) → life_run (life_start env g) sent st →
  ∃ taken, sent = taken ++ L_senders st ∧
    content (DataStorage (L_agent st)) = apply_events (content (DataStorage g)) (concat taken).
Proof.
  intros Hok Hrun. assert (∀ st sent st', life_run st sent st' → storage_ok (DataStorage (L_agent st)) →
    ∃ taken, L_senders st ++ sent = taken ++ L_senders st' ∧
      content (DataStorage (L_agent st')) = apply_events (content (DataStorage (L_agent st))) (concat taken)) as Hgen.
  2: { destruct (Hgen _ _ _ Hrun Hok) as (taken & Hsent & Hc). by exists taken. }
  clear. induction 1 as [st|st1 ev st2 batches st3 Hstep _ IH]; intros Hok; [exists []; by rewrite app_nil_r|].
  destruct Hstep as [g m s s' x q closed stop called Hs|g m s x x' q closed stop called Hs|g m s x q closed
    |g m s x q closed stop evs|g m s x q|g s x q closed stop now evs g' He|g s x stop|g s x q closed
    |g s x q closed stop failed Hfail|g s x q closed stop failed Hfail|g s x q closed stop]; cbn in *; try by apply IH.
  - destruct (IH Hok) as (taken & Ht & Hc). exists taken. by rewrite <- Ht, <- app_assoc.
  - injection He as <-. destruct (storeEvents_data now g evs Hok) as [Hok' Hc'].
    destruct (IH Hok') as (taken & Ht & Hc). exists (evs :: taken). rewrite Ht. split; [done|].
    by rewrite Hc, Hc', <- apply_events_app.
Qed.

(** C30. Stopping the agent while it serves HTTP.  When [Fatalw] ends the
    process: once the main loop has noticed the stop signal with a server
    listening, nothing is stored any more, no step takes the process away from
    its end, and as long as it lives one of its own steps brings it closer.
    [Shutdown] makes [ListenAndServe] return an error, on which its goroutine
    calls [Fatalw], so that an exit with status 1 is possible up to the end.
    The standalone command, which returns when [Run] does, may come first and
    exit with status 0: it is a race.  In the shared library nothing exits with
    status 0, and the process that has loaded it is ended.  Whatever [Fatalw]
    does, if a batch is waiting when the provisioner stops, or is sent later,
    before the process has exited, the provisioner's closing of the channel is a
    panic, which exits with status 2. *)
Theorem stop_races st :
  L_exit st = None →
  (fatal_exits = true → L_main st = ShutStatus → listening (L_status st) ∨ listening (L_metrics st) →
   ∀ st', rtc life_moves st st' →
     L_agent st' = L_agent st ∧
     (∀ st'', life_moves st' st'' → (life_rank st'' ≤ life_rank st')%nat) ∧
     (command_exits = false → L_exit st' ≠ Some 0) ∧
     (L_exit st' = None →
       (∃ st'', life_moves st' st'' ∧ (life_rank st'' < life_rank st')%nat) ∧
       (command_exits = true → ∃ st'', rtc life_moves st' st'' ∧ L_exit st'' = Some 0) ∧
       (∃ st'', rtc life_moves st' st'' ∧ L_exit st'' = Some 1))) ∧
  (L_stop st = true → L_closed st = false → L_senders st ≠ [] → ∃ st', life_moves st st' ∧ L_exit st' = Some 2) ∧
  (L_closed st = true → ∀ events, ∃ st', life_step (Some events) st st' ∧ L_exit st' = Some 2).
Proof.
  intros He. split_and!.
  - intros Hf Hm Hl st' Hreach.
    assert (going_down (L_agent st) st) as Hdown.
    { split_and!; [by rewrite Hm|done|]. intros _. unfold doomed. rewrite Hm. destruct Hl; auto 6. }
    apply (going_down_reach _ _ _ Hf Hreach) in Hdown as Hdown'. pose proof Hdown' as (_ & Hg & _).
    split_and!; [done|intros st'' Hstep; by apply (going_down_step (L_agent st) _ _ Hf Hstep)| |].
    + intros Hc. apply (no_clean_exit _ _ Hc Hreach). by rewrite He.
    + intros Halive. split; [by eapply going_down_progress|by apply (both_exits (L_agent st))].
  - destruct st as [g m s x q closed stop exit]. cbn in *. intros -> -> Hq. subst exit.
    eexists. split; [eexists; apply ProvisionerEnds|]. cbn. unfold sending. by destruct q.
  - destruct st as [g m s x q closed stop exit]. cbn in *. intros -> events. subst exit.
    eexists. split; [apply BatchSent|]. cbn. unfold sending. by destruct q.
Qed.

(** The main loop can also take the closed channel for its end, and leave the
    servers as they are. *)
Lemma servers_left_listening g s x :
  ∃ st, rtc life_moves (mkLife g MainLoop s x [] false true None) st ∧ L_main st = MainReturned ∧ L_exit st = None ∧
    L_status st = s ∧ L_metrics st = x.
Proof.
  eexists. split; [eapply rtc_l; [eexists; apply ProvisionerEnds|]; apply rtc_once; eexists; apply LoopClosed|]. done.
Qed.
End Shutdown.

(** ** Witnesses *)

(** With the default variables the metrics server is started. *)
Definition no_variables : environment := λ _, "".

Definition two_batches : list (list Event) := [[example_event]; [mkEvent EventDelete "/routes/1" None None 0]].

Lemma life_stores_witness :
  ∃ taken st, two_batches = taken ++ L_senders st ∧
    content (DataStorage (L_agent st)) = apply_events ∅ (concat taken) ∧
    content (DataStorage (L_agent st)) = {[ "/routes/1" := "null" ]} ∧ length (L_senders st) = 1%nat.
Proof.
  set (st := mkLife (storeEvents 1 example_agent [example_event]) MainLoop ServerOff (ServerStarting 15090)
    [[mkEvent EventDelete "/routes/1" None None 0]] false false None).
  assert (life_run true true (life_start true no_variables example_agent) two_batches st) as Hrun.
  { change two_batches with (option_list (Some [example_event]) ++ option_list (Some [mkEvent EventDelete "/routes/1" None None 0]) ++
      option_list (None (A := list Event)) ++ []).
    eapply RunStep; [apply BatchSent|]. eapply RunStep; [apply BatchSent|].
    eapply RunStep; [by apply (LoopEvents _ _ _ _ _ _ _ _ 1)|]. apply RunNil. }
  destruct (life_stores true true no_variables example_agent two_batches st) as (taken & Hsent & Hc); [exact I|exact Hrun|].
  exists taken, st. split_and!; [exact Hsent|exact Hc|by vm_compute|reflexivity].
Defined.

Lemma stop_races_witness :
  let st := mkLife example_agent ShutStatus ServerOff (ServerListening 15090) [] false true None in
  (∃ st', rtc (life_moves true true) st st' ∧ L_exit st' = Some 0) ∧
  (∀ command, ∃ st', rtc (life_moves true command) st st' ∧ L_exit st' = Some 1) ∧
  ∀ st', rtc (life_moves true false) st st' →
    L_exit st' ≠ Some 0 ∧ (L_exit st' = None → ∃ st'', life_moves true false st' st'' ∧ (life_rank st'' < life_rank st')%nat).
Proof.
  intros st.
  assert (listening (L_status st) ∨ listening (L_metrics st)) as Hl by (right; by exists 15090).
  split; [|split].
  - destruct (stop_races true true st eq_refl) as (Hrun & _).
    destruct (Hrun eq_refl eq_refl Hl st (rtc_refl _ st)) as (_ & _ & _ & Halive). by destruct (Halive eq_refl) as (_ & Hclean & _); apply Hclean.
  - intros command. destruct (stop_races true command st eq_refl) as (Hrun & _).
    destruct (Hrun eq_refl eq_refl Hl st (rtc_refl _ st)) as (_ & _ & _ & Halive). by destruct (Halive eq_refl) as (_ & _ & Hfatal).
  - intros st' Hreach. destruct (stop_races true false st eq_refl) as (Hrun & _).
    destruct (Hrun eq_refl eq_refl Hl st' Hreach) as (_ & _ & Hzero & Halive).
    split; [by apply Hzero|]. intros Hnone. by destruct (Halive Hnone) as (Hstep & _).
Defined.
