(* ===== verification/Commands.v ===== *)
(** * The entry points of the agent (src/cmd/dynamic, src/cmd/standalone)

    How the shared library loaded by APISIX and the standalone command build
    the agent from the environment and their options. *)

From S2P Require Import Prelude GoStrings GoNum Storage Agent Xds AmeshPlugins Provisioner.
Local Open Scope Z_scope.

(** [utils.Dief] exits the process. *)
Inductive started (A : Type) : Type :=
| Running (a : A)
| Dief (what : string).
Arguments Running {A} a.
Arguments Dief {A} what.

(** ** cmd/dynamic *)

(** The sources and the sync interval, with their defaults. *)
Definition dynamic_options (env : environment) : started (string * string * Z) :=
  let src := if bool_decide (env "ISTIO_XDS_SOURCE" = "") then "grpc://istiod.istio-system.svc.cluster.local:15010"
             else env "ISTIO_XDS_SOURCE" in
  let ameshGrpc := if bool_decide (env "AMESH_GRPC_SOURCE" = "")
                   then "grpc://amesh-controller.istio-system.svc.cluster.local:15810"
                   else env "AMESH_GRPC_SOURCE" in
  let syncInterval := if bool_decide (env "AMESH_SYNC_INTERVAL" = "") then "10" else env "AMESH_SYNC_INTERVAL" in
  match ParseInt 64 syncInterval with
  | None => Dief "parse interval failed"
  | Some interval => Running (src, ameshGrpc, interval)
  end.

(** Running an agent that was created, or exiting. *)
Definition created {A} (res : A + error) : started A :=
  match res with inl a => Running a | inr err => Dief ("failed to create generator: " +:+ error_text err) end.

(** [initial]: [interfaces], [version], [uuid], [logger] and [now] are what the
    constructors read from the system. *)
Definition initial {S} (env : environment) (interfaces : list iface + error) (version uuid : string)
    (logger : option error) (now : Z) (dataZone versionZone : S) : outcome (started (Agent S * xdsProvisioner)) :=
  match dynamic_options env with
  | Dief what => Ret (Dief what)
  | Running (src, ameshGrpc, interval) =>
      res ← NewAgent env interfaces version uuid logger now src ameshGrpc interval dataZone versionZone "debug" "stderr";
      Ret (created res)
  end.

(** [StartTestAmesh] *)
Definition StartTestAmesh {S} (env : environment) (interfaces : list iface + error) (version uuid : string)
    (logger : option error) (now : Z) (nil : S) (src : string) : outcome (started (Agent S * xdsProvisioner)) :=
  res ← NewAgent env interfaces version uuid logger now src "" 0 nil nil "debug" "stderr";
  Ret (created res).

(** ** cmd/standalone *)

Record StandaloneConfig := mkStandaloneConfig {
  LogLevel : string;
  LogOutput : string;
  XDSConfigSource : string
}.

Definition NewDefaultConfig : StandaloneConfig := mkStandaloneConfig "info" "stderr" "".

(** The "run" command; [log_error] is the error of its own logger. *)
Definition run_command {S} (env : environment) (interfaces : list iface + error) (version uuid : string)
    (log_error logger : option error) (now : Z) (nil : S) (cfg : StandaloneConfig) :
    outcome (started (Agent S * xdsProvisioner)) :=
  match log_error with
  | Some err => Ret (Dief ("failed to set logger: " +:+ error_text err))
  | None =>
      res ← NewAgent env interfaces version uuid logger now (XDSConfigSource cfg) "" 0 nil nil (LogLevel cfg) (LogOutput cfg);
      Ret (created res)
  end.

(** ** Lemmas *)

Lemma NewAgent_amesh {S} env interfaces version uuid logger now src ameshGrpc interval (d v : S) ll lo g p :
  NewAgent env interfaces version uuid logger now src ameshGrpc interval d v ll lo = Ret (inl (g, p)) →
  is_Some (XP_amesh p) ↔ ameshGrpc ≠ "".
Proof.
  unfold NewAgent. intros H. destruct (getIpAddr interfaces) as [[ip|]|]; cbn in H; [|done|done].
  destruct (NewXDSProvisioner _ _ _ _) as [p'|] eqn:Hp; [|done]. injection H as _ <-.
  unfold NewXDSProvisioner in Hp. destruct logger; [done|]. destruct (negb (HasPrefix _ _)); [done|].
  cbn [Config_AmeshConfigSource agent_config] in Hp.
  destruct (decide (ameshGrpc = "")) as [->|Hne].
  - rewrite bool_decide_true in Hp by done. injection Hp as <-. cbn. split; [by intros []|done].
  - rewrite bool_decide_false in Hp by done. cbn [negb] in Hp.
    destruct (NewAmeshProvisioner _ _) as [am|]; [|done]. injection Hp as <-. split; [done|by eexists].
Qed.

(** The agent that APISIX loads always has an Amesh source. *)
Lemma initial_amesh {S} env interfaces version uuid logger now (d v : S) g p :
  initial env interfaces version uuid logger now d v = Ret (Running (g, p)) → is_Some (XP_amesh p).
Proof.
  unfold initial, dynamic_options. intros H. destruct (ParseInt 64 _); [|done].
  apply bind_ret in H as ([[g' p']|err] & Hn & H); [|done]. injection H as -> ->.
  apply NewAgent_amesh in Hn. apply Hn. by case_bool_decide.
Qed.

(** The standalone agent never has one: its plugin goroutine panics. *)
Lemma standalone_panics {S} env interfaces version uuid log_error logger now (nil : S) cfg g p :
  run_command env interfaces version uuid log_error logger now nil cfg = Ret (Running (g, p)) →
  plugins_channel p = Panic "nil pointer dereference: p.amesh".
Proof.
  unfold run_command. intros H. destruct log_error; [done|].
  apply bind_ret in H as ([[g' p']|err] & Hn & H); [|done]. injection H as -> ->.
  apply NewAgent_amesh in Hn. unfold plugins_channel.
  destruct (XP_amesh p) as [am|]; [|done]. destruct Hn as [Hn _]. exfalso. apply Hn; [by eexists|done].
Qed.
