(* ===== verification/CommandLine.v ===== *)
(** * The command lines (src/cmd/iptables/main.go, src/cmd/standalone/main.go,
    src/pkg/version/version.go, src/pkg/utils/signal.go)

    A command is its flags, each bound to a variable with a default, and what
    it runs.  cobra and pflag read the arguments: what they make of them is
    [cobra_result], an input.  The commands themselves are those of Iptables.v
    and Commands.v. *)

From S2P Require Import Prelude GoStrings GoNum Storage Agent Xds AmeshPlugins Provisioner.
From S2P Require Import Iptables Commands.
Local Open Scope Z_scope.

(** ** Flags *)

Inductive flag_value : Type :=
| FlagString (s : string)
| FlagBool (b : bool).

(** [StringVar] and [BoolVar]: the default is stored in the variable at once,
    the values of the command line when they are read. *)
Inductive flag (V : Type) : Type :=
| StringVar (name value : string) (set : string → V → V)
| BoolVar (name : string) (value : bool) (set : bool → V → V).
Arguments StringVar {V} name value set.
Arguments BoolVar {V} name value set.

(** What cobra does with the arguments: it refuses them, shows the help, or
    runs a command with the flags that it read, in order. *)
Inductive cobra_result : Type :=
| BadArguments (err : error)
| ShowHelp
| RunWith (flags : list (string * flag_value)).

Section Flags.
Context {V : Type}.

Definition flag_name (f : flag V) : string :=
  match f with StringVar name _ _ | BoolVar name _ _ => name end.

Definition flag_default (v : V) (f : flag V) : V :=
  match f with
  | StringVar _ value set => set value v
  | BoolVar _ value set => set value v
  end.

Definition flag_set (value : flag_value) (v : V) (f : flag V) : V :=
  match f, value with
  | StringVar _ _ set, FlagString s => set s v
  | BoolVar _ _ set, FlagBool b => set b v
  | _, _ => v        (** not read by pflag *)
  end.

Definition find_flag (flags : list (flag V)) (name : string) : option (flag V) :=
  snd <$> list_find (λ f, flag_name f = name) flags.

(** The variables when the command runs. *)
Definition read_flags (flags : list (flag V)) (v : V) (values : list (string * flag_value)) : V :=
  foldl (λ v nv, match find_flag flags nv.1 with Some f => flag_set nv.2 v f | None => v end)
    (foldl flag_default v flags) values.

Lemma find_flag_name flags name f : find_flag flags name = Some f → f ∈ flags ∧ flag_name f = name.
Proof.
  unfold find_flag. intros ([i f'] & Hf & ->)%fmap_Some. apply list_find_Some in Hf as (Hi & Hn & _).
  by split; [eapply list_elem_of_lookup_2|].
Qed.
End Flags.

(** ** cmd/iptables *)

(** [iptablesconf.Config], as far as the command sets it, and [proxyUser]. *)
Record iptables_vars := mkIptablesVars {
  IV_InboundInterceptionMode : string;
  IV_InboundCapturePort : string;
  IV_ProxyPort : string;
  IV_InboundPortsInclude : string;
  IV_OutboundPortsInclude : string;
  IV_InboundPortsExclude : string;
  IV_OutboundPortsExclude : string;
  IV_DryRun : bool;
  IV_proxyUser : string
}.

Definition zero_vars : iptables_vars := mkIptablesVars "" "" "" "" "" "" "" false "".

Definition newCommand : list (flag iptables_vars) := [
  StringVar "inbound-interception-mode" "REDIRECT" (λ s '(mkIptablesVars _ c p ii oi ie oe d u), mkIptablesVars s c p ii oi ie oe d u);
  StringVar "apisix-inbound-capture-port" "9081" (λ s '(mkIptablesVars m _ p ii oi ie oe d u), mkIptablesVars m s p ii oi ie oe d u);
  StringVar "apisix-port" "9080" (λ s '(mkIptablesVars m c _ ii oi ie oe d u), mkIptablesVars m c s ii oi ie oe d u);
  StringVar "inbound-ports" "" (λ s '(mkIptablesVars m c p _ oi ie oe d u), mkIptablesVars m c p s oi ie oe d u);
  StringVar "outbound-ports" "" (λ s '(mkIptablesVars m c p ii _ ie oe d u), mkIptablesVars m c p ii s ie oe d u);
  StringVar "inbound-exclude-ports" "" (λ s '(mkIptablesVars m c p ii oi _ oe d u), mkIptablesVars m c p ii oi s oe d u);
  StringVar "outbound-exclude-ports" "" (λ s '(mkIptablesVars m c p ii oi ie _ d u), mkIptablesVars m c p ii oi ie s d u);
  BoolVar "dry-run" false (λ b '(mkIptablesVars m c p ii oi ie oe _ u), mkIptablesVars m c p ii oi ie oe b u);
  StringVar "apisix-user" "nobody" (λ s '(mkIptablesVars m c p ii oi ie oe d _), mkIptablesVars m c p ii oi ie oe d s)
].

Inductive dependencies : Type := StdoutStubDependencies | RealDependencies.

(** The end of the process: its exit code, or the commands that were given to
    the dependencies. *)
Inductive iptables_ending : Type :=
| IptablesExit (code : Z)
| IptablesHelp
| IptablesRan (dep : dependencies) (commands : list (string * list string)).

Section IptablesCommand.
Context (Lookup : string → (string * string) + error).      (** [user.Lookup]: uid and gid *)
Context (BuildV4 : list rule → list (list string)).

Definition iptables_conf (v : iptables_vars) (uid gid : string) : iptables_config :=
  mkIptablesConfig (IV_ProxyPort v) (IV_InboundCapturePort v) (IV_InboundPortsInclude v) (IV_InboundPortsExclude v)
    (IV_OutboundPortsInclude v) (IV_OutboundPortsExclude v) uid gid.

Definition iptables_Run (v : iptables_vars) : outcome (dependencies * list (string * list string)) :=
  let dep := if IV_DryRun v then StdoutStubDependencies else RealDependencies in
  match Lookup (IV_proxyUser v) with
  | inr err => Panic (error_text err)
  | inl (uid, gid) => commands ← iptables_run BuildV4 (iptables_conf v uid gid); Ret (dep, commands)
  end.

Definition iptables_main (res : cobra_result) : outcome iptables_ending :=
  match res with
  | BadArguments _ => Ret (IptablesExit (-1))
  | ShowHelp => Ret IptablesHelp
  | RunWith flags =>
      res ← iptables_Run (read_flags newCommand zero_vars flags);
      Ret (IptablesRan res.1 res.2)
  end.

(** Without flags the rules are those of the defaults, for the user nobody. *)
Lemma iptables_main_default uid gid :
  Lookup "nobody" = inl (uid, gid) →
  iptables_main (RunWith []) =
    (commands ← iptables_run BuildV4 (default_config uid gid); Ret (IptablesRan RealDependencies commands)).
Proof. unfold iptables_main, iptables_Run. cbn. intros ->. by destruct (iptables_run _ _). Qed.

(** The interception mode has no effect, wherever it stands. *)
Lemma interception_mode_ignored before mode after :
  iptables_main (RunWith (before ++ ("inbound-interception-mode", FlagString mode) :: after)) =
  iptables_main (RunWith (before ++ after)).
Proof.
  set (same (v w : iptables_vars) := ∃ m, v = match w with mkIptablesVars _ c p ii oi ie oe d u => mkIptablesVars m c p ii oi ie oe d u end).
  assert (∀ v w f value, f ∈ newCommand → same v w → same (flag_set value v f) (flag_set value w f)) as Hset.
  { intros v w f value Hf [m ->]. destruct w as [m' c p ii oi ie oe d u]. unfold newCommand in Hf.
    repeat (apply elem_of_cons in Hf as [->|Hf]; [destruct value; (by eexists)|]). by apply elem_of_nil in Hf. }
  assert (∀ values v w, same v w →
    let step := λ v nv, match find_flag newCommand nv.1 with Some f => flag_set nv.2 v f | None => v end in
    same (foldl step v values) (foldl step w values)) as Hfold.
  { induction values as [|[name value] values IH]; intros v w Hs; [done|]. cbn [foldl fst snd]. apply IH.
    destruct (find_flag newCommand name) as [f|] eqn:Hf; [|done]. apply Hset; [|done]. by apply find_flag_name in Hf as [Hf _]. }
  assert (∀ v w, same v w → iptables_Run v = iptables_Run w) as Hrun by (by intros v w [m ->]; destruct w).
  unfold iptables_main, read_flags. erewrite Hrun; [done|]. rewrite !foldl_app. cbn [foldl fst snd]. apply Hfold.
  set (v := foldl _ _ before). exists mode. by destruct v.
Qed.

(** A dry run never touches the system. *)
Lemma dry_run_dependencies v dep commands :
  iptables_Run v = Ret (dep, commands) → dep = RealDependencies ↔ IV_DryRun v = false.
Proof.
  unfold iptables_Run. destruct (Lookup _) as [[uid gid]|]; [|done].
  intros (cs & _ & [= <- _])%bind_ret. by destruct (IV_DryRun v).
Qed.
End IptablesCommand.

(** ** cmd/standalone *)

Definition NewRunCommand : list (flag StandaloneConfig) := [
  StringVar "log-output" "stderr" (λ s '(mkStandaloneConfig level _ source), mkStandaloneConfig level s source);
  StringVar "log-level" "info" (λ s '(mkStandaloneConfig _ output source), mkStandaloneConfig s output source);
  StringVar "xds-config-source" "" (λ s '(mkStandaloneConfig level output _), mkStandaloneConfig level output s)
].

(** [WaitForSignal]: the signals that arrive, until one that is waited for. *)
Inductive os_signal : Type := SIGTERM | SIGQUIT | SIGINT | OtherSignal (number : Z).

Definition waited_for (sig : os_signal) : bool :=
  match sig with OtherSignal _ => false | _ => true end.

Definition WaitForSignal {A} (signals : list os_signal) (callback : A) : option A :=
  if existsb waited_for signals then Some callback else None.

(** The end of the standalone command.  [NewAmeshCommand] has no [Run] of its
    own: without the subcommand it shows the help. *)
Inductive standalone_ending (A : Type) : Type :=
| StandaloneExit (code : Z)
| StandaloneHelp
| StandaloneDied (what : string)
| StandaloneServing (a : A)      (** in [Run], until the context is cancelled *)
| StandaloneReturned.
Arguments StandaloneExit {A} code.
Arguments StandaloneHelp {A}.
Arguments StandaloneDied {A} what.
Arguments StandaloneServing {A} a.
Arguments StandaloneReturned {A}.

(** After the agent was created: the context is cancelled by the callback of
    [WaitForSignal]; [run_err] is what the agent's [Run] returns then. *)
Definition standalone_run {A} (res : started A) (signals : list os_signal) (run_err : option error) : standalone_ending A :=
  match res with
  | Dief what => StandaloneDied what
  | Running a =>
      match WaitForSignal signals tt with
      | None => StandaloneServing a
      | Some _ =>
          match run_err with
          | Some err => StandaloneDied ("agent error: " +:+ error_text err)
          | None => StandaloneReturned
          end
      end
  end.

Definition NewAmeshCommand {S} (env : environment) (interfaces : list iface + error) (version uuid : string)
    (log_error logger : option error) (now : Z) (nil : S) (res : cobra_result) (signals : list os_signal)
    (run_err : option error) : outcome (standalone_ending (Agent S * xdsProvisioner)) :=
  match res with
  | BadArguments _ => Ret (StandaloneExit (-1))
  | ShowHelp => Ret StandaloneHelp
  | RunWith flags =>
      agent ← run_command env interfaces version uuid log_error logger now nil (read_flags NewRunCommand NewDefaultConfig flags);
      Ret (standalone_run agent signals run_err)
  end.

(** The flags' defaults are the default configuration. *)
Lemma NewRunCommand_defaults : read_flags NewRunCommand NewDefaultConfig [] = NewDefaultConfig.
Proof. done. Qed.

(** The source of the agent is the last [--xds-config-source], empty without
    one. *)
Lemma read_source values cfg :
  XDSConfigSource (foldl (λ v nv, match find_flag NewRunCommand nv.1 with Some f => flag_set nv.2 v f | None => v end) cfg values) =
  foldl (λ source nv, match nv.2 with
    | FlagString s => if bool_decide (nv.1 = "xds-config-source") then s else source
    | FlagBool _ => source
    end) (XDSConfigSource cfg) values.
Proof.
  revert cfg. induction values as [|[name value] values IH]; intros cfg; [done|]. cbn [foldl fst snd]. rewrite IH. f_equal.
  destruct (decide (name = "xds-config-source")) as [->|Hne]; [by destruct value, cfg|].
  transitivity (XDSConfigSource cfg); [|destruct value; [by rewrite bool_decide_false|done]].
  destruct (find_flag NewRunCommand name) as [f|] eqn:Hf; [|done]. apply find_flag_name in Hf as [Hf Hname].
  unfold NewRunCommand in Hf. repeat (apply elem_of_cons in Hf as [->|Hf]; [|]); [by destruct value, cfg..|by destruct Hne|by apply elem_of_nil in Hf].
Qed.

(** An agent needs a gRPC source, so without that flag the command dies. *)
Lemma standalone_needs_source {S} env interfaces version uuid log_error logger now (nil : S) cfg a :
  run_command env interfaces version uuid log_error logger now nil cfg = Ret (Running a) →
  HasPrefix (XDSConfigSource cfg) "grpc://" = true.
Proof.
  unfold run_command. intros Hrun. destruct log_error; [done|]. apply bind_ret in Hrun as ([[g p]|err] & Hn & Hrun); [|done].
  unfold NewAgent in Hn. destruct (getIpAddr interfaces) as [[ip|]|]; cbn in Hn; [|done|done].
  destruct (NewXDSProvisioner _ _ _ _) as [p'|] eqn:Hp; [|done]. unfold NewXDSProvisioner in Hp. destruct logger; [done|].
  by destruct (HasPrefix _ _) eqn:Hpre.
Qed.

(** ** The version *)

(** The variables of the package, set when the program is linked. *)
Record build_info := mkBuildInfo {
  _version : string;
  _gitRevision : string;
  _timestamp : string
}.

Definition default_build : build_info := mkBuildInfo "unknown" "unknown" "0".

Definition newline : string := String "010" "".

Section Version.
(** [runtime.Version()], [GOOS], [GOARCH] and the text of a time in seconds. *)
Context (go_version GOOS GOARCH : string) (unix_String : Z → string).

Definition version_Short (b : build_info) : string := _version b.

Definition version_String (b : build_info) : string :=
  "Version: " +:+ _version b +:+ newline +:+
  "Git SHA: " +:+ _gitRevision b +:+ newline +:+
  "Go Version: " +:+ go_version +:+ newline +:+
  "OS/Arch: " +:+ GOOS +:+ "/" +:+ GOARCH +:+ newline +:+
  match ParseInt 32 (_timestamp b) with
  | None => "Build Date: unknown" +:+ newline
  | Some ts => "Build Date: " +:+ unix_String ts +:+ newline
  end.

(** A build after January 2038 has no date: the timestamp is read into 32
    bits. *)
Lemma version_2038 b : _timestamp b = "2147483648" →
  ∃ prefix, version_String b = prefix +:+ "Build Date: unknown" +:+ newline.
Proof.
  intros Ht. unfold version_String. rewrite Ht. change (ParseInt 32 "2147483648") with (@None Z).
  cbv iota. rewrite !append_assoc. eexists. by rewrite (append_assoc _ "Build Date: unknown" newline).
Qed.
End Version.
